(* ===== verification/_CoqProject ===== *)
-Q . S2P
Prelude.v
CStr.v
Regex.v
Utils.v
RadosWorker.v
WorkerStop.v
RadosWrapper.v
ProxyTools.v
WorkerLife.v
CephProxy.v
ContextRace.v
ProxySystem.v
RequestLife.v
CephMsgr.v
MapMemory.v
Interface.v
MsgrStart.v
RadosMonitor.v
Encoding.v
MsgModule.v
Throttle.v
NetworkModule.v
RequestTypes.v
Qos.v
OpQueue.v
ServerSystem.v
ServerProgress.v
OpEncode.v
ClassApi.v
OsaExec.v
ClassHandler.v
ClassUtil.v
Tracing.v
OsaInit.v
Server.v
RbdWrapper.v
