(* ===== verification/Prelude.v ===== *)
(** * A verification library for the global-cache adaptor

    The repository holds two programs that sit between Ceph and a global cache.

    The {e server adaptor} (src/src/server_adaptor) receives Ceph OSD messages,
    queues them per object, converts them into requests of the cache engine
    (reached through the callbacks of src/src/dependency/include/sa_export.h),
    limits how many are in flight, encodes the engine's answers into replies and
    lets object classes run against the engine.  The {e client adaptor}
    (src/src/ceph_proxy) lets the engine read and write its backing Ceph cluster:
    it builds librados operations, queues them to worker threads per pool, keeps
    the IO contexts of several librados clients, follows the cluster's OSD map
    and answers questions about pools and images.

    ** The files

    - [Prelude] (this file), [CStr], [Regex]: machine integers with their
      wrap-around, errno values, lists, what the source uses of the C library on
      strings ([strtok_r], [strtol], [strtoull], [atoi], ordered maps of strings)
      and of [std::regex_match].
    - [Utils] (utils.h): [ConcurrentQueue] on an explicit heap of nodes, and
      [Semaphore] as interleaved steps of any number of threads.
    - [RadosWorker] (RadosWorker.h, RadosWorker.cc): [RadosIOWorker], the lanes of
      a pool with producers, worker threads and the stopping thread, against the
      class [FIFO] that [ConcurrentQueue] implements; [RadosWorker], the table of
      workers.
    - [WorkerStop] (RadosWorker.h): how the workers are stopped and joined, and
      their threads.
    - [RadosWrapper] (RadosWrapper.cc, Gcbufferlist.h, CephProxyOp.h): [Wrapper],
      connecting a client; [IoCtx], contexts and statistics; [GcBuffer], the
      gathering and scattering of chained page lists; [RadosOp], the builders of
      operations, the completion callbacks and the iterators.
    - [ProxyTools] (RadosWrapper.cc): the binding of librados' threads to cores, and
      [ceph_status].
    - [WorkerLife] (RadosWorker.h): what a worker allocates and gives back, and threads
      that cannot be created.
    - [CephProxy] (CephProxy.cc, PoolContext.h, ConfigRead.cc): the configuration,
      the context tables, and the proxy's life cycle.
    - [ContextRace] (CephProxy.cc, PoolContext.h): threads that ask for the context of
      a pool at once; the table's lock does not cover looking up, creating and inserting.
    - [ProxySystem]: the proxy, its callers (with the three steps of [ContextRace]),
      its workers and its shutdown together.
    - [RequestLife] (CephProxyOp.cc, RadosWrapper.cc, RadosWorker.cc): the life of
      operations, completions, iterators and request contexts on a heap, with worker
      threads, their stop flag and semaphores, and librados' callbacks in between.
    - [CephMsgr] (CephMsgr.cc, CcmAdaptor.cc, CephProxyInterface.cc): following
      the OSD map, the figures of [ceph df], the flat copies of the maps.
    - [MapMemory] (CephProxyInterface.cc): the arrays of the maps handed to C callers,
      on a heap: what is allocated, written and given back.
    - [Interface] (CephProxyInterface.cc, CephProxyOp.cc): the C interface: the
      process-wide proxy behind its handle, and the functions that forward.
    - [MsgrStart] (CephMsgr.cc): how the Ceph client stack of the proxy comes up and
      goes down, and the thread that polls the figures of the pools.
    - [RadosMonitor] (RadosMonitor.cc): the statistics of the pools, read from a
      text table by regular expressions into doubles, and the timer that does it.
    - [RbdWrapper] (RbdWrapper.cc): the librbd calls and their shared client.
    - [Encoding]: the part of Ceph's encoding of strings, lists, maps and sets
      that the server uses, over the class [CephInts] of integer codecs.
    - [MsgModule] (sa_def.h, msg_module.cpp): the data of requests and the
      conversion of one client operation.
    - [Throttle] (network_module.cpp): the compare-and-swap counters, one step per
      atomic access.
    - [NetworkModule] (network_module.cpp): the conversion of a whole message, rbd
      object names, and the accounting of the throttles over admission and reply.
    - [RequestTypes]: the type of the requests, and that the conversion makes
      requests of that type.
    - [Qos] (network_module.cpp): the limits on the bandwidth and the number of
      client writes, window by window.
    - [OpQueue] (client_op_queue.h, network_module.cpp): dispatchers, queues and
      workers, with condition variables, copyup barrier, the limits of [Qos] under
      the mutex of a queue, and [StopThread].
    - [ServerSystem] (network_module.cpp): queues, conversion, throttles access by access,
      the engine and the replies as one system; [ServerProgress]: that it answers.
    - [OpEncode] (network_module.cpp): the encoders of replies.
    - [ClassApi] (class_api.cc): the object-class API on top of the engine.
    - [OsaExec] (osa.cpp): running a class call, merging a copyup.
    - [ClassHandler] (ClassHandler.cc, ClassHandler.h, class_api.cc): loading classes
      with their dependencies, what they register, and running a method.
    - [ClassUtil] (class_api.cc): unregistration, random strings and the logging loop.
    - [Tracing] (salog.cpp, msg_perf_record.cc, CephProxyFtds.cc): the lines handed to the
      engine, the recorder of latencies, the trace counters.
    - [OsaInit] (config_read.cpp, osa.cpp): reading and checking the server's
      configuration, start and stop.
    - [Server] (network_module.cpp, sa_server_dispatcher.cpp): the sockets of the
      server with their throttlers, its start port by port and its stop, and the
      dispatch of messages.

    Definitions keep the source's names; the manifest beside this directory maps
    each one to its lines.

    ** How the code is modelled

    Sequential code is a function from state to result and state, with the early
    returns of the source; [option] or a sum is used where the source can fault
    (null dereference, access outside a buffer, an exception that nobody catches,
    undefined arithmetic), so a theorem that gives a result also says there is no
    such fault.  Concurrent code is a transition system: a label is one critical
    section or one atomic access, [step] is a partial function, [run] folds it
    over a trace, and the theorems quantify over all traces.  Allocation failures
    are inputs where the source handles them.

    librados, librbd, the Ceph messages' decoders of integers, the configuration
    library, the class libraries and the cache engine are not part of the
    repository.  They are parameters: results that a definition takes, functions
    of a Section, or classes ([CephInts], [OSDMapLib]) whose laws state the
    documented behaviour; every property with such a parameter is instantiated
    with a concrete one in its witness.

    ** What the theorems show

    - Order: [op_order], [per_object_order] and [one_worker_per_pool] (the requests
      of one object stay in order on both sides), [copyup_barrier];
      [one_reply_per_message], [requests_safe] (each request is answered at most once).
    - Progress: [server_answers_all], [requests_answered], [worker_drains], [stop_joins], [shutdown_completes], [semaphore_correct], [queue_bounded],
      [handle_osd_map_progress], [open_class_correct], [copyup_flag_released], [poll_thread_joins].
    - Faithful conversion: [ProcessOpReq_faithful], [ProcessOpReq_typed], [ConvertOmapOp_roundtrip],
      [replies_decode], [class_reads_engine_data], [rbd_objid_injective],
      [write_bl_gathers], [read_bl_scatters], [MergeCopyup_correct],
      [omap_iteration], [CephDf_correct], [CephProxyGetOSDMap_faithful],
      [row_roundtrip].
    - Resources: [no_use_after_release], [racing_getters], [requests_safe], [osd_map_given_back],
      [pg_map_given_back], [server_accounts], [GetIoCtxWithClient_correct], [Shutdown_releases],
      [client_lifetime], [librbd_calls_balanced], [throttle_accounting],
      [counter_exact], [reading_restores], [round_publishes],
      [server_stop].
    - Limits: [bw_windows], [quota_scaling], [limit_holds_queue].
    - Start-up and errors: [validate_sound], [server_start],
      [start_reports_ports], [start_outcome], [proxy_lifecycle],
      [init_msgr_all_or_nothing], [open_all_classes_correct], [ceph_status_spec],
      [RadosClientInit_correct], [ProxyConfigInit_partial], [malformed_op_throws].
    - Refinement: [server_refines_queues] (the theorems on [OpQueue] hold of the whole
      server), [queue_refines_fifo], and [worker_drains]'s [FIFO] interface.

    Where the code does not do what it means to, the theorem states what it does:
    [waiting_workers_deadlock], [map_needs_every_allocation], [map_given_back_twice],
    [omap_keys_never_iterated], [ended_iterator_reused], [iops_limit_unscaled], [stripe_error_sticks], [stop_loses_wakeup],
    [stop_drops_queued], [refused_thread_starves], [worker_memory], [refused_messages_block_workers],
    [empty_value_breaks_reply], [merge_overflow], [guarded_put_underflows],
    [partial_open_leaks], [writes_accumulate], [write_omap_cmp_unguarded],
    [requests_answered] (what a stop leaves), [scatter_ignores_entrySumList], [oversized_values_accepted].

    ** Fuel

    [strtok] takes the length of its string plus one, each round consuming a
    character ([strtok_loop_fuel]).  [gather] and [scatter] take 64 rounds per
    list and one more ([chain_fuel]).  [update_loop] takes the number of epochs to
    go plus one, and is shown not to run out.  [_load_class] needs more fuel than
    the class's rank in the (acyclic) dependencies.  [drain] needs one more round
    than the queue has nodes.

    [log_loop] needs seven rounds ([cls_log_total]).  [server_answers_all] and
    [requests_answered] bound the steps that are left by a measure instead of fuel.

    ** What is not modelled

    The functions of the class API that return fields of Ceph's connection or its feature
    bits; the contents of images.
    The log macros of CephProxyLog.h and the trace macros of CephProxyFtds.h;
    authentication; the patches to Ceph, the build files and the packaging. *)

From Stdlib Require Export Ascii ZArith Lia Sorted.
From stdpp Require Export base tactics numbers list gmap strings pretty relations.

#[global] Set Default Goal Selector "!".
#[global] Open Scope Z_scope.

(** ** Machine integers

    A C++ integer of width [w] is a [Z] in the range of its type; every
    conversion the source performs is written out with one of these. *)

Definition wrap (w x : Z) : Z := x mod 2 ^ w.
Definition u16 (x : Z) : Z := wrap 16 x.
Definition u32 (x : Z) : Z := wrap 32 x.
Definition u64 (x : Z) : Z := wrap 64 x.
(** Conversion to the signed type of the same width (two's complement). *)
Definition swrap (w x : Z) : Z := (x + 2 ^ (w - 1)) mod 2 ^ w - 2 ^ (w - 1).
Definition s32 (x : Z) : Z := swrap 32 x.
Definition s64 (x : Z) : Z := swrap 64 x.

Definition UINT32_MAX : Z := 2 ^ 32 - 1.
Definition UINT64_MAX : Z := 2 ^ 64 - 1.
Definition INT_MAX : Z := 2 ^ 31 - 1.

(** ** The errno values the source returns (negated). *)
Definition EPERM : Z := 1.
Definition ENOENT : Z := 2.
Definition EIO : Z := 5.
Definition ENOMEM : Z := 12.
Definition EACCES : Z := 13.
Definition EINVAL : Z := 22.
Definition ERANGE : Z := 34.
Definition EOPNOTSUPP : Z := 95.

(** ** Byte strings

    [std::string], [char] buffers and the contents of a bufferlist are all
    lists of characters. *)
Abbreviation bytes := (list Ascii.ascii).
Definition bs (s : string) : bytes := String.list_ascii_of_string s.
#[global] Arguments bs : simpl never.
Definition NUL : Ascii.ascii := Ascii.zero.

(** Length of a byte string as the source sees it. *)
Definition len {A} (l : list A) : Z := Z.of_nat (length l).

(** ** Automation *)
Create HintDb gca.
Create Rewrite HintDb gca.
#[export] Hint Constants Opaque : gca.

(** Turn boolean integer tests of the code into propositions. *)
Ltac bprop :=
  repeat match goal with
  | H : (_ =? _) = true |- _ => apply Z.eqb_eq in H
  | H : (_ =? _) = false |- _ => apply Z.eqb_neq in H
  | H : (_ <? _) = true |- _ => apply Z.ltb_lt in H
  | H : (_ <? _) = false |- _ => apply Z.ltb_ge in H
  | H : (_ <=? _) = true |- _ => apply Z.leb_le in H
  | H : (_ <=? _) = false |- _ => apply Z.leb_gt in H
  | H : (_ && _) = true |- _ => apply andb_true_iff in H as [? ?]
  | H : (_ || _) = false |- _ => apply orb_false_iff in H as [? ?]
  | H : negb _ = true |- _ => apply negb_true_iff in H
  | H : negb _ = false |- _ => apply negb_false_iff in H
  end.

(** Case analysis on every [if]/[match] scrutinee of the goal. *)
Ltac bcase := repeat (case_match; bprop; simplify_eq/=).

(** ** Lemmas on machine integers *)

Lemma wrap_range w x : 0 <= w -> 0 <= wrap w x < 2 ^ w.
Proof. intros. unfold wrap. apply Z.mod_pos_bound. lia. Qed.

Lemma wrap_small w x : 0 <= x < 2 ^ w -> wrap w x = x.
Proof. intros. unfold wrap. by apply Z.mod_small. Qed.

Lemma wrap_wrap w x : wrap w (wrap w x) = wrap w x.
Proof. unfold wrap. destruct (decide (2 ^ w = 0)) as [->|]; [by rewrite !Z.mod_0_r|].
  by apply Z.mod_mod. Qed.

Lemma wrap_add_l w x y : 0 <= w -> wrap w (wrap w x + y) = wrap w (x + y).
Proof. intros. unfold wrap. apply Zplus_mod_idemp_l. Qed.

Lemma u32_range x : 0 <= u32 x < 2 ^ 32.
Proof. by apply wrap_range. Qed.
Lemma u64_range x : 0 <= u64 x < 2 ^ 64.
Proof. by apply wrap_range. Qed.
Lemma u32_small x : 0 <= x < 2 ^ 32 -> u32 x = x.
Proof. apply wrap_small. Qed.
Lemma u64_small x : 0 <= x < 2 ^ 64 -> u64 x = x.
Proof. apply wrap_small. Qed.

Lemma swrap_range w x : 0 < w -> - 2 ^ (w - 1) <= swrap w x < 2 ^ (w - 1).
Proof.
  intros Hw. unfold swrap.
  assert (2 ^ w = 2 * 2 ^ (w - 1)) as Hp.
  { rewrite <- Z.pow_succ_r by lia. f_equal. lia. }
  assert (0 < 2 ^ (w - 1)) by (apply Z.pow_pos_nonneg; lia).
  pose proof (Z.mod_pos_bound (x + 2 ^ (w - 1)) (2 ^ w)). lia.
Qed.

Lemma swrap_small w x : 0 < w -> - 2 ^ (w - 1) <= x < 2 ^ (w - 1) -> swrap w x = x.
Proof.
  intros Hw Hx. unfold swrap.
  assert (2 ^ w = 2 * 2 ^ (w - 1)) as Hp.
  { rewrite <- Z.pow_succ_r by lia. f_equal. lia. }
  rewrite Z.mod_small; lia.
Qed.

Lemma s32_small x : - 2 ^ 31 <= x < 2 ^ 31 -> s32 x = x.
Proof. apply (swrap_small 32). lia. Qed.
Lemma s64_small x : - 2 ^ 63 <= x < 2 ^ 63 -> s64 x = x.
Proof. apply (swrap_small 64). lia. Qed.
Lemma s32_range x : - 2 ^ 31 <= s32 x < 2 ^ 31.
Proof. apply (swrap_range 32). lia. Qed.
Lemma s64_range x : - 2 ^ 63 <= s64 x < 2 ^ 63.
Proof. apply (swrap_range 64). lia. Qed.

#[export] Hint Resolve u32_range u64_range s32_range s64_range : gca.

(** ** Lemmas on lists *)

Lemma len_app {A} (l k : list A) : len (l ++ k) = len l + len k.
Proof. unfold len. rewrite length_app. lia. Qed.
Lemma len_cons {A} (x : A) l : len (x :: l) = 1 + len l.
Proof. unfold len. cbn [length]. lia. Qed.
Lemma len_nil {A} : len (@nil A) = 0.
Proof. reflexivity. Qed.
Lemma len_nonneg {A} (l : list A) : 0 <= len l.
Proof. unfold len. lia. Qed.
#[export] Hint Rewrite @len_app @len_cons @len_nil : gca.
#[export] Hint Resolve len_nonneg : gca.

Lemma take_drop_app {A} (a b : list A) : take (length a) (a ++ b) = a /\ drop (length a) (a ++ b) = b.
Proof. split; [apply take_app_length | apply drop_app_length]. Qed.

Lemma filter_none {A} (P : A -> Prop) `{!forall x, Decision (P x)} (l : list A) :
  (forall x, x ∈ l -> ~ P x) -> filter P l = [].
Proof.
  induction l as [|x l IH]; intros Hn; [done|].
  rewrite filter_cons_False; [apply IH|apply Hn; left]. intros y Hy. apply Hn. by right.
Qed.

Lemma len_insert {A} i (x : A) l : len (<[i := x]> l) = len l.
Proof. unfold len. by rewrite length_insert. Qed.

(** How many elements of [l] pass the test [f]. *)
Definition count_if {A} (f : A -> bool) (l : list A) : Z := len (filter (fun x => f x = true) l).

Lemma count_if_cons {A} (f : A -> bool) x l : count_if f (x :: l) = Z.b2z (f x) + count_if f l.
Proof.
  unfold count_if. rewrite filter_cons.
  destruct (f x) eqn:E; [rewrite decide_True by done|rewrite decide_False by done];
    rewrite ?len_cons; cbn [Z.b2z]; lia.
Qed.

Lemma count_if_app {A} (f : A -> bool) l k : count_if f (l ++ k) = count_if f l + count_if f k.
Proof. unfold count_if. by rewrite filter_app, len_app. Qed.

Lemma count_if_le {A} (f : A -> bool) l : 0 <= count_if f l <= len l.
Proof. unfold count_if, len. pose proof (length_filter (fun x => f x = true) l). lia. Qed.

Lemma count_if_insert {A} (f : A -> bool) i x y l : l !! i = Some x ->
  count_if f (<[i := y]> l) = count_if f l - Z.b2z (f x) + Z.b2z (f y).
Proof.
  intros Hx. pose proof (take_drop_middle l i x Hx) as Hm.
  rewrite insert_take_drop by (eapply lookup_lt_Some; exact Hx).
  rewrite count_if_app, count_if_cons. rewrite <- Hm at 3. rewrite count_if_app, count_if_cons. lia.
Qed.
#[global] Arguments count_if : simpl never.

(** ** Sums over lists, and lists made of lists *)

Fixpoint sumZ {A} (f : A -> Z) (l : list A) : Z := match l with [] => 0 | x :: l' => f x + sumZ f l' end.

Lemma sumZ_app {A} (f : A -> Z) l k : sumZ f (l ++ k) = sumZ f l + sumZ f k.
Proof. induction l as [|x l IH]; cbn in *; lia. Qed.

Lemma sumZ_perm {A} (f : A -> Z) l k : l ≡ₚ k -> sumZ f l = sumZ f k.
Proof. induction 1; cbn in *; lia. Qed.

Lemma sumZ_insert {A} (f : A -> Z) l i x y : l !! i = Some x -> sumZ f (<[i := y]> l) = sumZ f l - f x + f y.
Proof.
  intros Hi. rewrite <- (take_drop_middle _ _ _ Hi) at 2. rewrite insert_take_drop by (by eapply lookup_lt_Some).
  rewrite !sumZ_app. cbn. lia.
Qed.

Lemma sumZ_le {A} (f g : A -> Z) l : (forall x, x ∈ l -> f x <= g x) -> sumZ f l <= sumZ g l.
Proof.
  induction l as [|x l IH]; intros Hf; cbn; [done|]. pose proof (Hf x ltac:(left)).
  pose proof (IH ltac:(intros; apply Hf; by right)). cbn in *. lia.
Qed.

Lemma sumZ_nonneg {A} (f : A -> Z) l : (forall x, x ∈ l -> 0 <= f x) -> 0 <= sumZ f l.
Proof.
  induction l as [|x l IH]; intros Hf; cbn; [done|]. pose proof (Hf x ltac:(left)).
  pose proof (IH ltac:(intros; apply Hf; by right)). cbn in *. lia.
Qed.

Lemma sumZ_map {A B} (f : B -> Z) (g : A -> B) l : sumZ f (map g l) = sumZ (fun x => f (g x)) l.
Proof. induction l as [|x l IH]; [done|]. cbn in *. by rewrite IH. Qed.

Lemma sumZ_flat_map {A B} (f : B -> Z) (g : A -> list B) l : sumZ f (flat_map g l) = sumZ (fun x => sumZ f (g x)) l.
Proof. induction l as [|x l IH]; [done|]. cbn. rewrite sumZ_app, IH. done. Qed.

Lemma sumZ_const {A} (l : list A) : sumZ (fun _ => 1) l = len l.
Proof. induction l as [|x l IH]; [done|]. rewrite len_cons. cbn in *. lia. Qed.

Lemma sumZ_zero {A} (f : A -> Z) l : (forall x, x ∈ l -> f x = 0) -> sumZ f l = 0.
Proof.
  induction l as [|x l IH]; intros Hf; cbn; [done|]. rewrite (Hf x) by left. rewrite IH; [done|]. intros. apply Hf. by right.
Qed.

(** Two lists side by side. *)
Lemma sumZ_le2 {A B} (f : A -> Z) (g : B -> Z) l k : length l = length k ->
  (forall i x y, l !! i = Some x -> k !! i = Some y -> f x <= g y) -> sumZ f l <= sumZ g k.
Proof.
  revert k. induction l as [|x l IH]; intros [|y k] Hn Hf; try done. cbn in *.
  pose proof (Hf 0%nat x y eq_refl eq_refl). pose proof (IH k ltac:(lia) (fun i => Hf (S i))). cbn in *. lia.
Qed.

Lemma flat_map_insert {A B} (f : A -> list B) ls i l l' k :
  ls !! i = Some l -> f l' ≡ₚ f l ++ k -> flat_map f (<[i := l']> ls) ≡ₚ flat_map f ls ++ k.
Proof.
  intros Hl Hf. rewrite <- (take_drop_middle _ _ _ Hl) at 2. rewrite insert_take_drop by (by eapply lookup_lt_Some).
  rewrite !flat_map_app. cbn. rewrite Hf. by rewrite <- !app_assoc, (Permutation_app_comm k).
Qed.

Lemma flat_map_same {A B} (f : A -> list B) ls ls' : length ls' = length ls ->
  (forall i l', ls' !! i = Some l' -> exists l, ls !! i = Some l /\ f l' = f l) -> flat_map f ls' = flat_map f ls.
Proof.
  intros Hn Hf. rewrite !flat_map_concat_map. f_equal. apply list_eq. intros i. change (@map A (list B) f) with (fmap (M:=list) f).
  rewrite !list_lookup_fmap. destruct (ls' !! i) as [l'|] eqn:E.
  - destruct (Hf _ _ E) as (l & -> & Hl). cbn. by rewrite Hl.
  - apply lookup_ge_None in E. rewrite lookup_ge_None_2; [done|]. by rewrite <- Hn.
Qed.

(** The parts of a list that a function into the first [n] numbers tells apart. *)
Lemma flat_map_classes {A} (c : A -> nat) (l : list A) n : Forall (fun x => (c x < n)%nat) l ->
  l ≡ₚ flat_map (fun i => filter (fun x => c x = i) l) (seq 0 n).
Proof.
  induction 1 as [|x l Hx _ IH]; [by induction (seq 0 n)|]. rewrite IH at 1. clear IH.
  assert (forall m, (forall i, i ∈ m -> i <> c x) -> flat_map (fun i => filter (fun y => c y = i) (x :: l)) m =
    flat_map (fun i => filter (fun y => c y = i) l) m) as Hno.
  { induction m as [|i m IHm]; intros Hm; [done|]. cbn [flat_map]. rewrite IHm by (intros; apply Hm; by right).
    rewrite filter_cons, decide_False; [done|]. intros E. by apply (Hm i); [left|]. }
  replace (seq 0 n) with (seq 0 (c x) ++ seq (c x) (n - c x)) by (rewrite <- seq_app; f_equal; lia).
  replace (n - c x)%nat with (S (n - c x - 1)) by lia. cbn [seq]. rewrite !flat_map_app. cbn [flat_map].
  rewrite !Hno by (intros i Hi%elem_of_seq; lia). rewrite filter_cons, decide_True by done.
  cbn [app]. by rewrite Permutation_middle.
Qed.

Lemma flat_map_perm {A B} (f g : A -> list B) l : (forall x, x ∈ l -> f x ≡ₚ g x) -> flat_map f l ≡ₚ flat_map g l.
Proof.
  induction l as [|x l IH]; intros Hf; [done|]. cbn. rewrite (Hf x) by left. rewrite IH; [done|]. intros. apply Hf. by right.
Qed.

Lemma flat_map_lookup {A B} (f : A -> list B) (l : list A) :
  flat_map (fun i => match l !! i with Some x => f x | None => [] end) (seq 0 (length l)) = flat_map f l.
Proof.
  induction l as [|x l IH] using rev_ind; [done|]. rewrite length_app, seq_app, !flat_map_app. cbn.
  rewrite lookup_app_r, Nat.sub_diag by lia. cbn. f_equal. rewrite <- IH.
  rewrite !flat_map_concat_map. f_equal. apply map_ext_in. intros i Hi%in_seq. by rewrite lookup_app_l by lia.
Qed.

Lemma map_flat_map {A B C} (h : B -> C) (f : A -> list B) l : map h (flat_map f l) = flat_map (fun x => map h (f x)) l.
Proof. induction l as [|x l IH]; [done|]. cbn. by rewrite map_app, IH. Qed.

Lemma flat_map_parts {A B} (f g : A -> list B) l : flat_map (fun x => f x ++ g x) l ≡ₚ flat_map f l ++ flat_map g l.
Proof. induction l as [|x l IH]; [done|]. cbn. rewrite IH. solve_Permutation. Qed.

Lemma flat_map_swap {A B} (f : A -> list B) ls i l l' : ls !! i = Some l ->
  flat_map f (<[i := l']> ls) ++ f l ≡ₚ flat_map f ls ++ f l'.
Proof.
  intros Hl. rewrite <- (take_drop_middle _ _ _ Hl) at 2. rewrite insert_take_drop by (by eapply lookup_lt_Some).
  rewrite !flat_map_app. cbn. solve_Permutation.
Qed.

Lemma concat_swap {A} (ls : list (list A)) i l l' : ls !! i = Some l -> concat (<[i := l']> ls) ++ l ≡ₚ concat ls ++ l'.
Proof.
  intros Hl. assert (forall k : list (list A), flat_map id k = concat k) as E by (intros k; induction k as [|x k IH]; [done|]; cbn; by rewrite IH).
  pose proof (flat_map_swap id ls i l l' Hl) as H. rewrite !E in H. exact H.
Qed.

Lemma perm_mid {A} (a b x x' y y' : list A) : x' ++ y ≡ₚ x ++ y' -> (a ++ x' ++ b) ++ y ≡ₚ (a ++ x ++ b) ++ y'.
Proof. intros H. trans ((a ++ b) ++ (x' ++ y)); [solve_Permutation|]. rewrite H. solve_Permutation. Qed.

Lemma delete_perm {A} (l : list A) i x : l !! i = Some x -> l ≡ₚ x :: delete i l.
Proof.
  intros Hi. rewrite <- (take_drop_middle l i x Hi) at 1. rewrite delete_take_drop. by rewrite Permutation_middle.
Qed.

Lemma flat_map_replicate_nil {A B} (f : A -> list B) x n : f x = [] -> flat_map f (replicate n x) = [].
Proof. intros E. induction n as [|n IH]; [done|]. cbn. by rewrite E. Qed.
