(* ===== verification/CStr.v ===== *)
(** * The C string routines the adaptor uses

    [c_str] (the bytes before the first NUL), [strtok_r] and the
    [while (p) {...; p = strtok_r(nullptr, delim, &save)}] loop every parser of
    the adaptor is built on, the [strto*] family with its saturation, sign and
    [errno]/[end] results, and [atoi].  All of it is the C standard library as
    the source uses it: no definition here models a line of the repository. *)

From S2P Require Import Prelude.

(** ** C strings *)

(** What a [const char *] denotes: the bytes before the first NUL. *)
Fixpoint c_str (s : bytes) : bytes :=
  match s with
  | [] => []
  | c :: s' => if Ascii.eqb c NUL then [] else c :: c_str s'
  end.

Definition bytes_eqb (a b : bytes) : bool := bool_decide (a = b).

(** [s.find(pat) != npos] *)
Fixpoint contains (pat s : bytes) : bool :=
  bytes_eqb (take (length pat) s) pat || match s with [] => false | _ :: s' => contains pat s' end.

(** ** [strtok_r] *)

Section strtok.
Context (delim : Ascii.ascii -> bool).

Fixpoint skip_delim (s : bytes) : bytes :=
  match s with
  | [] => []
  | c :: s' => if delim c then skip_delim s' else s
  end.

(** The token up to the next delimiter, and where the next call resumes: the
    delimiter that ends the token is overwritten and skipped. *)
Fixpoint span_tok (s : bytes) : bytes * bytes :=
  match s with
  | [] => ([], [])
  | c :: s' => if delim c then ([], s')
               else let '(t, r) := span_tok s' in (c :: t, r)
  end.

Definition strtok_r (s : bytes) : option (bytes * bytes) :=
  match skip_delim s with
  | [] => None
  | c :: s' => Some (span_tok (c :: s'))
  end.

Fixpoint strtok_loop (fuel : nat) (s : bytes) : list bytes :=
  match fuel with
  | O => []
  | S f => match strtok_r s with
           | None => []
           | Some (t, r) => t :: strtok_loop f r
           end
  end.

(** The whole token list the [while (p)] loop visits.  Every call consumes a
    character, so one more than the length is enough fuel
    ([strtok_loop_fuel]). *)
Definition strtok (s : bytes) : list bytes := strtok_loop (S (length s)) s.

Definition token (t : bytes) : Prop := t <> [] /\ Forall (fun c => delim c = false) t.

Lemma skip_delim_length s : (length (skip_delim s) <= length s)%nat.
Proof. induction s as [|c s IH]; simpl; [lia|]. destruct (delim c); simpl; lia. Qed.

Lemma span_tok_length s t r : span_tok s = (t, r) -> (length t + length r <= length s)%nat.
Proof.
  revert t r. induction s as [|c s IH]; intros t r; simpl.
  - intros [= <- <-]. simpl. lia.
  - destruct (delim c); [intros [= <- <-]; simpl; lia|].
    destruct (span_tok s) as [t' r'] eqn:E. intros [= <- <-].
    specialize (IH _ _ eq_refl). simpl. lia.
Qed.

Lemma span_tok_nodelim s t r :
  span_tok s = (t, r) -> Forall (fun c => delim c = false) t.
Proof.
  revert t r. induction s as [|c s IH]; intros t r; simpl.
  - intros [= <- <-]. constructor.
  - destruct (delim c) eqn:Ed; [intros [= <- <-]; constructor|].
    destruct (span_tok s) as [t' r'] eqn:E. intros [= <- <-].
    constructor; [done|]. eapply IH. reflexivity.
Qed.

Lemma skip_delim_head s c s' : skip_delim s = c :: s' -> delim c = false.
Proof.
  induction s as [|a s IH]; simpl; [done|].
  destruct (delim a) eqn:E; [exact IH|]. by intros [= <- <-].
Qed.

Lemma strtok_r_token s t r : strtok_r s = Some (t, r) -> token t.
Proof.
  unfold strtok_r. destruct (skip_delim s) as [|c s'] eqn:E; [done|].
  intros H%(inj Some). pose proof (skip_delim_head _ _ _ E) as Hc.
  split; [|exact (span_tok_nodelim _ _ _ H)].
  revert H. simpl. rewrite Hc. destruct (span_tok s'). by intros [= <- <-].
Qed.

Lemma strtok_r_length s t r : strtok_r s = Some (t, r) -> (length r < length s)%nat.
Proof.
  intros H. pose proof (strtok_r_token _ _ _ H) as [Ht _]. revert H. unfold strtok_r.
  pose proof (skip_delim_length s).
  destruct (skip_delim s) as [|c s'] eqn:E; [done|].
  intros H'%(inj Some). apply span_tok_length in H'.
  destruct t; [done|]. simpl in *. lia.
Qed.

Lemma strtok_loop_fuel f1 f2 s :
  (length s < f1)%nat -> (length s < f2)%nat -> strtok_loop f1 s = strtok_loop f2 s.
Proof.
  revert f2 s. induction f1 as [|f1 IH]; intros [|f2] s H1 H2; [lia..|]. simpl.
  destruct (strtok_r s) as [[t r]|] eqn:E; [|done].
  pose proof (strtok_r_length _ _ _ E). f_equal. apply IH; lia.
Qed.

Lemma strtok_unfold s :
  strtok s = match strtok_r s with None => [] | Some (t, r) => t :: strtok r end.
Proof.
  unfold strtok at 1. cbn [strtok_loop].
  destruct (strtok_r s) as [[t r]|] eqn:E; [|done].
  pose proof (strtok_r_length _ _ _ E). f_equal. apply strtok_loop_fuel; lia.
Qed.

Lemma strtok_ind (P : bytes -> list bytes -> Prop) :
  (forall s, strtok_r s = None -> P s []) ->
  (forall s t r, strtok_r s = Some (t, r) -> P r (strtok r) -> P s (t :: strtok r)) ->
  forall s, P s (strtok s).
Proof.
  intros H0 H1 s. remember (length s) as n eqn:En. revert s En.
  induction (lt_wf n) as [n _ IH]. intros s ->. rewrite strtok_unfold.
  destruct (strtok_r s) as [[t r]|] eqn:E; [|by apply H0].
  apply H1; [done|]. eapply IH; [|reflexivity]. by eapply strtok_r_length.
Qed.

Lemma strtok_tokens s : Forall token (strtok s).
Proof.
  apply (strtok_ind (fun _ l => Forall token l)); [constructor|].
  intros ? ? ? H ?. constructor; [by eapply strtok_r_token|done].
Qed.

Lemma span_tok_nodelim_app t r :
  Forall (fun c => delim c = false) t ->
  (forall c, head r = Some c -> delim c = true) ->
  span_tok (t ++ r) = (t, tail r).
Proof.
  intros Ht Hr. induction t as [|c t IH]; simpl.
  - destruct r as [|c r]; [done|]. simpl. by rewrite Hr.
  - inv Ht. rewrite IH by done. by destruct (delim c).
Qed.

Lemma strtok_token t : token t -> strtok t = [t].
Proof.
  intros [Hne Ht]. rewrite strtok_unfold. unfold strtok_r.
  destruct t as [|c t]; [done|].
  assert (delim c = false) as Hc by by inv Ht.
  cbn [skip_delim]. rewrite Hc.
  pose proof (span_tok_nodelim_app (c :: t) [] Ht) as H. rewrite app_nil_r in H.
  rewrite H by done. done.
Qed.

Lemma strtok_cons_token t c r :
  token t -> delim c = true -> strtok (t ++ c :: r) = t :: strtok r.
Proof.
  intros [Hne Ht] Hc. rewrite strtok_unfold. unfold strtok_r.
  destruct t as [|a t]; [done|].
  assert (delim a = false) as Ha by by inv Ht.
  cbn [app skip_delim]. rewrite Ha.
  pose proof (span_tok_nodelim_app (a :: t) (c :: r) Ht) as H. cbn [app] in H.
  rewrite H; [done|]. by intros ? [= <-].
Qed.
End strtok.

(** Single-character delimiter strings, as every call in the source has. *)
Definition is_char (c : Ascii.ascii) : Ascii.ascii -> bool := Ascii.eqb c.

(** ** Numbers in strings *)

Definition isspace (c : Ascii.ascii) : bool :=
  let n := Ascii.nat_of_ascii c in (Nat.leb 9 n && Nat.leb n 13) || Nat.eqb n 32.

Definition digit_val (c : Ascii.ascii) : option Z :=
  let n := Z.of_nat (Ascii.nat_of_ascii c) in
  if (48 <=? n) && (n <=? 57) then Some (n - 48)
  else if (97 <=? n) && (n <=? 122) then Some (n - 87)
  else if (65 <=? n) && (n <=? 90) then Some (n - 55)
  else None.

Definition digit_in (base : Z) (c : Ascii.ascii) : option Z :=
  match digit_val c with
  | Some d => if d <? base then Some d else None
  | None => None
  end.

(** The longest run of digits: its value and how many there were. *)
Fixpoint digits (base acc : Z) (s : bytes) : Z * Z :=
  match s with
  | c :: s' => match digit_in base c with
               | Some d => let '(v, n) := digits base (acc * base + d) s' in (v, n + 1)
               | None => (acc, 0)
               end
  | [] => (acc, 0)
  end.

Fixpoint skip_space (s : bytes) : bytes :=
  match s with
  | c :: s' => if isspace c then skip_space s' else s
  | [] => []
  end.

Definition take_sign (s : bytes) : bool * bytes :=
  match s with
  | c :: s' => if Ascii.eqb c "-"%char then (true, s')
               else if Ascii.eqb c "+"%char then (false, s') else (false, s)
  | [] => (false, [])
  end.

(** An optional [0x]/[0X] prefix in base 16, only before a hex digit. *)
Definition skip_0x (base : Z) (s : bytes) : bytes :=
  match s with
  | z :: x :: d :: r =>
      if (base =? 16) && Ascii.eqb z "0"%char
         && (Ascii.eqb x "x"%char || Ascii.eqb x "X"%char)
         && bool_decide (is_Some (digit_in 16 d))
      then d :: r else s
  | _ => s
  end.

Record parsed := { p_neg : bool; p_mag : Z; p_ndig : Z }.

Definition parse_int (base : Z) (s : bytes) : parsed :=
  let '(neg, r) := take_sign (skip_space (c_str s)) in
  let '(v, n) := digits base 0 (skip_0x base r) in
  {| p_neg := neg; p_mag := v; p_ndig := n |}.

(** The result of a [strto*] call: its value, [errno == ERANGE], [end == p]. *)
Record strto_result := { st_val : Z; st_erange : bool; st_nodigits : bool }.

(** [strtol]: saturating 64-bit signed. *)
Definition strtol (base : Z) (s : bytes) : strto_result :=
  let p := parse_int base s in
  let v := if p_neg p then - p_mag p else p_mag p in
  let nod := p_ndig p =? 0 in
  if 2 ^ 63 - 1 <? v then {| st_val := 2 ^ 63 - 1; st_erange := true; st_nodigits := nod |}
  else if v <? - 2 ^ 63 then {| st_val := - 2 ^ 63; st_erange := true; st_nodigits := nod |}
  else {| st_val := v; st_erange := false; st_nodigits := nod |}.

(** [strtoul]/[strtoull]: saturating 64-bit unsigned, a minus sign negates modulo 2^64. *)
Definition strtoull (base : Z) (s : bytes) : strto_result :=
  let p := parse_int base s in
  let nod := p_ndig p =? 0 in
  if UINT64_MAX <? p_mag p
  then {| st_val := UINT64_MAX; st_erange := true; st_nodigits := nod |}
  else {| st_val := if p_neg p then u64 (- p_mag p) else p_mag p;
          st_erange := false; st_nodigits := nod |}.

(** [atoi(s)] is [(int)strtol(s, NULL, 10)]. *)
Definition atoi (s : bytes) : Z := s32 (st_val (strtol 10 s)).

(** [std::to_string] of an unsigned value. *)
Definition to_string (n : Z) : bytes := bs (pretty (Z.to_N n)).

(** ** Lemmas on numbers *)

Lemma digit_in_range base c d : digit_in base c = Some d -> 0 <= d < base.
Proof.
  unfold digit_in, digit_val.
  repeat (case_match; bprop; simplify_eq); intros [= <-]; bprop; lia.
Qed.

Lemma digits_fst_nonneg base a s : 0 <= base -> 0 <= a -> 0 <= fst (digits base a s).
Proof.
  intros Hb. revert a. induction s as [|c s IH]; intros a Ha; cbn; [done|].
  destruct (digit_in base c) as [d|] eqn:E; [|done]. apply digit_in_range in E.
  specialize (IH (a * base + d) ltac:(nia)). by destruct (digits base (a * base + d) s).
Qed.

Lemma strtoull_range base s : 0 <= base -> 0 <= st_val (strtoull base s) < 2 ^ 64.
Proof.
  intros Hb. unfold strtoull. assert (0 <= p_mag (parse_int base s)) as Hm.
  { unfold parse_int. destruct (take_sign _) as [neg r]. pose proof (digits_fst_nonneg base 0 (skip_0x base r) Hb ltac:(lia)).
    by destruct (digits _ _ _). }
  destruct (UINT64_MAX <? _) eqn:E; [by cbn|]. cbn. bprop. pose proof (u64_range (- p_mag (parse_int base s))).
  destruct (p_neg _); [done|]. unfold UINT64_MAX in *. lia.
Qed.

(** Horner evaluation of a list of digit values. *)
Definition horner (base : Z) (ds : list Z) : Z := fold_left (fun a d => a * base + d) ds 0.

Lemma fold_horner base ds a :
  fold_left (fun a d => a * base + d) ds a = a * base ^ len ds + horner base ds.
Proof.
  unfold horner. revert a. induction ds as [|d ds IH]; intros a; simpl.
  - change (len (@nil Z)) with 0. rewrite Z.pow_0_r. lia.
  - rewrite (IH (a * base + d)), (IH (0 * base + d)).
    rewrite len_cons, Z.pow_add_r by (try apply len_nonneg; lia).
    rewrite Z.pow_1_r. ring.
Qed.

Lemma horner_cons base d ds : horner base (d :: ds) = d * base ^ len ds + horner base ds.
Proof. unfold horner at 1. simpl. rewrite fold_horner. lia. Qed.

Lemma horner_range base ds :
  0 < base -> Forall (fun d => 0 <= d < base) ds -> 0 <= horner base ds < base ^ len ds.
Proof.
  intros Hb. induction ds as [|d ds IH]; intros H.
  - change (len (@nil Z)) with 0. unfold horner. simpl. lia.
  - apply Forall_cons in H as [Hd Hds]. specialize (IH Hds). rewrite horner_cons, len_cons.
    rewrite Z.pow_add_r by (try apply len_nonneg; lia). rewrite Z.pow_1_r. nia.
Qed.

Lemma horner_inj base ds1 ds2 :
  0 < base -> length ds1 = length ds2 ->
  Forall (fun d => 0 <= d < base) ds1 -> Forall (fun d => 0 <= d < base) ds2 ->
  horner base ds1 = horner base ds2 -> ds1 = ds2.
Proof.
  intros Hb. revert ds2. induction ds1 as [|d1 ds1 IH]; intros [|d2 ds2] Hl H1 H2 He;
    try done. simpl in Hl. injection Hl as Hl.
  apply Forall_cons in H1 as [Hd1 H1]. apply Forall_cons in H2 as [Hd2 H2].
  rewrite !horner_cons in He.
  pose proof (horner_range base ds1 Hb H1) as R1. pose proof (horner_range base ds2 Hb H2) as R2.
  assert (len ds1 = len ds2) as Hll by (unfold len; lia). rewrite Hll in *.
  assert (d1 = d2) as -> by nia.
  f_equal. apply IH; [done..|]. lia.
Qed.

Lemma digits_horner base acc s ds :
  mapM (digit_in base) s = Some ds ->
  digits base acc s = (fold_left (fun a d => a * base + d) ds acc, len s).
Proof.
  revert acc ds. induction s as [|c s IH]; intros acc ds H; simpl in *.
  - by inv H.
  - apply bind_Some in H as (d & Hd & H). apply bind_Some in H as (ds' & Hds & H).
    inv H. rewrite Hd. erewrite IH by done. simpl. rewrite len_cons. f_equal. lia.
Qed.

(** ** Parsing back what [to_string] prints *)

Definition is_digit (c : Ascii.ascii) : Prop := is_Some (digit_in 10 c).

Lemma is_digit_code c : is_digit c ->
  (48 <= Ascii.nat_of_ascii c <= 57)%nat.
Proof.
  unfold is_digit, digit_in, digit_val. intros [d Hd].
  repeat (case_match; bprop; simplify_eq); lia.
Qed.

Lemma digit_not_special c : is_digit c ->
  Ascii.eqb c NUL = false /\ isspace c = false /\ Ascii.eqb c "-"%char = false /\
  Ascii.eqb c "+"%char = false.
Proof.
  intros Hc%is_digit_code.
  assert (forall x, (Ascii.nat_of_ascii x < 48)%nat -> Ascii.eqb c x = false) as H.
  { intros x Hx. apply Ascii.eqb_neq. intros ->. lia. }
  split_and!; [by apply H; vm_compute; lia| |by apply H; vm_compute; lia..].
  unfold isspace. apply orb_false_iff. split; [apply andb_false_iff; right|].
  - apply Nat.leb_gt. lia.
  - apply Nat.eqb_neq. lia.
Qed.

Lemma c_str_digits s : Forall is_digit s -> c_str s = s.
Proof.
  induction 1 as [|c s Hc _ IH]; [done|]. cbn.
  destruct (digit_not_special _ Hc) as (-> & _). by rewrite IH.
Qed.

Lemma parse_int_digits s : s <> [] -> Forall is_digit s ->
  parse_int 10 s = {| p_neg := false; p_mag := fst (digits 10 0 s); p_ndig := snd (digits 10 0 s) |}.
Proof.
  intros Hne Hf. unfold parse_int. rewrite c_str_digits by done.
  destruct s as [|c s]; [done|]. apply Forall_cons in Hf as [Hc _].
  destruct (digit_not_special _ Hc) as (_ & H1 & H2 & H3).
  cbn [skip_space]. rewrite H1. cbn [take_sign]. rewrite H2, H3.
  assert (skip_0x 10 (c :: s) = c :: s) as -> by by destruct s as [|? [|? ?]].
  by destruct (digits 10 0 (c :: s)).
Qed.

Lemma digits_snd_nonneg base acc s : 0 <= snd (digits base acc s).
Proof.
  revert acc. induction s as [|c s IH]; intros acc; cbn; [lia|].
  destruct (digit_in base c); [|done]. specialize (IH (acc * base + z)).
  destruct (digits base (acc * base + z) s). cbn in *. lia.
Qed.

Lemma pretty_N_char_digit x : (x < 10)%N ->
  digit_in 10 (pretty_N_char x) = Some (Z.of_N x).
Proof.
  intros Hx. assert (x = 0 \/ x = 1 \/ x = 2 \/ x = 3 \/ x = 4 \/ x = 5 \/ x = 6 \/ x = 7 \/ x = 8 \/ x = 9)%N
    as Hc by lia.
  repeat destruct Hc as [->|Hc]; try reflexivity. by subst.
Qed.

Lemma pretty_N_go_digits x s :
  fst (digits 10 0 (bs (pretty_N_go x s))) = fst (digits 10 (Z.of_N x) (bs s)) /\
  (Forall is_digit (bs s) -> Forall is_digit (bs (pretty_N_go x s))) /\
  (bs s <> [] -> bs (pretty_N_go x s) <> []) /\
  ((0 < x)%N -> bs (pretty_N_go x s) <> []).
Proof.
  revert s. induction (N.lt_wf_0 x) as [x _ IH]; intros s.
  destruct (decide (x = 0%N)) as [->|Hx].
  { rewrite pretty_N_go_0. split_and!; try done. }
  rewrite pretty_N_go_step by lia.
  assert (x `mod` 10 < 10)%N as Hm by (apply N.mod_lt; lia).
  pose proof (pretty_N_char_digit _ Hm) as Hd.
  destruct (IH (x `div` 10)%N) with (s := String (pretty_N_char (x `mod` 10)) s)
    as (H1 & H2 & H3 & _); [apply N.div_lt; lia|].
  change (bs (String (pretty_N_char (x `mod` 10)) s)) with (pretty_N_char (x `mod` 10)%N :: bs s) in *.
  split_and!.
  - rewrite H1. cbn [digits]. rewrite Hd.
    replace (Z.of_N (x `div` 10) * 10 + Z.of_N (x `mod` 10)) with (Z.of_N x).
    2:{ pose proof (N.div_mod x 10 ltac:(lia)). lia. }
    by destruct (digits 10 (Z.of_N x) (bs s)).
  - intros Hs. apply H2. constructor; [by eexists|done].
  - intros _. by apply H3.
  - intros _. by apply H3.
Qed.

Lemma to_string_spec n : 0 <= n ->
  fst (digits 10 0 (to_string n)) = n /\ Forall is_digit (to_string n) /\ to_string n <> [].
Proof.
  intros Hn. unfold to_string, pretty, pretty_N. case_decide as Hc.
  - assert (n = 0) as -> by lia. split; [reflexivity|]. split; [|done].
    repeat constructor. by eexists.
  - destruct (pretty_N_go_digits (Z.to_N n) "") as (H1 & H2 & _ & H4).
    split_and!; [rewrite H1; unfold bs; cbn; lia|apply H2; unfold bs; constructor|apply H4; lia].
Qed.

Lemma to_string_ndigits n : 0 <= n -> (snd (digits 10 0 (to_string n)) =? 0) = false.
Proof.
  intros Hn. destruct (to_string_spec n) as (_ & H2 & H3); [lia|].
  apply Z.eqb_neq. destruct (to_string n) as [|c s]; [done|].
  apply Forall_cons in H2 as [[d Hd] _]. cbn. rewrite Hd.
  pose proof (digits_snd_nonneg 10 (0 * 10 + d) s) as Hs.
  destruct (digits 10 (0 * 10 + d) s). cbn in *. lia.
Qed.

(** [strtoull] (and so [stoull]) reads back every unsigned 64-bit value. *)
Lemma strtoull_to_string n : 0 <= n <= UINT64_MAX ->
  strtoull 10 (to_string n) = {| st_val := n; st_erange := false; st_nodigits := false |}.
Proof.
  intros Hn. destruct (to_string_spec n) as (H1 & H2 & H3); [lia|].
  unfold strtoull. rewrite parse_int_digits by done. cbn. rewrite H1.
  replace (UINT64_MAX <? n) with false by lia. by rewrite to_string_ndigits by lia.
Qed.

(** [strtol] reads back every value up to [LONG_MAX]. *)
Lemma strtol_to_string n : 0 <= n < 2 ^ 63 ->
  strtol 10 (to_string n) = {| st_val := n; st_erange := false; st_nodigits := false |}.
Proof.
  intros Hn. destruct (to_string_spec n) as (H1 & H2 & H3); [lia|].
  unfold strtol. rewrite parse_int_digits by done. cbn [p_neg p_mag p_ndig]. rewrite H1.
  replace (2 ^ 63 - 1 <? n) with false by lia. replace (n <? - 2 ^ 63) with false by lia.
  by rewrite to_string_ndigits by lia.
Qed.

(** ** [std::map<std::string, T>] and [std::set<std::string>]: lists in key order *)

Fixpoint bytes_cmp (a b : bytes) : comparison :=
  match a, b with
  | [], [] => Eq
  | [], _ => Lt
  | _, [] => Gt
  | x :: a', y :: b' => match Nat.compare (nat_of_ascii x) (nat_of_ascii y) with
                        | Eq => bytes_cmp a' b' | c => c end
  end.
Definition bytes_lt (a b : bytes) : Prop := bytes_cmp a b = Lt.

(** [m[k] = v] *)
Fixpoint smap_insert {A} (k : bytes) (v : A) (m : list (bytes * A)) : list (bytes * A) :=
  match m with
  | [] => [(k, v)]
  | (k', v') :: m' => match bytes_cmp k k' with
                      | Lt => (k, v) :: m
                      | Eq => (k, v) :: m'
                      | Gt => (k', v') :: smap_insert k v m'
                      end
  end.

(** [m.insert(make_pair(k, v))]: an existing entry stays *)
Fixpoint smap_insert_new {A} (k : bytes) (v : A) (m : list (bytes * A)) : list (bytes * A) :=
  match m with
  | [] => [(k, v)]
  | (k', v') :: m' => match bytes_cmp k k' with
                      | Lt => (k, v) :: m
                      | Eq => m
                      | Gt => (k', v') :: smap_insert_new k v m'
                      end
  end.

Definition key_lt {A} (p q : bytes * A) : Prop := bytes_lt (fst p) (fst q).
Definition smap_sorted {A} (m : list (bytes * A)) : Prop := StronglySorted key_lt m.

Lemma bytes_cmp_antisym a b : bytes_cmp a b = CompOpp (bytes_cmp b a).
Proof.
  revert b. induction a as [|x a IH]; intros [|y b]; try done. cbn.
  rewrite (Nat.compare_antisym (nat_of_ascii y) (nat_of_ascii x)).
  destruct (nat_of_ascii y ?= nat_of_ascii x)%nat; cbn; [apply IH|done..].
Qed.

Lemma smap_insert_last {A} k (v : A) m :
  Forall (fun p => bytes_lt (fst p) k) m -> smap_insert k v m = m ++ [(k, v)].
Proof.
  induction 1 as [|[k' v'] m Hk _ IH]; [done|]. cbn in *. unfold bytes_lt in Hk.
  rewrite bytes_cmp_antisym, Hk. cbn. by rewrite IH.
Qed.

Lemma smap_insert_new_last {A} k (v : A) m :
  Forall (fun p => bytes_lt (fst p) k) m -> smap_insert_new k v m = m ++ [(k, v)].
Proof.
  induction 1 as [|[k' v'] m Hk _ IH]; [done|]. cbn in *. unfold bytes_lt in Hk.
  rewrite bytes_cmp_antisym, Hk. cbn. by rewrite IH.
Qed.

(** Inserting the entries of an ordered map one by one rebuilds it. *)
Lemma smap_rebuild {A} (ins : bytes -> A -> list (bytes * A) -> list (bytes * A)) acc l :
  (forall k v m, Forall (fun p => bytes_lt (fst p) k) m -> ins k v m = m ++ [(k, v)]) ->
  smap_sorted (acc ++ l) -> fold_left (fun m '(k, v) => ins k v m) l acc = acc ++ l.
Proof.
  intros Hins. revert acc. induction l as [|[k v] l IH]; intros acc Hs; cbn.
  - by rewrite app_nil_r.
  - rewrite Hins.
    + rewrite IH by by rewrite <- app_assoc. by rewrite <- app_assoc.
    + clear -Hs. induction acc as [|p acc IH]; [constructor|]. cbn in Hs.
      apply StronglySorted_inv in Hs as [Hs Hf]. constructor; [|by apply IH].
      apply Forall_app in Hf as [_ Hf]. by apply Forall_cons in Hf as [Hf _].
Qed.

Lemma bytes_cmp_eq a b : bytes_cmp a b = Eq -> a = b.
Proof.
  revert b. induction a as [|x a IH]; intros [|y b]; try done. cbn.
  destruct (nat_of_ascii x ?= nat_of_ascii y)%nat eqn:E; try done. intros H.
  apply Nat.compare_eq in E. f_equal; [|by apply IH].
  by rewrite <- (ascii_nat_embedding x), <- (ascii_nat_embedding y), E.
Qed.

Lemma bytes_lt_trans a b c : bytes_lt a b -> bytes_lt b c -> bytes_lt a c.
Proof.
  unfold bytes_lt. revert b c. induction a as [|x a IH]; intros [|y b] [|z c]; try done. cbn.
  destruct (nat_of_ascii x ?= nat_of_ascii y)%nat eqn:E1;
    destruct (nat_of_ascii y ?= nat_of_ascii z)%nat eqn:E2; try done; intros H1 H2;
    rewrite ?Nat.compare_eq_iff, ?Nat.compare_lt_iff in *;
    destruct (nat_of_ascii x ?= nat_of_ascii z)%nat eqn:E3;
    rewrite ?Nat.compare_eq_iff, ?Nat.compare_lt_iff, ?Nat.compare_gt_iff in *; try lia; try done.
  by apply (IH b c).
Qed.

Lemma smap_insert_new_Forall {A} (P : bytes * A -> Prop) k v m :
  P (k, v) -> Forall P m -> Forall P (smap_insert_new k v m).
Proof.
  intros Hp. induction 1 as [|[k' v'] m Hk Hm IH]; cbn; [by repeat constructor|].
  destruct (bytes_cmp k k'); by repeat constructor.
Qed.

Lemma smap_insert_new_sorted {A} k (v : A) m : smap_sorted m -> smap_sorted (smap_insert_new k v m).
Proof.
  unfold smap_sorted. induction 1 as [|[k' v'] m Hm IH Hf]; cbn; [by repeat constructor|].
  destruct (bytes_cmp k k') eqn:E.
  - by constructor.
  - repeat constructor; try done. eapply Forall_impl; [done|].
    intros q Hq. unfold key_lt in *. cbn in *. by eapply bytes_lt_trans.
  - constructor; [done|]. apply smap_insert_new_Forall; [|done].
    unfold key_lt, bytes_lt. cbn. by rewrite bytes_cmp_antisym, E.
Qed.

Lemma smap_insert_Forall {A} (P : bytes * A -> Prop) k v m :
  P (k, v) -> Forall P m -> Forall P (smap_insert k v m).
Proof.
  intros Hp. induction 1 as [|[k' v'] m Hk Hm IH]; cbn; [by repeat constructor|].
  destruct (bytes_cmp k k'); by repeat constructor.
Qed.

Lemma smap_insert_sorted {A} k (v : A) m : smap_sorted m -> smap_sorted (smap_insert k v m).
Proof.
  unfold smap_sorted. induction 1 as [|[k' v'] m Hm IH Hf]; cbn; [by repeat constructor|].
  destruct (bytes_cmp k k') eqn:E.
  - apply bytes_cmp_eq in E as ->. by constructor.
  - repeat constructor; try done. eapply Forall_impl; [done|].
    intros q Hq. unfold key_lt in *. cbn in *. by eapply bytes_lt_trans.
  - constructor; [done|]. apply smap_insert_Forall; [|done].
    unfold key_lt, bytes_lt. cbn. by rewrite bytes_cmp_antisym, E.
Qed.

(** The keys of a map, as a vector. *)
Lemma smap_sorted_keys {A} (m : list (bytes * A)) : smap_sorted m -> StronglySorted bytes_lt (map fst m).
Proof.
  induction 1 as [|p m Hm IH Hf]; cbn; [constructor|]. constructor; [done|]. by apply Forall_map.
Qed.

Lemma smap_insert_new_length {A} k (v : A) m : (length (smap_insert_new k v m) <= S (length m))%nat.
Proof. induction m as [|[k' v'] m IH]; cbn; [lia|]. destruct (bytes_cmp k k'); cbn; lia. Qed.

(** Building a map by [insert]. *)
Definition smap_of {A} (l : list (bytes * A)) : list (bytes * A) :=
  fold_left (fun m '(k, v) => smap_insert_new k v m) l [].

Lemma smap_of_ok {A} (P : bytes * A -> Prop) l : Forall P l ->
  smap_sorted (smap_of l) /\ Forall P (smap_of l) /\ (length (smap_of l) <= length l)%nat.
Proof.
  intros Hl. unfold smap_of.
  assert (forall acc, smap_sorted acc -> Forall P acc ->
    let m := fold_left (fun m '(k, v) => smap_insert_new k v m) l acc in
    smap_sorted m /\ Forall P m /\ (length m <= length acc + length l)%nat) as H.
  { induction Hl as [|[k v] l Hp Hl IH]; intros acc Hs Hf; cbn; [split_and!; [done..|lia]|].
    destruct (IH (smap_insert_new k v acc)) as (H1 & H2 & H3);
      [by apply smap_insert_new_sorted|by apply smap_insert_new_Forall|].
    split_and!; [done..|]. pose proof (smap_insert_new_length k v acc). lia. }
  apply (H []); constructor.
Qed.

(** A key that is new makes the map longer; the keys of a map made of distinct ones are
    those, in order. *)
Lemma smap_insert_new_perm {A} k (v : A) m : k ∉ map fst m -> smap_insert_new k v m ≡ₚ (k, v) :: m.
Proof.
  induction m as [|[k' v'] m IH]; intros Hk; cbn; [done|]. cbn in Hk. apply not_elem_of_cons in Hk as [Hn Hk].
  destruct (bytes_cmp k k') eqn:E; [by apply bytes_cmp_eq in E|done|]. rewrite IH by done. by apply Permutation_swap.
Qed.

Lemma smap_of_perm {A} (l : list (bytes * A)) : NoDup (map fst l) -> smap_of l ≡ₚ l.
Proof.
  intros Hl. unfold smap_of.
  enough (forall acc, NoDup (map fst (l ++ acc)) ->
    fold_left (fun m '(k, v) => smap_insert_new k v m) l acc ≡ₚ l ++ acc) as H
    by (rewrite <- (app_nil_r l) at 2; apply H; by rewrite app_nil_r).
  clear Hl. induction l as [|[k v] l IH]; intros acc Hd; [done|]. cbn in Hd |- *. apply NoDup_cons in Hd as [Hk Hd].
  rewrite map_app in Hk. pose proof Hk as [_ Hk2]%not_elem_of_app.
  assert (smap_insert_new k v acc ≡ₚ (k, v) :: acc) as Hp by by apply smap_insert_new_perm.
  rewrite IH.
  - rewrite Hp. by rewrite <- Permutation_middle.
  - rewrite Hp, <- Permutation_middle. cbn. apply NoDup_cons. split; [by rewrite map_app|done].
Qed.
