(* ===== verification/Regex.v ===== *)
(** * [std::regex_match] on the patterns the adaptor uses

    A backtracking matcher for the ECMAScript operators that occur in the source:
    character classes, sequence, alternatives, greedy [*], [+] and [?], and
    capture groups.  It tries the alternatives in the order the standard fixes
    (left before right, one more round before leaving a loop), so the captures of
    the first success are those of [std::regex_match].  It is the C++ standard
    library as the source uses it; most patterns are with their users. *)

From S2P Require Import Prelude CStr.

Module Regex.

Inductive re :=
| Eps
| Chr (f : ascii -> bool)
| Seq (a b : re)
| Alt (a b : re)
| Star (a : re)
| Opt (a : re)
| Cap (i : nat) (a : re).

(** Group number to the text it matched last. *)
Abbreviation caps := (gmap nat bytes).
Definition group (c : caps) (i : nat) : bytes := default [] (c !! i).

(** [k] is the rest of the pattern.  A round of a loop that consumes nothing is
    not made, so a loop makes at most as many rounds as characters are left. *)
Fixpoint mt (r : re) (s : bytes) (c : caps) (k : bytes -> caps -> option caps) : option caps :=
  match r with
  | Eps => k s c
  | Chr f => match s with x :: s' => if f x then k s' c else None | [] => None end
  | Seq a b => mt a s c (fun s c => mt b s c k)
  | Alt a b => match mt a s c k with Some x => Some x | None => mt b s c k end
  | Star a =>
      (fix star (n : nat) (s : bytes) (c : caps) : option caps :=
         match n with
         | O => k s c
         | S n' =>
             match mt a s c (fun s' c' => if Nat.ltb (length s') (length s) then star n' s' c' else None) with
             | Some x => Some x
             | None => k s c
             end
         end) (length s) s c
  | Opt a => match mt a s c k with Some x => Some x | None => k s c end
  | Cap i a => mt a s c (fun s' c' => k s' (<[i := take (length s - length s') s]> c'))
  end.

Definition regex_match (r : re) (s : bytes) : option caps :=
  mt r s ∅ (fun s c => match s with [] => Some c | _ => None end).

Definition Plus (a : re) : re := Seq a (Star a).
Fixpoint lit (s : bytes) : re := match s with [] => Eps | x :: s' => Seq (Chr (Ascii.eqb x)) (lit s') end.

(** The classes of the patterns. *)
Definition space : ascii -> bool := isspace.
Definition nonspace (x : ascii) : bool := negb (isspace x).
Definition digit (x : ascii) : bool := match digit_in 10 x with Some _ => true | None => false end.
Definition word (x : ascii) : bool :=
  let n := nat_of_ascii x in
  (Nat.leb 48 n && Nat.leb n 57) || (Nat.leb 65 n && Nat.leb n 90) || (Nat.leb 97 n && Nat.leb n 122) || Nat.eqb n 95.
(** [.]: anything but a line terminator. *)
Definition dot (x : ascii) : bool := negb (Nat.eqb (nat_of_ascii x) 10 || Nat.eqb (nat_of_ascii x) 13).

Definition sp : re := Chr space.

(** Two patterns that several parsers of the adaptor use: [(\w+)=(\w+)] and
    [erasure_code_profile:\s(\S+)\n?]. *)
Definition newline : ascii := Ascii.ascii_of_nat 10.
Definition assign_pattern : re :=
  Seq (Cap 1 (Plus (Chr word))) (Seq (lit (bs "=")) (Cap 2 (Plus (Chr word)))).
Definition profile_pattern : re :=
  Seq (lit (bs "erasure_code_profile:")) (Seq sp (Seq (Cap 1 (Plus (Chr nonspace))) (Opt (Chr (Ascii.eqb newline))))).

(** ** Patterns that match without backtracking

    [eats r a b c c']: on [a] followed by [b], the first thing [r] tries is to
    consume [a], ending with the captures [c']; so whenever the rest of the
    pattern accepts that, it is the match. *)
Definition eats (r : re) (a b : bytes) (c c' : caps) : Prop :=
  forall k x, k b c' = Some x -> mt r (a ++ b) c k = Some x.

(** [b] does not begin with a character of the class [f]. *)
Definition stops (f : ascii -> bool) (b : bytes) : Prop :=
  match b with x :: _ => f x = false | [] => True end.

Definition all (f : ascii -> bool) (a : bytes) : Prop := Forall (fun x => f x = true) a.

Lemma eats_eps b c : eats Eps [] b c c.
Proof. by intros k x. Qed.

Lemma eats_chr f x b c : f x = true -> eats (Chr f) [x] b c c.
Proof. intros Hf k y Hk. cbn. by rewrite Hf. Qed.

Lemma eats_seq r1 r2 a1 a2 b c c1 c2 :
  eats r1 a1 (a2 ++ b) c c1 -> eats r2 a2 b c1 c2 -> eats (Seq r1 r2) (a1 ++ a2) b c c2.
Proof. intros H1 H2 k x Hk. cbn. rewrite <- app_assoc. apply H1. by apply H2. Qed.

Lemma eats_seq_nil r1 r2 a b c c1 c2 : eats r1 a b c c1 -> eats r2 [] b c1 c2 -> eats (Seq r1 r2) a b c c2.
Proof. intros H1 H2. rewrite <- (app_nil_r a). by eapply eats_seq. Qed.

Lemma eats_cap i r a b c c' : eats r a b c c' -> eats (Cap i r) a b c (<[i := a]> c').
Proof.
  intros H k x Hk. cbn. apply H.
  replace (length (a ++ b) - length b)%nat with (length a) by (rewrite length_app; lia).
  by rewrite take_app_length.
Qed.

Lemma eats_opt_some r a b c c' : eats r a b c c' -> eats (Opt r) a b c c'.
Proof. intros H k x Hk. cbn. by rewrite (H k x Hk). Qed.

Lemma eats_opt_none f b c : stops f b -> eats (Opt (Chr f)) [] b c c.
Proof. intros Hs k x Hk. cbn. destruct b as [|y b]; [done|]. cbn in Hs. by rewrite Hs. Qed.

Lemma eats_alt_l r1 r2 a b c c' : eats r1 a b c c' -> eats (Alt r1 r2) a b c c'.
Proof. intros H k x Hk. cbn. by rewrite (H k x Hk). Qed.

(** A pattern fails on [s] whatever follows. *)
Definition refuses (r : re) (s : bytes) : Prop := forall c k, mt r s c k = None.

Lemma eats_alt_r r1 r2 a b c c' : refuses r1 (a ++ b) -> eats r2 a b c c' -> eats (Alt r1 r2) a b c c'.
Proof. intros Hr H k x Hk. cbn. rewrite Hr. by apply H. Qed.

Lemma refuses_alt r1 r2 s : refuses r1 s -> refuses r2 s -> refuses (Alt r1 r2) s.
Proof. intros H1 H2 c k. cbn. by rewrite H1, H2. Qed.

Lemma refuses_cap i r s : refuses r s -> refuses (Cap i r) s.
Proof. intros H c k. cbn. apply H. Qed.

Lemma refuses_chr f s : stops f s -> refuses (Chr f) s.
Proof. intros Hs c k. cbn. destruct s as [|x s]; [done|]. cbn in Hs. by rewrite Hs. Qed.

Lemma refuses_lit x l s : stops (Ascii.eqb x) s -> refuses (lit (x :: l)) s.
Proof. intros Hs c k. cbn [lit mt]. destruct s as [|y s]; [done|]. cbn in Hs. by rewrite Hs. Qed.

Lemma eats_lit l b c : eats (lit l) l b c c.
Proof.
  induction l as [|x l IH]; [apply eats_eps|].
  apply (eats_seq (Chr (Ascii.eqb x)) (lit l) [x] l _ _ c); [|done]. apply eats_chr. apply Ascii.eqb_refl.
Qed.

(** A greedy loop over a class takes all there is. *)
Lemma eats_star f a b c : all f a -> stops f b -> eats (Star (Chr f)) a b c c.
Proof.
  intros Ha Hb k x Hk. cbn.
  assert (forall n, (length a <= n)%nat ->
    (fix star (n : nat) (s : bytes) (c : caps) : option caps :=
       match n with
       | O => k s c
       | S n' =>
           match match s with x :: s' => if f x then if Nat.ltb (length s') (length s) then star n' s' c else None
                                         else None | [] => None end with
           | Some x => Some x
           | None => k s c
           end
       end) n (a ++ b) c = Some x) as H; [|apply H; rewrite length_app; lia].
  induction Ha as [|y a Hy Ha IH]; intros n Hn.
  - destruct n as [|n]; [done|]. cbn. destruct b as [|z b]; [done|]. cbn in Hb. by rewrite Hb.
  - destruct n as [|n]; [cbn in Hn; lia|]. cbn [app]. rewrite Hy.
    replace (Nat.ltb (length (a ++ b)) (length (y :: a ++ b))) with true by (symmetry; apply Nat.ltb_lt; cbn; lia).
    cbn in Hn. rewrite IH by lia. done.
Qed.

Lemma eats_plus f a b c : a <> [] -> all f a -> stops f b -> eats (Plus (Chr f)) a b c c.
Proof.
  intros Hn Ha Hb. destruct a as [|x a]; [done|]. apply Forall_cons in Ha as [Hx Ha].
  apply (eats_seq _ _ [x] a _ _ c); [by apply eats_chr|by apply eats_star].
Qed.

(** A loop whose first round takes [a] and whose second is refused. *)
Lemma eats_star_once r a b c c' : a <> [] -> eats r a b c c' -> refuses r b -> eats (Star r) a b c c'.
Proof.
  intros Hn H Hr k x Hk. cbn [mt]. destruct a as [|y a]; [done|].
  assert (Nat.ltb (length b) (length ((y :: a) ++ b)) = true) as Hl
    by (apply Nat.ltb_lt; rewrite length_app; cbn; lia).
  change (length ((y :: a) ++ b)) with (S (length (a ++ b))) at 1. cbn beta iota.
  rewrite (H _ x); [done|]. rewrite Hl. destruct (length (a ++ b)) as [|n]; [done|]. by rewrite Hr.
Qed.

Lemma eats_star_none r b c : refuses r b -> eats (Star r) [] b c c.
Proof. intros Hr k x Hk. cbn. destruct (length b) as [|n]; [done|]. by rewrite Hr. Qed.

Lemma eats_match r a c : eats r a [] ∅ c -> regex_match r a = Some c.
Proof. intros H. unfold regex_match. rewrite <- (app_nil_r a). by apply H. Qed.

Lemma stops_app f a b : stops f a -> a <> [] -> stops f (a ++ b).
Proof. by destruct a. Qed.

Lemma all_stops f g a b : (forall x, f x = true -> g x = false) -> all f a -> a <> [] -> stops g (a ++ b).
Proof. intros Hfg Ha Hn. destruct a as [|x a]; [done|]. apply Forall_cons in Ha as [Hx _]. by apply Hfg. Qed.
End Regex.
