(* ===== verification/Utils.v ===== *)
(** * [utils.h]: the queue and the semaphore the IO workers are built on

    [ConcurrentQueue] is the sentinel-headed singly linked list of
    [src/ceph_proxy/utils.h], modelled on an explicit heap of nodes, and
    refined to the abstract FIFO of the module [Fifo].  [Semaphore] is the
    two-level counting semaphore, modelled as a labelled transition system
    whose steps are its atomic operations. *)

From S2P Require Import Prelude.

(** ** The abstract queue: a list, oldest element first *)
Module Fifo.
Definition push {A} (x : A) (q : list A) : list A := q ++ [x].
Definition pop {A} (q : list A) : option A * list A :=
  match q with [] => (None, []) | x :: q' => (Some x, q') end.
End Fifo.

(** ** [template <class type> class ConcurrentQueue] *)
Module ConcurrentQueue.
Section queue.
Context {A : Type}.

(** [struct QueueItem]: the default constructor leaves [value] unset. *)
Record QueueItem := { value : option A; next : option positive }.

Record t := {
  heap : gmap positive QueueItem;   (* the live nodes *)
  head : positive;
  tail : positive
}.

(** [ConcurrentQueue() : head(new QueueItem), tail(head) {}] *)
Definition new : t :=
  {| heap := {[ 1%positive := {| value := None; next := None |} ]};
     head := 1%positive; tail := 1%positive |}.

(** [EnqueueWithLock]; [None] is a dereference of a freed node. *)
Definition Enqueue (v : A) (q : t) : option t :=
  let qItem := fresh (dom (heap q)) in
  let h1 := <[qItem := {| value := Some v; next := None |}]> (heap q) in
  tl ← h1 !! tail q;
  let h2 := <[tail q := {| value := value tl; next := Some qItem |}]> h1 in
  tl' ← h2 !! tail q;
  tail' ← next tl';
  Some {| heap := h2; head := head q; tail := tail' |}.

(** [DequeueWithLock(type *v)]: [false] when there is no node behind the
    sentinel; otherwise what is stored through [v], the old sentinel deleted. *)
Inductive result := Empty | Got (v : option A).

Definition Dequeue (q : t) : option (result * t) :=
  hd ← heap q !! head q;
  match next hd with
  | None => Some (Empty, q)
  | Some nextItem =>
      it ← heap q !! nextItem;
      Some (Got (value it),
            {| heap := delete (head q) (heap q); head := nextItem; tail := tail q |})
  end.

(** [~ConcurrentQueue()]: drain, then delete the last sentinel. *)
Fixpoint drain (fuel : nat) (q : t) : option t :=
  match fuel with
  | O => None
  | S f => r ← Dequeue q;
           match r with (Empty, q') => Some q' | (Got _, q') => drain f q' end
  end.

Definition destroy (fuel : nat) (q : t) : option (gmap positive QueueItem) :=
  q' ← drain fuel q; Some (delete (head q') (heap q')).

(** *** The representation: exactly the chain of nodes from [head] to [tail] *)
Fixpoint chain (h : gmap positive QueueItem) (p : positive) (vs : list A) (e : positive) : Prop :=
  match vs with
  | [] => p = e /\ exists x, h = {[ p := {| value := x; next := None |} ]}
  | v :: vs' => exists x n nx,
      h !! p = Some {| value := x; next := Some n |} /\
      delete p h !! n = Some {| value := Some v; next := nx |} /\
      chain (delete p h) n vs' e
  end.

Definition rep (q : t) (vs : list A) : Prop := chain (heap q) (head q) vs (tail q).

Lemma chain_tail h p vs e :
  chain h p vs e -> exists x, h !! e = Some {| value := x; next := None |}.
Proof.
  revert h p. induction vs as [|v vs IH]; intros h p; simpl.
  - intros [-> [x ->]]. exists x. apply lookup_singleton_eq.
  - intros (x & n & nx & _ & _ & Hc). destruct (IH _ _ Hc) as [y Hy].
    exists y. by apply lookup_delete_Some in Hy as [_ ?].
Qed.

(** Linking a fresh node behind the tail extends the chain by one value. *)
Lemma chain_snoc h p vs e x v q :
  chain h p vs e -> h !! e = Some {| value := x; next := None |} -> q ∉ dom h ->
  chain (<[e := {| value := x; next := Some q |}]>
           (<[q := {| value := Some v; next := None |}]> h)) p (vs ++ [v]) q.
Proof.
  revert h p. induction vs as [|w vs IH]; intros h p; simpl.
  - intros [-> [y ->]] He Hq. rewrite lookup_singleton_eq in He. simplify_eq.
    assert (q <> e) as Hqe by (intros ->; set_solver).
    exists x, q, None. rewrite lookup_insert_eq, delete_insert_eq.
    rewrite delete_insert_ne by done. rewrite delete_singleton_eq.
    rewrite lookup_insert_eq. split_and!; [done..|]. by exists (Some v).
  - intros (y & n & nx & Hp & Hn & Hc) He Hq.
    destruct (chain_tail _ _ _ _ Hc) as [z Hz].
    assert (p <> e) as Hpe by (intros ->; by rewrite lookup_delete_eq in Hz).
    assert (q <> p) as Hqp by (intros ->; apply Hq, elem_of_dom; by eexists).
    rewrite lookup_delete_ne in Hz by done. assert (z = x) as -> by congruence.
    exists y, n. rewrite !lookup_insert_ne by done. rewrite Hp.
    rewrite !delete_insert_ne by done.
    assert (q <> n) as Hqn.
    { intros ->. apply Hq, elem_of_dom. apply lookup_delete_Some in Hn as [_ ?]. by eexists. }
    destruct (decide (n = e)) as [->|Hne].
    + rewrite lookup_insert_eq.
      assert (x = Some w) as ->.
      { rewrite lookup_delete_ne in Hn by done. congruence. }
      eexists. split_and!; [done..|]. apply IH; [done| |set_solver].
      by rewrite lookup_delete_ne.
    + rewrite !lookup_insert_ne by done. exists nx. split_and!; [done..|].
      apply IH; [done| |set_solver]. by rewrite lookup_delete_ne.
Qed.

Lemma rep_new : rep new [].
Proof. split; [done|]. by exists None. Qed.

Lemma rep_Enqueue q vs v :
  rep q vs -> exists q', Enqueue v q = Some q' /\ rep q' (Fifo.push v vs).
Proof.
  intros Hr. unfold Enqueue. pose proof (is_fresh (dom (heap q))) as Hf.
  set (n := fresh (dom (heap q))) in *.
  destruct (chain_tail _ _ _ _ Hr) as [x Hx].
  assert (n <> tail q) as Hne by (intros Heq; apply Hf; rewrite Heq; apply elem_of_dom; by eexists).
  rewrite lookup_insert_ne by done. rewrite Hx. cbn -[insert].
  rewrite lookup_insert_eq. cbn -[insert].
  eexists. split; [done|]. unfold rep. simpl. by apply chain_snoc.
Qed.

Lemma rep_Dequeue_nil q : rep q [] -> Dequeue q = Some (Empty, q).
Proof.
  intros [He [x Hx]]. unfold Dequeue. rewrite Hx, lookup_singleton_eq. done.
Qed.

Lemma rep_Dequeue_cons q v vs :
  rep q (v :: vs) ->
  exists q', Dequeue q = Some (Got (Some v), q') /\ rep q' vs.
Proof.
  intros (x & n & nx & Hp & Hn & Hc). unfold Dequeue. rewrite Hp. cbn -[delete].
  apply lookup_delete_Some in Hn as [Hpn Hn]. rewrite Hn. cbn -[delete].
  eexists. split; [done|]. done.
Qed.

Lemma chain_fun h p vs ws e : chain h p vs e -> chain h p ws e -> vs = ws.
Proof.
  revert h p ws. induction vs as [|v vs IH]; intros h p [|w ws]; simpl.
  - done.
  - intros [-> [x ->]] (y & n & nx & Hp & _). by rewrite lookup_singleton_eq in Hp.
  - intros (y & n & nx & Hp & _) [-> [x ->]]. by rewrite lookup_singleton_eq in Hp.
  - intros (x & n & nx & Hp & Hn & Hc) (x' & n' & nx' & Hp' & Hn' & Hc').
    rewrite Hp in Hp'. injection Hp' as <- <-. rewrite Hn in Hn'. injection Hn' as <- <-.
    f_equal. by eapply IH.
Qed.

Lemma rep_fun q vs ws : rep q vs -> rep q ws -> vs = ws.
Proof. apply chain_fun. Qed.

Lemma rep_drain q vs fuel :
  rep q vs -> (length vs < fuel)%nat -> exists q', drain fuel q = Some q' /\ rep q' [].
Proof.
  revert q fuel. induction vs as [|v vs IH]; intros q [|f] Hr Hl; simpl in *; try lia.
  - rewrite (rep_Dequeue_nil _ Hr). by exists q.
  - destruct (rep_Dequeue_cons _ _ _ Hr) as (q' & -> & Hr'). simpl. apply IH; [done|lia].
Qed.

(** *** Runs: a sequence of calls, each under the mutex *)
Inductive call := Enq (v : A) | Deq.

(** What the implementation returns on each [Deq] ([None]: a bad access). *)
Fixpoint run (cs : list call) (q : t) : option (list result * t) :=
  match cs with
  | [] => Some ([], q)
  | Enq v :: cs' => q' ← Enqueue v q; run cs' q'
  | Deq :: cs' => '(r, q') ← Dequeue q; '(rs, q'') ← run cs' q'; Some (r :: rs, q'')
  end.

(** The same calls on the abstract queue. *)
Fixpoint run_spec (cs : list call) (l : list A) : list (option A) * list A :=
  match cs with
  | [] => ([], l)
  | Enq v :: cs' => run_spec cs' (Fifo.push v l)
  | Deq :: cs' => let '(r, l') := Fifo.pop l in
                  let '(rs, l'') := run_spec cs' l' in (r :: rs, l'')
  end.

Definition abs_result (r : result) : option A :=
  match r with Empty => None | Got v => v end.

Lemma run_refines cs q l :
  rep q l -> exists rs q', run cs q = Some (rs, q') /\
    map abs_result rs = fst (run_spec cs l) /\ rep q' (snd (run_spec cs l)).
Proof.
  revert q l. induction cs as [|[v|] cs IH]; intros q l Hr; simpl.
  - by exists [], q.
  - destruct (rep_Enqueue _ _ v Hr) as (q' & -> & Hr'). simpl. by apply IH.
  - destruct l as [|x l]; simpl.
    + rewrite (rep_Dequeue_nil _ Hr). simpl.
      destruct (IH _ _ Hr) as (rs & q' & -> & Hm & Hr'). simpl.
      destruct (run_spec cs []) as [rs' l'] eqn:E. simpl in *.
      exists (Empty :: rs), q'. simpl. by rewrite Hm.
    + destruct (rep_Dequeue_cons _ _ _ Hr) as (q1 & -> & Hr1). simpl.
      destruct (IH _ _ Hr1) as (rs & q' & -> & Hm & Hr'). simpl.
      destruct (run_spec cs l) as [rs' l'] eqn:E. simpl in *.
      exists (Got (Some x) :: rs), q'. simpl. by rewrite Hm.
Qed.

(** C37: every sequence of [Enqueue]/[Dequeue] calls on a fresh
    [ConcurrentQueue] runs without touching a freed node and answers exactly
    as the abstract FIFO does; the destructor run afterwards frees every node
    that is left, whatever the calls were. *)
Theorem queue_refines_fifo (cs : list call) :
  exists rs q, run cs new = Some (rs, q) /\
    map abs_result rs = fst (run_spec cs []) /\
    forall fuel, (length (snd (run_spec cs [])) < fuel)%nat -> destroy fuel q = Some ∅.
Proof.
  destruct (run_refines cs _ _ rep_new) as (rs & q & Hr & Hm & Hq).
  exists rs, q. split_and!; [done..|]. intros fuel Hf.
  destruct (rep_drain _ _ _ Hq Hf) as (q' & Hd & [He [x Hx]]).
  unfold destroy. rewrite Hd. cbn -[delete]. by rewrite Hx, delete_singleton_eq.
Qed.
End queue.
Arguments t : clear implicits.
Arguments QueueItem : clear implicits.
Arguments result : clear implicits.
Arguments call : clear implicits.
End ConcurrentQueue.

(** ** [class Semaphore] *)
Module Semaphore.

(** The shared counters, and how many threads stand at each program point:
    [posting] between [PostOne]'s [fetch_add] and its [semaphore.Post()],
    [waiting] between [Wait]'s [fetch_sub] and the return of
    [semaphore.Wait()].  [posts]/[waits] count the calls made, [woken] the
    calls of [Wait] that have returned. *)
Record t := {
  count : Z;        (* std::atomic<int> count *)
  inner : Z;        (* int Sem::count *)
  posting : Z;
  waiting : Z;
  posts : Z;
  waits : Z;
  woken : Z
}.

Definition init (c : Z) : t :=
  {| count := c; inner := 0; posting := 0; waiting := 0; posts := 0; waits := 0; woken := 0 |}.

Inductive label := PostAdd | PostInner | WaitSub | WaitInner.

(** [int c = count.fetch_add(1); if (c < 0) semaphore.Post();] *)
Definition post_add (s : t) : t :=
  let c := count s in
  {| count := s32 (c + 1); inner := inner s;
     posting := if c <? 0 then posting s + 1 else posting s;
     waiting := waiting s; posts := posts s + 1; waits := waits s; woken := woken s |}.

(** [Sem::Post]: [++count] under the mutex, then [notify_one]. *)
Definition post_inner (s : t) : option t :=
  if 0 <? posting s then
    Some {| count := count s; inner := inner s + 1; posting := posting s - 1;
            waiting := waiting s; posts := posts s; waits := waits s; woken := woken s |}
  else None.

(** [int c = count.fetch_sub(1); if (c < 1) semaphore.Wait();] *)
Definition wait_sub (s : t) : t :=
  let c := count s in
  {| count := s32 (c - 1); inner := inner s; posting := posting s;
     waiting := if c <? 1 then waiting s + 1 else waiting s;
     posts := posts s; waits := waits s + 1;
     woken := if c <? 1 then woken s else woken s + 1 |}.

(** [Sem::Wait]: enabled once [count != 0], then [--count]. *)
Definition wait_inner (s : t) : option t :=
  if (0 <? waiting s) && negb (inner s =? 0) then
    Some {| count := count s; inner := inner s - 1; posting := posting s;
            waiting := waiting s - 1; posts := posts s; waits := waits s;
            woken := woken s + 1 |}
  else None.

Definition step (l : label) (s : t) : option t :=
  match l with
  | PostAdd => Some (post_add s)
  | PostInner => post_inner s
  | WaitSub => Some (wait_sub s)
  | WaitInner => wait_inner s
  end.

Fixpoint run (tr : list label) (s : t) : option t :=
  match tr with
  | [] => Some s
  | l :: tr' => s' ← step l s; run tr' s'
  end.

(** The counters as functions of the calls made and of the threads inside. *)
Definition inv (c0 : Z) (n : Z) (s : t) : Prop :=
  count s = c0 + posts s - waits s /\
  waiting s = inner s + posting s + Z.max 0 (- count s) /\
  woken s = waits s - waiting s /\
  0 <= inner s /\ 0 <= posting s /\ 0 <= posts s /\ 0 <= waits s /\ 0 <= woken s /\
  posts s + waits s <= n.

Lemma inv_step c0 n l s s' :
  0 <= c0 -> c0 + n + 1 < 2 ^ 31 -> inv c0 n s -> step l s = Some s' -> inv c0 (n + 1) s'.
Proof.
  intros Hc Hn (Hct & Hw & Hk & Hi & Hp & Hps & Hws & Hwk & Hle) Hs. destruct s; cbn in *.
  unfold inv. destruct l; cbn in Hs; unfold post_inner, wait_inner in Hs; cbn in Hs.
  - injection Hs as <-. cbn. rewrite s32_small by lia. bcase; lia.
  - case_match; bprop; [|done]. injection Hs as <-. cbn. lia.
  - injection Hs as <-. cbn. rewrite s32_small by lia. bcase; lia.
  - case_match; bprop; [|done]. injection Hs as <-. cbn. lia.
Qed.

Lemma semaphore_inv_run c0 tr n s s' :
  0 <= c0 -> c0 + n + len tr < 2 ^ 31 -> inv c0 n s -> run tr s = Some s' ->
  inv c0 (n + len tr) s'.
Proof.
  intros Hc. revert n s. induction tr as [|l tr IH]; intros n s Hn Hi Hr; cbn in Hr.
  - injection Hr as <-. rewrite len_nil, Z.add_0_r. done.
  - rewrite len_cons in *. apply bind_Some in Hr as (s1 & H1 & Hr).
    pose proof (len_nonneg tr).
    replace (n + (1 + len tr)) with (n + 1 + len tr) by lia.
    apply IH with s1; [lia| |done]. eapply inv_step; [done| |done..]. lia.
Qed.

Lemma inv_reach c0 tr s :
  0 <= c0 -> c0 + len tr < 2 ^ 31 -> run tr (init c0) = Some s -> inv c0 (len tr) s.
Proof.
  intros Hc Hn Hr. change (len tr) with (0 + len tr). eapply semaphore_inv_run; [done|lia| |done].
  unfold inv. cbn. lia.
Qed.

(** C38: whatever the interleaving of [PostOne] and [Wait] calls, as long as
    fewer than 2^31 of them are made: no more waits return than permits were
    given ([c0] plus the posts), the inner counter never overflows, and a
    thread is left blocked only when the permits are used up -- if a [Wait]
    has not returned while permits remain, a [Post] still has to reach the
    inner semaphore or a blocked thread can go on (no lost wake-up). *)
Theorem semaphore_correct (c0 : Z) (tr : list label) (s : t)
  (Hc : 0 <= c0) (Hn : c0 + len tr < 2 ^ 31) (Hr : run tr (init c0) = Some s) :
  woken s <= c0 + posts s /\ woken s <= waits s /\
  0 <= inner s <= INT_MAX /\ - 2 ^ 31 <= count s < 2 ^ 31 /\
  (woken s < waits s -> woken s < c0 + posts s ->
   is_Some (step PostInner s) \/ is_Some (step WaitInner s)).
Proof.
  destruct (inv_reach _ _ _ Hc Hn Hr) as (Hct & Hw & Hk & Hi & Hp & Hps & Hws & Hwk & Hle).
  unfold INT_MAX. split_and!; [lia..|]. intros H1 H2. cbn. unfold post_inner, wait_inner.
  destruct (0 <? posting s) eqn:E; [left; by eexists|right]. bprop.
  replace (0 <? waiting s) with true by lia. replace (inner s =? 0) with false by lia.
  by eexists.
Qed.

(** Two waiters and one post: one waiter is released, the other stays blocked. *)
Lemma semaphore_correct_witness :
  let tr := [WaitSub; WaitSub; PostAdd; PostInner; WaitInner] in
  exists s, run tr (init 0) = Some s /\ woken s = 1 /\ waits s = 2 /\ woken s <= 0 + posts s.
Proof.
  eexists. split; [vm_compute; reflexivity|]. split; [reflexivity|]. split; [reflexivity|].
  eapply (semaphore_correct 0 [WaitSub; WaitSub; PostAdd; PostInner; WaitInner]);
    [lia | vm_compute; reflexivity | vm_compute; reflexivity].
Defined.
End Semaphore.
