(* ===== verification/RadosWorker.v ===== *)
(** * [RadosWorker.h], [RadosWorker.cc]: the IO worker threads

    [RadosIOWorker] owns [threadNum] lanes, each a [ConcurrentQueue] of
    requests, a [Semaphore] and a thread running [OpHandler].  It is modelled as
    a labelled transition system: a label is one atomic action of a producer, of
    a worker thread or of the thread that stops the worker.  The queue is used
    through the interface [FIFO], which [ConcurrentQueue] implements; of the
    semaphore only the number of permits is kept, which is what
    [Utils.Semaphore.semaphore_correct] allows. *)

From S2P Require Import Prelude Utils.

(** ** What the worker relies on of its queue *)

Class FIFO (Q : Type -> Type) := {
  q_new : forall {A}, Q A;
  q_enq : forall {A}, A -> Q A -> option (Q A);
  q_deq : forall {A}, Q A -> option (option A * Q A);
  q_rep : forall {A}, Q A -> list A -> Prop;
  q_new_ok : forall {A}, q_rep (q_new (A := A)) [];
  q_enq_ok : forall {A} (q : Q A) l x, q_rep q l ->
    exists q', q_enq x q = Some q' /\ q_rep q' (Fifo.push x l);
  q_deq_ok : forall {A} (q : Q A) l, q_rep q l ->
    exists q', q_deq q = Some (fst (Fifo.pop l), q') /\ q_rep q' (snd (Fifo.pop l));
  q_rep_fun : forall {A} (q : Q A) l l', q_rep q l -> q_rep q l' -> l = l'
}.

(** [Dequeue(&ctx)] of the concrete queue, a read of an unset value being an
    error. *)
Definition cq_deq {A} (q : ConcurrentQueue.t A) : option (option A * ConcurrentQueue.t A) :=
  r ← ConcurrentQueue.Dequeue q;
  match r with
  | (ConcurrentQueue.Empty, q') => Some (None, q')
  | (ConcurrentQueue.Got (Some v), q') => Some (Some v, q')
  | (ConcurrentQueue.Got None, _) => None
  end.

#[export] Program Instance ConcurrentQueue_FIFO : FIFO ConcurrentQueue.t := {|
  q_new A := ConcurrentQueue.new;
  q_enq A := ConcurrentQueue.Enqueue;
  q_deq A := cq_deq;
  q_rep A := ConcurrentQueue.rep
|}.
Next Obligation. intros. apply ConcurrentQueue.rep_new. Qed.
Next Obligation. intros. by apply ConcurrentQueue.rep_Enqueue. Qed.
Next Obligation.
  intros A q [|v l] Hr; unfold cq_deq; simpl.
  - rewrite (ConcurrentQueue.rep_Dequeue_nil _ Hr). by exists q.
  - destruct (ConcurrentQueue.rep_Dequeue_cons _ _ _ Hr) as (q' & -> & ?). by exists q'.
Qed.
Next Obligation. intros. by eapply ConcurrentQueue.rep_fun. Qed.

(** ** Requests and their processing *)

(** [RadosObjectOperation] as far as the workers look at it; [op_id] stands for
    the object's identity (the pointer the caller queued). *)
Record RadosObjectOperation := { op_id : Z; poolId : Z; objectId : bytes }.

(** [struct RequestCtx]: the operation, its completion and its time stamp. *)
Record RequestCtx := { rc_op : RadosObjectOperation; rc_comp : Z; rc_ts : Z }.

(** What one iteration of [OpHandler]'s inner loop does with a request:
    [callback] is the direct call of [c->fn], [None] when the request was handed
    to librados, whose completion will call it. *)
Record outcome := { oc_ctx : RequestCtx; oc_callback : option Z }.

(** The body of [while (queue[index]->Dequeue(&ctx))]: [ioctx] is what
    [GetIoCtxWithClient] returns, [aio] what [RadosOperationAioOperate] does. *)
Definition handle_ctx (ioctx : option Z) (aio : Z) (ctx : RequestCtx) : outcome :=
  {| oc_ctx := ctx;
     oc_callback := match ioctx with
                    | None => Some (- ENOENT)
                    | Some _ => if aio <? 0 then Some aio else None
                    end |}.

Module RadosIOWorker.
Section worker.
Context {Q : Type -> Type} `{!FIFO Q}.
(** [std::hash<std::string>] and the number of worker threads. *)
Context (hash : bytes -> Z) (threadNum : Z).

(** Where the thread of a lane stands in [OpHandler]: at the test of
    [ioworkerStop], in [sem->Wait()], in the draining loop, or returned. *)
Inductive pc := AtLoop | AtWait | Draining | Exited.

(** [posting]: producers between [Enqueue] and [PostOne]. *)
Record lane := {
  queue : Q RequestCtx;
  permits : Z;
  posting : Z;
  thread : pc;
  done_log : list outcome
}.

(** [submitted] is history: every request queued so far, in order. *)
Record t := { ioworkerStop : bool; lanes : list lane; submitted : list RequestCtx }.

Definition new_lane : lane :=
  {| queue := q_new; permits := 0; posting := 0; thread := AtLoop; done_log := [] |}.

(** The constructor and [StartProc]. *)
Definition init : t :=
  {| ioworkerStop := false; lanes := replicate (Z.to_nat threadNum) new_lane; submitted := [] |}.

(** [static_cast<uint32_t>(hash(operation->objectId)) % threadNum] *)
Definition index_of (oid : bytes) : nat := Z.to_nat (u32 (hash oid) mod threadNum).

Definition set_lane (i : nat) (l : lane) (s : t) : t :=
  {| ioworkerStop := ioworkerStop s; lanes := <[i := l]> (lanes s); submitted := submitted s |}.

(** [RadosIOWorker::Queue] up to [Enqueue]; its [PostOne] is the label [Post]. *)
Definition Queue (ctx : RequestCtx) (s : t) : option t :=
  let index := index_of (objectId (rc_op ctx)) in
  l ← lanes s !! index;
  q' ← q_enq ctx (queue l);
  Some {| ioworkerStop := ioworkerStop s;
          lanes := <[index := {| queue := q'; permits := permits l; posting := posting l + 1;
                                 thread := thread l; done_log := done_log l |}]> (lanes s);
          submitted := submitted s ++ [ctx] |}.

Definition post (i : nat) (s : t) : option t :=
  l ← lanes s !! i;
  if 0 <? posting l then
    Some (set_lane i {| queue := queue l; permits := permits l + 1; posting := posting l - 1;
                        thread := thread l; done_log := done_log l |} s)
  else None.

(** One action of the thread running [OpHandler(i)]. *)
Definition OpHandler (i : nat) (ioctx : option Z) (aio : Z) (s : t) : option t :=
  l ← lanes s !! i;
  let at_pc p := {| queue := queue l; permits := permits l; posting := posting l;
                    thread := p; done_log := done_log l |} in
  match thread l with
  | AtLoop => Some (set_lane i (at_pc (if ioworkerStop s then Exited else AtWait)) s)
  | AtWait =>
      if 0 <? permits l then
        Some (set_lane i {| queue := queue l; permits := permits l - 1; posting := posting l;
                            thread := Draining; done_log := done_log l |} s)
      else None
  | Draining =>
      r ← q_deq (queue l);
      match r with
      | (None, q') =>
          Some (set_lane i {| queue := q'; permits := permits l; posting := posting l;
                              thread := AtLoop; done_log := done_log l |} s)
      | (Some ctx, q') =>
          Some (set_lane i {| queue := q'; permits := permits l; posting := posting l;
                              thread := Draining;
                              done_log := done_log l ++ [handle_ctx ioctx aio ctx] |} s)
      end
  | Exited => None
  end.

(** [WaitForEmpty]/[StopProc]: the flag, and one [PostOne] per lane. *)
Definition set_stop (s : t) : t :=
  {| ioworkerStop := true; lanes := lanes s; submitted := submitted s |}.

Definition stop_post (i : nat) (s : t) : option t :=
  l ← lanes s !! i;
  Some (set_lane i {| queue := queue l; permits := permits l + 1; posting := posting l;
                      thread := thread l; done_log := done_log l |} s).

Inductive label :=
| Submit (ctx : RequestCtx)
| Post (i : nat)
| Work (i : nat) (ioctx : option Z) (aio : Z)
| SetStop
| StopPost (i : nat).

Definition step (a : label) (s : t) : option t :=
  match a with
  | Submit ctx => Queue ctx s
  | Post i => post i s
  | Work i ioctx aio => OpHandler i ioctx aio s
  | SetStop => Some (set_stop s)
  | StopPost i => stop_post i s
  end.

Fixpoint run (tr : list label) (s : t) : option t :=
  match tr with
  | [] => Some s
  | a :: tr' => s' ← step a s; run tr' s'
  end.

(** *** Invariant of a lane *)
Definition of_lane (i : nat) (c : RequestCtx) : bool :=
  bool_decide (index_of (objectId (rc_op c)) = i).

Definition parked (p : pc) : bool := match p with AtLoop | AtWait => true | _ => false end.

(** A lane processes, in order, exactly the requests routed to it; and work
    that waits for a parked thread has a permit granted or on its way. *)
Definition lane_inv (sub : list RequestCtx) (i : nat) (l : lane) : Prop :=
  exists q, q_rep (queue l) q /\
    filter (fun c => of_lane i c = true) sub = map oc_ctx (done_log l) ++ q /\
    0 <= permits l /\ 0 <= posting l /\
    (parked (thread l) = true -> q <> [] -> 0 < permits l + posting l).

Definition inv (s : t) : Prop :=
  forall i l, lanes s !! i = Some l -> lane_inv (submitted s) i l.

Lemma inv_init : inv init.
Proof.
  intros i l Hl. apply lookup_replicate in Hl as [-> _]. exists [].
  split_and!; try done. apply q_new_ok.
Qed.

Lemma inv_set_lane s i l l' :
  inv s -> lanes s !! i = Some l -> lane_inv (submitted s) i l' -> inv (set_lane i l' s).
Proof.
  intros Hi Hl Hl' j k Hk. simpl in *. apply list_lookup_insert_Some in Hk.
  destruct Hk as [(-> & -> & _)|[_ Hk]]; [done|by apply Hi].
Qed.

Lemma inv_Queue ctx s s' : inv s -> Queue ctx s = Some s' -> inv s'.
Proof.
  intros Hi Hq. unfold Queue in Hq. set (n := index_of _) in *.
  apply bind_Some in Hq as (l & Hl & Hq). apply bind_Some in Hq as (q' & He & Hq).
  injection Hq as <-. intros j k Hk. simpl in *.
  apply list_lookup_insert_Some in Hk. destruct Hk as [(<- & <- & Hlt)|[Hne Hk]].
  - destruct (Hi _ _ Hl) as (q & Hr & Hf & Hp & Hpo & Hw).
    destruct (q_enq_ok _ _ ctx Hr) as (q2 & He2 & Hr2).
    rewrite He in He2. injection He2 as <-. exists (Fifo.push ctx q). simpl.
    split_and!; [done| |done|lia|lia].
    rewrite filter_app, Hf. unfold Fifo.push.
    rewrite (filter_cons_True _ ctx), filter_nil; [by rewrite app_assoc|].
    unfold of_lane. by rewrite bool_decide_eq_true.
  - destruct (Hi _ _ Hk) as (q & Hr & Hf & Hrest). exists q. split; [done|]. split; [|done].
    rewrite filter_app, Hf. rewrite (filter_cons_False _ ctx), filter_nil, app_nil_r; [done|].
    unfold of_lane. rewrite bool_decide_eq_true. done.
Qed.

Lemma inv_post i s s' : inv s -> post i s = Some s' -> inv s'.
Proof.
  intros Hi Hs. unfold post in Hs. apply bind_Some in Hs as (l & Hl & Hs).
  destruct (0 <? posting l) eqn:Hp; [|done]. injection Hs as <-.
  eapply inv_set_lane; [done..|]. bprop. destruct (Hi _ _ Hl) as (q & ? & ? & ? & ? & Hw). exists q. cbn.
  split_and!; try done; lia.
Qed.

Lemma inv_stop_post i s s' : inv s -> stop_post i s = Some s' -> inv s'.
Proof.
  intros Hi Hs. unfold stop_post in Hs. apply bind_Some in Hs as (l & Hl & Hs).
  injection Hs as <-. eapply inv_set_lane; [done..|].
  destruct (Hi _ _ Hl) as (q & ? & ? & ? & ? & Hw). exists q. cbn.
  split_and!; try done; lia.
Qed.

Lemma inv_OpHandler i ioctx aio s s' : inv s -> OpHandler i ioctx aio s = Some s' -> inv s'.
Proof.
  intros Hi Hs. unfold OpHandler in Hs. apply bind_Some in Hs as (l & Hl & Hs).
  destruct (Hi _ _ Hl) as (q & Hr & Hf & Hpe & Hpo & Hw).
  destruct (thread l) eqn:Et; [| | |done].
  - injection Hs as <-. eapply inv_set_lane; [done..|]. exists q. cbn.
    split_and!; try done. intros _. by apply Hw.
  - destruct (0 <? permits l) eqn:Hp; [|done]. injection Hs as <-. bprop.
    eapply inv_set_lane; [done..|]. exists q. cbn. split_and!; try done; lia.
  - destruct (q_deq_ok _ _ Hr) as (q' & Hd & Hr'). rewrite Hd in Hs. cbn in Hs.
    destruct q as [|c q]; cbn in *; injection Hs as <-;
      (eapply inv_set_lane; [done..|]); cbn.
    + exists []. by split_and!.
    + exists q. cbn. split_and!; try done.
      by rewrite map_app, Hf, <- app_assoc.
Qed.

Lemma inv_run tr s s' : inv s -> run tr s = Some s' -> inv s'.
Proof.
  revert s. induction tr as [|a tr IH]; intros s Hi Hr; cbn in Hr.
  - by injection Hr as <-.
  - apply bind_Some in Hr as (s1 & H1 & Hr). eapply IH; [|done].
    destruct a; cbn in H1; eauto using inv_Queue, inv_post, inv_OpHandler, inv_stop_post.
    by injection H1 as <-.
Qed.

(** *** What a trace submitted, and which threads can have returned *)
Definition submits (tr : list label) : list RequestCtx :=
  omap (fun a => match a with Submit c => Some c | _ => None end) tr.

Lemma submitted_step a s s' :
  step a s = Some s' -> submitted s' = submitted s ++ submits [a].
Proof.
  destruct a; cbn; unfold Queue, post, OpHandler, stop_post; intros Hs;
    [| | |by injection Hs as <-; rewrite app_nil_r|];
    apply bind_Some in Hs as (l & Hl & Hs); cbn; rewrite ?app_nil_r.
  - apply bind_Some in Hs as (q' & He & Hs). by injection Hs as <-.
  - destruct (0 <? posting l); [|done]. by injection Hs as <-.
  - destruct (thread l); [|destruct (0 <? permits l); [|done]| |done]; try by injection Hs as <-.
    apply bind_Some in Hs as ([[c|] q'] & He & Hs); by injection Hs as <-.
  - by injection Hs as <-.
Qed.

Lemma submitted_run tr s s' : run tr s = Some s' -> submitted s' = submitted s ++ submits tr.
Proof.
  revert s. induction tr as [|a tr IH]; intros s Hr; cbn in Hr.
  - injection Hr as <-. by rewrite app_nil_r.
  - apply bind_Some in Hr as (s1 & H1 & Hr). rewrite (IH _ Hr), (submitted_step _ _ _ H1).
    rewrite <- app_assoc. f_equal. unfold submits. cbn. by destruct a.
Qed.

(** A thread only returns after [ioworkerStop] was set. *)
Definition alive (s : t) : Prop :=
  ioworkerStop s = false -> forall i l, lanes s !! i = Some l -> thread l <> Exited.

Lemma alive_set_lane s i l' :
  alive s -> (ioworkerStop s = false -> thread l' <> Exited) -> alive (set_lane i l' s).
Proof.
  intros Ha Hl' Hs j k Hk. cbn in *. apply list_lookup_insert_Some in Hk.
  destruct Hk as [(-> & -> & _)|[_ Hk]]; [by apply Hl'|by eapply Ha].
Qed.

Lemma alive_step a s s' : alive s -> step a s = Some s' -> alive s'.
Proof.
  intros Ha. destruct a; cbn; unfold Queue, post, OpHandler, stop_post; intros Hs;
    [| | |by injection Hs as <-|]; apply bind_Some in Hs as (l & Hl & Hs).
  - apply bind_Some in Hs as (q' & He & Hs). injection Hs as <-. intros Hst j k Hk. cbn in *.
    apply list_lookup_insert_Some in Hk.
    destruct Hk as [(_ & <- & _)|[_ Hk]]; cbn; by eapply Ha.
  - destruct (0 <? posting l); [|done]. injection Hs as <-. apply alive_set_lane; [done|].
    cbn. intros Hst. by eapply Ha.
  - destruct (thread l); [|destruct (0 <? permits l); [|done]| |done].
    + injection Hs as <-. apply alive_set_lane; [done|]. cbn. by intros ->.
    + injection Hs as <-. by apply alive_set_lane.
    + apply bind_Some in Hs as ([[c|] q'] & He & Hs); injection Hs as <-; by apply alive_set_lane.
  - injection Hs as <-. apply alive_set_lane; [done|]. cbn. intros Hst. by eapply Ha.
Qed.

Lemma alive_run tr s s' : alive s -> run tr s = Some s' -> alive s'.
Proof.
  revert s. induction tr as [|a tr IH]; intros s Hi Hr; cbn in Hr.
  - by injection Hr as <-.
  - apply bind_Some in Hr as (s1 & H1 & Hr). eauto using alive_step.
Qed.

Lemma alive_init : alive init.
Proof. intros _ i l Hl. by apply lookup_replicate in Hl as [-> _]. Qed.

Lemma run_app tr1 tr2 s :
  run (tr1 ++ tr2) s = (s' ← run tr1 s; run tr2 s').
Proof.
  revert s. induction tr1 as [|a tr1 IH]; intros s; cbn; [done|].
  destruct (step a s); cbn; [apply IH|done].
Qed.

(** *** Draining a lane *)
Section drain.
Context (i : nat) (ioctx : option Z) (aio : Z).

Definition own (a : label) : Prop := a = Post i \/ a = Work i ioctx aio.

(** What a lane is after the thread has emptied its queue. *)
Definition drained (s s' : t) : Prop :=
  submitted s' = submitted s /\ exists l', lanes s' !! i = Some l' /\ q_rep (queue l') [].

Lemma drain_draining n s l q :
  length q = n -> lanes s !! i = Some l -> q_rep (queue l) q -> thread l = Draining ->
  exists tr' s', Forall own tr' /\ run tr' s = Some s' /\ drained s s'.
Proof.
  revert s l q. induction n as [|n IH]; intros s l q Hn Hl Hq Ht.
  - destruct q; [|done]. exists [], s. split_and!; [done..|]. split; [done|by exists l].
  - destruct q as [|c q]; [done|]. cbn in Hn.
    destruct (q_deq_ok _ _ Hq) as (q' & Hd & Hq'). cbn in Hd, Hq'.
    pose (l1 := {| queue := q'; permits := permits l; posting := posting l;
                   thread := Draining;
                   done_log := done_log l ++ [handle_ctx ioctx aio c] |}).
    edestruct (IH (set_lane i l1 s) l1) as (tr' & s' & Hf & Hr & Hdr);
      [by injection Hn| |exact Hq'|done|].
    { cbn. rewrite list_lookup_insert_eq; [done|]. by eapply lookup_lt_Some. }
    exists (Work i ioctx aio :: tr'), s'. split; [constructor; [by right|done]|].
    split; [|done]. cbn. unfold OpHandler. rewrite Hl. cbn. rewrite Ht, Hd. cbn. exact Hr.
Qed.

Lemma own_step a s s1 l1 P :
  own a -> step a s = Some s1 -> submitted s1 = submitted s -> lanes s1 !! i = Some l1 ->
  (lanes s1 !! i = Some l1 -> exists tr' s', Forall own tr' /\ run tr' s1 = Some s' /\
     (submitted s' = submitted s1 /\ P s')) ->
  exists tr' s', Forall own tr' /\ run tr' s = Some s' /\ (submitted s' = submitted s /\ P s').
Proof.
  intros Ha Hs Hsub Hl1 H'. destruct (H' Hl1) as (tr' & s' & Hf & Hr & Hs' & HP).
  exists (a :: tr'), s'. split; [by constructor|]. cbn. rewrite Hs. cbn.
  split; [done|]. split; [congruence|done].
Qed.

Lemma drain_wait s l q :
  lanes s !! i = Some l -> q_rep (queue l) q -> thread l = AtWait -> 0 < permits l ->
  exists tr' s', Forall own tr' /\ run tr' s = Some s' /\ drained s s'.
Proof.
  intros Hl Hq Ht Hp. unfold drained.
  eapply (own_step (Work i ioctx aio)); [by right| | | |].
  - cbn. unfold OpHandler. rewrite Hl. cbn. rewrite Ht.
    replace (0 <? permits l) with true by lia. reflexivity.
  - done.
  - cbn. rewrite list_lookup_insert_eq; [done|]. by eapply lookup_lt_Some.
  - intros Hl'. eapply drain_draining; [reflexivity|exact Hl'|exact Hq|done].
Qed.

Lemma drain_wait_post s l q :
  lanes s !! i = Some l -> q_rep (queue l) q -> thread l = AtWait ->
  0 <= permits l -> 0 < permits l + posting l ->
  exists tr' s', Forall own tr' /\ run tr' s = Some s' /\ drained s s'.
Proof.
  intros Hl Hq Ht Hp Hpp. destruct (decide (0 < permits l)); [by eapply drain_wait|].
  eapply (own_step (Post i)); [by left| | | |].
  - cbn. unfold post. rewrite Hl. cbn. replace (0 <? posting l) with true by lia. reflexivity.
  - done.
  - cbn. rewrite list_lookup_insert_eq; [done|]. by eapply lookup_lt_Some.
  - intros Hl'. eapply drain_wait; [exact Hl'|done|done|cbn; lia].
Qed.
End drain.

Definition same_object (o : bytes) (c : RequestCtx) : bool :=
  bool_decide (objectId (rc_op c) = o).

Lemma filter_same_object_lane o (cs : list RequestCtx) :
  filter (fun c => same_object o c = true) (filter (fun c => of_lane (index_of o) c = true) cs) =
  filter (fun c => same_object o c = true) cs.
Proof.
  apply list_filter_filter_l. intros c. unfold same_object, of_lane.
  rewrite !bool_decide_eq_true. by intros ->.
Qed.

Lemma reach_inv tr s : run tr init = Some s ->
  inv s /\ alive s /\ submitted s = submits tr.
Proof.
  intros Hr. split_and!.
  - eapply inv_run; [|done]. apply inv_init.
  - eapply alive_run; [|done]. apply alive_init.
  - by rewrite (submitted_run _ _ _ Hr).
Qed.

(** C12: whatever the interleaving of producers, worker threads and the
    stopping thread, the requests for one object are processed in the order
    they were queued and none is lost, repeated or invented: on the lane the
    object hashes to, the requests handled so far followed by those still
    queued are exactly the requests submitted for the object, and no other
    lane ever handles one. *)
Theorem per_object_order (tr : list label) (s : t) (o : bytes)
  (Hr : run tr init = Some s) (i : nat) (l : lane) (Hl : lanes s !! i = Some l) :
  exists q, q_rep (queue l) q /\
    filter (fun c => same_object o c = true) (map oc_ctx (done_log l) ++ q) =
      (if bool_decide (i = index_of o)
       then filter (fun c => same_object o c = true) (submits tr) else []).
Proof.
  destruct (reach_inv _ _ Hr) as (Hi & _ & <-).
  destruct (Hi _ _ Hl) as (q & Hq & Hf & _). exists q. split; [done|]. rewrite <- Hf.
  case_bool_decide as E; [subst i; apply filter_same_object_lane|].
  apply filter_none. intros c Hin Hc. apply list_elem_of_filter in Hin as [Hin _].
  unfold same_object, of_lane in *. rewrite !bool_decide_eq_true in *. congruence.
Qed.

(** C13: no request is stranded: from every state reached while the worker has
    not been stopped, the lane's own remaining actions (the pending [PostOne]s
    of its producers and its thread) lead to an empty queue with every request
    routed to the lane handled -- in particular the thread is not blocked in
    [Wait] with work in its queue and no post to come. *)
Theorem worker_drains (tr : list label) (s : t) (i : nat) (l : lane)
  (ioctx : option Z) (aio : Z)
  (Hr : run tr init = Some s) (Hstop : ioworkerStop s = false) (Hl : lanes s !! i = Some l) :
  exists tr' s' l', Forall (own i ioctx aio) tr' /\ run tr' s = Some s' /\
    lanes s' !! i = Some l' /\ q_rep (queue l') [] /\
    map oc_ctx (done_log l') = filter (fun c => of_lane i c = true) (submits tr).
Proof.
  destruct (reach_inv _ _ Hr) as (Hi & Ha & Hsub).
  enough (exists tr' s', Forall (own i ioctx aio) tr' /\ run tr' s = Some s' /\ drained i s s')
    as (tr' & s' & Hf & Hr' & Hs' & l' & Hl' & Hq').
  { exists tr', s', l'. split_and!; [done..|]. pose proof (inv_run _ _ _ Hi Hr') as Hi'.
    destruct (Hi' _ _ Hl') as (q & Hq & He & _). rewrite Hs', Hsub in He.
    rewrite (q_rep_fun _ _ _ Hq Hq'), app_nil_r in He. done. }
  destruct (Hi _ _ Hl) as (q & Hq & _ & Hp & Hpo & Hw).
  specialize (Ha Hstop _ _ Hl).
  destruct q as [|c q]; [exists [], s; split_and!; [done..|split; [done|by exists l]]|].
  destruct (thread l) eqn:Et; [| | |done].
  - specialize (Hw eq_refl ltac:(done)).
    eapply (own_step i ioctx aio (Work i ioctx aio)); [by right| | | |].
    + cbn. unfold OpHandler. rewrite Hl. cbn. rewrite Et, Hstop. reflexivity.
    + done.
    + cbn. rewrite list_lookup_insert_eq; [done|]. by eapply lookup_lt_Some.
    + intros Hl'. eapply drain_wait_post; [exact Hl'|exact Hq|done..].
  - eapply drain_wait_post; [done..|]. by apply Hw.
  - by eapply drain_draining.
Qed.

(** A returned thread leaves its lane's log as it is, for ever. *)
Lemma exited_step a s s' i l :
  step a s = Some s' -> lanes s !! i = Some l -> thread l = Exited ->
  exists l', lanes s' !! i = Some l' /\ thread l' = Exited /\ done_log l' = done_log l.
Proof.
  intros Hs Hl Ht.
  assert (forall j k k', lanes s !! j = Some k -> thread k' = thread k ->
    done_log k' = done_log k -> exists l', <[j := k']> (lanes s) !! i = Some l' /\
      thread l' = Exited /\ done_log l' = done_log l) as Hset.
  { intros j k k' Hk H1 H2. destruct (decide (i = j)) as [->|Hne].
    - rewrite list_lookup_insert_eq by (by eapply lookup_lt_Some). exists k'.
      rewrite Hl in Hk. injection Hk as <-. split_and!; congruence.
    - rewrite list_lookup_insert_ne by done. by exists l. }
  destruct a; cbn in Hs; unfold Queue, post, OpHandler, stop_post in Hs;
    [| | |injection Hs as <-; by exists l|]; apply bind_Some in Hs as (k & Hk & Hs).
  - apply bind_Some in Hs as (q' & He & Hs). injection Hs as <-. cbn. by eapply Hset.
  - destruct (0 <? posting k); [|done]. injection Hs as <-. cbn. by eapply Hset.
  - destruct (decide (i0 = i)) as [->|Hne].
    { rewrite Hl in Hk. injection Hk as <-. by rewrite Ht in Hs. }
    exists l. split; [|done].
    destruct (thread k); [|destruct (0 <? permits k); [|done]| |done];
      try (injection Hs as <-; cbn; by rewrite list_lookup_insert_ne).
    apply bind_Some in Hs as ([[c|] q'] & He & Hs); injection Hs as <-; cbn;
      by rewrite list_lookup_insert_ne.
  - injection Hs as <-. cbn. by eapply Hset.
Qed.

Lemma exited_run tr s s' i l :
  run tr s = Some s' -> lanes s !! i = Some l -> thread l = Exited ->
  exists l', lanes s' !! i = Some l' /\ done_log l' = done_log l.
Proof.
  revert s l. induction tr as [|a tr IH]; intros s l Hr Hl Ht; cbn in Hr.
  - injection Hr as <-. by exists l.
  - apply bind_Some in Hr as (s1 & H1 & Hr).
    destruct (exited_step _ _ _ _ _ H1 Hl Ht) as (l1 & Hl1 & Ht1 & <-). by eapply IH.
Qed.
End worker.
End RadosIOWorker.

(** *** The worker over the concrete queue, on concrete traces *)
Module RadosIOWorkerExamples.
Import RadosIOWorker.
Definition obj (n : Z) (o : string) : RequestCtx :=
  {| rc_op := {| op_id := n; poolId := 1; objectId := bs o |}; rc_comp := n; rc_ts := 0 |}.
(** A stand-in for [std::hash]: the first byte. *)
Definition hash0 (o : bytes) : Z := match o with [] => 0 | c :: _ => Z.of_nat (nat_of_ascii c) end.

(** Two objects on two lanes, a post overtaken by the second request. *)
Definition trace : list label :=
  [Submit (obj 1 "a"); Submit (obj 2 "b"); Submit (obj 3 "a"); Work 1 (Some 1) 0; Post 1;
   Work 1 (Some 1) 0; Work 1 (Some 1) 0].

Definition final : option (t (Q := ConcurrentQueue.t)) := run hash0 2 trace (init 2).

Lemma per_object_order_witness :
  exists s l q, final = Some s /\ lanes s !! 1%nat = Some l /\ q_rep (queue l) q /\
    filter (fun c => same_object (bs "a") c = true) (map oc_ctx (done_log l) ++ q) =
    [obj 1 "a"; obj 3 "a"].
Proof.
  eexists _, _.
  epose proof (per_object_order (Q := ConcurrentQueue.t) hash0 2 trace _ (bs "a")) as H.
  specialize (H ltac:(vm_compute; reflexivity) 1%nat _ ltac:(vm_compute; reflexivity)).
  destruct H as (q & Hq & Hf). exists q.
  split; [vm_compute; reflexivity|]. split; [vm_compute; reflexivity|].
  split; [exact Hq|]. rewrite Hf. vm_compute. reflexivity.
Defined.

Lemma worker_drains_witness :
  exists s l tr' s' l', final = Some s /\ lanes s !! 1%nat = Some l /\
    Forall (own 1 None 0) tr' /\ run hash0 2 tr' s = Some s' /\ lanes s' !! 1%nat = Some l' /\
    map oc_ctx (done_log l') = [obj 1 "a"; obj 3 "a"].
Proof.
  eexists _, _.
  epose proof (worker_drains (Q := ConcurrentQueue.t) hash0 2 trace _ 1 _ None 0) as H.
  specialize (H ltac:(vm_compute; reflexivity) ltac:(vm_compute; reflexivity)
                ltac:(vm_compute; reflexivity)).
  destruct H as (tr' & s' & l' & Hf & Hr & Hl' & _ & Hd). exists tr', s', l'.
  split; [vm_compute; reflexivity|]. split; [vm_compute; reflexivity|].
  split; [exact Hf|]. split; [exact Hr|]. split; [exact Hl'|].
  rewrite Hd. vm_compute. reflexivity.
Defined.

(** One lane: a request is queued and posted, then the worker is stopped. *)
Definition early_stop_trace : list label :=
  [Submit (obj 1 "a"); Post 0; SetStop; StopPost 0; Work 0 None 0].

(** [WaitForEmpty] does not wait: there is a run in which a request is
    queued and posted {e before} the worker is stopped, every thread then
    returns as [StopProc]'s joins expect, and the request is neither handled
    nor completed then or in any continuation of the run. *)
Theorem stop_drops_queued :
  exists s c, run (Q := ConcurrentQueue.t) hash0 1 early_stop_trace (init 1) = Some s /\
    c ∈ submitted s /\ (forall i l, lanes s !! i = Some l -> thread l = Exited) /\
    forall tr' s', run hash0 1 tr' s = Some s' ->
      forall i l', lanes s' !! i = Some l' -> i = 0%nat -> c ∉ map oc_ctx (done_log l').
Proof.
  eexists _, (obj 1 "a"). split; [vm_compute; reflexivity|]. split; [by left|]. split.
  - intros [|[|i]] l Hl; cbn in Hl; [by injection Hl as <-|done..].
  - intros tr' s' Hr i l' Hl' ->.
    destruct (exited_run _ _ _ _ _ 0%nat _ Hr eq_refl eq_refl) as (l'' & Hl'' & Hd).
    rewrite Hl' in Hl''. injection Hl'' as <-. rewrite Hd. cbn. apply not_elem_of_nil.
Qed.
End RadosIOWorkerExamples.

(** ** [class RadosWorker]: one [RadosIOWorker] per pool *)
Module RadosWorker.
Section pools.
Context {Q : Type -> Type} `{!FIFO Q}.
Context (hash : bytes -> Z) (workerNum : Z).

(** [ioWorkers] maps a pool to its worker, a pointer: an index in [heap], the
    workers ever allocated. *)
Record t := { ioWorkers : gmap Z nat; heap : list (RadosIOWorker.t (Q := Q)) }.

(** [Start] *)
Definition Start (s : t) : t := {| ioWorkers := ∅; heap := heap s |}.

Definition GetIOWorker (p : Z) (s : t) : option nat := ioWorkers s !! p.

(** [CreateIOWorker], [alloc] telling whether [new(std::nothrow)] succeeds:
    under the unique lock the pool is looked up again. *)
Definition CreateIOWorker (p : Z) (alloc : bool) (s : t) : option nat * t :=
  match ioWorkers s !! p with
  | Some w => (Some w, s)
  | None =>
      if alloc then
        let w := length (heap s) in
        (Some w, {| ioWorkers := <[p := w]> (ioWorkers s);
                    heap := heap s ++ [RadosIOWorker.init workerNum] |})
      else (None, s)
  end.

(** [Queue(op, c)]; a null [op] or [c] is [None]. [None] as a result is an
    access outside the worker's lanes. *)
Definition Queue (op : option RadosObjectOperation) (c : option Z) (ts : Z)
    (alloc alloc_ctx : bool) (s : t) : option (Z * t) :=
  match op, c with
  | Some operation, Some comp =>
      if poolId operation <? 0 then Some (-1, s) else
      let '(w, s1) := match GetIOWorker (poolId operation) s with
                      | Some w => (Some w, s)
                      | None => CreateIOWorker (poolId operation) alloc s
                      end in
      match w with
      | None => Some (-1, s1)
      | Some w =>
          if alloc_ctx then
            wk ← heap s1 !! w;
            wk' ← RadosIOWorker.Queue hash workerNum
                    {| rc_op := operation; rc_comp := comp; rc_ts := ts |} wk;
            Some (0, {| ioWorkers := ioWorkers s1; heap := <[w := wk']> (heap s1) |})
          else Some (- ENOMEM, s1)
      end
  | _, _ => Some (-1, s)
  end.

(** Calls of several threads, each atomic under [ioworkersLock]. *)
Inductive call := Get (p : Z) | Create (p : Z) (alloc : bool).
Definition pool_of (c : call) : Z := match c with Get p | Create p _ => p end.

Definition exec (c : call) (s : t) : option nat * t :=
  match c with
  | Get p => (GetIOWorker p s, s)
  | Create p alloc => CreateIOWorker p alloc s
  end.

Fixpoint run (cs : list call) (s : t) : list (Z * option nat) * t :=
  match cs with
  | [] => ([], s)
  | c :: cs' => let '(r, s1) := exec c s in
                let '(rs, s2) := run cs' s1 in ((pool_of c, r) :: rs, s2)
  end.

Definition init : t := {| ioWorkers := ∅; heap := [] |}.

(** The map is an injection into the allocated workers. *)
Definition wf (s : t) : Prop :=
  (forall p w, ioWorkers s !! p = Some w -> (w < length (heap s))%nat) /\
  (forall p1 p2 w, ioWorkers s !! p1 = Some w -> ioWorkers s !! p2 = Some w -> p1 = p2).

Lemma CreateIOWorker_wf p alloc s : wf s -> wf (snd (CreateIOWorker p alloc s)).
Proof.
  intros [Hb Hi]. unfold CreateIOWorker. destruct (ioWorkers s !! p) as [w|] eqn:E; [done|].
  destruct alloc; [|done]. cbn. split; cbn.
  - intros p' w Hp. rewrite length_app. cbn. apply lookup_insert_Some in Hp as [[_ <-]|[_ Hp]];
      [lia|]. specialize (Hb _ _ Hp). lia.
  - intros p1 p2 w H1 H2. apply lookup_insert_Some in H1 as [[<- <-]|[Hn1 H1]];
      apply lookup_insert_Some in H2 as [[<- Hw]|[Hn2 H2]]; try done.
    + specialize (Hb _ _ H2). lia.
    + subst w. specialize (Hb _ _ H1). lia.
    + by eapply Hi.
Qed.

Lemma exec_spec c s r s' : exec c s = (r, s') -> wf s ->
  wf s' /\ ioWorkers s ⊆ ioWorkers s' /\ (forall w, r = Some w -> ioWorkers s' !! pool_of c = Some w).
Proof.
  destruct c as [p|p alloc]; cbn.
  - intros [= <- <-] Hw. by split_and!.
  - intros He Hw. pose proof (CreateIOWorker_wf p alloc s Hw) as Hw'. rewrite He in Hw'.
    split; [done|]. unfold CreateIOWorker in He.
    destruct (ioWorkers s !! p) as [w|] eqn:E.
    { injection He as <- <-. split; [done|]. by intros w' [= <-]. }
    destruct alloc; injection He as <- <-; [|by split].
    split; cbn; [by apply insert_subseteq|].
    intros w [= <-]. apply lookup_insert_eq.
Qed.

Lemma run_spec cs s rs s' : run cs s = (rs, s') -> wf s ->
  wf s' /\ ioWorkers s ⊆ ioWorkers s' /\
  (forall p w, (p, Some w) ∈ rs -> ioWorkers s' !! p = Some w).
Proof.
  revert s rs. induction cs as [|c cs IH]; intros s rs Hr Hw; cbn in Hr.
  - injection Hr as <- <-. split_and!; [done..|]. by intros ? ? ?%not_elem_of_nil.
  - destruct (exec c s) as [r s1] eqn:E1. destruct (run cs s1) as [rs1 s2] eqn:E2.
    injection Hr as <- <-. destruct (exec_spec _ _ _ _ E1 Hw) as (Hw1 & Hs1 & Hr1).
    destruct (IH _ _ E2 Hw1) as (Hw2 & Hs2 & Hr2). split_and!; [done|by etrans|].
    intros p w Hin. apply elem_of_cons in Hin as [[= -> <-]|Hin]; [|by apply Hr2].
    eapply lookup_weaken; [by apply Hr1|done].
Qed.

(** However the lookups and creations of concurrent [Queue] calls
    interleave, and whichever allocations fail, two calls that get a worker
    get the same worker exactly when they are for the same pool: a pool never
    has two workers (which would break the order of its requests) and no
    worker serves two pools. *)
Theorem one_worker_per_pool (cs : list call) (p1 p2 : Z) (w1 w2 : nat)
  (H1 : (p1, Some w1) ∈ fst (run cs init)) (H2 : (p2, Some w2) ∈ fst (run cs init)) :
  w1 = w2 <-> p1 = p2.
Proof.
  destruct (run cs init) as [rs s] eqn:E.
  destruct (run_spec _ _ _ _ E) as ([_ Hinj] & _ & Hr); [by split|].
  apply Hr in H1, H2. split; [intros ->; by eapply Hinj|intros ->; congruence].
Qed.

(** A call of [Queue] from a well-formed state fails with -1 and changes
    nothing for a null operation or completion or a negative pool; otherwise
    the request is the last one submitted to the pool's worker. *)
Lemma Queue_routes operation comp ts s r s' :
  wf s -> 0 <= poolId operation ->
  Queue (Some operation) (Some comp) ts true true s = Some (r, s') ->
  r = 0 /\ exists w wk, ioWorkers s' !! poolId operation = Some w /\ heap s' !! w = Some wk /\
    last (RadosIOWorker.submitted wk) = Some {| rc_op := operation; rc_comp := comp; rc_ts := ts |}.
Proof.
  intros Hw Hp. unfold Queue. replace (poolId operation <? 0) with false by lia.
  destruct (match GetIOWorker _ s with Some w => _ | None => _ end) as [[w|] s1] eqn:E.
  2:{ exfalso. unfold GetIOWorker, CreateIOWorker in E.
      by destruct (ioWorkers s !! poolId operation). }
  intros H. apply bind_Some in H as (wk & Hwk & H). apply bind_Some in H as (wk' & Hq & H).
  injection H as <- <-. split; [done|]. exists w, wk'. cbn. split_and!.
  - unfold GetIOWorker, CreateIOWorker in E.
    destruct (ioWorkers s !! poolId operation) as [w'|] eqn:E'; [congruence|].
    injection E as <- <-. apply lookup_insert_eq.
  - apply list_lookup_insert_eq. by eapply lookup_lt_Some.
  - unfold RadosIOWorker.Queue in Hq. apply bind_Some in Hq as (l & Hl & Hq).
    apply bind_Some in Hq as (q & He & Hq). injection Hq as <-. apply last_snoc.
Qed.
End pools.
End RadosWorker.

Module RadosWorkerExamples.
Import RadosWorker.
(** Two threads race for pool 7, a third allocation fails, pool 8 follows. *)
Definition race : list call :=
  [Get 7; Get 7; Create 7 true; Create 7 true; Create 8 false; Create 8 true; Get 7].

Lemma one_worker_per_pool_witness :
  (7, Some 0%nat) ∈ fst (run (Q := ConcurrentQueue.t) 2 race init) /\
  (8, Some 1%nat) ∈ fst (run (Q := ConcurrentQueue.t) 2 race init) /\ (0%nat = 1%nat <-> 7 = 8).
Proof.
  assert ((7, Some 0%nat) ∈ fst (run (Q := ConcurrentQueue.t) 2 race init)) as H1.
  { vm_compute. do 2 right. left. }
  assert ((8, Some 1%nat) ∈ fst (run (Q := ConcurrentQueue.t) 2 race init)) as H2.
  { vm_compute. do 5 right. left. }
  split; [exact H1|]. split; [exact H2|].
  exact (one_worker_per_pool (Q := ConcurrentQueue.t) 2 race 7 8 0 1 H1 H2).
Defined.
End RadosWorkerExamples.
