(* ===== verification/WorkerStop.v ===== *)
(** * [RadosWorker.h]: stopping the IO workers

    [RadosWorker::Stop] goes through the workers of all pools: [WaitForEmpty]
    sets the flag and posts each lane once, [StopProc] joins the threads, and the
    worker is deleted.  The transition system is that of [RadosIOWorker]; here
    are the two functions, and why the joins return. *)

From stdpp Require Import sorting.
From S2P Require Import Prelude Utils RadosWorker.

Module WorkerStop.
Section stop.
Import RadosIOWorker.
Context {Q : Type -> Type} `{!FIFO Q}.
Context (hash : bytes -> Z) (threadNum : Z).

(** [WaitForEmpty] *)
Definition WaitForEmpty (s : t (Q := Q)) : option t :=
  fold_left (fun o i => s ← o; stop_post i s) (seq 0 (Z.to_nat threadNum)) (Some (set_stop s)).

(** [StopProc] returns when every thread has. *)
Definition exited (l : lane (Q := Q)) : bool := match thread l with Exited => true | _ => false end.
Definition StopProc (s : t (Q := Q)) : option t :=
  if forallb exited (lanes s) then Some (set_stop s) else None.

(** One worker, its threads taking the steps [sched] in between; [None]: it is
    still waiting. *)
Definition stop_worker (sched : list label) (s : t (Q := Q)) : option t :=
  s ← WaitForEmpty s; s ← run hash threadNum sched s; StopProc s.

(** ** The joins return *)

Definition bump (l : lane (Q := Q)) : lane :=
  {| queue := queue l; permits := permits l + 1; posting := posting l; thread := thread l; done_log := done_log l |}.

Lemma WaitForEmpty_spec s : length (lanes s) = Z.to_nat threadNum ->
  WaitForEmpty s = Some {| ioworkerStop := true; lanes := map bump (lanes s); submitted := submitted s |}.
Proof.
  intros Hn. unfold WaitForEmpty. rewrite <- Hn. unfold set_stop. destruct s as [st ls sub]. cbn.
  change (map bump ls) with ([] ++ map bump ls). change ls with ([] ++ ls) at 2. change 0%nat with (length (@nil (lane (Q := Q)))).
  generalize (@nil (lane (Q := Q))) as pre. clear. induction ls as [|l ls IH]; intros pre; [done|]. cbn [length seq fold_left].
  assert (stop_post (length pre) {| ioworkerStop := true; lanes := pre ++ l :: ls; submitted := sub |} =
          Some {| ioworkerStop := true; lanes := (pre ++ [bump l]) ++ ls; submitted := sub |}) as Hs.
  { unfold stop_post. cbn. rewrite lookup_app_r, Nat.sub_diag by lia. cbn. unfold set_lane. cbn.
    do 2 f_equal. rewrite <- app_assoc, insert_app_r_alt, Nat.sub_diag by lia. done. }
  cbn [mbind option_bind]. rewrite Hs. specialize (IH (pre ++ [bump l])). rewrite length_app, Nat.add_1_r in IH.
  rewrite IH, <- app_assoc. done.
Qed.

#[local] Instance pc_eq_dec : EqDecision pc.
Proof. solve_decision. Defined.

(** Steps of the workers' threads and of producers that had still to post. *)
Definition quiet (a : label) : Prop := match a with Post _ | Work _ _ _ => True | _ => False end.
Definition works (i : nat) (a : label) : bool := match a with Work j _ _ => bool_decide (i = j) | _ => false end.

(** The steps a thread has left once the flag is set. *)
Definition left (l : lane (Q := Q)) (n : Z) : Prop :=
  exists q, q_rep (queue l) q /\
    n = match thread l with AtWait => len q + 3 | Draining => len q + 2 | AtLoop => 1 | Exited => 0 end.

(** Nobody waits without a permit. *)
Definition released (s : t (Q := Q)) : Prop :=
  ioworkerStop s = true /\ forall i l, lanes s !! i = Some l ->
    (thread l = AtWait -> 0 < permits l) /\ 0 <= permits l /\ exists n, left l n.

Lemma left_nonneg l n : left l n -> 0 <= n.
Proof. intros (q & _ & ->). pose proof (len_nonneg q). destruct (thread l); lia. Qed.

Lemma left_fun l n n' : left l n -> left l n' -> n = n'.
Proof. intros (q & Hq & ->) (q' & Hq' & ->). by rewrite (q_rep_fun _ _ _ Hq Hq'). Qed.

(** A thread that has not returned can take a step, and has then one less left. *)
Lemma thread_step s i l n ioctx aio : released s -> lanes s !! i = Some l -> left l n -> thread l <> Exited ->
  exists l' n', OpHandler i ioctx aio s = Some (set_lane i l' s) /\ left l' n' /\ n' < n /\
    (thread l' = AtWait -> 0 < permits l') /\ 0 <= permits l'.
Proof.
  intros [Hs Hr] Hl Hn Ht. destruct (Hr _ _ Hl) as (Hw & Hp & _). destruct Hn as (q & Hq & ->).
  unfold OpHandler. rewrite Hl. cbn [mbind option_bind]. rewrite Hs. destruct (thread l) eqn:E; [| | |done].
  - eexists _, 0. split; [reflexivity|]. split; [exists q; by split|]. cbn. split_and!; [lia|done|done].
  - specialize (Hw eq_refl). rewrite (proj2 (Z.ltb_lt _ _) Hw). eexists _, (len q + 2). split; [reflexivity|].
    split; [exists q; by split|]. cbn. split_and!; [lia|done|lia].
  - destruct (q_deq_ok _ _ Hq) as (q' & Hd & Hq'). rewrite Hd. cbn. destruct q as [|c q]; cbn in *.
    + eexists _, 1. split; [reflexivity|]. split; [exists []; by split|]. cbn. split_and!; [|done|done]. rewrite len_nil. lia.
    + eexists _, (len q + 2). split; [reflexivity|]. split; [exists q; by split|]. cbn. rewrite len_cons. split_and!; [lia|done|done].
Qed.

Lemma released_set_lane s i l' n' : released s -> left l' n' -> (thread l' = AtWait -> 0 < permits l') -> 0 <= permits l' ->
  released (set_lane i l' s).
Proof.
  intros [Hs Hr] Hn Hw Hp. split; [done|]. intros j k Hk. cbn in Hk.
  apply list_lookup_insert_Some in Hk as [(-> & -> & _)|[_ Hk]]; [|by eapply Hr]. split_and!; [done..|by eexists].
Qed.

(** One step: the threads' budgets do not grow, and a step of lane [i] costs one. *)
Lemma quiet_step a s s' i l n : released s -> quiet a -> step hash threadNum a s = Some s' ->
  lanes s !! i = Some l -> left l n ->
  released s' /\ exists l' n', lanes s' !! i = Some l' /\ left l' n' /\ n' + Z.b2z (works i a) <= n.
Proof.
  intros Hr Ha Hs Hl Hn. destruct a as [|j|j ioctx aio| |]; try done; cbn [step] in Hs.
  - unfold post in Hs. apply bind_Some in Hs as (k & Hk & Hs). destruct (0 <? posting k); [|done]. injection Hs as <-.
    destruct (proj2 Hr _ _ Hk) as (Hw & Hp & m & Hm). destruct Hm as (q & Hq & ->).
    split; [eapply released_set_lane; [done|exists q; split; [exact Hq|reflexivity]|cbn; intros; lia|cbn; lia]|].
    destruct (decide (i = j)) as [<-|Hne].
    + simplify_eq. eexists _, n. cbn [set_lane lanes]. rewrite list_lookup_insert_eq by by eapply lookup_lt_Some.
      split; [done|]. split; [|cbn; lia]. destruct Hn as (q' & Hq' & ->). by exists q'.
    + exists l, n. cbn [set_lane lanes]. rewrite list_lookup_insert_ne by done. split_and!; [done..|cbn; lia].
  - pose proof Hs as Hs'. unfold OpHandler in Hs'. apply bind_Some in Hs' as (k & Hk & Hs').
    assert (thread k <> Exited) as Ht by (intros E; by rewrite E in Hs').
    destruct (proj2 Hr _ _ Hk) as (_ & _ & m & Hm).
    destruct (thread_step s j k m ioctx aio Hr Hk Hm Ht) as (k' & m' & Hst & Hm' & Hlt & Hw & Hp).
    rewrite Hst in Hs. injection Hs as <-. split; [by eapply released_set_lane|].
    destruct (decide (i = j)) as [<-|Hne]; cbn [set_lane lanes works].
    + simplify_eq. rewrite list_lookup_insert_eq by by eapply lookup_lt_Some. exists k', m'. split_and!; [done..|].
      rewrite bool_decide_true by done. rewrite (left_fun _ _ _ Hn Hm). cbn. lia.
    + rewrite list_lookup_insert_ne, bool_decide_false by done. exists l, n. split_and!; [done..|cbn; lia].
Qed.

Lemma quiet_run tr s s' i l n : released s -> Forall quiet tr -> run hash threadNum tr s = Some s' ->
  lanes s !! i = Some l -> left l n ->
  released s' /\ exists l' n', lanes s' !! i = Some l' /\ left l' n' /\ n' + count_if (works i) tr <= n.
Proof.
  intros Hr Hq. revert s l n Hr. induction Hq as [|a tr Ha _ IH]; intros s l n Hr Hs Hl Hn; cbn in Hs.
  - injection Hs as <-. split; [done|]. exists l, n. split_and!; [done..|]. change (count_if (works i) []) with 0. lia.
  - apply bind_Some in Hs as (s1 & H1 & Hs). destruct (quiet_step a s s1 i l n) as (Hr1 & l1 & n1 & Hl1 & Hn1 & Hle); [done..|].
    destruct (IH s1 l1 n1) as (Hr' & l' & n' & Hl' & Hn' & Hle'); [done..|]. split; [done|].
    exists l', n'. split_and!; [done..|]. rewrite count_if_cons. lia.
Qed.

(** The thread of lane [i], alone, gets to its end. *)
Lemma finish_lane i m : forall s l n, n <= Z.of_nat m -> released s -> lanes s !! i = Some l -> left l n ->
  exists tr s', Forall (fun a => a = Work i None 0) tr /\ run hash threadNum tr s = Some s' /\ released s' /\
    (forall l', lanes s' !! i = Some l' -> thread l' = Exited) /\ length (lanes s') = length (lanes s) /\
    (forall j, j <> i -> lanes s' !! j = lanes s !! j).
Proof.
  induction m as [|m IH]; intros s l n Hm Hr Hl Hn.
  - exists [], s. split_and!; try done. intros l' Hl'. simplify_eq. destruct Hn as (q & _ & ->). pose proof (len_nonneg q).
    destruct (thread l) eqn:E; try done; lia.
  - destruct (decide (thread l = Exited)) as [He|He].
    { exists [], s. split_and!; try done. intros l' Hl'. by simplify_eq. }
    destruct (thread_step s i l n None 0 Hr Hl Hn He) as (l1 & n1 & Hs & Hn1 & Hlt & Hw & Hp).
    destruct (IH (set_lane i l1 s) l1 n1) as (tr & s' & Ht & Hrun & Hr' & He' & Hlen & Hoth); [lia|by eapply released_set_lane| |done|].
    { cbn. by rewrite list_lookup_insert_eq by by eapply lookup_lt_Some. }
    exists (Work i None 0 :: tr), s'. split_and!; [by constructor| |done|done| |].
    + cbn [run step]. rewrite Hs. exact Hrun.
    + rewrite Hlen. cbn. by rewrite length_insert.
    + intros j Hj. rewrite Hoth by done. cbn. by rewrite list_lookup_insert_ne by done.
Qed.

(** All threads, one after the other. *)
Lemma finish_all k : forall s, released s -> (k <= length (lanes s))%nat ->
  exists tr s', Forall quiet tr /\ run hash threadNum tr s = Some s' /\ released s' /\ length (lanes s') = length (lanes s) /\
    forall i l, (i < k)%nat -> lanes s' !! i = Some l -> thread l = Exited.
Proof.
  induction k as [|k IH]; intros s Hr Hk; [exists [], s; split_and!; try done; intros; lia|].
  destruct (IH s Hr ltac:(lia)) as (tr & s1 & Ht & Hrun & Hr1 & Hlen & He).
  destruct (lookup_lt_is_Some_2 (lanes s1) k ltac:(lia)) as [l Hl].
  destruct (proj2 Hr1 _ _ Hl) as (_ & _ & n & Hn). pose proof (left_nonneg _ _ Hn).
  destruct (finish_lane k (Z.to_nat n) s1 l n) as (tr2 & s2 & Ht2 & Hrun2 & Hr2 & He2 & Hlen2 & Hoth); [lia|done..|].
  exists (tr ++ tr2), s2. split_and!.
  - apply Forall_app. split; [done|]. eapply Forall_impl; [exact Ht2|]. by intros a ->.
  - rewrite run_app, Hrun. exact Hrun2.
  - done.
  - congruence.
  - intros i l' Hi Hl'. destruct (decide (i = k)) as [->|]; [by apply He2|]. rewrite Hoth in Hl' by done. eapply He; [|done]. lia.
Qed.

Lemma lanes_length_run tr s s' : run hash threadNum tr s = Some s' -> length (lanes s') = length (lanes s).
Proof.
  revert s. induction tr as [|a tr IH]; intros s Hr; cbn in Hr; [by injection Hr as <-|].
  apply bind_Some in Hr as (s1 & H1 & Hr). rewrite (IH _ Hr).
  destruct a; cbn in H1; unfold Queue, post, OpHandler, stop_post in H1; [| | |by injection H1 as <-|];
    apply bind_Some in H1 as (l & Hl & H1).
  - apply bind_Some in H1 as (q & _ & H1). injection H1 as <-. cbn. by rewrite length_insert.
  - destruct (0 <? posting l); [|done]. injection H1 as <-. cbn. by rewrite length_insert.
  - destruct (thread l); [|destruct (0 <? permits l); [|done]| |done]; try (injection H1 as <-; cbn; by rewrite length_insert).
    apply bind_Some in H1 as ([[c|] q] & _ & H1); injection H1 as <-; cbn; by rewrite length_insert.
  - injection H1 as <-. cbn. by rewrite length_insert.
Qed.

(** After [WaitForEmpty] every parked thread has a permit. *)
Lemma WaitForEmpty_released tr s : run hash threadNum tr (init threadNum) = Some s ->
  exists s1, WaitForEmpty s = Some s1 /\ released s1 /\ length (lanes s1) = Z.to_nat threadNum.
Proof.
  intros Hr. assert (length (lanes s) = Z.to_nat threadNum) as Hn.
  { rewrite (lanes_length_run _ _ _ Hr). apply length_replicate. }
  eexists. split; [by apply WaitForEmpty_spec|]. split; [|cbn; by rewrite length_map]. split; [done|]. cbn. intros i l Hl.
  rewrite list_lookup_fmap in Hl. destruct (lanes s !! i) as [k|] eqn:Hk; [|done]. injection Hl as <-.
  destruct (reach_inv hash threadNum tr s Hr) as (Hi & _ & _). destruct (Hi _ _ Hk) as (q & Hq & _ & Hp & _).
  cbn. split_and!; [lia|lia|]. by eexists _, q.
Qed.

Lemma StopProc_exited s : (forall i l, lanes s !! i = Some l -> thread l = Exited) -> StopProc s = Some (set_stop s).
Proof.
  intros He. unfold StopProc. rewrite (proj2 (forallb_forall exited (lanes s))); [done|]. intros l Hl.
  apply list_elem_of_In, list_elem_of_lookup_1 in Hl as [i Hi]. unfold exited. by rewrite (He _ _ Hi).
Qed.

(** Stopping a worker ends, whatever its threads and producers were doing.
    From every reachable state, once [WaitForEmpty] has run and no new request
    comes in: no thread is ever blocked, in no interleaving; each thread takes at
    most three steps more than its queue is long; and there is an interleaving
    after which all the joins of [StopProc] return. *)
Theorem stop_joins (tr : list label) (s : t (Q := Q)) (Hr : run hash threadNum tr (init threadNum) = Some s) :
  exists s1, WaitForEmpty s = Some s1 /\
    (forall tr' s', Forall quiet tr' -> run hash threadNum tr' s1 = Some s' -> forall i l, lanes s' !! i = Some l ->
       (thread l <> Exited -> forall ioctx aio, is_Some (step hash threadNum (Work i ioctx aio) s')) /\
       exists q l0, lanes s !! i = Some l0 /\ q_rep (queue l0) q /\ count_if (works i) tr' <= len q + 3) /\
    exists tr' s', Forall quiet tr' /\ stop_worker tr' s = Some s'.
Proof.
  destruct (WaitForEmpty_released tr s Hr) as (s1 & Hw & Hrel & Hlen). exists s1. split; [done|].
  assert (s1 = {| ioworkerStop := true; lanes := map bump (lanes s); submitted := submitted s |}) as Es1.
  { rewrite WaitForEmpty_spec in Hw; [by injection Hw as <-|]. rewrite (lanes_length_run _ _ _ Hr). apply length_replicate. }
  split.
  - intros tr' s' Hq Hrun i l Hl. assert (i < length (lanes s1))%nat as Hi.
    { rewrite <- (lanes_length_run _ _ _ Hrun). by eapply lookup_lt_Some. }
    destruct (lookup_lt_is_Some_2 _ _ Hi) as [l1 Hl1]. destruct (proj2 Hrel _ _ Hl1) as (_ & _ & n & Hn).
    destruct (quiet_run tr' s1 s' i l1 n Hrel Hq Hrun Hl1 Hn) as (Hrel' & l' & n' & Hl' & Hn' & Hle).
    rewrite Hl in Hl'. injection Hl' as <-. split.
    + intros Ht ioctx aio. destruct (thread_step s' i l n' ioctx aio Hrel' Hl Hn' Ht) as (k & m & Hs & _). by eexists.
    + rewrite Es1 in Hl1. cbn in Hl1. rewrite list_lookup_fmap in Hl1. destruct (lanes s !! i) as [l0|] eqn:Hl0; [|done]. injection Hl1 as <-.
      pose proof (left_nonneg _ _ Hn'). destruct Hn as (q & Hq0 & ->). exists q, l0. split_and!; [done..|].
      pose proof (len_nonneg q). cbn in Hle. destruct (thread l0); lia.
  - destruct (finish_all (length (lanes s1)) s1 Hrel ltac:(lia)) as (tr' & s' & Hq & Hrun & _ & Hlen' & He).
    exists tr', (set_stop s'). split; [done|]. unfold stop_worker. rewrite Hw. cbn [mbind option_bind]. rewrite Hrun.
    cbn [mbind option_bind]. apply StopProc_exited. intros i l Hl. eapply He; [|done].
    rewrite <- Hlen'. by eapply lookup_lt_Some.
Qed.
End stop.

(** ** [RadosWorker::Stop] *)
Section table.
Context {Q : Type -> Type} `{!FIFO Q}.
Context (hash : bytes -> Z) (workerNum : Z).

Definition key_le (p q : Z * nat) : Prop := p.1 <= q.1.
#[local] Instance key_le_dec p q : Decision (key_le p q).
Proof. unfold key_le. apply _. Defined.

(** The workers in the order of their pools. *)
Definition in_order (s : RadosWorker.t (Q := Q)) : list nat := map snd (merge_sort key_le (map_to_list (RadosWorker.ioWorkers s))).

(** The loop: worker after worker, [sched w] being the steps of the threads of
    worker [w] while it is stopped; also the workers deleted. *)
Fixpoint stop_all (sched : nat -> list RadosIOWorker.label) (ws : list nat) (h : list (RadosIOWorker.t (Q := Q)))
  : option (list (RadosIOWorker.t (Q := Q))) :=
  match ws with
  | [] => Some h
  | w :: ws' => wk ← h !! w; wk' ← stop_worker hash workerNum (sched w) wk; stop_all sched ws' (<[w := wk']> h)
  end.

Definition Stop (sched : nat -> list RadosIOWorker.label) (s : RadosWorker.t (Q := Q))
  : option (RadosWorker.t (Q := Q) * list nat) :=
  h ← stop_all sched (in_order s) (RadosWorker.heap s);
  Some ({| RadosWorker.ioWorkers := ∅; RadosWorker.heap := h |}, in_order s).

(** Every worker of the map comes once. *)
Lemma in_order_spec (s : RadosWorker.t (Q := Q)) :
  (forall p1 p2 w, RadosWorker.ioWorkers s !! p1 = Some w -> RadosWorker.ioWorkers s !! p2 = Some w -> p1 = p2) ->
  NoDup (in_order s) /\ forall w, w ∈ in_order s <-> exists p, RadosWorker.ioWorkers s !! p = Some w.
Proof.
  intros Hinj. unfold in_order. pose proof (merge_sort_Permutation key_le (map_to_list (RadosWorker.ioWorkers s))) as Hp. split.
  - change (NoDup (snd <$> merge_sort key_le (map_to_list (RadosWorker.ioWorkers s)))). rewrite Hp.
    apply NoDup_fmap_2_strong; [|apply NoDup_map_to_list]. intros [p1 w1] [p2 w2] H1 H2 Hw. cbn in Hw. subst w2.
    apply elem_of_map_to_list in H1, H2. by rewrite (Hinj _ _ _ H1 H2).
  - intros w. split.
    + intros Hw. apply list_elem_of_fmap in Hw as ([p w'] & -> & Hw). rewrite Hp in Hw. exists p. by apply elem_of_map_to_list.
    + intros [p Hw]. apply list_elem_of_fmap. exists (p, w). split; [done|]. rewrite Hp. by apply elem_of_map_to_list.
Qed.

(** There is an interleaving in which [Stop] returns, with the map empty and
    every worker of the map deleted. *)
Lemma Stop_returns (s : RadosWorker.t (Q := Q)) : RadosWorker.wf s ->
  Forall (fun wk => exists tr, RadosIOWorker.run hash workerNum tr (RadosIOWorker.init workerNum) = Some wk) (RadosWorker.heap s) ->
  exists sched s' ws, Stop sched s = Some (s', ws) /\ RadosWorker.ioWorkers s' = ∅ /\
    forall p w, RadosWorker.ioWorkers s !! p = Some w -> w ∈ ws.
Proof.
  intros [Hb Hinj] Hreach.
  destruct (in_order_spec s Hinj) as [Hnd Hin].
  assert (forall ws h, NoDup ws -> (forall w, w ∈ ws -> exists wk tr, h !! w = Some wk /\
            RadosIOWorker.run hash workerNum tr (RadosIOWorker.init workerNum) = Some wk) ->
          exists sched h', stop_all sched ws h = Some h') as Hstop.
  { clear. intros ws h Hnd. revert h. induction Hnd as [|w ws Hw _ IH]; intros h Hh; [by exists (fun _ => []), h|].
    destruct (Hh w ltac:(left)) as (wk & tr & Hl & Hr). destruct (WaitForEmpty_released hash workerNum tr wk Hr) as (s1 & Hw1 & Hrel & Hlen).
    destruct (finish_all hash workerNum (length (RadosIOWorker.lanes s1)) s1 Hrel ltac:(lia)) as (tr' & s2 & _ & Hrun & _ & Hlen2 & He).
    destruct (IH (<[w := RadosIOWorker.set_stop s2]> h)) as (sched & h' & Hs).
    { intros w' Hw'. rewrite list_lookup_insert_ne by (intros ->; done). apply Hh. by right. }
    exists (fun x => if decide (x = w) then tr' else sched x), h'. cbn [stop_all]. rewrite Hl. cbn [mbind option_bind].
    rewrite decide_True by done. unfold stop_worker at 1. rewrite Hw1. cbn [mbind option_bind]. rewrite Hrun. cbn [mbind option_bind].
    rewrite StopProc_exited by (intros i l Hi; eapply He; [rewrite <- Hlen2; by eapply lookup_lt_Some|done]).
    cbn [mbind option_bind]. rewrite <- Hs. clear -Hw. generalize (<[w := RadosIOWorker.set_stop s2]> h) as k. induction ws as [|x ws IH]; intros k; [done|].
    cbn [stop_all]. apply not_elem_of_cons in Hw as [Hne Hw]. rewrite decide_False by congruence.
    destruct (k !! x); [|done]. cbn [mbind option_bind]. destruct (stop_worker _ _ _ _); [|done]. apply IH. done. }
  destruct (Hstop (in_order s) (RadosWorker.heap s) Hnd) as (sched & h' & Hs).
  { intros w Hw. destruct (proj1 (Hin w) Hw) as [p Hp]. destruct (lookup_lt_is_Some_2 _ _ (Hb _ _ Hp)) as [wk Hwk].
    destruct (Forall_lookup_1 _ _ _ _ Hreach Hwk) as [tr Htr]. by exists wk, tr. }
  exists sched, {| RadosWorker.ioWorkers := ∅; RadosWorker.heap := h' |}, (in_order s). unfold Stop. rewrite Hs. split_and!; [done..|].
  intros p w Hp. apply Hin. by exists p.
Qed.
End table.
End WorkerStop.

(** ** [MyThread]: the threads of a worker *)
Module MyThread.

(** [threadId] is 0 when no thread was created. *)
Record t := { threadId : Z; pid : Z; cpuIds : list Z; threadName : option string }.
Definition new : t := {| threadId := 0; pid := 0; cpuIds := []; threadName := None |}.

Definition IsStarted (m : t) : bool := negb (threadId m =? 0).
(** [self] is [pthread_self()]. *)
Definition AmSelf (self : Z) (m : t) : bool := self =? threadId m.

Section create.
Context (PAGE_SIZE : Z).
(** [threadAttr]: the stack size rounded down to pages; null if nothing is left. *)
Definition threadAttr (stacksize : Z) : option Z :=
  let s := Z.land stacksize (Z.lnot (PAGE_SIZE - 1)) in if s =? 0 then None else Some s.

(** A call of [pthread_create]: the stack size it is given (null attributes:
    [None]).  [r] and [id] are what it returns and leaves in [threadId]. *)
Definition TryCreate (stacksize r id : Z) (m : t) : Z * option Z * t :=
  let attr := threadAttr stacksize in   (* prepared and destroyed, not passed on *)
  (r, None, {| threadId := id; pid := pid m; cpuIds := cpuIds m; threadName := threadName m |}).
Definition Create (name : string) (stacksize r id : Z) (m : t) : t :=
  snd (TryCreate stacksize r id {| threadId := threadId m; pid := pid m; cpuIds := cpuIds m; threadName := Some name |}).
End create.

(** [status] is what [pthread_join] returns. *)
Definition Join (status : Z) (m : t) : Z * t :=
  if threadId m =? 0 then (- EINVAL, m)
  else (status, {| threadId := 0; pid := pid m; cpuIds := cpuIds m; threadName := threadName m |}).

(** [r] is what [pthread_setaffinity_np] returns: 0 or a positive errno. *)
Definition _set_affnitify (r errno : Z) : Z := if r <? 0 then - errno else 0.

(** What the thread does first: [p] is its kernel id. *)
Definition entryWrapper (p : Z) (m : t) : t :=
  if 0 <? p then {| threadId := threadId m; pid := p; cpuIds := cpuIds m; threadName := threadName m |} else m.

(** The stack size asked for never reaches [pthread_create]. *)
Lemma TryCreate_default_stack page stacksize r id m : snd (fst (TryCreate page stacksize r id m)) = None.
Proof. done. Qed.

(** A thread is joined once. *)
Lemma Join_twice (status status' : Z) (m : t) : fst (Join status' (snd (Join status m))) = - EINVAL.
Proof. unfold Join. destruct (threadId m =? 0) eqn:E; [cbn; by rewrite E|done]. Qed.

(** Setting the affinity reports success whatever happens. *)
Lemma set_affinity_never_fails r errno : 0 <= r -> _set_affnitify r errno = 0.
Proof. intros Hr. unfold _set_affnitify. by rewrite (proj2 (Z.ltb_ge _ _) Hr). Qed.
End MyThread.

Module WorkerStopExamples.
Import RadosIOWorker RadosIOWorkerExamples WorkerStop.

(** A request still queued when the worker is stopped. *)
Lemma stop_joins_witness : exists s tr' s',
  run (Q := ConcurrentQueue.t) hash0 2 [Submit (obj 1 "a"); Work 0 None 0] (init 2) = Some s /\
  stop_worker hash0 2 tr' s = Some s'.
Proof.
  eexists. epose proof (@stop_joins ConcurrentQueue.t ConcurrentQueue_FIFO hash0 2 [Submit (obj 1 "a"); Work 0 None 0] _ ltac:(vm_compute; reflexivity)) as H.
  destruct H as (s1 & _ & _ & tr' & s' & _ & H). exists tr', s'. split; [vm_compute; reflexivity|]. exact H.
Defined.
End WorkerStopExamples.
