(* ===== verification/RadosWrapper.v ===== *)
(** * [RadosWrapper.cc], [CephProxyOp.h]: the adaptor's layer over librados

    - [Wrapper]: opening a cluster handle ([RadosClientInit]), I/O contexts with
      their allocation and release, pool names and statistics;
    - [RadosOp]: the builders of batched read and write operations, which record
      the sub-operations they hand to librados, and the asynchronous submission;
    - [GcBuffer]: gathering a [GcBufferList] into a write and scattering a read
      into it.

    librados itself is a parameter: the answers of its calls are arguments of
    the definitions that make them. *)

From S2P Require Import Prelude CStr.

Module Wrapper.

(** ** Cluster handles: [RadosClientInit] *)
Definition RADOS_CONNECT_RETRY : Z := 5.
Definition CONNECT_WAIT_TIME : Z := 5.
Definition AUTH_CLUSTER_REQUIRED : bytes := bs "auth_cluster_required".

(** The answers librados gives to one handle. *)
Record rados_env := {
  r_new : bool;              (* could the handle be allocated? *)
  r_init : Z;
  r_conf_read_file : bytes -> Z;
  r_conf_get : bytes -> Z * bytes;
  r_conf_set : bytes -> bytes -> Z;
  r_connect : nat -> Z       (* the n-th attempt *)
}.

(** What the call leaves behind: [Opened] stores the handle through [client],
    [Closed] has shut it down, deleted it and stored null, [Untouched]
    returned without writing [client] (and without deleting the handle). *)
Inductive handle := Opened | Closed | Untouched.
Record init_result := { ci_ret : Z; ci_client : handle; ci_connects : Z; ci_slept : Z }.

(** [while (retryCount < RADOS_CONNECT_RETRY)]: the last answer, how often
    [connect] was called and how long the thread slept; [n] attempts left. *)
Fixpoint connect_loop (env : rados_env) (n : nat) (retryCount : nat) (ret conns slept : Z)
  : Z * Z * Z :=
  match n with
  | O => (ret, conns, slept)
  | S n' =>
      let ret := r_connect env retryCount in
      if ret <? 0 then
        let retryCount := S retryCount in
        connect_loop env n' retryCount ret (conns + 1)
          (slept + CONNECT_WAIT_TIME * Z.shiftl 1 (Z.of_nat retryCount))
      else (ret, conns + 1, slept)
  end.

Record client_conf := {
  cc_keyring : bytes; cc_mon_option : bytes; cc_mon_timeout : Z;
  cc_osd_option : bytes; cc_osd_timeout : Z
}.

Definition RadosClientInit (env : rados_env) (conf : client_conf) (cephConf : bytes) : init_result :=
  let client_init_out ret conns slept :=
    {| ci_ret := ret; ci_client := Closed; ci_connects := conns; ci_slept := slept |} in
  if negb (r_new env) then {| ci_ret := -1; ci_client := Untouched; ci_connects := 0; ci_slept := 0 |} else
  if r_init env <? 0 then
    {| ci_ret := r_init env; ci_client := Untouched; ci_connects := 0; ci_slept := 0 |} else
  let ret := r_conf_read_file env (c_str cephConf) in
  if ret <? 0 then client_init_out ret 0 0 else
  let '(ret, authCluster) := r_conf_get env AUTH_CLUSTER_REQUIRED in
  if negb (ret =? 0) then client_init_out ret 0 0 else
  let ret := if bytes_eqb (c_str authCluster) (bs "cephx")
             then r_conf_set env (bs "keyring") (cc_keyring conf) else 0 in
  if negb (ret =? 0) then client_init_out ret 0 0 else
  let ret := r_conf_set env (cc_mon_option conf) (to_string (cc_mon_timeout conf)) in
  if negb (ret =? 0) then client_init_out ret 0 0 else
  let ret := r_conf_set env (cc_osd_option conf) (to_string (cc_osd_timeout conf)) in
  if negb (ret =? 0) then client_init_out ret 0 0 else
  let '(ret, conns, slept) := connect_loop env (Z.to_nat RADOS_CONNECT_RETRY) 0 ret 0 0 in
  if ret <? 0 then client_init_out ret conns slept
  else {| ci_ret := 0; ci_client := Opened; ci_connects := conns; ci_slept := slept |}.

(** [RadosSetConf] *)
Definition RadosSetConf (env : rados_env) (option value : bytes) : Z :=
  let ret := r_conf_set env (c_str option) (c_str value) in if negb (ret =? 0) then ret else 0.

Lemma connect_loop_spec env n k ret conns slept ret' conns' slept' :
  connect_loop env n k ret conns slept = (ret', conns', slept') ->
  ((0 < n)%nat -> 0 <= ret' <-> exists i, (k <= i < k + n)%nat /\ 0 <= r_connect env i) /\
  (n = 0%nat -> ret' = ret) /\
  conns <= conns' <= conns + Z.of_nat n /\
  slept <= slept' <= slept + CONNECT_WAIT_TIME * (2 ^ Z.of_nat (k + n + 1) - 2 ^ Z.of_nat (k + 1)) /\
  (ret' < 0 -> (0 < n)%nat ->
   slept' = slept + CONNECT_WAIT_TIME * (2 ^ Z.of_nat (k + n + 1) - 2 ^ Z.of_nat (k + 1)) /\
   conns' = conns + Z.of_nat n).
Proof.
  revert k ret conns slept. induction n as [|n IH]; intros k ret conns slept.
  - intros [= <- <- <-]. rewrite Nat.add_0_r. split_and!; lia.
  - cbn [connect_loop]. destruct (r_connect env k <? 0) eqn:E; bprop.
    + intros Hr. apply IH in Hr as (H1 & H2 & H3 & H4 & H5).
      rewrite Z.shiftl_mul_pow2, Z.mul_1_l in H4, H5 by lia.
      replace (S k + n + 1)%nat with (k + S n + 1)%nat in * by lia.
      replace (S k + 1)%nat with (S (k + 1)) in * by lia.
      replace (S k) with (k + 1)%nat in * by lia.
      rewrite Nat2Z.inj_succ, Z.pow_succ_r in H4, H5 by lia. unfold CONNECT_WAIT_TIME in *.
      split_and!; try lia.
      * intros _. destruct n as [|n].
        { rewrite H2 by done. split; [lia|]. intros (i & Hi & Hc).
          replace i with k in Hc by lia. lia. }
        rewrite H1 by lia. split; intros (i & Hi & Hc); exists i; (split; [|done]); [lia|].
        destruct (decide (i = k)) as [->|]; lia.
      * intros Hn _. destruct n as [|n]; [|destruct (H5 Hn); [lia|split; lia]].
        rewrite Z.add_comm in H3. assert (Z.of_nat (k + 1 + 1) = Z.of_nat (k + 1) + 1) as He by lia.
        rewrite He, Z.pow_add_r in * by lia. lia.
    + intros [= <- <- <-].
      assert (2 ^ Z.of_nat (k + 1) <= 2 ^ Z.of_nat (k + S n + 1)) by (apply Z.pow_le_mono_r; lia).
      unfold CONNECT_WAIT_TIME. split_and!; try lia. intros _. split; [|lia]. intros _. exists k. lia.
Qed.

(** The calls before [connect] that must succeed. *)
Definition configured (env : rados_env) (conf : client_conf) (cephConf : bytes) : Prop :=
  r_new env = true /\ 0 <= r_init env /\ 0 <= r_conf_read_file env (c_str cephConf) /\
  fst (r_conf_get env AUTH_CLUSTER_REQUIRED) = 0 /\
  (c_str (snd (r_conf_get env AUTH_CLUSTER_REQUIRED)) = bs "cephx" ->
     r_conf_set env (bs "keyring") (cc_keyring conf) = 0) /\
  r_conf_set env (cc_mon_option conf) (to_string (cc_mon_timeout conf)) = 0 /\
  r_conf_set env (cc_osd_option conf) (to_string (cc_osd_timeout conf)) = 0.

(** [RadosClientInit] hands out an open handle exactly when it returns 0,
    and that is exactly when every configuration call succeeds and one of the
    first five [connect] attempts does; it never tries more than five times
    and never sleeps more than 310 seconds in total; and a failure leaves no
    handle behind unless librados' own [init] failed or there was none. *)
Theorem RadosClientInit_correct (env : rados_env) (conf : client_conf) (cephConf : bytes) :
  let r := RadosClientInit env conf cephConf in
  (ci_client r = Opened <-> ci_ret r = 0) /\
  (ci_ret r = 0 <-> configured env conf cephConf /\
                    exists i, (i < 5)%nat /\ 0 <= r_connect env i) /\
  (ci_client r = Untouched <-> r_new env = false \/ r_init env < 0) /\
  0 <= ci_connects r <= 5 /\ 0 <= ci_slept r <= 310.
Proof.
  unfold RadosClientInit, configured. destruct (r_new env); cbn [negb].
  2:{ cbn. split_and!; try split; intros; destruct_and?; first [done | lia | by left]. }
  destruct (r_init env <? 0) eqn:E0; bprop; cbn.
  { split_and!; try split; intros; destruct_and?; first [done | lia | by right]. }
  destruct (r_conf_read_file _ _ <? 0) eqn:E1; bprop; cbn.
  { split_and!; try split; intros; destruct_and?; first [done | lia]. }
  destruct (r_conf_get env AUTH_CLUSTER_REQUIRED) as [ret auth]. cbn.
  destruct (ret =? 0) eqn:E2; bprop; cbn.
  2:{ split_and!; try split; intros; destruct_and?; first [done | lia]. }
  set (k := if bytes_eqb _ _ then _ else 0).
  assert (k = 0 <-> (c_str auth = bs "cephx" -> r_conf_set env (bs "keyring") (cc_keyring conf) = 0))
    as Hk.
  { unfold k, bytes_eqb. case_bool_decide; split; auto. done. }
  rewrite <- Hk. clearbody k. clear Hk.
  destruct (k =? 0) eqn:E3; bprop; cbn.
  2:{ split_and!; try split; intros; destruct_and?; first [done | lia]. }
  destruct (r_conf_set _ (cc_mon_option conf) _ =? 0) eqn:E4; bprop; cbn.
  2:{ split_and!; try split; intros; destruct_and?; first [done | lia]. }
  destruct (r_conf_set _ (cc_osd_option conf) _ =? 0) eqn:E5; bprop; cbn -[connect_loop].
  2:{ split_and!; try split; intros; destruct_and?; first [done | lia]. }
  rewrite E5. change (Z.to_nat RADOS_CONNECT_RETRY) with 5%nat.
  destruct (connect_loop env 5 0 0 0 0) as [[ret' conns] slept] eqn:Ec.
  apply connect_loop_spec in Ec as (H1 & _ & H3 & H4 & _).
  specialize (H1 ltac:(lia)). cbn in H3, H4. unfold CONNECT_WAIT_TIME in H4.
  destruct (ret' <? 0) eqn:E6; bprop; cbn; split_and!; try split; try done; try lia;
    intros; destruct_and?; try lia.
  - match goal with H : exists i, _ |- _ => destruct H as (i & ? & ?) end.
    assert (0 <= ret') by (apply H1; exists i; lia). lia.
  - split_and!; try done. destruct H1 as [H1 _]. destruct (H1 E6) as (i & Hi & Hc).
    exists i. split; [lia|done].
Qed.

(** [RadosClientShutdown]; [opened] are the handles not shut down, [None] is a second
    [delete]. *)
Definition RadosClientShutdown (client : option Z) (opened : list Z) : option (list Z) :=
  match client with
  | None => Some opened
  | Some c => if bool_decide (c ∈ opened) then Some (filter (fun x => x <> c) opened) else None
  end.

(** The loop over a vector of clients. *)
Fixpoint shutdown_clients (cs opened : list Z) : option (list Z) :=
  match cs with
  | [] => Some opened
  | c :: cs' => opened ← RadosClientShutdown (Some c) opened; shutdown_clients cs' opened
  end.

Lemma RadosClientShutdown_one c opened l : opened ≡ₚ c :: l -> NoDup opened ->
  exists opened', RadosClientShutdown (Some c) opened = Some opened' /\ opened' ≡ₚ l /\ NoDup opened'.
Proof.
  intros Hp Hd. cbn. rewrite bool_decide_eq_true_2 by (rewrite Hp; by left). eexists. split; [done|].
  split; [|by apply NoDup_filter]. pose proof Hd as Hd'. rewrite Hp in Hd'. apply NoDup_cons in Hd' as [Hc Hl].
  apply NoDup_Permutation; [by apply NoDup_filter|done|]. intros x. rewrite list_elem_of_filter, Hp, elem_of_cons. naive_solver.
Qed.

Lemma shutdown_clients_all cs opened l : opened ≡ₚ cs ++ l -> NoDup opened ->
  exists opened', shutdown_clients cs opened = Some opened' /\ opened' ≡ₚ l.
Proof.
  revert opened. induction cs as [|c cs IH]; intros opened Hp Hd; [by exists opened|]. cbn [shutdown_clients].
  destruct (RadosClientShutdown_one c opened (cs ++ l) Hp Hd) as (o & -> & Ho & Hdo). by apply IH.
Qed.
End Wrapper.

(** ** I/O contexts and pool information *)
Module IoCtx.

Inductive pool_key := ById (p : Z) | ByName (n : bytes).

(** A [librados::IoCtx] object; [io_key] is [None] until librados opened it. *)
Record t := { io_client : Z; io_key : option pool_key }.

(** The heap of [IoCtx] objects; [next_id] also numbers the allocations. *)
Record World := { live : gmap Z t; next_id : Z }.

Section create.
(** Whether the n-th allocation succeeds, and what [ioctx_create] and
    [ioctx_create2] answer for it. *)
Context (new_ok : Z -> bool) (ioctx_create : Z -> Z -> pool_key -> Z).

(** [RadosCreateIoCtx], [RadosCreateIoCtx2]: the return value, what is stored
    through [ctx] (if anything), and the heap. *)
Definition create (client : Z) (k : pool_key) (w : World) : Z * option Z * World :=
  let id := next_id w in
  if new_ok id then
    let ret := ioctx_create id client k in
    if ret <? 0 then
      (ret, None, {| live := <[id := {| io_client := client; io_key := None |}]> (live w);
                     next_id := id + 1 |})
    else
      (0, Some id, {| live := <[id := {| io_client := client; io_key := Some k |}]> (live w);
                      next_id := id + 1 |})
  else (-1, None, {| live := live w; next_id := id + 1 |}).

Definition RadosCreateIoCtx (client : Z) (poolname : bytes) (w : World) : Z * option Z * World :=
  create client (ByName (c_str poolname)) w.

Definition RadosCreateIoCtx2 (client : Z) (poolId : Z) (w : World) : Z * option Z * World :=
  create client (ById poolId) w.
End create.

(** [RadosGetPoolId]; [get_id] is [IoCtx::get_id]. *)
Definition RadosGetPoolId (get_id : Z -> Z) (ctx : Z) : Z := get_id ctx.

(** [RadosReleaseIoCtx]; [None] is a double delete. *)
Definition RadosReleaseIoCtx (ctx : option Z) (w : World) : option World :=
  match ctx with
  | None => Some w
  | Some id => match live w !! id with
               | None => None
               | Some _ => Some {| live := delete id (live w); next_id := next_id w |}
               end
  end.

(** [RadosGetPoolName] with the pool's name: what is copied to [buf]. *)
Definition RadosGetPoolName (poolName : bytes) (maxLen : Z) : Z * option bytes :=
  if maxLen <=? len poolName then (- ERANGE, None)
  else (0, Some (c_str poolName ++ [NUL])).

(** [sscanf(s, "%u", &old)] *)
Definition sscanf_u (s : bytes) (old : Z) : Z :=
  let r := strtoull 10 s in if st_nodigits r then old else u32 (st_val r).

Definition MIN_ALLOC_SIZE_NAME : bytes := bs "bluestore_min_alloc_size".
Definition HDD_MIN_ALLOC_SIZE_NAME : bytes := bs "bluestore_min_alloc_size_hdd".
Definition SSD_MIN_ALLOC_SIZE_NAME : bytes := bs "bluestore_min_alloc_size_ssd".

Section min_alloc.
Context (conf_get : bytes -> Z * bytes).

(** The device-specific option is consulted when the general one is 0. *)
Definition min_alloc (option_name : bytes) (minAllocSize : Z) : Z * Z :=
  let '(ret, val) := conf_get MIN_ALLOC_SIZE_NAME in
  if ret <? 0 then (ret, minAllocSize) else
  let minAllocSize := sscanf_u (c_str val) minAllocSize in
  if minAllocSize =? 0 then
    let '(ret, val) := conf_get option_name in
    if ret <? 0 then (ret, minAllocSize) else (0, sscanf_u (c_str val) minAllocSize)
  else (0, minAllocSize).

Definition RadosGetMinAllocSizeHDD : Z -> Z * Z := min_alloc HDD_MIN_ALLOC_SIZE_NAME.
Definition RadosGetMinAllocSizeSSD : Z -> Z * Z := min_alloc SSD_MIN_ALLOC_SIZE_NAME.
End min_alloc.

(** [CephPoolStat], and with the same sixteen counters librados' [pool_stat_t]. *)
Record CephPoolStat := {
  numKb : Z; numBytes : Z; numObjects : Z; numObjectClones : Z; numObjectCopies : Z;
  numObjectsMissingOnPrimary : Z; numObjectsUnfound : Z; numObjectsDegraded : Z;
  numRd : Z; numRdKb : Z; numWr : Z; numWrKb : Z; numUserBytes : Z;
  compressedBytesOrig : Z; compressedBytes : Z; compressedBytesAlloc : Z
}.
Definition zero_stat : CephPoolStat :=
  {| numKb := 0; numBytes := 0; numObjects := 0; numObjectClones := 0; numObjectCopies := 0;
     numObjectsMissingOnPrimary := 0; numObjectsUnfound := 0; numObjectsDegraded := 0;
     numRd := 0; numRdKb := 0; numWr := 0; numWrKb := 0; numUserBytes := 0;
     compressedBytesOrig := 0; compressedBytes := 0; compressedBytesAlloc := 0 |}.

Record CephClusterStat := { kb : Z; kbUsed : Z; kbAvail : Z; kbObjects : Z }.

Section stats.
Context (cluster_stat : Z * CephClusterStat).
Context (get_pool_stats : list bytes -> Z * gmap bytes CephPoolStat).
Context (pool_reverse_lookup : Z -> Z * bytes).

Definition RadosGetClusterStat (stat : CephClusterStat) : Z * CephClusterStat :=
  let '(ret, result) := cluster_stat in
  if ret <? 0 then (ret, stat)
  else (0, {| kb := kb result; kbAvail := kbAvail result; kbUsed := kbUsed result;
              kbObjects := kbObjects result |}).

(** [rawresult[name]] creates a zeroed entry for a missing name. *)
Definition entry (m : gmap bytes CephPoolStat) (n : bytes) : CephPoolStat :=
  default zero_stat (m !! n).

(** [RadosGetPoolStat]; [pool_name] is [None] when a handle is null. *)
Definition RadosGetPoolStat (pool_name : option bytes) (stat : CephPoolStat) : Z * CephPoolStat :=
  match pool_name with
  | None => (- EINVAL, stat)
  | Some pool_name =>
      let '(ret, rawresult) := get_pool_stats [pool_name] in
      if negb (ret =? 0) then (ret, stat) else (0, entry rawresult pool_name)
  end.

Definition set_kb_bytes (k b : Z) (s : CephPoolStat) : CephPoolStat :=
  {| numKb := k; numBytes := b; numObjects := numObjects s;
     numObjectClones := numObjectClones s; numObjectCopies := numObjectCopies s;
     numObjectsMissingOnPrimary := numObjectsMissingOnPrimary s;
     numObjectsUnfound := numObjectsUnfound s; numObjectsDegraded := numObjectsDegraded s;
     numRd := numRd s; numRdKb := numRdKb s; numWr := numWr s; numWrKb := numWrKb s;
     numUserBytes := numUserBytes s; compressedBytesOrig := compressedBytesOrig s;
     compressedBytes := compressedBytes s; compressedBytesAlloc := compressedBytesAlloc s |}.

(** The lookup loop of [RadosGetPoolsStat]: the pool names found, the index of
    each, and [stat] with the failed entries marked. *)
Fixpoint lookup_pools (i : nat) (poolId : list Z) (stat : list CephPoolStat)
  : list bytes * gmap nat bytes * list CephPoolStat :=
  match poolId with
  | [] => ([], ∅, stat)
  | p :: ps =>
      let '(ret, poolName) := pool_reverse_lookup p in
      if ret <? 0 then
        lookup_pools (S i) ps (alter (fun s => set_kb_bytes (numKb s) (u64 (-1)) s) i stat)
      else
        let '(ls, poolMap, stat') := lookup_pools (S i) ps stat in
        (poolName :: ls, <[i := poolName]> poolMap, stat')
  end.

Definition RadosGetPoolsStat (stat : list CephPoolStat) (poolId : list Z) : Z * list CephPoolStat :=
  let '(ls, poolMap, stat) := lookup_pools 0 poolId stat in
  let '(ret, rawresult) := get_pool_stats ls in
  if negb (ret =? 0) then (ret, stat) else
  (0, imap (fun i s => match poolMap !! i with
                       | Some n => set_kb_bytes (numKb (entry rawresult n))
                                                (numBytes (entry rawresult n)) s
                       | None => s
                       end) stat).

Lemma lookup_pools_spec i ps stat ls pm stat' :
  lookup_pools i ps stat = (ls, pm, stat') ->
  ls = omap (fun p => let '(r, n) := pool_reverse_lookup p in
                      if r <? 0 then None else Some n) ps /\
  (forall j, pm !! j = (if bool_decide (i <= j)%nat then
             p ← ps !! (j - i)%nat;
             let '(r, n) := pool_reverse_lookup p in if r <? 0 then None else Some n
           else None)) /\
  (forall j, stat' !! j = (if bool_decide (i <= j)%nat then
       match ps !! (j - i)%nat with
       | Some p => if fst (pool_reverse_lookup p) <? 0
                   then (fun s => set_kb_bytes (numKb s) (u64 (-1)) s) <$> stat !! j
                   else stat !! j
       | None => stat !! j
       end else stat !! j)).
Proof.
  revert i stat ls pm stat'. induction ps as [|p ps IH]; intros i stat ls pm stat'; cbn [lookup_pools].
  - intros [= <- <- <-]. split_and!; [done|intros j; rewrite lookup_empty; by case_bool_decide|].
    intros j. by case_bool_decide.
  - assert (forall j, (i <= j)%nat -> j <> i ->
      (p :: ps) !! (j - i)%nat = ps !! (j - S i)%nat) as Hsh.
    { intros j Hj Hne. by replace (j - i)%nat with (S (j - S i))%nat by lia. }
    cbn [omap list_omap]. destruct (pool_reverse_lookup p) as [ret n] eqn:Ep.
    destruct (ret <? 0) eqn:Er.
    + intros Hl. apply IH in Hl as (H1 & H2 & H3). split; [done|]. split; intros j.
      * rewrite H2. destruct (decide (j = i)) as [->|Hne].
        { rewrite bool_decide_eq_false_2 by lia. rewrite bool_decide_eq_true_2 by lia.
          rewrite Nat.sub_diag. cbn. by rewrite Ep, Er. }
        repeat case_bool_decide; try lia; [by rewrite Hsh|done].
      * rewrite H3. destruct (decide (j = i)) as [->|Hne].
        { rewrite bool_decide_eq_false_2 by lia. rewrite bool_decide_eq_true_2 by lia.
          rewrite Nat.sub_diag. cbn. rewrite Ep. cbn. rewrite Er. apply list_lookup_alter_eq. }
        rewrite list_lookup_alter_ne by done.
        repeat case_bool_decide; try lia; [by rewrite Hsh|done].
    + destruct (lookup_pools (S i) ps stat) as [[ls1 pm1] st1] eqn:E1.
      intros [= <- <- <-]. apply IH in E1 as (H1 & H2 & H3). split; [by f_equal|]. split; intros j.
      * destruct (decide (j = i)) as [->|Hne].
        { rewrite lookup_insert_eq, bool_decide_eq_true_2 by lia.
          rewrite Nat.sub_diag. cbn. by rewrite Ep, Er. }
        rewrite lookup_insert_ne by done. rewrite H2.
        repeat case_bool_decide; try lia; [by rewrite Hsh|done].
      * rewrite H3. destruct (decide (j = i)) as [->|Hne].
        { rewrite bool_decide_eq_false_2 by lia. rewrite bool_decide_eq_true_2 by lia.
          rewrite Nat.sub_diag. cbn. rewrite Ep. cbn. by rewrite Er. }
        repeat case_bool_decide; try lia; [by rewrite Hsh|done].
Qed.

(** What [RadosGetPoolsStat] makes of one entry of the caller's array. *)
Definition pool_entry_spec (m : gmap bytes CephPoolStat) (p : Z) (s : CephPoolStat) : CephPoolStat :=
  let '(r, n) := pool_reverse_lookup p in
  if r <? 0 then set_kb_bytes (numKb s) (2 ^ 64 - 1) s
  else set_kb_bytes (numKb (entry m n)) (numBytes (entry m n)) s.

(** [RadosGetPoolsStat] asks librados for exactly the pools whose name
    it could resolve; on success every entry of the array is treated on its
    own -- an unknown pool is marked with [numBytes = 2^64 - 1] and does not
    disturb the others, a known one gets its usage -- and nothing else of an
    entry, and no entry beyond the requested ones, is touched. *)
Theorem RadosGetPoolsStat_spec (stat : list CephPoolStat) (poolId : list Z) (r : Z)
  (m : gmap bytes CephPoolStat)
  (Hg : get_pool_stats (omap (fun p => let '(r, n) := pool_reverse_lookup p in
                                       if r <? 0 then None else Some n) poolId) = (r, m)) :
  fst (RadosGetPoolsStat stat poolId) = r /\
  (r = 0 -> forall i, snd (RadosGetPoolsStat stat poolId) !! i =
     match poolId !! i with
     | Some p => pool_entry_spec m p <$> stat !! i
     | None => stat !! i
     end).
Proof.
  unfold RadosGetPoolsStat. destruct (lookup_pools 0 poolId stat) as [[ls pm] st] eqn:E.
  apply lookup_pools_spec in E as (-> & H2 & H3). rewrite Hg.
  destruct (r =? 0) eqn:Er; bprop; cbn; [|done]. split; [done|]. intros _ i.
  rewrite list_lookup_imap, H3. specialize (H2 i). cbn in H2. rewrite Nat.sub_0_r in *. cbn.
  unfold pool_entry_spec.
  destruct (poolId !! i) as [p|] eqn:Ei; cbn in *.
  - destruct (pool_reverse_lookup p) as [ret n]. cbn. rewrite H2.
    destruct (ret <? 0); destruct (stat !! i); done.
  - rewrite H2. by destruct (stat !! i).
Qed.
End stats.

(** Two pools are asked for, the second is unknown. *)
Lemma RadosGetPoolsStat_spec_witness :
  let lookup p := if p =? 5 then (0, bs "rbd") else (- ENOENT, []) in
  let m := {[ bs "rbd" := set_kb_bytes 4 4096 zero_stat ]} in
  fst (RadosGetPoolsStat (fun _ => (0, m)) lookup [zero_stat; zero_stat; zero_stat] [5; 6]) = 0 /\
  snd (RadosGetPoolsStat (fun _ => (0, m)) lookup [zero_stat; zero_stat; zero_stat] [5; 6]) !! 1%nat =
    Some (set_kb_bytes 0 (2 ^ 64 - 1) zero_stat).
Proof.
  intros lookup m.
  destruct (RadosGetPoolsStat_spec (fun _ => (0, m)) lookup [zero_stat; zero_stat; zero_stat] [5; 6]
              0 m eq_refl) as [H1 H2].
  split; [exact H1|]. rewrite (H2 eq_refl 1%nat). vm_compute. reflexivity.
Defined.
End IoCtx.

(** ** [GcBufferList]: gathering writes and scattering reads *)
Module GcBuffer.

Definition DEFAULT_BL_PAGE : Z := 4096.
Definition ENTRY_PER_BUFFLIST : Z := 64.

(** [buf] is the memory the entry's pointer gives access to, [elen] its [len]. *)
Record ListEntry := { buf : bytes; elen : Z }.

(** One [GcBufferList]; a chain linked by [nextBufferList] is a list of them. *)
Record GcBufferList := { entrySumList : Z; entrys : list ListEntry }.

Record AlignBuffer := {
  prevAlignBuffer : option bytes; prevAlignLen : Z;
  backAlignBuffer : option bytes; backAlignLen : Z
}.

(** A bad memory access, or the model's fuel used up. *)
Inductive fault := NullList | BadEntry | Overrun | Fuel.

Definition bind_res {A B} (r : fault + A) (k : A -> fault + B) : fault + B :=
  match r with inl e => inl e | inr a => k a end.

(** How much of an entry one step moves at most. *)
Definition esize (isRelease : bool) (e : ListEntry) : Z :=
  if isRelease then DEFAULT_BL_PAGE else elen e.

(** [while (leftLen > 0)] of [RadosWriteOpWriteBl]. *)
Fixpoint gather (fuel : nat) (isRelease : bool) (chain : list GcBufferList)
    (curSrcEntryIndex : nat) (leftLen : Z) (acc : bytes) : fault + bytes :=
  if leftLen =? 0 then inr acc else
  match fuel with
  | O => inl Fuel
  | S f =>
      match chain with
      | [] => inl NullList
      | bl :: next =>
          match entrys bl !! curSrcEntryIndex with
          | None => inl BadEntry
          | Some e =>
              let size := Z.min (esize isRelease e) leftLen in
              if len (buf e) <? size then inl Overrun else
              let acc := acc ++ take (Z.to_nat size) (buf e) in
              let curSrcEntryIndex := S curSrcEntryIndex in
              if entrySumList bl <=? Z.of_nat curSrcEntryIndex
              then gather f isRelease next 0 (leftLen - size) acc
              else gather f isRelease chain curSrcEntryIndex (leftLen - size) acc
          end
      end
  end.

(** Each step visits one more of a chain's at most 64 entries per list. *)
Definition chain_fuel (chain : list GcBufferList) : nat := S (64 * length chain).

Definition align (b : option bytes) (n : Z) : fault + bytes :=
  match b with
  | None => inr []
  | Some p => if n =? 0 then inr []
              else if len p <? n then inl Overrun else inr (take (Z.to_nat n) p)
  end.

(** The data [RadosWriteOpWriteBl] appends to [writeOp->bl]: [len1] is cut to 32
    bits, the alignment buffers go around it. *)
Definition write_bl_data (chain : list GcBufferList) (len1 : Z) (ab : option AlignBuffer)
    (isRelease : bool) : fault + bytes :=
  let leftLen := u32 len1 in
  bind_res (match ab with None => inr [] | Some a => align (prevAlignBuffer a) (prevAlignLen a) end)
    (fun prev =>
  bind_res (gather (chain_fuel chain) isRelease chain 0 leftLen [])
    (fun data =>
  bind_res (match ab with None => inr [] | Some a => align (backAlignBuffer a) (backAlignLen a) end)
    (fun back => inr (prev ++ data ++ back)))).

(** [memset(buf, 0, len)] on every used entry, when a read came back short. *)
Definition zero_entry (e : ListEntry) : fault + ListEntry :=
  if len (buf e) <? elen e then inl Overrun
  else inr {| buf := replicate (Z.to_nat (elen e)) NUL ++ drop (Z.to_nat (elen e)) (buf e);
              elen := elen e |}.

(** [while (current_entry < bl->entrySumList)], [n] entries to go. *)
Fixpoint zero_entries (n : nat) (es : list ListEntry) : fault + list ListEntry :=
  match n with
  | O => inr es
  | S n' => match es with
            | [] => inl BadEntry
            | e :: es' => bind_res (zero_entry e) (fun e' =>
                          bind_res (zero_entries n' es') (fun r => inr (e' :: r)))
            end
  end.

Fixpoint zero_chain (chain : list GcBufferList) : fault + list GcBufferList :=
  match chain with
  | [] => inr []
  | bl :: next =>
      bind_res (zero_entries (Z.to_nat (entrySumList bl)) (entrys bl)) (fun es =>
      bind_res (zero_chain next) (fun next' =>
      inr ({| entrySumList := entrySumList bl; entrys := es |} :: next')))
  end.

Definition store (e : ListEntry) (d : bytes) : ListEntry :=
  {| buf := d ++ drop (length d) (buf e); elen := elen e |}.

Definition set_entry (bl : GcBufferList) (i : nat) (e : ListEntry) : GcBufferList :=
  {| entrySumList := entrySumList bl; entrys := <[i := e]> (entrys bl) |}.

(** [while (leftLen > 0)] of [ReadCallback]; [results] is what is still to be
    copied, and the lists already left behind are put back around the rest. *)
Fixpoint scatter (fuel : nat) (buildType : bool) (chain : list GcBufferList)
    (curEntryIndex : nat) (results : bytes) : fault + list GcBufferList :=
  let leftLen := len results in
  if leftLen =? 0 then inr chain else
  match fuel with
  | O => inl Fuel
  | S f =>
      match chain with
      | [] => inl NullList
      | bl :: next =>
          match entrys bl !! curEntryIndex with
          | None => inl BadEntry
          | Some e =>
              let size := Z.min (esize buildType e) leftLen in
              if len (buf e) <? size then inl Overrun else
              let cbl := take (Z.to_nat size) results in
              let bl' := set_entry bl curEntryIndex (store e cbl) in
              let results := drop (Z.to_nat size) results in
              let curEntryIndex := S curEntryIndex in
              if ENTRY_PER_BUFFLIST <=? Z.of_nat curEntryIndex
              then bind_res (scatter f buildType next 0 results) (fun r => inr (bl' :: r))
              else scatter f buildType (bl' :: next) curEntryIndex results
          end
      end
  end.

(** The [readbl] branch of [ReadCallback]: [want] is the length asked for;
    [leftLen] has 32 bits. *)
Definition read_bl (chain : list GcBufferList) (want : Z) (buildType : bool) (results : bytes)
  : fault + list GcBufferList :=
  bind_res (if len results =? want then inr chain else zero_chain chain) (fun chain =>
  scatter (chain_fuel chain) buildType chain 0 (take (Z.to_nat (u32 (len results))) results)).

(** *** What a chain holds *)
Definition used (bl : GcBufferList) : list ListEntry :=
  take (Z.to_nat (entrySumList bl)) (entrys bl).
Definition edata (rel : bool) (e : ListEntry) : bytes := take (Z.to_nat (esize rel e)) (buf e).
Definition edatas (rel : bool) (es : list ListEntry) : bytes := concat (map (edata rel) es).
Definition chain_data (rel : bool) (chain : list GcBufferList) : bytes :=
  concat (map (fun bl => edatas rel (used bl)) chain).

Definition entry_ok (rel : bool) (e : ListEntry) : Prop := 0 <= esize rel e <= len (buf e).
Definition list_ok (rel : bool) (bl : GcBufferList) : Prop :=
  0 < entrySumList bl <= 64 /\ length (entrys bl) = 64%nat /\ Forall (entry_ok rel) (used bl).

(** Every list but the last uses all its 64 entries. *)
Fixpoint packed (chain : list GcBufferList) : Prop :=
  match chain with
  | [] => True
  | [_] => True
  | bl :: next => entrySumList bl = 64 /\ packed next
  end.

Lemma edata_length rel e : entry_ok rel e -> len (edata rel e) = esize rel e.
Proof. intros H. unfold edata, len. unfold entry_ok, len in H. rewrite length_take. lia. Qed.

Lemma used_drop rel bl i e :
  list_ok rel bl -> (i < Z.to_nat (entrySumList bl))%nat -> entrys bl !! i = Some e ->
  drop i (used bl) = e :: drop (S i) (used bl) /\ entry_ok rel e.
Proof.
  intros (Hs & Hl & Hf) Hi He. assert (used bl !! i = Some e) as Hu.
  { unfold used. by rewrite lookup_take_lt. }
  split; [by apply drop_S|]. eapply Forall_lookup_1; [exact Hf|done].
Qed.

Lemma gather_spec rel fuel chain i left acc :
  Forall (list_ok rel) chain ->
  (forall bl, head chain = Some bl -> (i < Z.to_nat (entrySumList bl))%nat) ->
  0 <= left <= len (drop (length (edatas rel (take i (from_option used [] (head chain)))))
                         (chain_data rel chain)) ->
  (64 * length chain - i < fuel)%nat ->
  gather fuel rel chain i left acc =
    inr (acc ++ take (Z.to_nat left)
               (drop (length (edatas rel (take i (from_option used [] (head chain)))))
                  (chain_data rel chain))).
Proof.
  revert chain i left acc. induction fuel as [|f IH]; intros chain i left acc Hok Hi Hleft Hf; [lia|].
  cbn [gather]. destruct (left =? 0) eqn:E0; bprop.
  { subst left. by rewrite app_nil_r. }
  destruct chain as [|bl next].
  { rewrite drop_ge in Hleft by (cbn; lia). unfold len in Hleft. cbn in Hleft. lia. }
  specialize (Hi bl eq_refl). apply Forall_cons in Hok as [Hbl Hnext].
  destruct (lookup_lt_is_Some_2 (entrys bl) i) as [e He]; [destruct Hbl as (? & -> & _); lia|].
  rewrite He. destruct (used_drop _ _ _ _ Hbl Hi He) as [Hd Hok].
  cbn [head from_option] in *.
  change (chain_data rel (bl :: next)) with (edatas rel (used bl) ++ chain_data rel next) in *.
  assert (edatas rel (used bl) = edatas rel (take i (used bl)) ++ edata rel e
            ++ edatas rel (drop (S i) (used bl))) as Hsplit.
  { unfold edatas. rewrite <- (take_drop i (used bl)) at 1. rewrite Hd, map_app, concat_app. done. }
  rewrite Hsplit, <- app_assoc, drop_app_length in Hleft |- *.
  pose proof (edata_length _ _ Hok) as Hel. destruct Hok as [Hes1 Hes2].
  replace (len (buf e) <? Z.min (esize rel e) left) with false by lia.
  remember (Z.min (esize rel e) left) as size eqn:Hsz.
  assert (take (Z.to_nat size) (buf e) = take (Z.to_nat left) (edata rel e)) as Htk.
  { unfold edata. rewrite take_take. f_equal. lia. }
  rewrite Htk. rewrite !len_app in Hleft.
  assert (Z.to_nat (left - size) = (Z.to_nat left - length (edata rel e))%nat) as Hsub.
  { unfold len in Hel. lia. }
  destruct Hbl as (Hs1 & Hs2 & Hs3).
  destruct (entrySumList bl <=? Z.of_nat (S i)) eqn:El; bprop.
  - assert (drop (S i) (used bl) = []) as Hdn.
    { apply drop_ge. unfold used. rewrite length_take. lia. }
    rewrite Hdn in *. cbn [edatas concat map app length] in *.
    rewrite IH.
    + cbn [take edatas map concat length]. rewrite drop_0, <- app_assoc. do 2 f_equal.
      by rewrite Hsub, <- take_app, app_nil_r.
    + done.
    + intros b Hb. destruct next as [|b' next]; [done|]. injection Hb as ->.
      apply Forall_cons in Hnext as [(? & _) _]. lia.
    + cbn [take edatas map concat length]. rewrite drop_0. unfold len in Hleft |- *. cbn in Hleft. unfold len in Hel. lia.
    + lia.
  - assert (edatas rel (take (S i) (used bl)) = edatas rel (take i (used bl)) ++ edata rel e) as Ht.
    { unfold edatas. rewrite (take_S_r _ _ e), map_app, concat_app; [cbn; by rewrite app_nil_r|].
      unfold used. rewrite lookup_take_lt by lia. done. }
    assert (chain_data rel (bl :: next) = edatas rel (take (S i) (used bl)) ++
              edatas rel (drop (S i) (used bl)) ++ chain_data rel next) as Hcd.
    { change (chain_data rel (bl :: next)) with (edatas rel (used bl) ++ chain_data rel next).
      rewrite Hsplit, Ht. by rewrite <- !app_assoc. }
    rewrite IH.
    + cbn [head from_option]. rewrite Hcd, drop_app_length, <- app_assoc. do 2 f_equal.
      rewrite Hsub, <- app_assoc. by rewrite <- take_app.
    + constructor; [exact (conj Hs1 (conj Hs2 Hs3))|done].
    + intros b [= <-]. lia.
    + cbn [head from_option]. rewrite Hcd, drop_app_length, len_app. unfold len in *. lia.
    + cbn [length] in *. lia.
Qed.

Lemma gather_chain rel chain left :
  Forall (list_ok rel) chain -> 0 <= left <= len (chain_data rel chain) ->
  gather (chain_fuel chain) rel chain 0 left [] = inr (take (Z.to_nat left) (chain_data rel chain)).
Proof.
  intros Hok Hl. rewrite gather_spec; [|done| | |unfold chain_fuel; lia].
  - by cbn [take edatas map concat length app]; rewrite drop_0.
  - intros b Hb. destruct chain as [|b' next]; [done|]. injection Hb as ->.
    apply Forall_cons in Hok as [(? & _) _]. lia.
  - cbn [take edatas map concat length]. by rewrite drop_0.
Qed.

(** *** Overwriting the beginning of a data block *)
Definition splice (r d : bytes) : bytes := r ++ drop (length r) d.

Lemma splice_app r d1 d2 :
  splice r (d1 ++ d2) = splice (take (length d1) r) d1 ++ splice (drop (length d1) r) d2.
Proof.
  unfold splice. rewrite length_take, length_drop.
  destruct (decide (length r <= length d1)%nat) as [Hle|Hgt].
  - rewrite (take_ge r), (drop_ge r) by lia. rewrite drop_app_le by lia.
    rewrite Nat.min_r by lia. replace (length r - length d1)%nat with 0%nat by lia.
    by rewrite drop_0, app_nil_l, <- app_assoc.
  - rewrite Nat.min_l, (drop_ge d1) by lia. rewrite drop_app_ge by lia.
    rewrite app_nil_r, app_assoc. by rewrite take_drop.
Qed.

Definition same_shape (bl bl' : GcBufferList) : Prop :=
  entrySumList bl = entrySumList bl' /\
  map (fun e => (elen e, length (buf e))) (entrys bl) =
  map (fun e => (elen e, length (buf e))) (entrys bl').

Lemma same_shape_refl bl : same_shape bl bl.
Proof. done. Qed.

Lemma same_shape_trans a b c : same_shape a b -> same_shape b c -> same_shape a c.
Proof. intros [? ?] [? ?]. split; congruence. Qed.

Lemma Forall2_same_shape_refl chain : Forall2 same_shape chain chain.
Proof. induction chain; constructor; [apply same_shape_refl|done]. Qed.

Lemma entries_ok_shape rel es es' :
  map (fun e => (elen e, length (buf e))) es = map (fun e => (elen e, length (buf e))) es' ->
  Forall (entry_ok rel) es -> Forall (entry_ok rel) es'.
Proof.
  revert es'. induction es as [|e es IH]; intros [|e' es'] Hm Hf; try done.
  cbn in Hm. injection Hm as H1 H2 H3. apply Forall_cons in Hf as [He Hf].
  constructor; [|by apply IH]. unfold entry_ok, esize, len in *. destruct rel; lia.
Qed.

Lemma list_ok_shape rel bl bl' : same_shape bl bl' -> list_ok rel bl -> list_ok rel bl'.
Proof.
  intros [He Hm] (Hs & Hl & Hf). unfold list_ok, used. rewrite <- He.
  split; [done|]. split; [rewrite <- Hl; apply (f_equal length) in Hm; by rewrite !length_map in Hm|].
  eapply entries_ok_shape; [|exact Hf]. unfold used. by rewrite <- !firstn_map, Hm.
Qed.

Lemma chain_ok_shape rel chain chain' :
  Forall2 same_shape chain chain' -> Forall (list_ok rel) chain -> Forall (list_ok rel) chain'.
Proof.
  induction 1; intros H'; [constructor|]. apply Forall_cons in H' as [? ?].
  constructor; [by eapply list_ok_shape|auto].
Qed.

Lemma same_shape_set_entry bl i e d :
  entrys bl !! i = Some e -> (length d <= length (buf e))%nat ->
  same_shape bl (set_entry bl i (store e d)).
Proof.
  intros He Hd. split; [done|]. cbn. rewrite list_fmap_insert. cbn.
  rewrite list_insert_id; [done|]. rewrite list_lookup_fmap, He. cbn.
  do 2 f_equal. rewrite length_app, length_drop. lia.
Qed.

(** The data from entry [i] of the first list on. *)
Definition rest_data (rel : bool) (chain : list GcBufferList) (i : nat) : bytes :=
  match chain with
  | [] => []
  | bl :: next => edatas rel (drop i (used bl)) ++ chain_data rel next
  end.

Lemma rest_data_0 rel chain : rest_data rel chain 0 = chain_data rel chain.
Proof. destruct chain as [|bl next]; [done|]. cbn. by rewrite drop_0. Qed.

Lemma edata_store rel e d :
  entry_ok rel e -> len d <= esize rel e -> edata rel (store e d) = splice d (edata rel e).
Proof.
  intros [H1 H2] Hd. unfold edata, splice, store. replace (esize rel {| buf := _; elen := _ |})
    with (esize rel e) by by destruct rel. cbn. unfold len in *.
  rewrite take_app, take_ge by lia. f_equal. by rewrite skipn_firstn_comm.
Qed.

Lemma used_set_entry bl i e :
  (i < Z.to_nat (entrySumList bl))%nat -> used (set_entry bl i e) = <[i := e]> (used bl).
Proof. intros Hi. unfold used. cbn. by rewrite take_insert_lt by done. Qed.

(** Where a packed chain still has room, the next entry is a used one. *)
Lemma packed_room rel bl next i :
  packed (bl :: next) -> (i < 64)%nat -> rest_data rel (bl :: next) i <> [] ->
  (i < Z.to_nat (entrySumList bl))%nat.
Proof.
  intros Hp Hi Hr. destruct next as [|b n]; [|destruct Hp as [-> _]; lia].
  destruct (decide (i < Z.to_nat (entrySumList bl))%nat); [done|]. exfalso. apply Hr. cbn.
  rewrite drop_ge; [done|]. unfold used. rewrite length_take. lia.
Qed.

Lemma scatter_spec rel fuel chain i r :
  Forall (list_ok rel) chain -> packed chain -> (i < 64)%nat ->
  len r <= len (rest_data rel chain i) -> (64 * length chain - i < fuel)%nat ->
  exists chain', scatter fuel rel chain i r = inr chain' /\ Forall2 same_shape chain chain' /\
    rest_data rel chain' i = splice r (rest_data rel chain i) /\
    (forall bl, head chain = Some bl -> exists bl', head chain' = Some bl' /\
       take i (entrys bl') = take i (entrys bl)).
Proof.
  revert chain i r. induction fuel as [|f IH]; intros chain i r Hok Hp Hi Hr Hf; [lia|].
  cbn [scatter]. destruct (len r =? 0) eqn:E0; bprop.
  { assert (r = []) as -> by (destruct r; [done|rewrite len_cons in E0; pose proof (len_nonneg r); lia]).
    exists chain. split_and!; [done|apply Forall2_same_shape_refl|done|]. intros bl Hb. by exists bl. }
  destruct chain as [|bl next]; [cbn in Hr; rewrite len_nil in Hr; pose proof (len_nonneg r); lia|].
  assert (i < Z.to_nat (entrySumList bl))%nat as His.
  { eapply packed_room; [done..|]. intros Heq. rewrite Heq, len_nil in Hr.
    pose proof (len_nonneg r). lia. }
  apply Forall_cons in Hok as [Hbl Hnext].
  destruct (lookup_lt_is_Some_2 (entrys bl) i) as [e He]; [destruct Hbl as (? & -> & _); lia|].
  rewrite He. destruct (used_drop _ _ _ _ Hbl His He) as [Hd Hoke].
  pose proof (edata_length _ _ Hoke) as Hel. pose proof Hoke as [Hes1 Hes2].
  replace (len (buf e) <? Z.min (esize rel e) (len r)) with false by lia.
  assert (take (Z.to_nat (Z.min (esize rel e) (len r))) r = take (length (edata rel e)) r) as Htk.
  { rewrite <- Hel. unfold len.
    destruct (decide (length (edata rel e) <= length r)%nat); [f_equal; lia|].
    rewrite !take_ge by lia. done. }
  assert (drop (Z.to_nat (Z.min (esize rel e) (len r))) r = drop (length (edata rel e)) r) as Hdp.
  { rewrite <- Hel. unfold len.
    destruct (decide (length (edata rel e) <= length r)%nat); [f_equal; lia|].
    rewrite !drop_ge by lia. done. }
  rewrite Htk, Hdp. set (d := take (length (edata rel e)) r).
  set (bl' := set_entry bl i (store e d)).
  assert (len d <= esize rel e) as Hdl.
  { rewrite <- Hel. unfold len, d. rewrite length_take. lia. }
  assert (same_shape bl bl') as Hsh.
  { apply same_shape_set_entry; [done|]. unfold len in *. lia. }
  assert (drop i (used bl') = store e d :: drop (S i) (used bl)) as Hd'.
  { unfold bl'. rewrite used_set_entry by done. rewrite drop_insert_ge, Nat.sub_diag by lia.
    by rewrite Hd. }
  assert (rest_data rel (bl :: next) i =
          edata rel e ++ edatas rel (drop (S i) (used bl)) ++ chain_data rel next) as Hrd.
  { cbn [rest_data]. rewrite Hd. unfold edatas. cbn. by rewrite <- app_assoc. }
  rewrite Hrd in Hr |- *. rewrite splice_app. fold d. rewrite !len_app in Hr.
  assert (take i (entrys bl') = take i (entrys bl)) as Htake.
  { unfold bl'. cbn. by rewrite take_insert_ge. }
  assert (len (drop (length (edata rel e)) r) <=
          len (edatas rel (drop (S i) (used bl))) + len (chain_data rel next)) as Hr'.
  { unfold len in *. rewrite length_drop. lia. }
  destruct (ENTRY_PER_BUFFLIST <=? Z.of_nat (S i)) eqn:E6; bprop; unfold ENTRY_PER_BUFFLIST in E6.
  - assert (drop (S i) (used bl) = []) as Hnil.
    { apply drop_ge. unfold used. rewrite length_take. destruct Hbl as (_ & -> & _). lia. }
    rewrite Hnil in *. change (edatas rel []) with (@nil ascii) in *. cbn [app] in *.
    destruct (IH next 0%nat (drop (length (edata rel e)) r)) as (next' & -> & Hs' & Hr2 & _);
      [done|by destruct next; [|destruct Hp]|lia| |cbn [length] in Hf; lia|].
    { rewrite rest_data_0. unfold len in *. cbn in Hr'. lia. }
    rewrite !rest_data_0 in Hr2. cbn [bind_res]. exists (bl' :: next'). split; [done|].
    split; [by constructor|]. split.
    + cbn [rest_data]. rewrite Hd', Hr2. unfold edatas. cbn. rewrite app_nil_r. f_equal.
      by apply edata_store.
    + intros ? [= <-]. by exists bl'.
  - destruct (IH (bl' :: next) (S i) (drop (length (edata rel e)) r))
      as (chain' & -> & Hs' & Hr2 & Hh); [|by destruct next; [|destruct Hp]|lia| |cbn in *; lia|].
    { constructor; [by eapply list_ok_shape|done]. }
    { cbn [rest_data]. rewrite len_app.
      replace (drop (S i) (used bl')) with (drop (S i) (used bl)); [done|].
      unfold bl'. rewrite used_set_entry by done. by rewrite drop_insert_lt by lia. }
    exists chain'. split; [done|]. split.
    { inv Hs'. constructor; [by eapply same_shape_trans|done]. }
    destruct (Hh bl' eq_refl) as (bl2 & Hb2 & Ht2). inv Hs'. cbn in Hb2. injection Hb2 as ->.
    assert (used bl2 !! i = Some (store e d)) as Hu2.
    { assert (take (S i) (entrys bl2) !! i = Some (store e d)) as Hx.
      { rewrite Ht2. rewrite lookup_take_lt by lia. cbn. apply list_lookup_insert_eq.
        by eapply lookup_lt_Some. }
      rewrite lookup_take_lt in Hx by lia. unfold used. rewrite lookup_take_lt; [done|].
      match goal with H : same_shape bl' bl2 |- _ => destruct H as [<- _] end. done. }
    split.
    + cbn [rest_data] in Hr2 |- *. rewrite (drop_S _ _ _ Hu2). unfold edatas. cbn.
      rewrite <- app_assoc. fold (edatas rel (drop (S i) (used bl2))). rewrite Hr2.
      rewrite edata_store by done. do 2 f_equal.
      unfold bl'. rewrite used_set_entry by done. by rewrite drop_insert_lt by lia.
    + intros ? [= <-]. exists bl2. split; [done|]. rewrite <- Htake.
      replace (take i (entrys bl2)) with (take i (take (S i) (entrys bl2)))
        by (rewrite take_take; f_equal; lia).
      rewrite Ht2, take_take. f_equal. lia.
Qed.

Lemma scatter_chain rel chain r :
  Forall (list_ok rel) chain -> packed chain -> len r <= len (chain_data rel chain) ->
  exists chain', scatter (chain_fuel chain) rel chain 0 r = inr chain' /\
    Forall2 same_shape chain chain' /\ chain_data rel chain' = splice r (chain_data rel chain).
Proof.
  intros Hok Hp Hr. destruct (scatter_spec rel (chain_fuel chain) chain 0 r)
    as (chain' & ? & ? & Hd & _); [done..|lia|by rewrite rest_data_0|unfold chain_fuel; lia|].
  exists chain'. by rewrite !rest_data_0 in Hd.
Qed.

(** *** Zero-filling *)
Definition zeros (n : nat) : bytes := replicate n NUL.

(** The declared length of an entry lies in its memory. *)
Definition lens_ok (e : ListEntry) : Prop := 0 <= elen e <= len (buf e).
(** What zero-filling leaves of an entry's data: it goes as far as the declared length. *)
Definition zdata (rel : bool) (e : ListEntry) : bytes :=
  zeros (Nat.min (Z.to_nat (elen e)) (length (edata rel e))) ++ drop (Z.to_nat (elen e)) (edata rel e).
Definition zdatas (rel : bool) (es : list ListEntry) : bytes := concat (map (zdata rel) es).
Definition zero_data (rel : bool) (chain : list GcBufferList) : bytes :=
  concat (map (fun bl => zdatas rel (used bl)) chain).

Lemma zero_entry_spec rel e : entry_ok rel e -> lens_ok e ->
  exists e', zero_entry e = inr e' /\ elen e' = elen e /\ length (buf e') = length (buf e) /\ edata rel e' = zdata rel e.
Proof.
  intros Hok [H1 H2]. destruct Hok as [H3 H4]. unfold zero_entry. replace (len (buf e) <? elen e) with false by lia.
  eexists. split; [done|]. unfold len in *. split_and!; [done| |].
  - cbn. rewrite length_app, length_replicate, length_drop. lia.
  - unfold zdata, edata. replace (esize rel {| buf := _; elen := _ |}) with (esize rel e) by by destruct rel. cbn [buf].
    rewrite take_app, take_replicate, length_replicate, length_take, skipn_firstn_comm. unfold zeros. do 2 f_equal; lia.
Qed.

Lemma zero_entries_spec rel n es : (n <= length es)%nat -> Forall (entry_ok rel) (take n es) -> Forall lens_ok (take n es) ->
  exists es', zero_entries n es = inr es' /\
    map (fun e => (elen e, length (buf e))) es = map (fun e => (elen e, length (buf e))) es' /\
    edatas rel (take n es') = zdatas rel (take n es).
Proof.
  revert es. induction n as [|n IH]; intros es Hn Hf Hl; [by exists es|].
  destruct es as [|e es]; [cbn in Hn; lia|]. cbn in Hn, Hf, Hl. apply Forall_cons in Hf as [He Hf]. apply Forall_cons in Hl as [Hle Hl].
  destruct (zero_entry_spec rel _ He Hle) as (e' & H1 & H2 & H3 & H4).
  destruct (IH es) as (es' & H5 & H6 & H7); [lia|done..|].
  cbn. rewrite H1. cbn. rewrite H5. cbn. eexists. split; [done|].
  split; [cbn; by rewrite H2, H3, H6|]. unfold edatas, zdatas in *. cbn. by rewrite H4, H7.
Qed.

Lemma zero_chain_spec rel chain : Forall (list_ok rel) chain -> Forall (fun bl => Forall lens_ok (used bl)) chain ->
  exists chain', zero_chain chain = inr chain' /\ Forall2 same_shape chain chain' /\ chain_data rel chain' = zero_data rel chain.
Proof.
  intros Hok Hl. induction Hok as [|bl next Hbl Hn IH]; [by exists []|]. apply Forall_cons in Hl as [Hl Hln].
  destruct (IH Hln) as (next' & H1 & H2 & H3). destruct Hbl as (Hs & Hle & Hf).
  destruct (zero_entries_spec rel (Z.to_nat (entrySumList bl)) (entrys bl)) as (es' & H4 & H5 & H6);
    [rewrite Hle; lia|done|done|].
  cbn. rewrite H4. cbn. rewrite H1. cbn. eexists. split; [done|].
  split; [constructor; [by split|done]|]. unfold chain_data, zero_data in *. cbn.
  rewrite H3. f_equal. unfold used at 1. cbn. exact H6.
Qed.

Lemma zdata_length rel e : length (zdata rel e) = length (edata rel e).
Proof. unfold zdata, zeros. rewrite length_app, length_replicate, length_drop. lia. Qed.

(** Entries whose data is no longer than the declared length end up all zero. *)
Lemma zdata_zeros rel e : len (edata rel e) <= elen e -> zdata rel e = zeros (length (edata rel e)).
Proof.
  intros Hl. unfold zdata, len in *. rewrite drop_ge, app_nil_r by lia. f_equal. lia.
Qed.

Lemma zero_data_zeros rel chain : Forall (fun bl => Forall (fun e => len (edata rel e) <= elen e) (used bl)) chain ->
  zero_data rel chain = zeros (length (chain_data rel chain)).
Proof.
  assert (forall n m, zeros (n + m) = zeros n ++ zeros m) as Hz by (intros; apply replicate_add).
  assert (forall es, Forall (fun e => len (edata rel e) <= elen e) es -> zdatas rel es = zeros (length (edatas rel es))) as Hes.
  { unfold zdatas, edatas. induction 1 as [|e es He Hes IH]; [done|]. cbn [map concat]. by rewrite length_app, Hz, zdata_zeros, IH. }
  unfold zero_data, chain_data. induction 1 as [|bl next Hb Hn IH]; [done|]. cbn [map concat]. by rewrite length_app, Hz, Hes, IH.
Qed.

Lemma packed_shape chain chain' : Forall2 same_shape chain chain' -> packed chain -> packed chain'.
Proof.
  induction 1 as [|b b' n n' Hb Hn IH]; [done|]. destruct Hn as [|b2 b2' n n' Hb2 Hn]; [done|].
  intros [H64 Hp]. split; [destruct Hb as [<- _]; done|by apply IH].
Qed.

Lemma chain_data_length rel chain chain' :
  Forall2 same_shape chain chain' -> length (chain_data rel chain) = length (chain_data rel chain').
Proof.
  assert (forall es es', map (fun e => (elen e, length (buf e))) es =
            map (fun e => (elen e, length (buf e))) es' ->
            length (edatas rel es) = length (edatas rel es')) as Hes.
  { induction es as [|e es IH]; intros [|e' es'] Hm; try done. cbn in Hm. injection Hm as H1 H2 H3.
    unfold edatas in *. cbn. rewrite !length_app, (IH _ H3). f_equal. unfold edata, esize.
    rewrite !length_take, H2. destruct rel; by rewrite ?H1. }
  induction 1 as [|b b' n n' [Hb1 Hb2] Hn IH]; [done|]. unfold chain_data in *. cbn.
  rewrite !length_app, IH. f_equal. apply Hes. unfold used. by rewrite <- !firstn_map, Hb1, Hb2.
Qed.

(** C27: gathering a well-formed chain of buffer lists (page-sized or
    length-sized entries) into a write appends exactly the first [len1] bytes
    the chain holds, between the alignment buffers; no entry beyond
    [entrySumList] of its list and no byte beyond an entry's length is read. *)
Theorem write_bl_gathers (rel : bool) (chain : list GcBufferList) (len1 : Z)
  (prev back : bytes)
  (Hok : Forall (list_ok rel) chain) (Hl : 0 <= len1 < 2 ^ 32)
  (Hd : len1 <= len (chain_data rel chain)) :
  write_bl_data chain len1
    (Some {| prevAlignBuffer := Some prev; prevAlignLen := len prev;
             backAlignBuffer := Some back; backAlignLen := len back |}) rel =
  inr (prev ++ take (Z.to_nat len1) (chain_data rel chain) ++ back).
Proof.
  unfold write_bl_data. rewrite u32_small, gather_chain by (done || lia).
  assert (forall b, align (Some b) (len b) = inr b) as Ha.
  { intros b. unfold align. destruct (len b =? 0) eqn:E; bprop.
    - destruct b; [done|]. rewrite len_cons in E. pose proof (len_nonneg b). lia.
    - rewrite Z.ltb_irrefl. unfold len. by rewrite Nat2Z.id, take_ge. }
  cbn [prevAlignBuffer prevAlignLen backAlignBuffer backAlignLen]. by rewrite !Ha.
Qed.

(** C28: a read of less than 2^32 bytes, scattered into a packed chain of page-sized or
    length-sized entries that has room for them, overwrites exactly the beginning of the
    chain's data with the bytes that came back. When these are as many as asked for, the
    rest of the data stays; otherwise the rest is what zero-filling leaves of it, which
    goes as far as the declared length of each entry: all zero with length-sized entries
    and with page-sized ones that declare a page, while an entry of a page that declares
    less keeps what stands behind it. The shape of the chain is kept, and a write of the
    chain then sends the bytes that were read (round trip). *)
Theorem read_bl_scatters (rel : bool) (chain : list GcBufferList) (want : Z) (results : bytes)
  (Hok : Forall (list_ok rel) chain) (Hlens : Forall (fun bl => Forall lens_ok (used bl)) chain) (Hp : packed chain)
  (Hd : len results <= len (chain_data rel chain)) (H32 : len results < 2 ^ 32) :
  (exists chain', read_bl chain want rel results = inr chain' /\
    Forall2 same_shape chain chain' /\
    chain_data rel chain' =
      results ++ drop (length results) (if len results =? want then chain_data rel chain else zero_data rel chain) /\
    write_bl_data chain' (len results) None rel = inr results) /\
  length (zero_data rel chain) = length (chain_data rel chain) /\
  (rel = false \/ Forall (fun bl => Forall (fun e => DEFAULT_BL_PAGE <= elen e) (used bl)) chain ->
   zero_data rel chain = zeros (length (chain_data rel chain))).
Proof.
  assert (exists chain0, (if len results =? want then inr chain else zero_chain chain) = inr chain0 /\
    Forall2 same_shape chain chain0 /\ chain_data rel chain0 =
      (if len results =? want then chain_data rel chain else zero_data rel chain)) as (chain0 & H1 & Hs0 & Hd0).
  { destruct (len results =? want); [|by apply zero_chain_spec].
    exists chain. split_and!; [done|apply Forall2_same_shape_refl|done]. }
  pose proof (chain_ok_shape _ _ _ Hs0 Hok) as Hok0. pose proof (packed_shape _ _ Hs0 Hp) as Hp0.
  pose proof (chain_data_length rel _ _ Hs0) as Hl0. split; [|split].
  - unfold read_bl. rewrite H1. cbn [bind_res]. pose proof (len_nonneg results).
    rewrite u32_small by lia. unfold len at 1. rewrite Nat2Z.id, take_ge by done.
    replace (chain_fuel chain) with (chain_fuel chain0) by (unfold chain_fuel; by rewrite (Forall2_length _ _ _ Hs0)).
    destruct (scatter_chain rel chain0 results) as (chain' & H2 & Hs' & Hd'); [done..|unfold len in *; lia|].
    exists chain'. split; [done|].
    assert (Forall2 same_shape chain chain') as Hsh.
    { clear -Hs0 Hs'. revert chain' Hs'. induction Hs0; intros c' Hc'; inv Hc'; constructor;
        [by eapply same_shape_trans|by apply IHHs0]. }
    split; [done|]. split; [by rewrite Hd', Hd0|].
    unfold write_bl_data. cbn [bind_res align]. rewrite u32_small by lia. rewrite gather_chain.
    + cbn. rewrite Hd', app_nil_r. unfold splice, len. by rewrite Nat2Z.id, take_app_length.
    + by eapply chain_ok_shape.
    + split; [done|]. rewrite Hd'. unfold splice. rewrite len_app.
      pose proof (len_nonneg (drop (length results) (chain_data rel chain0))). lia.
  - clear. unfold zero_data, chain_data, zdatas, edatas. induction chain as [|bl next IH]; [done|]. cbn. rewrite !length_app, IH. f_equal.
    induction (used bl) as [|e es IHe]; [done|]. cbn. by rewrite !length_app, zdata_length, IHe.
  - intros Hr. apply zero_data_zeros. clear -Hok Hr. apply Forall_forall. intros bl Hbl. rewrite Forall_forall in Hok.
    destruct (Hok _ Hbl) as (_ & _ & He). apply Forall_forall. intros e Hin. rewrite Forall_forall in He.
    rewrite (edata_length _ _ (He _ Hin)). destruct Hr as [->|Hr]; [done|]. rewrite Forall_forall in Hr. specialize (Hr _ Hbl).
    rewrite Forall_forall in Hr. specialize (Hr _ Hin). unfold esize. destruct rel; [exact Hr|done].
Qed.

(** *** Concrete chains *)
Definition no_entry : ListEntry := {| buf := []; elen := 0 |}.
(** A list using [n] entries of [sz] bytes [c], the rest of its array unset. *)
Definition mk_list (n : nat) (sz : nat) (c : ascii) : GcBufferList :=
  {| entrySumList := Z.of_nat n;
     entrys := replicate n {| buf := replicate sz c; elen := Z.of_nat sz |}
               ++ replicate (64 - n) no_entry |}.

(** 64 entries of 3 bytes, then 2. *)
Definition chain2 : list GcBufferList := [mk_list 64 3 "a"; mk_list 2 3 "b"].

Lemma chain2_ok : Forall (list_ok false) chain2.
Proof.
  assert (forall n sz c, 0 < Z.of_nat n <= 64 -> list_ok false (mk_list n sz c)) as H.
  { intros n sz c Hn. split; [done|]. split; [cbn; rewrite length_app, !length_replicate; lia|].
    unfold used. cbn. rewrite Nat2Z.id, take_app_length' by by rewrite length_replicate.
    apply Forall_replicate. unfold entry_ok, esize, len. cbn. rewrite length_replicate. lia. }
  unfold chain2. rewrite !Forall_cons. split_and!; [apply H; lia..|constructor].
Qed.

Lemma write_bl_gathers_witness :
  write_bl_data chain2 194
    (Some {| prevAlignBuffer := Some (bs "<<"); prevAlignLen := 2;
             backAlignBuffer := Some (bs ">"); backAlignLen := 1 |}) false =
  inr (bs "<<" ++ replicate 192 "a"%char ++ bs "bb" ++ bs ">").
Proof.
  transitivity (inr (A := fault) (bs "<<" ++ take (Z.to_nat 194) (chain_data false chain2) ++ bs ">")).
  - apply (write_bl_gathers false chain2 194 (bs "<<") (bs ">") chain2_ok); vm_compute; intuition discriminate.
  - vm_compute. reflexivity.
Defined.

(** A page that declares 10 of its bytes. *)
Definition page_chain : list GcBufferList :=
  [{| entrySumList := 1; entrys := {| buf := replicate 4096 "a"%char; elen := 10 |} :: replicate 63 no_entry |}].

Lemma page_chain_ok : Forall (list_ok true) page_chain /\ Forall (fun bl => Forall lens_ok (used bl)) page_chain.
Proof.
  split; apply Forall_singleton.
  - split; [vm_compute; intuition discriminate|]. split; [reflexivity|]. apply Forall_singleton. vm_compute. intuition discriminate.
  - apply Forall_singleton. vm_compute. intuition discriminate.
Qed.

Lemma chain2_lens : Forall (fun bl => Forall lens_ok (used bl)) chain2.
Proof. eapply Forall_impl; [exact chain2_ok|]. intros bl (_ & _ & H). exact H. Qed.

(** A short read of 193 bytes where 198 were asked for; one of 3 bytes where 20 were asked
    for, into the page. *)
Lemma read_bl_scatters_witness :
  (exists chain', read_bl chain2 198 false (replicate 193 "x"%char) = inr chain' /\
    chain_data false chain' = replicate 193 "x"%char ++ replicate 5 NUL) /\
  (exists chain', read_bl page_chain 20 true (bs "xyz") = inr chain' /\
    chain_data true chain' = bs "xyz" ++ replicate 7 NUL ++ replicate 4086 "a"%char).
Proof.
  split.
  - destruct (proj1 (read_bl_scatters false chain2 198 (replicate 193 "x"%char) chain2_ok chain2_lens ltac:(vm_compute; auto)
      ltac:(vm_compute; discriminate) ltac:(vm_compute; reflexivity))) as (c & H1 & _ & H2 & _).
    exists c. split; [exact H1|]. rewrite H2. vm_compute. reflexivity.
  - destruct (proj1 (read_bl_scatters true page_chain 20 (bs "xyz") (proj1 page_chain_ok) (proj2 page_chain_ok) I
      ltac:(vm_compute; discriminate) ltac:(vm_compute; reflexivity))) as (c & H1 & _ & H2 & _).
    exists c. split; [exact H1|]. rewrite H2. vm_compute. reflexivity.
Defined.

(** A one-entry list whose other entries are left over from an earlier use of
    the structure: a length, but no memory. *)
Definition reused_list (c : ascii) : GcBufferList :=
  {| entrySumList := 1;
     entrys := {| buf := [c]; elen := 1 |} :: replicate 63 {| buf := []; elen := 1 |} |}.

(** [ReadCallback] walks all 64 entries of a list where the write path
    and the zero-filling stop at [entrySumList]: on a chain of two lists that
    use one entry each, a two-byte read runs into the first list's unused
    second entry and accesses memory that is not there, although the chain
    holds two bytes and the write path sends exactly those. *)
Theorem scatter_ignores_entrySumList :
  let chain := [reused_list "a"; reused_list "b"] in
  Forall (list_ok false) chain /\ write_bl_data chain 2 None false = inr (bs "ab") /\
  read_bl chain 2 false (bs "yz") = inl Overrun.
Proof.
  split; [|split; vm_compute; reflexivity].
  repeat constructor; vm_compute; intuition discriminate.
Qed.
End GcBuffer.

(** ** Batched operations *)
Module RadosOp.
Import GcBuffer.

(** The calls the builders make on [librados::ObjectOperation], in order; each
    carries a copy of its buffers, as librados takes one. *)
Inductive subop :=
| set_op_flags2 (flags : Z)
| assert_exists
| assert_version (ver : Z)
| cmpext (off : Z) (bl : bytes)
| cmpxattr (name : bytes) (compOperator : Z) (bl : bytes)
| omap_cmp (assertions : gmap bytes (bytes * Z))
| setxattr (name bl : bytes)
| rmxattr (name : bytes)
| create (exclusive : bool)
| write (off : Z) (bl : bytes)
| remove
| omap_set (entries : gmap bytes bytes)
| omap_rm_keys (keys : gset bytes)
| omap_clear
| set_alloc_hint2 (expectedObjSize expectedWriteSize flags : Z)
| getxattr (name : bytes)
| getxattrs
| omap_get_vals2 (start : bytes) (maxReturn : Z)
| omap_get_keys2 (start : bytes) (maxReturn : Z)
| stat
| read (off len : Z)
| checksum (type : Z) (init : bytes) (off len chunkSize : Z)
| exec (cls method inbl : bytes).

Record RadosObjectWriteOp := { w_op : list subop; isRemove : bool; w_bl : bytes }.

(** [RadosWriteOpInit], [RadosWriteOpInit2] *)
Definition RadosWriteOpInit : RadosObjectWriteOp := {| w_op := []; isRemove := false; w_bl := [] |}.

Definition w_add (s : subop) (w : RadosObjectWriteOp) : RadosObjectWriteOp :=
  {| w_op := w_op w ++ [s]; isRemove := isRemove w; w_bl := w_bl w |}.

Definition RadosWriteOpSetFlags (flags : Z) := w_add (set_op_flags2 flags).
Definition RadosWriteOpAssertExists := w_add assert_exists.
Definition RadosWriteOpAssertVersion (ver : Z) := w_add (assert_version ver).
Definition RadosWriteOpCmpext (cmpBuf : bytes) (off : Z) := w_add (cmpext off cmpBuf).
Definition RadosWriteOpCmpXattr (name : bytes) (compOperator : Z) (value : bytes) :=
  w_add (cmpxattr (c_str name) compOperator value).
(** The [bl] and [lkey] the function builds are not put into [assertions]. *)
Definition RadosWriteOpOmapCmp (key : bytes) (compOperator : Z) (value : bytes) := w_add (omap_cmp ∅).
Definition RadosWriteOpSetXattr (name value : bytes) := w_add (setxattr (c_str name) value).
Definition RadosWriteOpRemoveXattr (name : bytes) := w_add (rmxattr (c_str name)).
Definition RadosWriteOpCreateObject (exclusive : Z) := w_add (create (negb (exclusive =? 0))).

(** [None] stands for a null [buffer]. *)
Definition RadosWriteOpWrite (buffer : option bytes) (off : Z) (w : RadosObjectWriteOp) : RadosObjectWriteOp :=
  match buffer with
  | None => w
  | Some b => let bl := w_bl w ++ b in
              {| w_op := w_op w ++ [write off bl]; isRemove := isRemove w; w_bl := bl |}
  end.

Definition RadosWriteOpWriteBl (chain : list GcBufferList) (len1 off : Z) (ab : option AlignBuffer)
    (isRelease : bool) (w : RadosObjectWriteOp) : fault + RadosObjectWriteOp :=
  match chain with
  | [] => inr w
  | _ => bind_res (write_bl_data chain len1 ab isRelease) (fun d =>
         let bl := w_bl w ++ d in
         inr {| w_op := w_op w ++ [write off bl]; isRemove := isRemove w; w_bl := bl |})
  end.

Definition RadosWriteOpRemove (w : RadosObjectWriteOp) : RadosObjectWriteOp :=
  {| w_op := w_op w ++ [remove]; isRemove := true; w_bl := w_bl w |}.

(** Later duplicates of a key win, as in the source's loop. *)
Definition RadosWriteOpOmapSet (kvs : list (bytes * bytes)) :=
  w_add (omap_set (fold_left (fun m '(k, v) => <[c_str k := v]> m) kvs ∅)).
Definition RadosWriteOpOmapRmKeys (keys : list bytes) :=
  w_add (omap_rm_keys (list_to_set (map c_str keys))).
Definition RadosWriteOpOmapClear := w_add omap_clear.
Definition RadosWriteOpSetAllocHint (eo ew flags : Z) := w_add (set_alloc_hint2 eo ew flags).

(** *** Read operations *)

(** The [std::map]s of the iterators, in key order; a map iterator is the key it
    stands on, [None] being [end()]. *)
Record RadosXattrsIter := { attrset : list (bytes * bytes); x_i : option bytes }.
Record RadosOmapIter := { values : list (bytes * bytes); o_i : option bytes; keys : list bytes }.

(** [reqCtx]: the memory behind each pointer the caller registered. *)
Record reqContext := {
  read_buffer : option bytes;
  read_bytesRead : option Z;
  readbl_bl : option (list GcBufferList);
  readbl_len : Z;
  readbl_buildType : bool;
  xattr_name : option bytes;
  xattr_vals : bytes;
  omap_iter : option RadosOmapIter;
  xattrs_iter : option RadosXattrsIter;
  checksum_p : option bytes;
  chunkSumLen : Z
}.

Record RadosObjectReadOp := { r_op : list subop; reqCtx : reqContext }.

Definition no_req : reqContext :=
  {| read_buffer := None; read_bytesRead := None; readbl_bl := None; readbl_len := 0;
     readbl_buildType := false; xattr_name := None; xattr_vals := []; omap_iter := None;
     xattrs_iter := None; checksum_p := None; chunkSumLen := 0 |}.

Definition RadosReadOpInit : RadosObjectReadOp := {| r_op := []; reqCtx := no_req |}.

Definition r_add (s : subop) (r : RadosObjectReadOp) : RadosObjectReadOp :=
  {| r_op := r_op r ++ [s]; reqCtx := reqCtx r |}.

Definition RadosReadOpSetFlags (flags : Z) := r_add (set_op_flags2 flags).
Definition RadosReadOpAssertExists := r_add assert_exists.
Definition RadosReadOpAssertVersion (ver : Z) := r_add (assert_version ver).
Definition RadosReadOpCmpext (cmpBuf : bytes) (off : Z) := r_add (cmpext off cmpBuf).
Definition RadosReadOpCmpXattr (name : bytes) (compOperator : Z) (value : bytes) :=
  r_add (cmpxattr (c_str name) compOperator value).
Definition RadosReadOpOmapCmp (key : bytes) (compOperator : Z) (val : bytes) :=
  r_add (omap_cmp {[ c_str key := (val, compOperator) ]}).
Definition RadosReadOpStat := r_add stat.

Definition RadosReadOpGetXattr (name vals : bytes) (r : RadosObjectReadOp) : RadosObjectReadOp :=
  let c := reqCtx r in
  {| r_op := r_op r ++ [getxattr (c_str name)];
     reqCtx := {| read_buffer := read_buffer c; read_bytesRead := read_bytesRead c;
                  readbl_bl := readbl_bl c; readbl_len := readbl_len c;
                  readbl_buildType := readbl_buildType c; xattr_name := Some (c_str name);
                  xattr_vals := vals; omap_iter := omap_iter c; xattrs_iter := xattrs_iter c;
                  checksum_p := checksum_p c; chunkSumLen := chunkSumLen c |} |}.

(** [alloc]: could the iterator be allocated?  If not, the operation stays as it is. *)
Definition RadosReadOpGetXattrs (alloc : bool) (r : RadosObjectReadOp) : RadosObjectReadOp :=
  if negb alloc then r else
  let c := reqCtx r in
  {| r_op := r_op r ++ [getxattrs];
     reqCtx := {| read_buffer := read_buffer c; read_bytesRead := read_bytesRead c;
                  readbl_bl := readbl_bl c; readbl_len := readbl_len c;
                  readbl_buildType := readbl_buildType c; xattr_name := xattr_name c;
                  xattr_vals := xattr_vals c; omap_iter := omap_iter c;
                  xattrs_iter := Some {| attrset := []; x_i := None |};
                  checksum_p := checksum_p c; chunkSumLen := chunkSumLen c |} |}.

(** [RadosReadOpOmapGetVals], [RadosReadOpOmapGetKeys]: [want_keys] selects. *)
Definition RadosReadOpOmapGet (alloc want_keys : bool) (startAfter : option bytes) (maxReturn : Z)
    (r : RadosObjectReadOp) : RadosObjectReadOp :=
  if negb alloc then r else
  let c := reqCtx r in
  let start := match startAfter with Some s => c_str s | None => [] end in
  {| r_op := r_op r ++ [if want_keys then omap_get_keys2 start maxReturn
                        else omap_get_vals2 start maxReturn];
     reqCtx := {| read_buffer := read_buffer c; read_bytesRead := read_bytesRead c;
                  readbl_bl := readbl_bl c; readbl_len := readbl_len c;
                  readbl_buildType := readbl_buildType c; xattr_name := xattr_name c;
                  xattr_vals := xattr_vals c;
                  omap_iter := Some {| values := []; o_i := None; keys := [] |};
                  xattrs_iter := xattrs_iter c;
                  checksum_p := checksum_p c; chunkSumLen := chunkSumLen c |} |}.

(** A null [buffer] or [bytesRead] makes the call a no-op. *)
Definition RadosReadOpRead (offset len : Z) (buffer : option bytes) (bytesRead : option Z)
    (r : RadosObjectReadOp) : RadosObjectReadOp :=
  match buffer, bytesRead with
  | Some b, Some n =>
      let c := reqCtx r in
      {| r_op := r_op r ++ [read offset len];
         reqCtx := {| read_buffer := Some b; read_bytesRead := Some n;
                      readbl_bl := readbl_bl c; readbl_len := readbl_len c;
                      readbl_buildType := readbl_buildType c; xattr_name := xattr_name c;
                      xattr_vals := xattr_vals c; omap_iter := omap_iter c;
                      xattrs_iter := xattrs_iter c;
                      checksum_p := checksum_p c; chunkSumLen := chunkSumLen c |} |}
  | _, _ => r
  end.

Definition RadosReadOpReadBl (offset len : Z) (bl : option (list GcBufferList)) (isRelease : bool)
    (r : RadosObjectReadOp) : RadosObjectReadOp :=
  let c := reqCtx r in
  {| r_op := r_op r ++ [read offset len];
     reqCtx := {| read_buffer := read_buffer c; read_bytesRead := read_bytesRead c;
                  readbl_bl := bl; readbl_len := len; readbl_buildType := isRelease;
                  xattr_name := xattr_name c; xattr_vals := xattr_vals c;
                  omap_iter := omap_iter c; xattrs_iter := xattrs_iter c;
                  checksum_p := checksum_p c; chunkSumLen := chunkSumLen c |} |}.

Definition RadosReadOpCheckSum (type : Z) (init : bytes) (offset len chunkSize : Z)
    (pCheckSum : bytes) (checkSumLen : Z) (r : RadosObjectReadOp) : RadosObjectReadOp :=
  let c := reqCtx r in
  {| r_op := r_op r ++ [checksum type init offset len chunkSize];
     reqCtx := {| read_buffer := read_buffer c; read_bytesRead := read_bytesRead c;
                  readbl_bl := readbl_bl c; readbl_len := readbl_len c;
                  readbl_buildType := readbl_buildType c; xattr_name := xattr_name c;
                  xattr_vals := xattr_vals c; omap_iter := omap_iter c;
                  xattrs_iter := xattrs_iter c;
                  checksum_p := Some pCheckSum; chunkSumLen := checkSumLen |} |}.

(** The pointers for the output are recorded too, but nothing ever reads them. *)
Definition RadosReadOpExec (cls method inBuf : bytes) (r : RadosObjectReadOp) : RadosObjectReadOp :=
  {| r_op := r_op r ++ [exec (c_str cls) (c_str method) inBuf]; reqCtx := reqCtx r |}.

(** *** Completion of a read *)

(** What librados filled in by the time [ReadCallback] runs. *)
Record answer := {
  a_ret : Z; a_results : bytes; a_xattrs : gmap bytes bytes;
  a_attrset : list (bytes * bytes); a_values : list (bytes * bytes); a_keys : list bytes;
  a_checksums : bytes
}.

Definition memcpy (dst src : bytes) : fault + bytes :=
  if len dst <? len src then inl Overrun else inr (src ++ drop (length src) dst).

(** [iter->values[k]]: an entry with an empty value if there is none. *)
Definition touch (k : bytes) (m : list (bytes * bytes)) : list (bytes * bytes) :=
  smap_insert_new k [] m.

Definition begin_of {A} (m : list (bytes * A)) : option bytes := fst <$> head m.

(** The body of [ReadCallback] up to the user's callback, for [ret == 0]. *)
Definition deliver (a : answer) (c : reqContext) : fault + reqContext :=
  bind_res (match read_buffer c with
            | Some b => bind_res (memcpy b (a_results a)) (fun b' => inr (Some b', readbl_bl c))
            | None => match readbl_bl c with
                      | Some chain => bind_res (read_bl chain (readbl_len c) (readbl_buildType c) (a_results a))
                                        (fun ch => inr (None, Some ch))
                      | None => inr (None, None)
                      end
            end) (fun '(buf', bl') =>
  bind_res (match xattr_name c with
            | Some n => memcpy (xattr_vals c) (default [] (a_xattrs a !! n))
            | None => inr (xattr_vals c)
            end) (fun vals' =>
  let xit := match xattrs_iter c with
             | Some _ => Some {| attrset := a_attrset a; x_i := begin_of (a_attrset a) |}
             | None => None end in
  let oit := match omap_iter c with
             | Some _ => Some {| values := fold_left (fun m k => touch k m) (a_keys a) (a_values a);
                                 o_i := begin_of (a_values a); keys := a_keys a |}
             | None => None end in
  bind_res (match checksum_p c with
            | Some p => if len (a_checksums a) <? chunkSumLen c then inl Overrun else
                        bind_res (memcpy p (take (Z.to_nat (chunkSumLen c)) (a_checksums a)))
                                 (fun p' => inr (Some p'))
            | None => inr None
            end) (fun sum' =>
  inr {| read_buffer := buf'; read_bytesRead := read_bytesRead c; readbl_bl := bl';
         readbl_len := readbl_len c; readbl_buildType := readbl_buildType c;
         xattr_name := xattr_name c; xattr_vals := vals'; omap_iter := oit; xattrs_iter := xit;
         checksum_p := sum'; chunkSumLen := chunkSumLen c |}))).

(** [ReadCallback]: the caller's memory afterwards, and what its callback gets. *)
Definition ReadCallback (a : answer) (r : RadosObjectReadOp) : fault + (Z * RadosObjectReadOp) :=
  if a_ret a =? 0 then
    bind_res (deliver a (reqCtx r)) (fun c => inr (0, {| r_op := r_op r; reqCtx := c |}))
  else inr (a_ret a, r).

(** [WriteCallback] hands the return value on. *)
Definition WriteCallback (ret : Z) : Z := ret.

(** *** Iterators *)
Fixpoint succ_key (k : bytes) (m : list (bytes * bytes)) : option bytes :=
  match m with
  | [] => None
  | (k', _) :: m' => if bytes_eqb k k' then begin_of m' else succ_key k m'
  end.
Fixpoint assoc (k : bytes) (m : list (bytes * bytes)) : option bytes :=
  match m with
  | [] => None
  | (k', v) :: m' => if bytes_eqb k k' then Some v else assoc k m'
  end.

(** [RadosOmapGetNext]: the key and value handed out, [None] being the nulls and
    zero lengths of the end. *)
Definition RadosOmapGetNext (it : RadosOmapIter) : option (bytes * bytes) * RadosOmapIter :=
  match o_i it with
  | None => (None, it)
  | Some k => (v ← assoc k (values it); Some (k, v),
               {| values := values it; o_i := succ_key k (values it); keys := keys it |})
  end.

Definition RadosOmapIterSize (it : RadosOmapIter) : Z := len (values it).

(** [RadosGetXattrsNext]: an empty value is handed out as null with length 0; [malloc]
    tells whether the copy of another one can be made. *)
Definition RadosGetXattrsNext (malloc : bool) (it : RadosXattrsIter)
  : Z * option (bytes * option bytes) * RadosXattrsIter :=
  match x_i it with
  | None => (0, None, it)
  | Some k =>
      let bl := default [] (assoc k (attrset it)) in
      let blLen := len bl in
      if negb (blLen =? 0) && negb malloc then (- ENOMEM, None, it)
      else (0, Some (k, if blLen =? 0 then None else Some bl),
            {| attrset := attrset it; x_i := succ_key k (attrset it) |})
  end.

Fixpoint omap_iterate (n : nat) (it : RadosOmapIter) : list (option (bytes * bytes)) :=
  match n with
  | O => []
  | S n' => let '(r, it') := RadosOmapGetNext it in r :: omap_iterate n' it'
  end.

(** *** Submission *)
Inductive op_type := BATCH_READ_OP | BATCH_WRITE_OP | OTHER_OP (n : Z).

(** [RadosOperationAioOperate]: its result, and whether a completion was
    registered (for which librados then calls back). *)
Definition RadosOperationAioOperate (t : op_type) (aio_operate : Z) : Z * bool :=
  match t with
  | BATCH_READ_OP | BATCH_WRITE_OP => (aio_operate, true)
  | OTHER_OP _ => (- EINVAL, false)
  end.

Definition RadosOperationOperate (t : op_type) (operate : Z) : Z :=
  match t with BATCH_READ_OP | BATCH_WRITE_OP => operate | OTHER_OP _ => 0 end.

(** ** Theorems *)

(** A sequence of [RadosWriteOpWrite] calls on one operation. *)
Definition writes (l : list (bytes * Z)) : RadosObjectWriteOp :=
  fold_left (fun w '(b, off) => RadosWriteOpWrite (Some b) off w) l RadosWriteOpInit.

Lemma writes_snoc l b off :
  writes (l ++ [(b, off)]) = RadosWriteOpWrite (Some b) off (writes l).
Proof. unfold writes. by rewrite fold_left_app. Qed.

Lemma writes_bl l : w_bl (writes l) = concat (map fst l).
Proof.
  induction l as [|[b off] l IH] using rev_ind; [done|].
  rewrite writes_snoc, map_app, concat_app. cbn. by rewrite IH, app_nil_r.
Qed.

(** The i-th write recorded in an operation starts at the i-th offset but
    carries the data of {e all} writes so far, because [writeOp->bl] is never
    reset: only a first write sends exactly the caller's buffer. *)
Theorem writes_accumulate (l : list (bytes * Z)) (i : nat) :
  w_op (writes l) !! i =
  ('(b, off) ← l !! i; Some (write off (concat (map fst (take (S i) l))))).
Proof.
  induction l as [|[b off] l IH] using rev_ind; [done|].
  rewrite writes_snoc. cbn. assert (length (w_op (writes l)) = length l) as Hlen.
  { clear. induction l as [|[b off] l IH] using rev_ind; [done|].
    rewrite writes_snoc. cbn. rewrite !length_app, IH. done. }
  destruct (decide (i < length l)%nat) as [Hi|Hi].
  - rewrite !lookup_app_l by lia. rewrite IH. rewrite take_app_le by lia. done.
  - destruct (decide (i = length l)) as [->|Hne].
    + rewrite !lookup_app_r by lia. rewrite Hlen, Nat.sub_diag. cbn.
      rewrite writes_bl, take_ge by (rewrite length_app; cbn; lia).
      by rewrite map_app, concat_app; cbn; rewrite app_nil_r.
    + rewrite !lookup_ge_None_2; [done| |]; rewrite length_app; cbn; lia.
Qed.

(** The write builder's omap comparison sends librados no assertion at
    all, whatever key, operator and value the caller gave (the read builder
    sends the one asked for): a guarded write is not guarded. *)
Theorem write_omap_cmp_unguarded (key value : bytes) (compOperator : Z) :
  w_op (RadosWriteOpOmapCmp key compOperator value RadosWriteOpInit) = [omap_cmp ∅] /\
  r_op (RadosReadOpOmapCmp key compOperator value RadosReadOpInit) =
    [omap_cmp {[ c_str key := (value, compOperator) ]}].
Proof. done. Qed.

Lemma iterate_end n it : o_i it = None -> omap_iterate n it = replicate n None.
Proof.
  revert it. induction n as [|n IH]; intros it Hi; [done|]. cbn.
  unfold RadosOmapGetNext. rewrite Hi. cbn. by rewrite IH.
Qed.

Lemma iterate_from pre m n ks :
  NoDup (map fst (pre ++ m)) ->
  omap_iterate (length m + n) {| values := pre ++ m; o_i := begin_of m; keys := ks |} =
  map Some m ++ replicate n None.
Proof.
  revert pre. induction m as [|[k v] m IH]; intros pre Hnd; [by apply iterate_end|].
  assert (k ∉ map fst pre) as Hk.
  { rewrite map_app, NoDup_app in Hnd. destruct Hnd as (_ & Hd & _). intros Hin.
    apply (Hd _ Hin). by left. }
  assert (assoc k (pre ++ (k, v) :: m) = Some v /\ succ_key k (pre ++ (k, v) :: m) = begin_of m)
    as [Ha Hs].
  { clear -Hk. unfold bytes_eqb in *. induction pre as [|[k' v'] pre IH]; cbn.
    - unfold bytes_eqb. by rewrite bool_decide_eq_true_2.
    - cbn in Hk. apply not_elem_of_cons in Hk as [Hne Hk]. unfold bytes_eqb.
      rewrite bool_decide_eq_false_2 by done. by apply IH. }
  cbn [length plus omap_iterate]. unfold RadosOmapGetNext. cbn [o_i values keys begin_of head fmap option_fmap option_map fst].
  rewrite Ha, Hs. cbn [mbind option_bind]. change (map Some ((k, v) :: m) ++ replicate n None)
    with (Some (k, v) :: (map Some m ++ replicate n None)). f_equal.
  specialize (IH (pre ++ [(k, v)])). rewrite <- app_assoc in IH. by apply IH.
Qed.

(** When a read of omap values completes, [RadosOmapGetNext] hands out
    every pair once, in key order, and then the end marker for as long as it is
    called, and [RadosOmapIterSize] is the number of pairs. *)
Theorem omap_iteration (a : answer) (r r' : RadosObjectReadOp) (start : option bytes) (max : Z)
  (Ha : a_ret a = 0) (Hnd : NoDup (map fst (a_values a))) (Hk : a_keys a = [])
  (Hr : ReadCallback a (RadosReadOpOmapGet true false start max r) = inr (0, r')) :
  exists it, omap_iter (reqCtx r') = Some it /\ RadosOmapIterSize it = len (a_values a) /\
    forall n, omap_iterate (length (a_values a) + n) it = map Some (a_values a) ++ replicate n None.
Proof.
  exists {| values := a_values a; o_i := begin_of (a_values a); keys := [] |}. split; [|split].
  - unfold ReadCallback in Hr. rewrite Ha in Hr. cbn [Z.eqb] in Hr.
    destruct (deliver a _) as [|c] eqn:Ed; cbn in Hr; [done|]. injection Hr as <-.
    unfold deliver in Ed. cbn [RadosReadOpOmapGet negb reqCtx omap_iter] in Ed. rewrite Hk in Ed.
    repeat match type of Ed with
    | bind_res ?x _ = inr _ => destruct x as [?|?] eqn:?; cbn [bind_res] in Ed; [done|]
    | (let '(_, _) := ?x in _) = _ => destruct x
    | match ?x with (_, _) => _ end = _ => destruct x
    end. by injection Ed as <-.
  - done.
  - intros n. exact (iterate_from [] (a_values a) n [] Hnd).
Qed.

Definition ans0 : answer :=
  {| a_ret := 0; a_results := []; a_xattrs := ∅; a_attrset := [];
     a_values := [(bs "k1", bs "v1"); (bs "k2", [])]; a_keys := []; a_checksums := [] |}.

Lemma omap_iteration_witness :
  exists r' it, ReadCallback ans0 (RadosReadOpOmapGet true false None 10 RadosReadOpInit) = inr (0, r') /\
    omap_iter (reqCtx r') = Some it /\
    omap_iterate 3 it = [Some (bs "k1", bs "v1"); Some (bs "k2", []); None].
Proof.
  eexists.
  edestruct (omap_iteration ans0 RadosReadOpInit _ None 10 eq_refl
              ltac:(repeat constructor; set_solver) eq_refl eq_refl) as (it & H1 & _ & H2).
  exists it. split; [vm_compute; reflexivity|]. split; [exact H1|exact (H2 1%nat)].
Defined.

(** The iterator of a read of omap keys is set to [values.begin()] while [values] is
    still empty, that is to the end, and only then the keys are put into [values]: the
    caller can never iterate over them. *)
Lemma omap_keys_never_iterated (a : answer) (r r' : RadosObjectReadOp) (start : option bytes) (max : Z)
  (Ha : a_ret a = 0) (Hv : a_values a = []) (Hr : ReadCallback a (RadosReadOpOmapGet true true start max r) = inr (0, r')) :
  exists it, omap_iter (reqCtx r') = Some it /\ keys it = a_keys a /\ forall n, omap_iterate n it = replicate n None.
Proof.
  eexists. split; [|split].
  - unfold ReadCallback in Hr. rewrite Ha in Hr. cbn [Z.eqb] in Hr.
    destruct (deliver a _) as [|c] eqn:Ed; cbn in Hr; [done|]. injection Hr as <-.
    unfold deliver in Ed. cbn [RadosReadOpOmapGet negb reqCtx omap_iter] in Ed.
    repeat match type of Ed with
    | bind_res ?x _ = inr _ => destruct x as [?|?] eqn:?; cbn [bind_res] in Ed; [done|]
    | (let '(_, _) := ?x in _) = _ => destruct x
    | match ?x with (_, _) => _ end = _ => destruct x
    end. by injection Ed as <-.
  - done.
  - intros n. apply iterate_end. cbn. by rewrite Hv.
Qed.

Lemma omap_keys_never_iterated_witness :
  let a := {| a_ret := 0; a_results := []; a_xattrs := ∅; a_attrset := []; a_values := []; a_keys := [bs "k1"; bs "k2"]; a_checksums := [] |} in
  exists r' it, ReadCallback a (RadosReadOpOmapGet true true None 10 RadosReadOpInit) = inr (0, r') /\
    omap_iter (reqCtx r') = Some it /\ keys it = [bs "k1"; bs "k2"] /\ omap_iterate 2 it = [None; None].
Proof.
  eexists. edestruct (omap_keys_never_iterated {| a_ret := 0; a_results := []; a_xattrs := ∅; a_attrset := []; a_values := [];
    a_keys := [bs "k1"; bs "k2"]; a_checksums := [] |} RadosReadOpInit _ None 10 eq_refl eq_refl eq_refl) as (it & H1 & H2 & H3).
  exists it. split; [vm_compute; reflexivity|]. split; [exact H1|]. split; [exact H2|exact (H3 2%nat)].
Defined.

(** A failed read touches none of the caller's memory and passes the error
    to its callback; a successful one into a flat buffer replaces exactly the
    bytes that were read -- and the caller's [bytesRead] keeps its old value,
    although the interface documents it as the number of bytes read. *)
Theorem ReadCallback_flat (a : answer) (r : RadosObjectReadOp) (offset n : Z) (b : bytes) (br : Z)
  (Hr : reqCtx r = no_req) (Hl : len (a_results a) <= len b) :
  exists r', ReadCallback a (RadosReadOpRead offset n (Some b) (Some br) r) = inr (a_ret a, r') /\
    read_buffer (reqCtx r') =
      Some (if a_ret a =? 0 then a_results a ++ drop (length (a_results a)) b else b) /\
    read_bytesRead (reqCtx r') = Some br.
Proof.
  unfold ReadCallback, RadosReadOpRead. rewrite Hr. destruct (a_ret a =? 0) eqn:E; bprop.
  - cbn. unfold deliver. cbn. unfold memcpy. replace (len b <? len (a_results a)) with false by lia.
    cbn. rewrite E. by eexists.
  - by eexists.
Qed.

Lemma ReadCallback_flat_witness :
  let a := {| a_ret := 0; a_results := bs "abc"; a_xattrs := ∅; a_attrset := []; a_values := [];
              a_keys := []; a_checksums := [] |} in
  exists r', ReadCallback a (RadosReadOpRead 0 5 (Some (bs "....." )) (Some 77) RadosReadOpInit) =
               inr (0, r') /\ read_buffer (reqCtx r') = Some (bs "abc..") /\
             read_bytesRead (reqCtx r') = Some 77.
Proof.
  intros a. destruct (ReadCallback_flat a RadosReadOpInit 0 5 (bs ".....") 77 eq_refl) as (r' & H1 & H2 & H3).
  - vm_compute. discriminate.
  - exists r'. split; [exact H1|]. split; [exact H2|exact H3].
Defined.
End RadosOp.
