(* ===== verification/ProxyTools.v ===== *)
(** * [RadosWrapper.cc]: binding librados' threads to cores, and the check of the cluster

    - [ThreadBinding]: the threads of the process that belong to librados are found by
      their names in [/proc] and bound to the configured cores;
    - [CephStatus]: [ceph_status], which connects to the cluster to see whether it
      answers. *)

From S2P Require Import Prelude CStr.

Module ThreadBinding.

(** What [opendir]/[readdir] tell of a directory: an error number or the names in it. *)
Definition easy_readdir (dir : Z + list bytes) : Z * list bytes :=
  match dir with
  | inl errno => (- errno, [])
  | inr names => (0, map fst (smap_of (map (fun n => (n, tt))
                       (filter (fun n => n <> bs "." /\ n <> bs "..") names))))
  end.

Record threads := { vecBindMsgr : list Z; vecBindDispatch : list Z; vecBindFnRadosClient : list Z }.

(** A file that cannot be opened, one without a line, or its first line. *)
Inductive status := NoFile | NoLine | Line (line : bytes).

(** The conditional [push_back] of a thread number. *)
Definition push_if (b : bool) (tid : Z) (l : list Z) : list Z := if b then l ++ [tid] else l.

(** One round of the loop; a file that is gone is skipped. *)
Definition classify (path : bytes) (read : bytes -> status) (v : threads) (i : bytes) : threads :=
  match read (path ++ bs "/" ++ i ++ bs "/status") with
  | NoFile | NoLine => v
  | Line line =>
      let tid := u64 (st_val (strtol 10 i)) in
      {| vecBindMsgr := push_if (contains (bs "msgr-worker-") line) tid (vecBindMsgr v);
         vecBindDispatch := push_if (contains (bs "ms_dispatch") line) tid (vecBindDispatch v);
         vecBindFnRadosClient := push_if (contains (bs "fn-radosclient") line) tid (vecBindFnRadosClient v) |}
  end.

(** [sprintf(path, "/proc/%d/task", pid)] *)
Definition task_dir (pid : Z) : bytes := bs "/proc/" ++ to_string pid ++ bs "/task".

Definition FindRadosThread (pid : Z) (readdir : bytes -> Z + list bytes) (read : bytes -> status) : threads :=
  let none := {| vecBindMsgr := []; vecBindDispatch := []; vecBindFnRadosClient := [] |} in
  let path := task_dir pid in
  let '(r, ls) := easy_readdir (readdir path) in
  if negb (r =? 0) then none else fold_left (classify path read) ls none.

(** [CPU_SET] ignores what does not fit into a [cpu_set_t]. *)
Definition CPU_SETSIZE : Z := 1024.
Definition cpu_set (coreId : list Z) : gset Z := list_to_set (filter (fun c => c < CPU_SETSIZE) coreId).

(** The arguments of [sched_setaffinity]; its failure is only logged. *)
Definition RadosBindCore (coreId : list Z) (ii : Z) : Z * gset Z := (s32 ii, cpu_set coreId).

(** The calls of [sched_setaffinity], in order. *)
Definition RadosBindMsgrWorker (readdir : bytes -> Z + list bytes) (read : bytes -> status) (coreId : list Z) (pid : Z)
  : list (Z * gset Z) :=
  let v := FindRadosThread pid readdir read in
  let bound := len (vecBindMsgr v) + len (vecBindDispatch v) in
  let bindCore := if bound <? len coreId then take (Z.to_nat bound) coreId else coreId in
  map (RadosBindCore bindCore) (vecBindMsgr v) ++ map (RadosBindCore bindCore) (vecBindDispatch v) ++
  map (RadosBindCore bindCore) (vecBindFnRadosClient v).

(** ** Which threads are bound *)

(** The threads of the process: their numbers, and what their status files say. *)
Definition task_list (tids : list Z) : Z + list bytes := inr (bs "." :: bs ".." :: map to_string tids).

Definition names (pat : bytes) (st : status) : bool := match st with Line l => contains pat l | _ => false end.

Section binding.
Context (pid : Z) (readdir : bytes -> Z + list bytes) (read : bytes -> status) (tids : list Z) (st : Z -> status).
Hypothesis (Hdir : readdir (task_dir pid) = task_list tids).
Hypothesis (Hread : forall tid, tid ∈ tids -> read (task_dir pid ++ bs "/" ++ to_string tid ++ bs "/status") = st tid).
Hypothesis (Htids : Forall (fun tid => 0 <= tid < 2 ^ 31) tids).
Hypothesis (Hdup : NoDup tids).

(** The threads found under a name, in the order of the directory's names. *)
Definition picked (pat : bytes) (ls : list bytes) : list Z :=
  map (fun i => u64 (st_val (strtol 10 i)))
      (filter (fun i => names pat (read (task_dir pid ++ bs "/" ++ i ++ bs "/status")) = true) ls).

Lemma push_if_picked b pat i ls v : b = names pat (read (task_dir pid ++ bs "/" ++ i ++ bs "/status")) ->
  push_if b (u64 (st_val (strtol 10 i))) v ++ picked pat ls = v ++ picked pat (i :: ls).
Proof.
  intros ->. unfold picked. rewrite filter_cons. unfold push_if. destruct (names _ _) eqn:E.
  - rewrite decide_True by done. by rewrite <- app_assoc.
  - by rewrite decide_False by done.
Qed.

Lemma classify_fold ls v : fold_left (classify (task_dir pid) read) ls v =
  {| vecBindMsgr := vecBindMsgr v ++ picked (bs "msgr-worker-") ls;
     vecBindDispatch := vecBindDispatch v ++ picked (bs "ms_dispatch") ls;
     vecBindFnRadosClient := vecBindFnRadosClient v ++ picked (bs "fn-radosclient") ls |}.
Proof.
  revert v. induction ls as [|i ls IH]; intros v; cbn [fold_left]; [destruct v; cbn; by rewrite !app_nil_r|]. rewrite IH.
  assert (forall pat w, match read (task_dir pid ++ bs "/" ++ i ++ bs "/status") with
      | Line line => push_if (contains pat line) (u64 (st_val (strtol 10 i))) w | _ => w end ++ picked pat ls = w ++ picked pat (i :: ls)) as H.
  { intros pat w. rewrite <- (push_if_picked _ pat i ls w eq_refl). by destruct (read _). }
  rewrite <- !H. unfold classify. by destruct (read _).
Qed.

Lemma to_string_inj a b : 0 <= a < 2 ^ 63 -> 0 <= b < 2 ^ 63 -> to_string a = to_string b -> a = b.
Proof.
  intros Ha Hb E. pose proof (strtol_to_string a Ha) as H. rewrite E, strtol_to_string in H by done. by injection H.
Qed.

Lemma names_of_tids : (easy_readdir (task_list tids)).1 = 0 /\ (easy_readdir (task_list tids)).2 ≡ₚ map to_string tids.
Proof.
  split; [done|]. cbn [easy_readdir task_list snd].
  assert (filter (fun n => n <> bs "." /\ n <> bs "..") (bs "." :: bs ".." :: map to_string tids) = map to_string tids) as ->.
  { rewrite filter_cons, decide_False by naive_solver. rewrite filter_cons, decide_False by naive_solver.
    clear -Htids. revert Htids. induction 1 as [|t ts Ht _ IH]; [done|]. cbn [map]. rewrite filter_cons, decide_True; [by rewrite IH|].
    split; intros E; pose proof (strtol_to_string t ltac:(lia)) as H; by rewrite E in H. }
  rewrite smap_of_perm.
  - rewrite map_map. cbn. by rewrite map_id.
  - rewrite map_map. cbn. rewrite map_id. clear -Htids Hdup. revert Htids Hdup. induction 1 as [|t ts Ht Hts IH]; cbn; intros Hdup; [constructor|].
    apply NoDup_cons in Hdup as [Hn Hd]. apply NoDup_cons. split; [|by apply IH].
    intros (t' & E & Hi)%list_elem_of_fmap. rewrite Forall_forall in Hts. specialize (Hts _ Hi).
    apply to_string_inj in E; [by subst|lia..].
Qed.

Lemma picked_tids pat ls : ls ≡ₚ map to_string tids -> picked pat ls ≡ₚ filter (fun t => names pat (st t) = true) tids.
Proof.
  intros Hl. unfold picked. rewrite Hl. clear Hl. revert Htids Hread. clear. intros Ht Hr.
  induction Ht as [|t ts Ht _ IH]; [done|]. cbn [map]. rewrite !filter_cons, Hr by left.
  destruct (decide (names pat (st t) = true)); cbn [map]; rewrite IH by (intros; apply Hr; by right); [|done].
  rewrite strtol_to_string by lia. cbn. by rewrite u64_small by lia.
Qed.

(** How many threads carry a name. *)
Definition count (pat : bytes) : Z := len (filter (fun t => names pat (st t) = true) tids).

(** [RadosBindMsgrWorker] binds the threads of librados and no others.  The calls
    of [sched_setaffinity] are for the threads whose name is that of a messenger
    worker, of a dispatcher or of the client's own thread; a thread that is gone by the
    time its name is read is passed over.  All get the same cores: the first of the
    configured ones, at most as many as there are workers and dispatchers. *)
Theorem RadosBindMsgrWorker_spec (coreId : list Z) :
  let calls := RadosBindMsgrWorker readdir read coreId pid in
  let bound := Z.min (count (bs "msgr-worker-") + count (bs "ms_dispatch")) (len coreId) in
  (forall tid, tid ∈ map fst calls <->
     tid ∈ tids /\ exists pat, pat ∈ [bs "msgr-worker-"; bs "ms_dispatch"; bs "fn-radosclient"] /\ names pat (st tid) = true) /\
  Forall (fun c => snd c = cpu_set (take (Z.to_nat bound) coreId)) calls.
Proof.
  intros calls bound. subst calls. unfold RadosBindMsgrWorker, FindRadosThread. rewrite Hdir.
  destruct (easy_readdir (task_list tids)) as [r ls] eqn:E. destruct names_of_tids as [Hr Hls]. rewrite E in Hr, Hls. cbn in Hr, Hls. subst r.
  cbn [Z.eqb negb]. rewrite classify_fold. cbn [vecBindMsgr vecBindDispatch vecBindFnRadosClient app].
  pose proof (fun pat => picked_tids pat ls Hls) as Hp.
  assert (forall pat, len (picked pat ls) = count pat) as Hlen by (intros pat; unfold len, count; by rewrite (Hp pat)).
  rewrite !Hlen. set (n := count _ + count _) in *.
  assert (forall cores pat tid, tid ∈ map fst (map (RadosBindCore cores) (picked pat ls)) <-> tid ∈ tids /\ names pat (st tid) = true) as Hin.
  { intros cores pat tid. rewrite map_map. cbn. rewrite (Hp pat). split.
    - intros (t & -> & [H1 H2]%list_elem_of_filter)%list_elem_of_fmap. rewrite Forall_forall in Htids. specialize (Htids t H2).
      by rewrite s32_small by lia.
    - intros [Ht Hn]. apply list_elem_of_fmap. exists tid. rewrite Forall_forall in Htids. specialize (Htids tid Ht).
      split; [by rewrite s32_small by lia|]. by apply list_elem_of_filter. }
  split.
  - intros tid. rewrite !map_app, !elem_of_app, !Hin. set_solver.
  - assert ((if n <? len coreId then take (Z.to_nat n) coreId else coreId) = take (Z.to_nat bound) coreId) as ->.
    { subst bound. destruct (n <? len coreId) eqn:El; bprop; [by rewrite Z.min_l by lia|].
      rewrite Z.min_r by lia. unfold len. by rewrite Nat2Z.id, firstn_all. }
    rewrite !Forall_app, !Forall_fmap. split_and!; apply Forall_forall; by intros.
Qed.
End binding.

(** Four threads, of which one ends before its status is read. *)
Definition status0 (tid : Z) : status :=
  if tid =? 7 then Line (bs "Name: msgr-worker-0") else if tid =? 12 then Line (bs "Name: ms_dispatch")
  else if tid =? 3 then Line (bs "Name: bash") else NoFile.
Definition read0 (path : bytes) : status :=
  default NoFile (snd <$> list_find (fun x => True)
    (map status0 (filter (fun t => task_dir 3 ++ bs "/" ++ to_string t ++ bs "/status" = path) [3; 7; 12; 40]))).

Lemma RadosBindMsgrWorker_spec_witness :
  RadosBindMsgrWorker (fun _ => task_list [3; 7; 12; 40]) read0 [2; 4; 6] 3 = [(7, {[ 2; 4 ]}); (12, {[ 2; 4 ]})] /\
  forall tid, tid ∈ map fst (RadosBindMsgrWorker (fun _ => task_list [3; 7; 12; 40]) read0 [2; 4; 6] 3) -> tid ∈ [3; 7; 12; 40].
Proof.
  split; [vm_compute; reflexivity|]. intros tid Ht.
  refine (proj1 (proj1 (proj1 (RadosBindMsgrWorker_spec 3 (fun _ => task_list [3; 7; 12; 40]) read0 [3; 7; 12; 40] status0 _ _ _ _ [2; 4; 6]) tid) Ht)).
  - reflexivity.
  - intros t Hi. repeat (apply elem_of_cons in Hi as [->|Hi]; [vm_compute; reflexivity|]). by apply not_elem_of_nil in Hi.
  - repeat (constructor; [lia|]). constructor.
  - apply (bool_decide_unpack _). vm_compute. exact I.
Defined.
End ThreadBinding.

Module CephStatus.
Section status.
(** [GetCfgItemCstr] for a key of the section [proxy], and librados. *)
Context (GetCfgItemCstr : bytes -> Z * bytes).
Context (conf_read_file : bytes -> Z) (conf_get : bytes -> Z * bytes) (connect cluster_stat : Z).

(** What is done with the handle: the options set on it, and whether it was shut down. *)
Record cluster := { options : list (bytes * bytes); down : bool }.

Definition rados_conf_set (o v : bytes) (c : cluster) : cluster :=
  {| options := options c ++ [(o, v)]; down := down c |}.

Definition proxyConfigSet (c : cluster) : Z * cluster :=
  let '(ret, cephConfPath) := GetCfgItemCstr (bs "ceph_conf_path") in
  if negb (ret =? 0) then (ret, c) else
  let '(ret, keyRingPath) := GetCfgItemCstr (bs "ceph_keyring_path") in
  if negb (ret =? 0) then (ret, c) else
  let ret := conf_read_file (c_str cephConfPath) in
  if negb (ret =? 0) then (ret, c) else
  let '(ret, authCluster) := conf_get (bs "auth_cluster_required") in
  if negb (ret =? 0) then (ret, c) else
  let c := rados_conf_set (bs "client_mount_timeout") (bs "0.9") c in
  let c := rados_conf_set (bs "rados_mon_op_timeout") (bs "0.9") c in
  (0, if bytes_eqb (c_str authCluster) (bs "cephx") then rados_conf_set (bs "keyring") (c_str keyRingPath) c else c).

(** The result of [rados_create] is ignored. *)
Definition ceph_status : bool * cluster :=
  let c := {| options := []; down := false |} in
  let '(ret, c) := proxyConfigSet c in
  if negb (ret =? 0) then (false, c) else
  if negb (connect =? 0) then (false, c) else
  (cluster_stat =? 0, {| options := options c; down := true |}).

Ltac failed_call F :=
  try rewrite (proj2 (Z.eqb_neq _ _) F); try destruct (bytes_eqb _ _); cbn [negb fst snd down rados_conf_set];
  (split_and!; [split; [done|]|done|done]);
  intros (? & ? & ? & ? & ? & ? & ? & ? & ?); congruence.

(** [ceph_status] is true exactly when the configuration could be read, the
    connection was made and the cluster answered; then the two timeouts were set before,
    and the keyring if the cluster asks for cephx.  The handle is shut down exactly when
    the connection was made: every earlier failure leaks it. *)
Theorem ceph_status_spec :
  (fst ceph_status = true <->
   exists conf keyring auth, GetCfgItemCstr (bs "ceph_conf_path") = (0, conf) /\ GetCfgItemCstr (bs "ceph_keyring_path") = (0, keyring) /\
     conf_read_file (c_str conf) = 0 /\ conf_get (bs "auth_cluster_required") = (0, auth) /\ connect = 0 /\ cluster_stat = 0) /\
  (fst ceph_status = true -> down (snd ceph_status) = true) /\
  (down (snd ceph_status) = true -> connect = 0 /\
     exists keyring auth, GetCfgItemCstr (bs "ceph_keyring_path") = (0, keyring) /\ conf_get (bs "auth_cluster_required") = (0, auth) /\
       options (snd ceph_status) = [(bs "client_mount_timeout", bs "0.9"); (bs "rados_mon_op_timeout", bs "0.9")] ++
         (if bytes_eqb (c_str auth) (bs "cephx") then [(bs "keyring", c_str keyring)] else [])).
Proof.
  unfold ceph_status, proxyConfigSet.
  destruct (GetCfgItemCstr (bs "ceph_conf_path")) as [r1 conf]. destruct (r1 =? 0) eqn:F1; cbn [negb]; bprop; subst; [|by failed_call F1].
  destruct (GetCfgItemCstr (bs "ceph_keyring_path")) as [r2 kr]. destruct (r2 =? 0) eqn:F2; cbn [negb]; bprop; subst; [|by failed_call F2].
  destruct (conf_read_file (c_str conf) =? 0) eqn:F3; cbn [negb]; bprop; [|by failed_call F3].
  destruct (conf_get (bs "auth_cluster_required")) as [r4 auth]. destruct (r4 =? 0) eqn:F4; cbn [negb]; bprop; subst; [|by failed_call F4].
  cbn [Z.eqb negb]. destruct (connect =? 0) eqn:F5; cbn [negb]; bprop; [|by failed_call F5].
  cbn [fst snd down options]. split_and!; [|done|].
  - split; [intros Hs; bprop; by exists conf, kr, auth|]. intros (? & ? & ? & _ & _ & _ & _ & _ & ->). done.
  - intros _. split; [done|]. exists kr, auth. split_and!; [done..|]. by destruct (bytes_eqb _ _).
Qed.
End status.
End CephStatus.
