(* ===== verification/WorkerLife.v ===== *)
(** * [RadosWorker.h]: making, starting and deleting a worker of a pool

    [RadosIOWorker.init] is a worker all of whose threads run.  Here are the parts of its
    life around that: what the constructor allocates and what it leaves behind when an
    allocation throws, threads that [pthread_create] refuses, the binding to cores, and
    the destructor, which gives arrays back with the wrong form of [delete]. *)

From S2P Require Import Prelude Utils RadosWorker WorkerStop ProxyTools.

(** ** The memory of a worker *)
Module WorkerMemory.
(** Objects, and the two arrays of pointers with their cells. *)
Inductive block := Thread (index : nat) | QueueObj | SemObj | Array (cells : list (option nat)).
Record heap := { next : nat; blocks : gmap nat block }.

(** [threadNum] is the length of the arrays. *)
Record t := { ioThreads : list nat; queue : nat; sem : nat; threadNum : nat }.

Section memory.
(** Does the allocation that would get address [a] succeed?  If not it throws. *)
Context (ok : nat -> bool).
(** Does the allocator take back with [delete] what [new[]] made?  The standard
    leaves that undefined. *)
Context (forgiving : bool).

Definition new (b : block) (h : heap) : heap + nat * heap :=
  if ok (next h) then inr (next h, {| next := S (next h); blocks := <[next h := b]> (blocks h) |}) else inl h.

(** [p[i] = v] *)
Definition store (p i v : nat) (h : heap) : heap :=
  match blocks h !! p with
  | Some (Array l) => {| next := next h; blocks := <[p := Array (<[i := Some v]> l)]> (blocks h) |}
  | _ => h
  end.

(** The loop of the constructor; [inl]: it is left by [std::bad_alloc]. *)
Fixpoint fill (n i : nat) (w : t) (h : heap) : heap + t * heap :=
  match n with
  | O => inr (w, h)
  | S n =>
      match new (Thread i) h with inl h => inl h | inr (x, h) =>
      let w := {| ioThreads := ioThreads w ++ [x]; queue := queue w; sem := sem w; threadNum := threadNum w |} in
      match new QueueObj h with inl h => inl h | inr (q, h) =>
      let h := store (queue w) i q h in
      match new SemObj h with inl h => inl h | inr (s, h) =>
      fill n (S i) w (store (sem w) i s h) end end end
  end.

Definition RadosIOWorker (tNum : nat) (h : heap) : heap + t * heap :=
  match new (Array (replicate tNum None)) h with inl h => inl h | inr (q, h) =>
  match new (Array (replicate tNum None)) h with inl h => inl h | inr (s, h) =>
  fill tNum 0 {| ioThreads := []; queue := q; sem := s; threadNum := tNum |} h end end.

(** [delete p] of an object, and of an array; [None] is undefined behaviour. *)
Definition delete_obj (p : nat) (h : heap) : option heap :=
  match blocks h !! p with
  | Some (Array _) => if forgiving then Some {| next := next h; blocks := delete p (blocks h) |} else None
  | Some _ => Some {| next := next h; blocks := delete p (blocks h) |}
  | None => None
  end.

Definition load (p i : nat) (h : heap) : option nat :=
  match blocks h !! p with Some (Array l) => mjoin (l !! i) | _ => None end.

Definition delete_threads (ts : list nat) (h : heap) : option heap :=
  fold_left (fun o x => h ← o; delete_obj x h) ts (Some h).
Definition delete_cells (w : t) (h : heap) : option heap :=
  fold_left (fun o i => h ← o; q ← load (queue w) i h; h ← delete_obj q h;
                        s ← load (sem w) i h; delete_obj s h) (seq 0 (threadNum w)) (Some h).

(** [~RadosIOWorker] *)
Definition destroy (w : t) (h : heap) : option heap :=
  h ← delete_threads (ioThreads w) h;
  h ← delete_cells w h;
  h ← delete_obj (queue w) h;
  delete_obj (sem w) h.
End memory.

(** *** Lemmas *)

Definition fresh (h : heap) : Prop := forall a, (next h <= a)%nat -> blocks h !! a = None.

(** A loop over [0 .. n-1] that cannot fail. *)
Lemma fold_seq {A} (f : A -> nat -> option A) (P : nat -> A -> Prop) (n : nat) : forall k a, P k a ->
  (forall j x, (k <= j < k + n)%nat -> P j x -> exists y, f x j = Some y /\ P (S j) y) ->
  exists y, fold_left (fun o i => x ← o; f x i) (seq k n) (Some a) = Some y /\ P (k + n)%nat y.
Proof.
  induction n as [|n IH]; intros k a Ha Hs; [exists a; by rewrite Nat.add_0_r|].
  destruct (Hs k a) as (y & Hy & Hp); [lia|done|]. cbn [seq fold_left mbind option_bind].
  destruct (IH (S k) y Hp) as (z & Hz & Hq); [intros; apply Hs; [lia|done]|].
  exists z. cbn in Hy. rewrite Hy, Hz. by replace (k + S n)%nat with (S k + n)%nat by lia.
Qed.

(** Where the objects of lane [i] are, the first array being at [n0]. *)
Definition thread_at (n0 i : nat) : nat := (n0 + 2 + 3 * i)%nat.
Definition queue_at (n0 i : nat) : nat := (n0 + 3 + 3 * i)%nat.
Definition sem_at (n0 i : nat) : nat := (n0 + 4 + 3 * i)%nat.

(** [k] lanes are made, [m] are not yet. *)
Record built (base : gmap nat block) (n0 k m : nat) (w : t) (h : heap) : Prop := {
  b_queue : queue w = n0;
  b_sem : sem w = S n0;
  b_threads : ioThreads w = map (thread_at n0) (seq 0 k);
  b_num : threadNum w = (k + m)%nat;
  b_next : next h = (n0 + 2 + 3 * k)%nat;
  b_other : forall a, (a < n0 \/ next h <= a)%nat -> blocks h !! a = base !! a;
  b_qs : blocks h !! n0 = Some (Array (map (Some ∘ queue_at n0) (seq 0 k) ++ replicate m None));
  b_ss : blocks h !! S n0 = Some (Array (map (Some ∘ sem_at n0) (seq 0 k) ++ replicate m None));
  b_lane : forall i, (i < k)%nat -> blocks h !! thread_at n0 i = Some (Thread i) /\
    blocks h !! queue_at n0 i = Some QueueObj /\ blocks h !! sem_at n0 i = Some SemObj
}.

(** Nothing made so far has been given back. *)
Definition kept (h h' : heap) : Prop :=
  (forall a, (a < next h)%nat -> blocks h' !! a = blocks h !! a) /\
  forall a, (next h <= a < next h')%nat -> is_Some (blocks h' !! a).

Lemma kept_new h h' b : kept h h' -> (next h <= next h')%nat ->
  kept h {| next := S (next h'); blocks := <[next h' := b]> (blocks h') |}.
Proof.
  intros [H1 H2] Hn. split; cbn; intros a Ha.
  - rewrite lookup_insert_ne by lia. by apply H1.
  - destruct (decide (a = next h')) as [->|Hne]; [rewrite lookup_insert_eq; by eexists|].
    rewrite lookup_insert_ne by done. apply H2. lia.
Qed.

Lemma kept_store h h' p i v : kept h h' -> (next h <= p)%nat -> kept h (store p i v h').
Proof.
  intros [H1 H2] Hp. unfold store. destruct (blocks h' !! p) as [[| | |l]|] eqn:E; try by split.
  split; cbn; intros a Ha; [rewrite lookup_insert_ne by lia; by apply H1|].
  destruct (decide (a = p)) as [->|Hne]; [rewrite lookup_insert_eq; by eexists|]. rewrite lookup_insert_ne by done. by apply H2.
Qed.

Lemma store_next p i v h : next (store p i v h) = next h.
Proof. unfold store. by destruct (blocks h !! p) as [[]|]. Qed.

Lemma cell_set (f : nat -> option nat) k m v :
  <[k := v]> (map f (seq 0 k) ++ replicate (S m) None) = map f (seq 0 k) ++ v :: replicate m None.
Proof. rewrite insert_app_r_alt; rewrite length_map, length_seq; [by rewrite Nat.sub_diag|done]. Qed.

(** One more lane. *)
Lemma built_step base n0 k m w h : built base n0 k (S m) w h ->
  built base n0 (S k) m {| ioThreads := ioThreads w ++ [thread_at n0 k]; queue := n0; sem := S n0; threadNum := threadNum w |}
    {| next := (n0 + 2 + 3 * S k)%nat;
       blocks := <[S n0 := Array (map (Some ∘ sem_at n0) (seq 0 k) ++ Some (sem_at n0 k) :: replicate m None)]>
                 (<[sem_at n0 k := SemObj]> (<[n0 := Array (map (Some ∘ queue_at n0) (seq 0 k) ++ Some (queue_at n0 k) :: replicate m None)]>
                 (<[queue_at n0 k := QueueObj]> (<[thread_at n0 k := Thread k]> (blocks h))))) |}.
Proof.
  intros [Hq Hs Ht Hn Hx Ho Hqs Hss Hl]. split; cbn [queue sem ioThreads threadNum next blocks]; unfold thread_at, queue_at, sem_at in *.
  - done.
  - done.
  - rewrite Ht, seq_S, map_app. done.
  - lia.
  - lia.
  - intros a Ha. rewrite !lookup_insert_ne by lia. apply Ho. lia.
  - rewrite !lookup_insert_ne, lookup_insert_eq by lia. by rewrite seq_S, map_app, <- app_assoc.
  - rewrite lookup_insert_eq. by rewrite seq_S, map_app, <- app_assoc.
  - intros i Hi. destruct (decide (i = k)) as [->|Hne].
    + split_and!; [do 4 rewrite lookup_insert_ne by lia|do 3 rewrite lookup_insert_ne by lia|rewrite lookup_insert_ne by lia];
        apply lookup_insert_eq.
    + rewrite !lookup_insert_ne by lia. apply Hl. lia.
Qed.

Lemma fill_spec ok h0 n0 m : n0 = next h0 -> forall k w h, built (blocks h0) n0 k m w h -> kept h0 h ->
  match fill ok m k w h with
  | inl h' => kept h0 h'
  | inr (w', h') => built (blocks h0) n0 (k + m) 0 w' h'
  end.
Proof.
  intros En. induction m as [|m IH]; intros k w h Hb Hk; [cbn; by rewrite Nat.add_0_r|].
  cbn [fill]. destruct Hb as [Hq Hs Ht Hn Hx Ho Hqs Hss Hl] eqn:Eb; clear Eb.
  unfold new at 1. destruct (ok (next h)); [|done]. pose proof (kept_new _ _ (Thread k) Hk ltac:(lia)) as Hk1.
  unfold new at 1. cbn [next blocks]. destruct (ok (S (next h))); [|done].
  pose proof (kept_new _ _ QueueObj Hk1 ltac:(cbn; lia)) as Hk2. cbn [next blocks] in Hk2. cbn [queue sem ioThreads threadNum].
  pose proof (kept_store _ _ (queue w) k (S (next h)) Hk2 ltac:(lia)) as Hk3.
  unfold new at 1. rewrite store_next. cbn [next]. destruct (ok (S (S (next h)))); [|done].
  apply (kept_new _ _ SemObj) in Hk3; [|rewrite store_next; cbn; lia]. rewrite store_next in Hk3. cbn [next] in Hk3.
  apply (kept_store _ _ (sem w) k (S (S (next h)))) in Hk3; [|lia].
  rewrite Nat.add_succ_r, <- Nat.add_succ_l. apply IH; [|exact Hk3].
  replace (store (sem w) k _ _) with
    {| next := (n0 + 2 + 3 * S k)%nat;
       blocks := <[S n0 := Array (map (Some ∘ sem_at n0) (seq 0 k) ++ Some (sem_at n0 k) :: replicate m None)]>
                 (<[sem_at n0 k := SemObj]> (<[n0 := Array (map (Some ∘ queue_at n0) (seq 0 k) ++ Some (queue_at n0 k) :: replicate m None)]>
                 (<[queue_at n0 k := QueueObj]> (<[thread_at n0 k := Thread k]> (blocks h))))) |}.
  { replace {| ioThreads := ioThreads w ++ [next h]; queue := queue w; sem := sem w; threadNum := threadNum w |} with
      {| ioThreads := ioThreads w ++ [thread_at n0 k]; queue := n0; sem := S n0; threadNum := threadNum w |}
      by (rewrite Hq, Hs, Hx; f_equal; f_equal; unfold thread_at; f_equal; lia).
    apply built_step. by split. }
  assert (store (queue w) k (S (next h)) {| next := S (S (next h)); blocks := <[S (next h):=QueueObj]> (<[next h:=Thread k]> (blocks h)) |} =
    {| next := S (S (next h)); blocks := <[n0 := Array (map (Some ∘ queue_at n0) (seq 0 k) ++ Some (queue_at n0 k) :: replicate m None)]>
         (<[queue_at n0 k := QueueObj]> (<[thread_at n0 k := Thread k]> (blocks h))) |}) as ->.
  { unfold store. cbn [blocks next]. rewrite Hq, !lookup_insert_ne, Hqs, cell_set by lia.
    replace (next h) with (thread_at n0 k) by (unfold thread_at; lia). replace (S (thread_at n0 k)) with (queue_at n0 k) by (unfold thread_at, queue_at; lia).
    done. }
  unfold store. cbn [blocks next]. rewrite Hs. rewrite lookup_insert_ne by lia. rewrite lookup_insert_ne by lia.
  rewrite !lookup_insert_ne, Hss, cell_set by (unfold queue_at, thread_at; lia).
  replace (S (S (next h))) with (sem_at n0 k) by (unfold sem_at; lia). f_equal. unfold sem_at. lia.
Qed.

Lemma RadosIOWorker_spec ok n h : fresh h ->
  match RadosIOWorker ok n h with
  | inl h' => kept h h'
  | inr (w, h') => built (blocks h) (next h) n 0 w h'
  end.
Proof.
  intros Hf. assert (kept h h) as Hk by (split; [done|intros; lia]). unfold RadosIOWorker.
  unfold new at 1. destruct (ok (next h)); [|done]. pose proof (kept_new _ _ (Array (replicate n None)) Hk ltac:(lia)) as Hk1.
  unfold new at 1. cbn [next blocks]. destruct (ok (S (next h))); [|done].
  pose proof (kept_new _ _ (Array (replicate n None)) Hk1 ltac:(cbn; lia)) as Hk2.
  apply (fill_spec ok h (next h) n eq_refl 0); [|exact Hk2].
  split; cbn [queue sem ioThreads threadNum next blocks map seq app]; try done; try lia.
  - intros a Ha. by rewrite !lookup_insert_ne by lia.
  - by rewrite lookup_insert_ne, lookup_insert_eq by lia.
  - by rewrite lookup_insert_eq.
Qed.

(** The blocks that satisfy [D] have been given back, the others are as they were. *)
Definition erased (D : nat -> Prop) (h h' : heap) : Prop :=
  (forall a, D a -> blocks h' !! a = None) /\ (forall a, ~ D a -> blocks h' !! a = blocks h !! a).

Definition is_array (b : block) : bool := match b with Array _ => true | _ => false end.

Lemma erased_ext D D' h h' : (forall a, D a <-> D' a) -> erased D h h' -> erased D' h h'.
Proof. intros He [H1 H2]. split; intros a Ha; [apply H1|apply H2]; by rewrite He. Qed.

Lemma delete_obj_erased fg D h h' p b : erased D h h' -> ~ D p -> blocks h !! p = Some b -> is_array b = false \/ fg = true ->
  exists h'', delete_obj fg p h' = Some h'' /\ erased (fun a => D a \/ a = p) h h''.
Proof.
  intros [H1 H2] Hp Hb Hf. assert (blocks h' !! p = Some b) as Hb' by by rewrite H2.
  exists {| next := next h'; blocks := delete p (blocks h') |}. split.
  - unfold delete_obj. rewrite Hb'. destruct b; try done. by destruct Hf as [|Hf]; [|rewrite Hf].
  - split; cbn; intros a Ha.
    + destruct (decide (a = p)) as [->|Hne]; [apply lookup_delete_eq|]. rewrite lookup_delete_ne by done. destruct Ha; [by apply H1|done].
    + rewrite lookup_delete_ne by (intros ->; apply Ha; by right). apply H2. intros Hd. apply Ha. by left.
Qed.

Definition thread_upto (n0 j a : nat) : Prop := exists i, (i < j)%nat /\ a = thread_at n0 i.
Definition cell_upto (n0 j a : nat) : Prop := exists i, (i < j)%nat /\ (a = queue_at n0 i \/ a = sem_at n0 i).

Lemma fold_left_seq_map {A B} (f : A -> B -> A) (g : nat -> B) l : forall a, fold_left f (map g l) a = fold_left (fun x i => f x (g i)) l a.
Proof. induction l as [|x l IH]; intros a; [done|]. cbn. apply IH. Qed.

Lemma delete_threads_spec fg base n0 n w h : built base n0 n 0 w h ->
  exists h', delete_threads fg (ioThreads w) h = Some h' /\ erased (thread_upto n0 n) h h'.
Proof.
  intros Hb. unfold delete_threads. rewrite (b_threads _ _ _ _ _ _ Hb), fold_left_seq_map.
  apply (fold_seq (fun x i => delete_obj fg (thread_at n0 i) x) (fun j x => erased (thread_upto n0 j) h x) n 0 h).
  { split; [|done]. intros a (i & Hi & _). lia. }
  intros j x Hj Hx. destruct (delete_obj_erased fg _ h x (thread_at n0 j) (Thread j) Hx) as (y & Hy & He).
  - intros (i & Hi & E). unfold thread_at in E. lia.
  - apply (b_lane _ _ _ _ _ _ Hb). lia.
  - by left.
  - exists y. split; [done|]. eapply erased_ext; [|exact He]. intros a. cbn. split.
    + intros [(i & Hi & ->)| ->]; eexists; (split; [|done]); lia.
    + intros (i & Hi & ->). destruct (decide (i = j)) as [->|]; [by right|left]. exists i. split; [lia|done].
Qed.

Lemma lane_cell (n i : nat) (f : nat -> nat) : (i < n)%nat ->
  mjoin ((map (Some ∘ f) (seq 0 n) ++ replicate 0 None) !! i) = Some (f i).
Proof. intros Hi. rewrite app_nil_r, list_lookup_fmap, lookup_seq_lt by done. done. Qed.

Lemma delete_cells_spec fg base n0 n w h h1 : built base n0 n 0 w h -> erased (thread_upto n0 n) h h1 ->
  exists h', delete_cells fg w h1 = Some h' /\ erased (fun a => thread_upto n0 n a \/ cell_upto n0 n a) h h'.
Proof.
  intros Hb H1. unfold delete_cells. rewrite (b_num _ _ _ _ _ _ Hb), Nat.add_0_r.
  rewrite (b_queue _ _ _ _ _ _ Hb), (b_sem _ _ _ _ _ _ Hb).
  apply (fold_seq (fun h i => q ← load n0 i h; h ← delete_obj fg q h; s ← load (S n0) i h; delete_obj fg s h)
    (fun j x => erased (fun a => thread_upto n0 n a \/ cell_upto n0 j a) h x) n 0 h1).
  { eapply erased_ext; [|exact H1]. intros a. split; [by left|]. intros [|(i & Hi & _)]; [done|lia]. }
  intros j x Hj Hx. cbv beta in Hx |- *. destruct (b_lane _ _ _ _ _ _ Hb j ltac:(lia)) as (_ & Hq & Hs).
  assert (forall a, a = n0 \/ a = S n0 -> ~ (thread_upto n0 n a \/ cell_upto n0 j a)) as Ha.
  { unfold thread_upto, cell_upto, thread_at, queue_at, sem_at. intros a Ha [(i & Hi & E)|(i & Hi & E)]; lia. }
  assert (load n0 j x = Some (queue_at n0 j)) as ->.
  { unfold load. rewrite (proj2 Hx) by (apply Ha; by left). by rewrite (b_qs _ _ _ _ _ _ Hb), lane_cell by lia. }
  cbn [mbind option_bind].
  destruct (delete_obj_erased fg _ h x (queue_at n0 j) QueueObj Hx) as (y & Hy & Hye); [|done|by left|].
  { unfold thread_upto, cell_upto, thread_at, queue_at, sem_at. intros [(i & Hi & E)|(i & Hi & E)]; lia. }
  rewrite Hy. cbn [mbind option_bind]. assert (load (S n0) j y = Some (sem_at n0 j)) as ->.
  { unfold load. rewrite (proj2 Hye).
    - by rewrite (b_ss _ _ _ _ _ _ Hb), lane_cell by lia.
    - intros [Hd|Hd]; [by apply (Ha (S n0)); [right|]|]. unfold queue_at in Hd. lia. }
  cbn [mbind option_bind].
  destruct (delete_obj_erased fg _ h y (sem_at n0 j) SemObj Hye) as (z & Hz & Hze); [|done|by left|].
  { unfold thread_upto, cell_upto, thread_at, queue_at, sem_at. intros [[(i & Hi & E)|(i & Hi & E)]|E]; lia. }
  exists z. split; [done|]. eapply erased_ext; [|exact Hze]. intros a. cbn. split.
  - intros [[[Ht|(i & Hi & E)]| ->]| ->]; [by left|right..]; eexists; (split; [|eauto]); lia.
  - intros [Ht|(i & Hi & E)]; [by do 3 left|]. destruct (decide (i = j)) as [->|].
    + destruct E as [-> | ->]; [left; by right|by right].
    + do 2 left. right. exists i. split; [lia|done].
Qed.

(** A worker that was made is given back completely when it is deleted - if the
    allocator accepts that the two arrays are released with [delete]; otherwise
    deleting any worker is undefined.  If an allocation throws, everything
    allocated until then is left behind: [new(std::nothrow)] does not cover the
    allocations inside the constructor. *)
Theorem worker_memory (ok : nat -> bool) (n : nat) (h : heap) (Hf : fresh h) :
  match RadosIOWorker ok n h with
  | inl h' => kept h h'
  | inr (w, h') => (exists h'', destroy true w h' = Some h'' /\ blocks h'' = blocks h) /\ destroy false w h' = None
  end.
Proof.
  pose proof (RadosIOWorker_spec ok n h Hf) as Hb. destruct (RadosIOWorker ok n h) as [h'|[w h']]; [done|].
  set (n0 := next h) in *.
  assert (forall fg, exists h2, (h1 ← delete_threads fg (ioThreads w) h'; delete_cells fg w h1) = Some h2 /\
    erased (fun a => thread_upto n0 n a \/ cell_upto n0 n a) h' h2) as Hd.
  { intros fg. destruct (delete_threads_spec fg _ _ _ _ _ Hb) as (h1 & H1 & E1).
    destruct (delete_cells_spec fg _ _ _ _ _ _ Hb E1) as (h2 & H2 & E2). exists h2. by rewrite H1. }
  assert (forall a, a = n0 \/ a = S n0 -> ~ (thread_upto n0 n a \/ cell_upto n0 n a)) as Ha.
  { unfold thread_upto, cell_upto, thread_at, queue_at, sem_at. intros a Ha [(i & Hi & E)|(i & Hi & E)]; lia. }
  split.
  - destruct (Hd true) as (h2 & H2 & E2).
    destruct (delete_obj_erased true _ _ _ n0 _ E2 (Ha n0 ltac:(by left)) (b_qs _ _ _ _ _ _ Hb) ltac:(by right)) as (h3 & H3 & E3).
    assert (~ ((thread_upto n0 n (S n0) \/ cell_upto n0 n (S n0)) \/ S n0 = n0)) as Hs.
    { intros [Hx|Hx]; [by apply (Ha (S n0)); [right|]|lia]. }
    destruct (delete_obj_erased true _ _ _ (S n0) _ E3 Hs (b_ss _ _ _ _ _ _ Hb) ltac:(by right)) as (h4 & H4 & E4).
    exists h4. split.
    + unfold destroy. apply bind_Some in H2 as (h1 & H1 & H2). rewrite H1. cbn. rewrite H2. cbn.
      rewrite (b_queue _ _ _ _ _ _ Hb), H3. cbn. by rewrite (b_sem _ _ _ _ _ _ Hb).
    + apply map_eq. intros a. destruct (decide (n0 <= a < n0 + 2 + 3 * n)%nat) as [Hin|Hout].
      * rewrite (Hf a) by (subst n0; lia). apply E4.
        unfold thread_upto, cell_upto, thread_at, queue_at, sem_at.
        destruct (decide (a = S n0)); [by right|]. left. destruct (decide (a = n0)); [by right|]. left.
        pose proof (Nat.div_mod_eq (a - n0 - 2) 3) as Hdm. pose proof (Nat.mod_upper_bound (a - n0 - 2) 3 ltac:(lia)) as Hm.
        set (i := ((a - n0 - 2) / 3)%nat) in *. set (r := ((a - n0 - 2) mod 3)%nat) in *.
        destruct (decide (r = 0)%nat); [left|right]; exists i; lia.
      * rewrite (proj2 E4).
        -- apply (b_other _ _ _ _ _ _ Hb). rewrite (b_next _ _ _ _ _ _ Hb). fold n0. lia.
        -- unfold thread_upto, cell_upto, thread_at, queue_at, sem_at. intros [[[(i & Hi & E)|(i & Hi & E)]|E]|E]; lia.
  - destruct (Hd false) as (h2 & H2 & E2). unfold destroy. apply bind_Some in H2 as (h1 & H1 & H2). rewrite H1. cbn. rewrite H2. cbn.
    assert (delete_obj false n0 h2 = None) as Hn.
    { unfold delete_obj. rewrite (proj2 E2) by (apply Ha; by left). by rewrite (b_qs _ _ _ _ _ _ Hb). }
    by rewrite (b_queue _ _ _ _ _ _ Hb), Hn.
Qed.
End WorkerMemory.

(** ** Starting the threads *)
Module WorkerStart.
Import RadosIOWorker.

Section threads.
Context (PAGE_SIZE : Z).

Definition workerName : string := "proxy_worker".

(** [StartProc]: [answers] has for each thread what [pthread_create] returns and what
    it leaves in [threadId]; the result is only logged. *)
Definition StartProc (answers : list (Z * Z)) (ioThreads : list MyThread.t) : list MyThread.t :=
  zip_with (fun a m => MyThread.Create PAGE_SIZE workerName 0 (fst a) (snd a) m) answers ioThreads.

(** [SetAffinitify]: the calls of [pthread_setaffinity_np]. *)
Definition SetAffinitify (cpuIds : list Z) (ioThreads : list MyThread.t) : list (Z * gset Z) :=
  if len cpuIds =? 0 then [] else map (fun m => (MyThread.threadId m, ThreadBinding.cpu_set cpuIds)) ioThreads.

(** The joins of [StopProc], [status] being what [pthread_join] returns for a thread. *)
Definition JoinAll (status : Z -> Z) (ioThreads : list MyThread.t) : list (Z * MyThread.t) :=
  map (fun m => MyThread.Join (status (MyThread.threadId m)) m) ioThreads.
End threads.

Section lanes.
Context {Q : Type -> Type} `{!FIFO Q}.
Context (hash : bytes -> Z) (threadNum : Z).

(** The lane of a thread that was refused: nobody runs [OpHandler], and the join
    returns at once. *)
Definition idle_lane : lane (Q := Q) :=
  {| queue := q_new; permits := 0; posting := 0; thread := Exited; done_log := [] |}.

(** The worker that [CreateIOWorker] puts into the table. *)
Definition started (answers : list (Z * Z)) : t (Q := Q) :=
  {| ioworkerStop := false; lanes := map (fun a => if fst a =? 0 then new_lane else idle_lane) answers; submitted := [] |}.

Lemma all_started answers : Forall (fun a => fst a = 0) answers -> len answers = threadNum ->
  started answers = init threadNum.
Proof.
  intros Ha Hn. unfold started, init. f_equal. rewrite <- Hn. unfold len. rewrite Nat2Z.id. clear Hn.
  induction Ha as [|[r id] l Hr _ IH]; [done|]. cbn in *. subst r. cbn. by f_equal.
Qed.

Lemma inv_started answers : inv hash threadNum (started answers).
Proof.
  intros i l Hl. cbn in Hl. rewrite list_lookup_fmap in Hl. apply fmap_Some in Hl as (a & _ & ->).
  exists []. destruct (fst a =? 0); (split_and!; try done; apply q_new_ok).
Qed.

(** A thread that could not be created is only logged: whatever happens later, every
    request of an object that is hashed to its lane is accepted with 0, and none of
    them is ever handled - its completion is never called. *)
Theorem refused_thread_starves (answers : list (Z * Z)) (r id : Z) (i : nat) (tr : list label) (s : t (Q := Q))
    (Hi : answers !! i = Some (r, id)) (Hr : r <> 0) (Hrun : run hash threadNum tr (started answers) = Some s) :
  (exists l, lanes s !! i = Some l /\ done_log l = [] /\
     q_rep (queue l) (filter (fun c => of_lane hash threadNum i c = true) (submits tr))) /\
  forall ctx, index_of hash threadNum (objectId (rc_op ctx)) = i -> is_Some (Queue hash threadNum ctx s).
Proof.
  assert (lanes (started answers) !! i = Some idle_lane) as Hl.
  { cbn. rewrite list_lookup_fmap, Hi. cbn. by rewrite (proj2 (Z.eqb_neq r 0) Hr). }
  destruct (exited_run _ _ _ _ _ i _ Hrun Hl eq_refl) as (l & Hl' & Hd). cbn in Hd.
  destruct (inv_run _ _ _ _ _ (inv_started answers) Hrun i l Hl') as (q & Hq & Hf & _). split.
  - exists l. split_and!; [done..|]. rewrite (submitted_run _ _ _ _ _ Hrun), Hd in Hf. cbn in Hf. by rewrite Hf.
  - intros ctx Hc. unfold Queue. rewrite Hc, Hl'. cbn. destruct (q_enq_ok _ _ ctx Hq) as (q' & He & _). rewrite He. by eexists.
Qed.
End lanes.

(** The second of two threads is refused: what is sent to its lane waits for ever. *)
Lemma refused_thread_starves_witness : exists s l,
  run (Q := ConcurrentQueue.t) RadosIOWorkerExamples.hash0 2 [Submit (RadosIOWorkerExamples.obj 1 "a"); Post 1; Submit (RadosIOWorkerExamples.obj 3 "a"); Post 1] (started [(0, 77); (11, 0)]) = Some s /\
  lanes s !! 1%nat = Some l /\ q_rep (queue l) [RadosIOWorkerExamples.obj 1 "a"; RadosIOWorkerExamples.obj 3 "a"].
Proof.
  eexists. epose proof (@refused_thread_starves ConcurrentQueue.t ConcurrentQueue_FIFO RadosIOWorkerExamples.hash0 2 [(0, 77); (11, 0)] 11 0 1
    [Submit (RadosIOWorkerExamples.obj 1 "a"); Post 1; Submit (RadosIOWorkerExamples.obj 3 "a"); Post 1] _
    ltac:(vm_compute; reflexivity) ltac:(lia) ltac:(vm_compute; reflexivity)) as [(l & Hl & _ & Hq) _].
  exists l. split; [vm_compute; reflexivity|]. split; [exact Hl|]. exact Hq.
Defined.

(** An affinity call is made even for a thread that does not exist. *)
Lemma affinity_of_refused page name_id cpus m : len cpus <> 0 ->
  SetAffinitify cpus (StartProc page [(11, name_id)] [m]) = [(name_id, ThreadBinding.cpu_set cpus)].
Proof. intros Hc. unfold SetAffinitify. by rewrite (proj2 (Z.eqb_neq _ _) Hc). Qed.
End WorkerStart.
