(* ===== verification/CephProxy.v ===== *)
(** * [PoolContext.h], [ConfigRead.cc], [CephProxy.cc]: the proxy object

    - [ProxyConfig]: reading [proxy.conf];
    - [IOCtxTable]: the two tables of I/O contexts;
    - [CephProxy]: start-up, the I/O contexts of every pool and client, the
      round-robin choice of a client, and shutdown. *)

From S2P Require Import Prelude CStr RadosWrapper.

(** ** [ConfigRead.cc] *)
Module ProxyConfig.

Record ProxyControlCfg := {
  cephConfPath : bytes; cephKeyringPath : bytes; coreIds : bytes;
  workerNum : Z; msgrAmount : Z; bindCore : Z; osdTimeout : Z; monTimeout : Z;
  ioWorkerNum : Z; radosCtxNum : Z
}.

(** [InitClusterCfg] *)
Definition InitClusterCfg : ProxyControlCfg :=
  {| cephConfPath := bs "/etc/ceph/ceph.conf";
     cephKeyringPath := bs "/etc/ceph/ceph.client.admin.keyring";
     coreIds := bs "26,27,28,29"; bindCore := 1; workerNum := 1; msgrAmount := 3;
     osdTimeout := 0; monTimeout := 0; ioWorkerNum := 1; radosCtxNum := 1 |}.

(** Assignments to one field of [g_ProxyCfg]. *)
Definition set_cephConfPath (v : bytes) (c : ProxyControlCfg) : ProxyControlCfg :=
  {| cephConfPath := v; cephKeyringPath := cephKeyringPath c; coreIds := coreIds c; workerNum := workerNum c;
     msgrAmount := msgrAmount c; bindCore := bindCore c; osdTimeout := osdTimeout c; monTimeout := monTimeout c;
     ioWorkerNum := ioWorkerNum c; radosCtxNum := radosCtxNum c |}.
Definition set_cephKeyringPath (v : bytes) (c : ProxyControlCfg) : ProxyControlCfg :=
  {| cephConfPath := cephConfPath c; cephKeyringPath := v; coreIds := coreIds c; workerNum := workerNum c;
     msgrAmount := msgrAmount c; bindCore := bindCore c; osdTimeout := osdTimeout c; monTimeout := monTimeout c;
     ioWorkerNum := ioWorkerNum c; radosCtxNum := radosCtxNum c |}.
Definition set_coreIds (v : bytes) (c : ProxyControlCfg) : ProxyControlCfg :=
  {| cephConfPath := cephConfPath c; cephKeyringPath := cephKeyringPath c; coreIds := v; workerNum := workerNum c;
     msgrAmount := msgrAmount c; bindCore := bindCore c; osdTimeout := osdTimeout c; monTimeout := monTimeout c;
     ioWorkerNum := ioWorkerNum c; radosCtxNum := radosCtxNum c |}.
Definition set_bindCore (v : Z) (c : ProxyControlCfg) : ProxyControlCfg :=
  {| cephConfPath := cephConfPath c; cephKeyringPath := cephKeyringPath c; coreIds := coreIds c; workerNum := workerNum c;
     msgrAmount := msgrAmount c; bindCore := v; osdTimeout := osdTimeout c; monTimeout := monTimeout c;
     ioWorkerNum := ioWorkerNum c; radosCtxNum := radosCtxNum c |}.
Definition set_osdTimeout (v : Z) (c : ProxyControlCfg) : ProxyControlCfg :=
  {| cephConfPath := cephConfPath c; cephKeyringPath := cephKeyringPath c; coreIds := coreIds c; workerNum := workerNum c;
     msgrAmount := msgrAmount c; bindCore := bindCore c; osdTimeout := v; monTimeout := monTimeout c;
     ioWorkerNum := ioWorkerNum c; radosCtxNum := radosCtxNum c |}.
Definition set_monTimeout (v : Z) (c : ProxyControlCfg) : ProxyControlCfg :=
  {| cephConfPath := cephConfPath c; cephKeyringPath := cephKeyringPath c; coreIds := coreIds c; workerNum := workerNum c;
     msgrAmount := msgrAmount c; bindCore := bindCore c; osdTimeout := osdTimeout c; monTimeout := v;
     ioWorkerNum := ioWorkerNum c; radosCtxNum := radosCtxNum c |}.
Definition set_ioWorkerNum (v : Z) (c : ProxyControlCfg) : ProxyControlCfg :=
  {| cephConfPath := cephConfPath c; cephKeyringPath := cephKeyringPath c; coreIds := coreIds c; workerNum := workerNum c;
     msgrAmount := msgrAmount c; bindCore := bindCore c; osdTimeout := osdTimeout c; monTimeout := monTimeout c;
     ioWorkerNum := v; radosCtxNum := radosCtxNum c |}.
Definition set_radosCtxNum (v : Z) (c : ProxyControlCfg) : ProxyControlCfg :=
  {| cephConfPath := cephConfPath c; cephKeyringPath := cephKeyringPath c; coreIds := coreIds c; workerNum := workerNum c;
     msgrAmount := msgrAmount c; bindCore := bindCore c; osdTimeout := osdTimeout c; monTimeout := monTimeout c;
     ioWorkerNum := ioWorkerNum c; radosCtxNum := v |}.

(** *** The getters *)
Definition ProxyGetCoreNumber (c : ProxyControlCfg) : bytes := coreIds c.
Definition ProxyGetCephConf (c : ProxyControlCfg) : bytes := cephConfPath c.
Definition ProxyGetCephKeyring (c : ProxyControlCfg) : bytes := cephKeyringPath c.
Definition ProxyGetWorkerNum (c : ProxyControlCfg) : Z := workerNum c.
Definition ProxyGetMsgrAmount (c : ProxyControlCfg) : Z := msgrAmount c.
Definition ProxyGetBindCore (c : ProxyControlCfg) : Z := bindCore c.
Definition ProxyGetOsdTimeOut (c : ProxyControlCfg) : Z := osdTimeout c.
Definition ProxyGetMonTimeOut (c : ProxyControlCfg) : Z := monTimeout c.
Definition ProxyGetOsdTimeOutOption : bytes := bs "rados_osd_op_timeout".
Definition ProxyGetMonTimeOutOption : bytes := bs "rados_mon_op_timeout".
Definition ProxyGetIoWorkerNum (c : ProxyControlCfg) : Z := ioWorkerNum c.
Definition ProxyRadosCtxNum (c : ProxyControlCfg) : Z := radosCtxNum c.

Section read.
(** The configuration library: for a key of the unit "proxy" and the old
    contents of the destination, the return value and the new contents. *)
Context (GetCfgItemCstr : bytes -> Z -> bytes -> Z * bytes).
Context (GetCfgItemUint32 GetCfgItemUint64 : bytes -> Z -> Z * Z).

Definition MAX_PATH_LEN : Z := 128.
Definition MAX_CORE_NUMBER : Z := 128.

(** [ReadConfig]: eight lookups, the first failing one ends it. *)
Definition ReadConfig (c : ProxyControlCfg) : Z * ProxyControlCfg :=
  let '(ret, v) := GetCfgItemCstr (bs "ceph_conf_path") (MAX_PATH_LEN + 1) (cephConfPath c) in
  let c := set_cephConfPath v c in
  if negb (ret =? 0) then (-1, c) else
  let '(ret, v) := GetCfgItemCstr (bs "ceph_keyring_path") (MAX_PATH_LEN + 1) (cephKeyringPath c) in
  let c := set_cephKeyringPath v c in
  if negb (ret =? 0) then (-1, c) else
  let '(ret, v) := GetCfgItemCstr (bs "core_number") (MAX_CORE_NUMBER + 1) (coreIds c) in
  let c := set_coreIds v c in
  if negb (ret =? 0) then (-1, c) else
  let '(ret, v) := GetCfgItemUint64 (bs "bind_core") (bindCore c) in
  let c := set_bindCore v c in
  if negb (ret =? 0) then (-1, c) else
  let '(ret, v) := GetCfgItemUint64 (bs "rados_mon_op_timeout") (monTimeout c) in
  let c := set_monTimeout v c in
  if negb (ret =? 0) then (-1, c) else
  let '(ret, v) := GetCfgItemUint64 (bs "rados_osd_op_timeout") (osdTimeout c) in
  let c := set_osdTimeout v c in
  if negb (ret =? 0) then (-1, c) else
  let '(ret, v) := GetCfgItemUint32 (bs "proxy_worker_queue_num") (ioWorkerNum c) in
  let c := set_ioWorkerNum v c in
  if negb (ret =? 0) then (-1, c) else
  let '(ret, v) := GetCfgItemUint32 (bs "proxy_rados_ctx_num") (radosCtxNum c) in
  let c := set_radosCtxNum v c in
  if negb (ret =? 0) then (-1, c) else
  (0, c).

Definition ProxyConfigInit : Z * ProxyControlCfg := ReadConfig InitClusterCfg.
End read.

(** A failure of [ProxyConfigInit] does not leave the default
    configuration behind, although [CephProxy::Init] goes on saying it uses it:
    when the lookup of [bind_core] fails, the paths and cores already read stay
    and the remaining fields, the number of clients among them, are default. *)
Theorem ProxyConfigInit_partial (cstr : bytes -> Z -> bytes -> Z * bytes)
  (n32 n64 : bytes -> Z -> Z * Z) (file : bytes -> bytes) (e : Z)
  (Hs : forall k size old, cstr k size old = (0, file k))
  (Hn : n64 (bs "bind_core") 1 = (e, 1)) (He : e <> 0) :
  ProxyConfigInit cstr n32 n64 =
  (-1, {| cephConfPath := file (bs "ceph_conf_path");
          cephKeyringPath := file (bs "ceph_keyring_path"); coreIds := file (bs "core_number");
          bindCore := 1; workerNum := 1; msgrAmount := 3; osdTimeout := 0; monTimeout := 0;
          ioWorkerNum := 1; radosCtxNum := 1 |}).
Proof.
  unfold ProxyConfigInit, ReadConfig. rewrite !Hs. cbn [Z.eqb negb].
  change (bindCore _) with 1. rewrite Hn. destruct (e =? 0) eqn:E; bprop; [lia|done].
Qed.

Lemma ProxyConfigInit_partial_witness :
  fst (ProxyConfigInit (fun k _ _ => (0, k)) (fun _ old => (0, old)) (fun _ old => (-1, old))) = -1.
Proof.
  rewrite (ProxyConfigInit_partial (fun k _ _ => (0, k)) (fun _ old => (0, old)) (fun _ old => (-1, old))
             (fun k => k) (-1) (fun _ _ _ => eq_refl) eq_refl); [reflexivity|discriminate].
Defined.
End ProxyConfig.

(** ** [class IOCtxTable] *)
Module IOCtxTable.
Import IoCtx.

Record t := { table1 : gmap bytes Z; table2 : gmap Z Z }.
Definition Init : t := {| table1 := ∅; table2 := ∅ |}.

(** By name an existing entry is overwritten, by id it is kept; both say -1. *)
Definition InsertName (poolname : bytes) (ioctx : Z) (s : t) : Z * t :=
  (match table1 s !! poolname with Some _ => -1 | None => 0 end,
   {| table1 := <[poolname := ioctx]> (table1 s); table2 := table2 s |}).
Definition InsertId (poolId : Z) (ioctx : Z) (s : t) : Z * t :=
  match table2 s !! poolId with
  | Some _ => (-1, s)
  | None => (0, {| table1 := table1 s; table2 := <[poolId := ioctx]> (table2 s) |})
  end.

Definition GetName (poolname : bytes) (s : t) : option Z := table1 s !! poolname.
Definition GetId (poolId : Z) (s : t) : option Z := table2 s !! poolId.

Definition DeleteName (poolname : bytes) (s : t) (w : World) : option (t * World) :=
  match table1 s !! poolname with
  | Some id => w' ← RadosReleaseIoCtx (Some id) w;
               Some ({| table1 := delete poolname (table1 s); table2 := table2 s |}, w')
  | None => Some (s, w)
  end.
Definition DeleteId (poolId : Z) (s : t) (w : World) : option (t * World) :=
  match table2 s !! poolId with
  | Some id => w' ← RadosReleaseIoCtx (Some id) w;
               Some ({| table1 := table1 s; table2 := delete poolId (table2 s) |}, w')
  | None => Some (s, w)
  end.

Fixpoint release_all (ids : list Z) (w : World) : option World :=
  match ids with
  | [] => Some w
  | id :: ids' => w' ← RadosReleaseIoCtx (Some id) w; release_all ids' w'
  end.

Definition ids {K} `{Countable K} (m : gmap K Z) : list Z := map snd (map_to_list m).

Definition Clear (s : t) (w : World) : option (t * World) :=
  w1 ← release_all (ids (table1 s)) w;
  w2 ← release_all (ids (table2 s)) w1;
  Some (Init, w2).

(** Releasing distinct live contexts succeeds and removes exactly those. *)
Lemma release_all_spec l w :
  NoDup l -> (forall id, id ∈ l -> is_Some (live w !! id)) ->
  exists w', release_all l w = Some w' /\ next_id w' = next_id w /\
    forall id, live w' !! id = (if bool_decide (id ∈ l) then None else live w !! id).
Proof.
  revert w. induction l as [|i l IH]; intros w Hnd Hl; cbn.
  - exists w. split_and!; [done..|]. intros id. by rewrite bool_decide_eq_false_2 by apply not_elem_of_nil.
  - apply NoDup_cons in Hnd as [Hi Hnd].
    destruct (Hl i) as [x Hx]; [by left|]. rewrite Hx. cbn.
    destruct (IH {| live := delete i (live w); next_id := next_id w |}) as (w' & H1 & H2 & H3); [done| |].
    + intros id Hid. cbn. rewrite lookup_delete_ne; [apply Hl; by right|]. by intros ->.
    + exists w'. split_and!; [done..|]. intros id. rewrite H3. cbn.
      destruct (decide (id = i)) as [->|Hne].
      * rewrite lookup_delete_eq. rewrite (bool_decide_eq_true_2 (i ∈ i :: l)) by by left.
        by case_bool_decide.
      * rewrite lookup_delete_ne by done. repeat case_bool_decide; set_solver.
Qed.

Lemma release_all_app l1 l2 w :
  release_all (l1 ++ l2) w = (w' ← release_all l1 w; release_all l2 w').
Proof.
  revert w. induction l1 as [|i l1 IH]; intros w; [done|]. cbn.
  destruct (live w !! i); cbn; [apply IH|done].
Qed.

Lemma ids_insert {K} `{Countable K} (m : gmap K Z) k v :
  m !! k = None -> ids (<[k := v]> m) ≡ₚ v :: ids m.
Proof. intros Hk. unfold ids. by rewrite map_to_list_insert. Qed.

Lemma elem_of_ids {K} `{Countable K} (m : gmap K Z) v :
  v ∈ ids m <-> exists k, m !! k = Some v.
Proof.
  unfold ids. rewrite list_elem_of_fmap. split.
  - intros ([k x] & -> & Hin%elem_of_map_to_list). by exists k.
  - intros [k Hk]. exists (k, v). split; [done|]. by apply elem_of_map_to_list.
Qed.
End IOCtxTable.

(** ** [class CephProxy] *)
Module CephProxy.
Import IoCtx IOCtxTable.

Inductive CephProxyState := PROXY_INITING | PROXY_ACTIVE | PROXY_DOWN.

(** [__builtin_clz] of a non-zero 32-bit value. *)
Definition clz32 (x : Z) : Z := 31 - Z.log2 x.
Definition ALIGNBASE : Z := 32.

(** [U32AlignUp]; [None] is a shift by the width of [int] or more. *)
Definition U32AlignUp (x : Z) : option Z :=
  if x =? 1 then Some 1 else
  let sh := ALIGNBASE - clz32 (u32 (x - 1)) in
  if sh <? 32 then Some (u32 (s32 (Z.shiftl 1 sh))) else None.

(** [ParseCoreId] *)
Definition ParseCoreId (coreNumber : bytes) : Z * list Z :=
  (fix go (toks : list bytes) (vecCoreId : list Z) : Z * list Z :=
     match toks with
     | [] => (0, vecCoreId)
     | p :: toks' =>
         let r := strtoull 10 p in
         if st_erange r || st_nodigits r then (-1, vecCoreId)
         else go toks' (vecCoreId ++ [u32 (st_val r)])
     end) (strtok (is_char ",") (c_str coreNumber)) [].

(** Handles are numbered in the order they were made, [handles] so far: after a
    first [Init], 0 is [radosClient], [i + 1] the i-th of [ioClientVec].  [opened]
    lists those not shut down. *)
Record t := {
  radosClient : option Z; ioClientVec : list Z; clientNum : Z; vecMask : Z; count : Z;
  pMap : gmap Z (gmap Z Z); ptable : IOCtxTable.t; world : World; opened : list Z;
  handles : Z; state : CephProxyState
}.

Section init.
(** The answers librados gives to the i-th handle, [InitProxyMsgr]'s return
    value and whether the [RadosWorker] could be allocated. *)
Context (envs : Z -> Wrapper.rados_env) (conf : Wrapper.client_conf) (cephConf : bytes).
Context (initMsgr : Z) (pid_ok : bool) (worker_ok : bool).

(** The loop of [RadosInit], [n] clients to go from handle [i]. *)
Fixpoint init_clients (n : nat) (i : Z) (vec opened : list Z) : Z * list Z * list Z :=
  match n with
  | O => (0, vec, opened)
  | S n' =>
      let r := Wrapper.RadosClientInit (envs i) conf cephConf in
      if Wrapper.ci_ret r <? 0 then (Wrapper.ci_ret r, vec, opened)
      else init_clients n' (i + 1) (vec ++ [i]) (opened ++ [i])
  end.

Definition RadosInit (s : t) : Z * t :=
  let r := Wrapper.RadosClientInit (envs (handles s)) conf cephConf in
  if Wrapper.ci_ret r <? 0 then
    (Wrapper.ci_ret r,
     {| radosClient := match Wrapper.ci_client r with Wrapper.Untouched => radosClient s | _ => None end;
        ioClientVec := ioClientVec s; clientNum := clientNum s;
        vecMask := vecMask s; count := count s; pMap := pMap s; ptable := ptable s;
        world := world s; opened := opened s; handles := handles s; state := state s |})
  else
    let '(ret, vec, op) := 
      init_clients (Z.to_nat (clientNum s)) (handles s + 1) (ioClientVec s) (opened s ++ [handles s]) in
    (ret,
     {| radosClient := Some (handles s); ioClientVec := vec; clientNum := clientNum s;
        vecMask := vecMask s; count := count s; pMap := pMap s; ptable := ptable s;
        world := world s; opened := op; handles := handles s + 1 + (len vec - len (ioClientVec s));
        state := state s |}).

Definition set_state (st : CephProxyState) (op : list Z) (s : t) : t :=
  {| radosClient := radosClient s; ioClientVec := ioClientVec s; clientNum := clientNum s;
     vecMask := vecMask s; count := count s; pMap := pMap s; ptable := ptable s;
     world := world s; opened := op; handles := handles s; state := st |}.

(** [MemberInit]: [None] when [U32AlignUp] has no value. *)
Definition MemberInit (cfg : ProxyConfig.ProxyControlCfg) (s : t) : option t :=
  cn ← U32AlignUp (ProxyConfig.ProxyRadosCtxNum cfg);
  Some {| radosClient := radosClient s; ioClientVec := ioClientVec s; clientNum := cn;
          vecMask := u32 (cn - 1); count := count s; pMap := pMap s; ptable := IOCtxTable.Init;
          world := world s; opened := opened s; handles := handles s; state := PROXY_INITING |}.

(** [CephProxy::Init], after [ProxyConfigInit] whose result it only logs. *)
Definition Init (cfg : ProxyConfig.ProxyControlCfg) (s : t) : option (Z * t) :=
  s ← MemberInit cfg s;
  let '(ret, s) := RadosInit s in
  if ret <? 0 then Some (ret, s) else
  if initMsgr <? 0 then
    op ← Wrapper.RadosClientShutdown (radosClient s) (opened s); Some (initMsgr, set_state (state s) op s)
  else
  let '(ret, vecCoreId) := if pid_ok && (u32 (ProxyConfig.bindCore cfg) =? 1)
                           then ParseCoreId (ProxyConfig.coreIds cfg) else (initMsgr, []) in
  if ret <? 0 then Some (ret, s) else
  if negb worker_ok then Some (-1, s) else
  Some (ret, set_state PROXY_ACTIVE (opened s) s).
End init.

Section ops.
Context (new_ok : Z -> bool) (ioctx_create : Z -> Z -> pool_key -> Z).
(** [IoCtx::get_id] of a context. *)
Context (get_id : Z -> Z).

Definition upd (c : Z) (pm : gmap Z (gmap Z Z)) (pt : IOCtxTable.t) (w : World) (s : t) : t :=
  {| radosClient := radosClient s; ioClientVec := ioClientVec s; clientNum := clientNum s;
     vecMask := vecMask s; count := c; pMap := pm; ptable := pt; world := w;
     opened := opened s; handles := handles s; state := state s |}.

Definition main_client (s : t) : Z := default (-1) (radosClient s).

Definition GetIoCtx (pool : bytes) (s : t) : option Z * t :=
  match GetName pool (ptable s) with
  | Some ioctx => (Some ioctx, s)
  | None =>
      let '(ret, ctx, w) := RadosCreateIoCtx new_ok ioctx_create (main_client s) pool (world s) in
      match ctx with
      | Some ioctx => (Some ioctx, upd (count s) (pMap s) (snd (InsertName pool ioctx (ptable s))) w s)
      | None => (None, upd (count s) (pMap s) (ptable s) w s)
      end
  end.

Definition GetIoCtx2 (poolId : Z) (s : t) : option Z * t :=
  match GetId poolId (ptable s) with
  | Some ioctx => (Some ioctx, s)
  | None =>
      let '(ret, ctx, w) := RadosCreateIoCtx2 new_ok ioctx_create (main_client s) poolId (world s) in
      match ctx with
      | Some ioctx => (Some ioctx, upd (count s) (pMap s) (snd (InsertId poolId ioctx (ptable s))) w s)
      | None => (None, upd (count s) (pMap s) (ptable s) w s)
      end
  end.

(** One context per client; [None] as soon as one cannot be created, those
    created before being left in the heap. *)
Fixpoint create_all (poolId : Z) (cs : list Z) (tMap : gmap Z Z) (w : World)
  : option (gmap Z Z) * World :=
  match cs with
  | [] => (Some tMap, w)
  | c :: cs' =>
      let '(ret, ctx, w') := RadosCreateIoCtx2 new_ok ioctx_create c poolId w in
      match ctx with
      | Some ioctx => create_all poolId cs' (<[c := ioctx]> tMap) w'
      | None => (None, w')
      end
  end.

(** The context and the client; an index beyond [ioClientVec] is [None]. *)
Definition GetIoCtxWithClient (poolId : Z) (s : t) : option (option Z * Z * t) :=
  let cnt := count s in
  let count' := u32 (cnt + 1) in
  client ← ioClientVec s !! Z.to_nat (Z.land cnt (vecMask s));
  match pMap s !! poolId with
  | None =>
      let '(tMap, w) := create_all poolId (ioClientVec s) ∅ (world s) in
      match tMap with
      | None => Some (None, client, upd count' (pMap s) (ptable s) w s)
      | Some tMap => Some (tMap !! client, client,
                           upd count' (<[poolId := tMap]> (pMap s)) (ptable s) w s)
      end
  | Some m => Some (m !! client, client, upd count' (pMap s) (ptable s) (world s) s)
  end.

(** [GetPoolIdByPoolName]: the id goes through an [int]. *)
Definition GetPoolIdByPoolName (poolName : bytes) (s : t) : option (Z * t) :=
  let '(ret, ctx, w) := RadosCreateIoCtx new_ok ioctx_create (main_client s) poolName (world s) in
  match ctx with
  | None => Some (-1, upd (count s) (pMap s) (ptable s) w s)
  | Some ioctx =>
      let ret := s32 (RadosGetPoolId get_id ioctx) in
      w' ← RadosReleaseIoCtx (Some ioctx) w;
      Some (ret, upd (count s) (pMap s) (ptable s) w' s)
  end.

Definition GetPoolNameByPoolId (name_of : Z -> bytes) (poolId maxLen : Z) (s : t)
  : option (Z * option bytes * t) :=
  let '(ret, ctx, w) := RadosCreateIoCtx2 new_ok ioctx_create (main_client s) poolId (world s) in
  match ctx with
  | None => Some (-1, None, upd (count s) (pMap s) (ptable s) w s)
  | Some ioctx =>
      let '(ret, buf) := RadosGetPoolName (name_of ioctx) maxLen in
      w' ← RadosReleaseIoCtx (Some ioctx) w;
      Some (ret, buf, upd (count s) (pMap s) (ptable s) w' s)
  end.

(** [GetIoCtxFromCeph]: not remembered by the proxy, the caller's to release. *)
Definition GetIoCtxFromCeph (poolId : Z) (s : t) : option Z * t :=
  let '(ret, ctx, w) := RadosCreateIoCtx2 new_ok ioctx_create (main_client s) poolId (world s) in
  (ctx, upd (count s) (pMap s) (ptable s) w s).

Definition pmap_ids (m : gmap Z (gmap Z Z)) : list Z := concat (map (ids ∘ snd) (map_to_list m)).

Definition ClearIoctx (s : t) : option t :=
  w ← release_all (pmap_ids (pMap s)) (world s);
  Some (upd (count s) ∅ (ptable s) w s).

(** [Shutdown], after the worker has stopped and the messenger is destroyed. *)
Definition Shutdown (s : t) : option t :=
  '(pt, w) ← Clear (ptable s) (world s);
  s ← ClearIoctx (upd (count s) (pMap s) pt w s);
  op ← Wrapper.RadosClientShutdown (radosClient s) (opened s);
  op ← Wrapper.shutdown_clients (ioClientVec s) op;
  Some (set_state PROXY_DOWN op s).

(** *** Sequences of calls *)
Inductive call :=
| CGetIoCtx (pool : bytes)
| CGetIoCtx2 (poolId : Z)
| CGetIoCtxWithClient (poolId : Z)
| CPoolIdByName (pool : bytes)
| CPoolNameById (name_of : Z -> bytes) (poolId maxLen : Z)
| CGetIoCtxFromCeph (poolId : Z)
| CReleaseIoCtx (k : nat).

(** The state with the contexts the callers hold: those of [GetIoCtxFromCeph],
    in the order they were handed out.  A caller releases the [k]-th it holds
    ([RadosReleaseIoCtx] of null when there is none). *)
Definition with_callers : Type := t * list Z.

Definition set_world (w : World) (s : t) : t := upd (count s) (pMap s) (ptable s) w s.

Definition exec (c : call) (st : with_callers) : option with_callers :=
  let '(s, ext) := st in
  match c with
  | CGetIoCtx p => Some (snd (GetIoCtx p s), ext)
  | CGetIoCtx2 p => Some (snd (GetIoCtx2 p s), ext)
  | CGetIoCtxWithClient p => '(_, _, s') ← GetIoCtxWithClient p s; Some (s', ext)
  | CPoolIdByName p => '(_, s') ← GetPoolIdByPoolName p s; Some (s', ext)
  | CPoolNameById f p m => '(_, _, s') ← GetPoolNameByPoolId f p m s; Some (s', ext)
  | CGetIoCtxFromCeph p =>
      let '(r, s') := GetIoCtxFromCeph p s in
      Some (s', match r with Some id => ext ++ [id] | None => ext end)
  | CReleaseIoCtx k => w ← RadosReleaseIoCtx (ext !! k) (world s); Some (set_world w s, delete k ext)
  end.

Fixpoint run (cs : list call) (st : with_callers) : option with_callers :=
  match cs with
  | [] => Some st
  | c :: cs' => st' ← exec c st; run cs' st'
  end.

(** How often a client was picked. *)
Fixpoint picks (cs : list call) : Z :=
  match cs with
  | [] => 0
  | CGetIoCtxWithClient _ :: cs' => 1 + picks cs'
  | _ :: cs' => picks cs'
  end.

(** Every creation succeeds. *)
Definition all_ok : Prop :=
  (forall id, new_ok id = true) /\ (forall id c k, 0 <= ioctx_create id c k).

(** The contexts the proxy refers to. *)
Definition owned (s : t) : list Z :=
  ids (table1 (ptable s)) ++ ids (table2 (ptable s)) ++ pmap_ids (pMap s).

(** No context is referred to twice or after its release; when nothing fails
    every live context is referred to. *)
Definition wf_world (own : list Z) (w : World) : Prop :=
  NoDup own /\ (forall id, id ∈ own -> is_Some (live w !! id)) /\
  (forall id, is_Some (live w !! id) -> id < next_id w) /\
  (all_ok -> forall id, is_Some (live w !! id) -> id ∈ own).

(** Every pool has, for every client, a context opened by that client. *)
Definition wf_pmap (s : t) : Prop :=
  forall p m, pMap s !! p = Some m -> forall c, c ∈ ioClientVec s ->
    exists id, m !! c = Some id /\
      live (world s) !! id = Some {| io_client := c; io_key := Some (ById p) |}.

(** [ext] are the contexts the callers hold. *)
Definition inv (ext : list Z) (s : t) : Prop := wf_world (ext ++ owned s) (world s) /\ wf_pmap s.

Lemma create_spec c k w own ret ctx w' :
  create new_ok ioctx_create c k w = (ret, ctx, w') -> wf_world own w ->
  next_id w' = next_id w + 1 /\
  (forall id, id <> next_id w -> live w' !! id = live w !! id) /\
  match ctx with
  | Some id => id = next_id w /\ ret = 0 /\ (id ∉ own) /\ live w !! id = None /\
               live w' !! id = Some {| io_client := c; io_key := Some k |} /\
               wf_world (id :: own) w'
  | None => ~ all_ok /\ wf_world own w'
  end.
Proof.
  intros Hc (Hnd & Hl & Hb & Hok). unfold create in Hc. unfold wf_world.
  assert (next_id w ∉ own) as Hfr.
  { intros Hin. specialize (Hb _ (Hl _ Hin)). lia. }
  assert (live w !! next_id w = None) as Hn.
  { destruct (live w !! next_id w) eqn:E; [|done]. specialize (Hb (next_id w)).
    rewrite E in Hb. specialize (Hb ltac:(by eexists)). lia. }
  destruct (new_ok (next_id w)) eqn:En.
  2:{ injection Hc as <- <- <-. cbn. split_and!; try done.
      - intros [Ha _]. by rewrite Ha in En.
      - intros id Hid. specialize (Hb _ Hid). lia. }
  assert (forall (x : IoCtx.t) id, is_Some (<[next_id w := x]> (live w) !! id) ->
            id < next_id w + 1 /\ (id = next_id w \/ is_Some (live w !! id))) as Hins.
  { intros x id [y Hy]. apply lookup_insert_Some in Hy as [[<- _]|[_ Hy]]; [split; [lia|by left]|].
    specialize (Hb id ltac:(by eexists)). split; [lia|right; by eexists]. }
  assert (forall (x : IoCtx.t) id, id ∈ own -> is_Some (<[next_id w := x]> (live w) !! id)) as Hkp.
  { intros x id Hid. rewrite lookup_insert_ne; [by apply Hl|]. by intros <-. }
  destruct (ioctx_create _ _ _ <? 0) eqn:Er; bprop; injection Hc as <- <- <-; cbn.
  - assert (~ all_ok) as Hna.
    { intros [_ Ha]. specialize (Ha (next_id w) c k). lia. }
    split_and!; try done.
    + intros id Hid. by rewrite lookup_insert_ne.
    + intros id Hid. by apply Hkp.
    + intros id Hid. by apply Hins in Hid as [? _].
  - split_and!; try done.
    + intros id Hid. by rewrite lookup_insert_ne.
    + apply lookup_insert_eq.
    + by apply NoDup_cons.
    + intros id [->|Hid]%elem_of_cons; [rewrite lookup_insert_eq; by eexists|by apply Hkp].
    + intros id Hid. by apply Hins in Hid as [? _].
    + intros Ha id Hid. apply Hins in Hid as [_ [->|Hid]]; [by left|right; by apply Hok].
Qed.

Lemma wf_world_perm own own' w : own ≡ₚ own' -> wf_world own w -> wf_world own' w.
Proof.
  intros Hp (Hnd & Hl & Hb & Hok). unfold wf_world. setoid_rewrite <- Hp. by split_and!.
Qed.

Lemma wf_world_sub own own' w : ~ all_ok -> wf_world (own' ++ own) w -> wf_world own w.
Proof.
  intros Hna (Hnd & Hl & Hb & _). unfold wf_world. split_and!; [| |done|done].
  - by apply NoDup_app in Hnd as (_ & _ & ?).
  - intros id Hid. apply Hl, elem_of_app. by right.
Qed.

(** Live contexts below the old [next_id] are untouched by later creations. *)
Definition keeps (w w' : World) : Prop :=
  next_id w <= next_id w' /\ forall id, id < next_id w -> live w' !! id = live w !! id.

Lemma keeps_refl w : keeps w w.
Proof. by split. Qed.
Lemma keeps_trans w1 w2 w3 : keeps w1 w2 -> keeps w2 w3 -> keeps w1 w3.
Proof. intros [? H1] [? H2]. split; [lia|]. intros id Hid. rewrite H2, H1; [done|lia..]. Qed.

Lemma create_keeps c k w own ret ctx w' :
  create new_ok ioctx_create c k w = (ret, ctx, w') -> wf_world own w -> keeps w w'.
Proof.
  intros Hc Hw. destruct (create_spec _ _ _ _ _ _ _ Hc Hw) as (H1 & H2 & _).
  split; [lia|]. intros id Hid. apply H2. lia.
Qed.

Lemma wf_pmap_keeps s s' :
  wf_pmap s -> (forall id, is_Some (live (world s) !! id) -> id < next_id (world s)) ->
  keeps (world s) (world s') -> pMap s' = pMap s -> ioClientVec s' = ioClientVec s -> wf_pmap s'.
Proof.
  intros Hp Hb [_ Hk] E1 E2 p m Hm c Hc. rewrite E1 in Hm. rewrite E2 in Hc.
  destruct (Hp _ _ Hm _ Hc) as (id & Hid & Hl). exists id. split; [done|].
  rewrite Hk; [done|]. apply Hb. by eexists.
Qed.

Lemma create_all_spec p cs tMap w own tm w' :
  create_all p cs tMap w = (tm, w') -> NoDup cs ->
  (forall c, c ∈ cs -> tMap !! c = None) -> wf_world (ids tMap ++ own) w ->
  keeps w w' /\
  match tm with
  | Some tm => wf_world (ids tm ++ own) w' /\
      (forall c, c ∉ cs -> tm !! c = tMap !! c) /\
      forall c, c ∈ cs -> exists id, tm !! c = Some id /\
        live w' !! id = Some {| io_client := c; io_key := Some (ById p) |}
  | None => ~ all_ok /\ wf_world own w'
  end.
Proof.
  revert tMap w. induction cs as [|c cs IH]; intros tMap w Hc Hnd Hfr Hw; cbn in Hc.
  - injection Hc as <- <-. split; [apply keeps_refl|]. split_and!; [done..|].
    by intros c Hc%not_elem_of_nil.
  - apply NoDup_cons in Hnd as [Hcs Hnd]. unfold RadosCreateIoCtx2 in Hc.
    destruct (create _ _ c (ById p) w) as [[ret ctx] w1] eqn:E.
    pose proof (create_keeps _ _ _ _ _ _ _ E Hw) as Hk1.
    destruct (create_spec _ _ _ _ _ _ _ E Hw) as (H1 & H2 & H3).
    destruct ctx as [id|].
    2:{ injection Hc as <- <-. destruct H3 as [Hna Hw1]. split; [done|]. split; [done|].
        by eapply wf_world_sub. }
    destruct H3 as (-> & _ & Hnin & Hnone & Hl1 & Hw1).
    assert (tMap !! c = None) as Htc by (apply Hfr; by left).
    destruct (IH _ _ Hc Hnd) as [Hk2 Hr].
    { intros c' Hc'. rewrite lookup_insert_ne; [apply Hfr; by right|]. by intros ->. }
    { eapply wf_world_perm; [|exact Hw1]. by rewrite ids_insert. }
    split; [by eapply keeps_trans|]. destruct tm as [tm|]; [|done].
    destruct Hr as (Hr1 & Hr2 & Hr3). split; [done|]. split.
    + intros c' [Hne Hc']%not_elem_of_cons. rewrite Hr2 by done. by rewrite lookup_insert_ne.
    + intros c' [->|Hc']%elem_of_cons; [|by apply Hr3].
      exists (next_id w). rewrite Hr2 by done. rewrite lookup_insert_eq. split; [done|].
      destruct Hk2 as [_ Hk2]. rewrite Hk2 by lia. done.
Qed.

Lemma release_spec id own w :
  wf_world (id :: own) w ->
  exists w', RadosReleaseIoCtx (Some id) w = Some w' /\ wf_world own w' /\
    next_id w' = next_id w /\ forall i, i <> id -> live w' !! i = live w !! i.
Proof.
  intros (Hnd & Hl & Hb & Hok). apply NoDup_cons in Hnd as [Hid Hnd].
  destruct (Hl id) as [x Hx]; [by left|]. cbn. rewrite Hx. eexists. split; [done|].
  assert (forall i, i <> id -> delete id (live w) !! i = live w !! i) as Hne.
  { intros i Hi. by rewrite lookup_delete_ne. }
  cbn. unfold wf_world. cbn. split_and!; try done.
  - intros i Hi. rewrite Hne; [apply Hl; by right|]. by intros ->.
  - intros i [y Hy]. apply lookup_delete_Some in Hy as [_ Hy]. apply Hb. by eexists.
  - intros Ha i [y Hy]. apply lookup_delete_Some in Hy as [Hi Hy].
    pose proof (Hok Ha i ltac:(by eexists)) as [Hin|Hin]%elem_of_cons; [by subst|done].
Qed.

Lemma pmap_ids_insert p tm m : m !! p = None -> pmap_ids (<[p := tm]> m) ≡ₚ ids tm ++ pmap_ids m.
Proof. intros Hp. unfold pmap_ids. by rewrite map_to_list_insert. Qed.

Lemma inv_upd_world ext s w :
  wf_world (ext ++ owned s) w -> keeps (world s) w -> inv ext s ->
  inv ext (upd (count s) (pMap s) (ptable s) w s).
Proof.
  intros Hw Hk [(_ & _ & Hb & _) Hp]. split; [exact Hw|].
  eapply wf_pmap_keeps; [exact Hp|exact Hb|exact Hk|done|done].
Qed.

Lemma inv_GetIoCtx ext p s : inv ext s -> inv ext (snd (GetIoCtx p s)).
Proof.
  intros Hi. pose proof Hi as [Hw Hp]. unfold GetIoCtx.
  destruct (GetName p (ptable s)) eqn:Eg; [done|].
  destruct (RadosCreateIoCtx _ _ _ _ _) as [[ret ctx] w] eqn:E. unfold RadosCreateIoCtx in E.
  pose proof (create_keeps _ _ _ _ _ _ _ E Hw) as Hk.
  destruct (create_spec _ _ _ _ _ _ _ E Hw) as (_ & _ & Hc).
  destruct ctx as [id|]; cbn; [|by apply inv_upd_world; [apply Hc| |]].
  destruct Hc as (_ & _ & _ & _ & _ & Hw'). split.
  - cbn. eapply wf_world_perm; [|exact Hw']. unfold owned. cbn.
    unfold GetName in Eg. rewrite ids_insert by done. cbn. apply Permutation_middle.
  - eapply wf_pmap_keeps; [exact Hp|by destruct Hw as (_ & _ & ? & _)|exact Hk|done|done].
Qed.

Lemma inv_GetIoCtx2 ext p s : inv ext s -> inv ext (snd (GetIoCtx2 p s)).
Proof.
  intros Hi. pose proof Hi as [Hw Hp]. unfold GetIoCtx2.
  destruct (GetId p (ptable s)) eqn:Eg; [done|]. unfold GetId in Eg.
  destruct (RadosCreateIoCtx2 _ _ _ _ _) as [[ret ctx] w] eqn:E. unfold RadosCreateIoCtx2 in E.
  pose proof (create_keeps _ _ _ _ _ _ _ E Hw) as Hk.
  destruct (create_spec _ _ _ _ _ _ _ E Hw) as (_ & _ & Hc).
  destruct ctx as [id|]; cbn; [|by apply inv_upd_world; [apply Hc| |]].
  destruct Hc as (_ & _ & _ & _ & _ & Hw'). unfold InsertId. rewrite Eg. cbn. split.
  - cbn. eapply wf_world_perm; [|exact Hw']. unfold owned. cbn.
    rewrite ids_insert by done. cbn. solve_Permutation.
  - eapply wf_pmap_keeps; [exact Hp|by destruct Hw as (_ & _ & ? & _)|exact Hk|done|done].
Qed.

Definition same_clients (s s' : t) : Prop :=
  ioClientVec s' = ioClientVec s /\ clientNum s' = clientNum s /\ vecMask s' = vecMask s /\
  radosClient s' = radosClient s /\ opened s' = opened s.

Lemma create_then_release ext s w :
  keeps (world s) w -> next_id w = next_id (world s) + 1 ->
  wf_world (next_id (world s) :: ext ++ owned s) w ->
  exists w', RadosReleaseIoCtx (Some (next_id (world s))) w = Some w' /\
    wf_world (ext ++ owned s) w' /\ keeps (world s) w'.
Proof.
  intros [_ Hk] Hn Hw. destruct (release_spec _ _ _ Hw) as (w' & -> & Hw2 & Hn2 & Hl2).
  exists w'. split_and!; [done..|]. split; [lia|]. intros i Hi. rewrite Hl2 by lia. by apply Hk.
Qed.

Lemma inv_GetPoolIdByPoolName ext p s : inv ext s ->
  exists r s', GetPoolIdByPoolName p s = Some (r, s') /\ inv ext s' /\ same_clients s s' /\
    count s' = count s.
Proof.
  intros Hi. pose proof Hi as [Hw Hp]. unfold GetPoolIdByPoolName.
  destruct (RadosCreateIoCtx _ _ _ _ _) as [[ret ctx] w] eqn:E. unfold RadosCreateIoCtx in E.
  pose proof (create_keeps _ _ _ _ _ _ _ E Hw) as Hk.
  destruct (create_spec _ _ _ _ _ _ _ E Hw) as (Hn & _ & Hc).
  destruct ctx as [id|].
  2:{ eexists _, _. split; [done|]. split; [by apply inv_upd_world; [apply Hc| |]|done]. }
  destruct Hc as (-> & _ & _ & _ & _ & Hw').
  destruct (create_then_release _ _ _ Hk Hn Hw') as (w' & -> & Hw2 & Hk2). cbn.
  eexists _, _. split; [done|]. split; [by apply inv_upd_world|done].
Qed.

Lemma inv_GetPoolNameByPoolId ext f p m s : inv ext s ->
  exists r s', GetPoolNameByPoolId f p m s = Some (r, s') /\ inv ext s' /\ same_clients s s' /\
    count s' = count s.
Proof.
  intros Hi. pose proof Hi as [Hw Hp]. unfold GetPoolNameByPoolId.
  destruct (RadosCreateIoCtx2 _ _ _ _ _) as [[ret ctx] w] eqn:E. unfold RadosCreateIoCtx2 in E.
  pose proof (create_keeps _ _ _ _ _ _ _ E Hw) as Hk.
  destruct (create_spec _ _ _ _ _ _ _ E Hw) as (Hn & _ & Hc).
  destruct ctx as [id|].
  2:{ eexists _, _. split; [done|]. split; [by apply inv_upd_world; [apply Hc| |]|done]. }
  destruct Hc as (-> & _ & _ & _ & _ & Hw'). destruct (RadosGetPoolName _ _) as [r buf].
  destruct (create_then_release _ _ _ Hk Hn Hw') as (w' & -> & Hw2 & Hk2). cbn.
  eexists _, _. split; [done|]. split; [by apply inv_upd_world|done].
Qed.

(** What [RadosInit] sets up: distinct clients, a power of two of them, and the main one;
    these are the handles that are open. *)
Definition setup (s : t) : Prop :=
  exists n, 0 <= n <= 31 /\ clientNum s = 2 ^ n /\ vecMask s = 2 ^ n - 1 /\
    len (ioClientVec s) = 2 ^ n /\ NoDup (ioClientVec s) /\
    (exists c, radosClient s = Some c /\ opened s ≡ₚ c :: ioClientVec s /\ NoDup (opened s)).

Lemma setup_same s s' : same_clients s s' -> setup s -> setup s'.
Proof. intros (E1 & E2 & E3 & E4 & E5) (n & H). exists n. by rewrite E1, E2, E3, E4, E5. Qed.

Lemma pick_in_range s : setup s ->
  exists c, ioClientVec s !! Z.to_nat (Z.land (count s) (vecMask s)) = Some c /\
    Z.land (count s) (vecMask s) = count s mod clientNum s.
Proof.
  intros (n & Hn & E1 & E2 & E3 & _). rewrite E1, E2.
  replace (2 ^ n - 1) with (Z.ones n) by (rewrite Z.ones_equiv; lia).
  rewrite Z.land_ones by lia.
  pose proof (Z.mod_pos_bound (count s) (2 ^ n) ltac:(apply Z.pow_pos_nonneg; lia)).
  destruct (lookup_lt_is_Some_2 (ioClientVec s) (Z.to_nat (count s mod 2 ^ n))) as [c Hc];
    [unfold len in E3; lia|]. by exists c.
Qed.

(** One pick: the client, the context it returns, and the state it leaves. *)
Lemma GetIoCtxWithClient_inv ext p s : inv ext s -> setup s ->
  exists r c s', GetIoCtxWithClient p s = Some (r, c, s') /\ inv ext s' /\ same_clients s s' /\
    count s' = u32 (count s + 1) /\
    ioClientVec s !! Z.to_nat (count s mod clientNum s) = Some c /\
    match r with
    | Some id => live (world s') !! id = Some {| io_client := c; io_key := Some (ById p) |}
    | None => ~ all_ok
    end.
Proof.
  intros Hi Hs. pose proof Hi as [Hw Hp]. destruct (pick_in_range _ Hs) as (c & Hc & Hm).
  rewrite <- Hm. unfold GetIoCtxWithClient. rewrite Hc. cbn.
  assert (c ∈ ioClientVec s) as Hcin by by eapply list_elem_of_lookup_2.
  destruct (pMap s !! p) as [m|] eqn:Ep.
  { eexists _, _, _. split; [done|]. split; [exact Hi|]. split_and!; try done.
    destruct (Hp _ _ Ep _ Hcin) as (id & -> & Hl). done. }
  destruct (create_all p (ioClientVec s) ∅ (world s)) as [tm w] eqn:E.
  destruct (create_all_spec _ _ _ _ (ext ++ owned s) _ _ E) as [Hk Hr].
  { by destruct Hs as (? & _ & _ & _ & _ & ? & _). }
  { intros. apply lookup_empty. }
  { unfold ids. by rewrite map_to_list_empty. }
  destruct tm as [tm|].
  2:{ eexists _, _, _. split; [done|]. split; [|by split_and!; destruct Hr].
      split; [by destruct Hr|]. eapply wf_pmap_keeps; [exact Hp|by destruct Hw as (_ & _ & ? & _)|exact Hk|done|done]. }
  destruct Hr as (Hw' & _ & Hall). eexists _, _, _. split; [done|]. split; [split|].
  - cbn. eapply wf_world_perm; [|exact Hw']. unfold owned. cbn.
    rewrite pmap_ids_insert by done. solve_Permutation.
  - intros p' m' Hm' c' Hc'. cbn in *. apply lookup_insert_Some in Hm' as [[<- <-]|[_ Hm']].
    + by apply Hall.
    + destruct (Hp _ _ Hm' _ Hc') as (id & Hid & Hl). exists id. split; [done|].
      destruct Hk as [_ Hk]. rewrite Hk; [done|]. destruct Hw as (_ & _ & Hb & _). apply Hb. by eexists.
  - split_and!; try done. destruct (Hall _ Hcin) as (id & -> & Hl). done.
Qed.

(** A context for a caller, and its release. *)
Lemma inv_GetIoCtxFromCeph ext p s : inv ext s ->
  let '(r, s') := GetIoCtxFromCeph p s in
  inv (match r with Some id => ext ++ [id] | None => ext end) s' /\ same_clients s s' /\ count s' = count s.
Proof.
  intros Hi. pose proof Hi as [Hw Hp]. unfold GetIoCtxFromCeph.
  destruct (RadosCreateIoCtx2 _ _ _ _ _) as [[ret ctx] w] eqn:E. unfold RadosCreateIoCtx2 in E.
  pose proof (create_keeps _ _ _ _ _ _ _ E Hw) as Hk.
  destruct (create_spec _ _ _ _ _ _ _ E Hw) as (_ & _ & Hc).
  split; [|done]. destruct ctx as [id|]; [|by apply inv_upd_world; [apply Hc| |]].
  destruct Hc as (_ & _ & _ & _ & _ & Hw'). split.
  - eapply wf_world_perm; [|exact Hw']. change (owned (upd _ _ _ _ s)) with (owned s). solve_Permutation.
  - eapply wf_pmap_keeps; [exact Hp|by destruct Hw as (_ & _ & ? & _)|exact Hk|done|done].
Qed.

(** The contexts in the tables of the pools are the proxy's own. *)
Lemma pmap_owned s p m c id : pMap s !! p = Some m -> m !! c = Some id -> id ∈ owned s.
Proof.
  intros Hm Hc. unfold owned. do 2 (apply elem_of_app; right). unfold pmap_ids. apply list_elem_of_In, in_concat.
  exists (ids m). split; [|apply list_elem_of_In, elem_of_ids; by exists c].
  apply in_map_iff. exists (p, m). split; [done|]. by apply list_elem_of_In, elem_of_map_to_list.
Qed.

Lemma inv_Release ext k s : inv ext s ->
  exists w, RadosReleaseIoCtx (ext !! k) (world s) = Some w /\ inv (delete k ext) (set_world w s).
Proof.
  intros [Hw Hp]. destruct (ext !! k) as [id|] eqn:Ek.
  - assert (ext ≡ₚ id :: delete k ext) as Hperm by by apply delete_Permutation.
    assert (wf_world (id :: delete k ext ++ owned s) (world s)) as Hw1.
    { eapply wf_world_perm; [|exact Hw]. by rewrite Hperm at 1. }
    destruct (release_spec _ _ _ Hw1) as (w & Hr & Hw2 & _ & Hl). exists w. split; [done|]. split; [exact Hw2|].
    intros p m Hm c Hc. destruct (Hp _ _ Hm _ Hc) as (id' & Hid' & Hl'). exists id'. split; [done|].
    cbn. rewrite Hl; [done|]. intros ->. destruct Hw1 as [Hnd _]. apply NoDup_cons in Hnd as [Hn _].
    apply Hn, elem_of_app. right. by eapply pmap_owned.
  - exists (world s). split; [done|]. apply lookup_ge_None_1 in Ek.
    rewrite delete_take_drop, take_ge, drop_ge, app_nil_r by lia. split; [exact Hw|exact Hp].
Qed.

Lemma exec_inv c s ext : inv ext s -> setup s ->
  exists s' ext', exec c (s, ext) = Some (s', ext') /\ inv ext' s' /\ same_clients s s' /\
    count s' = match c with CGetIoCtxWithClient _ => u32 (count s + 1) | _ => count s end.
Proof.
  intros Hi Hs. destruct c as [p|p|p|p|f p m|p|k]; cbn [exec].
  - eexists _, _. split; [reflexivity|]. split; [by apply inv_GetIoCtx|]. unfold GetIoCtx.
    destruct (GetName _ _); [done|]. by destruct (RadosCreateIoCtx _ _ _ _ _) as [[? [?|]] ?].
  - eexists _, _. split; [reflexivity|]. split; [by apply inv_GetIoCtx2|]. unfold GetIoCtx2.
    destruct (GetId _ _); [done|]. by destruct (RadosCreateIoCtx2 _ _ _ _ _) as [[? [?|]] ?].
  - destruct (GetIoCtxWithClient_inv ext p s Hi Hs) as (r & c & s' & -> & Hi' & Hsc & Hct & _).
    by exists s', ext.
  - destruct (inv_GetPoolIdByPoolName ext p s Hi) as (r & s' & -> & Hi' & Hsc & Hct). by exists s', ext.
  - destruct (inv_GetPoolNameByPoolId ext f p m s Hi) as ([r b] & s' & -> & Hi' & Hsc & Hct). by exists s', ext.
  - pose proof (inv_GetIoCtxFromCeph ext p s Hi) as Hg. destruct (GetIoCtxFromCeph p s) as [r s'].
    destruct Hg as (Hi' & Hsc & Hct). by eexists s', _.
  - destruct (inv_Release ext k s Hi) as (w & -> & Hi'). by eexists _, _.
Qed.

Lemma run_inv cs s ext : inv ext s -> setup s -> 0 <= count s < 2 ^ 32 ->
  exists s' ext', run cs (s, ext) = Some (s', ext') /\ inv ext' s' /\ same_clients s s' /\
    count s' = u32 (count s + picks cs).
Proof.
  revert s ext. induction cs as [|c cs IH]; intros s ext Hi Hs Hc; cbn [run].
  - exists s, ext. split_and!; try done. cbn. by rewrite Z.add_0_r, u32_small.
  - destruct (exec_inv c s ext Hi Hs) as (s1 & ext1 & -> & Hi1 & Hsc1 & Hct1). cbn [mbind option_bind].
    destruct (IH s1 ext1 Hi1 (setup_same _ _ Hsc1 Hs)) as (s' & ext' & -> & Hi' & Hsc' & Hct').
    { rewrite Hct1. destruct c; (done || apply u32_range). }
    exists s', ext'. split; [done|]. split; [done|]. split.
    { destruct Hsc1 as (? & ? & ? & ? & ?), Hsc' as (? & ? & ? & ? & ?). by split_and!; congruence. }
    rewrite Hct', Hct1. clear. destruct c; cbn; unfold u32; rewrite ?wrap_add_l by lia;
      f_equal; lia.
Qed.
(** [Shutdown] in a state of the invariant. *)
Lemma Shutdown_inv ext s : inv ext s -> setup s ->
  exists s', Shutdown s = Some s' /\ owned s' = [] /\ opened s' = [] /\ inv ext s' /\
    (forall id, id ∈ owned s -> live (world s') !! id = None) /\
    (forall id, id ∈ ext -> is_Some (live (world s') !! id)) /\
    (all_ok -> forall id, is_Some (live (world s') !! id) -> id ∈ ext).
Proof.
  intros [(Hnd & Hl & Hb & Hok) _] (? & _ & _ & _ & _ & _ & c & Hc & Hop & Hdo).
  apply NoDup_app in Hnd as (Hnde & Hdis & Hndo).
  unfold Shutdown, Clear, ClearIoctx. cbn.
  assert (release_all (owned s) (world s) =
    (w1 ← release_all (ids (table1 (ptable s))) (world s);
     w2 ← release_all (ids (table2 (ptable s))) w1; release_all (pmap_ids (pMap s)) w2)) as Hsplit.
  { unfold owned. rewrite release_all_app. destruct (release_all _ _); [cbn|done].
    by rewrite release_all_app. }
  destruct (release_all_spec (owned s) (world s) Hndo) as (w' & Hw & Hnx & Hlive).
  { intros id Hid. apply Hl, elem_of_app. by right. }
  rewrite Hw in Hsplit.
  destruct (release_all _ _) as [w1|]; cbn in *; [|done].
  destruct (release_all _ w1) as [w2|]; cbn in *; [|done]. rewrite <- Hsplit. cbn.
  assert (forall s' : t, ptable s' = IOCtxTable.Init -> pMap s' = ∅ -> owned s' = []) as Hown.
  { intros s' E1 E2. unfold owned, ids, pmap_ids. rewrite E1, E2. cbn. by rewrite !map_to_list_empty. }
  assert (forall id, id ∈ ext -> live w' !! id = live (world s) !! id) as Hext.
  { intros id Hid. rewrite Hlive. rewrite bool_decide_eq_false_2; [done|]. by apply Hdis. }
  assert (all_ok -> forall id, is_Some (live w' !! id) -> id ∈ ext) as Hleft.
  { intros Ha id. rewrite Hlive. case_bool_decide as E; [by intros []|]. intros Hid.
    by destruct (proj1 (elem_of_app _ _ _) (Hok Ha id Hid)). }
  destruct (Wrapper.RadosClientShutdown_one c (opened s) _ Hop Hdo) as (o1 & Es1 & Ho1 & Hd1).
  destruct (Wrapper.shutdown_clients_all (ioClientVec s) o1 []) as (o2 & Es2 & ->%Permutation_nil_r); [by rewrite app_nil_r|done|].
  rewrite Hc, Es1. cbn [mbind option_bind]. rewrite Es2. cbn [mbind option_bind].
  eexists. split; [reflexivity|]. split; [by apply Hown|]. split; [done|].
  split; [|split; [|split]]; [split| | |]; cbn [world set_state upd].
  - rewrite Hown, app_nil_r by done. split_and!; [done| | |done].
    + intros id Hid. rewrite Hext by done. apply Hl, elem_of_app. by left.
    + intros id. rewrite Hlive, Hnx. case_bool_decide; [by intros []|]. apply Hb.
  - intros p m Hm. cbn in Hm. by rewrite lookup_empty in Hm.
  - intros id Hid. rewrite Hlive. by rewrite bool_decide_eq_true_2.
  - intros id Hid. rewrite Hext by done. apply Hl, elem_of_app. by left.
  - exact Hleft.
Qed.
End ops.

(** The object as the constructor leaves it: [count] is not initialised. *)
Definition fresh (c0 : Z) : t :=
  {| radosClient := None; ioClientVec := []; clientNum := 0; vecMask := 0; count := c0;
     pMap := ∅; ptable := IOCtxTable.Init; world := {| live := ∅; next_id := 1 |};
     opened := []; handles := 0; state := PROXY_DOWN |}.

Lemma U32AlignUp_cases x : 0 <= x < 2 ^ 32 ->
  match U32AlignUp x with
  | Some v => 1 <= x <= 2 ^ 31 /\ (exists n, 0 <= n <= 31 /\ v = 2 ^ n) /\ x <= v < 2 * x
  | None => x = 0 \/ 2 ^ 31 < x
  end.
Proof.
  intros Hx. unfold U32AlignUp. destruct (x =? 1) eqn:E1; bprop.
  { subst. split; [lia|]. split; [by exists 0|lia]. }
  destruct (decide (x = 0)) as [->|Hne]; [by left|].
  rewrite (u32_small (x - 1)) by lia. unfold clz32, ALIGNBASE.
  pose proof (Z.log2_spec (x - 1) ltac:(lia)) as Hlog.
  pose proof (Z.log2_nonneg (x - 1)) as H0. set (k := Z.log2 (x - 1)) in *. clearbody k.
  replace (32 - (31 - k)) with (k + 1) by lia. rewrite Z.pow_succ_r in Hlog by lia.
  destruct (k + 1 <? 32) eqn:E2; bprop.
  - rewrite Z.shiftl_mul_pow2, Z.mul_1_l by lia.
    assert (2 ^ (k + 1) = 2 * 2 ^ k) as Hp by (rewrite Z.pow_add_r by lia; lia).
    assert (2 ^ (k + 1) <= 2 ^ 31) by (apply Z.pow_le_mono_r; lia).
    assert (u32 (s32 (2 ^ (k + 1))) = 2 ^ (k + 1)) as ->.
    { destruct (decide (k + 1 = 31)) as [->|]; [done|].
      assert (2 ^ (k + 1) <= 2 ^ 30) by (apply Z.pow_le_mono_r; lia).
      rewrite s32_small by lia. rewrite u32_small; lia. }
    split; [lia|]. split; [exists (k + 1); lia|lia].
  - right. assert (2 ^ 31 <= 2 ^ k) by (apply Z.pow_le_mono_r; lia). lia.
Qed.

(** [U32AlignUp] rounds a client count between 1 and 2^31 up to the next
    power of two (the least one that is not smaller, always a 32-bit value);
    for 0, which the configuration may give, and above 2^31 the source shifts
    an [int] by 32 bits, which is undefined. *)
Theorem U32AlignUp_correct (x : Z) (Hx : 0 <= x < 2 ^ 32) :
  (is_Some (U32AlignUp x) <-> 1 <= x <= 2 ^ 31) /\
  forall v, U32AlignUp x = Some v ->
    (exists n, 0 <= n <= 31 /\ v = 2 ^ n) /\ x <= v /\
    forall n, 0 <= n -> x <= 2 ^ n -> v <= 2 ^ n.
Proof.
  pose proof (U32AlignUp_cases _ Hx) as H. destruct (U32AlignUp x) as [v|].
  - destruct H as (H1 & (n & Hn & ->) & H3). split; [split; [done|by eexists]|].
    intros v' [= <-]. split; [by exists n|]. split; [lia|]. intros m Hm Hxm.
    destruct (decide (n <= m)); [by apply Z.pow_le_mono_r; lia|].
    assert (2 ^ m * 2 <= 2 ^ n); [|lia].
    change 2 with (2 ^ 1) at 2. rewrite <- Z.pow_add_r by lia. apply Z.pow_le_mono_r; lia.
  - split; [|done]. split; [by intros [? ?]|lia].
Qed.

Lemma U32AlignUp_correct_witness : 5 <= 8 /\ U32AlignUp 5 = Some 8.
Proof.
  assert (H8 : U32AlignUp 5 = Some 8) by (vm_compute; reflexivity).
  split; [|exact H8]. destruct (U32AlignUp_correct 5 ltac:(lia)) as [_ H].
  exact (proj1 (proj2 (H 8 H8))).
Defined.

Lemma init_clients_spec envs conf cc n i vec op ret vec' op' :
  init_clients envs conf cc n i vec op = (ret, vec', op') ->
  ret <= 0 /\ (0 <= ret -> vec' = vec ++ seqZ i (Z.of_nat n) /\ op' = op ++ seqZ i (Z.of_nat n)).
Proof.
  revert i vec op. induction n as [|n IH]; intros i vec op; cbn [init_clients].
  - intros [= <- <- <-]. split; [done|]. intros _. by rewrite !app_nil_r.
  - destruct (_ <? 0) eqn:E; bprop; [intros [= <- <- <-]; lia|].
    intros H. apply IH in H as [H1 H2]. split; [done|]. intros Hr. destruct (H2 Hr) as [-> ->].
    rewrite (seqZ_cons i (Z.of_nat (S n))) by lia. rewrite <- !app_assoc. cbn.
    replace (Z.pred (Z.of_nat (S n))) with (Z.of_nat n) by lia.
    replace (Z.succ i) with (i + 1) by lia. done.
Qed.

Lemma Init_active envs conf cc msgr pid wk cfg c0 r s new_ok ioctx_create :
  0 <= ProxyConfig.radosCtxNum cfg < 2 ^ 32 ->
  Init envs conf cc msgr pid wk cfg (fresh c0) = Some (r, s) -> state s = PROXY_ACTIVE ->
  setup s /\ inv new_ok ioctx_create [] s /\ count s = c0 /\
  ProxyConfig.radosCtxNum cfg <= clientNum s.
Proof.
  intros Hcfg Hinit Hst. unfold Init, MemberInit in Hinit.
  pose proof (U32AlignUp_cases _ Hcfg) as Hu. destruct (U32AlignUp _) as [v|]; [|done].
  destruct Hu as (_ & (n & Hn & ->) & Hv). cbn in Hinit.
  destruct (RadosInit envs conf cc _) as [ret s1] eqn:E.
  destruct (ret <? 0) eqn:Er; bprop.
  { injection Hinit as <- <-. unfold RadosInit in E. cbn in E.
    destruct (Wrapper.ci_ret _ <? 0); [by injection E as <- <-|].
    destruct (init_clients _ _ _ _ _ _ _) as [[? ?] ?]. by injection E as <- <-. }
  unfold RadosInit in E. cbn in E.
  destruct (Wrapper.ci_ret _ <? 0) eqn:E0; bprop; [by injection E as <- <-; lia|].
  destruct (init_clients _ _ _ _ _ _ _) as [[ret' vec] op] eqn:Ec. injection E as <- <-.
  apply init_clients_spec in Ec as [_ Hc]. destruct (Hc Er) as [-> ->]. clear Hc.
  assert (2 ^ n <= 2 ^ 31) by (apply Z.pow_le_mono_r; lia).
  assert (0 < 2 ^ n) by (apply Z.pow_pos_nonneg; lia).
  enough (forall st h, let s := set_state st (0 :: seqZ 1 (Z.of_nat (Z.to_nat (2 ^ n))))
    {| radosClient := Some 0; ioClientVec := [] ++ seqZ 1 (Z.of_nat (Z.to_nat (2 ^ n)));
       clientNum := 2 ^ n; vecMask := u32 (2 ^ n - 1); count := c0; pMap := ∅;
       ptable := IOCtxTable.Init; world := {| live := ∅; next_id := 1 |};
       opened := [] ++ [0] ++ seqZ 1 (Z.of_nat (Z.to_nat (2 ^ n))); handles := h; state := PROXY_INITING |} in
    setup s /\ inv new_ok ioctx_create [] s /\ count s = c0 /\
    ProxyConfig.radosCtxNum cfg <= clientNum s) as Hgoal.
  { destruct (msgr <? 0); [apply bind_Some in Hinit as (? & _ & Hinit); by injection Hinit as <- <-|].
    destruct (if pid && _ then _ else _) as [ret2 ?]. destruct (ret2 <? 0); [by injection Hinit as <- <-|].
    destruct (negb wk); injection Hinit as <- <-; [done|]. apply Hgoal. }
  intros st h. cbn. split; [|split; [split|split]].
  - exists n. cbn. rewrite u32_small by lia. unfold len. rewrite length_seqZ.
    split_and!; try lia; [apply NoDup_seqZ|]. exists 0. split_and!; [done..|].
    apply NoDup_cons. split; [rewrite elem_of_seqZ; lia|apply NoDup_seqZ].
  - unfold owned, ids, pmap_ids. cbn. rewrite !map_to_list_empty. cbn. split_and!; [constructor|..].
    + by intros ? ?%not_elem_of_nil.
    + intros id [x Hx]. cbn in Hx. by rewrite lookup_empty in Hx.
    + intros _ id [x Hx]. cbn in Hx. by rewrite lookup_empty in Hx.
  - intros p m Hm. cbn in Hm. by rewrite lookup_empty in Hm.
  - done.
  - lia.
Qed.

(** *** Properties of an active proxy *)
Section active.
Context (envs : Z -> Wrapper.rados_env) (conf : Wrapper.client_conf) (cephConf : bytes)
        (initMsgr : Z) (pid_ok worker_ok : bool) (cfg : ProxyConfig.ProxyControlCfg) (c0 r0 : Z)
        (s0 : t).
Context (new_ok : Z -> bool) (ioctx_create : Z -> Z -> pool_key -> Z) (get_id : Z -> Z).

(** [s0] is an active proxy just after [Init]. *)
Definition started : Prop :=
  0 <= ProxyConfig.radosCtxNum cfg < 2 ^ 32 /\ 0 <= c0 < 2 ^ 32 /\
  Init envs conf cephConf initMsgr pid_ok worker_ok cfg (fresh c0) = Some (r0, s0) /\
  state s0 = PROXY_ACTIVE.

(** C29: in every state an active proxy reaches, [GetIoCtxWithClient] picks
    the clients in turn, in the order of [ioClientVec], also when the 32-bit
    counter wraps; the context it returns was opened by the client it
    returns and for the pool asked for; and it fails only if some creation
    of a context fails. *)
Theorem GetIoCtxWithClient_correct (cs : list call) (s : t) (ext : list Z) (p : Z)
  (H0 : started) (Hr : run new_ok ioctx_create get_id cs (s0, []) = Some (s, ext)) :
  exists r c s', GetIoCtxWithClient new_ok ioctx_create p s = Some (r, c, s') /\
    ioClientVec s0 !! Z.to_nat ((c0 + picks cs) mod clientNum s0) = Some c /\
    match r with
    | Some id => live (world s') !! id = Some {| io_client := c; io_key := Some (ById p) |}
    | None => ~ all_ok new_ok ioctx_create
    end.
Proof.
  destruct H0 as (Hcfg & Hc0 & Hi & Hst).
  destruct (Init_active _ _ _ _ _ _ _ _ _ _ new_ok ioctx_create Hcfg Hi Hst) as (Hs & Hinv & Hct & _).
  destruct (run_inv new_ok ioctx_create get_id cs s0 [] Hinv Hs) as (s1 & ext1 & Hr1 & Hinv1 & Hsc & Hct1).
  { by rewrite Hct. }
  rewrite Hr in Hr1. injection Hr1 as <- <-.
  destruct (GetIoCtxWithClient_inv new_ok ioctx_create ext p s Hinv1 (setup_same _ _ Hsc Hs))
    as (r & c & s' & Hg & _ & _ & _ & Hl & Hm).
  exists r, c, s'. split; [done|]. split; [|done].
  destruct Hsc as (E1 & E2 & _). rewrite E1, E2, Hct1, Hct in Hl.
  replace ((c0 + picks cs) mod clientNum s0) with (u32 (c0 + picks cs) mod clientNum s0); [done|].
  destruct Hs as (n & Hn & -> & _). unfold u32, wrap.
  replace (2 ^ 32) with (2 ^ n * 2 ^ (32 - n)) by (rewrite <- Z.pow_add_r by lia; f_equal; lia).
  rewrite Z.rem_mul_r by (apply Z.pow_nonzero || apply Z.pow_pos_nonneg; lia).
  rewrite Z.mul_comm, Z_mod_plus_full. apply Z.mod_mod, Z.pow_nonzero; lia.
Qed.

(** Whatever was called before, [Shutdown] releases every context the
    proxy holds exactly once -- no context is freed twice -- and shuts every client
    down once, none of them twice; it leaves the contexts
    alone that callers got from [GetIoCtxFromCeph] and have not released, and
    when no creation failed, nothing else stays allocated. *)
Theorem Shutdown_releases (cs : list call) (s : t) (ext : list Z)
  (H0 : started) (Hr : run new_ok ioctx_create get_id cs (s0, []) = Some (s, ext)) :
  exists s', Shutdown s = Some s' /\ owned s' = [] /\ opened s' = [] /\
    (forall id, id ∈ owned s -> live (world s') !! id = None) /\
    (forall id, id ∈ ext -> is_Some (live (world s') !! id)) /\
    (all_ok new_ok ioctx_create -> forall id, is_Some (live (world s') !! id) -> id ∈ ext).
Proof.
  destruct H0 as (Hcfg & Hc0 & Hi & Hst).
  destruct (Init_active _ _ _ _ _ _ _ _ _ _ new_ok ioctx_create Hcfg Hi Hst) as (Hs & Hinv & Hct & _).
  destruct (run_inv new_ok ioctx_create get_id cs s0 [] Hinv Hs) as (s1 & ext1 & Hr1 & Hinv1 & Hsc & _).
  { by rewrite Hct. }
  rewrite Hr in Hr1. injection Hr1 as <- <-.
  destruct (Shutdown_inv _ _ _ _ Hinv1 (setup_same _ _ Hsc Hs)) as (s' & H1 & H2 & H3 & _ & H4 & H5 & H6). by exists s'.
Qed.
End active.
End CephProxy.

(** ** Concrete runs of the proxy *)
Module CephProxyExamples.
Import IoCtx CephProxy.

(** A cluster whose every call succeeds. *)
Definition env_ok : Wrapper.rados_env :=
  {| Wrapper.r_new := true; Wrapper.r_init := 0; Wrapper.r_conf_read_file := fun _ => 0;
     Wrapper.r_conf_get := fun _ => (0, bs "cephx"); Wrapper.r_conf_set := fun _ _ => 0;
     Wrapper.r_connect := fun _ => 0 |}.
Definition conf0 : Wrapper.client_conf :=
  {| Wrapper.cc_keyring := bs "k"; Wrapper.cc_mon_option := bs "m"; Wrapper.cc_mon_timeout := 0;
     Wrapper.cc_osd_option := bs "o"; Wrapper.cc_osd_timeout := 0 |}.
(** Three contexts asked for: four clients. *)
Definition cfg3 : ProxyConfig.ProxyControlCfg :=
  ProxyConfig.set_radosCtxNum 3 ProxyConfig.InitClusterCfg.

Definition last_count : Z := 2 ^ 32 - 2.
Definition init_result : option (Z * t) :=
  Init (fun _ => env_ok) conf0 (bs "ceph.conf") 0 true true cfg3 (fresh last_count).
Definition s_active : t :=
  Eval vm_compute in match init_result with Some (_, s) => s | None => fresh 0 end.

Lemma s_active_started :
  started (fun _ => env_ok) conf0 (bs "ceph.conf") 0 true true cfg3 last_count 0 s_active.
Proof.
  split; [vm_compute; intuition discriminate|]. split; [vm_compute; intuition discriminate|].
  split; [vm_compute; reflexivity|reflexivity].
Qed.

Definition always (_ : Z) : bool := true.
Definition succeed (_ _ : Z) (_ : pool_key) : Z := 0.
Definition get_id0 (_ : Z) : Z := 7.

(** The counter wraps between the second and the third pick. *)
Definition calls : list call :=
  [CGetIoCtxWithClient 7; CGetIoCtx (bs "rbd"); CGetIoCtxWithClient 7; CPoolIdByName (bs "rbd");
   CGetIoCtx2 9; CGetIoCtxFromCeph 9; CGetIoCtxFromCeph 5; CReleaseIoCtx 0].

Lemma GetIoCtxWithClient_correct_witness :
  exists s r c s', run always succeed get_id0 calls (s_active, []) = Some (s, [9]) /\
    GetIoCtxWithClient always succeed 7 s = Some (r, c, s') /\
    ioClientVec s_active !! 0%nat = Some c.
Proof.
  eexists.
  destruct (GetIoCtxWithClient_correct (fun _ => env_ok) conf0 (bs "ceph.conf") 0 true true cfg3
              last_count 0 s_active always succeed get_id0 calls ltac:(shelve) [9] 7 s_active_started
              ltac:(vm_compute; reflexivity))
    as (r & c & s' & H1 & H2 & _).
  exists r, c, s'. split; [vm_compute; reflexivity|]. split; [exact H1|exact H2].
Defined.

(** Of the two contexts a caller asked for, one is not released. *)
Lemma Shutdown_releases_witness :
  exists s s', run always succeed get_id0 calls (s_active, []) = Some (s, [9]) /\ Shutdown s = Some s' /\
    length (owned s) = 6%nat /\ forall id, is_Some (live (world s') !! id) <-> id ∈ [9].
Proof.
  eexists.
  destruct (Shutdown_releases (fun _ => env_ok) conf0 (bs "ceph.conf") 0 true true cfg3
              last_count 0 s_active always succeed get_id0 calls ltac:(shelve) [9] s_active_started
              ltac:(vm_compute; reflexivity))
    as (s' & H1 & _ & _ & _ & H2 & H3).
  exists s'. split; [vm_compute; reflexivity|]. split; [exact H1|].
  split; [vm_compute; reflexivity|]. intros id. split; [|apply H2]. apply H3.
  split; [reflexivity|intros; discriminate].
Defined.

(** The third client cannot open pool 7. *)
Definition fail_client3 (_ c : Z) (_ : pool_key) : Z := if c =? 3 then - ENOENT else 0.

(** When one client fails to open the pool, the contexts the other clients
    already opened -- and the object of the failed attempt itself -- are
    forgotten: every retry leaks three more, and [Shutdown] releases none of
    them. *)
Theorem partial_open_leaks :
  exists s s', run always fail_client3 get_id0 [CGetIoCtxWithClient 7; CGetIoCtxWithClient 7] (s_active, [])
                 = Some (s, []) /\
    size (live (world s)) = 6%nat /\ owned s = [] /\
    Shutdown s = Some s' /\ size (live (world s')) = 6%nat.
Proof.
  eexists _, _. split; [vm_compute; reflexivity|]. split; [vm_compute; reflexivity|].
  split; [vm_compute; reflexivity|]. split; vm_compute; reflexivity.
Qed.
End CephProxyExamples.
