(* ===== verification/ContextRace.v ===== *)
(** * [CephProxy.cc], [PoolContext.h]: callers that ask for the same pool at once

    [GetIoCtx] and [GetIoCtx2] look into the table, create a context and insert it: the
    spin lock of [IOCtxTable] covers the first and the last of the three steps, nothing
    covers all of them.  [CephProxy.GetIoCtx] makes them one step; here they are three,
    taken by any number of threads of the caller, with the proxy's other functions in
    between. *)

From S2P Require Import Prelude CStr RadosWrapper CephProxy.

Module ContextRace.
Import IoCtx IOCtxTable CephProxy.

(** A thread outside the two functions; after a look-up that found nothing; with the
    context it has created. *)
Inductive pc := Idle | Missed (k : pool_key) | Created (k : pool_key) (id : Z).

(** [callers]: the contexts of [GetIoCtxFromCeph]; [returned]: the results so far;
    [lost]: contexts that were created and are in no table. *)
Record t := {
  proxy : CephProxy.t; callers : list Z; threads : list pc; returned : list (pool_key * option Z); lost : list Z
}.

Section race.
Context (new_ok : Z -> bool) (ioctx_create : Z -> Z -> pool_key -> Z) (get_id : Z -> Z).

(** Both overloads of [IOCtxTable::GetIoCtx] and [Insert]. *)
Definition lookup_ctx (k : pool_key) (pt : IOCtxTable.t) : option Z :=
  match k with ByName n => GetName n pt | ById p => GetId p pt end.
Definition insert_ctx (k : pool_key) (id : Z) (pt : IOCtxTable.t) : Z * IOCtxTable.t :=
  match k with ByName n => InsertName n id pt | ById p => InsertId p id pt end.
Definition create_ctx (k : pool_key) (s : CephProxy.t) : Z * option Z * World :=
  match k with
  | ByName n => RadosCreateIoCtx new_ok ioctx_create (main_client s) n (world s)
  | ById p => RadosCreateIoCtx2 new_ok ioctx_create (main_client s) p (world s)
  end.

(** What an [Insert] leaves without a table: the entry it overwrites, or its own. *)
Definition displaced (k : pool_key) (id : Z) (pt : IOCtxTable.t) : list Z :=
  match k with
  | ByName n => match table1 pt !! n with Some old => [old] | None => [] end
  | ById p => match table2 pt !! p with Some _ => [id] | None => [] end
  end.

Definition set_thread (i : nat) (p : pc) (x : t) : t :=
  {| proxy := proxy x; callers := callers x; threads := <[i := p]> (threads x); returned := returned x; lost := lost x |}.
Definition set_threads (l : list pc) (x : t) : t :=
  {| proxy := proxy x; callers := callers x; threads := l; returned := returned x; lost := lost x |}.
Definition set_proxy (s : CephProxy.t) (x : t) : t :=
  {| proxy := s; callers := callers x; threads := threads x; returned := returned x; lost := lost x |}.
Definition add_result (k : pool_key) (r : option Z) (x : t) : t :=
  {| proxy := proxy x; callers := callers x; threads := threads x; returned := returned x ++ [(k, r)]; lost := lost x |}.

Definition Call_step (i : nat) (k : pool_key) (x : t) : option t :=
  match threads x !! i with
  | Some Idle => match lookup_ctx k (ptable (proxy x)) with
                 | Some id => Some (add_result k (Some id) x)
                 | None => Some (set_thread i (Missed k) x)
                 end
  | _ => None
  end.

Definition Create_step (i : nat) (x : t) : option t :=
  match threads x !! i with
  | Some (Missed k) =>
      let s := proxy x in
      let '(ret, ctx, w) := create_ctx k s in
      let x := set_proxy (upd (count s) (pMap s) (ptable s) w s) x in
      match ctx with
      | Some id => Some (set_thread i (Created k id) x)
      | None => Some (set_thread i Idle (add_result k None x))
      end
  | _ => None
  end.

Definition Insert_step (i : nat) (x : t) : option t :=
  match threads x !! i with
  | Some (Created k id) =>
      let s := proxy x in
      let out := displaced k id (ptable s) in
      Some {| proxy := upd (count s) (pMap s) (snd (insert_ctx k id (ptable s))) (world s) s; callers := callers x;
              threads := <[i := Idle]> (threads x); returned := returned x ++ [(k, Some id)]; lost := lost x ++ out |}
  | _ => None
  end.

(** The functions that do not use the tables. *)
Definition table_free (c : call) : bool := match c with CGetIoCtx _ | CGetIoCtx2 _ => false | _ => true end.
Definition Other_step (c : call) (x : t) : option t :=
  if table_free c then
    '(s, ext) ← exec new_ok ioctx_create get_id c (proxy x, callers x);
    Some {| proxy := s; callers := ext; threads := threads x; returned := returned x; lost := lost x |}
  else None.

Inductive label := LCall (i : nat) (k : pool_key) | LCreate (i : nat) | LInsert (i : nat) | LOther (c : call).
Definition step (l : label) : t -> option t :=
  match l with
  | LCall i k => Call_step i k
  | LCreate i => Create_step i
  | LInsert i => Insert_step i
  | LOther c => Other_step c
  end.
Fixpoint run (ls : list label) (x : t) : option t :=
  match ls with [] => Some x | l :: ls' => x ← step l x; run ls' x end.

Definition start (n : nat) (s : CephProxy.t) : t :=
  {| proxy := s; callers := []; threads := replicate n Idle; returned := []; lost := [] |}.

(** ** One thread at a time: the functions of [CephProxy] *)

Definition of_key (k : pool_key) (s : CephProxy.t) : option Z * CephProxy.t :=
  match k with ByName n => GetIoCtx new_ok ioctx_create n s | ById p => GetIoCtx2 new_ok ioctx_create p s end.

(** A call whose three steps are not interrupted is [GetIoCtx] or [GetIoCtx2]. *)
Lemma undisturbed i k x : threads x !! i = Some Idle ->
  exists ls x', run ls x = Some x' /\ proxy x' = snd (of_key k (proxy x)) /\
    returned x' = returned x ++ [(k, fst (of_key k (proxy x)))] /\ lost x' = lost x /\ threads x' = threads x.
Proof.
  intros Hi. pose proof (lookup_lt_Some _ _ _ Hi) as Hlt.
  destruct (lookup_ctx k (ptable (proxy x))) as [id|] eqn:El.
  { exists [LCall i k], (add_result k (Some id) x). cbn. unfold Call_step. rewrite Hi, El. split; [done|].
    destruct k; cbn in El |- *; unfold GetIoCtx, GetIoCtx2; by rewrite El. }
  assert (exists l1, threads (set_thread i (Missed k) x) !! i = Some (Missed k) /\ l1 = set_thread i (Missed k) x) as (x1 & H1 & ->).
  { eexists. split; [|reflexivity]. cbn. by rewrite list_lookup_insert_eq. }
  destruct (create_ctx k (proxy x)) as [[ret ctx] w] eqn:Ec.
  assert (Create_step i (set_thread i (Missed k) x) = match ctx with
    | Some id => Some (set_thread i (Created k id) (set_proxy (upd (count (proxy x)) (pMap (proxy x)) (ptable (proxy x)) w (proxy x)) (set_thread i (Missed k) x)))
    | None => Some (set_thread i Idle (add_result k None (set_proxy (upd (count (proxy x)) (pMap (proxy x)) (ptable (proxy x)) w (proxy x)) (set_thread i (Missed k) x))))
    end) as H2.
  { unfold Create_step. rewrite H1. cbn [proxy set_thread]. by rewrite Ec. }
  destruct ctx as [id|].
  - exists [LCall i k; LCreate i; LInsert i]. eexists. split; [|split_and!].
    + cbn [run step]. unfold Call_step. rewrite Hi, El. cbn [mbind option_bind]. rewrite H2. cbn [mbind option_bind].
      unfold Insert_step. cbn [set_thread set_proxy threads]. rewrite !list_insert_insert_eq, list_lookup_insert_eq by done. reflexivity.
    + cbn. destruct k; cbn in *; unfold GetIoCtx, GetIoCtx2; rewrite El; cbn in Ec; by rewrite Ec.
    + cbn. destruct k; cbn in *; unfold GetIoCtx, GetIoCtx2; rewrite El; cbn in Ec; by rewrite Ec.
    + cbn. destruct k; cbn in *; unfold GetName, GetId in El; rewrite El; by rewrite app_nil_r.
    + cbn. rewrite ?list_insert_insert_eq. by apply list_insert_id.
  - exists [LCall i k; LCreate i]. eexists. split; [|split_and!].
    + cbn [run step]. unfold Call_step. rewrite Hi, El. cbn [mbind option_bind]. rewrite H2. reflexivity.
    + cbn. destruct k; cbn in *; unfold GetIoCtx, GetIoCtx2; rewrite El; cbn in Ec; by rewrite Ec.
    + cbn. destruct k; cbn in *; unfold GetIoCtx, GetIoCtx2; rewrite El; cbn in Ec; by rewrite Ec.
    + done.
    + cbn. rewrite ?list_insert_insert_eq. by apply list_insert_id.
Qed.

(** ** The invariant *)

Definition held (x : t) : list Z := flat_map (fun p => match p with Created _ id => [id] | _ => [] end) (threads x).

(** Opened by the proxy's own client, for the pool asked for. *)
Definition opened_as (s : CephProxy.t) (k : pool_key) : IoCtx.t :=
  {| io_client := main_client s; io_key := Some (match k with ByName n => ByName (c_str n) | ById p => ById p end) |}.
Definition good (s : CephProxy.t) (k : pool_key) (id : Z) : Prop := live (world s) !! id = Some (opened_as s k).

Record inv (x : t) : Prop := {
  v_proxy : CephProxy.inv new_ok ioctx_create (callers x ++ lost x ++ held x) (proxy x);
  v_setup : setup (proxy x);
  v_table : forall k id, lookup_ctx k (ptable (proxy x)) = Some id -> good (proxy x) k id;
  v_held : forall i k id, threads x !! i = Some (Created k id) -> good (proxy x) k id;
  v_returned : forall k id, (k, Some id) ∈ returned x ->
    good (proxy x) k id /\ (id ∈ lost x \/ exists k', lookup_ctx k' (ptable (proxy x)) = Some id)
}.

(** Contexts that are live stay what they are. *)
Definition stays (s s' : CephProxy.t) (l : list Z) : Prop :=
  radosClient s' = radosClient s /\ forall id, id ∈ l -> live (world s') !! id = live (world s) !! id.

Lemma good_stays s s' l k id : stays s s' l -> id ∈ l -> good s k id -> good s' k id.
Proof. intros [Hc Hl] Hi Hg. unfold good, opened_as, main_client. by rewrite Hl, Hc. Qed.

Lemma keeps_stays s w ext : CephProxy.inv new_ok ioctx_create ext s -> keeps (world s) w -> forall c pm pt,
  stays s (upd c pm pt w s) (ext ++ owned s).
Proof.
  intros [(_ & Hl & Hb & _) _] [_ Hk] c pm pt. split; [done|]. intros id Hid. cbn. apply Hk, Hb, Hl, Hid.
Qed.

Lemma looked_up_owned k s id : lookup_ctx k (ptable s) = Some id -> id ∈ owned s.
Proof.
  intros Hk. unfold owned. destruct k as [p|n]; cbn in Hk.
  - apply elem_of_app. right. apply elem_of_app. left. apply elem_of_ids. by exists p.
  - apply elem_of_app. left. apply elem_of_ids. by exists n.
Qed.

Lemma create_ctx_create k s : create_ctx k s =
  create new_ok ioctx_create (main_client s) (match k with ByName n => ByName (c_str n) | ById p => ById p end) (world s).
Proof. by destruct k. Qed.

(** *** The functions that do not use the tables *)

Lemma same_perm ext ext' s : ext ≡ₚ ext' -> CephProxy.inv new_ok ioctx_create ext s -> CephProxy.inv new_ok ioctx_create ext' s.
Proof. intros Hp [Hw Hm]. split; [|done]. eapply wf_world_perm; [|exact Hw]. by rewrite Hp. Qed.

Lemma pool_id_stays p s ext r s' : CephProxy.inv new_ok ioctx_create ext s -> GetPoolIdByPoolName new_ok ioctx_create get_id p s = Some (r, s') ->
  stays s s' (ext ++ owned s) /\ ptable s' = ptable s.
Proof.
  intros Hi. pose proof Hi as [Hw _]. unfold GetPoolIdByPoolName. destruct (RadosCreateIoCtx _ _ _ _ _) as [[ret ctx] w] eqn:E.
  unfold RadosCreateIoCtx in E. pose proof (create_keeps _ _ _ _ _ _ _ _ _ E Hw) as Hk.
  destruct (create_spec _ _ _ _ _ _ _ _ _ E Hw) as (Hn & _ & Hc). destruct ctx as [id|].
  2:{ intros [= <- <-]. by split; [apply keeps_stays|]. }
  destruct Hc as (-> & _ & _ & _ & _ & Hw').
  destruct (create_then_release _ _ _ _ _ Hk Hn Hw') as (w' & -> & _ & Hk2). cbn. intros [= <- <-].
  by split; [apply keeps_stays|].
Qed.

Lemma pool_name_stays f p m s ext r b s' : CephProxy.inv new_ok ioctx_create ext s ->
  GetPoolNameByPoolId new_ok ioctx_create f p m s = Some (r, b, s') -> stays s s' (ext ++ owned s) /\ ptable s' = ptable s.
Proof.
  intros Hi. pose proof Hi as [Hw _]. unfold GetPoolNameByPoolId. destruct (RadosCreateIoCtx2 _ _ _ _ _) as [[ret ctx] w] eqn:E.
  unfold RadosCreateIoCtx2 in E. pose proof (create_keeps _ _ _ _ _ _ _ _ _ E Hw) as Hk.
  destruct (create_spec _ _ _ _ _ _ _ _ _ E Hw) as (Hn & _ & Hc). destruct ctx as [id|].
  2:{ intros [= <- <- <-]. by split; [apply keeps_stays|]. }
  destruct Hc as (-> & _ & _ & _ & _ & Hw'). destruct (RadosGetPoolName _ _).
  destruct (create_then_release _ _ _ _ _ Hk Hn Hw') as (w' & -> & _ & Hk2). cbn. intros [= <- <- <-].
  by split; [apply keeps_stays|].
Qed.

Lemma with_client_stays p s ext r c s' : CephProxy.inv new_ok ioctx_create ext s -> setup s ->
  GetIoCtxWithClient new_ok ioctx_create p s = Some (r, c, s') -> stays s s' (ext ++ owned s) /\ ptable s' = ptable s.
Proof.
  intros Hi Hs. pose proof Hi as [Hw _]. unfold GetIoCtxWithClient. intros (cl & _ & Hg)%bind_Some.
  destruct (pMap s !! p) as [m|]; [injection Hg as <- <- <-; split; [|done]; apply keeps_stays; [done|apply keeps_refl]|].
  destruct (create_all new_ok ioctx_create p (ioClientVec s) ∅ (world s)) as [tm w] eqn:E.
  assert (keeps (world s) w) as Hk.
  { eapply create_all_spec; [exact E|by destruct Hs as (? & _ & _ & _ & _ & ? & _)|intros; apply lookup_empty|].
    unfold ids. rewrite map_to_list_empty. exact Hw. }
  destruct tm; injection Hg as <- <- <-; by split; [apply keeps_stays|].
Qed.

Lemma from_ceph_stays p s ext r s' : CephProxy.inv new_ok ioctx_create ext s ->
  GetIoCtxFromCeph new_ok ioctx_create p s = (r, s') -> stays s s' (ext ++ owned s) /\ ptable s' = ptable s.
Proof.
  intros Hi. pose proof Hi as [Hw _]. unfold GetIoCtxFromCeph. destruct (RadosCreateIoCtx2 _ _ _ _ _) as [[ret ctx] w] eqn:E.
  intros [= <- <-]. split; [|done]. apply keeps_stays; [done|]. eapply create_keeps; [exact E|exact Hw].
Qed.

Lemma Other_spec c s ext rest : table_free c = true -> CephProxy.inv new_ok ioctx_create (ext ++ rest) s -> setup s ->
  exists s' ext', exec new_ok ioctx_create get_id c (s, ext) = Some (s', ext') /\ CephProxy.inv new_ok ioctx_create (ext' ++ rest) s' /\
    setup s' /\ ptable s' = ptable s /\ stays s s' (rest ++ owned s).
Proof.
  intros Hc Hi Hs. assert (forall l s', stays s s' ((ext ++ rest) ++ owned s) -> l = rest ++ owned s -> stays s s' l) as Hsub.
  { intros l s' [H1 H2] ->. split; [done|]. intros id Hid. apply H2. rewrite <- app_assoc. apply elem_of_app. by right. }
  destruct c as [p|p|p|p|f p m|p|k]; try done; cbn [exec].
  - destruct (GetIoCtxWithClient_inv _ _ _ p s Hi Hs) as (r & c & s' & Hg & Hi' & Hsc & _). rewrite Hg.
    destruct (with_client_stays _ _ _ _ _ _ Hi Hs Hg) as [H1 H2]. exists s', ext. split_and!; [done..|by eapply setup_same|done|by eapply Hsub].
  - destruct (inv_GetPoolIdByPoolName _ _ get_id _ p s Hi) as (r & s' & Hg & Hi' & Hsc & _). rewrite Hg.
    destruct (pool_id_stays _ _ _ _ _ Hi Hg) as [H1 H2]. exists s', ext. split_and!; [done..|by eapply setup_same|done|by eapply Hsub].
  - destruct (inv_GetPoolNameByPoolId _ _ _ f p m s Hi) as ([r b] & s' & Hg & Hi' & Hsc & _). rewrite Hg.
    destruct (pool_name_stays _ _ _ _ _ _ _ _ Hi Hg) as [H1 H2]. exists s', ext. split_and!; [done..|by eapply setup_same|done|by eapply Hsub].
  - pose proof (inv_GetIoCtxFromCeph _ _ _ p s Hi) as Hg. destruct (GetIoCtxFromCeph _ _ p s) as [r s'] eqn:E.
    destruct Hg as (Hi' & Hsc & _). destruct (from_ceph_stays _ _ _ _ _ Hi E) as [H1 H2]. eexists s', _. split; [reflexivity|].
    split; [|split; [by eapply setup_same|split; [done|by eapply Hsub]]].
    destruct r; [|done]. eapply same_perm; [|exact Hi']. solve_Permutation.
  - destruct (inv_Release _ _ _ k s Hi) as (w & Hr & Hi'). destruct (decide (k < length ext)%nat) as [Hk|Hk].
    + rewrite lookup_app_l in Hr by done. rewrite Hr. cbn. eexists _, _. split; [reflexivity|]. rewrite delete_take_drop in Hi' |- *.
      rewrite take_app_le, drop_app_le in Hi' by lia. rewrite <- app_assoc. split; [exact Hi'|]. split; [exact Hs|]. split; [done|].
      split; [done|]. intros id Hid. destruct (lookup_lt_is_Some_2 _ _ Hk) as [x Hx]. rewrite Hx in Hr. cbn in Hr.
      destruct (live (world s) !! x); [|done]. injection Hr as <-. cbn. rewrite lookup_delete_ne; [done|]. intros ->.
      destruct Hi as [(Hnd & _) _]. rewrite <- app_assoc in Hnd. apply NoDup_app in Hnd as (_ & Hd & _).
      apply (Hd id); [by eapply list_elem_of_lookup_2|done].
    + rewrite (lookup_ge_None_2 ext k) by lia. cbn. eexists _, _. split; [reflexivity|].
      rewrite delete_take_drop, take_ge, drop_ge, app_nil_r by lia. split; [exact Hi|]. split; [exact Hs|]. split; [done|]. by split.
Qed.

(** *** Preservation *)

Lemma held_set i p x q : threads x !! i = Some q ->
  held (set_thread i p x) ++ match q with Created _ id => [id] | _ => [] end ≡ₚ
  held x ++ match p with Created _ id => [id] | _ => [] end.
Proof. intros Hi. unfold held. cbn. exact (flat_map_swap _ _ _ _ p Hi). Qed.

Lemma held_lookup i k id x : threads x !! i = Some (Created k id) -> id ∈ held x.
Proof.
  intros Hi. unfold held. apply list_elem_of_In, in_flat_map. exists (Created k id).
  split; [by eapply list_elem_of_In, list_elem_of_lookup_2|by left].
Qed.

Lemma inv_Call i k x x' : inv x -> Call_step i k x = Some x' -> inv x'.
Proof.
  intros [Vp Vs Vt Vh Vr] Hs. unfold Call_step in Hs. destruct (threads x !! i) as [[]|] eqn:Ei; try done.
  destruct (lookup_ctx k (ptable (proxy x))) as [id|] eqn:El; injection Hs as <-.
  - split; [exact Vp|exact Vs|exact Vt|exact Vh|]. intros k' id' Hin. cbn in *. apply elem_of_app in Hin as [Hin|Hin]; [by apply Vr|].
    apply list_elem_of_singleton in Hin as [= -> ->]. split; [by apply Vt|right; by exists k].
  - pose proof (held_set i (Missed k) x _ Ei) as Hh. rewrite !app_nil_r in Hh.
    split; [eapply same_perm; [|exact Vp]; cbn [set_thread callers lost]; by rewrite Hh|exact Vs|exact Vt| |exact Vr].
    intros j k' id' Hj. cbn in Hj |- *. apply list_lookup_insert_Some in Hj as [(_ & [=] & _)|[_ Hj]]. by eapply Vh.
Qed.

Lemma inv_Create i x x' : inv x -> Create_step i x = Some x' -> inv x'.
Proof.
  intros [Vp Vs Vt Vh Vr] Hs. unfold Create_step in Hs. destruct (threads x !! i) as [[|k|]|] eqn:Ei; try done.
  pose proof Vp as [Hw Hp]. destruct (create_ctx k (proxy x)) as [[ret ctx] w] eqn:E. rewrite create_ctx_create in E.
  pose proof (create_keeps _ _ _ _ _ _ _ _ _ E Hw) as Hk. destruct (create_spec _ _ _ _ _ _ _ _ _ E Hw) as (_ & _ & Hc).
  pose proof (keeps_stays _ _ _ Vp Hk (count (proxy x)) (pMap (proxy x)) (ptable (proxy x))) as Hst.
  set (s' := upd _ _ _ w _) in *.
  assert (wf_pmap s') as Hp' by (eapply wf_pmap_keeps; [exact Hp|by destruct Hw as (_ & _ & ? & _)|exact Hk|done|done]).
  assert (forall k0 id, id ∈ (callers x ++ lost x ++ held x) ++ owned (proxy x) -> good (proxy x) k0 id -> good s' k0 id) as Hg.
  { intros. by eapply good_stays. }
  assert (forall k0 id, lookup_ctx k0 (ptable s') = Some id -> good s' k0 id) as Vt'.
  { intros k0 id Hl. apply Hg; [|by apply Vt]. apply elem_of_app. right. by eapply looked_up_owned. }
  assert (forall j k0 id, threads x !! j = Some (Created k0 id) -> good s' k0 id) as Vh'.
  { intros j k0 id Hj. apply Hg; [|by eapply Vh]. rewrite !elem_of_app. left. right. right. by eapply held_lookup. }
  assert (forall k0 id, (k0, Some id) ∈ returned x ->
    good s' k0 id /\ (id ∈ lost x \/ exists k', lookup_ctx k' (ptable s') = Some id)) as Vr'.
  { intros k0 id Hin. destruct (Vr _ _ Hin) as [H1 H2]. split; [|exact H2]. apply Hg; [|done]. rewrite !elem_of_app.
    destruct H2 as [H2|[k' H2]]; [by left; right; left|right; by eapply looked_up_owned]. }
  destruct ctx as [id|]; injection Hs as <-.
  - destruct Hc as (_ & _ & _ & _ & Hl & Hw'). pose proof (held_set i (Created k id) x _ Ei) as Hh. rewrite app_nil_r in Hh.
    split; [|exact Vs|exact Vt'| |exact Vr'].
    + split; [|exact Hp']. eapply wf_world_perm; [|exact Hw']. cbn [set_thread set_proxy callers lost proxy].
      change (held (set_thread i (Created k id) (set_proxy s' x))) with (held (set_thread i (Created k id) x)).
      rewrite Hh. change (owned s') with (owned (proxy x)). solve_Permutation.
    + intros j k' id' Hj. cbn in Hj |- *. apply list_lookup_insert_Some in Hj as [(_ & [= <- <-] & _)|[_ Hj]]; [|by eapply Vh'].
      unfold good, opened_as. cbn [world upd s']. rewrite Hl. by destruct k.
  - destruct Hc as [_ Hw']. pose proof (held_set i Idle x _ Ei) as Hh. rewrite !app_nil_r in Hh.
    split; [|exact Vs|exact Vt'| |].
    + split; [|exact Hp']. eapply wf_world_perm; [|exact Hw']. cbn [set_thread set_proxy add_result callers lost proxy].
      change (held (set_thread i Idle (add_result k None (set_proxy s' x)))) with (held (set_thread i Idle x)). by rewrite Hh.
    + intros j k' id' Hj. cbn in Hj |- *. apply list_lookup_insert_Some in Hj as [(_ & [=] & _)|[_ Hj]]. by eapply Vh'.
    + intros k' id' Hin. cbn in Hin |- *. apply elem_of_app in Hin as [Hin|Hin]; [by apply Vr'|]. by apply list_elem_of_singleton in Hin.
Qed.

Lemma ids_replace {K} `{Countable K} (m : gmap K Z) k v old : m !! k = Some old -> ids (<[k := v]> m) ++ [old] ≡ₚ v :: ids m.
Proof.
  intros Hk. assert (ids m ≡ₚ old :: ids (delete k m)) as Hm.
  { rewrite <- (ids_insert (delete k m) k old) by apply lookup_delete_eq. by rewrite insert_delete_id. }
  rewrite Hm, <- insert_delete_eq, ids_insert by apply lookup_delete_eq. solve_Permutation.
Qed.

(** The context goes from the thread's hands into a table, or what it displaces is lost. *)
Lemma insert_moves k id s : owned (upd (count s) (pMap s) (snd (insert_ctx k id (ptable s))) (world s) s) ++ displaced k id (ptable s) ≡ₚ
  id :: owned s.
Proof.
  unfold owned. destruct k as [p|n]; cbn.
  - unfold InsertId. destruct (table2 (ptable s) !! p) eqn:E; cbn; [solve_Permutation|]. rewrite ids_insert by done. solve_Permutation.
  - destruct (table1 (ptable s) !! n) as [old|] eqn:E.
    + pose proof (ids_replace _ n id old E) as Hp. transitivity ((ids (<[n:=id]> (table1 (ptable s))) ++ [old]) ++ ids (table2 (ptable s)) ++ pmap_ids (pMap s)).
      * solve_Permutation.
      * rewrite Hp. done.
    + rewrite ids_insert by done. solve_Permutation.
Qed.

Lemma insert_lookup k id s k' id' : lookup_ctx k' (ptable s) = Some id' ->
  id' ∈ displaced k id (ptable s) \/ lookup_ctx k' (snd (insert_ctx k id (ptable s))) = Some id'.
Proof.
  intros Hl. destruct k as [p|n], k' as [p'|n']; cbn in *; unfold InsertId, GetId, GetName in *; cbn in *.
  - destruct (table2 (ptable s) !! p) eqn:E; cbn; [by right|]. right. rewrite lookup_insert_ne; [done|]. congruence.
  - right. by destruct (table2 (ptable s) !! p).
  - by right.
  - destruct (decide (n = n')) as [->|Hne]; [|right; by rewrite lookup_insert_ne]. rewrite Hl. left. by left.
Qed.

Lemma inserted_lookup k id s k' id' : lookup_ctx k' (snd (insert_ctx k id (ptable s))) = Some id' ->
  (k' = k /\ id' = id) \/ lookup_ctx k' (ptable s) = Some id'.
Proof.
  intros Hl. destruct k as [p|n], k' as [p'|n']; cbn in *; unfold InsertId, GetId, GetName in *; cbn in *.
  - destruct (table2 (ptable s) !! p) eqn:E; cbn in Hl; [by right|].
    apply lookup_insert_Some in Hl as [[-> ->]|[_ Hl]]; [by left|by right].
  - right. by destruct (table2 (ptable s) !! p).
  - by right.
  - apply lookup_insert_Some in Hl as [[-> ->]|[_ Hl]]; [by left|by right].
Qed.

Lemma inv_Insert i x x' : inv x -> Insert_step i x = Some x' -> inv x'.
Proof.
  intros [Vp Vs Vt Vh Vr] Hs. unfold Insert_step in Hs. destruct (threads x !! i) as [[|k|k id]|] eqn:Ei; try done.
  injection Hs as <-. pose proof (held_set i Idle x _ Ei) as Hh. rewrite app_nil_r in Hh. pose proof Vp as [Hw Hp].
  split; cbn [proxy callers lost returned threads].
  - split; [|exact Hp]. eapply wf_world_perm; [|exact Hw]. change (held {| proxy := _; callers := _; threads := <[i := Idle]> (threads x); returned := _; lost := _ |})
      with (held (set_thread i Idle x)). rewrite <- Hh. pose proof (insert_moves k id (proxy x)) as Hm.
    set (o := owned (upd _ _ _ _ _)) in *. set (d := displaced _ _ _) in *. clearbody o d.
    transitivity ((callers x ++ lost x ++ held (set_thread i Idle x)) ++ (id :: owned (proxy x))); [solve_Permutation|].
    rewrite <- Hm. solve_Permutation.
  - exact Vs.
  - intros k' id' Hl. cbn in Hl. apply inserted_lookup in Hl as [[-> ->]|Hl]; [by apply (Vh i)|by apply Vt].
  - intros j k' id' Hj. apply list_lookup_insert_Some in Hj as [(_ & [=] & _)|[_ Hj]]. by eapply Vh.
  - intros k' id' Hin. cbn [ptable upd]. apply elem_of_app in Hin as [Hin|Hin].
    + destruct (Vr _ _ Hin) as [H1 H2]. split; [exact H1|]. rewrite elem_of_app. destruct H2 as [H2|[k0 H2]]; [by left; left|].
      destruct (insert_lookup k id _ _ _ H2) as [H3|H3]; [by left; right|right; by exists k0].
    + apply list_elem_of_singleton in Hin as [= -> ->]. split; [by apply (Vh i)|]. rewrite elem_of_app.
      destruct k as [p|n]; cbn; unfold InsertId.
      * destruct (table2 (ptable (proxy x)) !! p) eqn:E; [left; right; by left|]. right. exists (ById p). cbn. unfold GetId. cbn. by rewrite lookup_insert_eq.
      * right. exists (ByName n). cbn. unfold GetName. cbn. by rewrite lookup_insert_eq.
Qed.

Lemma inv_Other c x x' : inv x -> Other_step c x = Some x' -> inv x'.
Proof.
  intros [Vp Vs Vt Vh Vr] Hs. unfold Other_step in Hs. destruct (table_free c) eqn:Ec; [|done].
  destruct (Other_spec c _ _ _ Ec Vp Vs) as (s' & ext' & He & Hi & Hs' & Hpt & Hst). rewrite He in Hs. cbn in Hs. injection Hs as <-.
  assert (forall k id, id ∈ (lost x ++ held x) ++ owned (proxy x) -> good (proxy x) k id -> good s' k id) as Hg.
  { intros. by eapply good_stays. }
  split; cbn [proxy callers lost returned threads]; [exact Hi|exact Hs'| | |]; rewrite ?Hpt.
  - intros k id Hl. apply Hg; [|by apply Vt]. rewrite !elem_of_app. right. by eapply looked_up_owned.
  - intros j k id Hj. apply Hg; [|by eapply Vh]. rewrite !elem_of_app. left. right. by eapply held_lookup.
  - intros k id Hin. destruct (Vr _ _ Hin) as [H1 H2]. split; [|exact H2]. apply Hg; [|done]. rewrite !elem_of_app.
    destruct H2 as [H2|[k' H2]]; [by left; left|right; by eapply looked_up_owned].
Qed.

Lemma race_inv_run ls : forall x x', inv x -> run ls x = Some x' -> inv x'.
Proof.
  induction ls as [|l ls IH]; intros x x' Hi Hr; cbn in Hr; [by injection Hr as <-|].
  apply bind_Some in Hr as (x1 & H1 & Hr). eapply IH; [|exact Hr].
  destruct l; cbn in H1; [by eapply inv_Call|by eapply inv_Create|by eapply inv_Insert|by eapply inv_Other].
Qed.

(** *** Calls that do not overlap *)

Definition key_of (p : pc) : option pool_key := match p with Idle => None | Missed k | Created k _ => Some k end.

(** The callers never ask for a pool while another thread is still asking for it. *)
Definition alone (l : label) (x : t) : Prop :=
  match l with LCall _ k => forall j p, threads x !! j = Some p -> key_of p <> Some k | _ => True end.
Fixpoint alone_run (ls : list label) (x : t) : Prop :=
  match ls with
  | [] => True
  | l :: ls' => alone l x /\ match step l x with Some x' => alone_run ls' x' | None => True end
  end.

Record apart (x : t) : Prop := {
  a_new : forall i p k, threads x !! i = Some p -> key_of p = Some k -> lookup_ctx k (ptable (proxy x)) = None;
  a_keys : forall i j p q k, threads x !! i = Some p -> threads x !! j = Some q -> key_of p = Some k -> key_of q = Some k -> i = j;
  a_lost : lost x = []
}.

Lemma displaced_none k id s : lookup_ctx k (ptable s) = None -> displaced k id (ptable s) = [].
Proof. destruct k; cbn; unfold GetName, GetId; intros ->; done. Qed.

(** A thread that changes its place without taking a new key. *)
Lemma apart_set i p q x : apart x -> threads x !! i = Some q -> key_of p = None \/ key_of p = key_of q -> apart (set_thread i p x).
Proof.
  intros [A1 A2 A3] Hi Hk. split; [| |exact A3]; cbn.
  - intros j r k Hj Hr. apply list_lookup_insert_Some in Hj as [(<- & <- & _)|[_ Hj]]; [|by eapply A1].
    destruct Hk as [Hk|Hk]; rewrite Hk in Hr; [done|]. by eapply A1.
  - intros j j' r r' k Hj Hj' Hr Hr'.
    apply list_lookup_insert_Some in Hj as [(<- & <- & _)|[Hn Hj]], Hj' as [(<- & <- & _)|[Hn' Hj']]; try done.
    + destruct Hk as [Hk|Hk]; rewrite Hk in Hr; [done|]. by eapply A2.
    + destruct Hk as [Hk|Hk]; rewrite Hk in Hr'; [done|]. by eapply A2.
    + by eapply A2.
Qed.

Lemma apart_step l x x' : inv x -> apart x -> alone l x -> step l x = Some x' -> apart x'.
Proof.
  intros Hi Ha Hl Hs. destruct l as [i k|i|i|c]; cbn in Hs, Hl.
  - unfold Call_step in Hs. destruct (threads x !! i) as [[]|] eqn:Ei; try done. destruct (lookup_ctx k _) eqn:El; injection Hs as <-.
    + by destruct Ha.
    + destruct Ha as [A1 A2 A3]. split; [| |exact A3]; cbn.
      * intros j r k' Hj Hr. apply list_lookup_insert_Some in Hj as [(_ & <- & _)|[_ Hj]]; [by injection Hr as <-|by eapply A1].
      * intros j j' r r' k' Hj Hj' Hr Hr'.
        apply list_lookup_insert_Some in Hj as [(<- & <- & _)|[Hn Hj]], Hj' as [(<- & <- & _)|[Hn' Hj']]; try done.
        -- injection Hr as <-. by destruct (Hl _ _ Hj').
        -- injection Hr' as <-. by destruct (Hl _ _ Hj).
        -- by eapply A2.
  - unfold Create_step in Hs. destruct (threads x !! i) as [[|k|]|] eqn:Ei; try done. destruct (create_ctx _ _) as [[ret ctx] w].
    set (s' := upd _ _ _ w _) in *. assert (apart (set_proxy s' x)) as Ha' by (by destruct Ha).
    destruct ctx as [id|]; injection Hs as <-.
    + apply (apart_set i _ (Missed k)); [done|exact Ei|by right].
    + pose proof (apart_set i Idle (Missed k) _ Ha' Ei ltac:(by left)) as [A1 A2 A3]. by split.
  - unfold Insert_step in Hs. destruct (threads x !! i) as [[|k|k id]|] eqn:Ei; try done. injection Hs as <-.
    pose proof Ha as [B1 B2 _]. pose proof (B1 _ _ _ Ei eq_refl) as Hnone.
    pose proof (apart_set i Idle _ _ Ha Ei ltac:(by left)) as [A1 A2 A3]. cbn in A1, A2, A3.
    split; cbn [threads proxy lost ptable upd]; [| |rewrite displaced_none, app_nil_r by done; exact A3].
    + intros j r k' Hj Hr. destruct (lookup_ctx k' _) as [id'|] eqn:El; [|done]. apply inserted_lookup in El as [[-> _]|El].
      * exfalso. apply list_lookup_insert_Some in Hj as [(_ & <- & _)|[Hn Hj]]; [done|]. apply Hn. eapply B2; [exact Ei|exact Hj|done|done].
      * by rewrite (A1 _ _ _ Hj Hr) in El.
    + exact A2.
  - unfold Other_step in Hs. destruct (table_free c) eqn:Ec; [|done]. destruct Hi as [Vp Vs _ _ _].
    destruct (Other_spec c _ _ _ Ec Vp Vs) as (s' & ext' & He & _ & _ & Hpt & _). rewrite He in Hs. cbn in Hs. injection Hs as <-.
    destruct Ha as [A1 A2 A3]. split; cbn; [by rewrite Hpt|done|done].
Qed.

Lemma apart_run ls : forall x x', inv x -> apart x -> alone_run ls x -> run ls x = Some x' -> apart x'.
Proof.
  induction ls as [|l ls IH]; intros x x' Hi Ha Hl Hr; cbn in Hl, Hr; [by injection Hr as <-|].
  apply bind_Some in Hr as (x1 & H1 & Hr). rewrite H1 in Hl. destruct Hl as [Hl Hl'].
  eapply (IH x1); [|by eapply apart_step|done|done]. apply (race_inv_run [l] x); [done|]. cbn. by rewrite H1.
Qed.

End race.

(** ** Theorems *)
Section active.
Context (envs : Z -> Wrapper.rados_env) (conf : Wrapper.client_conf) (cephConf : bytes)
        (initMsgr : Z) (pid_ok worker_ok : bool) (cfg : ProxyConfig.ProxyControlCfg) (c0 r0 : Z)
        (s0 : CephProxy.t).
Context (new_ok : Z -> bool) (ioctx_create : Z -> Z -> pool_key -> Z) (get_id : Z -> Z).

Lemma started_table : started envs conf cephConf initMsgr pid_ok worker_ok cfg c0 r0 s0 -> ptable s0 = IOCtxTable.Init.
Proof.
  intros (_ & _ & Hi & _). unfold Init, MemberInit in Hi. destruct (U32AlignUp _); [|done]. cbn in Hi.
  destruct (RadosInit envs conf cephConf _) as [ret s1] eqn:E.
  assert (ptable s1 = IOCtxTable.Init) as Ht.
  { unfold RadosInit in E. cbn in E. destruct (Wrapper.ci_ret _ <? 0); [by injection E as <- <-|].
    destruct (init_clients _ _ _ _ _ _ _) as [[? ?] ?]. by injection E as <- <-. }
  destruct (ret <? 0); [by injection Hi as <- <-|].
  destruct (initMsgr <? 0); [apply bind_Some in Hi as (? & _ & Hi); by injection Hi as <- <-|].
  destruct (if pid_ok && _ then _ else _) as [ret2 ?]. destruct (ret2 <? 0); [by injection Hi as <- <-|].
  by destruct (negb worker_ok); injection Hi as <- <-.
Qed.

Lemma held_start n : held (start n s0) = [].
Proof. unfold held, start. cbn. induction n; [done|exact IHn]. Qed.

Lemma race_start_inv n : started envs conf cephConf initMsgr pid_ok worker_ok cfg c0 r0 s0 ->
  inv new_ok ioctx_create (start n s0) /\ apart (start n s0).
Proof.
  intros H0. pose proof (started_table H0) as Ht. destruct H0 as (Hcfg & Hc0 & Hi & Hst).
  destruct (Init_active _ _ _ _ _ _ _ _ _ _ new_ok ioctx_create Hcfg Hi Hst) as (Hs & Hinv & _).
  assert (forall i p, replicate n Idle !! i = Some p -> p = Idle) as Hidle.
  { intros i p Hp. by apply lookup_replicate in Hp as [-> _]. }
  split; split; cbn [start proxy callers lost returned threads]; rewrite ?held_start, ?Ht; try done.
  - intros [p|q] id Hl; by rewrite ?lookup_empty in Hl.
  - intros i k id Hp. by apply Hidle in Hp.
  - intros k id Hin. by apply not_elem_of_nil in Hin.
  - intros i p k Hp. by rewrite (Hidle _ _ Hp).
  - intros i j p q k Hp _. by rewrite (Hidle _ _ Hp).
Qed.

Lemma all_idle_held x : (forall i p, threads x !! i = Some p -> p = Idle) -> held x = [].
Proof.
  unfold held. generalize (threads x). intros l Hl. induction l as [|p l IH]; [done|]. cbn.
  rewrite (Hl 0%nat p eq_refl). apply IH. intros i q Hq. by apply (Hl (S i)).
Qed.

(** C24: threads that call [GetIoCtx] and [GetIoCtx2] while others do, and while the
    proxy's other functions run: every context returned was opened by the proxy's client
    for the pool asked for and is not released before [Shutdown]; [Shutdown] releases each
    that a table still has, and no context twice.  Those that fell out of the tables --
    an insertion by name displaces the other thread's context, one by id its own -- stay
    allocated for ever, and when nothing fails, they and the callers' own are all that
    stays.  There are none if no thread asks for a pool while another thread is still
    asking for it. *)
Theorem racing_getters (n : nat) (ls : list label) (x : t)
  (H0 : started envs conf cephConf initMsgr pid_ok worker_ok cfg c0 r0 s0)
  (Hr : run new_ok ioctx_create get_id ls (start n s0) = Some x) :
  (forall k id, (k, Some id) ∈ returned x -> good (proxy x) k id) /\
  (exists s', Shutdown (proxy x) = Some s' /\
     (forall k id, (k, Some id) ∈ returned x -> id ∉ lost x -> live (world s') !! id = None) /\
     (forall id, id ∈ lost x ++ callers x -> is_Some (live (world s') !! id)) /\
     (all_ok new_ok ioctx_create -> (forall i p, threads x !! i = Some p -> p = Idle) ->
      forall id, is_Some (live (world s') !! id) -> id ∈ lost x ++ callers x)) /\
  (alone_run new_ok ioctx_create get_id ls (start n s0) -> lost x = []).
Proof.
  destruct (race_start_inv n H0) as [Hi Ha]. pose proof (race_inv_run _ _ _ _ _ _ Hi Hr) as [Vp Vs _ _ Vr].
  split; [intros k id Hin; by apply Vr|]. split.
  2:{ intros Hl. by destruct (apart_run _ _ _ _ _ _ Hi Ha Hl Hr). }
  destruct (Shutdown_inv _ _ _ _ Vp Vs) as (s' & Hs & _ & _ & _ & H3 & H4 & H5). exists s'. split; [done|]. split_and!.
  - intros k id Hin Hlost. destruct (Vr _ _ Hin) as [_ [?|[k' Hk]]]; [done|]. by eapply H3, looked_up_owned.
  - intros id Hin. apply H4. rewrite !elem_of_app in *. naive_solver.
  - intros Hok Hidle id Hid. pose proof (H5 Hok id Hid) as Hin. rewrite all_idle_held, app_nil_r in Hin by done.
    rewrite !elem_of_app in *. naive_solver.
Qed.
End active.
End ContextRace.

(** ** Two threads *)
Module ContextRaceExamples.
Import IoCtx CephProxy CephProxyExamples ContextRace.

(** Both find no context of pool 9 and create one each; the first asks again. *)
Definition both : list label :=
  [LCall 0 (ById 9); LCall 1 (ById 9); LCreate 0; LCreate 1; LInsert 1; LInsert 0; LCall 0 (ById 9)].

(** The first thread is given a context the table does not have; it stays. *)
Lemma racing_getters_witness :
  exists x s', run always succeed get_id0 both (start 2 s_active) = Some x /\
    returned x = [(ById 9, Some 2); (ById 9, Some 1); (ById 9, Some 2)] /\ lost x = [1] /\
    Shutdown (proxy x) = Some s' /\ live (world s') !! 2 = None /\ is_Some (live (world s') !! 1).
Proof.
  eexists.
  destruct (racing_getters (fun _ => env_ok) conf0 (bs "ceph.conf") 0 true true cfg3 last_count 0 s_active
              always succeed get_id0 2 both ltac:(shelve) s_active_started ltac:(vm_compute; reflexivity))
    as (_ & (s' & H1 & H2 & H3 & _) & _).
  exists s'. split; [vm_compute; reflexivity|]. split; [vm_compute; reflexivity|]. split; [vm_compute; reflexivity|].
  split; [exact H1|]. split.
  - apply (H2 (ById 9)).
    + left.
    + intros Hin. apply list_elem_of_In in Hin. destruct Hin as [Hin|[]]. discriminate Hin.
  - apply H3. left.
Defined.
End ContextRaceExamples.
