(* ===== verification/ProxySystem.v ===== *)
(** * [CephProxy.cc], [RadosWorker.h]: the proxy with its worker threads

    The parts of the client adaptor put together: callers of the interface, the
    producers that queue requests, the worker threads, which ask the proxy for the
    IO context of each request ([CephProxy::GetIoCtxWithClient]) and hand it to
    librados, and the thread that shuts the proxy down -- stop and join worker
    after worker, then release all contexts.  The state is that of [ContextRace]
    (the proxy and the threads inside its [GetIoCtx] and [GetIoCtx2], which look up,
    create and insert in three separate steps) and of [RadosWorker] side by side; a
    step is one of theirs.  [GetIoCtxWithClient] is one step: it runs under the
    proxy's mutex.  A step of the source that would use freed memory, a released
    context or a null pointer is [Fault], one that has to wait is [Blocked]. *)

From S2P Require Import Prelude Utils RadosWorker WorkerStop RadosWrapper CephProxy ContextRace.

Module ProxySystem.
Import RadosIOWorker.
Section system.
Context {Q : Type -> Type} `{!FIFO Q}.
Context (hash : bytes -> Z) (workerNum : Z).
Context (new_ok : Z -> bool) (ioctx_create : Z -> Z -> IoCtx.pool_key -> Z) (get_id : Z -> Z).

(** What [RadosOperationAioOperate] was given: the request, the client and the
    context the pointer led to. *)
Record use := { u_req : RequestCtx; u_client : Z; u_ioctx : IoCtx.t }.

(** [Stopping ws joining]: [RadosWorker::Stop] has the workers [ws] to go, and
    is in the join of the first one or about to call its [WaitForEmpty]. *)
Inductive phase := Running | Stopping (ws : list nat) (joining : bool) | Down.

(** [getters]: the callers' threads, inside or outside [GetIoCtx] and [GetIoCtx2];
    [returned] and [lost] as in [ContextRace].
    [busy]: the threads between [GetIoCtxWithClient] and the end of a round, with
    the request they took, the context and the client they got. *)
Record t := {
  proxy : CephProxy.t; ext : list Z;
  getters : list ContextRace.pc; returned : list (IoCtx.pool_key * option Z); lost : list Z;
  table : RadosWorker.t (Q := Q); deleted : list nat;
  busy : gmap (nat * nat) (RequestCtx * option Z * Z);
  uses : list use; ph : phase
}.

Inductive result := Ok (s : t) | Blocked | Fault.

Inductive label :=
| NewCaller                                         (* one more thread that may call *)
| Call (l : ContextRace.label)                      (* a step of a function of the interface *)
| Enqueue (op : option RadosObjectOperation) (c : option Z) (ts : Z) (alloc alloc_ctx : bool)
| PostOne (w i : nat)                               (* the end of a producer's [Queue] *)
| GetCtx (w i : nat)                                (* a thread takes a request *)
| Thread (w i : nat) (aio : Z)                      (* its other steps *)
| BeginShutdown | WaitEmpty | Join | Release.       (* [CephProxy::Shutdown] *)

(** ** Updates *)
Definition set_proxy (p : CephProxy.t) (e : list Z) (s : t) : t :=
  {| proxy := p; ext := e; getters := getters s; returned := returned s; lost := lost s;
     table := table s; deleted := deleted s; busy := busy s; uses := uses s; ph := ph s |}.
Definition set_table (tb : RadosWorker.t) (s : t) : t :=
  {| proxy := proxy s; ext := ext s; getters := getters s; returned := returned s; lost := lost s;
     table := tb; deleted := deleted s; busy := busy s; uses := uses s; ph := ph s |}.
Definition set_phase (d : list nat) (p : phase) (s : t) : t :=
  {| proxy := proxy s; ext := ext s; getters := getters s; returned := returned s; lost := lost s;
     table := table s; deleted := d; busy := busy s; uses := uses s; ph := p |}.
Definition set_busy (b : gmap (nat * nat) (RequestCtx * option Z * Z)) (u : list use) (s : t) : t :=
  {| proxy := proxy s; ext := ext s; getters := getters s; returned := returned s; lost := lost s;
     table := table s; deleted := deleted s; busy := b; uses := u; ph := ph s |}.
Definition set_worker (w : nat) (wk : RadosIOWorker.t (Q := Q)) (s : t) : t :=
  set_table {| RadosWorker.ioWorkers := RadosWorker.ioWorkers (table s);
               RadosWorker.heap := <[w := wk]> (RadosWorker.heap (table s)) |} s.

(** The proxy and its callers. *)
Definition race (s : t) : ContextRace.t :=
  {| ContextRace.proxy := proxy s; ContextRace.callers := ext s; ContextRace.threads := getters s;
     ContextRace.returned := returned s; ContextRace.lost := lost s |}.
Definition set_race (x : ContextRace.t) (s : t) : t :=
  {| proxy := ContextRace.proxy x; ext := ContextRace.callers x; getters := ContextRace.threads x;
     returned := ContextRace.returned x; lost := ContextRace.lost x;
     table := table s; deleted := deleted s; busy := busy s; uses := uses s; ph := ph s |}.

Definition worker (w : nat) (s : t) : option RadosIOWorker.t := RadosWorker.heap (table s) !! w.

Definition is_deleted (w : nat) (s : t) : bool := bool_decide (w ∈ deleted s).

(** ** The steps *)

(** A step of a thread inside one of the proxy's functions.  [GetIoCtx] and
    [GetIoCtx2] are not among the functions that are one step. *)
Definition Call_step (l : ContextRace.label) (s : t) : result :=
  match ContextRace.step new_ok ioctx_create get_id l (race s), ph s with
  | Some _, Down => Fault
  | Some x, _ => Ok (set_race x s)
  | None, _ => match l with
               | ContextRace.LOther c => if ContextRace.table_free c then Fault else Blocked
               | _ => Blocked
               end
  end.

(** [CephProxy::Enqueue]: null or deleted workers fault. *)
Definition Enqueue_step (op : option RadosObjectOperation) (c : option Z) (ts : Z) (alloc alloc_ctx : bool) (s : t) : result :=
  if match op with
     | Some o => match RadosWorker.GetIOWorker (poolId o) (table s) with Some w => is_deleted w s | None => false end
     | None => false
     end then Fault
  else match RadosWorker.Queue hash workerNum op c ts alloc alloc_ctx (table s) with
       | Some (_, tb) => Ok (set_table tb s)
       | None => Fault
       end.

(** [queue[index]->Dequeue(&ctx)] and [GetIoCtxWithClient]; the request leaves
    the queue at the end of the round, which only this thread can see. *)
Definition GetCtx_step (w i : nat) (s : t) : result :=
  match worker w s with
  | None => Blocked
  | Some wk =>
      match lanes wk !! i, busy s !! (w, i) with
      | Some l, None =>
          match thread l with
          | Draining =>
              if is_deleted w s then Fault else
              match q_deq (queue l) with
              | Some (Some ctx, _) =>
                  match CephProxy.GetIoCtxWithClient new_ok ioctx_create (poolId (rc_op ctx)) (proxy s) with
                  | Some (r, c, p) =>
                      Ok (set_busy (<[(w, i) := (ctx, r, c)]> (busy s)) (uses s) (set_proxy p (ext s) s))
                  | None => Fault
                  end
              | Some (None, _) => Blocked
              | None => Fault
              end
          | _ => Blocked
          end
      | _, _ => Blocked
      end
  end.

(** The rest of [OpHandler]: the submission and its end for a busy thread. *)
Definition Thread_step (w i : nat) (aio : Z) (s : t) : result :=
  match worker w s with
  | None => Blocked
  | Some wk =>
      match lanes wk !! i with
      | None => Blocked
      | Some l =>
          let handled ioctx s :=
            match OpHandler i ioctx aio wk with
            | Some wk' => Ok (set_worker w wk' s)
            | None => Blocked
            end in
          match thread l, busy s !! (w, i) with
          | Exited, _ => Blocked
          | _, Some (ctx, r, c) =>
              if is_deleted w s then Fault else
              match r with
              | None => handled None (set_busy (delete (w, i) (busy s)) (uses s) s)
              | Some id =>
                  match IoCtx.live (CephProxy.world (proxy s)) !! id with
                  | None => Fault
                  | Some x =>
                      handled (Some id)
                        (set_busy (delete (w, i) (busy s)) (uses s ++ [{| u_req := ctx; u_client := c; u_ioctx := x |}]) s)
                  end
              end
          | pc, None =>
              if is_deleted w s then Fault else
              match pc, q_deq (queue l) with
              | Draining, Some (Some _, _) => Blocked        (* it takes the request first *)
              | Draining, None => Fault
              | _, _ => handled None s
              end
          end
      end
  end.

Definition step (a : label) (s : t) : result :=
  match a with
  | NewCaller => Ok (set_race (ContextRace.set_threads (getters s ++ [ContextRace.Idle]) (race s)) s)
  | Call l => Call_step l s
  | Enqueue op c ts alloc alloc_ctx =>
      match ph s with Down => Fault | _ => Enqueue_step op c ts alloc alloc_ctx s end
  | PostOne w i =>
      match worker w s with
      | Some wk => match post i wk with
                   | Some wk' => if is_deleted w s then Fault else Ok (set_worker w wk' s)
                   | None => Blocked
                   end
      | None => Blocked
      end
  | GetCtx w i => GetCtx_step w i s
  | Thread w i aio => Thread_step w i aio s
  | BeginShutdown =>
      match ph s with
      | Running => Ok (set_phase (deleted s) (Stopping (WorkerStop.in_order (table s)) false) s)
      | _ => Fault
      end
  | WaitEmpty =>
      match ph s with
      | Stopping (w :: ws) false =>
          if is_deleted w s then Fault else
          match wk ← worker w s; WorkerStop.WaitForEmpty workerNum wk with
          | Some wk' => Ok (set_phase (deleted s) (Stopping (w :: ws) true) (set_worker w wk' s))
          | None => Fault
          end
      | _ => Blocked
      end
  | Join =>
      match ph s with
      | Stopping (w :: ws) true =>
          if is_deleted w s then Fault else
          match worker w s with
          | Some wk => match WorkerStop.StopProc wk with
                       | Some wk' => Ok (set_phase (w :: deleted s) (Stopping ws false) (set_worker w wk' s))
                       | None => Blocked
                       end
          | None => Fault
          end
      | _ => Blocked
      end
  | Release =>
      match ph s with
      | Stopping [] _ =>
          match CephProxy.Shutdown (proxy s) with
          | Some p => Ok (set_phase (deleted s) Down
                            (set_table {| RadosWorker.ioWorkers := ∅; RadosWorker.heap := RadosWorker.heap (table s) |}
                               (set_proxy p (ext s) s)))
          | None => Fault
          end
      | _ => Blocked
      end
  end.

(** No producer is between [Enqueue] and [PostOne]. *)
Definition no_posting (s : t) : Prop :=
  forall w wk i l, worker w s = Some wk -> lanes wk !! i = Some l -> posting l = 0.

(** No thread is inside [GetIoCtx] or [GetIoCtx2]. *)
Definition no_getter (s : t) : Prop := forall i p, getters s !! i = Some p -> p = ContextRace.Idle.

(** No call is in progress. *)
Definition no_call (s : t) : Prop := no_posting s /\ no_getter s.

(** What the callers have to see to: no call once [Shutdown] was called, and
    [Shutdown] only when all calls have returned. *)
Definition legal (a : label) (s : t) : Prop :=
  match a with
  | Call (ContextRace.LCall _ _ | ContextRace.LOther _) | Enqueue _ _ _ _ _ => ph s = Running
  | BeginShutdown => ph s = Running /\ no_call s
  | _ => True
  end.

Inductive reach (s0 : t) : t -> Prop :=
| reach_refl : reach s0 s0
| reach_step s a s' : reach s0 s -> legal a s -> step a s = Ok s' -> reach s0 s'.

(** The same, on concrete runs. *)
Definition quiescent (s : t) : bool :=
  forallb (fun wk : RadosIOWorker.t (Q := Q) => forallb (fun l => posting l =? 0) (lanes wk)) (RadosWorker.heap (table s)) &&
  forallb (fun p => match p with ContextRace.Idle => true | _ => false end) (getters s).

Lemma quiescent_no_call s : quiescent s = true -> no_call s.
Proof.
  intros [Hq Hg]%andb_true_iff. split.
  - intros w wk i l Hw Hl. rewrite forallb_forall in Hq.
    specialize (Hq wk (proj1 (list_elem_of_In _ _) (list_elem_of_lookup_2 _ _ _ Hw))). rewrite forallb_forall in Hq.
    specialize (Hq l (proj1 (list_elem_of_In _ _) (list_elem_of_lookup_2 _ _ _ Hl))). by bprop.
  - intros i p Hp. rewrite forallb_forall in Hg.
    specialize (Hg p (proj1 (list_elem_of_In _ _) (list_elem_of_lookup_2 _ _ _ Hp))). by destruct p.
Qed.

Definition legalb (a : label) (s : t) : bool :=
  match a, ph s with
  | (Call (ContextRace.LCall _ _ | ContextRace.LOther _) | Enqueue _ _ _ _ _), Running => true
  | BeginShutdown, Running => quiescent s
  | (Call (ContextRace.LCall _ _ | ContextRace.LOther _) | Enqueue _ _ _ _ _ | BeginShutdown), _ => false
  | _, _ => true
  end.

Fixpoint run_legal (tr : list label) (s : t) : option t :=
  match tr with
  | [] => Some s
  | a :: tr' => if legalb a s then match step a s with Ok s' => run_legal tr' s' | _ => None end else None
  end.

Lemma run_legal_reach tr s0 s s' : reach s0 s -> run_legal tr s = Some s' -> reach s0 s'.
Proof.
  revert s. induction tr as [|a tr IH]; intros s Hr Hs; cbn [run_legal] in Hs; [by injection Hs as <-|].
  destruct (legalb a s) eqn:E; [|done]. destruct (step a s) as [s1| |] eqn:Es; [|done..]. apply (IH s1); [|done].
  eapply reach_step; [done| |done]. unfold legalb in E.
  destruct a as [|[]| | | | | | | |]; cbn [legal]; destruct (ph s); try done.
  split; [done|]. by apply quiescent_no_call.
Qed.

(** After [Init]. *)
Definition init (p : CephProxy.t) : t :=
  {| proxy := p; ext := []; getters := []; returned := []; lost := []; table := RadosWorker.init; deleted := []; busy := ∅; uses := []; ph := Running |}.

(** ** Invariant *)

Definition worker_ok (wk : RadosIOWorker.t (Q := Q)) : Prop := exists tr, run hash workerNum tr (RadosIOWorker.init workerNum) = Some wk.

Definition use_ok (u : use) : Prop :=
  u_ioctx u = {| IoCtx.io_client := u_client u; IoCtx.io_key := Some (IoCtx.ById (poolId (rc_op (u_req u)))) |}.

(** A busy thread is draining, its request is at the head of its queue, and its
    context is one of the proxy's table for the pool of the request. *)
Definition busy_ok (p : CephProxy.t) (heap : list (RadosIOWorker.t (Q := Q))) (k : nat * nat) (b : RequestCtx * option Z * Z) : Prop :=
  let '(ctx, r, c) := b in
  (exists wk l q, heap !! k.1 = Some wk /\ lanes wk !! k.2 = Some l /\ thread l = Draining /\ q_rep (queue l) (ctx :: q)) /\
  (forall id, r = Some id -> c ∈ CephProxy.ioClientVec p /\
     exists m, CephProxy.pMap p !! poolId (rc_op ctx) = Some m /\ m !! c = Some id).

Definition all_exited (wk : RadosIOWorker.t (Q := Q)) : Prop := forall i l, lanes wk !! i = Some l -> thread l = Exited.

Definition stopping (s : t) (ws : list nat) : Prop :=
  NoDup ws /\ (forall w, w ∈ ws -> w ∉ deleted s) /\ no_posting s /\
  forall w, is_Some (worker w s) <-> w ∈ ws \/ w ∈ deleted s.

(** The contexts that are in no table: the callers' own, the lost ones, and those
    that threads hold between creation and insertion. *)
Definition outside (s : t) : list Z := ext s ++ lost s ++ ContextRace.held (race s).

Record inv (s : t) : Prop := {
  i_proxy : CephProxy.inv new_ok ioctx_create (outside s) (proxy s);
  i_race : ph s <> Down -> ContextRace.inv new_ok ioctx_create (race s);
  i_idle : ph s <> Running -> no_getter s;
  i_setup : ph s <> Down -> CephProxy.setup (proxy s);
  i_workers : Forall worker_ok (RadosWorker.heap (table s));
  i_table : ph s <> Down -> RadosWorker.wf (table s) /\
    forall w, is_Some (worker w s) -> exists p, RadosWorker.ioWorkers (table s) !! p = Some w;
  i_deleted : forall w wk, w ∈ deleted s -> worker w s = Some wk -> all_exited wk;
  i_busy : map_Forall (busy_ok (proxy s) (RadosWorker.heap (table s))) (busy s);
  i_uses : Forall use_ok (uses s);
  i_phase : match ph s with
            | Running => deleted s = []
            | Stopping ws j => stopping s ws /\ (j = true -> ws <> [] /\
                forall w wk, head ws = Some w -> worker w s = Some wk -> WorkerStop.released wk)
            | Down => stopping s [] /\
                (CephProxy.all_ok new_ok ioctx_create ->
                 forall id, is_Some (IoCtx.live (CephProxy.world (proxy s)) !! id) -> id ∈ ext s ++ lost s)
            end
}.

(** ** One worker *)
Lemma worker_ok_step wk a wk' : worker_ok wk -> RadosIOWorker.step hash workerNum a wk = Some wk' -> worker_ok wk'.
Proof.
  intros [tr Hr] Hs. exists (tr ++ [a]). rewrite run_app, Hr. cbn. by rewrite Hs.
Qed.

Lemma worker_ok_lanes wk : worker_ok wk -> length (lanes wk) = Z.to_nat workerNum.
Proof. intros [tr Hr]. rewrite (WorkerStop.lanes_length_run _ _ _ _ _ Hr). apply length_replicate. Qed.

Lemma worker_ok_lane wk i l : worker_ok wk -> lanes wk !! i = Some l -> exists q, q_rep (queue l) q.
Proof.
  intros [tr Hr] Hl. destruct (reach_inv _ _ _ _ Hr) as (Hi & _). destruct (Hi _ _ Hl) as (q & Hq & _). by exists q.
Qed.

Lemma worker_ok_WaitForEmpty wk : worker_ok wk ->
  exists wk', WorkerStop.WaitForEmpty workerNum wk = Some wk' /\ worker_ok wk' /\ WorkerStop.released wk' /\
    forall i l', lanes wk' !! i = Some l' -> exists l, lanes wk !! i = Some l /\ thread l' = thread l /\
      queue l' = queue l /\ posting l' = posting l.
Proof.
  intros Hok. pose proof Hok as [tr Hr]. destruct (WorkerStop.WaitForEmpty_released _ _ _ _ Hr) as (wk' & Hw & Hrel & _).
  exists wk'. split; [done|]. split; [|split; [done|]].
  - unfold WorkerStop.WaitForEmpty in Hw. assert (worker_ok (set_stop wk)) as Hs by (by apply (worker_ok_step wk SetStop)).
    revert Hw Hs. generalize (set_stop wk). clear. induction (seq 0 (Z.to_nat workerNum)) as [|i js IH]; intros s Hw Hs; cbn in Hw.
    + by injection Hw as <-.
    + destruct (stop_post i s) as [s'|] eqn:E; [apply (IH s'); [done|by apply (worker_ok_step s (StopPost i))]|].
      exfalso. clear -Hw. induction js; cbn in Hw; [done|by apply IHjs].
  - rewrite WorkerStop.WaitForEmpty_spec in Hw by by apply worker_ok_lanes. injection Hw as <-. cbn.
    intros i l' Hl. rewrite list_lookup_fmap in Hl. destruct (lanes wk !! i) as [l|]; [|done]. injection Hl as <-. by exists l.
Qed.

(** A worker step leaves the other lanes alone. *)
Lemma OpHandler_lanes i r aio (wk wk' : RadosIOWorker.t (Q := Q)) : OpHandler i r aio wk = Some wk' ->
  (exists l l', lanes wk !! i = Some l /\ lanes wk' = <[i := l']> (lanes wk) /\ posting l' = posting l /\ thread l <> Exited) /\
  ioworkerStop wk' = ioworkerStop wk.
Proof.
  unfold OpHandler. intros (l & Hl & Hs)%bind_Some. destruct (thread l) eqn:E; [| | |done].
  - injection Hs as <-. split; [|done]. exists l. eexists. by rewrite E.
  - destruct (0 <? permits l); [|done]. injection Hs as <-. split; [|done]. exists l. eexists. by rewrite E.
  - apply bind_Some in Hs as ([[c|] q] & _ & Hs); injection Hs as <-; (split; [|done]); exists l; eexists; by rewrite E.
Qed.

Lemma post_lanes i (wk wk' : RadosIOWorker.t (Q := Q)) : post i wk = Some wk' ->
  exists l, lanes wk !! i = Some l /\ 0 < posting l /\
    lanes wk' = <[i := {| queue := queue l; permits := permits l + 1; posting := posting l - 1; thread := thread l; done_log := done_log l |}]> (lanes wk).
Proof.
  unfold post. intros (l & Hl & Hs)%bind_Some. destruct (0 <? posting l) eqn:E; [|done]. injection Hs as <-. bprop. by exists l.
Qed.

(** Enqueueing keeps what the threads see of their lanes. *)
Definition lane_sees (l l' : lane (Q := Q)) : Prop :=
  thread l' = thread l /\ forall c q, q_rep (queue l) (c :: q) -> exists q', q_rep (queue l') (c :: q').

Lemma lane_sees_refl l : lane_sees l l.
Proof. split; [done|]. intros c q Hq. by exists q. Qed.

Lemma worker_Queue ctx wk : 0 < workerNum -> worker_ok wk ->
  exists wk', RadosIOWorker.Queue hash workerNum ctx wk = Some wk' /\ worker_ok wk' /\
    forall i l, lanes wk !! i = Some l -> exists l', lanes wk' !! i = Some l' /\ lane_sees l l'.
Proof.
  intros Hn Hok. unfold RadosIOWorker.Queue. set (n := index_of hash workerNum (objectId (rc_op ctx))).
  assert (n < length (lanes wk))%nat as Hlt.
  { rewrite (worker_ok_lanes _ Hok). unfold n, index_of. pose proof (Z.mod_pos_bound (u32 (hash (objectId (rc_op ctx)))) workerNum Hn). lia. }
  destruct (lookup_lt_is_Some_2 _ _ Hlt) as [l Hl]. destruct (worker_ok_lane _ _ _ Hok Hl) as [q Hq].
  destruct (q_enq_ok _ _ ctx Hq) as (q' & He & Hq'). rewrite Hl. cbn [mbind option_bind]. rewrite He. cbn [mbind option_bind].
  eexists. split; [reflexivity|]. split.
  { apply (worker_ok_step wk (Submit ctx)); [done|]. cbn. unfold RadosIOWorker.Queue. fold n. rewrite Hl. cbn. by rewrite He. }
  cbn [lanes]. intros i k Hk. destruct (decide (i = n)) as [->|Hne].
  - rewrite list_lookup_insert_eq by done. eexists. split; [done|]. simplify_eq. split; [done|]. cbn.
    intros c q0 Hq0. exists (q0 ++ [ctx]). rewrite (q_rep_fun _ _ _ Hq Hq0) in Hq'. exact Hq'.
  - rewrite list_lookup_insert_ne by done. exists k. split; [done|apply lane_sees_refl].
Qed.

(** ** The table of workers *)
Definition heap_sees (h h' : list (RadosIOWorker.t (Q := Q))) : Prop :=
  forall w wk, h !! w = Some wk -> exists wk', h' !! w = Some wk' /\
    forall i l, lanes wk !! i = Some l -> exists l', lanes wk' !! i = Some l' /\ lane_sees l l'.

Lemma heap_sees_refl h : heap_sees h h.
Proof. intros w wk Hw. exists wk. split; [done|]. intros i l Hl. exists l. split; [done|apply lane_sees_refl]. Qed.

Lemma heap_sees_app h x : heap_sees h (h ++ x).
Proof.
  intros w wk Hw. exists wk. split; [by apply lookup_app_l_Some|]. intros i l Hl. exists l. split; [done|apply lane_sees_refl].
Qed.

Lemma heap_sees_insert h w wk wk' : h !! w = Some wk ->
  (forall i l, lanes wk !! i = Some l -> exists l', lanes wk' !! i = Some l' /\ lane_sees l l') -> heap_sees h (<[w := wk']> h).
Proof.
  intros Hw Hl v vk Hv. destruct (decide (v = w)) as [->|Hne].
  - rewrite list_lookup_insert_eq by by eapply lookup_lt_Some. simplify_eq. by exists wk'.
  - rewrite list_lookup_insert_ne by done. by apply heap_sees_refl.
Qed.

Lemma heap_sees_trans h1 h2 h3 : heap_sees h1 h2 -> heap_sees h2 h3 -> heap_sees h1 h3.
Proof.
  intros H1 H2 w wk Hw. destruct (H1 _ _ Hw) as (wk2 & Hw2 & Hs1). destruct (H2 _ _ Hw2) as (wk3 & Hw3 & Hs2).
  exists wk3. split; [done|]. intros i l Hl. destruct (Hs1 _ _ Hl) as (l2 & Hl2 & T1 & Q1). destruct (Hs2 _ _ Hl2) as (l3 & Hl3 & T2 & Q2).
  exists l3. split; [done|]. split; [congruence|]. intros c q Hq. destruct (Q1 _ _ Hq) as [q' Hq']. by eapply Q2.
Qed.

Definition table_ok (tb : RadosWorker.t (Q := Q)) : Prop :=
  RadosWorker.wf tb /\ Forall worker_ok (RadosWorker.heap tb) /\
  forall w, is_Some (RadosWorker.heap tb !! w) -> exists p, RadosWorker.ioWorkers tb !! p = Some w.

Lemma table_ok_Create p alloc tb : table_ok tb ->
  let tb' := snd (RadosWorker.CreateIOWorker workerNum p alloc tb) in
  table_ok tb' /\ heap_sees (RadosWorker.heap tb) (RadosWorker.heap tb').
Proof.
  intros (Hw & Ho & Hs). pose proof (RadosWorker.CreateIOWorker_wf workerNum p alloc tb Hw) as Hw'.
  unfold RadosWorker.CreateIOWorker in *. destruct (RadosWorker.ioWorkers tb !! p) eqn:E; [split; [done|apply heap_sees_refl]|].
  destruct alloc; [|split; [done|apply heap_sees_refl]]. cbn in *. split; [|apply heap_sees_app]. split; [done|]. cbn. split.
  - apply Forall_app. split; [done|]. apply Forall_singleton. by exists [].
  - intros w Hx. destruct (decide (w = length (RadosWorker.heap tb))) as [->|Hne]; [exists p; apply lookup_insert_eq|].
    assert (is_Some (RadosWorker.heap tb !! w)) as Hx'.
    { apply lookup_lt_is_Some in Hx. rewrite length_app in Hx. cbn in Hx. apply lookup_lt_is_Some. lia. }
    destruct (Hs _ Hx') as [p' Hp']. exists p'. rewrite lookup_insert_ne; [done|]. intros <-. congruence.
Qed.

Lemma table_ok_Queue op c ts alloc alloc_ctx tb : 0 < workerNum -> table_ok tb ->
  exists r tb', RadosWorker.Queue hash workerNum op c ts alloc alloc_ctx tb = Some (r, tb') /\
    table_ok tb' /\ heap_sees (RadosWorker.heap tb) (RadosWorker.heap tb').
Proof.
  intros Hn Hok. unfold RadosWorker.Queue. destruct op as [o|]; [|by exists (-1), tb; split_and!; [|done|apply heap_sees_refl]].
  destruct c as [cm|]; [|by exists (-1), tb; split_and!; [|done|apply heap_sees_refl]].
  destruct (poolId o <? 0); [by exists (-1), tb; split_and!; [|done|apply heap_sees_refl]|].
  destruct (match RadosWorker.GetIOWorker (poolId o) tb with Some w => _ | None => _ end) as [ow tb1] eqn:E.
  assert (table_ok tb1 /\ heap_sees (RadosWorker.heap tb) (RadosWorker.heap tb1) /\
          forall w, ow = Some w -> RadosWorker.ioWorkers tb1 !! poolId o = Some w) as (Hok1 & Hs1 & Hw).
  { destruct (RadosWorker.GetIOWorker (poolId o) tb) as [w|] eqn:Eg.
    - injection E as <- <-. split_and!; [done|apply heap_sees_refl|by intros w' [= <-]].
    - pose proof (table_ok_Create (poolId o) alloc tb Hok) as [H1 H2]. rewrite E in H1, H2. split_and!; [done..|].
      intros w ->. unfold RadosWorker.CreateIOWorker, RadosWorker.GetIOWorker in *. rewrite Eg in E.
      destruct alloc; [|done]. injection E as <- <-. apply lookup_insert_eq. }
  destruct ow as [w|]; [|by exists (-1), tb1]. destruct alloc_ctx; [|by exists (- ENOMEM), tb1].
  destruct Hok1 as ([Hb Hinj] & Ho & Hsurj). destruct (lookup_lt_is_Some_2 _ _ (Hb _ _ (Hw w eq_refl))) as [wk Hwk].
  rewrite Hwk. cbn [mbind option_bind]. pose proof (Forall_lookup_1 _ _ _ _ Ho Hwk) as Hok1.
  destruct (worker_Queue {| rc_op := o; rc_comp := cm; rc_ts := ts |} wk Hn Hok1) as (wk' & Hq & Hok' & Hl).
  rewrite Hq. cbn [mbind option_bind]. eexists _, _. split; [reflexivity|]. cbn. split; [split; [|split]; cbn|].
  - split; [|done]. intros p v Hp. cbn in *. rewrite length_insert. by eapply Hb.
  - by apply Forall_insert.
  - intros v Hv. apply Hsurj. apply lookup_lt_is_Some. apply lookup_lt_is_Some in Hv. by rewrite length_insert in Hv.
  - eapply heap_sees_trans; [exact Hs1|]. by eapply heap_sees_insert.
Qed.

(** ** The contexts of the proxy *)
Lemma GetIoCtxWithClient_table p s r c s' : CephProxy.GetIoCtxWithClient new_ok ioctx_create p s = Some (r, c, s') ->
  CephProxy.pMap s ⊆ CephProxy.pMap s' /\ CephProxy.ioClientVec s' = CephProxy.ioClientVec s /\ c ∈ CephProxy.ioClientVec s /\
  forall id, r = Some id -> exists m, CephProxy.pMap s' !! p = Some m /\ m !! c = Some id.
Proof.
  unfold CephProxy.GetIoCtxWithClient. intros (cl & Hc & Hg)%bind_Some. apply list_elem_of_lookup_2 in Hc.
  destruct (CephProxy.pMap s !! p) as [m|] eqn:Ep.
  - injection Hg as <- <- <-. split_and!; [done..|]. intros id Hid. by exists m.
  - destruct (CephProxy.create_all _ _ _ _ _ _) as [[tm|] w]; injection Hg as <- <- <-; cbn.
    + split_and!; [by apply insert_subseteq|done..|]. intros id Hid. exists tm. by rewrite lookup_insert_eq.
    + by split_and!.
Qed.

Lemma exec_table c s e s' e' : CephProxy.exec new_ok ioctx_create get_id c (s, e) = Some (s', e') ->
  CephProxy.pMap s ⊆ CephProxy.pMap s' /\ CephProxy.ioClientVec s' = CephProxy.ioClientVec s.
Proof.
  destruct c as [p|p|p|p|f p m|p|k]; cbn.
  - intros [= <- _]. unfold CephProxy.GetIoCtx. destruct (IOCtxTable.GetName _ _); [done|]. by destruct (IoCtx.RadosCreateIoCtx _ _ _ _ _) as [[? [?|]] ?].
  - intros [= <- _]. unfold CephProxy.GetIoCtx2. destruct (IOCtxTable.GetId _ _); [done|]. by destruct (IoCtx.RadosCreateIoCtx2 _ _ _ _ _) as [[? [?|]] ?].
  - intros ([[r c] x] & Hg & [= <- _])%bind_Some. apply GetIoCtxWithClient_table in Hg as (H1 & H2 & _). done.
  - intros ([r x] & Hg & [= <- _])%bind_Some. unfold CephProxy.GetPoolIdByPoolName in Hg.
    destruct (IoCtx.RadosCreateIoCtx _ _ _ _ _) as [[? [?|]] ?]; [apply bind_Some in Hg as (? & _ & Hg)|]; by injection Hg as _ <-.
  - intros ([[r b] x] & Hg & [= <- _])%bind_Some. unfold CephProxy.GetPoolNameByPoolId in Hg.
    destruct (IoCtx.RadosCreateIoCtx2 _ _ _ _ _) as [[? [?|]] ?]; [destruct (IoCtx.RadosGetPoolName _ _); apply bind_Some in Hg as (? & _ & Hg)|]; by injection Hg as _ _ <-.
  - unfold CephProxy.GetIoCtxFromCeph. destruct (IoCtx.RadosCreateIoCtx2 _ _ _ _ _) as [[? ?] ?]. by intros [= <- _].
  - intros (w & _ & [= <- _])%bind_Some. done.
Qed.

(** ** Every step keeps the invariant and none faults *)
Definition fine (r : result) : Prop := match r with Ok s' => inv s' | Blocked => True | Fault => False end.

Lemma busy_ok_mono p p' h h' k b : CephProxy.pMap p ⊆ CephProxy.pMap p' ->
  CephProxy.ioClientVec p' = CephProxy.ioClientVec p -> heap_sees h h' -> busy_ok p h k b -> busy_ok p' h' k b.
Proof.
  intros Hm Hv Hh. destruct b as [[ctx r] c]. intros [(wk & l & q & Hwk & Hl & Ht & Hq) Hr]. split.
  - destruct (Hh _ _ Hwk) as (wk' & Hwk' & Hs). destruct (Hs _ _ Hl) as (l' & Hl' & Ht' & Hq').
    destruct (Hq' _ _ Hq) as [q' Hq2]. exists wk', l', q'. split_and!; [done..|congruence|done].
  - intros id Hid. destruct (Hr _ Hid) as (Hc & m & Hp & Hmc). split; [by rewrite Hv|]. exists m. split; [|done].
    by eapply lookup_weaken.
Qed.

Lemma busy_mono (p p' : CephProxy.t) (h h' : list (RadosIOWorker.t (Q := Q))) (m : gmap (nat * nat) (RequestCtx * option Z * Z)) : CephProxy.pMap p ⊆ CephProxy.pMap p' ->
  CephProxy.ioClientVec p' = CephProxy.ioClientVec p -> heap_sees h h' ->
  map_Forall (busy_ok p h) m -> map_Forall (busy_ok p' h') m.
Proof. intros Hm Hv Hh H k b Hb. eapply busy_ok_mono; [done..|]. by apply H. Qed.

Lemma inv_live s w i ctx id c : inv s -> busy s !! (w, i) = Some (ctx, Some id, c) ->
  IoCtx.live (CephProxy.world (proxy s)) !! id =
    Some {| IoCtx.io_client := c; IoCtx.io_key := Some (IoCtx.ById (poolId (rc_op ctx))) |}.
Proof.
  intros Hi Hb. destruct (i_busy _ Hi _ _ Hb) as [_ Hr]. destruct (Hr _ eq_refl) as (Hc & m & Hp & Hmc).
  destruct (i_proxy _ Hi) as [_ Hwf]. destruct (Hwf _ _ Hp _ Hc) as (id' & Hid & Hl). congruence.
Qed.

(** A step of a caller leaves the table of the workers' contexts as it is, or adds to it. *)
Lemma race_table l x x' : ContextRace.step new_ok ioctx_create get_id l x = Some x' ->
  CephProxy.pMap (ContextRace.proxy x) ⊆ CephProxy.pMap (ContextRace.proxy x') /\
  CephProxy.ioClientVec (ContextRace.proxy x') = CephProxy.ioClientVec (ContextRace.proxy x).
Proof.
  destruct l as [i k|i|i|c]; cbn [ContextRace.step]; intros Hs.
  - unfold ContextRace.Call_step in Hs. destruct (ContextRace.threads x !! i) as [[]|]; try done.
    destruct (ContextRace.lookup_ctx _ _); by injection Hs as <-.
  - unfold ContextRace.Create_step in Hs. destruct (ContextRace.threads x !! i) as [[]|]; try done.
    destruct (ContextRace.create_ctx _ _ _ _) as [[? [?|]] ?]; by injection Hs as <-.
  - unfold ContextRace.Insert_step in Hs. destruct (ContextRace.threads x !! i) as [[]|]; try done. by injection Hs as <-.
  - unfold ContextRace.Other_step in Hs. destruct (ContextRace.table_free c); [|done].
    apply bind_Some in Hs as ([p e] & He & Hs). injection Hs as <-. by eapply exec_table.
Qed.

Lemma race_step_inv l x x' : ContextRace.inv new_ok ioctx_create x -> ContextRace.step new_ok ioctx_create get_id l x = Some x' ->
  ContextRace.inv new_ok ioctx_create x'.
Proof. intros Hi Hs. apply (ContextRace.race_inv_run new_ok ioctx_create get_id [l] x x' Hi). cbn. by rewrite Hs. Qed.

Lemma inv_set_race x s : inv s -> ph s = Running -> ContextRace.inv new_ok ioctx_create x ->
  CephProxy.pMap (proxy s) ⊆ CephProxy.pMap (ContextRace.proxy x) ->
  CephProxy.ioClientVec (ContextRace.proxy x) = CephProxy.ioClientVec (proxy s) -> inv (set_race x s).
Proof.
  intros Hi Hp Hx Hm Hv. pose proof Hx as [Vp Vs _ _ _]. assert (race (set_race x s) = x) as Er by by destruct x.
  destruct Hi as [_ _ _ _ Hw Ht Hd Hb Hu Hph]. constructor; rewrite ?Er; cbn; try done.
  - by eapply busy_mono; [..|apply heap_sees_refl|].
  - by rewrite Hp in *.
Qed.

Lemma fine_Call l s : inv s -> legal (Call l) s -> fine (step (Call l) s).
Proof.
  intros Hi Hl. cbn [step]. unfold Call_step.
  destruct (ContextRace.step new_ok ioctx_create get_id l (race s)) as [x|] eqn:Hs.
  - assert (ph s = Running) as Hp.
    { destruct l as [i k|i|i|c]; [exact Hl| | |exact Hl]; destruct (ph s) eqn:Hp; try done;
        pose proof (i_idle _ Hi ltac:(by rewrite Hp)) as Hid; cbn in Hs; unfold ContextRace.Create_step, ContextRace.Insert_step in Hs;
        cbn [race ContextRace.threads] in Hs; destruct (getters s !! i) as [q|] eqn:Eq; try done; by rewrite (Hid _ _ Eq) in Hs. }
    rewrite Hp. cbn [fine]. destruct (race_table _ _ _ Hs) as [Hm Hv].
    apply inv_set_race; [done|done| |exact Hm|exact Hv]. eapply race_step_inv; [|exact Hs]. apply Hi. by rewrite Hp.
  - destruct l as [i k|i|i|c]; try done. cbn in Hl. destruct (ContextRace.table_free c) eqn:Ec; [|done].
    destruct (i_race _ Hi ltac:(by rewrite Hl)) as [Vp Vs _ _ _].
    destruct (ContextRace.Other_spec new_ok ioctx_create get_id c _ _ _ Ec Vp Vs) as (s' & e & He & _).
    cbn in Hs. unfold ContextRace.Other_step in Hs. rewrite Ec in Hs. cbn [race ContextRace.proxy ContextRace.callers] in *.
    by rewrite He in Hs.
Qed.

Lemma fine_NewCaller s : inv s -> fine (step NewCaller s).
Proof.
  intros Hi. cbn [step fine]. set (x := ContextRace.set_threads _ _).
  assert (ContextRace.held x = ContextRace.held (race s)) as Eh.
  { unfold ContextRace.held. cbn. rewrite flat_map_app. cbn. apply app_nil_r. }
  assert (forall i p, (getters s ++ [ContextRace.Idle]) !! i = Some p -> getters s !! i = Some p \/ p = ContextRace.Idle) as Hg.
  { intros i p [Hp|[_ Hp]]%lookup_app_Some; [by left|right]. by apply list_lookup_singleton_Some in Hp as [_ <-]. }
  destruct Hi as [Hpr Hrace Hidle Hset Hw Ht Hd Hb Hu Hph]. constructor; try done.
  - unfold outside in *. change (race (set_race x s)) with x. rewrite Eh. exact Hpr.
  - intros Hp. change (race (set_race x s)) with x. destruct (Hrace Hp) as [V1 V2 V3 V4 V5]. split; [rewrite Eh; exact V1|exact V2|exact V3| |exact V5].
    intros i k id Hk. destruct (Hg _ _ Hk) as [Hk'|?]; [by eapply V4|done].
  - intros Hp i p Hk. destruct (Hg _ _ Hk) as [Hk'|?]; [by eapply (Hidle Hp)|done].
Qed.

Lemma inv_table_ok s : inv s -> ph s <> Down -> table_ok (table s).
Proof. intros Hi Hp. destruct (i_table _ Hi Hp) as [H1 H2]. split_and!; [done|apply Hi|done]. Qed.

Lemma fine_Enqueue op c ts alloc alloc_ctx s : 0 < workerNum -> inv s -> ph s = Running ->
  fine (step (Enqueue op c ts alloc alloc_ctx) s).
Proof.
  intros Hn Hi Hp. cbn [step]. rewrite Hp. unfold Enqueue_step.
  assert (deleted s = []) as Hd by (pose proof (i_phase _ Hi) as H; by rewrite Hp in H).
  assert (forall w, is_deleted w s = false) as Hdel.
  { intros w. unfold is_deleted. rewrite Hd. apply bool_decide_eq_false_2, not_elem_of_nil. }
  replace (match op with Some o => _ | None => false end) with false.
  2:{ destruct op as [o|]; [|done]. by destruct (RadosWorker.GetIOWorker _ _) as [w|]; [rewrite Hdel|]. }
  destruct (table_ok_Queue op c ts alloc alloc_ctx (table s) Hn (inv_table_ok s Hi ltac:(by rewrite Hp)))
    as (r & tb & Hq & (Hw & Ho & Hs) & Hh).
  rewrite Hq. destruct Hi as [Hpr Hrc Hid Hset _ _ _ Hb Hu Hph]. cbn. constructor; cbn; try done.
  - intros w wk Hin. rewrite Hd in Hin. by apply not_elem_of_nil in Hin.
  - by eapply busy_mono; [..|exact Hh|].
  - by rewrite Hp in *.
Qed.

(** A step of one worker that the threads of the others do not see. *)
Lemma stopping_set_worker s w wk wk' ws : worker w s = Some wk ->
  (forall i l', lanes wk' !! i = Some l' -> exists l, lanes wk !! i = Some l /\ posting l' = posting l) ->
  stopping s ws -> stopping (set_worker w wk' s) ws.
Proof.
  intros Hw Hl (Hnd & Hdis & Hpost & Hex). unfold worker in *. split_and!; [done..| |].
  - intros v vk i l Hv Hi. unfold worker in Hv. cbn in Hv. apply list_lookup_insert_Some in Hv as [(-> & -> & _)|[_ Hv]]; [|by eapply Hpost].
    destruct (Hl _ _ Hi) as (l0 & Hl0 & ->). by eapply Hpost.
  - intros v. unfold worker. cbn. rewrite <- Hex. unfold worker. rewrite !lookup_lt_is_Some. by rewrite length_insert.
Qed.

Lemma table_set_worker s w wk' : (RadosWorker.wf (table s) /\
    forall w, is_Some (worker w s) -> exists p, RadosWorker.ioWorkers (table s) !! p = Some w) ->
  RadosWorker.wf (table (set_worker w wk' s)) /\
    forall v, is_Some (worker v (set_worker w wk' s)) -> exists p, RadosWorker.ioWorkers (table s) !! p = Some v.
Proof.
  intros [[Hb Hinj] Hs]. split; [split; [|done]|].
  - intros p v Hp. cbn in *. rewrite length_insert. by eapply Hb.
  - intros v Hv. apply Hs. unfold worker in *. cbn in *. by rewrite lookup_lt_is_Some, length_insert, <- lookup_lt_is_Some in Hv.
Qed.

Lemma fine_PostOne w i s : inv s -> fine (step (PostOne w i) s).
Proof.
  intros Hi. cbn [step]. destruct (worker w s) as [wk|] eqn:Hw; [|done]. destruct (post i wk) as [wk'|] eqn:Hp; [|done].
  destruct (post_lanes _ _ _ Hp) as (l & Hl & Hpos & Hl').
  assert (ph s = Running) as Hph.
  { pose proof (i_phase _ Hi) as H. destruct (ph s); [done| |]; destruct H as [(_ & _ & Hno & _) _]; specialize (Hno _ _ _ _ Hw Hl); lia. }
  assert (deleted s = []) as Hd by (pose proof (i_phase _ Hi) as H; by rewrite Hph in H).
  unfold is_deleted. rewrite Hd, bool_decide_eq_false_2 by apply not_elem_of_nil.
  pose proof (Forall_lookup_1 _ _ _ _ (i_workers _ Hi) Hw) as Hok.
  pose proof (table_set_worker s w wk' (i_table _ Hi ltac:(by rewrite Hph))) as Htab.
  destruct Hi as [Hpr Hrc Hid Hset Hwk _ _ Hb Hu _]. cbn. constructor; cbn; try done.
  - apply Forall_insert; [done|]. by apply (worker_ok_step wk (Post i)).
  - intros v vk Hin. rewrite Hd in Hin. by apply not_elem_of_nil in Hin.
  - eapply busy_mono; [done..| |done]. eapply heap_sees_insert; [done|]. intros j k Hk. rewrite Hl'.
    destruct (decide (j = i)) as [->|Hne].
    + rewrite list_lookup_insert_eq by by eapply lookup_lt_Some. simplify_eq. eexists. split; [done|]. split; [done|]. intros c q Hq. by exists q.
    + rewrite list_lookup_insert_ne by done. exists k. split; [done|apply lane_sees_refl].
  - by rewrite Hph.
Qed.

Lemma deleted_exited s w wk i l : inv s -> worker w s = Some wk -> lanes wk !! i = Some l -> thread l <> Exited ->
  (w ∉ deleted s) /\ is_deleted w s = false /\ ph s <> Down.
Proof.
  intros Hi Hw Hl Ht. assert (w ∉ deleted s) as Hd by (intros Hin; by apply Ht, (i_deleted _ Hi _ _ Hin Hw i)).
  split; [done|]. split; [by apply bool_decide_eq_false_2|]. intros Hp. pose proof (i_phase _ Hi) as H. rewrite Hp in H.
  destruct H as [(_ & _ & _ & Hex) _]. destruct (proj1 (Hex w) ltac:(by eexists)) as [Hn|Hn]; [by apply not_elem_of_nil in Hn|done].
Qed.

Lemma fine_GetCtx w i s : inv s -> fine (step (GetCtx w i) s).
Proof.
  intros Hi. cbn [step]. unfold GetCtx_step. destruct (worker w s) as [wk|] eqn:Hw; [|done].
  destruct (lanes wk !! i) as [l|] eqn:Hl; [|done]. destruct (busy s !! (w, i)) eqn:Hb; [done|]. destruct (thread l) eqn:Ht; try done.
  destruct (deleted_exited s w wk i l Hi Hw Hl ltac:(by rewrite Ht)) as (_ & -> & Hph).
  pose proof (Forall_lookup_1 _ _ _ _ (i_workers _ Hi) Hw) as Hok. destruct (worker_ok_lane _ _ _ Hok Hl) as [q Hq].
  destruct (q_deq_ok _ _ Hq) as (q' & Hd & Hq'). rewrite Hd. destruct q as [|ctx q]; [done|]. cbn [fst Fifo.pop].
  destruct (CephProxy.GetIoCtxWithClient_inv new_ok ioctx_create (outside s) (poolId (rc_op ctx)) (proxy s) (i_proxy _ Hi) (i_setup _ Hi Hph))
    as (r & c & p & Hg & Hpi & Hsc & _). rewrite Hg.
  destruct (GetIoCtxWithClient_table _ _ _ _ _ Hg) as (Hm & Hv & Hc & Hr). pose proof (CephProxy.setup_same _ _ Hsc (i_setup _ Hi Hph)) as Hs'.
  assert (ContextRace.inv new_ok ioctx_create (race (set_proxy p (ext s) s))) as Hrace.
  { apply (race_step_inv (ContextRace.LOther (CephProxy.CGetIoCtxWithClient (poolId (rc_op ctx)))) (race s)); [by apply Hi|].
    cbn. unfold ContextRace.Other_step. cbn. by rewrite Hg. }
  destruct Hi as [_ _ Hidle _ Hwk Htab Hdel Hbusy Hu Hphase]. cbn. constructor; cbn; try done.
  - apply map_Forall_insert_2; [|by eapply busy_mono; [..|apply heap_sees_refl|]]. split; [by exists wk, l, q|].
    intros id Hid. destruct (Hr _ Hid) as (m & Hp & Hmc). split; [by rewrite Hv|]. by exists m.
  - by destruct (ph s).
Qed.

Lemma released_OpHandler i r aio (wk wk' : RadosIOWorker.t (Q := Q)) : WorkerStop.released wk -> OpHandler i r aio wk = Some wk' -> WorkerStop.released wk'.
Proof.
  intros Hr Ho. destruct (OpHandler_lanes _ _ _ _ _ Ho) as [(l & l' & Hl & _ & _ & Ht) _].
  destruct (proj2 Hr _ _ Hl) as (_ & _ & n & Hn). destruct (WorkerStop.thread_step wk i l n r aio Hr Hl Hn Ht) as (k & m & Hs & Hm & _ & Hk & Hp).
  rewrite Ho in Hs. injection Hs as ->. by eapply WorkerStop.released_set_lane.
Qed.

Lemma inv_handled s w i wk wk' r aio b u : inv s -> worker w s = Some wk -> OpHandler i r aio wk = Some wk' -> Forall use_ok u ->
  (forall k x, b !! k = Some x -> k <> (w, i) /\ busy s !! k = Some x) -> inv (set_worker w wk' (set_busy b u s)).
Proof.
  intros Hi Hw Ho Hu Hb. destruct (OpHandler_lanes _ _ _ _ _ Ho) as [(l & l' & Hl & Hl' & Hpost & Ht) _].
  destruct (deleted_exited s w wk i l Hi Hw Hl Ht) as (Hnd & _ & Hph). pose proof (Forall_lookup_1 _ _ _ _ (i_workers _ Hi) Hw) as Hok.
  assert (forall ws, stopping s ws -> stopping (set_worker w wk' s) ws) as Hstop.
  { intros ws. eapply stopping_set_worker; [done|]. intros j k Hk. rewrite Hl' in Hk.
    apply list_lookup_insert_Some in Hk as [(-> & -> & _)|[_ Hk]]; by eexists. }
  pose proof (table_set_worker s w wk' (i_table _ Hi Hph)) as Htab. constructor; cbn; try apply Hi; try done.
  - apply Forall_insert; [apply Hi|]. by apply (worker_ok_step wk (Work i r aio)).
  - intros v vk Hv Hvk. unfold worker in Hvk. cbn in Hvk. rewrite list_lookup_insert_ne in Hvk by congruence. by apply (i_deleted _ Hi v).
  - intros [v j] [[ctx rr] c] Hk. destruct (Hb _ _ Hk) as [Hne Hold]. destruct (i_busy _ Hi _ _ Hold) as [(vk & k & q & Hvk & Hkl & Hkt & Hkq) Hrr].
    split; [|done]. cbn in *. destruct (decide (v = w)) as [->|Hvw].
    + unfold worker in Hw. rewrite Hw in Hvk. injection Hvk as <-. exists wk', k, q. rewrite list_lookup_insert_eq by by eapply lookup_lt_Some.
      rewrite Hl', list_lookup_insert_ne by congruence. done.
    + exists vk, k, q. by rewrite list_lookup_insert_ne.
  - pose proof (i_phase _ Hi) as H. destruct (ph s) as [|ws j|]; [done| |done]. destruct H as [Hs Hj]. split; [by apply Hstop|].
    intros Hjt. destruct (Hj Hjt) as [Hne Hrel]. split; [done|]. intros v vk Hv Hvk. unfold worker in Hvk. cbn in Hvk.
    apply list_lookup_insert_Some in Hvk as [(-> & -> & _)|[_ Hvk]]; [|by apply (Hrel v)].
    eapply released_OpHandler; [by apply (Hrel v)|done].
Qed.

Lemma set_busy_id s : set_busy (busy s) (uses s) s = s.
Proof. by destruct s. Qed.

Lemma fine_Thread w i aio s : inv s -> fine (step (Thread w i aio) s).
Proof.
  intros Hi. cbn [step]. unfold Thread_step. destruct (worker w s) as [wk|] eqn:Hw; [|done].
  destruct (lanes wk !! i) as [l|] eqn:Hl; [|done]. assert (thread l = Exited \/ thread l <> Exited) as [->|Ht] by (destruct (thread l); auto); [done|].
  destruct (deleted_exited s w wk i l Hi Hw Hl Ht) as (_ & -> & Hph).
  pose proof (Forall_lookup_1 _ _ _ _ (i_workers _ Hi) Hw) as Hok. destruct (worker_ok_lane _ _ _ Hok Hl) as [q Hq].
  assert (forall r u, Forall use_ok u -> fine (match OpHandler i r aio wk with
            | Some wk' => Ok (set_worker w wk' (set_busy (delete (w, i) (busy s)) u s)) | None => Blocked end)) as Hbusy.
  { intros r u Hu. destruct (OpHandler i r aio wk) as [wk'|] eqn:Ho; [|done]. eapply inv_handled; [done..|].
    intros k x Hk. by apply lookup_delete_Some in Hk as [? ?]. }
  assert (busy s !! (w, i) = None -> fine (match OpHandler i None aio wk with
            | Some wk' => Ok (set_worker w wk' s) | None => Blocked end)) as Hidle.
  { intros Hb. destruct (OpHandler i None aio wk) as [wk'|] eqn:Ho; [|done]. rewrite <- (set_busy_id s). eapply inv_handled; [done..|apply Hi|].
    intros k x Hk. split; [|done]. intros ->. congruence. }
  destruct (busy s !! (w, i)) as [[[ctx r] c]|] eqn:Hb.
  - assert (fine (match r with
      | None => match OpHandler i None aio wk with Some wk' => Ok (set_worker w wk' (set_busy (delete (w, i) (busy s)) (uses s) s)) | None => Blocked end
      | Some id => match IoCtx.live (CephProxy.world (proxy s)) !! id with
          | None => Fault
          | Some x => match OpHandler i (Some id) aio wk with
              | Some wk' => Ok (set_worker w wk' (set_busy (delete (w, i) (busy s)) (uses s ++ [{| u_req := ctx; u_client := c; u_ioctx := x |}]) s))
              | None => Blocked end
          end
      end)) as H; [|by destruct (thread l)].
    destruct r as [id|]; [|apply Hbusy, Hi]. rewrite (inv_live s w i ctx id c Hi Hb). apply Hbusy, Forall_app.
    split; [apply Hi|]. by apply Forall_singleton.
  - specialize (Hidle eq_refl). destruct (q_deq_ok _ _ Hq) as (q' & Hd & _). rewrite Hd.
    destruct (thread l); try done. by destruct q.
Qed.

Lemma fine_BeginShutdown s : inv s -> ph s = Running -> no_call s -> fine (step BeginShutdown s).
Proof.
  intros Hi Hp [Hno Hng]. cbn [step]. rewrite Hp. destruct (i_table _ Hi ltac:(by rewrite Hp)) as [[Hb Hinj] Hs].
  destruct (WorkerStop.in_order_spec (table s) Hinj) as [Hnd Hin].
  assert (deleted s = []) as Hd by (pose proof (i_phase _ Hi) as H; by rewrite Hp in H).
  destruct Hi as [Hpr Hrc Hid Hset Hwk Htab Hdel Hbusy Hu _]. cbn. constructor; cbn; try done.
  - intros _. apply Hrc. by rewrite Hp.
  - intros _. apply Hset. by rewrite Hp.
  - split; [|done]. split_and!; [done| |done|].
    + intros w _. cbn. rewrite Hd. apply not_elem_of_nil.
    + intros w. cbn. rewrite Hd. split.
      * intros Hw. left. by apply Hin, Hs.
      * intros [Hw|Hw]; [|by apply not_elem_of_nil in Hw]. apply Hin in Hw as [p Hw]. apply lookup_lt_is_Some. by eapply Hb.
Qed.

Lemma fine_WaitEmpty s : inv s -> fine (step WaitEmpty s).
Proof.
  intros Hi. cbn [step]. pose proof (i_phase _ Hi) as Hph. destruct (ph s) as [|[|w ws] []|] eqn:Hp; try done.
  destruct Hph as [Hst _]. pose proof Hst as (Hnd & Hdis & Hno & Hex).
  unfold is_deleted. rewrite bool_decide_eq_false_2 by (apply Hdis; by left).
  destruct (proj2 (Hex w) ltac:(left; by left)) as [wk Hw]. rewrite Hw. cbn [mbind option_bind].
  pose proof (Forall_lookup_1 _ _ _ _ (i_workers _ Hi) Hw) as Hok.
  destruct (worker_ok_WaitForEmpty wk Hok) as (wk' & Hwk' & Hok' & Hrel & Hl). rewrite Hwk'.
  pose proof (table_set_worker s w wk' (i_table _ Hi ltac:(by rewrite Hp))) as Htab.
  assert (forall j l, lanes wk !! j = Some l -> exists l', lanes wk' !! j = Some l' /\ lane_sees l l') as Hsees.
  { intros j l Hj. assert (j < length (lanes wk'))%nat as Hlt.
    { rewrite (worker_ok_lanes _ Hok'), <- (worker_ok_lanes _ Hok). by eapply lookup_lt_Some. }
    destruct (lookup_lt_is_Some_2 _ _ Hlt) as [l' Hl']. destruct (Hl _ _ Hl') as (l0 & Hl0 & Ht & Hq & _).
    exists l'. split; [done|]. simplify_eq. split; [done|]. intros c q Hr. exists q. by rewrite Hq. }
  assert (stopping (set_worker w wk' s) (w :: ws)) as Hst'.
  { eapply stopping_set_worker; [done| |done]. intros j l' Hj. destruct (Hl _ _ Hj) as (l & ? & _ & _ & ?). by exists l. }
  destruct Hi as [Hpr Hrc Hid Hset Hwk _ Hdel Hbusy Hu _]. cbn. constructor; cbn; try done.
  - intros _. apply Hrc. by rewrite Hp.
  - intros _. apply Hid. by rewrite Hp.
  - intros _. apply Hset. by rewrite Hp.
  - by apply Forall_insert.
  - intros v vk Hv Hvk. unfold worker in Hvk. cbn in Hvk. rewrite list_lookup_insert_ne in Hvk; [by apply (Hdel v)|].
    intros ->. eapply Hdis; [by left|done].
  - eapply busy_mono; [done..| |done]. by eapply heap_sees_insert.
  - split; [done|]. intros _. split; [done|]. intros v vk [= <-] Hv. unfold worker in Hv. cbn in Hv.
    rewrite list_lookup_insert_eq in Hv by by eapply lookup_lt_Some. by injection Hv as <-.
Qed.

Lemma StopProc_inv (wk wk' : RadosIOWorker.t (Q := Q)) : WorkerStop.StopProc wk = Some wk' -> wk' = set_stop wk /\ all_exited wk.
Proof.
  unfold WorkerStop.StopProc. destruct (forallb _ _) eqn:E; [|done]. intros [= <-]. split; [done|]. intros i l Hl.
  rewrite forallb_forall in E. specialize (E l (proj1 (list_elem_of_In _ _) (list_elem_of_lookup_2 _ _ _ Hl))).
  unfold WorkerStop.exited in E. by destruct (thread l).
Qed.

Lemma fine_Join s : inv s -> fine (step Join s).
Proof.
  intros Hi. cbn [step]. pose proof (i_phase _ Hi) as Hph. destruct (ph s) as [|[|w ws] []|] eqn:Hp; try done.
  destruct Hph as [Hst _]. pose proof Hst as (Hnd & Hdis & Hno & Hex). apply NoDup_cons in Hnd as [Hwws Hnd].
  unfold is_deleted. rewrite bool_decide_eq_false_2 by (apply Hdis; by left).
  destruct (proj2 (Hex w) ltac:(left; by left)) as [wk Hw]. rewrite Hw.
  destruct (WorkerStop.StopProc wk) as [wk'|] eqn:Hs; [|done]. apply StopProc_inv in Hs as [-> Hexit].
  pose proof (Forall_lookup_1 _ _ _ _ (i_workers _ Hi) Hw) as Hok.
  pose proof (table_set_worker s w (set_stop wk) (i_table _ Hi ltac:(by rewrite Hp))) as Htab.
  assert (stopping (set_worker w (set_stop wk) s) (w :: ws)) as (_ & _ & Hno' & Hex').
  { eapply stopping_set_worker; [done| |done]. intros j l' Hj. by exists l'. }
  destruct Hi as [Hpr Hrc Hid Hset Hwk _ Hdel Hbusy Hu _]. cbn. constructor; cbn; try done.
  - intros _. apply Hrc. by rewrite Hp.
  - intros _. apply Hid. by rewrite Hp.
  - intros _. apply Hset. by rewrite Hp.
  - apply Forall_insert; [done|]. by apply (worker_ok_step wk SetStop).
  - intros v vk Hv Hvk. unfold worker in Hvk. cbn in Hvk. apply list_lookup_insert_Some in Hvk as [(-> & <- & _)|[Hne Hvk]]; [exact Hexit|].
    apply elem_of_cons in Hv as [->|Hv]; [done|]. by apply (Hdel v).
  - eapply busy_mono; [done..| |done]. eapply heap_sees_insert; [done|]. intros j l Hj. exists l. split; [done|apply lane_sees_refl].
  - split; [|done]. split_and!; [done| |exact Hno'|].
    + intros v Hv. cbn. apply not_elem_of_cons. split; [by intros ->|]. apply Hdis. by right.
    + intros v. change (worker v (set_phase (w :: deleted s) (Stopping ws false) (set_worker w (set_stop wk) s)))
        with (worker v (set_worker w (set_stop wk) s)). rewrite Hex'. cbn. rewrite !elem_of_cons. tauto.
Qed.

Lemma fine_Release s : inv s -> fine (step Release s).
Proof.
  intros Hi. cbn [step]. pose proof (i_phase _ Hi) as Hph. destruct (ph s) as [|[|w ws] j|] eqn:Hp; try done.
  destruct Hph as [Hst _].
  destruct (CephProxy.Shutdown_inv new_ok ioctx_create (outside s) (proxy s) (i_proxy _ Hi) (i_setup _ Hi ltac:(by rewrite Hp)))
    as (p & Hs & _ & _ & Hpi & _ & _ & Hleft).
  rewrite Hs. pose proof Hst as (_ & _ & _ & Hex).
  assert (busy s = ∅) as Hb.
  { apply map_empty. intros [w i]. destruct (busy s !! (w, i)) as [[[ctx r] c]|] eqn:E; [|done]. exfalso.
    destruct (i_busy _ Hi _ _ E) as [(wk & l & q & Hw & Hl & Ht & _) _]. cbn in *.
    destruct (proj1 (Hex w) ltac:(by eexists)) as [Hn|Hn]; [by apply not_elem_of_nil in Hn|].
    by rewrite (i_deleted _ Hi w wk Hn Hw i l Hl) in Ht. }
  destruct Hi as [Hpr Hrc Hid Hset Hwk _ Hdel Hbusy Hu _]. cbn. constructor; cbn; try done.
  - intros _. apply Hid. by rewrite Hp.
  - by rewrite Hb.
  - split; [done|]. intros Hok id Hin. specialize (Hleft Hok id Hin). unfold outside in Hleft.
    rewrite ContextRace.all_idle_held, app_nil_r in Hleft; [done|]. apply Hid. by rewrite Hp.
Qed.

Lemma step_fine a s : 0 < workerNum -> inv s -> legal a s -> fine (step a s).
Proof.
  intros Hn Hi Hl. destruct a; cbn [legal] in Hl;
    [by apply fine_NewCaller|by apply fine_Call|by apply fine_Enqueue|by apply fine_PostOne|by apply fine_GetCtx|by apply fine_Thread|
     by apply fine_BeginShutdown; destruct Hl|by apply fine_WaitEmpty|by apply fine_Join|by apply fine_Release].
Qed.

Lemma sys_reach_inv s0 s : 0 < workerNum -> inv s0 -> reach s0 s -> inv s.
Proof.
  intros Hn H0 Hr. induction Hr as [|s a s' Hr IH Hl Hs]; [done|]. pose proof (step_fine a s Hn IH Hl) as Hf. by rewrite Hs in Hf.
Qed.

(** ** Shutting down ends *)

(** Steps that are not the callers'. *)
Definition internal (a : label) : Prop :=
  match a with NewCaller | Call _ | Enqueue _ _ _ _ _ | PostOne _ _ => False | _ => True end.

Fixpoint run_to (tr : list label) (s : t) : option t :=
  match tr with
  | [] => Some s
  | a :: tr' => match step a s with Ok s' => run_to tr' s' | _ => None end
  end.

Lemma run_to_app tr1 tr2 s : run_to (tr1 ++ tr2) s = (s' ← run_to tr1 s; run_to tr2 s').
Proof. revert s. induction tr1 as [|a tr1 IH]; intros s; cbn; [done|]. by destruct (step a s). Qed.

(** From [s] to [s'] by steps of the threads, the phase as it was. *)
Definition threads_to (s s' : t) : Prop :=
  exists tr, Forall (fun a => match a with GetCtx _ _ | Thread _ _ _ => True | _ => False end) tr /\
    run_to tr s = Some s' /\ ph s' = ph s /\ inv s'.

Lemma threads_to_refl s : inv s -> threads_to s s.
Proof. intros Hi. exists []. split_and!; [constructor|done..]. Qed.

Lemma threads_to_trans s1 s2 s3 : threads_to s1 s2 -> threads_to s2 s3 -> threads_to s1 s3.
Proof.
  intros (t1 & F1 & R1 & P1 & _) (t2 & F2 & R2 & P2 & I2). exists (t1 ++ t2). split_and!; [by apply Forall_app|  |congruence|done].
  rewrite run_to_app, R1. exact R2.
Qed.

Lemma threads_to_step a s s' : 0 < workerNum -> inv s -> step a s = Ok s' -> ph s' = ph s ->
  match a with GetCtx _ _ | Thread _ _ _ => True | _ => False end -> threads_to s s'.
Proof.
  intros Hn Hi Hs Hp Ha. exists [a]. split_and!; [by apply Forall_singleton|by cbn; rewrite Hs|done|].
  pose proof (step_fine a s Hn Hi ltac:(by destruct a)) as Hf. by rewrite Hs in Hf.
Qed.

Section progress.
Context (Hn : 0 < workerNum) (w : nat).

(** A thread of a worker that is being joined, in the middle of a round. *)
Lemma busy_progress s wk i l n b : inv s -> worker w s = Some wk -> WorkerStop.released wk -> lanes wk !! i = Some l ->
  WorkerStop.left l n -> thread l <> Exited -> busy s !! (w, i) = Some b ->
  exists s' l' n', threads_to s s' /\ worker w s' = Some (set_lane i l' wk) /\ WorkerStop.released (set_lane i l' wk) /\ WorkerStop.left l' n' /\ n' < n.
Proof.
  intros Hi Hw Hrel Hl Hleft Ht Hb. destruct b as [[ctx r] c].
  destruct (WorkerStop.thread_step wk i l n r 0 Hrel Hl Hleft Ht) as (l' & n' & Ho & Hl' & Hlt & Hper & Hpos).
  pose proof (WorkerStop.released_set_lane wk i l' n' Hrel Hl' Hper Hpos) as Hrel'.
  destruct (deleted_exited s w wk i l Hi Hw Hl Ht) as (_ & Hd & _).
  assert (exists u, step (Thread w i 0) s = Ok (set_worker w (set_lane i l' wk) (set_busy (delete (w, i) (busy s)) u s))) as [u Hs].
  { cbn [step]. unfold Thread_step. rewrite Hw, Hl, Hb, Hd. destruct r as [id|].
    - rewrite (inv_live s w i ctx id c Hi Hb), Ho. destruct (thread l); [by eexists..|done].
    - rewrite Ho. destruct (thread l); [by eexists..|done]. }
  eexists _, l', n'. split; [eapply threads_to_step; [done..| |]; done|]. split_and!; [|done..].
  unfold worker. cbn. apply list_lookup_insert_eq. by eapply lookup_lt_Some.
Qed.

Lemma thread_progress s wk i l n : inv s -> worker w s = Some wk -> WorkerStop.released wk -> lanes wk !! i = Some l ->
  WorkerStop.left l n -> thread l <> Exited ->
  exists s' l' n', threads_to s s' /\ worker w s' = Some (set_lane i l' wk) /\ WorkerStop.released (set_lane i l' wk) /\ WorkerStop.left l' n' /\ n' < n.
Proof.
  intros Hi Hw Hrel Hl Hleft Ht. destruct (busy s !! (w, i)) as [b|] eqn:Hb; [by eapply busy_progress|].
  destruct (deleted_exited s w wk i l Hi Hw Hl Ht) as (_ & Hd & Hph).
  pose proof Hleft as (q & Hq & _). destruct (q_deq_ok _ _ Hq) as (q' & Hdq & _).
  destruct (WorkerStop.thread_step wk i l n None 0 Hrel Hl Hleft Ht) as (l' & n' & Ho & Hl' & Hlt & Hper & Hpos).
  pose proof (WorkerStop.released_set_lane wk i l' n' Hrel Hl' Hper Hpos) as Hrel'.
  assert ((thread l = Draining /\ exists ctx q2, q = ctx :: q2) \/ step (Thread w i 0) s = Ok (set_worker w (set_lane i l' wk) s))
    as [(Hdr & ctx & q2 & ->)|Hs].
  { cbn [step]. unfold Thread_step. rewrite Hw, Hl, Hb, Hd, Hdq, Ho. destruct (thread l); [by right..| |done].
    destruct q as [|ctx q2]; [by right|]. left. split; [done|]. by exists ctx, q2. }
  - destruct (CephProxy.GetIoCtxWithClient_inv new_ok ioctx_create (outside s) (poolId (rc_op ctx)) (proxy s) (i_proxy _ Hi) (i_setup _ Hi Hph))
      as (r & c & p & Hg & _).
    assert (step (GetCtx w i) s = Ok (set_busy (<[(w, i) := (ctx, r, c)]> (busy s)) (uses s) (set_proxy p (ext s) s))) as Hs.
    { cbn [step]. unfold GetCtx_step. rewrite Hw, Hl, Hb, Hdr, Hd, Hdq. cbn [fst Fifo.pop]. by rewrite Hg. }
    pose proof (step_fine (GetCtx w i) s Hn Hi I) as Hi1. rewrite Hs in Hi1. cbn [fine] in Hi1.
    destruct (busy_progress _ wk i l n (ctx, r, c) Hi1 Hw Hrel Hl Hleft Ht) as (s' & l2 & n2 & Hto & Hw2 & Hr2 & Hl2 & Hn2); [apply lookup_insert_eq|].
    exists s', l2, n2. split_and!; [|done..]. eapply threads_to_trans; [|exact Hto]. by eapply threads_to_step.
  - eexists _, l', n'. split; [by eapply threads_to_step|]. split_and!; [|done..].
    unfold worker. cbn. apply list_lookup_insert_eq. by eapply lookup_lt_Some.
Qed.

Lemma finish_thread m : forall s wk i l n, n <= Z.of_nat m -> inv s -> worker w s = Some wk -> WorkerStop.released wk ->
  lanes wk !! i = Some l -> WorkerStop.left l n ->
  exists s' wk', threads_to s s' /\ worker w s' = Some wk' /\ WorkerStop.released wk' /\ length (lanes wk') = length (lanes wk) /\
    (forall l', lanes wk' !! i = Some l' -> thread l' = Exited) /\ (forall j, j <> i -> lanes wk' !! j = lanes wk !! j).
Proof.
  induction m as [|m IH]; intros s wk i l n Hm Hi Hw Hrel Hl Hleft;
    (assert (thread l = Exited \/ thread l <> Exited) as [He|He] by (destruct (thread l); auto);
     [exists s, wk; split_and!; [by apply threads_to_refl|done..|intros l' Hl'; by simplify_eq|done]|]);
    destruct (thread_progress s wk i l n Hi Hw Hrel Hl Hleft He) as (s1 & l1 & n1 & Hto & Hw1 & Hrel1 & Hleft1 & Hlt).
  - pose proof (WorkerStop.left_nonneg _ _ Hleft1). lia.
  - pose proof Hto as (_ & _ & _ & _ & Hi1).
    destruct (IH s1 (set_lane i l1 wk) i l1 n1) as (s' & wk' & Hto' & Hw' & Hrel' & Hlen & He' & Hoth); [lia|done..| |done|].
    { cbn. apply list_lookup_insert_eq. by eapply lookup_lt_Some. }
    exists s', wk'. split_and!; [by eapply threads_to_trans|done|done| |done|].
    + rewrite Hlen. cbn. apply length_insert.
    + intros j Hj. rewrite Hoth by done. cbn. by apply list_lookup_insert_ne.
Qed.

Lemma finish_threads k : forall s wk, inv s -> worker w s = Some wk -> WorkerStop.released wk -> (k <= length (lanes wk))%nat ->
  exists s' wk', threads_to s s' /\ worker w s' = Some wk' /\ WorkerStop.released wk' /\ length (lanes wk') = length (lanes wk) /\
    forall i l, (i < k)%nat -> lanes wk' !! i = Some l -> thread l = Exited.
Proof.
  induction k as [|k IH]; intros s wk Hi Hw Hrel Hk.
  - exists s, wk. split_and!; [by apply threads_to_refl|done..|intros; lia].
  - destruct (IH s wk Hi Hw Hrel ltac:(lia)) as (s1 & wk1 & Hto & Hw1 & Hrel1 & Hlen & He).
    pose proof Hto as (_ & _ & _ & _ & Hi1). destruct (lookup_lt_is_Some_2 (lanes wk1) k ltac:(lia)) as [l Hl].
    destruct (proj2 Hrel1 _ _ Hl) as (_ & _ & n & Hleft). pose proof (WorkerStop.left_nonneg _ _ Hleft).
    destruct (finish_thread (Z.to_nat n) s1 wk1 k l n) as (s2 & wk2 & Hto2 & Hw2 & Hrel2 & Hlen2 & He2 & Hoth); [lia|done..|].
    exists s2, wk2. split_and!; [by eapply threads_to_trans|done..|congruence|].
    intros i l' Hik Hl'. destruct (decide (i = k)) as [->|]; [by apply He2|]. rewrite Hoth in Hl' by done. eapply He; [|done]. lia.
Qed.
End progress.

Lemma stop_one w ws s : 0 < workerNum -> inv s -> ph s = Stopping (w :: ws) false ->
  exists tr s', Forall internal tr /\ run_to tr s = Some s' /\ ph s' = Stopping ws false /\ inv s'.
Proof.
  intros Hn Hi Hp. pose proof (fine_WaitEmpty s Hi) as Hf.
  assert (exists s1 wk, step WaitEmpty s = Ok s1 /\ ph s1 = Stopping (w :: ws) true /\ worker w s1 = Some wk) as (s1 & wk & Hs & Hp1 & Hw).
  { cbn [step] in *. rewrite Hp in *. destruct (is_deleted w s); [done|]. destruct (worker w s) as [wk|] eqn:Hw; [|done]. cbn [mbind option_bind] in *.
    destruct (WorkerStop.WaitForEmpty workerNum wk) as [wk'|]; [|done]. eexists _, wk'. split; [reflexivity|]. split; [done|].
    unfold worker. cbn. apply list_lookup_insert_eq. by eapply lookup_lt_Some. }
  rewrite Hs in Hf. cbn [fine] in Hf. pose proof (i_phase _ Hf) as Hph. rewrite Hp1 in Hph. destruct Hph as [_ Hrel].
  destruct (Hrel eq_refl) as [_ Hr]. specialize (Hr w wk eq_refl Hw).
  destruct (finish_threads Hn w (length (lanes wk)) s1 wk Hf Hw Hr ltac:(lia)) as (s2 & wk2 & (tr & Ftr & Rtr & P2 & Hi2) & Hw2 & _ & Hlen & He).
  assert (WorkerStop.StopProc wk2 = Some (set_stop wk2)) as Hsp.
  { apply WorkerStop.StopProc_exited. intros i l Hl. eapply He; [|done]. rewrite <- Hlen. by eapply lookup_lt_Some. }
  pose proof (fine_Join s2 Hi2) as Hj. rewrite Hp1 in P2.
  assert (exists s3, step Join s2 = Ok s3 /\ ph s3 = Stopping ws false) as (s3 & Hs3 & Hp3).
  { cbn [step] in *. rewrite P2 in *. destruct (is_deleted w s2); [done|]. rewrite Hw2, Hsp. by eexists. }
  rewrite Hs3 in Hj. exists (WaitEmpty :: tr ++ [Join]), s3. split_and!; [| |done|done].
  - constructor; [done|]. apply Forall_app. split; [|by repeat constructor]. eapply Forall_impl; [exact Ftr|]. by intros [].
  - cbn [run_to]. rewrite Hs, run_to_app, Rtr. cbn [mbind option_bind run_to]. by rewrite Hs3.
Qed.

Lemma stop_loop ws : forall s, 0 < workerNum -> inv s -> ph s = Stopping ws false ->
  exists tr s', Forall internal tr /\ run_to tr s = Some s' /\ ph s' = Stopping [] false /\ inv s'.
Proof.
  induction ws as [|w ws IH]; intros s Hn Hi Hp; [by exists [], s|].
  destruct (stop_one w ws s Hn Hi Hp) as (tr1 & s1 & F1 & R1 & P1 & I1). destruct (IH s1 Hn I1 P1) as (tr2 & s2 & F2 & R2 & P2 & I2).
  exists (tr1 ++ tr2), s2. split_and!; [by apply Forall_app| |done..]. rewrite run_to_app, R1. exact R2.
Qed.

Lemma shutdown_from s : 0 < workerNum -> inv s -> ph s = Running -> no_call s ->
  exists tr s', Forall internal tr /\ run_to (BeginShutdown :: tr) s = Some s' /\ ph s' = Down /\ inv s'.
Proof.
  intros Hn Hi Hp Hno. pose proof (fine_BeginShutdown s Hi Hp Hno) as Hf. cbn [run_to step] in *. rewrite Hp in *. cbn [fine] in Hf.
  destruct (stop_loop _ _ Hn Hf eq_refl) as (tr & s1 & F & R & P & I1). pose proof (fine_Release s1 I1) as Hr. cbn [step] in Hr. rewrite P in Hr.
  destruct (CephProxy.Shutdown (proxy s1)) as [p|] eqn:Es; [|done]. eexists (tr ++ [Release]), _. split_and!.
  - apply Forall_app. split; [done|by repeat constructor].
  - rewrite run_to_app, R. cbn [mbind option_bind run_to step]. rewrite P, Es. reflexivity.
  - done.
  - exact Hr.
Qed.

Lemma init_race p : CephProxy.setup p -> CephProxy.inv new_ok ioctx_create [] p -> CephProxy.ptable p = IOCtxTable.Init ->
  ContextRace.inv new_ok ioctx_create (race (init p)).
Proof.
  intros Hs Hi Ht. split; cbn; [done..| |done|].
  - intros [q|q] id Hl; by rewrite Ht, ?lookup_empty in Hl.
  - by intros k id ?%not_elem_of_nil.
Qed.

Lemma sys_inv_init p : CephProxy.setup p -> CephProxy.inv new_ok ioctx_create [] p -> CephProxy.ptable p = IOCtxTable.Init -> inv (init p).
Proof.
  intros Hs Hi Ht. constructor; cbn; try done.
  { intros _. apply (init_race p Hs Hi Ht). }
  intros _. split; [by split|]. intros w [wk Hw]. by destruct w.
Qed.

(** ** Properties of the running proxy *)
Section started.
Context (envs : Z -> Wrapper.rados_env) (conf : Wrapper.client_conf) (cephConf : bytes)
        (initMsgr : Z) (pid_ok worker_alloc : bool) (cfg : ProxyConfig.ProxyControlCfg) (c0 r0 : Z) (p0 : CephProxy.t).
Context (Hstart : CephProxy.started envs conf cephConf initMsgr pid_ok worker_alloc cfg c0 r0 p0) (Hn : 0 < workerNum).

Lemma started_inv : inv (init p0).
Proof.
  destruct Hstart as (Hcfg & _ & Hi & Hst).
  destruct (CephProxy.Init_active _ _ _ _ _ _ _ _ _ _ new_ok ioctx_create Hcfg Hi Hst) as (Hs & Hinv & _). apply sys_inv_init; [done..|].
  by eapply ContextRace.started_table.
Qed.

(** C16: the proxy is memory safe as a whole.  From [Init] on, in every
    interleaving of callers, producers, worker threads and the thread that shuts it
    down -- any number of callers being inside [GetIoCtx] and [GetIoCtx2] at once,
    between look-up, creation and insertion -- no step uses a worker that was
    deleted, a context that was released or a null pointer.  (Assumed: the callers
    make no call once they asked for the shutdown, and ask for it when their calls
    have returned.)  Until the release of the contexts, each context that
    [GetIoCtx] or [GetIoCtx2] has returned is open for the pool asked for; each
    request is handed to librados with a context open for its own pool, on the
    client it goes with; and when [Shutdown] has returned every thread has ended
    and, if no creation failed, every context still open is one a caller got for
    itself or one that two racing calls left in no table (C24). *)
Theorem no_use_after_release (s : t) (Hr : reach (init p0) s) :
  (forall a, legal a s -> step a s <> Fault) /\
  Forall use_ok (uses s) /\
  (ph s <> Down -> forall k id, (k, Some id) ∈ returned s -> ContextRace.good (proxy s) k id) /\
  (ph s = Down ->
     (forall w wk i l, worker w s = Some wk -> lanes wk !! i = Some l -> thread l = Exited) /\
     (CephProxy.all_ok new_ok ioctx_create ->
      forall id, is_Some (IoCtx.live (CephProxy.world (proxy s)) !! id) -> id ∈ ext s ++ lost s)).
Proof.
  pose proof (sys_reach_inv _ _ Hn started_inv Hr) as Hi. split; [|split; [apply Hi|split]].
  - intros a Hl Hs. pose proof (step_fine a s Hn Hi Hl) as Hf. by rewrite Hs in Hf.
  - intros Hp k id Hk. destruct (i_race _ Hi Hp) as [_ _ _ _ V5]. by destruct (V5 _ _ Hk).
  - intros Hp. pose proof (i_phase _ Hi) as Hph. rewrite Hp in Hph. destruct Hph as [(_ & _ & _ & Hex) Hleft]. split; [|done].
    intros w wk i l Hw Hl. destruct (proj1 (Hex w) ltac:(by eexists)) as [Hd|Hd]; [by apply not_elem_of_nil in Hd|].
    exact (i_deleted _ Hi w wk Hd Hw i l Hl).
Qed.

(** C17: [Shutdown] ends.  In every reachable state in which no call is in
    progress -- requests may still be queued and threads be anywhere in their
    loops -- it can run to its end by its own steps and those of the worker
    threads alone. *)
Theorem shutdown_completes (s : t) (Hr : reach (init p0) s) (Hp : ph s = Running) (Hno : no_call s) :
  exists tr s', Forall internal tr /\ run_to (BeginShutdown :: tr) s = Some s' /\ ph s' = Down.
Proof.
  destruct (shutdown_from s Hn (sys_reach_inv _ _ Hn started_inv Hr) Hp Hno) as (tr & s' & F & R & P & _). by exists tr, s'.
Qed.
End started.
End system.
End ProxySystem.

(** ** A run to the end *)
Module ProxySystemExamples.
Import CephProxyExamples ProxySystem.

Definition request : RadosObjectOperation := {| op_id := 1; poolId := 7; objectId := bs "a" |}.

(** Two callers ask for pool 9 at once; another takes a context of its own; a
    request is queued, a thread takes it; then the proxy is shut down while that
    thread is about to use its context. *)
Definition trace_race : list label :=
  [NewCaller; NewCaller; Call (ContextRace.LCall 0 (IoCtx.ById 9)); Call (ContextRace.LCall 1 (IoCtx.ById 9));
   Call (ContextRace.LCreate 0); Call (ContextRace.LCreate 1); Call (ContextRace.LInsert 1); Call (ContextRace.LInsert 0)].
Definition trace_busy : list label :=
  trace_race ++
  [Call (ContextRace.LOther (CephProxy.CGetIoCtxFromCeph 9)); Enqueue (Some request) (Some 1) 0 true true;
   Thread 0 1 0; PostOne 0 1; Thread 0 1 0; GetCtx 0 1].
Definition trace_down : list label :=
  trace_busy ++ [BeginShutdown; WaitEmpty; Thread 0 1 0; Thread 0 1 0; Thread 0 1 0; Thread 0 0 0; Join; Release].

Definition run_example (tr : list label) : option (t (Q := ConcurrentQueue.t)) :=
  run_legal RadosIOWorkerExamples.hash0 2 always succeed get_id0 tr (init s_active).

(** The context of the first racing caller and the caller's own are all that stays. *)
Lemma no_use_after_release_witness :
  exists s u, run_example trace_down = Some s /\ ph s = Down /\ uses s = [u] /\ use_ok u /\
    ext s = [3] /\ lost s = [1] /\ forall id, is_Some (IoCtx.live (CephProxy.world (proxy s)) !! id) -> id ∈ [3; 1].
Proof.
  eexists _, _. split; [vm_compute; reflexivity|]. split; [reflexivity|]. split; [reflexivity|].
  epose proof (@no_use_after_release ConcurrentQueue.t ConcurrentQueue_FIFO RadosIOWorkerExamples.hash0 2 always succeed get_id0
    (fun _ => env_ok) conf0 (bs "ceph.conf") 0 true true cfg3 last_count 0 s_active s_active_started ltac:(lia) _
    ltac:(eapply (run_legal_reach _ _ _ _ _ trace_down); [apply reach_refl|vm_compute; reflexivity])) as H.
  destruct H as (_ & Hu & _ & Hd). destruct (Hd eq_refl) as [_ Hl]. split; [by apply Forall_singleton in Hu|].
  split; [reflexivity|]. split; [reflexivity|]. apply Hl. split; [reflexivity|intros; discriminate].
Defined.

Lemma shutdown_completes_witness :
  exists s tr s', run_example trace_busy = Some s /\ ph s = Running /\
    run_to RadosIOWorkerExamples.hash0 2 always succeed get_id0 (BeginShutdown :: tr) s = Some s' /\ ph s' = Down.
Proof.
  eexists.
  epose proof (@shutdown_completes ConcurrentQueue.t ConcurrentQueue_FIFO RadosIOWorkerExamples.hash0 2 always succeed get_id0
    (fun _ => env_ok) conf0 (bs "ceph.conf") 0 true true cfg3 last_count 0 s_active s_active_started ltac:(lia) _
    ltac:(eapply (run_legal_reach _ _ _ _ _ trace_busy); [apply reach_refl|vm_compute; reflexivity])
    ltac:(reflexivity) ltac:(apply quiescent_no_call; vm_compute; reflexivity)) as H.
  destruct H as (tr & s' & _ & R & P). exists tr, s'. split; [vm_compute; reflexivity|]. split; [reflexivity|]. split; [exact R|exact P].
Defined.
End ProxySystemExamples.
