(* ===== verification/RequestLife.v ===== *)
(** * The life of operations, completions, iterators and requests

    [CephProxyOp.cc], the constructors and releases of [RadosWrapper.cc], and what
    [RadosWorker.cc] and the callbacks do with the caller's objects while a request is
    on its way.  Every object is a cell of the heap, every access of a released cell a
    fault; the worker threads, librados' callback threads and the caller interleave.
    [RadosWorker] has the queues and semaphores themselves; here a lane is the list of
    its requests, and its semaphore the number of posts not yet consumed. *)

From S2P Require Import Prelude RadosWorker.

Module RequestLife.

(** What a request ends with: the callback and its argument. *)
Abbreviation callback_t := (Z * Z)%type.

Inductive op_type := BATCH_READ_OP | BATCH_WRITE_OP.
Definition UNKNOW_POOL_ID : Z := -1.

(** [RadosObjectOperation] with the iterators librados will fill for it;
    [callback] has no value until the operation is submitted. *)
Record operation := {
  opType : op_type; poolId : Z; poolName : bytes; objectId : bytes; callback : option callback_t; iters : list nat
}.

Definition new_op (ty : op_type) (pool : Z) (name oid : bytes) : operation :=
  {| opType := ty; poolId := pool; poolName := name; objectId := oid; callback := None; iters := [] |}.

Definition RadosWriteOpInit (pool oid : bytes) : operation := new_op BATCH_WRITE_OP UNKNOW_POOL_ID pool oid.
Definition RadosWriteOpInit2 (poolId : Z) (oid : bytes) : operation := new_op BATCH_WRITE_OP poolId [] oid.
Definition RadosReadOpInit (pool oid : bytes) : operation := new_op BATCH_READ_OP UNKNOW_POOL_ID pool oid.
Definition RadosReadOpInit2 (poolId : Z) (oid : bytes) : operation := new_op BATCH_READ_OP poolId [] oid.

(** [RequestCtx]: pointers.  A request is known by the number it was queued under,
    which is also the address of its context. *)
Record RequestCtx := { c_op : nat; c_comp : nat }.

(** A thread in [OpHandler]: at [Dequeue]; the context freed; with an IO context;
    back from [RadosOperationAioOperate]; at the test of [ioworkerStop]; at
    [sem[index]->Wait()]; returned. *)
Inductive pc := Idle | Taken (r o c : nat) | HasIo (r o c : nat) | Submitted (r o c : nat) (ret : Z)
  | AtLoop | AtWait | Exited.

(** A request librados has accepted: not answered, or inside the user's callback. *)
Inductive flight := Waiting (r o : nat) | InCallback (r : nat).

(** [ioworkerStop], and per lane the posts of its semaphore: those still to be made
    by calls of [Queue] and [WaitForEmpty] that are under way, and those made and not
    yet waited for. *)
Record sched := { ioworkerStop : bool; posting : list nat; permits : list nat }.

Record t := {
  next : nat;
  ops : gmap nat operation;
  comps : gmap nat callback_t;
  its : gset nat;
  ctxs : gmap nat RequestCtx;
  queues : list (list nat);
  threads : list pc;
  flying : list flight;
  requests : list (nat * nat * callback_t);      (* what was queued *)
  calls : list (nat * Z * callback_t);           (* the callbacks made, with the code *)
  sch : sched
}.

Inductive result := Done (s : t) | Waits | Fault.

Definition new_cell (alloc : bool) (f : nat -> t -> t) (s : t) : result :=
  if alloc then Done (f (next s) s) else Done s.

Definition set_heap (n : nat) (o : gmap nat operation) (c : gmap nat callback_t) (i : gset nat) (s : t) : t :=
  {| next := n; ops := o; comps := c; its := i; ctxs := ctxs s; queues := queues s; threads := threads s;
     flying := flying s; requests := requests s; calls := calls s; sch := sch s |}.
Definition set_ops (o : gmap nat operation) (s : t) : t := set_heap (next s) o (comps s) (its s) s.
Definition set_thread (i : nat) (p : pc) (s : t) : t :=
  {| next := next s; ops := ops s; comps := comps s; its := its s; ctxs := ctxs s; queues := queues s;
     threads := <[i := p]> (threads s); flying := flying s; requests := requests s; calls := calls s; sch := sch s |}.
Definition set_flying (l : list flight) (s : t) : t :=
  {| next := next s; ops := ops s; comps := comps s; its := its s; ctxs := ctxs s; queues := queues s;
     threads := threads s; flying := l; requests := requests s; calls := calls s; sch := sch s |}.
Definition add_call (r : nat) (ret : Z) (f : callback_t) (s : t) : t :=
  {| next := next s; ops := ops s; comps := comps s; its := its s; ctxs := ctxs s; queues := queues s;
     threads := threads s; flying := flying s; requests := requests s; calls := calls s ++ [(r, ret, f)]; sch := sch s |}.

(** *** The caller *)

Definition NewOp (o : operation) (alloc : bool) : t -> result :=
  new_cell alloc (fun a s => set_heap (S a) (<[a := o]> (ops s)) (comps s) (its s) s).

(** [CompletionInit]: no completion without a callback. *)
Definition CompletionInit (fn : option Z) (cbArg : Z) (alloc : bool) (s : t) : result :=
  match fn with
  | None => Done s
  | Some f => new_cell alloc (fun a s => set_heap (S a) (ops s) (<[a := (f, cbArg)]> (comps s)) (its s) s) s
  end.

(** [RadosReadOpGetXattrs], [RadosReadOpOmapGetVals], [RadosReadOpOmapGetKeys]: a new
    iterator whose map librados fills and which [ReadCallback] sets to the beginning. *)
Definition NewIter (o : nat) (alloc : bool) (s : t) : result :=
  if negb alloc then Done s else
  match ops s !! o with
  | None => Fault
  | Some p => Done (set_heap (S (next s)) (<[o := {| opType := opType p; poolId := poolId p; poolName := poolName p;
                objectId := objectId p; callback := callback p; iters := iters p ++ [next s] |}]> (ops s))
              (comps s) ({[next s]} ∪ its s) s)
  end.

(** The null check, then [delete]. *)
Definition RadosWriteOpRelease (op : option nat) (s : t) : result :=
  match op with
  | None => Done s
  | Some o => match ops s !! o with Some _ => Done (set_ops (delete o (ops s)) s) | None => Fault end
  end.
Definition RadosReadOpRelease : option nat -> t -> result := RadosWriteOpRelease.
Definition CephProxyWriteOpRelease : option nat -> t -> result := RadosWriteOpRelease.
Definition CephProxyReadOpRelease : option nat -> t -> result := RadosReadOpRelease.

Definition CompletionDestroy (c : option nat) (s : t) : result :=
  match c with
  | None => Done s
  | Some c => match comps s !! c with
              | Some _ => Done (set_heap (next s) (ops s) (delete c (comps s)) (its s) s)
              | None => Fault
              end
  end.

Definition CephProxyCompletionDestroy : option nat -> t -> result := CompletionDestroy.

(** [delete] of null does nothing. *)
Definition RadosGetXattrsEnd (it : option nat) (s : t) : result :=
  match it with
  | None => Done s
  | Some i => if decide (i ∈ its s) then Done (set_heap (next s) (ops s) (comps s) (its s ∖ {[i]}) s) else Fault
  end.

Definition RadosOmapIterEnd : option nat -> t -> result := RadosGetXattrsEnd.

(** A call of [PostOne] on lane [i] is under way. *)
Definition will_post (i : nat) (x : sched) : sched :=
  {| ioworkerStop := ioworkerStop x; posting := alter S i (posting x); permits := permits x |}.

Definition set_sch (x : sched) (s : t) : t :=
  {| next := next s; ops := ops s; comps := comps s; its := its s; ctxs := ctxs s; queues := queues s;
     threads := threads s; flying := flying s; requests := requests s; calls := calls s; sch := x |}.

(** [sem[i]->PostOne()]: the end of a [Queue], or a step of [WaitForEmpty]. *)
Definition PostOne (i : nat) (s : t) : result :=
  match posting (sch s) !! i with
  | Some (S n) => Done (set_sch {| ioworkerStop := ioworkerStop (sch s); posting := <[i := n]> (posting (sch s));
                                   permits := alter S i (permits (sch s)) |} s)
  | _ => Waits
  end.

(** [WaitForEmpty]: the flag, and a post for every lane (made one by one, [PostOne]). *)
Definition WaitForEmpty (s : t) : result :=
  Done (set_sch {| ioworkerStop := true; posting := map S (posting (sch s)); permits := permits (sch s) |} s).

(** [StopProc] up to its joins. *)
Definition StopProc (s : t) : result :=
  Done (set_sch {| ioworkerStop := true; posting := posting (sch s); permits := permits (sch s) |} s).

Section workers.
Context (hash : bytes -> Z) (threadNum : Z).

(** [RadosIOWorker::Queue]; the completion is only copied. *)
Definition Queue (o c : nat) (alloc : bool) (s : t) : result :=
  if negb alloc then Done s else
  match ops s !! o with
  | None => Fault
  | Some p =>
      let i := RadosIOWorker.index_of hash threadNum (objectId p) in
      match queues s !! i with
      | None => Fault
      | Some q =>
          let r := length (requests s) in
          Done {| next := next s; ops := ops s; comps := comps s; its := its s; ctxs := <[r := {| c_op := o; c_comp := c |}]> (ctxs s);
                  queues := <[i := q ++ [r]]> (queues s); threads := threads s; flying := flying s;
                  requests := requests s ++ [(o, c, default (0, 0) (comps s !! c))]; calls := calls s;
                  sch := will_post i (sch s) |}
      end
  end.

(** *** The threads of the worker *)

(** [while (!ioworkerStop)] *)
Definition Loop (i : nat) (s : t) : result :=
  match threads s !! i with
  | Some AtLoop => Done (set_thread i (if ioworkerStop (sch s) then Exited else AtWait) s)
  | _ => Waits
  end.

(** [sem[index]->Wait()] *)
Definition Wait (i : nat) (s : t) : result :=
  match threads s !! i, permits (sch s) !! i with
  | Some AtWait, Some (S n) =>
      Done (set_thread i Idle (set_sch {| ioworkerStop := ioworkerStop (sch s); posting := posting (sch s);
                                          permits := <[i := n]> (permits (sch s)) |} s))
  | _, _ => Waits
  end.

(** [Dequeue]; if it gives a context, the copies of its pointers and [delete ctx]. *)
Definition Take (i : nat) (s : t) : result :=
  match threads s !! i, queues s !! i with
  | Some Idle, Some [] => Done (set_thread i AtLoop s)
  | Some Idle, Some (r :: q) =>
      match ctxs s !! r with
      | None => Fault
      | Some ctx => Done {| next := next s; ops := ops s; comps := comps s; its := its s; ctxs := delete r (ctxs s);
                            queues := <[i := q]> (queues s); threads := <[i := Taken r (c_op ctx) (c_comp ctx)]> (threads s);
                            flying := flying s; requests := requests s; calls := calls s; sch := sch s |}
      end
  | _, _ => Waits
  end.

(** [c->fn(ret, c->cbArg)] of a worker thread. *)
Definition call_completion (i r c : nat) (ret : Z) (s : t) : result :=
  match comps s !! c with None => Fault | Some f => Done (set_thread i Idle (add_call r ret f s)) end.

(** [GetIoCtxWithClient(operation->poolId, ...)]: did it find a context? *)
Definition LookUp (i : nat) (found : bool) (s : t) : result :=
  match threads s !! i with
  | Some (Taken r o c) =>
      match ops s !! o with
      | None => Fault
      | Some _ => if found then Done (set_thread i (HasIo r o c) s) else call_completion i r c (- ENOENT) s
      end
  | _ => Waits
  end.

(** [RadosOperationAioOperate(..., c->fn, c->cbArg)]: the callback is put into the
    operation, and librados accepts the request or refuses it with a negative code. *)
Definition AioOperate (i : nat) (ret : Z) (s : t) : result :=
  match threads s !! i with
  | Some (HasIo r o c) =>
      match comps s !! c, ops s !! o with
      | Some f, Some p =>
          Done (set_thread i (Submitted r o c ret)
                 (set_flying (flying s ++ (if ret <? 0 then [] else [Waiting r o]))
                   (set_ops (<[o := {| opType := opType p; poolId := poolId p; poolName := poolName p; objectId := objectId p;
                                       callback := Some f; iters := iters p |}]> (ops s)) s)))
      | _, _ => Fault
      end
  | _ => Waits
  end.

Definition Return (i : nat) (s : t) : result :=
  match threads s !! i with
  | Some (Submitted r o c ret) => if ret <? 0 then call_completion i r c ret s else Done (set_thread i Idle s)
  | _ => Waits
  end.

(** *** librados' threads *)

(** [ReadCallback], [WriteCallback] up to and into the user's callback: a read that
    succeeded goes through its iterators. *)
Definition Complete (k : nat) (ret : Z) (s : t) : result :=
  match flying s !! k with
  | Some (Waiting r o) =>
      match ops s !! o with
      | None => Fault
      | Some p =>
          if (match opType p with BATCH_READ_OP => ret =? 0 | BATCH_WRITE_OP => false end) &&
             negb (forallb (fun i => bool_decide (i ∈ its s)) (iters p)) then Fault else
          match callback p with
          | None => Fault
          | Some f => Done (add_call r ret f (set_flying (<[k := InCallback r]> (flying s)) s))
          end
      end
  | _ => Waits
  end.

(** The rest of the callback: only its own variables are used. *)
Definition Leave (k : nat) (s : t) : result :=
  match flying s !! k with Some (InCallback _) => Done (set_flying (delete k (flying s)) s) | _ => Waits end.

Inductive label :=
| LWriteOpInit (pool oid : bytes) (alloc : bool) | LWriteOpInit2 (poolId : Z) (oid : bytes) (alloc : bool)
| LReadOpInit (pool oid : bytes) (alloc : bool) | LReadOpInit2 (poolId : Z) (oid : bytes) (alloc : bool)
| LCompletionInit (fn : option Z) (cbArg : Z) (alloc : bool)
| LNewIter (o : nat) (alloc : bool) | LOpRelease (ty : op_type) (op : option nat) | LCompletionDestroy (c : option nat) | LIterEnd (omap : bool) (it : option nat)
| LQueue (o c : nat) (alloc : bool)
| LPostOne (i : nat) | LWaitForEmpty | LStopProc | LLoop (i : nat) | LWait (i : nat)
| LTake (i : nat) | LLookUp (i : nat) (found : bool) | LAioOperate (i : nat) (ret : Z) | LReturn (i : nat)
| LComplete (k : nat) (ret : Z) | LLeave (k : nat).

Definition step (l : label) : t -> result :=
  match l with
  | LWriteOpInit pool oid a => NewOp (RadosWriteOpInit pool oid) a
  | LWriteOpInit2 pool oid a => NewOp (RadosWriteOpInit2 pool oid) a
  | LReadOpInit pool oid a => NewOp (RadosReadOpInit pool oid) a
  | LReadOpInit2 pool oid a => NewOp (RadosReadOpInit2 pool oid) a
  | LCompletionInit f x a => CompletionInit f x a
  | LNewIter o a => NewIter o a
  | LOpRelease BATCH_WRITE_OP o => CephProxyWriteOpRelease o
  | LOpRelease BATCH_READ_OP o => CephProxyReadOpRelease o
  | LCompletionDestroy c => CephProxyCompletionDestroy c
  | LIterEnd omap i => if omap then RadosOmapIterEnd i else RadosGetXattrsEnd i
  | LQueue o c a => Queue o c a
  | LPostOne i => PostOne i
  | LWaitForEmpty => WaitForEmpty
  | LStopProc => StopProc
  | LLoop i => Loop i
  | LWait i => Wait i
  | LTake i => Take i
  | LLookUp i b => LookUp i b
  | LAioOperate i r => AioOperate i r
  | LReturn i => Return i
  | LComplete k r => Complete k r
  | LLeave k => Leave k
  end.

Fixpoint run (ls : list label) (s : t) : result :=
  match ls with
  | [] => Done s
  | l :: ls' => match step l s with Done s' => run ls' s' | r => r end
  end.

Definition start : t :=
  {| next := 0; ops := ∅; comps := ∅; its := ∅; ctxs := ∅; queues := replicate (Z.to_nat threadNum) [];
     threads := replicate (Z.to_nat threadNum) AtLoop; flying := []; requests := []; calls := [];
     sch := {| ioworkerStop := false; posting := replicate (Z.to_nat threadNum) 0%nat;
               permits := replicate (Z.to_nat threadNum) 0%nat |} |}.

(** *** What the caller has to keep to *)

Definition running (p : pc) : list nat :=
  match p with
  | Taken r _ _ | HasIo r _ _ => [r]
  | Submitted r _ _ ret => if ret <? 0 then [r] else []
  | Idle | AtLoop | AtWait | Exited => []
  end.
Definition waiting (f : flight) : list nat := match f with Waiting r _ => [r] | InCallback _ => [] end.

(** The requests whose callback has not been called. *)
Definition pending (s : t) : list nat := concat (queues s) ++ flat_map running (threads s) ++ flat_map waiting (flying s).

Definition op_of (s : t) (r : nat) : option nat := (fun q => fst (fst q)) <$> requests s !! r.
Definition comp_of (s : t) (r : nat) : option nat := (fun q => snd (fst q)) <$> requests s !! r.

Definition iters_live (s : t) (p : operation) : Prop := forall i, i ∈ iters p -> i ∈ its s.

(** An operation is queued again, changed or released only after its callback has been
    called (inside it is soon enough), and so are completions and iterators; a read is
    not queued with an iterator that was ended. *)
Definition legal (s : t) (l : label) : Prop :=
  match l with
  | LNewIter o _ => is_Some (ops s !! o) /\ forall r, r ∈ pending s -> op_of s r <> Some o
  | LOpRelease _ (Some o) => is_Some (ops s !! o) /\ forall r, r ∈ pending s -> op_of s r <> Some o
  | LCompletionDestroy (Some c) => is_Some (comps s !! c) /\ forall r, r ∈ pending s -> comp_of s r <> Some c
  | LIterEnd _ (Some i) => i ∈ its s /\ forall r o p, r ∈ pending s -> op_of s r = Some o -> ops s !! o = Some p -> i ∉ iters p
  | LQueue o c _ => is_Some (comps s !! c) /\ (exists p, ops s !! o = Some p /\ iters_live s p) /\
                    forall r, r ∈ pending s -> op_of s r <> Some o
  | _ => True
  end.

Fixpoint legal_run (ls : list label) (s : t) : Prop :=
  match ls with
  | [] => True
  | l :: ls' => legal s l /\ match step l s with Done s' => legal_run ls' s' | _ => True end
  end.

(** *** The invariant *)

(** The request a thread still has to answer, with the pointers it copied. *)
Definition holds (p : pc) (r o c : nat) : Prop :=
  match p with
  | Taken r' o' c' | HasIo r' o' c' => r' = r /\ o' = o /\ c' = c
  | Submitted r' o' c' ret => ret < 0 /\ r' = r /\ o' = o /\ c' = c
  | Idle | AtLoop | AtWait | Exited => False
  end.

Record inv (s : t) : Prop := {
  i_lanes : length (queues s) = Z.to_nat threadNum /\ length (threads s) = Z.to_nat threadNum;
  i_all : pending s ++ map (fun x => fst (fst x)) (calls s) ≡ₚ seq 0 (length (requests s));
  i_ops : forall r1 r2 o, r1 ∈ pending s -> r2 ∈ pending s -> op_of s r1 = Some o -> op_of s r2 = Some o -> r1 = r2;
  i_ctx : forall r, r ∈ concat (queues s) <-> is_Some (ctxs s !! r);
  i_ptrs : forall r ctx, ctxs s !! r = Some ctx -> exists f, requests s !! r = Some (c_op ctx, c_comp ctx, f);
  i_thread : forall i p r o c, threads s !! i = Some p -> holds p r o c -> exists f, requests s !! r = Some (o, c, f);
  i_live : forall r o c f, r ∈ pending s -> requests s !! r = Some (o, c, f) ->
    comps s !! c = Some f /\ exists p, ops s !! o = Some p /\ iters_live s p;
  i_flying : forall k r o, flying s !! k = Some (Waiting r o) ->
    exists c f p, requests s !! r = Some (o, c, f) /\ ops s !! o = Some p /\ callback p = Some f;
  i_calls : forall r ret f, (r, ret, f) ∈ calls s -> exists o c, requests s !! r = Some (o, c, f);
  i_next : forall a, (next s <= a)%nat -> ops s !! a = None /\ comps s !! a = None /\ a ∉ its s
}.

Lemma pending_thread i p p' s : threads s !! i = Some p -> pending (set_thread i p' s) ++ running p ≡ₚ pending s ++ running p'.
Proof. intros Hp. apply perm_mid, flat_map_swap, Hp. Qed.

Lemma inv_NoDup s : inv s -> NoDup (pending s ++ map (fun x => fst (fst x)) (calls s)).
Proof. intros H. rewrite (i_all _ H). apply NoDup_seq. Qed.

Lemma inv_known s r : inv s -> r ∈ pending s -> exists o c f, requests s !! r = Some (o, c, f).
Proof.
  intros H Hr. assert (r ∈ seq 0 (length (requests s))) as Hs by (rewrite <- (i_all _ H); apply elem_of_app; by left).
  apply elem_of_seq in Hs. destruct (lookup_lt_is_Some_2 (requests s) r) as [[[o c] f] Hq]; [lia|]. eauto.
Qed.

Lemma inv_running s i p r o c : inv s -> threads s !! i = Some p -> holds p r o c ->
  r ∈ pending s /\ exists f x, requests s !! r = Some (o, c, f) /\ comps s !! c = Some f /\ ops s !! o = Some x /\ iters_live s x.
Proof.
  intros H Hp Hh. assert (r ∈ pending s) as Hr.
  { unfold pending. rewrite !elem_of_app. right. left. apply list_elem_of_In, in_flat_map. exists p.
    split; [apply list_elem_of_In; by eapply list_elem_of_lookup_2|]. apply list_elem_of_In.
    destruct p; cbn in *; try done; destruct_and?; subst; try (by left). replace (ret <? 0) with true by lia. by left. }
  destruct (i_thread _ H _ _ _ _ _ Hp Hh) as [f Hf]. split; [done|]. destruct (i_live _ H _ _ _ _ Hr Hf) as (Hc & x & Ho & Hi). eauto 10.
Qed.

(** Steps that change no request. *)
Lemma keep s s' cs : inv s -> requests s' = requests s -> calls s' = calls s ++ cs -> comps s' = comps s -> its s' = its s ->
  pending s ≡ₚ map (fun x => fst (fst x)) cs ++ pending s' ->
  (forall o p, ops s !! o = Some p -> exists p', ops s' !! o = Some p' /\ iters p' = iters p) ->
  pending s' ++ map (fun x => fst (fst x)) (calls s') ≡ₚ seq 0 (length (requests s')) /\
  (forall r1 r2 o, r1 ∈ pending s' -> r2 ∈ pending s' -> op_of s' r1 = Some o -> op_of s' r2 = Some o -> r1 = r2) /\
  (forall r o c f, r ∈ pending s' -> requests s' !! r = Some (o, c, f) ->
    comps s' !! c = Some f /\ exists p, ops s' !! o = Some p /\ iters_live s' p).
Proof.
  intros H Er Ec Eco Ei Hp Ho. assert (forall r, r ∈ pending s' -> r ∈ pending s) as Hin by (intros r Hr; rewrite Hp; apply elem_of_app; by right).
  rewrite Er, Ec, Eco. split_and!.
  - rewrite <- (i_all _ H), Hp, map_app. solve_Permutation.
  - intros r1 r2 o H1 H2. unfold op_of. rewrite Er. apply (i_ops _ H); auto.
  - intros r o c f Hr Hq. destruct (i_live _ H _ _ _ _ (Hin _ Hr) Hq) as (Hc & p & Hop & Hi). split; [done|].
    destruct (Ho _ _ Hop) as (p' & Hp' & Ei'). exists p'. split; [done|]. intros i. rewrite Ei', Ei. apply Hi.
Qed.

(** Steps of the heap alone. *)
Lemma heap_inv n o c i s : inv s -> (next s <= n)%nat ->
  (forall r o' c' f, r ∈ pending s -> requests s !! r = Some (o', c', f) ->
     c !! c' = Some f /\ exists p p', ops s !! o' = Some p /\ o !! o' = Some p' /\ callback p' = callback p /\ forall x, x ∈ iters p' -> x ∈ i) ->
  (forall a, (n <= a)%nat -> o !! a = None /\ c !! a = None /\ a ∉ i) -> inv (set_heap n o c i s).
Proof.
  intros H Hn Hl Hx. destruct H as [L1 L2 L3 L4 L5 L6 L7 L8 L9 L10]. split; try done.
  - intros r o' c' f Hr Hq. destruct (Hl _ _ _ _ Hr Hq) as (H1 & p & p' & _ & H2 & _ & H3). split; [done|]. by exists p'.
  - intros k r o' Hk. destruct (L8 _ _ _ Hk) as (c' & f & p & Hq & Hp & Hf).
    assert (r ∈ pending s) as Hr.
    { unfold pending. rewrite !elem_of_app. right. right. apply list_elem_of_In, in_flat_map. exists (Waiting r o').
      split; [apply list_elem_of_In; by eapply list_elem_of_lookup_2|by left]. }
    destruct (Hl _ _ _ _ Hr Hq) as (_ & q & p' & Hq' & Hp' & E & _). exists c', f, p'. split_and!; [done|done|]. congruence.
Qed.

Definition fine (s : t) (r : result) : Prop := match r with Done s' => inv s' | Waits => True | Fault => False end.

(** What a pending request needs, when the heap it needs is not touched. *)
Lemma needs s r o c f : inv s -> r ∈ pending s -> requests s !! r = Some (o, c, f) ->
  comps s !! c = Some f /\ exists p, ops s !! o = Some p /\ iters_live s p /\ o <> next s /\ c <> next s.
Proof.
  intros H Hr Hq. destruct (i_live _ H _ _ _ _ Hr Hq) as (Hc & p & Ho & Hi). split; [done|]. exists p.
  destruct (i_next _ H (next s)) as (N1 & N2 & _); [lia|]. split_and!; [done|done|congruence|congruence].
Qed.

Lemma unused_op s r o o' c f : op_of s r <> Some o -> requests s !! r = Some (o', c, f) -> o' <> o.
Proof. unfold op_of. intros Hn E. rewrite E in Hn. cbn in Hn. congruence. Qed.

Lemma NewOp_fine ty pool name oid alloc s : inv s -> fine s (NewOp (new_op ty pool name oid) alloc s).
Proof.
  intros H. destruct alloc; [|done]. apply heap_inv; [done|lia| |].
  - intros r o c f Hr Hq. destruct (needs _ _ _ _ _ H Hr Hq) as (Hc & p & Ho & Hi & Hne & _). split; [done|].
    exists p, p. by rewrite lookup_insert_ne.
  - intros a Ha. rewrite lookup_insert_ne by lia. apply (i_next _ H). lia.
Qed.

Lemma CompletionInit_fine fn x alloc s : inv s -> fine s (CompletionInit fn x alloc s).
Proof.
  intros H. destruct fn as [f'|], alloc; try done. apply heap_inv; [done|lia| |].
  - intros r o c f Hr Hq. destruct (needs _ _ _ _ _ H Hr Hq) as (Hc & p & Ho & Hi & _ & Hne).
    rewrite lookup_insert_ne by done. split; [done|]. by exists p, p.
  - intros a Ha. rewrite lookup_insert_ne by lia. apply (i_next _ H). lia.
Qed.

Lemma NewIter_fine o alloc s : inv s -> legal s (LNewIter o alloc) -> fine s (NewIter o alloc s).
Proof.
  intros H [[p Hp] Hu]. unfold NewIter. destruct alloc; [|done]. cbn [negb]. rewrite Hp. apply heap_inv; [done|lia| |].
  - intros r o' c f Hr Hq. destruct (needs _ _ _ _ _ H Hr Hq) as (Hc & p' & Ho & Hi & _).
    pose proof (unused_op _ _ _ _ _ _ (Hu _ Hr) Hq). split; [done|]. exists p', p'. rewrite lookup_insert_ne by done.
    split_and!; [done|done|done|]. intros x Hx. apply elem_of_union_r. by apply Hi.
  - intros a Ha. destruct (i_next _ H a) as (N1 & N2 & N3); [lia|].
    rewrite lookup_insert_ne by (intros ->; congruence). split_and!; [done|done|]. rewrite elem_of_union, elem_of_singleton. intros [->|?]; [lia|done].
Qed.

Lemma OpRelease_fine ty op s : inv s -> legal s (LOpRelease ty op) -> fine s (RadosWriteOpRelease op s).
Proof.
  intros H Hl. destruct op as [o|]; [|done]. destruct Hl as [[p Hp] Hu]. unfold RadosWriteOpRelease. rewrite Hp. apply heap_inv; [done|done| |].
  - intros r o' c f Hr Hq. destruct (needs _ _ _ _ _ H Hr Hq) as (Hc & p' & Ho & Hi & _).
    pose proof (unused_op _ _ _ _ _ _ (Hu _ Hr) Hq). split; [done|]. exists p', p'. by rewrite lookup_delete_ne.
  - intros a Ha. destruct (i_next _ H a Ha) as (N1 & N2 & N3). rewrite lookup_delete. by case_decide.
Qed.

Lemma CompletionDestroy_fine c s : inv s -> legal s (LCompletionDestroy c) -> fine s (CompletionDestroy c s).
Proof.
  intros H Hl. destruct c as [c|]; [|done]. destruct Hl as [[p Hp] Hu]. unfold CompletionDestroy. rewrite Hp. apply heap_inv; [done|done| |].
  - intros r o' c' f Hr Hq. destruct (needs _ _ _ _ _ H Hr Hq) as (Hc & p' & Ho & Hi & _).
    assert (c' <> c) by (specialize (Hu _ Hr); unfold comp_of in Hu; rewrite Hq in Hu; cbn in Hu; congruence).
    rewrite lookup_delete_ne by done. split; [done|]. by exists p', p'.
  - intros a Ha. destruct (i_next _ H a Ha) as (N1 & N2 & N3). rewrite lookup_delete. by case_decide.
Qed.

Lemma IterEnd_fine omap it s : inv s -> legal s (LIterEnd omap it) -> fine s (RadosGetXattrsEnd it s).
Proof.
  intros H Hl. destruct it as [i|]; [|done]. destruct Hl as [Hi Hu]. unfold RadosGetXattrsEnd. rewrite decide_True by done. apply heap_inv; [done|done| |].
  - intros r o c f Hr Hq. destruct (needs _ _ _ _ _ H Hr Hq) as (Hc & p & Ho & Hil & _). split; [done|]. exists p, p.
    split_and!; [done|done|done|]. intros x Hx. apply elem_of_difference. split; [by apply Hil|].
    intros ->%elem_of_singleton. eapply Hu; [done| |done|done]. unfold op_of. by rewrite Hq.
  - intros a Ha. destruct (i_next _ H a Ha) as (N1 & N2 & N3). split_and!; [done|done|]. set_solver.
Qed.

Lemma index_of_lt oid : 0 < threadNum -> (RadosIOWorker.index_of hash threadNum oid < Z.to_nat threadNum)%nat.
Proof. intros Hn. unfold RadosIOWorker.index_of. pose proof (Z.mod_pos_bound (u32 (hash oid)) threadNum Hn). lia. Qed.

Lemma Queue_fine o c alloc s : 0 < threadNum -> inv s -> legal s (LQueue o c alloc) -> fine s (Queue o c alloc s).
Proof.
  intros Hn H ([f Hc] & (p & Hp & Hi) & Hu). unfold Queue. destruct alloc; [|done]. cbn [negb]. rewrite Hp.
  destruct (i_lanes _ H) as [Lq Lt]. set (i := RadosIOWorker.index_of _ _ _).
  destruct (lookup_lt_is_Some_2 (queues s) i) as [q Eq]; [rewrite Lq; by apply index_of_lt|]. rewrite Eq, Hc. cbn [default].
  set (r := length (requests s)). set (s' := {| next := _ |}).
  assert (pending s' ≡ₚ pending s ++ [r]) as Hpend.
  { pose proof (concat_swap (queues s) i q (q ++ [r]) Eq) as Hsw. unfold pending. cbn [s' queues threads flying].
    rewrite app_assoc in Hsw. rewrite (Permutation_app_comm _ q), (Permutation_app_comm (concat (queues s)) q), <- app_assoc in Hsw.
    apply Permutation_app_inv_l in Hsw. rewrite Hsw. solve_Permutation. }
  assert (forall r', r' ∈ pending s' <-> r' ∈ pending s \/ r' = r) as Hin by (intros r'; rewrite Hpend, elem_of_app, list_elem_of_singleton; done).
  assert (forall r' x, requests s !! r' = Some x -> requests s' !! r' = Some x) as Hold by (intros r' x Hx; cbn; by apply lookup_app_l_Some).
  assert (requests s' !! r = Some (o, c, f)) as Hnew by (cbn; rewrite lookup_app_r, Nat.sub_diag by done; done).
  assert (forall r' x, r' ∈ pending s -> requests s' !! r' = Some x -> requests s !! r' = Some x) as Hback.
  { intros r' x Hr' Hx. destruct (inv_known _ _ H Hr') as (o' & c' & f' & E). rewrite E. rewrite (Hold _ _ E) in Hx. done. }
  assert (forall r', r' ∈ pending s -> op_of s' r' = op_of s r') as Hop.
  { intros r' Hr'. unfold op_of. destruct (inv_known _ _ H Hr') as (o' & c' & f' & E). by rewrite E, (Hold _ _ E). }
  split; cbn [s' queues threads].
  - rewrite length_insert. done.
  - rewrite Hpend. cbn [s' requests calls]. rewrite length_app, seq_app. cbn [length seq plus]. rewrite <- (i_all _ H). fold r. solve_Permutation.
  - intros r1 r2 o' [H1| ->]%Hin [H2| ->]%Hin E1 E2; try done.
    + rewrite Hop in E1, E2 by done. by eapply (i_ops _ H).
    + unfold op_of in E2. rewrite Hnew in E2. injection E2 as <-. rewrite Hop in E1 by done. by destruct (Hu _ H1).
    + unfold op_of in E1. rewrite Hnew in E1. injection E1 as <-. rewrite Hop in E2 by done. by destruct (Hu _ H2).
  - intros r'. pose proof (concat_swap (queues s) i q (q ++ [r]) Eq) as Hsw. cbn [s' ctxs].
    assert (r' ∈ concat (<[i:=q ++ [r]]> (queues s)) <-> r' ∈ concat (queues s) \/ r' = r) as ->.
    { assert (r' ∈ concat (<[i:=q ++ [r]]> (queues s)) ++ q <-> r' ∈ concat (queues s) ++ (q ++ [r])) as E by by rewrite Hsw.
      rewrite !elem_of_app, list_elem_of_singleton in E.
      assert (r' ∈ q -> r' ∈ concat (queues s)) by (intros Hq; apply list_elem_of_In, in_concat; exists q; split; apply list_elem_of_In; [by eapply list_elem_of_lookup_2|done]).
      assert (r' ∈ q -> r' ∈ concat (<[i:=q ++ [r]]> (queues s))).
      { intros Hq. apply list_elem_of_In, in_concat. exists (q ++ [r]). split; apply list_elem_of_In; [|apply elem_of_app; by left].
        apply list_elem_of_lookup. exists i. apply list_lookup_insert_eq. by eapply lookup_lt_Some. }
      tauto. }
    rewrite (i_ctx _ H). rewrite lookup_insert. case_decide as E; [subst r'; naive_solver|]. naive_solver.
  - intros r' ctx. cbn [s' ctxs]. rewrite lookup_insert. case_decide as E.
    + intros [= <-]. subst r'. exists f. exact Hnew.
    + intros Hx. destruct (i_ptrs _ H _ _ Hx) as [f' Hf]. exists f'. by apply Hold.
  - intros j x r' o' c' Hx Hh. destruct (i_thread _ H _ _ _ _ _ Hx Hh) as [f' Hf]. exists f'. by apply Hold.
  - intros r' o' c' f' [Hr'| ->]%Hin Hq.
    + apply Hback in Hq; [|done]. by apply (i_live _ H) in Hq.
    + rewrite Hnew in Hq. injection Hq as <- <- <-. cbn [s' comps ops]. split; [done|]. by exists p.
  - intros k r' o' Hk. destruct (i_flying _ H _ _ _ Hk) as (c' & f' & p' & H1 & H2 & H3). exists c', f', p'. split_and!; [by apply Hold|done|done].
  - intros r' ret f' Hx. destruct (i_calls _ H _ _ _ Hx) as (o' & c' & E). exists o', c'. by apply Hold.
  - apply (i_next _ H).
Qed.

Lemma holds_running p r o c : holds p r o c -> running p = [r].
Proof. destruct p; cbn; intros ?; try done; destruct_and?; subst; [done|done|]. by replace (_ <? 0) with true by lia. Qed.

Lemma ops_same (m m' : gmap nat operation) : m' = m -> forall o p, m !! o = Some p -> exists p', m' !! o = Some p' /\ iters p' = iters p.
Proof. intros -> o p Hp. by exists p. Qed.

(** A thread's own step: the contexts and the flying requests are as before. *)
Lemma thread_inv s i p p' cs : inv s -> threads s !! i = Some p -> (forall r o c, holds p' r o c -> holds p r o c) ->
  running p ++ [] ≡ₚ map (fun x => fst (fst x)) cs ++ running p' ->
  (forall r ret f, (r, ret, f) ∈ cs -> exists o c, requests s !! r = Some (o, c, f)) ->
  inv {| next := next s; ops := ops s; comps := comps s; its := its s; ctxs := ctxs s; queues := queues s;
         threads := <[i := p']> (threads s); flying := flying s; requests := requests s; calls := calls s ++ cs; sch := sch s |}.
Proof.
  intros H Hp Hh Hr Hcs. set (s' := {| next := _ |}). rewrite app_nil_r in Hr.
  assert (pending s ≡ₚ map (fun x => fst (fst x)) cs ++ pending s') as Hpend.
  { apply (Permutation_app_inv_r (running p')). rewrite <- (pending_thread i p p' s Hp). rewrite Hr. change (pending (set_thread i p' s)) with (pending s').
    solve_Permutation. }
  destruct (keep s s' cs H eq_refl eq_refl eq_refl eq_refl Hpend (ops_same _ _ eq_refl)) as (K1 & K2 & K3).
  destruct H as [L1 L2 L3 L4 L5 L6 L7 L8 L9 L10]. split; try done.
  - cbn. by rewrite length_insert.
  - intros j q r o c Hq Hx. cbn in Hq. apply list_lookup_insert_Some in Hq as [(<- & <- & _)|[_ Hq]]; [apply (L6 i p r o c Hp); auto|by eapply L6].
  - intros r ret f Hx. cbn in Hx. apply elem_of_app in Hx as [Hx|Hx]; [by eapply L9|by eapply Hcs].
Qed.

Lemma call_completion_fine i p r o c ret s : inv s -> threads s !! i = Some p -> holds p r o c -> fine s (call_completion i r c ret s).
Proof.
  intros H Hp Hh. destruct (inv_running _ _ _ _ _ _ H Hp Hh) as (Hr & f & x & Hq & Hc & _). unfold call_completion. rewrite Hc.
  apply (thread_inv s i p Idle [(r, ret, f)]); [done|done|done| |].
  - cbn. by rewrite (holds_running _ _ _ _ Hh).
  - intros r' ret' f' [= -> -> ->]%list_elem_of_singleton. eauto.
Qed.

Lemma thread_moves i p p' s : inv s -> threads s !! i = Some p -> (forall r o c, holds p' r o c -> holds p r o c) -> running p = running p' ->
  inv (set_thread i p' s).
Proof.
  intros H Hp Hh Hr. pose proof (thread_inv s i p p' [] H Hp Hh) as Hi. rewrite (app_nil_r (calls s)) in Hi. apply Hi; [by rewrite app_nil_r, Hr|].
  by intros ? ? ? ?%not_elem_of_nil.
Qed.

Lemma LookUp_fine i found s : inv s -> fine s (LookUp i found s).
Proof.
  intros H. unfold LookUp. destruct (threads s !! i) as [[|r o c| | | | |]|] eqn:Ep; try done.
  destruct (inv_running _ _ _ r o c H Ep) as (_ & f & x & _ & _ & Ho & _); [done|]. rewrite Ho.
  destruct found; [by eapply thread_moves|by eapply call_completion_fine].
Qed.

Lemma Return_fine i s : inv s -> fine s (Return i s).
Proof.
  intros H. unfold Return. destruct (threads s !! i) as [[| | |r o c ret| | |]|] eqn:Ep; try done. destruct (ret <? 0) eqn:Er; bprop.
  - eapply call_completion_fine; [done|done|]. by split.
  - eapply thread_moves; [done|exact Ep|done|]. cbn. by replace (ret <? 0) with false by lia.
Qed.

Lemma sch_inv x s : inv s -> inv (set_sch x s).
Proof. by intros [L1 L2 L3 L4 L5 L6 L7 L8 L9 L10]. Qed.

Lemma PostOne_fine i s : inv s -> fine s (PostOne i s).
Proof. intros H. unfold PostOne. destruct (posting (sch s) !! i) as [[|n]|]; try done. by apply sch_inv. Qed.

Lemma Loop_fine i s : inv s -> fine s (Loop i s).
Proof.
  intros H. unfold Loop. destruct (threads s !! i) as [[| | | | | |]|] eqn:Ep; try done.
  by destruct (ioworkerStop (sch s)); eapply thread_moves.
Qed.

Lemma Wait_fine i s : inv s -> fine s (Wait i s).
Proof.
  intros H. unfold Wait. destruct (threads s !! i) as [[| | | | | |]|] eqn:Ep; try done.
  destruct (permits (sch s) !! i) as [[|n]|]; try done. eapply thread_moves; [by apply sch_inv|exact Ep|done|done].
Qed.

Lemma Take_fine i s : inv s -> fine s (Take i s).
Proof.
  intros H. unfold Take. destruct (threads s !! i) as [[| | | | | |]|] eqn:Ep; try done.
  destruct (queues s !! i) as [[|r q]|] eqn:Eq; [by eapply thread_moves| |done].
  assert (r ∈ concat (queues s)) as Hr.
  { apply list_elem_of_In, in_concat. exists (r :: q). split; [apply list_elem_of_In; by eapply list_elem_of_lookup_2|by left]. }
  destruct (proj1 (i_ctx _ H r) Hr) as [ctx Hx]. rewrite Hx. destruct (i_ptrs _ H _ _ Hx) as [f Hf]. set (s' := {| next := _ |}).
  pose proof (concat_swap _ _ _ q Eq) as Hsw. rewrite (Permutation_app_comm _ (r :: q)), (Permutation_app_comm (concat (queues s)) q) in Hsw.
  cbn in Hsw. rewrite Permutation_middle in Hsw. apply Permutation_app_inv_l in Hsw.
  pose proof (flat_map_swap running _ _ _ (Taken r (c_op ctx) (c_comp ctx)) Ep) as Ht. cbn [running] in Ht. rewrite app_nil_r in Ht.
  assert (pending s ≡ₚ pending s') as Hpend by (unfold pending; cbn [s' queues threads flying]; rewrite Ht, <- Hsw; solve_Permutation).
  assert (calls s' = calls s ++ []) as Ec by (cbn; by rewrite app_nil_r).
  destruct (keep s s' [] H eq_refl Ec eq_refl eq_refl Hpend (ops_same _ _ eq_refl)) as (K1 & K2 & K3).
  pose proof (inv_NoDup _ H) as Hnd. apply NoDup_app in Hnd as (Hnd & _ & _). unfold pending in Hnd. apply NoDup_app in Hnd as (Hnd & _ & _).
  rewrite <- Hsw in Hnd. apply NoDup_cons in Hnd as [Hrn Hnd].
  destruct H as [L1 L2 L3 L4 L5 L6 L7 L8 L9 L10]. split; try done.
  - cbn. by rewrite !length_insert.
  - intros r'. cbn [s' ctxs queues]. rewrite lookup_delete. case_decide as E.
    + subst r'. split; [done|]. by intros [? ?].
    + rewrite <- L4, <- Hsw, elem_of_cons. naive_solver.
  - intros r' ctx'. cbn [s' ctxs]. rewrite lookup_delete. case_decide; [done|]. apply L5.
  - intros j p r' o c Hp Hh. cbn in Hp. apply list_lookup_insert_Some in Hp as [(<- & <- & _)|[_ Hp]]; [|by eapply L6].
    destruct Hh as (<- & <- & <-). by exists f.
Qed.

Lemma waiting_pending s k r o : flying s !! k = Some (Waiting r o) -> r ∈ pending s.
Proof.
  intros Hk. unfold pending. rewrite !elem_of_app. right. right. apply list_elem_of_In, in_flat_map. exists (Waiting r o).
  split; [apply list_elem_of_In; by eapply list_elem_of_lookup_2|by left].
Qed.

Lemma AioOperate_fine i ret s : inv s -> fine s (AioOperate i ret s).
Proof.
  intros H. unfold AioOperate. destruct (threads s !! i) as [[| |r o c| | | |]|] eqn:Ep; try done.
  destruct (inv_running _ _ _ r o c H Ep) as (Hr & f & x & Hq & Hc & Ho & _); [done|]. rewrite Hc, Ho.
  set (x' := {| opType := _ |}). set (more := if ret <? 0 then [] else [Waiting r o]). set (s' := set_thread _ _ _).
  pose proof (flat_map_swap running _ _ _ (Submitted r o c ret) Ep) as Ht. cbn [running] in Ht.
  assert (pending s ≡ₚ pending s') as Hpend.
  { unfold pending. cbn [s' set_thread set_flying set_ops set_heap queues threads flying]. rewrite flat_map_app. apply Permutation_app_head.
    apply (Permutation_app_inv_r (if ret <? 0 then [r] else [])). rewrite <- !app_assoc.
    rewrite (Permutation_app_comm (flat_map waiting (flying s))), !app_assoc, <- Ht. unfold more. destruct (ret <? 0); cbn; rewrite ?app_nil_r; solve_Permutation. }
  assert (calls s' = calls s ++ []) as Ec by (cbn; by rewrite app_nil_r).
  destruct (keep s s' [] H eq_refl Ec eq_refl eq_refl Hpend) as (K1 & K2 & K3).
  { intros o' p Hp. cbn. destruct (decide (o' = o)) as [->|Hne]; [|exists p; by rewrite lookup_insert_ne].
    exists x'. rewrite lookup_insert_eq. split; [done|]. cbn. congruence. }
  assert (op_of s r = Some o) as Hor by (unfold op_of; by rewrite Hq).
  pose proof (waiting_pending s) as Hw.
  destruct H as [L1 L2 L3 L4 L5 L6 L7 L8 L9 L10]. split; try done.
  - cbn. by rewrite length_insert.
  - intros j p r' o' c' Hp Hh. cbn in Hp. apply list_lookup_insert_Some in Hp as [(<- & <- & _)|[_ Hp]]; [|by eapply L6].
    destruct Hh as (_ & <- & <- & <-). by exists f.
  - intros k r' o' Hk. cbn [s' set_thread set_flying set_ops set_heap flying] in Hk.
    cbn [s' set_thread set_flying set_ops set_heap requests ops]. apply lookup_app_Some in Hk as [Hk|[_ Hk]].
    + destruct (L8 _ _ _ Hk) as (c' & f' & p & Hq' & Hp & Hf). destruct (decide (o' = o)) as [->|Hne].
      * assert (r' = r) as -> by (eapply L3; [by eapply Hw|done|unfold op_of; by rewrite Hq'|done]).
        rewrite Hq in Hq'. injection Hq' as <- <-. exists c, f, x'. split_and!; [done|apply lookup_insert_eq|done].
      * exists c', f', p. split_and!; [done|by rewrite lookup_insert_ne|done].
    + unfold more in Hk. destruct (ret <? 0); [done|]. destruct (k - length (flying s))%nat; [|done]. injection Hk as <- <-.
      exists c, f, x'. split_and!; [done|apply lookup_insert_eq|done].
  - intros a Ha. destruct (L10 a Ha) as (N1 & N2 & N3). cbn. rewrite lookup_insert_ne by congruence. done.
Qed.

Lemma Complete_fine k ret s : inv s -> fine s (Complete k ret s).
Proof.
  intros H. unfold Complete. destruct (flying s !! k) as [[r o|]|] eqn:Ek; try done.
  destruct (i_flying _ H _ _ _ Ek) as (c & f & p & Hq & Ho & Hf). pose proof (waiting_pending _ _ _ _ Ek) as Hr.
  destruct (i_live _ H _ _ _ _ Hr Hq) as (_ & p' & Ho' & Hi). rewrite Ho in Ho'. injection Ho' as <-. rewrite Ho.
  replace (forallb _ (iters p)) with true by (symmetry; apply forallb_forall; intros y Hy; apply bool_decide_eq_true, Hi; by apply list_elem_of_In).
  rewrite andb_false_r, Hf. cbn [fine]. set (s' := add_call _ _ _ _).
  pose proof (flat_map_swap waiting _ _ _ (InCallback r) Ek) as Hsw. cbn [waiting] in Hsw. rewrite app_nil_r in Hsw.
  assert (pending s ≡ₚ [r] ++ pending s') as Hpend.
  { unfold pending. cbn [s' add_call set_flying queues threads flying]. rewrite <- Hsw. solve_Permutation. }
  destruct (keep s s' [(r, ret, f)] H eq_refl eq_refl eq_refl eq_refl Hpend (ops_same _ _ eq_refl)) as (K1 & K2 & K3).
  destruct H as [L1 L2 L3 L4 L5 L6 L7 L8 L9 L10]. split; try done.
  - intros j r' o' Hj. cbn in Hj. apply list_lookup_insert_Some in Hj as [(_ & ? & _)|[_ Hj]]; [done|by eapply L8].
  - intros r' ret' f' Hx. cbn in Hx. apply elem_of_app in Hx as [Hx|Hx]; [by eapply L9|].
    apply list_elem_of_singleton in Hx as [= -> -> ->]. eauto.
Qed.

Lemma Leave_fine k s : inv s -> fine s (Leave k s).
Proof.
  intros H. unfold Leave. destruct (flying s !! k) as [[|r]|] eqn:Ek; try done. cbn [fine]. set (s' := set_flying _ _).
  assert (pending s ≡ₚ pending s') as Hpend.
  { unfold pending. cbn [s' set_flying queues threads flying]. do 2 apply Permutation_app_head.
    pose proof (delete_perm _ _ _ Ek) as Hd. rewrite !flat_map_concat_map, Hd at 1. done. }
  assert (calls s' = calls s ++ []) as Ec by (cbn; by rewrite app_nil_r).
  destruct (keep s s' [] H eq_refl Ec eq_refl eq_refl Hpend (ops_same _ _ eq_refl)) as (K1 & K2 & K3).
  destruct H as [L1 L2 L3 L4 L5 L6 L7 L8 L9 L10]. split; try done.
  intros j r' o' Hj. cbn in Hj. assert (Waiting r' o' ∈ flying s) as [j' Hj']%list_elem_of_lookup; [|by eapply L8].
  rewrite (delete_perm _ _ _ Ek). right. by eapply list_elem_of_lookup_2.
Qed.

Lemma label_fine l s : 0 < threadNum -> inv s -> legal s l -> fine s (step l s).
Proof.
  intros Hn H Hl. destruct l; cbn [step]; try by apply NewOp_fine.
  - by apply CompletionInit_fine.
  - by eapply NewIter_fine.
  - destruct ty; by eapply OpRelease_fine.
  - by apply CompletionDestroy_fine.
  - destruct omap; by eapply IterEnd_fine.
  - by eapply Queue_fine.
  - by apply PostOne_fine.
  - by apply sch_inv.
  - by apply sch_inv.
  - by apply Loop_fine.
  - by apply Wait_fine.
  - by apply Take_fine.
  - by apply LookUp_fine.
  - by apply AioOperate_fine.
  - by apply Return_fine.
  - by apply Complete_fine.
  - by apply Leave_fine.
Qed.

Lemma start_inv : inv start.
Proof.
  assert (pending start = []) as E.
  { unfold pending. cbn. rewrite flat_map_replicate_nil by done. induction (Z.to_nat threadNum); done. }
  split; rewrite ?E; try done.
  - cbn. by rewrite !length_replicate.
  - intros r. cbn. rewrite lookup_empty. split; [|by intros [? ?]].
    intros Hr. exfalso. induction (Z.to_nat threadNum) as [|n IH]; [by apply not_elem_of_nil in Hr|by apply IH].
  - intros i p r o c Hp Hh. cbn in Hp. apply lookup_replicate in Hp as [-> _]. done.
  - by intros r ret f ?%not_elem_of_nil.
Qed.

Lemma run_fine ls s : 0 < threadNum -> inv s -> legal_run ls s -> fine s (run ls s).
Proof.
  intros Hn. revert s. induction ls as [|l ls IH]; intros s H Hl; [done|]. destruct Hl as [Hl Hr]. cbn [run].
  pose proof (label_fine l s Hn H Hl) as Hs. destruct (step l s) as [s'| |]; [|done|done]. by apply IH.
Qed.

(** *** Nobody sleeps beside a request *)

(** The thread is between two tests of its queue. *)
Definition draining (p : pc) : bool := match p with AtLoop | AtWait | Exited => false | _ => true end.

(** A lane with a request has its thread draining it, or a post that will wake the
    thread, or a thread that has returned; threads return only after a stop. *)
Record awake (s : t) : Prop := {
  a_lens : length (queues s) = Z.to_nat threadNum /\ length (threads s) = Z.to_nat threadNum /\
           length (posting (sch s)) = Z.to_nat threadNum /\ length (permits (sch s)) = Z.to_nat threadNum;
  a_wake : forall i r q p n m, queues s !! i = Some (r :: q) -> threads s !! i = Some p ->
    posting (sch s) !! i = Some n -> permits (sch s) !! i = Some m ->
    draining p = true \/ (0 < n + m)%nat \/ p = Exited;
  a_stop : forall i, threads s !! i = Some Exited -> ioworkerStop (sch s) = true
}.

(** Steps of a thread that goes on draining or ends up with an empty queue. *)
Lemma awake_thread s s' i p : awake s -> queues s' = queues s -> sch s' = sch s -> threads s' = <[i := p]> (threads s) ->
  (draining p = true \/ queues s !! i = Some [] /\ p = AtLoop) -> awake s'.
Proof.
  intros [Hl Hw He] Eq Es Et Hp. split; rewrite ?Eq, ?Es, ?Et, ?length_insert; [done| |].
  - intros j r q p' n m Hq [(<- & <- & _)|[Hne Ht]]%list_lookup_insert_Some Hn Hm; [|by eapply Hw].
    destruct Hp as [Hp|[Hp _]]; [by left|]. rewrite Hp in Hq. done.
  - intros j [(<- & -> & _)|[Hne Ht]]%list_lookup_insert_Some; [|by eapply He]. destruct Hp as [Hp|[_ Hp]]; done.
Qed.

Lemma awake_same s s' : awake s -> queues s' = queues s -> sch s' = sch s -> threads s' = threads s -> awake s'.
Proof. intros [Hl Hw He] Eq Es Et. split; by rewrite ?Eq, ?Es, ?Et. Qed.

Lemma call_awake s i r c ret s' : awake s -> call_completion i r c ret s = Done s' -> awake s'.
Proof.
  unfold call_completion. destruct (comps s !! c); [|done]. intros H [= <-].
  eapply awake_thread; [exact H|done|done|done|by left].
Qed.

(** Posts only add what wakes a thread. *)
Lemma awake_posts s x : awake s -> length (posting x) = Z.to_nat threadNum -> length (permits x) = Z.to_nat threadNum ->
  (ioworkerStop (sch s) = true -> ioworkerStop x = true) ->
  (forall i n m, posting x !! i = Some n -> permits x !! i = Some m ->
     exists n' m', posting (sch s) !! i = Some n' /\ permits (sch s) !! i = Some m' /\ (n' + m' <= n + m)%nat) ->
  awake (set_sch x s).
Proof.
  intros [Hl Hw He] L1 L2 Hst Hx. split; cbn.
  - by destruct Hl as (? & ? & _).
  - intros i r q p n m Hq Hp Hn Hm. destruct (Hx _ _ _ Hn Hm) as (n' & m' & Hn' & Hm' & Hle).
    destruct (Hw _ _ _ _ _ _ Hq Hp Hn' Hm') as [?|[?|?]]; [by left|right; left; lia|by right; right].
  - intros i Hi. by eapply Hst, He.
Qed.

Lemma step_awake l s s' : awake s -> step l s = Done s' -> awake s'.
Proof.
  intros H. destruct l; cbn [step].
  1-4: unfold NewOp, new_cell; destruct alloc; intros [= <-]; [by eapply awake_same|done].
  - unfold CompletionInit, new_cell. destruct fn, alloc; intros [= <-]; by try eapply awake_same.
  - unfold NewIter. destruct alloc; cbn [negb]; [|by intros [= <-]]. destruct (ops s !! o); [|done]. intros [= <-]. by eapply awake_same.
  - unfold CephProxyReadOpRelease, CephProxyWriteOpRelease, RadosReadOpRelease, RadosWriteOpRelease.
    destruct ty, op as [o|]; try (by intros [= <-]); destruct (ops s !! o); try done; intros [= <-]; by eapply awake_same.
  - unfold CephProxyCompletionDestroy, CompletionDestroy. destruct c as [c|]; [|by intros [= <-]]. destruct (comps s !! c); [|done].
    intros [= <-]. by eapply awake_same.
  - unfold RadosOmapIterEnd, RadosGetXattrsEnd. destruct omap, it as [i|]; try (by intros [= <-]); case_decide; try done; intros [= <-]; by eapply awake_same.
  - unfold Queue. destruct alloc; cbn [negb]; [|by intros [= <-]]. destruct (ops s !! o) as [x|]; [|done].
    set (i := RadosIOWorker.index_of _ _ _). destruct (queues s !! i) as [q|] eqn:Eq; [|done]. intros [= <-].
    destruct H as [(L1 & L2 & L3 & L4) Hw He]. split; cbn.
    + rewrite length_insert, length_alter. done.
    + intros j r' q' p n m Hq Hp Hn Hm. rewrite list_lookup_alter in Hn. case_decide as Hij.
      * destruct (posting (sch s) !! i) as [n0|]; [|done]. injection Hn as <-. right; left; lia.
      * rewrite list_lookup_insert_ne in Hq by done. by eapply Hw.
    + apply He.
  - unfold PostOne. destruct (posting (sch s) !! i) as [[|n]|] eqn:En; try done. intros [= <-].
    pose proof (a_lens _ H) as (_ & _ & L3 & L4). apply awake_posts; cbn; [done|by rewrite length_insert|by rewrite length_alter|done|].
    intros j a b Ha Hb. apply list_lookup_insert_Some in Ha as [(<- & <- & _)|[Hne Ha]].
    + rewrite list_lookup_alter_eq in Hb. destruct (permits (sch s) !! i) as [m|]; [|done]. injection Hb as <-. exists (S n), m. split_and!; [done|done|lia].
    + rewrite list_lookup_alter_ne in Hb by done. exists a, b. done.
  - unfold WaitForEmpty. intros [= <-]. pose proof (a_lens _ H) as (_ & _ & L3 & L4).
    apply awake_posts; cbn; [done|by rewrite length_map|done|done|].
    intros j a b Ha Hb. rewrite list_lookup_fmap in Ha. destruct (posting (sch s) !! j) as [n|]; [|done]. injection Ha as <-. exists n, b. split_and!; [done|done|lia].
  - unfold StopProc. intros [= <-]. pose proof (a_lens _ H) as (_ & _ & L3 & L4). apply awake_posts; cbn; try done. eauto.
  - unfold Loop. destruct (threads s !! i) as [[| | | | | |]|] eqn:Ep; try done. intros [= <-]. destruct H as [Hl Hw He]. split; cbn.
    + by rewrite length_insert.
    + intros j r q p n m Hq [(<- & <- & _)|[Hne Ht]]%list_lookup_insert_Some Hn Hm; [|by eapply Hw].
      destruct (Hw _ _ _ _ _ _ Hq Ep Hn Hm) as [?|[?|?]]; [done|by right; left|done].
    + intros j [(<- & Hx & _)|[Hne Ht]]%list_lookup_insert_Some; [|by eapply He]. by destruct (ioworkerStop (sch s)).
  - unfold Wait. destruct (threads s !! i) as [[| | | | | |]|] eqn:Ep; try done.
    destruct (permits (sch s) !! i) as [[|m0]|] eqn:Em; try done. intros [= <-]. destruct H as [(L1 & L2 & L3 & L4) Hw He]. split; cbn.
    + by rewrite !length_insert.
    + intros j r q p n m Hq [(<- & <- & _)|[Hne Ht]]%list_lookup_insert_Some Hn Hm; [by left|].
      rewrite list_lookup_insert_ne in Hm by done. by eapply Hw.
    + intros j [(<- & Hx & _)|[Hne Ht]]%list_lookup_insert_Some; [done|by eapply He].
  - unfold Take. destruct (threads s !! i) as [[| | | | | |]|] eqn:Ep; try done. destruct (queues s !! i) as [[|r q]|] eqn:Eq; try done.
    + intros [= <-]. eapply awake_thread; [exact H|done|done|done|by right].
    + destruct (ctxs s !! r); [|done]. intros [= <-]. destruct H as [(L1 & L2 & L3 & L4) Hw He]. split; cbn.
      * by rewrite !length_insert.
      * intros j r' q' p n m Hq [(<- & <- & _)|[Hne Ht]]%list_lookup_insert_Some Hn Hm; [by left|].
        rewrite list_lookup_insert_ne in Hq by done. by eapply Hw.
      * intros j [(<- & Hx & _)|[Hne Ht]]%list_lookup_insert_Some; [done|by eapply He].
  - unfold LookUp. destruct (threads s !! i) as [[|r o c| | | | |]|] eqn:Ep; try done. destruct (ops s !! o); [|done]. destruct found.
    + intros [= <-]. eapply awake_thread; [exact H|done|done|done|by left].
    + by eapply call_awake.
  - unfold AioOperate. destruct (threads s !! i) as [[| |r o c| | | |]|] eqn:Ep; try done. destruct (comps s !! c), (ops s !! o); try done.
    intros [= <-]. eapply awake_thread; [exact H|done|done|done|by left].
  - unfold Return. destruct (threads s !! i) as [[| | |r o c ret| | |]|] eqn:Ep; try done. destruct (ret <? 0); [by eapply call_awake|].
    intros [= <-]. eapply awake_thread; [exact H|done|done|done|by left].
  - unfold Complete. destruct (flying s !! k) as [[r o|]|]; try done. destruct (ops s !! o); [|done]. destruct (_ && _); [done|].
    destruct (callback _); [|done]. intros [= <-]. by eapply awake_same.
  - unfold Leave. destruct (flying s !! k) as [[|r]|]; try done. intros [= <-]. by eapply awake_same.
Qed.

Lemma start_awake : awake start.
Proof.
  split; cbn; [by rewrite !length_replicate| |].
  - intros i r q p n m [Hq _]%lookup_replicate. done.
  - intros i [Hx _]%lookup_replicate. done.
Qed.

Lemma run_awake ls s s' : awake s -> run ls s = Done s' -> awake s'.
Proof.
  revert s. induction ls as [|l ls IH]; intros s H Hr; cbn in Hr; [by injection Hr as <-|].
  destruct (step l s) as [s1| |] eqn:E; try done. eapply IH; [by eapply step_awake|done].
Qed.

(** *** Progress *)

(** The steps of the worker threads and of librados, and the posts under way. *)
Definition internal (l : label) : bool :=
  match l with
  | LPostOne _ | LLoop _ | LWait _ | LTake _ | LLookUp _ _ | LAioOperate _ _ | LReturn _ | LComplete _ _ | LLeave _ => true
  | _ => false
  end.

Definition weight (p : pc) : Z :=
  match p with
  | Idle => 2 | Taken _ _ _ => 7 | HasIo _ _ _ => 6 | Submitted _ _ _ _ => 3 | AtLoop => 1 | AtWait | Exited => 0
  end.
Definition fweight (f : flight) : Z := match f with Waiting _ _ => 2 | InCallback _ => 1 end.
Definition measure (s : t) : Z :=
  6 * sumZ len (queues s) + sumZ weight (threads s) + sumZ fweight (flying s) +
  4 * sumZ Z.of_nat (posting (sch s)) + 3 * sumZ Z.of_nat (permits (sch s)).

Lemma measure_nonneg s : 0 <= measure s.
Proof.
  unfold measure. pose proof (sumZ_nonneg len (queues s)) as H1. pose proof (sumZ_nonneg weight (threads s)) as H2.
  pose proof (sumZ_nonneg fweight (flying s)) as H3.
  specialize (H1 ltac:(intros; apply len_nonneg)). specialize (H2 ltac:(intros [] _; cbn; lia)). specialize (H3 ltac:(intros [] _; cbn; lia)).
  pose proof (sumZ_nonneg Z.of_nat (posting (sch s)) ltac:(intros; lia)).
  pose proof (sumZ_nonneg Z.of_nat (permits (sch s)) ltac:(intros; lia)). lia.
Qed.

Lemma measure_thread s i p p' : threads s !! i = Some p -> measure (set_thread i p' s) = measure s - weight p + weight p'.
Proof. intros Hp. unfold measure. cbn [set_thread queues threads flying sch]. rewrite (sumZ_insert _ _ _ _ _ Hp). lia. Qed.

Lemma sumZ_up i l : sumZ Z.of_nat (alter S i l) <= sumZ Z.of_nat l + 1.
Proof.
  revert i. induction l as [|n l IH]; intros i; [destruct i; vm_compute; discriminate|]. destruct i as [|i].
  - change (Z.of_nat (S n) + sumZ Z.of_nat l <= Z.of_nat n + sumZ Z.of_nat l + 1). lia.
  - change (Z.of_nat n + sumZ Z.of_nat (alter S i l) <= Z.of_nat n + sumZ Z.of_nat l + 1). specialize (IH i). lia.
Qed.

Lemma call_measure i r c ret s s' p : threads s !! i = Some p -> 2 < weight p -> call_completion i r c ret s = Done s' -> measure s' < measure s.
Proof.
  intros Hp Hw. unfold call_completion. destruct (comps s !! c); [|done]. intros [= <-].
  rewrite (measure_thread _ _ p) by done. change (measure (add_call _ _ _ s)) with (measure s). cbn. lia.
Qed.

Lemma step_measure l s s' : internal l = true -> step l s = Done s' -> measure s' < measure s.
Proof.
  intros Hi. destruct l; try done; cbn [step]; clear Hi.
  - unfold PostOne. destruct (posting (sch s) !! i) as [[|n]|] eqn:En; try done. intros [= <-]. unfold measure.
    cbn [set_sch queues threads flying sch posting permits]. rewrite (sumZ_insert _ _ _ _ _ En). pose proof (sumZ_up i (permits (sch s))). lia.
  - unfold Loop. destruct (threads s !! i) as [[| | | | | |]|] eqn:Ep; try done. intros [= <-]. rewrite (measure_thread _ _ _ _ Ep).
    destruct (ioworkerStop (sch s)); cbn; lia.
  - unfold Wait. destruct (threads s !! i) as [[| | | | | |]|] eqn:Ep; try done. destruct (permits (sch s) !! i) as [[|n]|] eqn:En; try done.
    intros [= <-]. rewrite (measure_thread _ _ AtWait) by done. unfold measure. cbn [set_sch queues threads flying sch posting permits].
    rewrite (sumZ_insert _ _ _ _ _ En). cbn [weight]. lia.
  - unfold Take. destruct (threads s !! i) as [[| | | | | |]|] eqn:Ep; try done. destruct (queues s !! i) as [[|r q]|] eqn:Eq; try done.
    1: intros [= <-]; rewrite (measure_thread _ _ _ _ Ep); cbn [weight]; lia.
    destruct (ctxs s !! r); [|done]. intros [= <-]. unfold measure. cbn [queues threads flying sch].
    rewrite (sumZ_insert _ _ _ _ _ Ep), (sumZ_insert _ _ _ _ _ Eq), len_cons. cbn [weight]. lia.
  - unfold LookUp. destruct (threads s !! i) as [[|r o c| | | | |]|] eqn:Ep; try done. destruct (ops s !! o); [|done]. destruct found.
    + intros [= <-]. rewrite (measure_thread _ _ _ _ Ep). cbn. lia.
    + by eapply call_measure.
  - unfold AioOperate. destruct (threads s !! i) as [[| |r o c| | | |]|] eqn:Ep; try done. destruct (comps s !! c), (ops s !! o); try done.
    intros [= <-]. rewrite (measure_thread _ _ (HasIo r o c)) by done. unfold measure. cbn [set_flying set_ops set_heap queues threads flying sch].
    rewrite sumZ_app. destruct (ret <? 0); cbn; lia.
  - unfold Return. destruct (threads s !! i) as [[| | |r o c ret| | |]|] eqn:Ep; try done. destruct (ret <? 0).
    + by eapply call_measure.
    + intros [= <-]. rewrite (measure_thread _ _ _ _ Ep). cbn. lia.
  - unfold Complete. destruct (flying s !! k) as [[r o|]|] eqn:Ek; try done. destruct (ops s !! o); [|done]. destruct (_ && _); [done|].
    destruct (callback _); [|done]. intros [= <-]. unfold measure. cbn [add_call set_flying queues threads flying sch].
    rewrite (sumZ_insert _ _ _ _ _ Ek). cbn [fweight]. lia.
  - unfold Leave. destruct (flying s !! k) as [[|r]|] eqn:Ek; try done. intros [= <-]. unfold measure. cbn [set_flying queues threads flying sch].
    rewrite (sumZ_perm fweight (flying s) _ (delete_perm _ _ _ Ek)). cbn [sumZ fweight]. lia.
Qed.

Lemma run_measure ls s s' : forallb internal ls = true -> run ls s = Done s' -> len ls + measure s' <= measure s.
Proof.
  revert s. induction ls as [|l ls IH]; intros s Hi Hr; cbn in Hi, Hr; [injection Hr as <-; rewrite len_nil; lia|].
  apply andb_true_iff in Hi as [Hi Hi']. destruct (step l s) as [s1| |] eqn:E; try done.
  pose proof (step_measure _ _ _ Hi E). specialize (IH _ Hi' Hr). rewrite len_cons. lia.
Qed.

(** Nothing can move only when no thread has anything under way, and a request that
    still stands in a queue has lost its thread. *)
Lemma stuck_threads s : (forall l, internal l = true -> step l s = Waits) -> length (queues s) = length (threads s) ->
  (forall i p, threads s !! i = Some p -> p = AtWait \/ p = Exited) /\ flying s = [].
Proof.
  intros Hw Hlen. split.
  - intros i p Hp. destruct p as [|r o c|r o c|r o c ret| | |]; [exfalso..|by left|by right].
    + specialize (Hw (LTake i) eq_refl). cbn in Hw. unfold Take in Hw. rewrite Hp in Hw.
      destruct (lookup_lt_is_Some_2 (queues s) i) as [[|r q] Hq]; [rewrite Hlen; by eapply lookup_lt_Some|by rewrite Hq in Hw|].
      rewrite Hq in Hw. by destruct (ctxs s !! r).
    + specialize (Hw (LLookUp i true) eq_refl). cbn in Hw. unfold LookUp in Hw. rewrite Hp in Hw. by destruct (ops s !! o).
    + specialize (Hw (LAioOperate i 0) eq_refl). cbn in Hw. unfold AioOperate in Hw. rewrite Hp in Hw. by destruct (comps s !! c), (ops s !! o).
    + specialize (Hw (LReturn i) eq_refl). cbn in Hw. unfold Return, call_completion in Hw. rewrite Hp in Hw. destruct (ret <? 0), (comps s !! c); done.
    + specialize (Hw (LLoop i) eq_refl). cbn in Hw. unfold Loop in Hw. by rewrite Hp in Hw.
  - destruct (flying s) as [|f l] eqn:E; [done|]. exfalso. destruct f as [r o|r].
    + specialize (Hw (LComplete 0 1) eq_refl). cbn in Hw. unfold Complete in Hw. rewrite E in Hw. cbn in Hw.
      destruct (ops s !! o) as [p|]; [|done]. destruct (opType p), (callback p); done.
    + specialize (Hw (LLeave 0) eq_refl). cbn in Hw. unfold Leave in Hw. rewrite E in Hw. done.
Qed.

Lemma stuck_queue s i r q : awake s -> (forall l, internal l = true -> step l s = Waits) -> queues s !! i = Some (r :: q) ->
  threads s !! i = Some Exited /\ ioworkerStop (sch s) = true.
Proof.
  intros H Hw Hq. pose proof (a_lens _ H) as (L1 & L2 & L3 & L4). pose proof (lookup_lt_Some _ _ _ Hq) as Hi.
  destruct (stuck_threads s Hw) as [Ht _]; [congruence|].
  destruct (lookup_lt_is_Some_2 (threads s) i) as [p Hp]; [lia|].
  destruct (lookup_lt_is_Some_2 (posting (sch s)) i) as [n Hn]; [lia|].
  destruct (lookup_lt_is_Some_2 (permits (sch s)) i) as [m Hm]; [lia|].
  assert (n = 0%nat) as ->.
  { specialize (Hw (LPostOne i) eq_refl). cbn in Hw. unfold PostOne in Hw. rewrite Hn in Hw. by destruct n. }
  assert (p = Exited) as ->; [|split; [done|by eapply a_stop]].
  destruct (Ht _ _ Hp) as [-> | ->]; [|done]. destruct (a_wake _ H _ _ _ _ _ _ Hq Hp Hn Hm) as [?|[Hpos|?]]; [done| |done].
  specialize (Hw (LWait i) eq_refl). cbn in Hw. unfold Wait in Hw. rewrite Hp, Hm in Hw. destruct m; [lia|done].
Qed.

Lemma internal_legal ls s : forallb internal ls = true -> legal_run ls s.
Proof.
  revert s. induction ls as [|l ls IH]; intros s Hi; [done|]. cbn in Hi. apply andb_true_iff in Hi as [Hi Hi'].
  split; [by destruct l|]. destruct (step l s); [by apply IH|done|done].
Qed.

(** What is left when nothing moves is what stands in the queues. *)
Lemma stuck_all s : inv s -> awake s -> (forall l, internal l = true -> step l s = Waits) ->
  concat (queues s) ++ map (fun x => fst (fst x)) (calls s) ≡ₚ seq 0 (length (requests s)).
Proof.
  intros H Ha Hw. pose proof (a_lens _ Ha) as (L1 & L2 & _). destruct (stuck_threads s Hw) as [Ht Hfl]; [congruence|].
  rewrite <- (i_all _ H). unfold pending. rewrite Hfl. cbn. rewrite app_nil_r.
  replace (flat_map running (threads s)) with (@nil nat); [by rewrite app_nil_r|]. symmetry.
  enough (forall l, (forall p, p ∈ l -> p = AtWait \/ p = Exited) -> flat_map running l = []) as Hx.
  { apply Hx. intros p [i Hp]%list_elem_of_lookup. by eapply Ht. }
  intros l. induction l as [|p l IH]; intros Hx; [done|]. cbn. destruct (Hx p) as [-> | ->]; [by left|cbn..];
    apply IH; intros q Hq'; apply Hx; by right.
Qed.

Definition not_stop (l : label) : bool := match l with LWaitForEmpty | LStopProc => false | _ => true end.

Lemma no_stop ls s s' : forallb not_stop ls = true -> run ls s = Done s' -> ioworkerStop (sch s') = ioworkerStop (sch s).
Proof.
  revert s. induction ls as [|l ls IH]; intros s Hn Hr; cbn in Hn, Hr; [by injection Hr as <-|].
  apply andb_true_iff in Hn as [Hn Hn']. destruct (step l s) as [s1| |] eqn:E; try done. rewrite (IH _ Hn' Hr). clear IH Hr.
  revert E. destruct l; try done; cbn [step];
    unfold NewOp, CompletionInit, new_cell, NewIter, CephProxyReadOpRelease, CephProxyWriteOpRelease, RadosReadOpRelease,
      RadosWriteOpRelease, CephProxyCompletionDestroy, CompletionDestroy, RadosOmapIterEnd, RadosGetXattrsEnd, Queue, PostOne,
      Loop, Wait, Take, LookUp, AioOperate, Return, call_completion, Complete, Leave;
    repeat case_match; intros; simplify_eq; cbn; congruence.
Qed.

Lemma forallb_internal ls : forallb internal ls = true -> forallb not_stop ls = true.
Proof. rewrite !forallb_forall. intros H l Hl. specialize (H l Hl). by destruct l. Qed.

(** C14: however callers, worker threads and librados interleave, and whether requests
    are accepted, refused or find no IO context: as long as the caller keeps operation,
    completion and iterators until the callback -- and may release them inside it --
    no released object is ever touched.  Every request is either pending or was
    called back once, with the callback and argument it was queued with; its context
    is freed when it leaves the queue. *)
Theorem requests_safe (ls : list label) (Hn : 0 < threadNum) (Hl : legal_run ls start) :
  match run ls start with
  | Fault => False
  | Waits => True
  | Done s =>
      pending s ++ map (fun x => fst (fst x)) (calls s) ≡ₚ seq 0 (length (requests s)) /\
      (forall r ret f, (r, ret, f) ∈ calls s -> exists o c, requests s !! r = Some (o, c, f)) /\
      (forall r, is_Some (ctxs s !! r) <-> r ∈ concat (queues s))
  end.
Proof.
  pose proof (run_fine ls start Hn start_inv Hl) as Hf. destruct (run ls start) as [s| |]; [|done|done].
  split; [apply Hf|]. split; [apply Hf|]. intros r. by rewrite (i_ctx _ Hf).
Qed.

(** C15: and every request is answered, unless the worker is stopped first.
    Whatever the threads, the posts under way and librados do from a state a legal
    run reaches, they do at most [measure] steps; and when nothing can move any
    more, each request has been called back or still stands, with its context, in
    the queue of a thread that has returned from [OpHandler] because of a stop
    ([WaitForEmpty] or [StopProc]).  So if no stop was asked for, every request has
    been called back and no context is left. *)
Theorem requests_answered (ls ls' : list label) (s s' : t) (Hn : 0 < threadNum) (Hl : legal_run ls start)
  (Hr : run ls start = Done s) (Hi : forallb internal ls' = true) (Hr' : run ls' s = Done s') :
  len ls' <= measure s /\
  ((forall l, internal l = true -> step l s' = Waits) ->
   concat (queues s') ++ map (fun x => fst (fst x)) (calls s') ≡ₚ seq 0 (length (requests s')) /\
   (forall r, is_Some (ctxs s' !! r) <-> r ∈ concat (queues s')) /\
   (forall i r q, queues s' !! i = Some (r :: q) -> threads s' !! i = Some Exited) /\
   (forallb not_stop ls = true ->
    map (fun x => fst (fst x)) (calls s') ≡ₚ seq 0 (length (requests s')) /\ ctxs s' = ∅)).
Proof.
  pose proof (run_fine ls start Hn start_inv Hl) as Hf. rewrite Hr in Hf.
  pose proof (run_fine ls' s Hn Hf (internal_legal _ _ Hi)) as Hf'. rewrite Hr' in Hf'. cbn [fine] in Hf, Hf'.
  pose proof (run_awake _ _ _ start_awake Hr) as Ha. pose proof (run_awake _ _ _ Ha Hr') as Ha'.
  split; [pose proof (run_measure _ _ _ Hi Hr'); pose proof (measure_nonneg s'); lia|]. intros Hw.
  pose proof (stuck_all _ Hf' Ha' Hw) as Hall. split; [exact Hall|]. split; [intros r; by rewrite (i_ctx _ Hf')|].
  split; [intros i r q Hq; by destruct (stuck_queue _ _ _ _ Ha' Hw Hq)|]. intros Hns.
  assert (concat (queues s') = []) as Hq.
  { apply concat_nil_Forall, Forall_lookup. intros i [|r q] Hq; [done|]. destruct (stuck_queue _ _ _ _ Ha' Hw Hq) as [_ Hst].
    rewrite (no_stop ls' s s') in Hst; [|by eapply forallb_internal|done]. by rewrite (no_stop ls start s) in Hst. }
  rewrite Hq in Hall. split; [exact Hall|]. apply map_eq. intros r. rewrite lookup_empty. destruct (ctxs s' !! r) eqn:E; [|done].
  assert (r ∈ concat (queues s')) as Hc by (apply (i_ctx _ Hf'); by rewrite E). rewrite Hq in Hc. by apply not_elem_of_nil in Hc.
Qed.

(** *** Deciding what the caller may do *)

Definition legalb (s : t) (l : label) : bool :=
  let unused o := forallb (fun r => bool_decide (op_of s r <> Some o)) (pending s) in
  match l with
  | LNewIter o _ => bool_decide (is_Some (ops s !! o)) && unused o
  | LOpRelease _ (Some o) => bool_decide (is_Some (ops s !! o)) && unused o
  | LCompletionDestroy (Some c) => bool_decide (is_Some (comps s !! c)) && forallb (fun r => bool_decide (comp_of s r <> Some c)) (pending s)
  | LIterEnd _ (Some i) => bool_decide (i ∈ its s) &&
      forallb (fun r => match (o ← op_of s r; ops s !! o) with Some p => bool_decide (i ∉ iters p) | None => true end) (pending s)
  | LQueue o c _ => bool_decide (is_Some (comps s !! c)) &&
      match ops s !! o with Some p => forallb (fun i => bool_decide (i ∈ its s)) (iters p) | None => false end && unused o
  | _ => true
  end.

Fixpoint legal_runb (ls : list label) (s : t) : bool :=
  match ls with
  | [] => true
  | l :: ls' => legalb s l && match step l s with Done s' => legal_runb ls' s' | _ => true end
  end.

Lemma unused_ok s o : forallb (fun r => bool_decide (op_of s r <> Some o)) (pending s) = true ->
  forall r, r ∈ pending s -> op_of s r <> Some o.
Proof. intros H r Hr. rewrite forallb_forall in H. specialize (H r). rewrite <- list_elem_of_In in H. by specialize (H Hr); apply bool_decide_eq_true in H. Qed.

Lemma legalb_legal s l : legalb s l = true -> legal s l.
Proof.
  destruct l as [| | | | |o a|? [o|]|[c|]|? [i|]|o c a| | | | | | | | | | |]; cbn [legalb legal]; intros H; try done; rewrite ?andb_true_iff in H; destruct_and?;
    repeat match goal with H : bool_decide _ = true |- _ => apply bool_decide_eq_true in H end.
  - split; [done|by apply unused_ok].
  - split; [done|by apply unused_ok].
  - split; [done|]. intros r Hr. rewrite forallb_forall in H1. specialize (H1 r). rewrite <- list_elem_of_In in H1.
    specialize (H1 Hr). by apply bool_decide_eq_true in H1.
  - split; [done|]. intros r o p Hr Ho Hp. rewrite forallb_forall in H1. specialize (H1 r). rewrite <- list_elem_of_In in H1.
    specialize (H1 Hr). rewrite Ho in H1. cbn in H1. rewrite Hp in H1. by apply bool_decide_eq_true in H1.
  - split; [done|]. split; [|by apply unused_ok]. destruct (ops s !! o) as [p|]; [|done]. exists p. split; [done|]. intros i Hi.
    rewrite forallb_forall in H2. specialize (H2 i). rewrite <- list_elem_of_In in H2. specialize (H2 Hi). by apply bool_decide_eq_true in H2.
Qed.

Lemma legal_runb_legal ls s : legal_runb ls s = true -> legal_run ls s.
Proof.
  revert s. induction ls as [|l ls IH]; intros s H; [done|]. cbn in H. apply andb_true_iff in H as [H1 H2].
  split; [by apply legalb_legal|]. destruct (step l s); [by apply IH|done|done].
Qed.

End workers.

(** Up to the first [Dequeue]: the post, the test of the flag, the wait. *)
Definition wake : list label := [LPostOne 0; LLoop 0; LWait 0].

(** A write that is released inside its callback, before the worker thread is back
    from submitting it, and a read with an iterator that finds no IO context. *)
Definition example : list label :=
  [LWriteOpInit2 7 (bs "a") true; LCompletionInit (Some 5) 9 true; LQueue 0 1 true] ++ wake ++
  [LTake 0; LLookUp 0 true; LAioOperate 0 0;
   LComplete 0 0; LOpRelease BATCH_WRITE_OP (Some 0%nat); LCompletionDestroy (Some 1%nat); LLeave 0; LReturn 0;
   LReadOpInit (bs "p") (bs "b") true; LNewIter 2 true; LCompletionInit (Some 5) 10 true; LQueue 2 4 true; LTake 0].

Lemma requests_safe_witness :
  option_map (fun s => (pending s, calls s)) (match run (fun _ => 0) 1 example (start 1) with Done s => Some s | _ => None end) =
    Some ([1%nat], [(0%nat, 0, (5, 9))]) /\
  match run (fun _ => 0) 1 example (start 1) with
  | Done s => pending s ++ map (fun x => fst (fst x)) (calls s) ≡ₚ seq 0 (length (requests s))
  | _ => False
  end.
Proof.
  split; [vm_compute; reflexivity|].
  pose proof (requests_safe (fun _ => 0) 1 example eq_refl (legal_runb_legal (fun _ => 0) 1 example (start 1) ltac:(vm_compute; reflexivity))) as H.
  destruct (run (fun _ => 0) 1 example (start 1)) as [s| |] eqn:E; [exact (proj1 H)| |]; vm_compute in E; discriminate E.
Defined.

(** A request that is queued when the thread waits, but is stopped before the thread
    tests the flag again: the thread of the first request never looks at the second. *)
Definition stopped_example : list label :=
  [LWriteOpInit2 7 (bs "a") true; LWriteOpInit2 7 (bs "a") true; LCompletionInit (Some 5) 9 true; LQueue 0 2 true] ++ wake ++
  [LTake 0; LLookUp 0 false; LTake 0; LQueue 1 2 true; LWaitForEmpty; LLoop 0].

Definition after (ls : list label) (s : t) : t := match run (fun _ => 0) 1 ls s with Done s => s | _ => s end.
Definition rest_of_work : list label := [LLookUp 0 false; LTake 0; LLoop 0; LPostOne 0; LWait 0; LTake 0; LLoop 0].

(** The rest of the work, without and with a stop: all is answered; one request stays. *)
Lemma requests_answered_witness :
  (let s := after example (start 1) in let s' := after rest_of_work s in
   7 <= measure s /\ calls s' = [(0%nat, 0, (5, 9)); (1%nat, - ENOENT, (5, 10))] /\ threads s' = [AtWait]) /\
  (let s := after stopped_example (start 1) in let s' := after [LPostOne 0; LPostOne 0] s in
   2 <= measure s /\ queues s' = [[1%nat]] /\ threads s' = [Exited] /\ calls s' = [(0%nat, - ENOENT, (5, 9))]).
Proof.
  split.
  - split; [|split; vm_compute; reflexivity].
    refine (proj1 (requests_answered (fun _ => 0) 1 example rest_of_work (after example (start 1))
      (after rest_of_work (after example (start 1))) eq_refl
      (legal_runb_legal (fun _ => 0) 1 example (start 1) _) _ eq_refl _)); vm_compute; reflexivity.
  - split; [|repeat split; vm_compute; reflexivity].
    refine (proj1 (requests_answered (fun _ => 0) 1 stopped_example [LPostOne 0; LPostOne 0] (after stopped_example (start 1))
      (after [LPostOne 0; LPostOne 0] (after stopped_example (start 1))) eq_refl
      (legal_runb_legal (fun _ => 0) 1 stopped_example (start 1) _) _ eq_refl _)); vm_compute; reflexivity.
Defined.

(** A read queued again after its iterator was ended: [ReadCallback] goes through the
    released iterator, since the operation keeps the pointer. *)
Lemma ended_iterator_reused :
  run (fun _ => 0) 1 ([LReadOpInit2 7 (bs "a") true; LNewIter 0 true; LCompletionInit (Some 5) 9 true; LQueue 0 2 true] ++ wake ++
    [LTake 0; LLookUp 0 true; LAioOperate 0 0; LReturn 0; LComplete 0 0; LIterEnd true (Some 1%nat); LLeave 0;
     LQueue 0 2 true; LTake 0; LLookUp 0 true; LAioOperate 0 0; LComplete 0 0]) (start 1) = Fault.
Proof. vm_compute. reflexivity. Qed.

(** An operation queued twice before its callback: the second submission puts its
    callback over the first one, and the first request is answered with it. *)
Lemma queued_twice_mixes_callbacks :
  option_map calls (match run (fun _ => 0) 1 ([LWriteOpInit2 7 (bs "a") true; LCompletionInit (Some 5) 9 true; LCompletionInit (Some 6) 9 true;
    LQueue 0 1 true; LQueue 0 2 true] ++ wake ++ [LTake 0; LLookUp 0 true; LAioOperate 0 0; LReturn 0; LTake 0; LLookUp 0 true; LAioOperate 0 0;
    LReturn 0; LComplete 0 0; LComplete 1 0]) (start 1) with Done s => Some s | _ => None end) =
  Some [(0%nat, 0, (6, 9)); (1%nat, 0, (6, 9))].
Proof. vm_compute. reflexivity. Qed.

End RequestLife.
