(* ===== verification/CephMsgr.v ===== *)
(** * [CephMsgr.cc], [CcmAdaptor.cc], and the map queries of [CephProxyInterface.cc]

    - [CcmAdaptor]: the callback that is told about pools;
    - [OsdMapSync]: following the cluster's OSD map ([handle_osd_map] and what it
      calls), against the interface [OSDMapLib] of Ceph's [OSDMap];
    - [PoolQuery]: a pool's redundancy and the [ceph df] summary;
    - [MapExport]: the OSD and PG maps as the flat arrays handed to C callers. *)

From S2P Require Import Prelude CStr.

(** ** [class ClusterManagerAdaptor] *)
Module CcmAdaptor.
(** [NotifyPoolEventFn] answers a list of pools with a return code. *)
Definition NotifyPoolEventFn : Type := list Z -> Z.
Record t := { notifyCreateFunc : option NotifyPoolEventFn }.

(** The return value and the notification sent, if any. *)
Definition ReportCreatePool (malloc_ok : bool) (pools : list Z) (s : t) : Z * option (list Z) :=
  if negb (len pools =? 0) && negb malloc_ok then (-1, None) else
  match notifyCreateFunc s with
  | Some f => (if negb (f pools =? 0) then -1 else 0, Some pools)
  | None => (0, None)
  end.

Definition RegisterPoolCreateReportFn (fn : option NotifyPoolEventFn) (s : t) : Z * t :=
  match fn with
  | None => (0, {| notifyCreateFunc := None |})
  | Some f => match notifyCreateFunc s with
              | Some _ => (-1, s)
              | None => (0, {| notifyCreateFunc := Some f |})
              end
  end.
End CcmAdaptor.

(** ** Ceph's [OSDMap], as far as the adaptor relies on it

    [apply_incremental] insists on the successor epoch ([None] is its failed
    assertion); a full or incremental map sets the epoch it carries. *)
Class OSDMapLib (M I F : Type) := {
  epoch : M -> Z;
  empty_map : M;
  pools : M -> list Z;                (* pool ids, in order *)
  paused : M -> bool;                 (* CEPH_OSDMAP_PAUSERD or PAUSEWR is set *)
  inc_epoch : I -> Z;
  full_epoch : F -> Z;
  apply_incremental : M -> I -> option M;
  decode : F -> M;
  empty_epoch : epoch empty_map = 0;
  apply_ok : forall m i, inc_epoch i = epoch m + 1 ->
    exists m', apply_incremental m i = Some m' /\ epoch m' = inc_epoch i;
  decode_ok : forall f, epoch (decode f) = full_epoch f
}.

Module OsdMapSync.
Section sync.
Context {M I F : Type} `{!OSDMapLib M I F}.

(** [MOSDMap] *)
Record MOSDMap := {
  m_fsid : Z; m_first : Z; m_last : Z; m_oldest : Z;
  maps : gmap Z F; incremental_maps : gmap Z I
}.

(** A subscription asked of the monitor. *)
Record sub := { sub_epoch : Z; sub_onetime : bool }.

Record ProxyMsgr := {
  osdmap : M; needSubContinuous : bool; subs : list sub; got : list Z;
  ccmAdaptor : option CcmAdaptor.t; notified : list (list Z)
}.

Definition init (ccm : option CcmAdaptor.t) : ProxyMsgr :=
  {| osdmap := empty_map; needSubContinuous := true; subs := []; got := [];
     ccmAdaptor := ccm; notified := [] |}.

Definition set_map (m : M) (s : ProxyMsgr) : ProxyMsgr :=
  {| osdmap := m; needSubContinuous := needSubContinuous s; subs := subs s; got := got s;
     ccmAdaptor := ccmAdaptor s; notified := notified s |}.
Definition set_cont (b : bool) (s : ProxyMsgr) : ProxyMsgr :=
  {| osdmap := osdmap s; needSubContinuous := b; subs := subs s; got := got s;
     ccmAdaptor := ccmAdaptor s; notified := notified s |}.
Definition sub_got (e : Z) (s : ProxyMsgr) : ProxyMsgr :=
  {| osdmap := osdmap s; needSubContinuous := needSubContinuous s; subs := subs s;
     got := got s ++ [e]; ccmAdaptor := ccmAdaptor s; notified := notified s |}.

Definition RenewOSDMap (e : Z) (s : ProxyMsgr) : ProxyMsgr :=
  let needSubOnce := negb (needSubContinuous s || paused (osdmap s)) in
  {| osdmap := osdmap s; needSubContinuous := needSubContinuous s;
     subs := subs s ++ [{| sub_epoch := e; sub_onetime := needSubOnce |}]; got := got s;
     ccmAdaptor := ccmAdaptor s; notified := notified s |}.

(** [osdmap->get_epoch() ? osdmap->get_epoch() + 1 : 0] *)
Definition next_epoch (s : ProxyMsgr) : Z :=
  if epoch (osdmap s) =? 0 then 0 else u32 (epoch (osdmap s) + 1).

(** [if (!needSubContinuous) { needSubContinuous = true; RenewOSDMap(...); }] *)
Definition back_to_continuous (s : ProxyMsgr) : ProxyMsgr :=
  if needSubContinuous s then s
  else let s := set_cont true s in RenewOSDMap (next_epoch s) s.

Inductive outcome (A : Type) := Done (a : A) | Assert | OutOfFuel.
Arguments Done {A}. Arguments Assert {A}. Arguments OutOfFuel {A}.

(** The loop of [UpdateOSDMap]; [e] is a 32-bit epoch. *)
Fixpoint update_loop (fuel : nat) (m : MOSDMap) (e : Z) (s : ProxyMsgr) : outcome ProxyMsgr :=
  match fuel with
  | O => OutOfFuel
  | S f =>
      if e <=? m_last m then
        match incremental_maps m !! e, e =? u32 (epoch (osdmap s) + 1) with
        | Some inc, true =>
            match apply_incremental (osdmap s) inc with
            | None => Assert
            | Some new => update_loop f m (u32 (e + 1)) (set_map new s)
            end
        | _, _ =>
            match maps m !! e with
            | Some full => update_loop f m (u32 (e + 1)) (set_map (decode full) s)
            | None =>
                if m_oldest m <=? e then
                  let s := set_cont false s in Done (RenewOSDMap (next_epoch s) s)
                else update_loop f m (u32 (u32 (m_oldest m - 1) + 1)) s
            end
        end
      else Done (back_to_continuous s)
  end.

(** Every iteration raises [e], so this many are enough. *)
Definition update_fuel (m : MOSDMap) (s : ProxyMsgr) : nat :=
  S (S (Z.to_nat (m_last m - epoch (osdmap s)))).

Definition UpdateOSDMap (m : MOSDMap) (s : ProxyMsgr) : outcome ProxyMsgr :=
  update_loop (update_fuel m s) m (u32 (epoch (osdmap s) + 1)) s.

Definition InitOsdMap (m : MOSDMap) (s : ProxyMsgr) : ProxyMsgr :=
  match maps m !! m_last m with
  | Some full => back_to_continuous (set_map (decode full) s)
  | None => RenewOSDMap 0 (set_cont false s)
  end.

(** [PoolChangeNotify]: ids beyond 32 bits are skipped. *)
Definition notify_pools (m : M) : list Z :=
  map u32 (filter (fun p => p <= UINT32_MAX) (pools m)).

Definition PoolChangeNotify (malloc_ok : bool) (s : ProxyMsgr) : Z * ProxyMsgr :=
  match ccmAdaptor s with
  | None => (0, s)
  | Some ccm =>
      let '(ret, sent) := CcmAdaptor.ReportCreatePool malloc_ok (notify_pools (osdmap s)) ccm in
      (if negb (ret =? 0) then -1 else 0,
       {| osdmap := osdmap s; needSubContinuous := needSubContinuous s; subs := subs s;
          got := got s; ccmAdaptor := ccmAdaptor s;
          notified := match sent with Some l => notified s ++ [l] | None => notified s end |})
  end.

Definition RegisterPoolNotifyFn (fn : option CcmAdaptor.NotifyPoolEventFn) (malloc_ok : bool)
    (s : ProxyMsgr) : Z * ProxyMsgr :=
  match ccmAdaptor s with
  | None => (-1, s)
  | Some ccm =>
      let '(ret, ccm') := CcmAdaptor.RegisterPoolCreateReportFn fn ccm in
      let s := {| osdmap := osdmap s; needSubContinuous := needSubContinuous s; subs := subs s;
                  got := got s; ccmAdaptor := Some ccm'; notified := notified s |} in
      if negb (ret =? 0) then (-1, s) else
      let '(ret, s) := PoolChangeNotify malloc_ok s in
      (if negb (ret =? 0) then -1 else 0, s)
  end.

(** [handle_osd_map] of a cluster with id [fsid]. *)
Definition handle_osd_map (fsid : Z) (malloc_ok : bool) (m : MOSDMap) (s : ProxyMsgr)
  : outcome ProxyMsgr :=
  if negb (m_fsid m =? fsid) then Done s else
  if m_last m <=? epoch (osdmap s) then
    let s := back_to_continuous s in Done (sub_got (epoch (osdmap s)) s)
  else
    match (if epoch (osdmap s) =? 0 then Done (InitOsdMap m s) else UpdateOSDMap m s) with
    | Done s => Done (snd (PoolChangeNotify malloc_ok (sub_got (epoch (osdmap s)) s)))
    | o => o
    end.

(** [ms_dispatch]: whether the message was taken, and its effect. *)
Inductive message := CEPH_MSG_OSD_MAP (m : MOSDMap) | OTHER_MSG (type : Z).
Definition ms_dispatch (fsid : Z) (malloc_ok : bool) (msg : message) (s : ProxyMsgr)
  : bool * outcome ProxyMsgr :=
  match msg with
  | CEPH_MSG_OSD_MAP m => (true, handle_osd_map fsid malloc_ok m s)
  | OTHER_MSG _ => (false, Done s)
  end.

(** *** Well-formed messages *)
Record wf_msg (m : MOSDMap) : Prop := {
  wf_last : 0 <= m_last m < 2 ^ 32 - 1;
  wf_oldest : 0 <= m_oldest m <= m_last m;
  wf_inc : forall e i, incremental_maps m !! e = Some i -> inc_epoch i = e;
  wf_full : forall e f, maps m !! e = Some f -> full_epoch f = e
}.

(** What a handled message leaves: the newest epoch and a continuous
    subscription, or an open request for the epoch that is missing. *)
Definition settled (m : MOSDMap) (s s' : ProxyMsgr) : Prop :=
  epoch (osdmap s) <= epoch (osdmap s') <= m_last m /\
  ((epoch (osdmap s') = m_last m /\ needSubContinuous s' = true /\
    subs s' = subs s ++ (if needSubContinuous s then []
                         else [{| sub_epoch := next_epoch s'; sub_onetime := false |}])) \/
   (epoch (osdmap s') < m_last m /\ needSubContinuous s' = false /\
    subs s' = subs s ++ [{| sub_epoch := next_epoch s';
                            sub_onetime := negb (paused (osdmap s')) |}])).

Lemma back_to_continuous_spec s :
  osdmap (back_to_continuous s) = osdmap s /\ needSubContinuous (back_to_continuous s) = true /\
  subs (back_to_continuous s) =
    subs s ++ (if needSubContinuous s then []
               else [{| sub_epoch := next_epoch s; sub_onetime := false |}]) /\
  got (back_to_continuous s) = got s.
Proof.
  unfold back_to_continuous. destruct (needSubContinuous s) eqn:E; cbn.
  - by rewrite app_nil_r.
  - done.
Qed.

Lemma next_epoch_eq s s' : osdmap s = osdmap s' -> next_epoch s = next_epoch s'.
Proof. unfold next_epoch. by intros ->. Qed.

(** The loop invariant: [e] is ahead of the map, which is where the last
    iteration that applied something left it. *)
Lemma update_loop_spec m s0 : wf_msg m -> 0 < epoch (osdmap s0) -> forall fuel e s,
  epoch (osdmap s0) <= epoch (osdmap s) -> needSubContinuous s = needSubContinuous s0 ->
  subs s = subs s0 -> got s = got s0 ->
  epoch (osdmap s) < e -> epoch (osdmap s) <= m_last m ->
  (e = epoch (osdmap s) + 1 \/ e = m_oldest m) ->
  (Z.to_nat (m_last m + 1 - e) < fuel)%nat ->
  exists s', update_loop fuel m e s = Done s' /\ settled m s0 s' /\ got s' = got s0.
Proof.
  intros [Hlast Hold Hinc Hfull] H0. induction fuel as [|f IH];
    intros e s Hep Hns Hsub Hccm Hlt Hle He Hf; [lia|].
  cbn [update_loop]. destruct (e <=? m_last m) eqn:E; bprop.
  2:{ eexists. split; [reflexivity|].
      destruct (back_to_continuous_spec s) as (H1 & H2 & H3 & H4). split; [|congruence]. split.
      - rewrite H1. lia.
      - left. rewrite H1, H3, Hsub, Hns. split; [lia|]. split; [done|].
        by rewrite (next_epoch_eq _ _ H1). }
  assert (u32 (e + 1) = e + 1) as Hu by (rewrite u32_small; lia).
  assert (u32 (epoch (osdmap s) + 1) = epoch (osdmap s) + 1) as Hu' by (rewrite u32_small; lia).
  assert (forall new, epoch new = e -> exists s',
    update_loop f m (u32 (e + 1)) (set_map new s) = Done s' /\ settled m s0 s' /\
    got s' = got s0) as Hstep.
  { intros new Hnew. rewrite Hu. apply IH; cbn; rewrite ?Hnew; try done; lia. }
  assert (exists s', match maps m !! e with
    | Some full => update_loop f m (u32 (e + 1)) (set_map (decode full) s)
    | None => if m_oldest m <=? e then Done (RenewOSDMap (next_epoch (set_cont false s)) (set_cont false s))
              else update_loop f m (u32 (u32 (m_oldest m - 1) + 1)) s
    end = Done s' /\ settled m s0 s' /\ got s' = got s0) as Hrest.
  { destruct (maps m !! e) as [full|] eqn:Em.
    { apply Hstep. rewrite decode_ok. by apply Hfull. }
    destruct (m_oldest m <=? e) eqn:Eo; bprop.
    - eexists. split; [reflexivity|]. split; [|done]. split; [cbn; lia|]. right. cbn.
      split_and!; [lia|done|by rewrite Hsub].
    - rewrite (u32_small (m_oldest m - 1)) by lia. rewrite u32_small by lia.
      replace (m_oldest m - 1 + 1) with (m_oldest m) by lia. apply IH; try done; lia. }
  rewrite Hu'. destruct (incremental_maps m !! e) as [inc|] eqn:Ei; [|exact Hrest].
  destruct (e =? epoch (osdmap s) + 1) eqn:Ee; bprop; [|exact Hrest].
  destruct (apply_ok (osdmap s) inc) as (new & -> & Hnew); [rewrite (Hinc _ _ Ei); lia|].
  apply Hstep. rewrite Hnew. by apply Hinc.
Qed.

Lemma UpdateOSDMap_spec m s : wf_msg m -> 0 < epoch (osdmap s) < m_last m ->
  exists s', UpdateOSDMap m s = Done s' /\ settled m s s' /\ got s' = got s.
Proof.
  intros Hm He. pose proof (wf_last _ Hm). unfold UpdateOSDMap, update_fuel.
  apply update_loop_spec; try done; rewrite ?u32_small by lia; lia.
Qed.

Lemma PoolChangeNotify_keeps b s :
  let s' := snd (PoolChangeNotify b s) in
  osdmap s' = osdmap s /\ needSubContinuous s' = needSubContinuous s /\ subs s' = subs s /\
  got s' = got s.
Proof.
  cbn. unfold PoolChangeNotify. destruct (ccmAdaptor s) as [c|]; [|done].
  by destruct (CcmAdaptor.ReportCreatePool _ _ _).
Qed.

(** C21: handling an OSD map message of the cluster always terminates and never
    trips [apply_incremental]'s assertion.  The epoch never goes back; if the
    message is newer than the map, then afterwards either the map is the
    newest one and the subscription is continuous again, or exactly one
    subscription -- for the first missing epoch, one-shot unless the cluster
    is paused -- is open; the monitor is told the epoch reached.  A message of
    another cluster changes nothing. *)
Theorem handle_osd_map_progress (fsid : Z) (malloc_ok : bool) (m : MOSDMap) (s : ProxyMsgr)
  (Hm : wf_msg m) (He : 0 <= epoch (osdmap s) < 2 ^ 32 - 1) :
  exists s', handle_osd_map fsid malloc_ok m s = Done s' /\
    epoch (osdmap s) <= epoch (osdmap s') /\
    (m_fsid m <> fsid -> s' = s) /\
    (m_fsid m = fsid ->
      got s' = got s ++ [epoch (osdmap s')] /\
      (m_last m <= epoch (osdmap s) ->
         osdmap s' = osdmap s /\ needSubContinuous s' = true) /\
      (epoch (osdmap s) < m_last m ->
         (epoch (osdmap s') = m_last m /\ needSubContinuous s' = true) \/
         (epoch (osdmap s') < m_last m /\ needSubContinuous s' = false /\
          subs s' = subs s ++ [{| sub_epoch := next_epoch s';
                                  sub_onetime := negb (paused (osdmap s')) |}]))).
Proof.
  unfold handle_osd_map. destruct (m_fsid m =? fsid) eqn:Ef; bprop; cbn [negb].
  2:{ exists s. by split_and!. }
  destruct (m_last m <=? epoch (osdmap s)) eqn:El; bprop.
  - destruct (back_to_continuous_spec s) as (H1 & H2 & _ & H4). eexists. split; [reflexivity|]. cbn.
    rewrite H1, H4. split_and!; try done; try lia. intros _. split_and!; try done; lia.
  - assert (exists s1, (if epoch (osdmap s) =? 0 then Done (InitOsdMap m s) else UpdateOSDMap m s) = Done s1 /\
      got s1 = got s /\ epoch (osdmap s) <= epoch (osdmap s1) /\
      ((epoch (osdmap s1) = m_last m /\ needSubContinuous s1 = true) \/
       (epoch (osdmap s1) < m_last m /\ needSubContinuous s1 = false /\
        subs s1 = subs s ++ [{| sub_epoch := next_epoch s1;
                                sub_onetime := negb (paused (osdmap s1)) |}])))
      as (s1 & -> & Hg & Hle & Hcase).
    { destruct (epoch (osdmap s) =? 0) eqn:E0; bprop.
      - eexists. split; [reflexivity|]. unfold InitOsdMap.
        destruct (maps m !! m_last m) as [full|] eqn:Em.
        + destruct (back_to_continuous_spec (set_map (decode full) s)) as (H1 & H2 & _ & H4).
          assert (epoch (decode full) = m_last m) as Hd by (rewrite decode_ok; by apply (wf_full _ Hm)).
          split; [exact H4|].
          rewrite H1. cbn. split; [lia|]. by left.
        + split; [done|]. cbn. split; [lia|]. right. split_and!; [lia|done|].
          unfold next_epoch. cbn. by rewrite E0.
      - destruct (UpdateOSDMap_spec m s Hm) as (s1 & H1 & [Hle Hs] & Hg); [lia|].
        exists s1. split; [done|]. split; [done|]. split; [lia|].
        destruct Hs as [(? & ? & _)|(? & ? & ?)]; [by left|by right]. }
    destruct (PoolChangeNotify_keeps malloc_ok (sub_got (epoch (osdmap s1)) s1)) as (K1 & K2 & K3 & K4).
    eexists. split; [reflexivity|]. unfold next_epoch. rewrite K1, K2, K3, K4. cbn.
    split_and!; try done. intros _. rewrite Hg. split_and!; [done|lia|]. intros _. exact Hcase.
Qed.
End sync.
End OsdMapSync.

(** A map that is its epoch and its pools, to run the component on. *)
Module OsdMapExamples.
Import OsdMapSync.

Record toy := { t_epoch : Z; t_pools : list Z }.
#[export] Program Instance toy_lib : OSDMapLib toy toy toy := {|
  epoch := t_epoch;
  empty_map := {| t_epoch := 0; t_pools := [] |};
  pools := t_pools;
  paused := fun _ => false;
  inc_epoch := t_epoch;
  full_epoch := t_epoch;
  apply_incremental := fun m i => if t_epoch i =? t_epoch m + 1 then Some i else None;
  decode := fun f => f
|}.
Next Obligation. done. Qed.
Next Obligation. intros m i H. cbn in *. rewrite H, Z.eqb_refl. by exists i. Qed.
Next Obligation. done. Qed.

Definition map_at (e : Z) : toy := {| t_epoch := e; t_pools := [1; 2 ^ 32; 5] |}.
Definition state_at (e : Z) : ProxyMsgr (M := toy) :=
  {| osdmap := map_at e; needSubContinuous := true; subs := []; got := []; ccmAdaptor := None;
     notified := [] |}.

(** The map stands at 10; the message has the increment to 11 and a full map
    15, but nothing for 12 to 14, which the monitor no longer keeps. *)
Definition gap_msg : MOSDMap (I := toy) (F := toy) :=
  {| m_fsid := 1; m_first := 11; m_last := 16; m_oldest := 15;
     maps := {[ 15 := map_at 15 ]}; incremental_maps := {[ 11 := map_at 11; 16 := map_at 16 ]} |}.

Lemma gap_msg_wf : wf_msg gap_msg.
Proof.
  split; cbn; [lia|lia| |].
  - intros e i H. apply lookup_insert_Some in H as [[<- <-]|[_ H]]; [done|].
    by apply lookup_singleton_Some in H as [<- <-].
  - intros e i H. by apply lookup_singleton_Some in H as [<- <-].
Qed.

Lemma handle_osd_map_progress_witness :
  exists s', handle_osd_map 1 true gap_msg (state_at 10) = Done _ s' /\
    epoch (osdmap s') = 16 /\ needSubContinuous s' = true.
Proof.
  destruct (handle_osd_map_progress 1 true gap_msg (state_at 10) gap_msg_wf) as (s' & H1 & _ & _ & H2).
  - cbn. lia.
  - exists s'. split; [exact H1|]. destruct (H2 eq_refl) as (_ & _ & H3).
    destruct (H3 ltac:(cbn; lia)) as [H4|(H4 & _)]; [exact H4|].
    exfalso. vm_compute in H1. injection H1 as <-. vm_compute in H4. discriminate.
Defined.
End OsdMapExamples.

(** ** Pool redundancy and usage *)
Module PoolQuery.

(** A C++ exception that leaves the function, or a use of an unset field. *)
Inductive fault := Throw | Uninit | DivZero.
Definition res (A : Type) : Type := (fault + A)%type.
#[local] Instance res_ret : MRet res := fun A a => inr a.
#[local] Instance res_bind : MBind res := fun A B k r =>
  match r with inl e => inl e | inr a => k a end.

(** [std::stoi] and [std::stoull] throw without a number or out of range. *)
Definition stoi (s : bytes) : res Z :=
  let r := strtol 10 s in
  if st_nodigits r || st_erange r || (st_val r <? - 2 ^ 31) || (2 ^ 31 - 1 <? st_val r)
  then inl Throw else inr (st_val r).
Definition stoull (s : bytes) : res Z :=
  let r := strtoull 10 s in
  if st_nodigits r || st_erange r then inl Throw else inr (st_val r).

(** [struct PoolInfo]: [None] is a field nothing was stored in. *)
Record PoolInfo := { k : option Z; m : option Z; stripeUnit : option Z }.
Definition no_info : PoolInfo := {| k := None; m := None; stripeUnit := None |}.

(** [pg_pool_t]: the size of a replicated pool or the erasure-code profile. *)
Inductive pg_pool := Replicated (size : Z) | Erasure (profile : gmap bytes bytes).

Section query.
(** The pools of the OSD map and [osd_pool_erasure_code_stripe_unit]. *)
Context (get_pools : gmap Z pg_pool) (default_stripe : Z).

Definition GetPoolBaseInfo (poolId : Z) (info : PoolInfo) : res (Z * PoolInfo) :=
  match get_pools !! poolId with
  | None => inr (- ENOENT, info)
  | Some (Replicated size) =>
      inr (0, {| k := Some 1; m := Some (u32 (size - 1)); stripeUnit := Some (u32 default_stripe) |})
  | Some (Erasure profile) =>
      km ← match profile !! bs "m", profile !! bs "k" with
           | Some vm, Some vk =>
               a ← stoi vk; b ← stoi vm; mret (Some (u32 a), Some (u32 b))
           | _, _ => mret (k info, m info)
           end;
      su ← match profile !! bs "stripe_unit" with
           | Some v => a ← stoi v; mret (u32 a)
           | None => mret (u32 default_stripe)
           end;
      mret (0, {| k := fst km; m := snd km; stripeUnit := Some su |})
  end.

(** One element of [ceph df]'s "pools": its "id" and its "stats" with
    "bytes_used" and "max_avail" (a missing member decodes as the empty
    string). *)
Record pool_json := { pj_id : bytes; pj_stats : option (bytes * bytes) }.

(** [JsonParseCephDF]; [None] is an element that does not parse. *)
Definition JsonParseCephDF (pool : option pool_json) (poolTotalUsed poolTotalAvail : Z)
  : res (Z * Z * Z) :=
  match pool with
  | None => inr (- EINVAL, poolTotalUsed, poolTotalAvail)
  | Some j =>
      poolId ← stoull (pj_id j);
      ri ← GetPoolBaseInfo (u32 poolId) no_info;
      let '(ret, info) := ri in
      let info := if ret =? - ENOENT
                  then {| k := Some 1; m := Some 2; stripeUnit := stripeUnit info |} else info in
      match pj_stats j with
      | None => mret (- EINVAL, poolTotalUsed, poolTotalAvail)
      | Some (used, avail) =>
          u ← stoull used;
          let poolTotalUsed := u64 (poolTotalUsed + u) in
          a ← stoull avail;
          match k info, m info with
          | Some kk, Some mm =>
              if kk =? 0 then inl DivZero else
              let t := u64 (a * u32 (mm + kk)) / kk in
              mret (0, poolTotalUsed, if t <=? poolTotalAvail then poolTotalAvail else t)
          | _, _ => inl Uninit
          end
      end
  end.

(** The answer of [SendMonCommand] and the "pools" object in it. *)
Inductive pools_obj := NoPools | NotArray | PoolArray (l : list (option pool_json)).

Record ClusterData := { allPoolUsed : Z; allPoolAvail : Z }.

Fixpoint df_loop (l : list (option pool_json)) (used avail : Z) : res (Z * Z) :=
  match l with
  | [] => mret (used, avail)
  | p :: l' => r ← JsonParseCephDF p used avail; let '(_, u, a) := r in df_loop l' u a
  end.

Definition CephDf (cmd : Z) (obj : pools_obj) (d : ClusterData) : res (Z * ClusterData) :=
  if cmd <? 0 then mret (cmd, d) else
  match obj with
  | NoPools => mret (0, d)
  | NotArray => mret (- EINVAL, d)
  | PoolArray l => ua ← df_loop l 0 0;
                   mret (0, {| allPoolUsed := fst ua; allPoolAvail := snd ua |})
  end.

Definition GetPoolAllUsedAndAvail (d : ClusterData) : Z * (Z * Z) := (0, (allPoolUsed d, allPoolAvail d)).

(** The totals of [ClusterData]; [GetOsdDf] fills them one after the other, so a
    figure that does not parse leaves the earlier ones assigned. *)
Record OsdTotals := { totalSizeKB : Z; rawUsedSizeKB : Z; dataUsedSizeKB : Z }.
Definition GetOsdDf (cmd : Z) (summary : option (bytes * bytes * bytes)) (d : OsdTotals) : res Z * OsdTotals :=
  if cmd <? 0 then (mret cmd, d) else
  match summary with
  | None => (mret 0, d)
  | Some (totalKB, totalRawUsedKB, dataUsedKB) =>
      match stoull totalKB with
      | inl f => (inl f, d)
      | inr a =>
          match stoull totalRawUsedKB with
          | inl f => (inl f, {| totalSizeKB := a; rawUsedSizeKB := rawUsedSizeKB d; dataUsedSizeKB := dataUsedSizeKB d |})
          | inr b =>
              match stoull dataUsedKB with
              | inl f => (inl f, {| totalSizeKB := a; rawUsedSizeKB := b; dataUsedSizeKB := dataUsedSizeKB d |})
              | inr c => (mret cmd, {| totalSizeKB := a; rawUsedSizeKB := b; dataUsedSizeKB := c |})
              end
          end
      end
  end.

(** [SendMonCommand]/[SendMgrCommand] after the command was started: the
    waiting result, the length of the output and whether it parses. *)
Definition SendCommand (started wait_ret outs_len : Z) (parses : bool) : Z :=
  if started <? 0 then started else
  if wait_ret <? 0 then wait_ret else
  if outs_len =? 0 then - ENOENT else
  if parses then wait_ret else - EINVAL.
End query.

(** *** What the summary means *)

(** A pool as [ceph df] reports it. *)
Record pool_usage := { pu_id : Z; pu_used : Z; pu_avail : Z }.
Definition to_json (p : pool_usage) : option pool_json :=
  Some {| pj_id := to_string (pu_id p); pj_stats := Some (to_string (pu_used p), to_string (pu_avail p)) |}.

(** Data and coding chunks of a pool; an unknown one counts as 1 + 2. *)
Inductive redundancy (get_pools : gmap Z pg_pool) (id : Z) : Z -> Z -> Prop :=
| red_unknown : get_pools !! id = None -> redundancy get_pools id 1 2
| red_replicated size : get_pools !! id = Some (Replicated size) -> 1 <= size < 2 ^ 32 ->
    redundancy get_pools id 1 (size - 1)
| red_erasure profile vk vm kk mm : get_pools !! id = Some (Erasure profile) ->
    profile !! bs "k" = Some vk -> profile !! bs "m" = Some vm ->
    stoi vk = inr kk -> stoi vm = inr mm -> 0 < kk -> 0 <= mm -> kk + mm < 2 ^ 32 ->
    (forall v, profile !! bs "stripe_unit" = Some v -> exists a, stoi v = inr a) ->
    redundancy get_pools id kk mm.

Lemma stoull_to_string n : 0 <= n <= UINT64_MAX -> stoull (to_string n) = inr n.
Proof. intros Hn. unfold stoull. by rewrite strtoull_to_string. Qed.

Lemma GetPoolBaseInfo_redundancy gp ds id kk mm : redundancy gp id kk mm ->
  0 < kk /\ 0 <= mm /\ kk + mm <= 2 ^ 32 /\
  exists ret info, GetPoolBaseInfo gp ds id no_info = inr (ret, info) /\
    ((ret = - ENOENT /\ kk = 1 /\ mm = 2) \/ (ret = 0 /\ k info = Some kk /\ m info = Some mm)).
Proof.
  intros [Hg|size Hg Hs|profile vk vm kk' mm' Hg Hk Hm Ek Em H1 H2 H3 Hst].
  - split_and!; try lia. unfold GetPoolBaseInfo. rewrite Hg. eexists _, _. split; [done|]. by left.
  - split_and!; try lia. unfold GetPoolBaseInfo. rewrite Hg. eexists _, _. split; [done|]. right.
    cbn. by rewrite u32_small by lia.
  - split_and!; try lia. unfold GetPoolBaseInfo. rewrite Hg, Hk, Hm, Ek, Em. cbn.
    destruct (profile !! bs "stripe_unit") as [v|]; [destruct (Hst v eq_refl) as [a ->]|]; cbn;
      (eexists _, _; split; [done|]; right; cbn; by rewrite !u32_small by lia).
Qed.

Definition usage_ok (gp : gmap Z pg_pool) (p : pool_usage) (km : Z * Z) : Prop :=
  0 <= pu_id p < 2 ^ 32 /\ 0 <= pu_used p <= UINT64_MAX /\ 0 <= pu_avail p <= UINT64_MAX /\
  redundancy gp (pu_id p) km.1 km.2 /\ km.1 + km.2 < 2 ^ 32 /\ pu_avail p * (km.1 + km.2) < 2 ^ 64.

(** Raw space of a pool: usable space times all chunks over data chunks. *)
Definition raw_avail (p : pool_usage) (km : Z * Z) : Z := pu_avail p * (km.2 + km.1) / km.1.

Lemma JsonParseCephDF_ok gp ds p km used avail : usage_ok gp p km ->
  JsonParseCephDF gp ds (to_json p) used avail =
  inr (0, u64 (used + pu_used p), Z.max avail (raw_avail p km)).
Proof.
  intros (Hid & Hu & Ha & Hred & Hkm & Hov). unfold JsonParseCephDF, to_json. cbn [pj_id pj_stats].
  rewrite (stoull_to_string (pu_id p)) by (unfold UINT64_MAX; lia). cbn [mbind res_bind].
  rewrite u32_small by lia.
  destruct (GetPoolBaseInfo_redundancy gp ds _ _ _ Hred) as (Hk & Hm & _ & ret & info & -> & Hcase).
  cbn [mbind res_bind]. rewrite !stoull_to_string by done.
  assert (forall t, (if t <=? avail then avail else t) = Z.max avail t) as Hmax.
  { intros t. destruct (t <=? avail) eqn:E; bprop; lia. }
  assert (u32 (km.2 + km.1) = km.2 + km.1) as Hu32 by (apply u32_small; lia).
  assert (u64 (pu_avail p * (km.2 + km.1)) = pu_avail p * (km.2 + km.1)) as Hu64.
  { apply u64_small. nia. }
  unfold raw_avail. destruct Hcase as [(-> & E1 & E2)|(-> & E1 & E2)].
  - rewrite Z.eqb_refl. cbn [k m mbind res_bind mret res_ret]. rewrite E1, E2 in *.
    cbn [Z.eqb]. rewrite Hu32, Hu64, Hmax. done.
  - replace (0 =? - ENOENT) with false by reflexivity. cbn iota.
    rewrite E1, E2. cbn [mbind res_bind mret res_ret].
    replace (km.1 =? 0) with false by lia. by rewrite Hu32, Hu64, Hmax.
Qed.

Lemma df_loop_ok gp ds ps kms used avail : Forall2 (usage_ok gp) ps kms ->
  df_loop gp ds (map to_json ps) used avail =
  inr (fold_left (fun u p => u64 (u + pu_used p)) ps used,
       fold_left Z.max (zip_with raw_avail ps kms) avail).
Proof.
  intros H. revert used avail. induction H as [|p km ps kms Hp _ IH]; intros used avail; [done|].
  cbn [map df_loop]. rewrite (JsonParseCephDF_ok _ _ _ km) by done. cbn [mbind res_bind].
  rewrite IH. done.
Qed.

Lemma fold_used ps used : 0 <= used -> Forall (fun p => 0 <= pu_used p) ps ->
  used + fold_right Z.add 0 (map pu_used ps) < 2 ^ 64 ->
  fold_left (fun u p => u64 (u + pu_used p)) ps used = used + fold_right Z.add 0 (map pu_used ps).
Proof.
  intros Hu Hf. revert used Hu. induction Hf as [|p ps Hp Hf IH]; intros used Hu Hs; cbn in *; [lia|].
  assert (0 <= fold_right Z.add 0 (map pu_used ps)).
  { clear -Hf. induction Hf; cbn; lia. }
  rewrite u64_small by lia. rewrite IH; lia.
Qed.

(** When [ceph df] answers with well-formed pools, [CephDf] records the sum
    of the bytes they use, and as available space the largest raw capacity
    among them -- each pool's usable space times its number of chunks over its
    data chunks, taken from the OSD map; a failed or malformed answer leaves
    the previous figures in place. *)
Theorem CephDf_correct (gp : gmap Z pg_pool) (ds cmd : Z) (d : ClusterData)
  (ps : list pool_usage) (kms : list (Z * Z))
  (Hcmd : 0 <= cmd) (Hps : Forall2 (usage_ok gp) ps kms)
  (Hsum : fold_right Z.add 0 (map pu_used ps) < 2 ^ 64) :
  CephDf gp ds cmd (PoolArray (map to_json ps)) d =
    inr (0, {| allPoolUsed := fold_right Z.add 0 (map pu_used ps);
               allPoolAvail := fold_left Z.max (zip_with raw_avail ps kms) 0 |}) /\
  (forall obj, obj = NoPools \/ obj = NotArray -> exists r, CephDf gp ds cmd obj d = inr (r, d)) /\
  (forall e obj, e < 0 -> CephDf gp ds e obj d = inr (e, d)).
Proof.
  split; [|split].
  - unfold CephDf. replace (cmd <? 0) with false by lia. rewrite (df_loop_ok _ _ _ kms) by done.
    cbn [mbind res_bind mret res_ret fst snd]. rewrite fold_used; [done|lia| |done].
    clear -Hps. induction Hps as [|? ? ? ? (? & ? & ?)]; constructor; [lia|done].
  - unfold CephDf. replace (cmd <? 0) with false by lia. intros obj [->| ->]; by eexists.
  - intros e obj He. unfold CephDf. by replace (e <? 0) with true by lia.
Qed.

Definition pools0 : gmap Z pg_pool :=
  {[ 1 := Replicated 3; 2 := Erasure {[ bs "k" := bs "4"; bs "m" := bs "2" ]} ]}.
Definition usage0 : list pool_usage :=
  [{| pu_id := 1; pu_used := 10; pu_avail := 100 |}; {| pu_id := 2; pu_used := 5; pu_avail := 400 |};
   {| pu_id := 9; pu_used := 1; pu_avail := 7 |}].

Lemma CephDf_correct_witness :
  CephDf pools0 4096 0 (PoolArray (map to_json usage0)) {| allPoolUsed := 0; allPoolAvail := 0 |} =
  inr (0, {| allPoolUsed := 16; allPoolAvail := 600 |}).
Proof.
  refine (proj1 (CephDf_correct pools0 4096 0 {| allPoolUsed := 0; allPoolAvail := 0 |} usage0
            [(1, 2); (4, 2); (1, 2)] _ _ _)).
  - discriminate.
  - assert (forall p km, 0 <= pu_id p < 2 ^ 32 -> 0 <= pu_used p <= UINT64_MAX ->
      0 <= pu_avail p <= UINT64_MAX -> redundancy pools0 (pu_id p) km.1 km.2 ->
      km.1 + km.2 < 2 ^ 32 -> pu_avail p * (km.1 + km.2) < 2 ^ 64 -> usage_ok pools0 p km) as H.
    { intros. unfold usage_ok. auto 10. }
    unfold UINT64_MAX in H.
    constructor; [|constructor; [|constructor; [|constructor]]]; apply H; cbn; try lia.
    + apply (red_replicated pools0 1 3); [reflexivity|lia].
    + apply (red_erasure pools0 2 {[ bs "k" := bs "4"; bs "m" := bs "2" ]} (bs "4") (bs "2"));
        try reflexivity; try lia. intros v Hv. vm_compute in Hv. discriminate.
    + apply red_unknown. reflexivity.
  - vm_compute. reflexivity.
Defined.
End PoolQuery.

(** ** The maps as flat arrays *)
Module MapExport.
Section export.
(** What is asked of the OSD map: up OSDs with weight and address, in id
    order; the acting set of each placement group; the hash of an object. *)
Context (max_osd : Z) (is_up : Z -> bool) (weight : Z -> Z) (ip_of : Z -> bytes).

(** [MsgrGetOSDMap]: [std::map] in key order. *)
Definition MsgrGetOSDMap : list (Z * (Z * bytes)) :=
  map (fun i => (i, (weight i, ip_of i))) (filter (fun i => is_up i = true) (seqZ 0 max_osd)).
End export.

(** [OSDStat]; the arrays as lists, [ip] with a hole per missing string. *)
Record OSDStat := {
  num : Z; osdId : list Z; osd_weight : list Z; ipIndex : list Z; ip : list (option bytes);
  ipListLength : Z
}.

(** The first loop of [CephProxyGetOSDMap]: an index per new address. *)
Fixpoint index_ips (osdMap : list (Z * (Z * bytes))) (ipMap : gmap bytes Z) (n : Z) (ipLen : Z)
  : gmap bytes Z * Z * Z :=
  match osdMap with
  | [] => (ipMap, n, ipLen)
  | (_, (_, a)) :: r =>
      match ipMap !! a with
      | None => index_ips r (<[a := ipLen]> ipMap) (n + 1) (u32 (ipLen + 1))
      | Some _ => index_ips r ipMap (n + 1) ipLen
      end
  end.

Definition fill (arr : list (option bytes)) (p : bytes * Z) : list (option bytes) :=
  let '(a, i) := p in <[Z.to_nat i := Some (c_str a)]> arr.

Definition fill_ips (ipMap : gmap bytes Z) (ipLen : Z) : list (option bytes) :=
  fold_left fill (map_to_list ipMap) (replicate (Z.to_nat ipLen) None).

(** [CephProxyGetOSDMap] for the map [MsgrGetOSDMap] returned with [ret]. *)
Definition CephProxyGetOSDMap (ret : Z) (osdMap : list (Z * (Z * bytes))) : Z * OSDStat :=
  let zero := {| num := 0; osdId := []; osd_weight := []; ipIndex := []; ip := []; ipListLength := 0 |} in
  if negb (ret =? 0) then (ret, zero) else
  let '(ipMap, n, ipLen) := index_ips osdMap ∅ 0 0 in
  if n =? 0 then (0, zero) else
  (0, {| num := n; osdId := map fst osdMap; osd_weight := map (fst ∘ snd) osdMap;
         ipIndex := map (fun o => default 0 (ipMap !! snd (snd o))) osdMap;
         ip := fill_ips ipMap ipLen; ipListLength := ipLen |}).

(** [PGLocation]: per group its OSDs behind their number. *)
Record PGLocation := { pg_num : Z; pg : list Z; osd : list (list Z) }.

Definition CephProxyGetPGMap (ret : Z) (pgMap : list (Z * list Z)) : Z * PGLocation :=
  if negb (ret =? 0) then (ret, {| pg_num := 0; pg := []; osd := [] |}) else
  (0, {| pg_num := len pgMap; pg := map fst pgMap;
         osd := map (fun '(_, o) => s32 (len o) :: o) pgMap |}).

(** [MsgrGetPGMap]: the acting set of every placement group of a known pool. *)
Definition MsgrGetPGMap (pg_count : option Z) (acting : Z -> list Z) : Z * list (Z * list Z) :=
  match pg_count with
  | None => (- ENOENT, [])
  | Some n => (0, map (fun i => (i, acting i)) (seqZ 0 n))
  end.

(** [MsgrCalBatchPGId]: [pg_of] is the hash of a pool, if the map knows it. *)
Definition MsgrCalBatchPGId (pg_of : option (bytes -> Z)) (oid : list bytes) : Z * list Z :=
  match pg_of with
  | None => (- ENOENT, [])
  | Some f => (0, map f oid)
  end.

(** [CephProxyCalBatchPGId]: the names out of the parameter, the groups into it. *)
Definition CephProxyCalBatchPGId (pg_of : option (bytes -> Z)) (objList : list (bytes * Z))
  : Z * list (bytes * Z) :=
  let '(ret, pgs) := MsgrCalBatchPGId pg_of (map (c_str ∘ fst) objList) in
  if negb (ret =? 0) then (ret, objList) else
  (0, zip_with (fun o pg => (fst o, pg)) objList pgs).

(** The addresses indexed so far are numbered without gaps or repetition. *)
Definition numbered (ipMap : gmap bytes Z) (n : Z) : Prop :=
  (forall a i, ipMap !! a = Some i -> 0 <= i < n) /\
  (forall a b i, ipMap !! a = Some i -> ipMap !! b = Some i -> a = b).

Lemma index_ips_spec osdMap ipMap n l ipMap' n' l' :
  index_ips osdMap ipMap n l = (ipMap', n', l') -> numbered ipMap l -> 0 <= l ->
  l + len osdMap < 2 ^ 32 ->
  numbered ipMap' l' /\ n' = n + len osdMap /\ l <= l' <= l + len osdMap /\ ipMap ⊆ ipMap' /\
  (forall o, o ∈ osdMap -> is_Some (ipMap' !! snd (snd o))).
Proof.
  revert ipMap n l. induction osdMap as [|[o [w a]] r IH]; intros ipMap n l; cbn [index_ips].
  - intros [= <- <- <-] Hn Hl Hb. rewrite len_nil. split_and!; [done|lia|lia|lia|done|].
    by intros o ?%not_elem_of_nil.
  - rewrite len_cons. intros Hr [Hn1 Hn2] Hl Hb. pose proof (len_nonneg r).
    destruct (ipMap !! a) as [i|] eqn:Ea.
    + apply IH in Hr as (H1 & H2 & H3 & H4 & H5); [|by split|lia|lia].
      split_and!; [done|lia|lia|lia|done|].
      intros x [->|Hx]%elem_of_cons; [|by apply H5]. cbn. exists i. by eapply lookup_weaken.
    + rewrite u32_small in Hr by lia. apply IH in Hr as (H1 & H2 & H3 & H4 & H5); [| |lia|lia].
      * split_and!; [done|lia|lia|lia| |].
        { etrans; [by apply insert_subseteq|exact H4]. }
        intros x [->|Hx]%elem_of_cons; [|by apply H5]. cbn. exists l.
        eapply lookup_weaken; [apply lookup_insert_eq|done].
      * split.
        { intros b i Hb'. apply lookup_insert_Some in Hb' as [[<- <-]|[_ Hb']]; [lia|].
          specialize (Hn1 _ _ Hb'). lia. }
        intros b c i Hb' Hc'. apply lookup_insert_Some in Hb' as [[<- Hi]|[_ Hb']];
          apply lookup_insert_Some in Hc' as [[<- Hi']|[_ Hc']]; try done.
        { subst i. specialize (Hn1 _ _ Hc'). lia. }
        { subst i. specialize (Hn1 _ _ Hb'). lia. }
        by eapply Hn2.
Qed.

Lemma fold_fill_length l arr : length (fold_left fill l arr) = length arr.
Proof.
  revert arr. induction l as [|[a i] l IH]; intros arr; [done|]. cbn. by rewrite IH, length_insert.
Qed.

Lemma fold_fill_other l arr j : (forall a i, (a, i) ∈ l -> Z.to_nat i <> j) ->
  fold_left fill l arr !! j = arr !! j.
Proof.
  revert arr. induction l as [|[a i] l IH]; intros arr Hne; [done|]. cbn.
  rewrite IH by (intros b k Hk; eapply Hne; by right).
  rewrite list_lookup_insert_ne; [done|]. eapply Hne. by left.
Qed.

Lemma fold_fill_lookup l arr a i :
  NoDup (map snd l) -> (forall b k, (b, k) ∈ l -> 0 <= k < len arr) -> (a, i) ∈ l ->
  fold_left fill l arr !! Z.to_nat i = Some (Some (c_str a)).
Proof.
  revert arr. induction l as [|[b k] l IH]; intros arr Hnd Hr Hin; [by apply not_elem_of_nil in Hin|].
  cbn in Hnd. apply NoDup_cons in Hnd as [Hk Hnd]. cbn.
  assert (0 <= k < len arr) as Hkr by (eapply Hr; by left).
  apply elem_of_cons in Hin as [[= -> ->]|Hin].
  - rewrite fold_fill_other.
    + apply list_lookup_insert_eq. unfold len in Hkr. lia.
    + intros c j Hc Hj. assert (0 <= j < len arr) by (eapply Hr; by right).
      assert (j = k) as -> by lia. apply Hk. apply list_elem_of_fmap. by exists (c, k).
  - apply IH; [done| |done]. intros c j Hc. unfold len. rewrite length_insert.
    eapply Hr. by right.
Qed.

(** The flat OSD map is faithful: entry by entry the id and the weight of
    the map, an index below [ipListLength] at which the string table holds the
    OSD's address, and the same index for two OSDs exactly when their
    addresses are the same. *)
Theorem CephProxyGetOSDMap_faithful (osdMap : list (Z * (Z * bytes))) (Hlen : len osdMap < 2 ^ 32) :
  let s := snd (CephProxyGetOSDMap 0 osdMap) in
  num s = len osdMap /\ osdId s = map fst osdMap /\ length (ip s) = Z.to_nat (ipListLength s) /\
  exists idx : bytes -> Z, ipIndex s = map (fun o => idx (snd (snd o))) osdMap /\
    (forall p o w a, osdMap !! p = Some (o, (w, a)) ->
       osd_weight s !! p = Some w /\ 0 <= idx a < ipListLength s /\
       ip s !! Z.to_nat (idx a) = Some (Some (c_str a))) /\
    (forall o1 o2, o1 ∈ osdMap -> o2 ∈ osdMap ->
       idx (snd (snd o1)) = idx (snd (snd o2)) <-> snd (snd o1) = snd (snd o2)).
Proof.
  unfold CephProxyGetOSDMap. cbn [Z.eqb negb].
  destruct (index_ips osdMap ∅ 0 0) as [[ipMap n] ipLen] eqn:E.
  apply index_ips_spec in E as ([H1 H1'] & -> & H3 & _ & H5); [| |lia|lia].
  2:{ split; intros *; by rewrite lookup_empty. }
  rewrite Z.add_0_l. destruct (len osdMap =? 0) eqn:E0; bprop; cbn [snd num osdId osd_weight ipIndex ip ipListLength].
  { destruct osdMap as [|o r]; [|rewrite len_cons in E0; pose proof (len_nonneg r); lia].
    split_and!; [done..|]. exists (fun _ => 0). split_and!; [done|by intros ? ? ? ? ?|].
    by intros ? ? ?%not_elem_of_nil. }
  unfold fill_ips.
  split_and!; [done|done|by rewrite fold_fill_length, length_replicate|].
  exists (fun a => default 0 (ipMap !! a)). split; [done|]. split.
  - intros p o w a Hp. rewrite list_lookup_fmap, Hp. split; [done|].
    destruct (H5 (o, (w, a))) as [i Hi]; [by eapply list_elem_of_lookup_2|]. cbn in Hi. rewrite Hi. cbn.
    specialize (H1 _ _ Hi) as Hir. split; [done|].
    apply fold_fill_lookup; [| |by apply elem_of_map_to_list].
    + apply NoDup_fmap_2_strong; [|apply NoDup_map_to_list].
      intros [b k] [c k'] Hb%elem_of_map_to_list Hc%elem_of_map_to_list Hk. cbn in Hk. subst k'.
      by rewrite (H1' _ _ _ Hb Hc).
    + intros b k Hb%elem_of_map_to_list. unfold len. rewrite length_replicate.
      specialize (H1 _ _ Hb). lia.
  - intros o1 o2 Ho1 Ho2. destruct (H5 _ Ho1) as [i Hi], (H5 _ Ho2) as [j Hj].
    rewrite Hi, Hj. cbn. split; [intros ->; by eapply H1'|congruence].
Qed.

Lemma CephProxyGetOSDMap_faithful_witness :
  let m := [(0, (1, bs "10.0.0.1")); (1, (1, bs "10.0.0.2")); (4, (0, bs "10.0.0.1"))] in
  num (snd (CephProxyGetOSDMap 0 m)) = 3 /\
  ipIndex (snd (CephProxyGetOSDMap 0 m)) = [0; 1; 0].
Proof.
  intros m. destruct (CephProxyGetOSDMap_faithful m) as (H1 & _).
  - vm_compute. reflexivity.
  - split; [exact H1|vm_compute; reflexivity].
Defined.
End MapExport.

(** ** The functions of a handle: a null one is an error *)
Module MsgrHandle.
Definition on_handler {M A} (bad : A) (f : M -> A) (handler : option M) : A :=
  match handler with Some m => f m | None => bad end.

Definition GetPoolUsedAndAvail (old : Z * Z) : option PoolQuery.ClusterData -> Z * (Z * Z) :=
  on_handler (- EINVAL, old) PoolQuery.GetPoolAllUsedAndAvail.

Definition CCMRegisterPoolNotifyFn {M I F} `{!OSDMapLib M I F} (fn : option CcmAdaptor.NotifyPoolEventFn) (malloc_ok : bool)
    : option (OsdMapSync.ProxyMsgr (M := M)) -> Z * option (OsdMapSync.ProxyMsgr (M := M)) :=
  on_handler (- EINVAL, None) (fun m => let '(r, m) := OsdMapSync.RegisterPoolNotifyFn fn malloc_ok m in (r, Some m)).

(** [GetPoolBaseInfo]: [info] is null as well. *)
Definition GetPoolBaseInfo (default_stripe poolId : Z) (info : option PoolQuery.PoolInfo)
    : option (gmap Z PoolQuery.pg_pool) -> PoolQuery.res (Z * option PoolQuery.PoolInfo) :=
  match info with
  | None => fun _ => inr (- EINVAL, None)
  | Some i => on_handler (inr (- EINVAL, info)) (fun pools =>
      match PoolQuery.GetPoolBaseInfo pools default_stripe poolId i with
      | inr (r, i) => inr (r, Some i)
      | inl f => inl f
      end)
  end.

Definition MsgrCalBatchPGId (oid : list bytes) : option (option (bytes -> Z)) -> Z * list Z :=
  on_handler (- EINVAL, []) (fun pg_of => MapExport.MsgrCalBatchPGId pg_of oid).
End MsgrHandle.
