(* ===== verification/MapMemory.v ===== *)
(** * [CephProxyInterface.cc]: the memory of the maps handed to C callers

    [CephProxyGetOSDMap] and [CephProxyGetPGMap] build arrays with [new(std::nothrow)]
    that the caller gives back with [CephProxyPutOSDMap] and [CephProxyPutPGMap].  Here
    the arrays are blocks of a heap, pointers can be null or without a value, and every
    access is checked; [CephMsgr.MapExport] says what the arrays should hold. *)

From S2P Require Import Prelude CStr CephMsgr.

Module Heap.
(** A pointer without a value, the null pointer, or the address of a block. *)
Inductive ptr := Junk | Null | Ptr (a : nat).
#[export] Instance heap_ptr_eq_dec : EqDecision ptr.
Proof. solve_decision. Defined.

(** An array of integers, of pointers, or of characters with room for [cap]. *)
Inductive block := Words (l : list (option Z)) | Pointers (l : list ptr) | Chars (cap : Z) (s : option bytes).

Record t := { next : nat; blocks : gmap nat block }.

Section heap.
(** Does the allocation that would get address [a] succeed? *)
Context (ok : nat -> bool).

Definition new (b : block) (h : t) : ptr * t :=
  if ok (next h) then (Ptr (next h), {| next := S (next h); blocks := <[next h := b]> (blocks h) |})
  else (Null, {| next := S (next h); blocks := blocks h |}).
End heap.

Definition set (a : nat) (b : block) (h : t) : t := {| next := next h; blocks := <[a := b]> (blocks h) |}.

(** The assignments [p[i] = v]; [None] is an access outside a block. *)
Definition store (p : ptr) (i v : Z) (h : t) : option t :=
  match p with
  | Ptr a => match blocks h !! a with
             | Some (Words l) => if (0 <=? i) && (i <? len l) then Some (set a (Words (<[Z.to_nat i := Some v]> l)) h) else None
             | _ => None
             end
  | _ => None
  end.

Definition store_ptr (p : ptr) (i : Z) (v : ptr) (h : t) : option t :=
  match p with
  | Ptr a => match blocks h !! a with
             | Some (Pointers l) => if (0 <=? i) && (i <? len l) then Some (set a (Pointers (<[Z.to_nat i := v]> l)) h) else None
             | _ => None
             end
  | _ => None
  end.

Definition load_ptr (p : ptr) (i : Z) (h : t) : option ptr :=
  match p with
  | Ptr a => match blocks h !! a with Some (Pointers l) => if 0 <=? i then l !! Z.to_nat i else None | _ => None end
  | _ => None
  end.

Definition strcpy (p : ptr) (s : bytes) (h : t) : option t :=
  match p with
  | Ptr a => match blocks h !! a with
             | Some (Chars cap _) => if len (c_str s) <? cap then Some (set a (Chars cap (Some (c_str s))) h) else None
             | _ => None
             end
  | _ => None
  end.

(** [delete[] p] *)
Definition free (p : ptr) (h : t) : option t :=
  match p with
  | Null => Some h
  | Ptr a => match blocks h !! a with Some _ => Some {| next := next h; blocks := delete a (blocks h) |} | None => None end
  | Junk => None
  end.

(** [for (i; i < n; i++) delete[] p[i];] *)
Fixpoint free_each (n : nat) (p : ptr) (i : Z) (h : t) : option t :=
  match n with
  | O => Some h
  | S n => x ← load_ptr p i h; h ← free x h; free_each n p (i + 1) h
  end.

(** Addresses from [next] on have never been used. *)
Definition fresh (h : t) : Prop := forall a, (next h <= a)%nat -> blocks h !! a = None.

Definition always : nat -> bool := fun _ => true.

(** What an array holds, if every cell of it has a value. *)
Definition words (p : ptr) (h : t) : option (list Z) :=
  match p with Ptr a => match blocks h !! a with Some (Words l) => mapM id l | _ => None end | _ => None end.
Definition chars (h : t) (p : ptr) : option (option bytes) :=
  match p with
  | Null => Some None
  | Ptr a => match blocks h !! a with Some (Chars _ (Some s)) => Some (Some s) | _ => None end
  | Junk => None
  end.
Definition table {A} (f : ptr -> option A) (p : ptr) (h : t) : option (list A) :=
  match p with Ptr a => match blocks h !! a with Some (Pointers l) => mapM f l | _ => None end | _ => None end.

(** *** Lemmas *)

Lemma new_always b h : new always b h = (Ptr (next h), {| next := S (next h); blocks := <[next h := b]> (blocks h) |}).
Proof. done. Qed.

Lemma fresh_insert h a b n : fresh h -> (a < n)%nat -> (next h <= n)%nat -> fresh {| next := n; blocks := <[a := b]> (blocks h) |}.
Proof. intros Hf Ha Hn x Hx. cbn in *. rewrite lookup_insert_ne by lia. apply Hf. lia. Qed.

Lemma store_ok a i v l h : blocks h !! a = Some (Words l) -> 0 <= i < len l ->
  store (Ptr a) i v h = Some (set a (Words (<[Z.to_nat i := Some v]> l)) h).
Proof. intros Hb Hi. cbn. rewrite Hb. by replace ((0 <=? i) && (i <? len l)) with true by lia. Qed.

Lemma store_ptr_ok a i v l h : blocks h !! a = Some (Pointers l) -> 0 <= i < len l ->
  store_ptr (Ptr a) i v h = Some (set a (Pointers (<[Z.to_nat i := v]> l)) h).
Proof. intros Hb Hi. cbn. rewrite Hb. by replace ((0 <=? i) && (i <? len l)) with true by lia. Qed.

Lemma strcpy_ok a s cap x h : blocks h !! a = Some (Chars cap x) -> len (c_str s) < cap ->
  strcpy (Ptr a) s h = Some (set a (Chars cap (Some (c_str s))) h).
Proof. intros Hb Hl. cbn. rewrite Hb. by replace (_ <? _) with true by lia. Qed.

(** Freeing what an array of distinct addresses points to. *)
Lemma free_each_ok p done cs h : blocks h !! p = Some (Pointers (done ++ map Ptr cs)) -> NoDup cs ->
  (forall a, a ∈ cs -> a <> p /\ is_Some (blocks h !! a)) ->
  exists h', free_each (length cs) (Ptr p) (len done) h = Some h' /\ next h' = next h /\
    forall a, blocks h' !! a = if decide (a ∈ cs) then None else blocks h !! a.
Proof.
  revert done h. induction cs as [|c cs IH]; intros dn h Hp Hnd Hlive.
  { exists h. split_and!; [done..|]. intros a. by rewrite decide_False by apply not_elem_of_nil. }
  apply NoDup_cons in Hnd as [Hn Hnd]. cbn [length free_each load_ptr]. rewrite Hp.
  replace (0 <=? len dn) with true by (pose proof (len_nonneg dn); lia). 
  assert (Z.to_nat (len dn) = length dn) as -> by (unfold len; lia). rewrite lookup_app_r, Nat.sub_diag by lia.
  cbn [map lookup list_lookup mbind option_bind free]. destruct (Hlive c ltac:(left)) as [Hcp [b Hb]]. rewrite Hb. cbn [mbind option_bind].
  destruct (IH (dn ++ [Ptr c]) {| next := next h; blocks := delete c (blocks h) |}) as (h' & Hr & Hx & Hl).
  - cbn. rewrite lookup_delete_ne by done. rewrite Hp. by rewrite <- app_assoc.
  - done.
  - intros a Ha. destruct (Hlive a ltac:(by right)) as [H1 H2]. split; [done|]. cbn. rewrite lookup_delete_ne; [done|]. by intros ->.
  - exists h'. split; [|split; [done|]].
    + rewrite len_app, len_cons, len_nil in Hr. exact Hr.
    + intros a. rewrite Hl. cbn. destruct (decide (a = c)) as [->|Hne].
      * rewrite decide_False by done. rewrite decide_True by left. apply lookup_delete_eq.
      * rewrite lookup_delete_ne by done. destruct (decide (a ∈ cs)) as [Hi|Hi].
        -- by rewrite decide_True by by right.
        -- by rewrite decide_False by by intros [|]%elem_of_cons.
Qed.

Lemma free_ok a h : is_Some (blocks h !! a) -> free (Ptr a) h = Some {| next := next h; blocks := delete a (blocks h) |}.
Proof. intros [b Hb]. cbn. by rewrite Hb. Qed.
End Heap.

Module MapMemory.
Import Heap.

(** [OSDStat] *)
Record OSDStat := { num : Z; osdId : ptr; weight : ptr; ipIndex : ptr; ip : ptr; ipListLength : Z }.
Definition zero_stat : OSDStat := {| num := 0; osdId := Null; weight := Null; ipIndex := Null; ip := Null; ipListLength := 0 |}.

Section osd.
Context (ok : nat -> bool).

(** The loop over [ipMap]. *)
Fixpoint fill_strings (l : list (bytes * Z)) (ip : ptr) (h : t) : option t :=
  match l with
  | [] => Some h
  | (a, i) :: l' =>
      let '(p, h) := new ok (Chars (len a + 1) None) h in
      h ← store_ptr ip i p h;
      h ← strcpy p a h;
      fill_strings l' ip h
  end.

(** The loop over [osdMap]. *)
Fixpoint fill_osds (osdMap : list (Z * (Z * bytes))) (ipMap : gmap bytes Z) (s : OSDStat) (index : Z) (h : t) : option t :=
  match osdMap with
  | [] => Some h
  | (o, (w, a)) :: r =>
      h ← store (osdId s) index o h;
      h ← store (weight s) index w h;
      h ← store (ipIndex s) index (default 0 (ipMap !! a)) h;
      fill_osds r ipMap s (index + 1) h
  end.

Definition CephProxyGetOSDMap (ret : Z) (osdMap : list (Z * (Z * bytes))) (h : t) : option (Z * OSDStat * t) :=
  if negb (ret =? 0) then Some (ret, zero_stat, h) else
  let '(ipMap, n, ipLen) := MapExport.index_ips osdMap ∅ 0 0 in
  if n =? 0 then Some (0, zero_stat, h) else
  let '(osdId, h) := new ok (Words (replicate (Z.to_nat n) None)) h in
  let '(weight, h) := new ok (Words (replicate (Z.to_nat n) None)) h in
  let '(ipIndex, h) := new ok (Words (replicate (Z.to_nat n) None)) h in
  let '(ip, h) := new ok (Pointers (replicate (Z.to_nat ipLen) Junk)) h in
  let s := {| num := n; osdId := osdId; weight := weight; ipIndex := ipIndex; ip := ip; ipListLength := ipLen |} in
  h ← fill_strings (map_to_list ipMap) ip h;
  h ← fill_osds osdMap ipMap s 0 h;
  Some (0, s, h).
End osd.

Definition not_null (p : ptr) : bool := match p with Null => false | _ => true end.

(** The structure is not changed: its pointers stay. *)
Definition CephProxyPutOSDMap (s : OSDStat) (h : t) : option t :=
  if num s =? 0 then Some h else
  h ← (if not_null (osdId s) then free (osdId s) h else Some h);
  h ← (if not_null (weight s) then free (weight s) h else Some h);
  h ← (if not_null (ipIndex s) then free (ipIndex s) h else Some h);
  if not_null (ip s) then h ← free_each (Z.to_nat (ipListLength s)) (ip s) 0 h; free (ip s) h else Some h.

(** The structure as the caller reads it. *)
Definition view (s : OSDStat) (h : t) : option MapExport.OSDStat :=
  if num s =? 0 then Some {| MapExport.num := 0; MapExport.osdId := []; MapExport.osd_weight := []; MapExport.ipIndex := [];
                             MapExport.ip := []; MapExport.ipListLength := ipListLength s |} else
  a ← words (osdId s) h; b ← words (weight s) h; c ← words (ipIndex s) h; d ← table (chars h) (ip s) h;
  Some {| MapExport.num := num s; MapExport.osdId := a; MapExport.osd_weight := b; MapExport.ipIndex := c; MapExport.ip := d;
          MapExport.ipListLength := ipListLength s |}.

(** [PGLocation] *)
Record PGLocation := { pg_num : Z; pg : ptr; osd : ptr }.

Section pg.
Context (ok : nat -> bool).

Fixpoint fill_row (l : list Z) (p : ptr) (i : Z) (h : t) : option t :=
  match l with [] => Some h | o :: l' => h ← store p i o h; fill_row l' p (i + 1) h end.

Fixpoint fill_groups (pgMap : list (Z * list Z)) (v : PGLocation) (index : Z) (h : t) : option t :=
  match pgMap with
  | [] => Some h
  | (g, o) :: r =>
      h ← store (pg v) index g h;
      let '(p, h) := new ok (Words (replicate (length o + 1) None)) h in
      h ← store_ptr (osd v) index p h;
      h ← store p 0 (s32 (len o)) h;
      h ← fill_row o p 1 h;
      fill_groups r v (index + 1) h
  end.

Definition CephProxyGetPGMap (ret : Z) (pgMap : list (Z * list Z)) (h : t) : option (Z * PGLocation * t) :=
  let zero := {| pg_num := 0; pg := Null; osd := Null |} in
  if negb (ret =? 0) then Some (ret, zero, h) else
  let n := u64 (len pgMap) in
  if n =? 0 then Some (0, zero, h) else
  let '(a, h) := new ok (Words (replicate (Z.to_nat n) None)) h in
  let '(b, h) := new ok (Pointers (replicate (Z.to_nat n) Junk)) h in
  let v := {| pg_num := n; pg := a; osd := b |} in
  h ← fill_groups pgMap v 0 h;
  Some (0, v, h).
End pg.

Definition CephProxyPutPGMap (v : PGLocation) (h : t) : option t :=
  if pg_num v =? 0 then Some h else
  h ← (if not_null (pg v) then free (pg v) h else Some h);
  if not_null (osd v) then h ← free_each (Z.to_nat (pg_num v)) (osd v) 0 h; free (osd v) h else Some h.

Definition view_pg (v : PGLocation) (h : t) : option MapExport.PGLocation :=
  if pg_num v =? 0 then Some {| MapExport.pg_num := 0; MapExport.pg := []; MapExport.osd := [] |} else
  a ← words (pg v) h; b ← table (fun p => words p h) (osd v) h;
  Some {| MapExport.pg_num := pg_num v; MapExport.pg := a; MapExport.osd := b |}.

(** ** The loops *)

(** The cells of [ip] after the strings of [l] went to the addresses from [base] on. *)
Fixpoint place (l : list (bytes * Z)) (base : nat) (cells : list ptr) : list ptr :=
  match l with [] => cells | (_, i) :: l' => place l' (S base) (<[Z.to_nat i := Ptr base]> cells) end.

Lemma place_length l base cells : length (place l base cells) = length cells.
Proof. revert base cells. induction l as [|[a i] l IH]; intros base cells; [done|]. cbn. by rewrite IH, length_insert. Qed.

Lemma place_other l base cells j : (forall a i, (a, i) ∈ l -> Z.to_nat i <> j) -> place l base cells !! j = cells !! j.
Proof.
  revert base cells. induction l as [|[a i] l IH]; intros base cells Hne; [done|]. cbn.
  rewrite IH by (intros b k Hk; eapply Hne; by right). apply list_lookup_insert_ne. eapply Hne. by left.
Qed.

Lemma place_lookup l base cells k a i : NoDup (map snd l) -> (forall b j, (b, j) ∈ l -> 0 <= j < len cells) ->
  l !! k = Some (a, i) -> place l base cells !! Z.to_nat i = Some (Ptr (base + k)).
Proof.
  revert base cells k. induction l as [|[b j] l IH]; intros base cells k Hnd Hr Hk; [done|].
  cbn in Hnd. apply NoDup_cons in Hnd as [Hj Hnd]. cbn. pose proof (Hr b j ltac:(left)) as Hjr. destruct k as [|k].
  - injection Hk as -> ->. rewrite place_other.
    + rewrite list_lookup_insert_eq by (unfold len in Hjr; lia). by rewrite Nat.add_0_r.
    + intros c m Hc Hm. pose proof (Hr c m ltac:(by right)). apply Hj. apply list_elem_of_fmap. exists (c, m). split; [cbn; lia|done].
  - rewrite (IH (S base) _ k Hnd); [by rewrite Nat.add_succ_comm| |done]. intros c m Hc. unfold len. rewrite length_insert. apply (Hr c m). by right.
Qed.

Lemma c_str_short a : len (c_str a) <= len a.
Proof. unfold len. pose proof (Nat.le_0_l 0). induction a as [|c a IH]; cbn; [lia|]. destruct (_ : bool); cbn; lia. Qed.

(** Every string goes to a block of its own. *)
Lemma fill_strings_ok l p h cells : fresh h -> blocks h !! p = Some (Pointers cells) -> (p < next h)%nat ->
  (forall a i, (a, i) ∈ l -> 0 <= i < len cells) ->
  exists h', fill_strings always l (Ptr p) h = Some h' /\ fresh h' /\ next h' = (next h + length l)%nat /\
    blocks h' !! p = Some (Pointers (place l (next h) cells)) /\
    (forall a, a <> p -> (a < next h)%nat -> blocks h' !! a = blocks h !! a) /\
    (forall k a i, l !! k = Some (a, i) -> blocks h' !! (next h + k)%nat = Some (Chars (len a + 1) (Some (c_str a)))).
Proof.
  revert h cells. induction l as [|[a i] l IH]; intros h cells Hf Hp Hlt Hr.
  { exists h. split_and!; [done|done|cbn; lia|done|done|done]. }
  cbn [fill_strings]. rewrite new_always. pose proof (Hr a i ltac:(left)) as Hi.
  set (h1 := {| next := S (next h); blocks := <[next h := Chars (len a + 1) None]> (blocks h) |}).
  assert (blocks h1 !! p = Some (Pointers cells)) as Hp1 by (cbn; by rewrite lookup_insert_ne by lia).
  rewrite (store_ptr_ok _ _ _ _ _ Hp1 Hi). cbn [mbind option_bind].
  rewrite (strcpy_ok (next h) a (len a + 1) None); [|cbn; rewrite lookup_insert_ne by lia; apply lookup_insert_eq|pose proof (c_str_short a); lia].
  cbn [mbind option_bind]. set (h2 := set _ _ _).
  assert (blocks h2 = <[next h := Chars (len a + 1) (Some (c_str a))]> (<[p := Pointers (<[Z.to_nat i := Ptr (next h)]> cells)]> (blocks h1))) as E2 by done.
  destruct (IH h2 (<[Z.to_nat i := Ptr (next h)]> cells)) as (h' & Hs & Hf' & Hn & Hb & Ho & Hc).
  - intros x Hx. cbn in Hx. rewrite E2, !lookup_insert_ne by lia. cbn. rewrite lookup_insert_ne by lia. apply Hf. lia.
  - rewrite E2, lookup_insert_ne by lia. apply lookup_insert_eq.
  - cbn. lia.
  - intros b j Hb. unfold len. rewrite length_insert. apply (Hr b j). by right.
  - exists h'. cbn in Hn. split_and!; [done|done|cbn; lia|exact Hb| |].
    + intros x Hx Hxn. rewrite Ho by (done || (cbn; lia)). rewrite E2, !lookup_insert_ne by lia. cbn. by rewrite lookup_insert_ne by lia.
    + intros [|k] b j Hk; cbn in Hk.
      * injection Hk as <- <-. rewrite Nat.add_0_r, Ho by (cbn; lia). rewrite E2. apply lookup_insert_eq.
      * replace (next h + S k)%nat with (next h2 + k)%nat by (cbn; lia). by apply Hc in Hk.
Qed.

(** The first [k] cells of an array of [n] filled with [l]. *)
Definition filled (l : list Z) (n : nat) : list (option Z) := map Some l ++ replicate n None.

Lemma filled_len l n : len (filled l n) = len l + Z.of_nat n.
Proof. unfold filled. rewrite len_app. unfold len. by rewrite length_map, length_replicate. Qed.

Lemma filled_store k l n v : k = len l -> <[Z.to_nat k := Some v]> (filled l (S n)) = filled (l ++ [v]) n.
Proof.
  intros ->. unfold filled, len. rewrite Nat2Z.id. rewrite insert_app_r_alt by (rewrite length_map; lia). rewrite length_map, Nat.sub_diag. cbn.
  by rewrite map_app, <- app_assoc.
Qed.

Lemma filled_all l : mapM id (filled l 0) = Some l.
Proof. unfold filled. rewrite app_nil_r. induction l as [|x l IH]; [done|]. cbn. by rewrite IH. Qed.

Lemma fill_osds_ok osdMap ipMap s a b c l1 l2 l3 h : osdId s = Ptr a -> weight s = Ptr b -> ipIndex s = Ptr c -> NoDup [a; b; c] ->
  length l1 = length l2 -> length l2 = length l3 ->
  blocks h !! a = Some (Words (filled l1 (length osdMap))) -> blocks h !! b = Some (Words (filled l2 (length osdMap))) ->
  blocks h !! c = Some (Words (filled l3 (length osdMap))) ->
  exists h', fill_osds osdMap ipMap s (len l1) h = Some h' /\ next h' = next h /\
    blocks h' = <[c := Words (filled (l3 ++ map (fun o => default 0 (ipMap !! snd (snd o))) osdMap) 0)]>
               (<[b := Words (filled (l2 ++ map (fst ∘ snd) osdMap) 0)]>
               (<[a := Words (filled (l1 ++ map fst osdMap) 0)]> (blocks h))).
Proof.
  intros Ea Eb Ec Hnd. revert l1 l2 l3 h. induction osdMap as [|[o [w x]] r IH]; intros l1 l2 l3 h E12 E23 Ha Hb Hc.
  { exists h. cbn [map length fill_osds] in *. rewrite !app_nil_r. split; [done|]. split; [done|].
    rewrite (insert_id _ a) by exact Ha. rewrite (insert_id _ b) by exact Hb. by rewrite (insert_id _ c) by exact Hc. }
  assert (a <> b /\ a <> c /\ b <> c) as (Hab & Hac & Hbc).
  { apply NoDup_cons in Hnd as [H1 Hnd]. apply NoDup_cons in Hnd as [H2 _]. set_solver. }
  assert (0 <= len l1 < len (filled l1 (length ((o, (w, x)) :: r)))) as Hi1 by (rewrite filled_len; pose proof (len_nonneg l1); cbn; lia).
  assert (len l1 = len l2 /\ len l1 = len l3) as [E2 E3] by (unfold len; lia).
  cbn [fill_osds]. rewrite Ea, Eb, Ec. rewrite (store_ok _ _ _ _ _ Ha Hi1). cbn [mbind option_bind].
  rewrite (store_ok b _ _ (filled l2 (length ((o, (w, x)) :: r)))); [|cbn; by rewrite lookup_insert_ne|rewrite filled_len in *; lia]. cbn [mbind option_bind].
  rewrite (store_ok c _ _ (filled l3 (length ((o, (w, x)) :: r)))); [|cbn; by rewrite !lookup_insert_ne|rewrite filled_len in *; lia]. cbn [mbind option_bind].
  cbn [length]. rewrite (filled_store _ l1) by done. rewrite (filled_store _ l2) by done. rewrite (filled_store _ l3) by done.
  destruct (IH (l1 ++ [o]) (l2 ++ [w]) (l3 ++ [default 0 (ipMap !! x)])
    (set c (Words (filled (l3 ++ [default 0 (ipMap !! x)]) (length r))) (set b (Words (filled (l2 ++ [w]) (length r)))
      (set a (Words (filled (l1 ++ [o]) (length r))) h)))) as (h' & Hs & Hn & Hbl).
  - rewrite !length_app. cbn. lia.
  - rewrite !length_app. cbn. lia.
  - cbn. rewrite !lookup_insert_ne by done. apply lookup_insert_eq.
  - cbn. rewrite !lookup_insert_ne by done. apply lookup_insert_eq.
  - cbn. apply lookup_insert_eq.
  - exists h'. rewrite len_app, len_cons, len_nil in Hs. split; [exact Hs|]. split; [exact Hn|]. rewrite Hbl. cbn.
    rewrite <- !app_assoc. cbn. apply map_eq. intros y. rewrite !lookup_insert. by repeat case_decide.
Qed.

(** ** The OSD map *)

Lemma index_ips_onto osdMap ipMap n l ipMap' n' l' : MapExport.index_ips osdMap ipMap n l = (ipMap', n', l') ->
  (forall i, 0 <= i < l -> exists a, ipMap !! a = Some i) -> 0 <= l -> l + len osdMap < 2 ^ 32 ->
  forall i, 0 <= i < l' -> exists a, ipMap' !! a = Some i.
Proof.
  revert ipMap n l. induction osdMap as [|[o [w a]] r IH]; intros ipMap n l; cbn [MapExport.index_ips].
  - by intros [= <- <- <-].
  - rewrite len_cons. pose proof (len_nonneg r). destruct (ipMap !! a) as [x|] eqn:Ea; intros Hi Hon Hl Hb.
    + eapply IH; [exact Hi|done|done|lia].
    + rewrite u32_small in Hi by lia. eapply IH; [exact Hi| |lia|lia]. intros i Hil. destruct (decide (i = l)) as [->|Hne].
      * exists a. apply lookup_insert_eq.
      * destruct (Hon i ltac:(lia)) as [b Eb]. exists b. rewrite lookup_insert_ne by congruence. done.
Qed.

(** The strings' addresses, one per cell. *)
Lemma place_addresses l base n : NoDup (map snd l) -> (forall b j, (b, j) ∈ l -> 0 <= j < Z.of_nat n) ->
  (forall i, 0 <= i < Z.of_nat n -> exists a, (a, i) ∈ l) ->
  exists cs, place l base (replicate n Junk) = map Ptr cs /\ length cs = n /\ NoDup cs /\
    (forall x, x ∈ cs <-> (base <= x < base + length l)%nat) /\
    (forall j x, cs !! j = Some x -> exists k a, x = (base + k)%nat /\ l !! k = Some (a, Z.of_nat j)).
Proof.
  intros Hnd Hr Hon. set (xs := place l base (replicate n Junk)).
  assert (length xs = n) as Hlen by (unfold xs; by rewrite place_length, length_replicate).
  assert (forall k a i, l !! k = Some (a, i) -> xs !! Z.to_nat i = Some (Ptr (base + k))) as Hat.
  { intros k a i Hk. eapply place_lookup; [done| |done]. intros b j Hb. unfold len. rewrite length_replicate. by apply (Hr b). }
  assert (forall j, (j < n)%nat -> exists k a, xs !! j = Some (Ptr (base + k)) /\ l !! k = Some (a, Z.of_nat j)) as Hall.
  { intros j Hj. destruct (Hon (Z.of_nat j) ltac:(lia)) as [a Ha]. apply list_elem_of_lookup in Ha as [k Hk].
    exists k, a. split; [|done]. apply Hat in Hk. by rewrite Nat2Z.id in Hk. }
  set (addr := fun p => match p with Ptr a => a | _ => O end).
  assert (forall j x, map addr xs !! j = Some x -> exists k a, x = (base + k)%nat /\ l !! k = Some (a, Z.of_nat j)) as Hcs.
  { intros j x Hj. rewrite list_lookup_fmap in Hj. destruct (xs !! j) as [p|] eqn:Ep; [|done]. injection Hj as <-.
    destruct (Hall j) as (k & a & E & Hk); [rewrite <- Hlen; by eapply lookup_lt_Some|]. exists k, a. split; [|done]. by simplify_eq. }
  exists (map addr xs). split_and!; [|by rewrite length_map| | |exact Hcs].
  - apply list_eq. intros j. rewrite !list_lookup_fmap. destruct (xs !! j) as [p|] eqn:Ep; [|done].
    destruct (Hall j) as (k & a & E & Hk); [rewrite <- Hlen; by eapply lookup_lt_Some|]. by simplify_eq.
  - apply NoDup_alt. intros i j x Hi Hj. destruct (Hcs _ _ Hi) as (k & a & -> & Hk), (Hcs _ _ Hj) as (k' & a' & E & Hk').
    assert (k' = k) as -> by lia. rewrite Hk in Hk'. injection Hk' as _ E'. lia.
  - intros x. split.
    + intros [j Hj]%list_elem_of_lookup. destruct (Hcs _ _ Hj) as (k & a & -> & Hk). apply lookup_lt_Some in Hk. lia.
    + intros [Hb Hx]. destruct (lookup_lt_is_Some_2 l (x - base)) as [[a i] Hk]; [lia|]. apply Hat in Hk.
      apply list_elem_of_lookup. exists (Z.to_nat i). rewrite list_lookup_fmap, Hk. cbn. f_equal. lia.
Qed.

(** The cells the caller reads: the strings behind the addresses are the table of
    [MapExport]. *)
Lemma strings_read h l base cs n : NoDup (map snd l) -> (forall b j, (b, j) ∈ l -> 0 <= j < Z.of_nat n) -> length cs = n ->
  (forall j x, cs !! j = Some x -> exists k a, x = (base + k)%nat /\ l !! k = Some (a, Z.of_nat j)) ->
  (forall k a i, l !! k = Some (a, i) -> blocks h !! (base + k)%nat = Some (Chars (len a + 1) (Some (c_str a)))) ->
  mapM (chars h) (map Ptr cs) = Some (fold_left MapExport.fill l (replicate n None)).
Proof.
  intros Hnd Hr Hlen Hcs Hb. apply mapM_Some. apply Forall2_same_length_lookup_2.
  { by rewrite length_map, MapExport.fold_fill_length, length_replicate. }
  intros j p o Hp Ho. rewrite list_lookup_fmap in Hp. destruct (cs !! j) as [x|] eqn:Ex; [|done]. injection Hp as <-.
  destruct (Hcs _ _ Ex) as (k & a & -> & Hk). cbn [chars]. rewrite (Hb _ _ _ Hk).
  pose proof (MapExport.fold_fill_lookup l (replicate n None) a (Z.of_nat j) Hnd) as Hf.
  rewrite Nat2Z.id, Ho in Hf. symmetry. apply Hf; [|by eapply list_elem_of_lookup_2].
  intros b i Hi. unfold len. rewrite length_replicate. by apply (Hr b).
Qed.

(** Freeing the arrays and the strings, all of them different blocks. *)
Lemma put_osd_ok s a b c p cs h : num s <> 0 -> osdId s = Ptr a -> weight s = Ptr b -> ipIndex s = Ptr c -> ip s = Ptr p ->
  ipListLength s = len cs -> NoDup (a :: b :: c :: p :: cs) -> blocks h !! p = Some (Pointers (map Ptr cs)) ->
  (forall x, x ∈ a :: b :: c :: p :: cs -> is_Some (blocks h !! x)) ->
  exists h', CephProxyPutOSDMap s h = Some h' /\
    forall x, blocks h' !! x = if decide (x ∈ a :: b :: c :: p :: cs) then None else blocks h !! x.
Proof.
  intros Hn Ea Eb Ec Ep El Hnd Hp Hlive.
  repeat match goal with H : NoDup (_ :: _) |- _ => apply NoDup_cons in H as [? H] end. rename Hnd into Hcs.
  unfold CephProxyPutOSDMap. replace (num s =? 0) with false by lia. rewrite Ea, Eb, Ec, Ep, El. cbn [not_null].
  rewrite free_ok by (apply Hlive; set_solver). cbn [mbind option_bind].
  rewrite free_ok by (cbn; rewrite lookup_delete_ne by set_solver; apply Hlive; set_solver). cbn [mbind option_bind].
  rewrite free_ok by (cbn; rewrite !lookup_delete_ne by set_solver; apply Hlive; set_solver). cbn [mbind option_bind].
  set (h3 := {| next := _; blocks := _ |}).
  assert (forall x, x <> a -> x <> b -> x <> c -> blocks h3 !! x = blocks h !! x) as H3 by (intros; cbn; by rewrite !lookup_delete_ne).
  assert (forall x, x = a \/ x = b \/ x = c -> blocks h3 !! x = None) as H3' by (intros; cbn; rewrite !lookup_delete; repeat case_decide; naive_solver).
  destruct (free_each_ok p [] cs h3) as (h4 & Hf & _ & Hb4); [rewrite H3 by set_solver; done|done| |].
  { intros x Hx. split; [set_solver|]. rewrite H3 by set_solver. apply Hlive. set_solver. }
  unfold len. rewrite Nat2Z.id. change (len []) with 0 in Hf. rewrite Hf. cbn [mbind option_bind].
  rewrite free_ok.
  2:{ rewrite Hb4, decide_False by set_solver. rewrite H3 by set_solver. apply Hlive. set_solver. }
  eexists. split; [done|]. intros x. cbn. rewrite lookup_delete. destruct (decide (p = x)) as [<-|Hpx].
  { by rewrite decide_True by set_solver. }
  rewrite Hb4. destruct (decide (x ∈ cs)) as [Hx|Hx]; [by rewrite decide_True by set_solver|].
  destruct (decide (x ∈ a :: b :: c :: p :: cs)) as [Hi|Hi].
  - apply H3'. set_solver.
  - apply H3; set_solver.
Qed.

Lemma words_filled a l h : blocks h !! a = Some (Words (filled l 0)) -> words (Ptr a) h = Some l.
Proof. intros E. cbn. rewrite E. apply filled_all. Qed.

(** What is new in the heap is gone. *)
Lemma heap_back h h' h'' (l : list nat) : fresh h -> (forall x, x ∈ l <-> (next h <= x < next h')%nat) -> fresh h' ->
  (forall x, (x < next h)%nat -> blocks h' !! x = blocks h !! x) ->
  (forall x, blocks h'' !! x = if decide (x ∈ l) then None else blocks h' !! x) -> blocks h'' = blocks h.
Proof.
  intros Hf Hl Hf' Ho Hb. apply map_eq. intros x. rewrite Hb. destruct (decide (x ∈ l)) as [Hx|Hx].
  - symmetry. apply Hf. apply Hl in Hx. lia.
  - destruct (decide (x < next h)%nat) as [Hlt|Hge]; [by apply Ho|]. rewrite (Hf x) by lia.
    apply Hf'. destruct (decide (x < next h')%nat); [|lia]. exfalso. apply Hx, Hl. lia.
Qed.

(** The map of addresses is numbered, so the strings fill the table. *)
Lemma index_ips_table osdMap ipMap n l : MapExport.index_ips osdMap ∅ 0 0 = (ipMap, n, l) -> len osdMap < 2 ^ 32 ->
  n = len osdMap /\ 0 <= l /\ NoDup (map snd (map_to_list ipMap)) /\
  (forall a i, (a, i) ∈ map_to_list ipMap -> 0 <= i < l) /\ (forall i, 0 <= i < l -> exists a, (a, i) ∈ map_to_list ipMap).
Proof.
  intros E Hlen. pose proof E as E'. apply MapExport.index_ips_spec in E as ([H1 H1'] & -> & H3 & _ & _); [| |lia|lia].
  2:{ split; intros *; by rewrite lookup_empty. }
  split_and!; [lia|lia| | |].
  - apply NoDup_fmap_2_strong; [|apply NoDup_map_to_list].
    intros [b k] [c k'] Hb%elem_of_map_to_list Hc%elem_of_map_to_list Hk. cbn in Hk. subst k'. by rewrite (H1' _ _ _ Hb Hc).
  - intros a i Hi%elem_of_map_to_list. by eapply H1.
  - intros i Hi. destruct (index_ips_onto _ _ _ _ _ _ _ E' ltac:(intros; lia) ltac:(lia) Hlen i Hi) as [a Ha].
    exists a. by apply elem_of_map_to_list.
Qed.

(** The structure [CephProxyGetOSDMap] returns: four arrays and a block per string. *)
Lemma get_osd_ok osdMap h ipMap l : MapExport.index_ips osdMap ∅ 0 0 = (ipMap, len osdMap, l) -> len osdMap < 2 ^ 32 ->
  len osdMap <> 0 -> fresh h ->
  let a := next h in
  exists cs h', CephProxyGetOSDMap always 0 osdMap h =
      Some (0, {| num := len osdMap; osdId := Ptr a; weight := Ptr (S a); ipIndex := Ptr (S (S a)); ip := Ptr (S (S (S a)));
                  ipListLength := len cs |}, h') /\
    fresh h' /\ len cs = l /\ NoDup cs /\ (forall x, x ∈ cs <-> (S (S (S (S a))) <= x < next h')%nat) /\
    (forall x, x ∈ cs -> is_Some (blocks h' !! x)) /\ (forall x, (x < a)%nat -> blocks h' !! x = blocks h !! x) /\
    blocks h' !! a = Some (Words (filled (map fst osdMap) 0)) /\ blocks h' !! S a = Some (Words (filled (map (fst ∘ snd) osdMap) 0)) /\
    blocks h' !! S (S a) = Some (Words (filled (map (fun o => default 0 (ipMap !! snd (snd o))) osdMap) 0)) /\
    blocks h' !! S (S (S a)) = Some (Pointers (map Ptr cs)) /\
    mapM (chars h') (map Ptr cs) = Some (MapExport.fill_ips ipMap l).
Proof.
  intros E Hlen E0 Hf a. destruct (index_ips_table _ _ _ _ E Hlen) as (_ & Hl & Hnd & Hr & Hon).
  unfold CephProxyGetOSDMap. rewrite E. cbn [Z.eqb negb]. replace (len osdMap =? 0) with false by lia.
  rewrite !new_always. cbn [next blocks]. fold a. replace (Z.to_nat (len osdMap)) with (length osdMap) by (unfold len; lia).
  set (h4 := {| next := S (S (S (S a))); blocks := _ |}). set (ms := map_to_list ipMap) in *. set (s := {| num := len osdMap |}).
  assert (fresh h4) as Hf4.
  { intros x Hx. cbn in Hx. cbn. rewrite !lookup_insert_ne by lia. apply Hf. fold a. lia. }
  destruct (fill_strings_ok ms (S (S (S a))) h4 (replicate (Z.to_nat l) Junk) Hf4) as (h5 & Hs & Hf5 & Hn5 & Hp5 & Ho5 & Hc5).
  { cbn. apply lookup_insert_eq. } { cbn. lia. } { intros b i Hi. unfold len. rewrite length_replicate. specialize (Hr _ _ Hi). lia. }
  rewrite Hs. cbn [mbind option_bind]. change (next h4) with (S (S (S (S a)))) in *.
  assert (forall b j, (b, j) ∈ ms -> 0 <= j < Z.of_nat (Z.to_nat l)) as Hr' by (intros b j Hj; rewrite Z2Nat.id by done; by apply (Hr b)).
  destruct (place_addresses ms (S (S (S (S a)))) (Z.to_nat l) Hnd Hr') as (cs & Hpl & Hcl & Hcn & Hcr & Hca).
  { intros i Hi. apply Hon. lia. }
  destruct (fill_osds_ok osdMap ipMap s a (S a) (S (S a)) [] [] [] h5) as (h6 & Ho & Hn6 & Hb6); [done|done|done| |done|done| | | |].
  { repeat (apply NoDup_cons; split; [set_solver by lia|]). by apply NoDup_nil. }
  1-3: rewrite Ho5 by lia; cbn; unfold filled; cbn; rewrite ?lookup_insert_ne by lia; apply lookup_insert_eq.
  change (len []) with 0 in Ho. rewrite Ho. cbn [mbind option_bind].
  assert (forall x, x <> a -> x <> S a -> x <> S (S a) -> blocks h6 !! x = blocks h5 !! x) as Hb56.
  { intros x H1 H2 H3. rewrite Hb6. by rewrite !lookup_insert_ne by done. }
  assert (forall k b i, ms !! k = Some (b, i) -> blocks h6 !! (S (S (S (S a))) + k)%nat = Some (Chars (len b + 1) (Some (c_str b)))) as Hc6.
  { intros k b i Hk. rewrite Hb56 by lia. by eapply Hc5. }
  assert (len cs = l) as Ecs by (unfold len; lia). exists cs, h6. split_and!; [by rewrite Ecs| |done|done| | | | | | | |].
  - intros x Hx. rewrite Hb56 by lia. apply Hf5. lia.
  - intros x. rewrite Hcr. lia.
  - intros x [j Hj]%list_elem_of_lookup. destruct (Hca _ _ Hj) as (k & b & -> & Hk). by rewrite (Hc6 _ _ _ Hk).
  - intros x Hx. rewrite Hb56, Ho5 by lia. cbn. by rewrite !lookup_insert_ne by lia.
  - rewrite Hb6, !lookup_insert_ne by lia. apply lookup_insert_eq.
  - rewrite Hb6, !lookup_insert_ne by lia. apply lookup_insert_eq.
  - rewrite Hb6. apply lookup_insert_eq.
  - rewrite Hb56 by lia. by rewrite Hp5, Hpl.
  - by apply (strings_read h6 ms (S (S (S (S a)))) cs (Z.to_nat l)).
Qed.

(** C23: with every allocation served, [CephProxyGetOSDMap] touches only memory it
    has allocated, the caller reads exactly the map of [MapExport] out of the heap, and
    [CephProxyPutOSDMap] then gives back every block, each once: the heap is what it was. *)
Theorem osd_map_given_back (osdMap : list (Z * (Z * bytes))) (h : t) (Hlen : len osdMap < 2 ^ 32) (Hf : fresh h) :
  exists s h' h'', CephProxyGetOSDMap always 0 osdMap h = Some (0, s, h') /\
    view s h' = Some (snd (MapExport.CephProxyGetOSDMap 0 osdMap)) /\
    (forall a, (a < next h)%nat -> blocks h' !! a = blocks h !! a) /\
    CephProxyPutOSDMap s h' = Some h'' /\ blocks h'' = blocks h.
Proof.
  destruct (MapExport.index_ips osdMap ∅ 0 0) as [[ipMap n] l] eqn:E. destruct (index_ips_table _ _ _ _ E Hlen) as (-> & _).
  destruct (decide (len osdMap = 0)) as [E0|E0].
  { exists zero_stat, h, h. unfold CephProxyGetOSDMap, MapExport.CephProxyGetOSDMap. rewrite E. by rewrite E0. }
  destruct (get_osd_ok osdMap h ipMap l E Hlen E0 Hf) as (cs & h6 & Hg & Hf6 & El & Hcn & Hcr & Hlive & Hold & Ha & Hb & Hc & Hp & Hstr).
  rewrite Hg. set (s := {| num := len osdMap |}). set (a := next h) in *.
  destruct (put_osd_ok s a (S a) (S (S a)) (S (S (S a))) cs h6) as (h7 & Hput & Hb7); [done..| |done| |].
  { repeat (apply NoDup_cons; split; [rewrite ?elem_of_cons, Hcr; lia|]). done. }
  { intros x Hx. rewrite !elem_of_cons in Hx. destruct Hx as [->|[->|[->|[->|Hx]]]]; [by rewrite Ha|by rewrite Hb|by rewrite Hc|by rewrite Hp|by apply Hlive]. }
  exists s, h6, h7. split_and!; [done| |done|done|].
  - unfold MapExport.CephProxyGetOSDMap. rewrite E. cbn [Z.eqb negb]. unfold view. cbn [num s]. replace (len osdMap =? 0) with false by lia.
    cbn [osdId weight ipIndex ip ipListLength s snd]. rewrite (words_filled _ _ _ Ha), (words_filled _ _ _ Hb), (words_filled _ _ _ Hc).
    cbn [mbind option_bind]. unfold table. rewrite Hp, Hstr. by rewrite El.
  - eapply heap_back; [exact Hf| |exact Hf6|exact Hold|exact Hb7]. intros x. rewrite !elem_of_cons, Hcr.
    assert (S (S (S a)) < next h6)%nat; [|fold a; lia].
    destruct (decide (S (S (S a)) < next h6)%nat); [done|]. rewrite Hf6 in Hp by lia. done.
Qed.

(** ** The placement groups *)

Lemma fill_row_ok l p done_ h : blocks h !! p = Some (Words (filled done_ (length l))) ->
  fill_row l (Ptr p) (len done_) h = Some {| next := next h; blocks := <[p := Words (filled (done_ ++ l) 0)]> (blocks h) |}.
Proof.
  revert done_ h. induction l as [|o l IH]; intros dn h Hp; cbn [fill_row].
  - rewrite app_nil_r. rewrite insert_id by exact Hp. by destruct h.
  - rewrite (store_ok _ _ _ _ _ Hp) by (rewrite filled_len; pose proof (len_nonneg dn); cbn; lia). cbn [mbind option_bind length].
    rewrite (filled_store _ dn) by done. specialize (IH (dn ++ [o]) (set p (Words (filled (dn ++ [o]) (length l))) h)).
    rewrite len_app, len_cons, len_nil, Z.add_0_r in IH. rewrite IH by (cbn; apply lookup_insert_eq). cbn. f_equal. f_equal.
    by rewrite insert_insert_eq, <- app_assoc.
Qed.

Definition cells (done_ : list nat) (n : nat) : list ptr := map Ptr done_ ++ replicate n Junk.

Lemma cells_store k done_ n v : k = len done_ -> <[Z.to_nat k := Ptr v]> (cells done_ (S n)) = cells (done_ ++ [v]) n.
Proof.
  intros ->. unfold cells, len. rewrite Nat2Z.id. rewrite insert_app_r_alt by (rewrite length_map; lia). rewrite length_map, Nat.sub_diag. cbn.
  by rewrite map_app, <- app_assoc.
Qed.

Lemma fill_groups_ok pgMap v a b l1 dn h : pg v = Ptr a -> osd v = Ptr b -> a <> b -> (a < next h)%nat -> (b < next h)%nat -> fresh h ->
  length dn = length l1 -> blocks h !! a = Some (Words (filled l1 (length pgMap))) -> blocks h !! b = Some (Pointers (cells dn (length pgMap))) ->
  exists h', fill_groups always pgMap v (len l1) h = Some h' /\ fresh h' /\ next h' = (next h + length pgMap)%nat /\
    blocks h' !! a = Some (Words (filled (l1 ++ map fst pgMap) 0)) /\
    blocks h' !! b = Some (Pointers (cells (dn ++ seq (next h) (length pgMap)) 0)) /\
    (forall x, x <> a -> x <> b -> (x < next h)%nat -> blocks h' !! x = blocks h !! x) /\
    (forall k g o, pgMap !! k = Some (g, o) -> blocks h' !! (next h + k)%nat = Some (Words (filled (s32 (len o) :: o) 0))).
Proof.
  intros Ea Eb Hab. revert l1 dn h. induction pgMap as [|[g o] r IH]; intros l1 dn h Ha Hb Hf El Hba Hbb; cbn [fill_groups].
  { exists h. cbn. rewrite !app_nil_r. split_and!; [done|done|lia|done|done|done|done]. }
  rewrite Ea, Eb. rewrite (store_ok _ _ _ _ _ Hba) by (rewrite filled_len; pose proof (len_nonneg l1); cbn; lia). cbn [mbind option_bind length].
  rewrite (filled_store _ l1) by done. rewrite new_always. cbn [next blocks set]. set (n := next h) in *. set (h1 := {| next := S n; blocks := _ |}).
  rewrite (store_ptr_ok b _ _ (cells dn (S (length r))) h1).
  2:{ cbn. rewrite !lookup_insert_ne by lia. exact Hbb. }
  2:{ unfold cells, len. rewrite length_app, length_map, length_replicate. lia. }
  cbn [mbind option_bind]. rewrite (cells_store _ dn) by (unfold len; lia).
  set (h2 := set b _ h1). assert (blocks h2 !! n = Some (Words (filled [] (S (length o))))) as Hn2.
  { cbn. rewrite lookup_insert_ne by lia. rewrite lookup_insert_eq. by rewrite Nat.add_1_r. }
  rewrite (store_ok _ _ _ _ _ Hn2) by (rewrite filled_len; change (len []) with 0; lia). cbn [mbind option_bind].
  rewrite (filled_store 0 []) by done. cbn [app]. set (h3 := set n _ h2).
  pose proof (fill_row_ok o n [s32 (len o)] h3 ltac:(cbn; apply lookup_insert_eq)) as Hrow. change (len [s32 (len o)]) with 1 in Hrow.
  rewrite Hrow. cbn [mbind option_bind app]. set (h4 := {| next := _; blocks := _ |}).
  assert (forall x, x <> a -> x <> b -> x <> n -> blocks h4 !! x = blocks h !! x) as H4 by (intros; cbn; by rewrite !lookup_insert_ne by done).
  destruct (IH (l1 ++ [g]) (dn ++ [n]) h4) as (h' & Hs & Hf' & Hn' & Ha' & Hb' & Ho' & Hc').
  - cbn. lia.
  - cbn. lia.
  - intros x Hx. cbn in Hx. rewrite H4 by lia. apply Hf. fold n. lia.
  - rewrite !length_app. cbn. lia.
  - cbn. rewrite !lookup_insert_ne by lia. apply lookup_insert_eq.
  - cbn. rewrite !lookup_insert_ne by lia. apply lookup_insert_eq.
  - rewrite len_app, len_cons, len_nil in Hs. change (next h4) with (S n) in *. exists h'. split_and!.
    + exact Hs.
    + exact Hf'.
    + rewrite Hn'. lia.
    + rewrite Ha', <- app_assoc. done.
    + rewrite Hb', <- app_assoc. done.
    + intros x Hxa Hxb Hx. rewrite Ho' by lia. apply H4; lia.
    + intros [|k] g' o' Hk; cbn in Hk.
      * injection Hk as <- <-. rewrite Nat.add_0_r. rewrite Ho' by lia. cbn. apply lookup_insert_eq.
      * apply Hc' in Hk. by rewrite Nat.add_succ_r.
Qed.

Lemma put_pg_ok v a b cs h : pg_num v = len cs -> pg_num v <> 0 -> pg v = Ptr a -> osd v = Ptr b -> NoDup (a :: b :: cs) ->
  blocks h !! b = Some (Pointers (map Ptr cs)) -> (forall x, x ∈ a :: b :: cs -> is_Some (blocks h !! x)) ->
  exists h', CephProxyPutPGMap v h = Some h' /\ forall x, blocks h' !! x = if decide (x ∈ a :: b :: cs) then None else blocks h !! x.
Proof.
  intros El Hn Ea Eb Hnd Hp Hlive.
  repeat match goal with H : NoDup (_ :: _) |- _ => apply NoDup_cons in H as [? H] end.
  unfold CephProxyPutPGMap. replace (pg_num v =? 0) with false by lia. rewrite Ea, Eb, El. cbn [not_null].
  rewrite free_ok by (apply Hlive; set_solver). cbn [mbind option_bind]. set (h1 := {| next := _; blocks := _ |}).
  assert (forall x, x <> a -> blocks h1 !! x = blocks h !! x) as H1 by (intros; cbn; by rewrite lookup_delete_ne).
  destruct (free_each_ok b [] cs h1) as (h2 & Hf & _ & Hb2); [rewrite H1 by set_solver; done|done| |].
  { intros x Hx. split; [set_solver|]. rewrite H1 by set_solver. apply Hlive. set_solver. }
  unfold len. rewrite Nat2Z.id. change (len []) with 0 in Hf. rewrite Hf. cbn [mbind option_bind].
  rewrite free_ok.
  2:{ rewrite Hb2, decide_False by set_solver. rewrite H1 by set_solver. apply Hlive. set_solver. }
  eexists. split; [done|]. intros x. cbn. rewrite lookup_delete. destruct (decide (b = x)) as [<-|Hbx].
  { by rewrite decide_True by set_solver. }
  rewrite Hb2. destruct (decide (x ∈ cs)) as [Hx|Hx]; [by rewrite decide_True by set_solver|].
  destruct (decide (x ∈ a :: b :: cs)) as [Hi|Hi].
  - assert (x = a) as -> by set_solver. cbn. apply lookup_delete_eq.
  - apply H1. set_solver.
Qed.

(** The same for the placement groups: every row holds the length and then the
    OSDs of its group, all accesses are inside the arrays, and [CephProxyPutPGMap]
    gives back all rows and both arrays, each once. *)
Theorem pg_map_given_back (pgMap : list (Z * list Z)) (h : t) (Hlen : len pgMap < 2 ^ 31) (Hf : fresh h) :
  exists v h' h'', CephProxyGetPGMap always 0 pgMap h = Some (0, v, h') /\
    view_pg v h' = Some (snd (MapExport.CephProxyGetPGMap 0 pgMap)) /\
    (forall a, (a < next h)%nat -> blocks h' !! a = blocks h !! a) /\
    CephProxyPutPGMap v h' = Some h'' /\ blocks h'' = blocks h.
Proof.
  unfold CephProxyGetPGMap, MapExport.CephProxyGetPGMap. cbn [Z.eqb negb]. pose proof (len_nonneg pgMap).
  rewrite u64_small by lia. destruct (len pgMap =? 0) eqn:E0; bprop.
  { destruct pgMap as [|p r]; [by exists {| pg_num := 0; pg := Null; osd := Null |}, h, h|].
    rewrite len_cons in E0. pose proof (len_nonneg r). lia. }
  replace (Z.to_nat (len pgMap)) with (length pgMap) by (unfold len; lia).
  rewrite !new_always. cbn [next blocks]. set (a := next h). set (h2 := {| next := S (S a); blocks := _ |}).
  set (v := {| pg_num := len pgMap |}).
  assert (fresh h2) as Hf2 by (intros x Hx; cbn in Hx; cbn; rewrite !lookup_insert_ne by lia; apply Hf; fold a; lia).
  destruct (fill_groups_ok pgMap v a (S a) [] [] h2) as (h3 & Hs & Hf3 & Hn3 & Ha3 & Hb3 & Ho3 & Hc3);
    [done|done|lia|cbn; lia|cbn; lia|done|done| | |].
  { cbn. rewrite lookup_insert_ne by lia. apply lookup_insert_eq. }
  { cbn. apply lookup_insert_eq. }
  change (len []) with 0 in Hs. change (next h2) with (S (S a)) in *. cbn [app] in Ha3, Hb3.
  unfold cells in Hb3. cbn [replicate] in Hb3. rewrite app_nil_r in Hb3. rewrite Hs. cbn [mbind option_bind].
  assert (forall x, x ∈ a :: S a :: seq (S (S a)) (length pgMap) <-> (a <= x < next h3)%nat) as Hrange.
  { intros x. rewrite !elem_of_cons, elem_of_seq. lia. }
  destruct (put_pg_ok v a (S a) (seq (S (S a)) (length pgMap)) h3) as (h4 & Hput & Hb4); [|done|done|done| |done| |].
  { cbn. unfold len. by rewrite length_seq. }
  { repeat (apply NoDup_cons; split; [rewrite ?elem_of_cons, elem_of_seq; lia|]). apply NoDup_seq. }
  { intros x Hx. rewrite !elem_of_cons, elem_of_seq in Hx. destruct Hx as [->|[->|Hx]]; [by rewrite Ha3|by rewrite Hb3|].
    destruct (lookup_lt_is_Some_2 pgMap (x - S (S a))) as [[g o] Hk]; [lia|]. apply Hc3 in Hk.
    replace (S (S a) + (x - S (S a)))%nat with x in Hk by lia. by rewrite Hk. }
  exists v, h3, h4. split_and!; [done| | |done|].
  - cbn [snd]. unfold view_pg. cbn [pg_num v]. replace (len pgMap =? 0) with false by lia. cbn [pg osd v].
    rewrite (words_filled a _ _ Ha3). cbn [mbind option_bind]. unfold table. rewrite Hb3.
    rewrite (proj2 (mapM_Some _ _ (map (fun '(_, o) => s32 (len o) :: o) pgMap))); [done|].
    apply Forall2_same_length_lookup_2; [by rewrite !length_map, length_seq|].
    intros j p r Hp Hr. rewrite list_lookup_fmap in Hp. rewrite list_lookup_fmap in Hr.
    destruct (pgMap !! j) as [[g o]|] eqn:Ek; [|done]. injection Hr as <-.
    rewrite lookup_seq_lt in Hp by (by eapply lookup_lt_Some). injection Hp as <-. by eapply words_filled, Hc3.
  - intros x Hx. rewrite Ho3 by lia. cbn. by rewrite !lookup_insert_ne by lia.
  - eapply heap_back; [exact Hf|exact Hrange|exact Hf3| |exact Hb4].
    intros x Hx. fold a in Hx. rewrite Ho3 by lia. cbn. by rewrite !lookup_insert_ne by lia.
Qed.

Definition heap0 : t := {| next := 0; blocks := ∅ |}.

Lemma osd_map_given_back_witness :
  let m := [(0, (1, bs "10.0.0.1")); (1, (1, bs "10.0.0.2")); (4, (0, bs "10.0.0.1"))] in
  exists s h' h'', CephProxyGetOSDMap always 0 m heap0 = Some (0, s, h') /\
    view s h' = Some (snd (MapExport.CephProxyGetOSDMap 0 m)) /\ CephProxyPutOSDMap s h' = Some h'' /\ blocks h'' = ∅.
Proof.
  intros m. destruct (osd_map_given_back m heap0) as (s & h' & h'' & H1 & H2 & _ & H3 & H4).
  - vm_compute. reflexivity.
  - intros a _. apply lookup_empty.
  - exists s, h', h''. exact (conj H1 (conj H2 (conj H3 H4))).
Defined.

Lemma pg_map_given_back_witness :
  let m := [(0, [3; 1; 2]); (1, []); (2, [0])] in
  exists v h' h'', CephProxyGetPGMap always 0 m heap0 = Some (0, v, h') /\
    view_pg v h' = Some (snd (MapExport.CephProxyGetPGMap 0 m)) /\ CephProxyPutPGMap v h' = Some h'' /\ blocks h'' = ∅.
Proof.
  intros m. destruct (pg_map_given_back m heap0) as (s & h' & h'' & H1 & H2 & _ & H3 & H4).
  - vm_compute. reflexivity.
  - intros a _. apply lookup_empty.
  - exists s, h', h''. exact (conj H1 (conj H2 (conj H3 H4))).
Defined.

Lemma store_needs p i v h h' : store p i v h = Some h' -> p <> Null /\ next h' = next h.
Proof. destruct p as [| |a]; [done..|]. cbn. repeat case_match; intros [= <-]; done. Qed.
Lemma store_ptr_needs p i v h h' : store_ptr p i v h = Some h' -> p <> Null /\ next h' = next h.
Proof. destruct p as [| |a]; [done..|]. cbn. repeat case_match; intros [= <-]; done. Qed.
Lemma strcpy_needs p s h h' : strcpy p s h = Some h' -> p <> Null /\ next h' = next h.
Proof. destruct p as [| |a]; [done..|]. cbn. repeat case_match; intros [= <-]; done. Qed.
Lemma new_needs ok b h p h' : new ok b h = (p, h') -> next h' = S (next h) /\ (p <> Null -> ok (next h) = true).
Proof. unfold new. destruct (ok (next h)); intros [= <- <-]; done. Qed.

Lemma fill_strings_needs ok l p h h' : fill_strings ok l p h = Some h' ->
  (next h <= next h')%nat /\ (forall j, (next h <= j < next h')%nat -> ok j = true) /\ (l <> [] -> p <> Null).
Proof.
  revert h. induction l as [|[a i] l IH]; intros h E; cbn [fill_strings] in E.
  { injection E as <-. split_and!; [lia|intros; lia|done]. }
  destruct (new ok _ h) as [q h1] eqn:E1. apply new_needs in E1 as [Hn1 Hq]. destruct (store_ptr p i q h1) as [h2|] eqn:E2; [|done].
  apply store_ptr_needs in E2 as [Hp Hn2]. cbn [mbind option_bind] in E. destruct (strcpy q a h2) as [h3|] eqn:E3; [|done].
  apply strcpy_needs in E3 as [Hqn Hn3]. cbn [mbind option_bind] in E. apply IH in E as (Hle & Hok & _).
  split_and!; [lia| |done]. intros j Hj. destruct (decide (j = next h)) as [->|]; [by apply Hq|]. apply Hok. lia.
Qed.

Lemma fill_osds_needs osdMap ipMap s i h h' : fill_osds osdMap ipMap s i h = Some h' ->
  next h' = next h /\ (osdMap <> [] -> osdId s <> Null /\ weight s <> Null /\ ipIndex s <> Null).
Proof.
  revert i h. induction osdMap as [|[o [w a]] r IH]; intros i h E; cbn [fill_osds] in E; [by injection E as <-|].
  destruct (store (osdId s) i o h) as [h1|] eqn:E1; [|done]. apply store_needs in E1 as [H1 N1]. cbn [mbind option_bind] in E.
  destruct (store (weight s) i w h1) as [h2|] eqn:E2; [|done]. apply store_needs in E2 as [H2 N2]. cbn [mbind option_bind] in E.
  destruct (store (ipIndex s) i _ h2) as [h3|] eqn:E3; [|done]. apply store_needs in E3 as [H3 N3]. cbn [mbind option_bind] in E.
  apply IH in E as [N4 _]. split; [congruence|done].
Qed.

(** The results of [new(std::nothrow)] are not looked at, so the function returns
    a map only when every allocation it makes is served: one refused, of the four
    arrays or of any string, and it has written through the null pointer. *)
Theorem map_needs_every_allocation (ok : nat -> bool) (osdMap : list (Z * (Z * bytes))) (h : t) (ret : Z) (s : OSDStat) (h' : t)
  (Hlen : len osdMap < 2 ^ 32) (Hne : osdMap <> []) (E : CephProxyGetOSDMap ok 0 osdMap h = Some (ret, s, h')) :
  (next h + 4 <= next h')%nat /\ forall j, (next h <= j < next h')%nat -> ok j = true.
Proof.
  unfold CephProxyGetOSDMap in E. cbn [Z.eqb negb] in E.
  destruct (MapExport.index_ips osdMap ∅ 0 0) as [[ipMap n] l] eqn:Ei.
  assert (map_to_list ipMap <> []) as Hm.
  { apply MapExport.index_ips_spec in Ei as (_ & _ & _ & _ & H5); [|by split; intros *; rewrite lookup_empty|lia|lia].
    destruct osdMap as [|o r]; [done|]. destruct (H5 o ltac:(left)) as [i Hi]. apply elem_of_map_to_list in Hi.
    intros E0. rewrite E0 in Hi. by apply not_elem_of_nil in Hi. }
  destruct (index_ips_table _ _ _ _ Ei Hlen) as (-> & _). destruct (len osdMap =? 0) eqn:E0; bprop.
  { destruct osdMap as [|o r]; [done|]. rewrite len_cons in E0. pose proof (len_nonneg r). lia. }
  destruct (new ok _ h) as [p1 h1] eqn:E1. destruct (new ok _ h1) as [p2 h2] eqn:E2.
  destruct (new ok _ h2) as [p3 h3] eqn:E3. destruct (new ok _ h3) as [p4 h4] eqn:E4.
  apply new_needs in E1 as [N1 O1], E2 as [N2 O2], E3 as [N3 O3], E4 as [N4 O4].
  destruct (fill_strings ok _ p4 h4) as [h5|] eqn:E5; [|done]. cbn [mbind option_bind] in E.
  apply fill_strings_needs in E5 as (L5 & O5 & P5). destruct (fill_osds _ _ _ _ h5) as [h6|] eqn:E6; [|done].
  cbn [mbind option_bind] in E. injection E as _ _ <-. apply fill_osds_needs in E6 as [N6 P6]. destruct (P6 Hne) as (Q1 & Q2 & Q3).
  cbn [osdId weight ipIndex] in Q1, Q2, Q3. specialize (P5 Hm). split; [lia|]. intros j Hj.
  destruct (decide (next h4 <= j)%nat); [apply O5; lia|].
  assert (j = next h \/ j = next h1 \/ j = next h2 \/ j = next h3) as [->|[->|[->| ->]]] by lia; auto.
Qed.

Lemma free_gone p h h' a : free p h = Some h' -> blocks h !! a = None -> blocks h' !! a = None.
Proof.
  intros E Ha. destruct p as [| |x]; [done|by simplify_eq/=|]. cbn in E. destruct (blocks h !! x); [|done].
  injection E as <-. cbn. rewrite lookup_delete. by case_decide.
Qed.

Lemma free_each_gone n p i h h' a : free_each n p i h = Some h' -> blocks h !! a = None -> blocks h' !! a = None.
Proof.
  revert i h. induction n as [|n IH]; intros i h E Ha; cbn in E; [by simplify_eq|].
  destruct (load_ptr p i h) as [x|]; [|done]. cbn in E. destruct (free x h) as [h1|] eqn:Ef; [|done]. cbn in E.
  eapply IH; [exact E|]. by eapply free_gone.
Qed.

Lemma free_null_gone p h h' a : (if not_null p then free p h else Some h) = Some h' -> blocks h !! a = None -> blocks h' !! a = None.
Proof. destruct (not_null p); [apply free_gone|]. by intros [= ->]. Qed.

(** The structure keeps its pointers: giving the same map back twice frees its arrays twice. *)
Lemma map_given_back_twice (s : OSDStat) (h h' : t) (a : nat) : num s <> 0 -> osdId s = Ptr a ->
  CephProxyPutOSDMap s h = Some h' -> CephProxyPutOSDMap s h' = None.
Proof.
  intros Hn Ea. unfold CephProxyPutOSDMap. replace (num s =? 0) with false by lia. rewrite Ea. cbn [not_null].
  destruct (free (Ptr a) h) as [h1|] eqn:E1; [|done]. cbn [mbind option_bind].
  destruct (if not_null (weight s) then _ else _) as [h2|] eqn:E2; [|done]. cbn [mbind option_bind].
  destruct (if not_null (ipIndex s) then _ else _) as [h3|] eqn:E3; [|done]. cbn [mbind option_bind]. intros E4.
  enough (blocks h' !! a = None) as Hx by (cbn; by rewrite Hx).
  assert (blocks h1 !! a = None) as H1.
  { cbn in E1. destruct (blocks h !! a); [|done]. injection E1 as <-. apply lookup_delete_eq. }
  eapply free_null_gone in H1; [|exact E2]. eapply free_null_gone in H1; [|exact E3].
  destruct (not_null (ip s)); [|by simplify_eq]. destruct (free_each _ _ _ h3) as [h4|] eqn:E5; [|done].
  eapply free_gone; [exact E4|]. by eapply free_each_gone.
Qed.

Lemma map_needs_every_allocation_witness :
  let m := [(0, (1, bs "10.0.0.1"))] in
  CephProxyGetOSDMap (fun j => negb (j =? 4)%nat) 0 m heap0 = None /\
  option_map (fun r => next (snd r)) (CephProxyGetOSDMap always 0 m heap0) = Some 5%nat /\
  forall j, (j < 5)%nat -> always j = true.
Proof.
  intros m. split; [vm_compute; reflexivity|]. split; [vm_compute; reflexivity|]. intros j Hj.
  destruct (CephProxyGetOSDMap always 0 m heap0) as [[[r s] h']|] eqn:E; [|vm_compute in E; discriminate E].
  assert (next h' = 5%nat) as N by (pose proof (f_equal (option_map (fun r => next (snd r))) E) as E'; vm_compute in E'; injection E' as E'; exact (eq_sym E')).
  apply (map_needs_every_allocation always m heap0 r s h'); [vm_compute; reflexivity|discriminate|exact E|].
  split; [apply Nat.le_0_l|]. rewrite N. exact Hj.
Defined.

End MapMemory.
