(* ===== verification/Interface.v ===== *)
(** * [CephProxyInterface.cc]: the C interface of the client adaptor

    The process-wide instance, the life of a proxy object behind its handle, and
    the functions that check their pointers and forward to [CephProxy],
    [RadosWorker], [RadosWrapper] and [CephMsgr].  A handle is a pointer to one of
    the objects of the process; using a null, deleted or half-built object is
    [None]. *)

From S2P Require Import Prelude CStr Utils RadosWorker WorkerStop RadosWrapper CephProxy CephMsgr ProxySystem.

Module Interface.
Section interface.
Context {Q : Type -> Type} `{!FIFO Q} {M : Type}.
Context (hash : bytes -> Z) (workerNum : Z).
Context (new_ok : Z -> bool) (ioctx_create : Z -> Z -> IoCtx.pool_key -> Z) (get_id : Z -> Z).

(** The pointer [worker]: the constructor does not set it. *)
Inductive pointer := Unset | Null | Made.
Definition made (w : pointer) : bool := match w with Made => true | _ => false end.

(** A [CephProxy] with its worker and messenger; [msgrHandler] is not set either
    until [msgr] is there.  [abandoned]: the workers a second [Init] has
    overwritten. *)
Record object := {
  sys : ProxySystem.t (Q := Q); worker : pointer; msgr : option M;
  abandoned : list (RadosWorker.t (Q := Q))
}.

(** [CephProxy::instance] and the objects made so far, [None] once deleted. *)
Record process := { instance : option nat; objs : list (option object) }.

Definition new_object (c0 : Z) : object :=
  {| sys := ProxySystem.init (CephProxy.fresh c0); worker := Unset; msgr := None; abandoned := [] |}.

(** [GetProxy], [alloc] telling whether [new(std::nothrow)] succeeds and [c0]
    what it finds in [count]. *)
Definition GetProxy (alloc : bool) (c0 : Z) (p : process) : option nat * process :=
  match instance p with
  | Some h => (Some h, p)
  | None => if alloc then (Some (length (objs p)),
                           {| instance := Some (length (objs p)); objs := objs p ++ [Some (new_object c0)] |})
            else (None, p)
  end.

Definition object_at (h : nat) (p : process) : option object := o ← objs p !! h; o.
Definition put (h : nat) (o : option object) (p : process) : process :=
  {| instance := instance p; objs := <[h := o]> (objs p) |}.

Section init.
(** The cluster, the messenger and whether its allocation and start succeed. *)
Context (envs : Z -> Wrapper.rados_env) (client_conf : Wrapper.client_conf) (cephConf : bytes).
Context (msgr_alloc : bool) (start_ret : Z) (new_msgr : M).
Context (pid_ok worker_alloc : bool) (cfg : ProxyConfig.ProxyControlCfg).

(** [InitProxyMsgr]: the return value and what is stored through [handler]. *)
Definition InitProxyMsgr : Z * option M :=
  if negb msgr_alloc then (- ENOMEM, None)
  else if negb (start_ret =? 0) then (-1, None) else (0, Some new_msgr).

(** Does [Init] get to the end of [InitProxyMsgr]? *)
Definition msgr_started (s : CephProxy.t) : bool :=
  match CephProxy.MemberInit cfg s with
  | Some s => (0 <=? fst (CephProxy.RadosInit envs client_conf cephConf s)) && (0 <=? fst InitProxyMsgr)
  | None => false
  end.

(** Does it get to the allocation of the worker? *)
Definition worker_assigned (s : CephProxy.t) : bool :=
  msgr_started s &&
  (if pid_ok && (u32 (ProxyConfig.bindCore cfg) =? 1)
   then 0 <=? fst (CephProxy.ParseCoreId (ProxyConfig.coreIds cfg)) else true).

(** [CephProxy::Init] on an object: the worker is assigned last, over an older
    one if there is one. *)
Definition Init (o : object) : option (Z * object) :=
  let s := ProxySystem.proxy (sys o) in
  '(ret, s') ← CephProxy.Init envs client_conf cephConf (fst InitProxyMsgr) pid_ok worker_alloc cfg s;
  let m := if msgr_started s then snd InitProxyMsgr else msgr o in
  Some (ret,
    if worker_assigned s then
      {| sys := ProxySystem.set_proxy s' (ProxySystem.ext (sys o)) (ProxySystem.init s');
         worker := if worker_alloc then Made else Null; msgr := m;
         abandoned := if made (worker o) then ProxySystem.table (sys o) :: abandoned o else abandoned o |}
    else
      {| sys := ProxySystem.set_proxy s' (ProxySystem.ext (sys o)) (sys o); worker := worker o; msgr := m;
         abandoned := abandoned o |}).

(** [CephProxyInit]: the return value, what is stored through [proxy] (if
    anything).  [conf], [log] and [wNum] go no further than the null checks. *)
Definition CephProxyInit (conf log : option bytes) (wNum : Z) (proxy_ok alloc : bool) (c0 : Z) (p : process)
  : option (Z * option (option nat) * process) :=
  match conf, log, proxy_ok with
  | Some _, Some _, true =>
      let '(h, p) := GetProxy alloc c0 p in
      h ← h;                                       (* a null instance is used *)
      o ← object_at h p;
      '(ret, o) ← Init o;
      Some (ret, Some (if ret <? 0 then None else Some h), put h (Some o) p)
  | _, _, _ => Some (- EINVAL, None, p)
  end.
End init.

(** [CephProxyShutdown]; [tr] are the steps of the threads while it waits.  The
    object is used whatever its state. *)
Definition CephProxyShutdown (tr : list ProxySystem.label) (proxy : option nat) (p : process) : option process :=
  match proxy with
  | None => Some p
  | Some h =>
      o ← object_at h p;
      match worker o with
      | Unset => None                              (* [if (worker)] reads no value *)
      | _ =>                                       (* of a null one the table is empty *)
      s ← ProxySystem.run_to hash workerNum new_ok ioctx_create get_id (ProxySystem.BeginShutdown :: tr) (sys o);
      match ProxySystem.ph s with
      | ProxySystem.Down =>
          _ ← msgr o;
          Some {| instance := None; objs := <[h := None]> (objs p) |}
      | _ => None
      end
      end
  end.

Definition GetCephProxyInstance (p : process) : option nat := instance p.

(** ** Functions of a handle: with and without a check for null *)
Definition checked {A} (null : A) (f : object -> option (A * object)) (proxy : option nat) (p : process)
  : option (A * process) :=
  match proxy with
  | None => Some (null, p)
  | Some h => o ← object_at h p; '(a, o) ← f o; Some (a, put h (Some o) p)
  end.
Definition unchecked {A} (f : object -> option (A * object)) (proxy : option nat) (p : process)
  : option (A * process) :=
  h ← proxy; o ← object_at h p; '(a, o) ← f o; Some (a, put h (Some o) p).

Definition on_proxy {A} (f : CephProxy.t -> option (A * CephProxy.t)) (o : object) : option (A * object) :=
  '(a, s) ← f (ProxySystem.proxy (sys o));
  Some (a, {| sys := ProxySystem.set_proxy s (ProxySystem.ext (sys o)) (sys o); worker := worker o;
              msgr := msgr o; abandoned := abandoned o |}).
Definition reads {A} (f : object -> option A) (o : object) : option (A * object) := a ← f o; Some (a, o).

Definition CephProxyQueueOp (op : option RadosObjectOperation) (c : option Z) (ts : Z) (alloc alloc_ctx : bool) :=
  checked (- EINVAL) (fun o =>
    if negb (made (worker o)) then None else
    '(r, tb) ← RadosWorker.Queue hash workerNum op c ts alloc alloc_ctx (ProxySystem.table (sys o));
    Some (r, {| sys := ProxySystem.set_table tb (sys o); worker := worker o; msgr := msgr o; abandoned := abandoned o |})).

(** [std::string] of a null pointer does not return. *)
Definition CephProxyGetIoCtx (poolname : option bytes) :=
  unchecked (on_proxy (fun s => n ← poolname; Some (CephProxy.GetIoCtx new_ok ioctx_create (c_str n) s))).
Definition CephProxyGetIoCtx2 (poolId : Z) :=
  checked None (on_proxy (fun s => Some (CephProxy.GetIoCtx2 new_ok ioctx_create poolId s))).
Definition CephProxyGetIoCtxFromCeph (poolId : Z) :=
  checked None (fun o =>
    let '(r, s) := CephProxy.GetIoCtxFromCeph new_ok ioctx_create poolId (ProxySystem.proxy (sys o)) in
    let e := ProxySystem.ext (sys o) in
    Some (r, {| sys := ProxySystem.set_proxy s (match r with Some id => e ++ [id] | None => e end) (sys o);
                worker := worker o; msgr := msgr o; abandoned := abandoned o |})).

Definition CephProxyGetPoolIdByPoolName (poolName : option bytes) :=
  unchecked (on_proxy (fun s => n ← poolName; CephProxy.GetPoolIdByPoolName new_ok ioctx_create get_id n s)).
Definition CephProxyGetPoolNameByPoolId (name_of : Z -> bytes) (poolId maxLen : Z) :=
  unchecked (on_proxy (fun s => '(r, buf, s) ← CephProxy.GetPoolNameByPoolId new_ok ioctx_create name_of poolId maxLen s;
                                Some ((r, buf), s))).
(** [CephProxy::GetPoolIdByCtx]: the id goes through an [int]. *)
Definition GetPoolIdByCtx (ioctx : Z) : Z := s32 (IoCtx.RadosGetPoolId get_id ioctx).
Definition CephProxyGetPoolIdByCtx (ioctx : Z) := unchecked (reads (fun _ => Some (GetPoolIdByCtx ioctx))).

Inductive CEPH_BDEV_TYPE_E := CEPH_BDEV_HDD | CEPH_BDEV_SSD | BDEV_OTHER (n : Z).
Definition GetMinAllocSize (conf_get : bytes -> Z * bytes) (old : Z) (type : CEPH_BDEV_TYPE_E) : Z * Z :=
  match type with
  | CEPH_BDEV_HDD => IoCtx.RadosGetMinAllocSizeHDD conf_get old
  | CEPH_BDEV_SSD => IoCtx.RadosGetMinAllocSizeSSD conf_get old
  | BDEV_OTHER _ => IoCtx.RadosGetMinAllocSizeHDD conf_get old
  end.
Definition CephProxyGetMinAllocSize (conf_get : bytes -> Z * bytes) (minAllocSize : option Z) (type : CEPH_BDEV_TYPE_E) :=
  unchecked (reads (fun _ => old ← minAllocSize; Some (GetMinAllocSize conf_get old type))).

(** The queries [CephProxy] hands on: to librados by its main client, to the messenger by
    [msgrHandler]; a handler that was never set is used. *)
Definition GetClusterStat (cluster_stat : Z * IoCtx.CephClusterStat) (stat : IoCtx.CephClusterStat) :=
  IoCtx.RadosGetClusterStat cluster_stat stat.
Definition GetPoolStat (get_pool_stats : list bytes -> Z * gmap bytes IoCtx.CephPoolStat) (ctx_name : option bytes)
    (stat : IoCtx.CephPoolStat) := IoCtx.RadosGetPoolStat get_pool_stats ctx_name stat.
Definition GetPoolsStat (get_pool_stats : list bytes -> Z * gmap bytes IoCtx.CephPoolStat)
    (pool_reverse_lookup : Z -> Z * bytes) (stat : list IoCtx.CephPoolStat) (poolId : list Z) :=
  IoCtx.RadosGetPoolsStat get_pool_stats pool_reverse_lookup stat poolId.
Definition GetPoolUsedSizeAndMaxAvail (data : M -> PoolQuery.ClusterData) (o : object) : option (Z * (Z * Z)) :=
  m ← msgr o; Some (PoolQuery.GetPoolAllUsedAndAvail (data m)).
Definition RegisterPoolNewNotifyFn (register : M -> Z * M) (o : object) : option (Z * object) :=
  m ← msgr o; let '(r, m) := register m in
  Some (r, {| sys := sys o; worker := worker o; msgr := Some m; abandoned := abandoned o |}).
Definition GetPoolInfo (GetPoolBaseInfo : M -> PoolQuery.PoolInfo -> PoolQuery.res (Z * PoolQuery.PoolInfo))
    (info : PoolQuery.PoolInfo) (o : object) : option (Z * PoolQuery.PoolInfo) :=
  m ← msgr o; match GetPoolBaseInfo m info with inr r => Some r | inl _ => None end.
Definition GetOSDMap (osds : M -> list (Z * (Z * bytes))) (o : object) : option (Z * list (Z * (Z * bytes))) :=
  m ← msgr o; Some (0, osds m).
Definition GetPGMap (pgs : M -> Z * list (Z * list Z)) (o : object) : option (Z * list (Z * list Z)) :=
  m ← msgr o; Some (pgs m).
Definition CalBatchPGId (pg_of : M -> option (bytes -> Z)) (o : object) : option (option (bytes -> Z)) :=
  m ← msgr o; Some (pg_of m).
Definition GetState (o : object) : CephProxy.CephProxyState := CephProxy.state (ProxySystem.proxy (sys o)).

(** A null result pointer is reported like a null handle. *)
Definition CephProxyGetClusterStat (cluster_stat : Z * IoCtx.CephClusterStat) (result : option IoCtx.CephClusterStat) :=
  match result with
  | Some r => checked (- EINVAL, r) (reads (fun _ => Some (GetClusterStat cluster_stat r)))
  | None => fun _ p => Some ((- EINVAL, IoCtx.Build_CephClusterStat 0 0 0 0), p)
  end.
Definition CephProxyGetPoolStat (get_pool_stats : list bytes -> Z * gmap bytes IoCtx.CephPoolStat)
    (pool_name : option bytes) (stats : option IoCtx.CephPoolStat) :=
  match stats with
  | Some st => checked (- EINVAL, st) (reads (fun _ => Some (GetPoolStat get_pool_stats pool_name st)))
  | None => fun _ p => Some ((- EINVAL, IoCtx.zero_stat), p)
  end.
Definition CephProxyGetPoolsStat (get_pool_stats : list bytes -> Z * gmap bytes IoCtx.CephPoolStat)
    (pool_reverse_lookup : Z -> Z * bytes) (stats : option (list IoCtx.CephPoolStat)) (poolId : option (list Z)) :=
  match stats, poolId with
  | Some st, Some ids => checked (- EINVAL, st)
                           (reads (fun _ => Some (GetPoolsStat get_pool_stats pool_reverse_lookup st ids)))
  | _, _ => fun _ p => Some ((- EINVAL, default [] stats), p)
  end.

Definition state_number (s : CephProxy.CephProxyState) : Z :=
  match s with CephProxy.PROXY_INITING => 1 | CephProxy.PROXY_ACTIVE => 2 | CephProxy.PROXY_DOWN => 3 end.
Definition CephProxyGetState := unchecked (reads (fun o => Some (state_number (GetState o)))).

(** [old]: what the two references hold. *)
Definition CephProxyGetUsedSizeAndMaxAvail (data : M -> PoolQuery.ClusterData) (old : Z * Z) :=
  checked (- EINVAL, old) (reads (GetPoolUsedSizeAndMaxAvail data)).
Definition CephProxyRegisterPoolNewNotifyFn (register : M -> Z * M) (p : process) : option (Z * process) :=
  checked (- EINVAL) (RegisterPoolNewNotifyFn register) (GetCephProxyInstance p) p.

Definition CephProxyGetPoolInfo (GetPoolBaseInfo : M -> PoolQuery.PoolInfo -> PoolQuery.res (Z * PoolQuery.PoolInfo))
    (info : option PoolQuery.PoolInfo) :=
  match info with
  | Some i => checked (- EINVAL, i) (reads (GetPoolInfo GetPoolBaseInfo i))
  | None => fun _ p => Some ((- EINVAL, PoolQuery.no_info), p)
  end.

(** The maps: [MsgrGetOSDMap] and [MsgrGetPGMap] on the map of the messenger,
    copied as [MapExport] does; [stat] is what the caller passed. *)
Definition CephProxyGetOSDMap (osds : M -> list (Z * (Z * bytes))) (stat : MapExport.OSDStat) :=
  checked (- EINVAL, stat) (reads (fun o =>
    '(ret, osdMap) ← GetOSDMap osds o; Some (MapExport.CephProxyGetOSDMap ret osdMap))).
Definition CephProxyGetPGMap (pgs : M -> Z * list (Z * list Z)) (pgView : MapExport.PGLocation) :=
  checked (- EINVAL, pgView) (reads (fun o =>
    '(ret, pgMap) ← GetPGMap pgs o; Some (MapExport.CephProxyGetPGMap ret pgMap))).
Definition CephProxyCalBatchPGId (pg_of : M -> option (bytes -> Z)) (objList : list (bytes * Z)) :=
  checked (- EINVAL, objList) (reads (fun o =>
    f ← CalBatchPGId pg_of o; Some (MapExport.CephProxyCalBatchPGId f objList))).

(** ** Operations and completions *)

(** [CephProxyWriteOpInit2], [CephProxyReadOpInit2]: what is stored through
    [op] (if anything).  [new] is the result of the constructor. *)
Definition OpInit2 {A} (op_ok : bool) (oid : option bytes) (new : option A) : Z * option (option A) :=
  match oid with
  | Some _ => if op_ok then (match new with Some _ => 0 | None => -1 end, Some new) else (- EINVAL, None)
  | None => (- EINVAL, None)
  end.
Definition CephProxyWriteOpInit2 (op_ok : bool) (oid : option bytes) (alloc : bool) :=
  OpInit2 op_ok oid (if alloc then Some RadosOp.RadosWriteOpInit else None).
Definition CephProxyReadOpInit2 (op_ok : bool) (oid : option bytes) (alloc : bool) :=
  OpInit2 op_ok oid (if alloc then Some RadosOp.RadosReadOpInit else None).

(** [CompletionInit]: callback and argument; null without a callback. *)
Definition CompletionInit (fn : option Z) (cbArg : Z) (alloc : bool) : option (Z * Z) :=
  f ← fn; if alloc then Some (f, cbArg) else None.
Definition CephProxyCreateCompletion := CompletionInit.

(** ** The life of a proxy *)

Definition with_sys (s : ProxySystem.t) (o : object) : object :=
  {| sys := s; worker := worker o; msgr := msgr o; abandoned := abandoned o |}.

(** [CephProxy::Init] succeeds exactly when it gets to the worker and can make it. *)
Lemma Init_returns envs cc cephConf alloc start m pid wk cfg s ret s' :
  CephProxy.Init envs cc cephConf (fst (InitProxyMsgr alloc start m)) pid wk cfg s = Some (ret, s') ->
  if worker_assigned envs cc cephConf alloc start m pid cfg s && wk
  then 0 <= ret /\ CephProxy.state s' = CephProxy.PROXY_ACTIVE else ret < 0.
Proof.
  unfold CephProxy.Init, worker_assigned, msgr_started. intros (s1 & -> & Hi)%bind_Some.
  destruct (CephProxy.RadosInit envs cc cephConf s1) as [r s2]. cbn [fst]. rewrite !Z.leb_antisym.
  destruct (r <? 0) eqn:E1; cbn [negb andb]; bprop; [by injection Hi as <- <-|].
  destruct (fst (InitProxyMsgr alloc start m) <? 0) eqn:E2; cbn [negb andb]; bprop;
    [apply bind_Some in Hi as (? & _ & Hi); by injection Hi as <- <-|].
  destruct (pid && _).
  - destruct (CephProxy.ParseCoreId _) as [r2 v]. cbn [fst]. destruct (r2 <? 0) eqn:E3; cbn [negb andb]; bprop; [by injection Hi as <- <-|].
    by destruct wk; cbn in *; injection Hi as <- <-.
  - destruct (_ <? 0) eqn:E3 in Hi; bprop; [lia|]. by destruct wk; cbn in *; injection Hi as <- <-.
Qed.

Lemma msgr_started_stored envs cc cephConf alloc start m cfg s :
  msgr_started envs cc cephConf alloc start m cfg s = true -> snd (InitProxyMsgr alloc start m) = Some m.
Proof.
  unfold msgr_started, InitProxyMsgr. destruct (CephProxy.MemberInit cfg s); [|done].
  destruct alloc, (start =? 0); cbn; rewrite ?andb_false_r; done.
Qed.

Lemma object_at_put h o p : (h < length (objs p))%nat -> object_at h (put h (Some o) p) = Some o.
Proof. intros Hh. unfold object_at, put. cbn. by rewrite list_lookup_insert_eq. Qed.

(** Which functions check their handle: five of them use a null one. *)
Lemma null_handle (p : process) op c ts a1 a2 pool poolId name name_of maxLen ioctx conf_get sz type :
  CephProxyQueueOp op c ts a1 a2 None p = Some (- EINVAL, p) /\
  CephProxyGetIoCtx2 poolId None p = Some (None, p) /\
  CephProxyGetIoCtxFromCeph poolId None p = Some (None, p) /\
  CephProxyGetIoCtx pool None p = None /\
  CephProxyGetPoolIdByPoolName name None p = None /\
  CephProxyGetPoolNameByPoolId name_of poolId maxLen None p = None /\
  CephProxyGetPoolIdByCtx ioctx None p = None /\
  CephProxyGetMinAllocSize conf_get sz type None p = None /\
  CephProxyGetState None p = None.
Proof. by split_and!. Qed.

Section life.
Context (envs : Z -> Wrapper.rados_env) (cc : Wrapper.client_conf) (cephConf : bytes).
Context (msgr_alloc : bool) (start_ret : Z) (new_msgr : M) (pid_ok worker_alloc : bool) (cfg : ProxyConfig.ProxyControlCfg).

Lemma Init_object c0 ret o :
  0 <= ProxyConfig.radosCtxNum cfg < 2 ^ 32 -> 0 <= c0 < 2 ^ 32 ->
  Init envs cc cephConf msgr_alloc start_ret new_msgr pid_ok worker_alloc cfg (new_object c0) = Some (ret, o) ->
  if ret <? 0 then worker_alloc = true -> worker o = Unset
  else worker o = Made /\ msgr o = Some new_msgr /\ exists s0, sys o = ProxySystem.init s0 /\
    CephProxy.started envs cc cephConf (fst (InitProxyMsgr msgr_alloc start_ret new_msgr)) pid_ok worker_alloc cfg c0 ret s0.
Proof.
  intros Hcfg Hc0. unfold Init. intros ([r s'] & Hi & Ho)%bind_Some. pose proof (Init_returns _ _ _ _ _ _ _ _ _ _ _ _ Hi) as Hr.
  injection Ho as -> <-. cbn [sys new_object ProxySystem.proxy ProxySystem.init] in *.
  destruct (worker_assigned _ _ _ _ _ _ _ _ _) eqn:Ea; [destruct worker_alloc|]; cbn [andb] in Hr.
  - destruct Hr as [Hr Hst]. rewrite (proj2 (Z.ltb_ge _ _) Hr). split; [done|]. split; cbn [msgr].
    + apply andb_true_iff in Ea as [Em _]. rewrite Em. by eapply msgr_started_stored.
    + exists s'. split; [done|]. exact (conj Hcfg (conj Hc0 (conj Hi Hst))).
  - by rewrite (proj2 (Z.ltb_lt _ _) Hr).
  - by rewrite (proj2 (Z.ltb_lt _ _) Hr).
Qed.

(** C30: the life of a proxy through the C interface.  From a process without
    one, [CephProxyInit] stores a handle exactly when it returns 0 or more, and
    [GetCephProxyInstance] then returns the same handle; from every state the
    proxy reaches in which no call is in progress, [CephProxyShutdown] of the handle
    can run to its end, leaving the process without an instance; and the handle is
    dead, a second shutdown using freed memory.  When [CephProxyInit] fails the
    caller gets null, but the half-built object stays the instance of the process,
    and shutting that down reads a worker pointer that was never set, unless it was
    the worker itself that could not be allocated. *)
Theorem proxy_lifecycle (conf log : bytes) (wNum c0 : Z) (p p1 : process) (ret : Z) (out : option (option nat))
  (Hcfg : 0 <= ProxyConfig.radosCtxNum cfg < 2 ^ 32) (Hc0 : 0 <= c0 < 2 ^ 32) (Hn : 0 < workerNum)
  (Hnone : instance p = None)
  (Hi : CephProxyInit envs cc cephConf msgr_alloc start_ret new_msgr pid_ok worker_alloc cfg
          (Some conf) (Some log) wNum true true c0 p = Some (ret, out, p1)) :
  exists h, GetCephProxyInstance p1 = Some h /\
    (ret < 0 -> out = Some None /\ (worker_alloc = true -> forall tr, CephProxyShutdown tr (GetCephProxyInstance p1) p1 = None)) /\
    (0 <= ret -> out = Some (Some h) /\ exists o, object_at h p1 = Some o /\
       forall s, ProxySystem.reach hash workerNum new_ok ioctx_create get_id (sys o) s -> ProxySystem.ph s = ProxySystem.Running ->
         ProxySystem.no_call s ->
         exists tr p3, CephProxyShutdown tr (Some h) (put h (Some (with_sys s o)) p1) = Some p3 /\
           GetCephProxyInstance p3 = None /\ forall tr', CephProxyShutdown tr' (Some h) p3 = None).
Proof.
  unfold CephProxyInit, GetProxy in Hi. rewrite Hnone in Hi. cbn [mbind option_bind] in Hi. set (h := length (objs p)) in *.
  assert (object_at h {| instance := Some h; objs := objs p ++ [Some (new_object c0)] |} = Some (new_object c0)) as Hobj.
  { unfold object_at. cbn. rewrite lookup_app_r, Nat.sub_diag by done. done. }
  rewrite Hobj in Hi. cbn [mbind option_bind] in Hi. apply bind_Some in Hi as ([r o] & Hio & Hp). injection Hp as <- <- <-.
  pose proof (Init_object c0 r o Hcfg Hc0 Hio) as Ho. exists h. split; [done|].
  assert (h < length (objs p ++ [Some (new_object c0)]))%nat as Hlt by (rewrite length_app; cbn; lia).
  split.
  - intros Hr. rewrite (proj2 (Z.ltb_lt _ _) Hr) in *. split; [done|]. intros Hal tr. unfold CephProxyShutdown, GetCephProxyInstance.
    cbn [instance put]. rewrite object_at_put by done. cbn [mbind option_bind]. by rewrite (Ho Hal).
  - intros Hr. rewrite (proj2 (Z.ltb_ge _ _) Hr) in *. destruct Ho as (Hw & Hm & s0 & Hs & Hstart). split; [done|].
    exists o. split; [by apply object_at_put|]. intros s Hreach Hph Hno. rewrite Hs in Hreach.
    pose proof (ProxySystem.sys_reach_inv hash workerNum new_ok ioctx_create get_id _ _ Hn
                  (ProxySystem.started_inv hash workerNum new_ok ioctx_create envs cc cephConf _ pid_ok worker_alloc cfg c0 r s0 Hstart) Hreach) as Hinv.
    destruct (ProxySystem.shutdown_from hash workerNum new_ok ioctx_create get_id s Hn Hinv Hph Hno) as (tr & s' & _ & Hrun & Hd & _).
    exists tr. eexists. unfold CephProxyShutdown at 1. rewrite object_at_put by (cbn; by rewrite length_insert).
    cbn [mbind option_bind with_sys worker sys msgr]. rewrite Hw. rewrite Hrun. cbn [mbind option_bind]. rewrite Hd, Hm.
    split; [reflexivity|]. split; [done|]. intros tr'. unfold CephProxyShutdown, object_at. cbn [objs put].
    by rewrite list_lookup_insert_eq by by rewrite !length_insert.
Qed.
End life.
End interface.
End Interface.

(** ** Building operations through the interface *)
Module Builders.
Import RadosOp.

(** The functions [CephProxyWriteOp...]; each forwards its arguments. *)
Inductive write_call :=
| WSetFlags (flags : Z) | WAssertExists | WAssertVersion (ver : Z)
| WCmpext (cmpBuf : bytes) (off : Z)
| WCmpXattr (name : bytes) (compOperator : Z) (value : bytes)
| WOmapCmp (key : bytes) (compOperator : Z) (value : bytes)
| WSetXattr (name value : bytes) | WRemoveXattr (name : bytes) | WCreateObject (exclusive : Z)
| WWrite (buffer : option bytes) (off : Z)
| WWriteBl (s : list GcBuffer.GcBufferList) (len1 off : Z) (ab : option GcBuffer.AlignBuffer) (isRelease : bool)
| WRemove | WOmapSet (kvs : list (bytes * bytes)) | WOmapRmKeys (keys : list bytes) | WOmapClear
| WSetAllocHint (expectedObjSize expectedWriteSize flags : Z).

Definition CephProxyWriteOp (c : write_call) (op : RadosObjectWriteOp) : GcBuffer.fault + RadosObjectWriteOp :=
  match c with
  | WSetFlags f => inr (RadosWriteOpSetFlags f op)
  | WAssertExists => inr (RadosWriteOpAssertExists op)
  | WAssertVersion v => inr (RadosWriteOpAssertVersion v op)
  | WCmpext b off => inr (RadosWriteOpCmpext b off op)
  | WCmpXattr n o v => inr (RadosWriteOpCmpXattr n o v op)
  | WOmapCmp k o v => inr (RadosWriteOpOmapCmp k o v op)
  | WSetXattr n v => inr (RadosWriteOpSetXattr n v op)
  | WRemoveXattr n => inr (RadosWriteOpRemoveXattr n op)
  | WCreateObject e => inr (RadosWriteOpCreateObject e op)
  | WWrite b off => inr (RadosWriteOpWrite b off op)
  | WWriteBl s n off ab rel => RadosWriteOpWriteBl s n off ab rel op
  | WRemove => inr (RadosWriteOpRemove op)
  | WOmapSet kvs => inr (RadosWriteOpOmapSet kvs op)
  | WOmapRmKeys ks => inr (RadosWriteOpOmapRmKeys ks op)
  | WOmapClear => inr (RadosWriteOpOmapClear op)
  | WSetAllocHint eo ew f => inr (RadosWriteOpSetAllocHint eo ew f op)
  end.

Inductive read_call :=
| RSetFlags (flags : Z) | RAssertExists | RAssertVersion (ver : Z)
| RCmpext (cmpBuf : bytes) (off : Z)
| RCmpXattr (name : bytes) (compOperator : Z) (value : bytes)
| RGetXattrs (alloc : bool)
| ROmapCmp (key : bytes) (compOperator : Z) (val : bytes)
| RStat
| RRead (offset len : Z) (buffer : option bytes) (bytesRead : option Z)
| RReadBl (offset len : Z) (s : option (list GcBuffer.GcBufferList)) (isRelease : bool)
| RCheckSum (type : Z) (initValue : bytes) (offset len chunkSize : Z) (pCheckSum : bytes) (checkSumLen : Z).

Definition CephProxyReadOp (c : read_call) : RadosObjectReadOp -> RadosObjectReadOp :=
  match c with
  | RSetFlags f => RadosReadOpSetFlags f
  | RAssertExists => RadosReadOpAssertExists
  | RAssertVersion v => RadosReadOpAssertVersion v
  | RCmpext b off => RadosReadOpCmpext b off
  | RCmpXattr n o v => RadosReadOpCmpXattr n o v
  | RGetXattrs alloc => RadosReadOpGetXattrs alloc
  | ROmapCmp k o v => RadosReadOpOmapCmp k o v
  | RStat => RadosReadOpStat
  | RRead off n b br => RadosReadOpRead off n b br
  | RReadBl off n s rel => RadosReadOpReadBl off n s rel
  | RCheckSum ty i off n ch p l => RadosReadOpCheckSum ty i off n ch p l
  end.

Fixpoint write_op (cs : list write_call) (op : RadosObjectWriteOp) : GcBuffer.fault + RadosObjectWriteOp :=
  match cs with
  | [] => inr op
  | c :: cs' => GcBuffer.bind_res (CephProxyWriteOp c op) (write_op cs')
  end.
Definition read_op (cs : list read_call) (op : RadosObjectReadOp) : RadosObjectReadOp :=
  fold_left (fun o c => CephProxyReadOp c o) cs op.

(** Nothing that was added to an operation is taken back or moved: one call adds
    at most one sub-operation, at the end. *)
Lemma write_call_adds c op op' : CephProxyWriteOp c op = inr op' ->
  exists l, w_op op' = w_op op ++ l /\ (length l <= 1)%nat.
Proof.
  destruct c; cbn; intros Hc; try (injection Hc as <-; by eexists).
  - destruct buffer; injection Hc as <-; [by eexists|exists []; by rewrite app_nil_r; split; [|cbn; lia]].
  - unfold RadosWriteOpWriteBl in Hc. destruct s; [injection Hc as <-; exists []; by rewrite app_nil_r; split; [|cbn; lia]|].
    destruct (GcBuffer.write_bl_data _ _ _ _); [done|]. injection Hc as <-. by eexists.
Qed.

Lemma write_op_prefix cs1 cs2 op op1 op2 : write_op cs1 op = inr op1 -> write_op (cs1 ++ cs2) op = inr op2 ->
  exists l, w_op op2 = w_op op1 ++ l.
Proof.
  revert op. induction cs1 as [|c cs1 IH]; intros op H1 H2; cbn in H1, H2.
  - injection H1 as <-. revert op H2. induction cs2 as [|c cs2 IH2]; intros op H2; cbn in H2.
    + injection H2 as <-. exists []. by rewrite app_nil_r.
    + destruct (CephProxyWriteOp c op) as [|o] eqn:E; [done|]. destruct (write_call_adds _ _ _ E) as (l & Hl & _).
      destruct (IH2 _ H2) as [l2 Hl2]. exists (l ++ l2). by rewrite Hl2, Hl, app_assoc.
  - destruct (CephProxyWriteOp c op); [done|]. by eapply IH.
Qed.
End Builders.

Module InterfaceExamples.
Import CephProxyExamples Interface.

Definition init_again (p : process (Q := ConcurrentQueue.t) (M := unit)) :=
  CephProxyInit (fun _ => env_ok) conf0 (bs "ceph.conf") true 0 tt true true cfg3 (Some (bs "c")) (Some (bs "l")) 8 true true 5 p.
Definition no_proxy : process (Q := ConcurrentQueue.t) (M := unit) := {| instance := None; objs := [] |}.

Lemma proxy_lifecycle_witness :
  exists p1 o tr p3, init_again no_proxy = Some (0, Some (Some 0%nat), p1) /\ object_at 0 p1 = Some o /\
    CephProxyShutdown RadosIOWorkerExamples.hash0 2 always succeed get_id0 tr (Some 0%nat) (put 0 (Some (with_sys (sys o) o)) p1) = Some p3 /\
    GetCephProxyInstance p3 = None.
Proof.
  eexists.
  epose proof (@proxy_lifecycle ConcurrentQueue.t ConcurrentQueue_FIFO unit RadosIOWorkerExamples.hash0 2 always succeed get_id0
    (fun _ => env_ok) conf0 (bs "ceph.conf") true 0 tt true true cfg3 (bs "c") (bs "l") 8 5 no_proxy _ _ _
    ltac:(vm_compute; intuition discriminate) ltac:(lia) ltac:(lia) eq_refl ltac:(vm_compute; reflexivity)) as H.
  destruct H as (h & Hh & _ & H). destruct (H ltac:(lia)) as (Ho & o & Hobj & Hs). injection Ho as <-.
  destruct (Hs (sys o)) as (tr & p3 & H1 & H2 & _).
  - apply ProxySystem.reach_refl.
  - injection Hobj as <-. reflexivity.
  - apply ProxySystem.quiescent_no_call. injection Hobj as <-. reflexivity.
  - exists o, tr, p3. split; [vm_compute; reflexivity|]. split; [exact Hobj|]. split; [exact H1|exact H2].
Defined.

(** A second [CephProxyInit] runs [Init] on the same object: the clients are
    doubled, of which the mask only ever picks the first half, and the worker table
    with its threads is abandoned. *)
Lemma reinit_doubles_clients :
  exists r1 o1 p1 r2 o2 p2 o, init_again no_proxy = Some (r1, o1, p1) /\ init_again p1 = Some (r2, o2, p2) /\
    o2 = o1 /\ object_at 0 p2 = Some o /\ length (abandoned o) = 1%nat /\
    length (CephProxy.ioClientVec (ProxySystem.proxy (sys o))) = 8%nat /\
    CephProxy.vecMask (ProxySystem.proxy (sys o)) = 3.
Proof. do 7 eexists. split_and!; vm_compute; reflexivity. Qed.
End InterfaceExamples.
