(* ===== verification/MsgrStart.v ===== *)
(** * [CephMsgr.cc]: the life of [ProxyMsgr]

    - [MsgrStart]: bringing up the Ceph client stack of the proxy step by step, what
      each failure leaves behind, and the destructor;
    - [PollThread]: the thread that asks for the figures of the pools, and its end in
      an interleaving with the destructor. *)

From S2P Require Import Prelude CStr CephMsgr Interface.

Module MsgrStart.

(** A member that points to something deleted is [Dangling]. *)
Inductive ptr := Nil | Live | Dangling.
#[export] Instance ptr_eq_dec : EqDecision ptr.
Proof. solve_decision. Defined.

Inductive object := OMsgr | OAdaptor | OOsdMap | OContext | OMessenger | ODispatcher.
#[export] Instance object_eq_dec : EqDecision object.
Proof. solve_decision. Defined.

(** [running]: the messenger was started and not shut down; [mon_up], [mgr_up]: the
    clients inside the dispatcher; [joinable]: [pollThread] stands for a thread. *)
Record t := {
  ccmAdaptor : ptr; msger : ptr; dispatcher : ptr; osdmap : ptr;
  live : list object; keyring : option bytes; running : bool; mon_up : bool; mgr_up : bool;
  sub_want : list bytes; joinable : bool
}.

(** What Ceph's libraries answer, in the order they are asked. *)
Record env := {
  ccm_ok : bool; parse_config_files : bytes -> Z; msger_ok : bool; disp_ok : bool;
  build_initial_monmap : Z; mon_init : Z; authenticate : Z
}.

(** [new ProxyMsgr()] *)
Definition new_msgr : t :=
  {| ccmAdaptor := Nil; msger := Nil; dispatcher := Nil; osdmap := Live; live := [OMsgr; OOsdMap]; keyring := None;
     running := false; mon_up := false; mgr_up := false; sub_want := []; joinable := false |}.

Definition free (o : object) (l : list object) : list object := filter (fun x => x <> o) l.

Definition set_adaptor (p : ptr) (l : list object) (s : t) : t :=
  {| ccmAdaptor := p; msger := msger s; dispatcher := dispatcher s; osdmap := osdmap s; live := l; keyring := keyring s;
     running := running s; mon_up := mon_up s; mgr_up := mgr_up s; sub_want := sub_want s; joinable := joinable s |}.
Definition set_msger (p : ptr) (run : bool) (l : list object) (s : t) : t :=
  {| ccmAdaptor := ccmAdaptor s; msger := p; dispatcher := dispatcher s; osdmap := osdmap s; live := l; keyring := keyring s;
     running := run; mon_up := mon_up s; mgr_up := mgr_up s; sub_want := sub_want s; joinable := joinable s |}.
Definition set_disp (p : ptr) (mon mgr : bool) (l : list object) (s : t) : t :=
  {| ccmAdaptor := ccmAdaptor s; msger := msger s; dispatcher := p; osdmap := osdmap s; live := l; keyring := keyring s;
     running := running s; mon_up := mon; mgr_up := mgr; sub_want := sub_want s; joinable := joinable s |}.
Definition set_osdmap (p : ptr) (l : list object) (s : t) : t :=
  {| ccmAdaptor := ccmAdaptor s; msger := msger s; dispatcher := dispatcher s; osdmap := p; live := l; keyring := keyring s;
     running := running s; mon_up := mon_up s; mgr_up := mgr_up s; sub_want := sub_want s; joinable := joinable s |}.
Definition set_keyring (k : option bytes) (l : list object) (s : t) : t :=
  {| ccmAdaptor := ccmAdaptor s; msger := msger s; dispatcher := dispatcher s; osdmap := osdmap s; live := l; keyring := k;
     running := running s; mon_up := mon_up s; mgr_up := mgr_up s; sub_want := sub_want s; joinable := joinable s |}.
Definition set_subs (l : list bytes) (s : t) : t :=
  {| ccmAdaptor := ccmAdaptor s; msger := msger s; dispatcher := dispatcher s; osdmap := osdmap s; live := live s; keyring := keyring s;
     running := running s; mon_up := mon_up s; mgr_up := mgr_up s; sub_want := l; joinable := joinable s |}.
Definition set_joinable (b : bool) (s : t) : t :=
  {| ccmAdaptor := ccmAdaptor s; msger := msger s; dispatcher := dispatcher s; osdmap := osdmap s; live := live s; keyring := keyring s;
     running := running s; mon_up := mon_up s; mgr_up := mgr_up s; sub_want := sub_want s; joinable := b |}.

Section start.
Context (e : env) (confPath keyringPath : bytes).

Definition InitCCMAdaptor (s : t) : Z * t :=
  if ccm_ok e then (0, set_adaptor Live (live s ++ [OAdaptor]) s) else (-1, set_adaptor Nil (live s) s).

(** The keyring of the configuration file is overridden once it is read. *)
Definition InitCephContext (s : t) : Z * t :=
  let s := set_keyring None (live s ++ [OContext]) s in
  let ret := parse_config_files e confPath in
  if negb (ret =? 0) then (ret, s) else (ret, set_keyring (Some keyringPath) (live s) s).

Definition InitMessenger (s : t) : Z * t :=
  if msger_ok e then (0, set_msger Live false (live s ++ [OMessenger]) s) else (- ENOMEM, set_msger Nil (running s) (live s) s).

(** The label [out]: the dispatcher is deleted (its pointer stays), then the
    messenger. *)
Definition out (ret : Z) (s : t) : Z * t :=
  let s := match dispatcher s with
           | Nil => s
           | _ => set_disp Dangling false (mgr_up s) (free ODispatcher (live s)) s
           end in
  (ret, match msger s with Nil => s | _ => set_msger Nil false (free OMessenger (live s)) s end).

Definition InitDispatcher (s : t) : Z * t :=
  if negb (disp_ok e) then (- ENOMEM, set_disp Nil (mon_up s) (mgr_up s) (live s) s) else
  let s := set_disp Live (mon_up s) (mgr_up s) (live s ++ [ODispatcher]) s in
  if build_initial_monmap e <? 0 then out (build_initial_monmap e) s else
  let s := set_msger (msger s) true (live s) s in
  if negb (mon_init e =? 0) then out (mon_init e) s else
  let s := set_disp (dispatcher s) true (mgr_up s) (live s) s in
  if negb (authenticate e =? 0) then out (authenticate e) s else
  let s := set_subs (sub_want s ++ [bs "osdmap"; bs "mgrmap"]) s in
  (0, set_disp (dispatcher s) (mon_up s) true (live s) s).

Definition InitPollThread (s : t) : Z * t := (0, set_joinable true s).

(** [if (ret) { ... return -1; }] after each part *)
Definition andthen (r : Z * t) (f : t -> Z * t) : Z * t :=
  let '(ret, s) := r in if negb (ret =? 0) then (-1, s) else f s.

Definition Start (s : t) : Z * t :=
  andthen (InitCCMAdaptor s) (fun s =>
  andthen (InitCephContext s) (fun s =>
  andthen (InitMessenger s) (fun s =>
  andthen (InitDispatcher s) (fun s =>
  andthen (InitPollThread s) (fun s => (0, s)))))).

(** [InitProxyMsgr]: the handler, if one is stored, and the object whatever becomes
    of it. *)
Definition InitProxyMsgr (alloc : bool) : Z * option t * option t :=
  if negb alloc then (- ENOMEM, None, None) else
  let '(ret, s) := Start new_msgr in
  if negb (ret =? 0) then (-1, None, Some s) else (0, Some s, Some s).
(** This is [InitProxyMsgr] as the life cycle of the proxy takes it. *)
Lemma InitProxyMsgr_interface alloc :
  fst (InitProxyMsgr alloc) = Interface.InitProxyMsgr alloc (fst (Start new_msgr)) (snd (Start new_msgr)).
Proof.
  unfold InitProxyMsgr, Interface.InitProxyMsgr. destruct alloc; [|done]. cbn [negb].
  destruct (Start new_msgr) as [ret s]. cbn [fst snd]. by destruct (ret =? 0).
Qed.
End start.

(** [~ProxyMsgr] from [if (dispatcher)] on, up to the members themselves; [None] when
    it uses what a dangling pointer leads to. *)
Definition destroy_rest (s : t) : option t :=
  s ← match dispatcher s with
      | Nil => Some s
      | Live => Some (set_disp Nil false false (free ODispatcher (live s)) s)
      | Dangling => None
      end;
  s ← match msger s with
      | Nil => Some s
      | Live => Some (set_msger Nil false (free OMessenger (live s)) s)
      | Dangling => None
      end;
  s ← match osdmap s with
      | Nil => Some s
      | Live => Some (set_osdmap Dangling (free OOsdMap (live s)) s)
      | Dangling => None
      end;
  match ccmAdaptor s with
  | Nil => Some s
  | Live => Some (set_adaptor Nil (free OAdaptor (live s)) s)
  | Dangling => None
  end.

(** Everything is up. *)
Definition up (kr : bytes) : t :=
  {| ccmAdaptor := Live; msger := Live; dispatcher := Live; osdmap := Live;
         live := [OMsgr; OOsdMap; OAdaptor; OContext; OMessenger; ODispatcher]; keyring := Some kr; running := true;
         mon_up := true; mgr_up := true; sub_want := [bs "osdmap"; bs "mgrmap"]; joinable := true |}.

(** Does each part succeed? *)
Definition parts (e : env) (confPath : bytes) : list bool :=
  [ccm_ok e; parse_config_files e confPath =? 0; msger_ok e; disp_ok e; 0 <=? build_initial_monmap e;
   mon_init e =? 0; authenticate e =? 0].

Definition first_failure (l : list bool) : option nat := fst <$> list_find (fun b => b = false) l.

(** What is left behind, and by nothing reachable, when part [k] is the first to fail. *)
Definition leftover (k : nat) : list object :=
  match k with
  | 0%nat => [OMsgr; OOsdMap]
  | 3%nat => [OMsgr; OOsdMap; OAdaptor; OContext; OMessenger]
  | _ => [OMsgr; OOsdMap; OAdaptor; OContext]
  end.

(** How [Start] ends when [InitDispatcher] gets to run. *)
Definition before_dispatcher (kr : bytes) : t :=
  {| ccmAdaptor := Live; msger := Live; dispatcher := Nil; osdmap := Live;
     live := [OMsgr; OOsdMap; OAdaptor; OContext; OMessenger]; keyring := Some kr; running := false; mon_up := false;
     mgr_up := false; sub_want := []; joinable := false |}.
Definition taken_down (kr : bytes) : t :=
  {| ccmAdaptor := Live; msger := Nil; dispatcher := Dangling; osdmap := Live;
     live := [OMsgr; OOsdMap; OAdaptor; OContext]; keyring := Some kr; running := false; mon_up := false;
     mgr_up := false; sub_want := []; joinable := false |}.

Lemma InitDispatcher_spec e kr : InitDispatcher e (before_dispatcher kr) =
  if disp_ok e then
    if build_initial_monmap e <? 0 then (build_initial_monmap e, taken_down kr)
    else if negb (mon_init e =? 0) then (mon_init e, taken_down kr)
    else if negb (authenticate e =? 0) then (authenticate e, taken_down kr)
    else (0, set_joinable false (up kr))
  else (- ENOMEM, before_dispatcher kr).
Proof.
  unfold InitDispatcher. destruct (disp_ok e); [|reflexivity]. cbn [negb].
  destruct (build_initial_monmap e <? 0); [reflexivity|]. destruct (negb (mon_init e =? 0)); [reflexivity|].
  destruct (negb (authenticate e =? 0)); reflexivity.
Qed.

Lemma Start_spec e confPath kr : Start e confPath kr new_msgr =
  if ccm_ok e then
    if parse_config_files e confPath =? 0 then
      if msger_ok e then andthen (InitDispatcher e (before_dispatcher kr)) (fun s => (0, set_joinable true s))
      else (-1, set_msger Nil false [OMsgr; OOsdMap; OAdaptor; OContext] (before_dispatcher kr))
    else (-1, set_msger Nil false [OMsgr; OOsdMap; OAdaptor; OContext] (set_keyring None [] (before_dispatcher kr)))
  else (-1, new_msgr).
Proof.
  unfold Start, InitCCMAdaptor. destruct (ccm_ok e); [|reflexivity]. cbn [andthen negb Z.eqb]. unfold InitCephContext.
  destruct (parse_config_files e confPath =? 0) eqn:E; cbn [negb andthen]; rewrite ?E; [|reflexivity].
  unfold InitMessenger. destruct (msger_ok e); [|reflexivity]. reflexivity.
Qed.

Ltac fails_here :=
  eexists; split; [reflexivity|]; split_and!; [reflexivity..|]; split; intros Hx; cbn in Hx; cbn; first [reflexivity|discriminate|lia].

(** The client stack comes up as a whole or is taken down again.  If every part
    succeeds, [InitProxyMsgr] hands out a messenger with everything up, subscribed to
    both maps, and its destructor can then release all of it but the Ceph context.  If
    part [k] is the first to fail, the result is -1, no handler is stored, and neither
    messenger nor monitor client is left running; but the [ProxyMsgr] itself and the
    objects of [leftover k] leak, and after a failure in the dispatcher the destructor
    could not have been used to release them: its pointer dangles. *)
Theorem init_msgr_all_or_nothing (e : env) (confPath keyringPath : bytes) :
  match first_failure (parts e confPath) with
  | None => exists s s', InitProxyMsgr e confPath keyringPath true = (0, Some s, Some s) /\ s = up keyringPath /\
      destroy_rest s = Some s' /\ live s' = [OMsgr; OContext] /\ running s' = false /\ mon_up s' = false /\ mgr_up s' = false
  | Some k => exists s, InitProxyMsgr e confPath keyringPath true = (-1, None, Some s) /\ live s = leftover k /\
      running s = false /\ mon_up s = false /\ joinable s = false /\ (destroy_rest s = None <-> (4 <= k)%nat)
  end.
Proof.
  unfold InitProxyMsgr. cbn [negb]. rewrite Start_spec, InitDispatcher_spec. unfold first_failure, parts.
  destruct (ccm_ok e); cbn; [|by fails_here].
  destruct (parse_config_files e confPath =? 0); cbn; [|by fails_here].
  destruct (msger_ok e); cbn; [|by fails_here].
  destruct (disp_ok e); cbn; [|by fails_here].
  rewrite Z.leb_antisym. destruct (build_initial_monmap e <? 0) eqn:E; cbn.
  { bprop. replace (build_initial_monmap e =? 0) with false by lia. by fails_here. }
  destruct (mon_init e =? 0) eqn:E1; cbn; rewrite ?E1; [|by fails_here].
  destruct (authenticate e =? 0) eqn:E2; cbn; rewrite ?E2; [|by fails_here].
  do 2 eexists. by split_and!.
Qed.
End MsgrStart.

(** ** The thread that polls, and the destructor *)
Module PollThread.
Import MsgrStart.

(** Where the thread is; [Query]: in [CephDf], which uses the dispatcher. *)
Inductive pc := Born | Test | Query | Wait | Exited.

(** Where [~ProxyMsgr] is: not called, at [if (pollThreadFlag)], ..., at the members,
    done. *)
Inductive dpc := Alive | DTest | DClear | DComplete | DJoin | DRest | DMembers | Freed.

(** [done]: [threadCV] was completed, so that its waits return at once.  [seconds]: how
    long the thread waits unless that happens. *)
Record t := { msgr : MsgrStart.t; pollThreadFlag : bool; done : bool; seconds : Z; thread : pc; destructor : dpc }.

Inductive error := Terminate | UseAfterFree.
Inductive result := Ok (s : t) | Blocked | Fault (e : error).

(** How [CephDf] ends, an exception included; the wait of the thread ends; the
    destructor goes on. *)
Inductive label := Run (df : PoolQuery.res Z) | Wake | Destroy.

Definition go (p : pc) (s : t) : t :=
  {| msgr := msgr s; pollThreadFlag := pollThreadFlag s; done := done s; seconds := seconds s; thread := p; destructor := destructor s |}.
Definition at_ (d : dpc) (s : t) : t :=
  {| msgr := msgr s; pollThreadFlag := pollThreadFlag s; done := done s; seconds := seconds s; thread := thread s; destructor := d |}.
Definition set_flag (b : bool) (s : t) : t :=
  {| msgr := msgr s; pollThreadFlag := b; done := done s; seconds := seconds s; thread := thread s; destructor := destructor s |}.
Definition set_done (s : t) : t :=
  {| msgr := msgr s; pollThreadFlag := pollThreadFlag s; done := true; seconds := seconds s; thread := thread s; destructor := destructor s |}.
Definition set_seconds (n : Z) (s : t) : t :=
  {| msgr := msgr s; pollThreadFlag := pollThreadFlag s; done := done s; seconds := n; thread := thread s; destructor := destructor s |}.
Definition set_msgr (m : MsgrStart.t) (s : t) : t :=
  {| msgr := m; pollThreadFlag := pollThreadFlag s; done := done s; seconds := seconds s; thread := thread s; destructor := destructor s |}.

Definition DEFAULT_NM_SLEEP_TIME : Z := 10.
Definition DEFAULT_ABNM_SLEEP_TIME : Z := 2.

(** A step of [PollThread]. *)
Definition thread_step (df : PoolQuery.res Z) (s : t) : result :=
  match destructor s, thread s with
  | _, Exited => Blocked
  | Freed, _ => Fault UseAfterFree
  | _, Born => Ok (go Test (set_flag true s))
  | _, Test => Ok (go (if pollThreadFlag s then Query else Exited) s)
  | _, Query =>
      match dispatcher (msgr s), df with
      | Live, inr ret => Ok (go Wait (set_seconds (if ret <? 0 then DEFAULT_ABNM_SLEEP_TIME else DEFAULT_NM_SLEEP_TIME) s))
      | Live, inl _ => Fault Terminate            (* nobody catches it *)
      | _, _ => Fault UseAfterFree
      end
  | _, Wait => Blocked                            (* see [Wake] *)
  end.

(** A step of [delete msgr]; [std::thread] insists on having been joined. *)
Definition destroy_step (s : t) : result :=
  match destructor s with
  | Alive => Ok (at_ DTest s)
  | DTest => Ok (at_ (if pollThreadFlag s then DClear else DRest) s)
  | DClear => Ok (at_ DComplete (set_flag false s))
  | DComplete => Ok (at_ DJoin (set_done s))
  | DJoin => if joinable (msgr s)
             then match thread s with
                  | Exited => Ok (at_ DRest (set_msgr (set_joinable false (msgr s)) s))
                  | _ => Blocked
                  end
             else Fault Terminate                  (* [std::system_error] out of a destructor *)
  | DRest => match destroy_rest (msgr s) with
             | Some m => Ok (at_ DMembers (set_msgr m s))
             | None => Fault UseAfterFree
             end
  | DMembers => if joinable (msgr s) then Fault Terminate else
                Ok (at_ Freed (set_msgr (set_adaptor (ccmAdaptor (msgr s)) (free OMsgr (live (msgr s))) (msgr s)) s))
  | Freed => Fault UseAfterFree
  end.

Definition step (a : label) (s : t) : result :=
  match a with
  | Run df => thread_step df s
  | Wake => match thread s with
            | Wait => match destructor s with Freed => Fault UseAfterFree | _ => Ok (go Test s) end
            | _ => Blocked
            end
  | Destroy => destroy_step s
  end.

(** After [Start]; the constructor leaves [pollThreadFlag] without a value: [g]. *)
Definition init (g : bool) (m : MsgrStart.t) : t :=
  {| msgr := m; pollThreadFlag := g; done := false; seconds := 0; thread := Born; destructor := Alive |}.

Fixpoint run (tr : list label) (s : t) : option t :=
  match tr with
  | [] => Some s
  | a :: tr' => match step a s with Ok s' => run tr' s' | _ => None end
  end.

(** No exception out of [CephDf], and no second [delete]. *)
Definition polite (s : t) (a : label) : Prop :=
  match a with Run (inl _) => thread s <> Query | Destroy => destructor s <> Freed | _ => True end.

Definition is_thread (a : label) : bool := match a with Destroy => false | _ => true end.

(** ** Invariant *)
Section poll.
Context (kr : bytes).

(** The object once it was joined, and once its parts are gone. *)
Definition joined : MsgrStart.t := set_joinable false (up kr).

Definition inv (s : t) : Prop :=
  match destructor s with
  | Alive | DTest | DClear => msgr s = up kr /\ pollThreadFlag s = true /\ thread s <> Born /\ thread s <> Exited
  | DComplete | DJoin => msgr s = up kr /\ pollThreadFlag s = false /\ thread s <> Born
  | DRest => msgr s = joined /\ thread s = Exited
  | DMembers => destroy_rest joined = Some (msgr s) /\ thread s = Exited
  | Freed => live (msgr s) = [OContext] /\ thread s = Exited
  end.

Lemma inv_fine a s : inv s -> polite s a -> match step a s with Ok s' => inv s' | Blocked => True | Fault _ => False end.
Proof.
  intros Hi Hp. destruct s as [m f dn sec p d]. unfold inv in Hi. cbn [destructor msgr pollThreadFlag thread] in Hi.
  destruct a as [df| |]; cbn [step]; unfold thread_step, destroy_step; cbn [destructor thread msgr pollThreadFlag].
  - assert (p <> Query \/ exists r, df = inr r) as Hdf by (destruct df; [left; exact Hp|right; by eexists]).
    destruct d, p; cbn; try done; unfold inv; cbn; naive_solver.
  - destruct d, p; try done; unfold inv; cbn; naive_solver.
  - destruct d; cbn in Hi, Hp; try done; [..|destruct Hi as (Hm & ->); injection Hm as <-; by unfold inv; cbn; split_and!];
      destruct Hi as (-> & Hi); try destruct Hi as (-> & Hi); cbn.
    all: try (unfold inv; cbn; naive_solver).
    destruct p; try done; unfold inv; cbn; naive_solver.
Qed.

Lemma poll_inv_run tr s s' : inv s -> run tr s = Some s' -> inv s'.
Proof.
  revert s. induction tr as [|a tr IH]; intros s Hi Hr; cbn in Hr; [by injection Hr as <-|].
  destruct (step a s) as [s1| |] eqn:E; [|done..]. apply (IH s1); [|done].
  assert (polite s a) as Hp.
  { destruct a as [[x|r]| |]; cbn in *; try done; intros Hf; unfold thread_step, destroy_step in E; rewrite Hf in E;
      [|done]. destruct (destructor s); try done; by destruct (dispatcher (msgr s)). }
  pose proof (inv_fine a s Hi Hp) as H. by rewrite E in H.
Qed.
(** ** The thread ends *)

(** Steps the thread can still take once the flag is cleared. *)
Definition left (p : pc) : nat := match p with Query => 3 | Wait => 2 | Test => 1 | _ => 0 end.

Lemma left_step a s s' : step a s = Ok s' -> pollThreadFlag s = false -> thread s <> Born ->
  pollThreadFlag s' = false /\ thread s' <> Born /\ (left (thread s') + (if is_thread a then 1 else 0) <= left (thread s))%nat.
Proof.
  intros Hs Hf Hb. destruct s as [m f dn sec p d]; cbn in Hf, Hb; subst f. destruct a as [df| |]; cbn in Hs.
  - unfold thread_step in Hs. cbn in Hs. destruct d, p; try done; try (injection Hs as <-; cbn; split_and!; [done..|lia]);
      (destruct (dispatcher m), df; try done; injection Hs as <-; cbn; split_and!; [done..|lia]).
  - destruct d, p; try done; injection Hs as <-; cbn; split_and!; [done..|lia].
  - unfold destroy_step in Hs. cbn in Hs. destruct d; try done; try (injection Hs as <-; cbn; split_and!; [done..|lia]).
    + destruct (joinable m), p; try done; injection Hs as <-; cbn; split_and!; [done..|lia].
    + destruct (destroy_rest m); [|done]. injection Hs as <-; cbn; split_and!; [done..|lia].
    + destruct (joinable m); [done|]. injection Hs as <-; cbn; split_and!; [done..|lia].
Qed.

Lemma left_run tr s s' : run tr s = Some s' -> pollThreadFlag s = false -> thread s <> Born ->
  (length (filter (fun a => is_thread a = true) tr) <= left (thread s))%nat.
Proof.
  revert s. induction tr as [|a tr IH]; intros s Hr Hf Hb; cbn in Hr; [cbn; lia|].
  destruct (step a s) as [s1| |] eqn:E; [|done..]. destruct (left_step _ _ _ E Hf Hb) as (Hf1 & Hb1 & Hl).
  specialize (IH s1 Hr Hf1 Hb1). rewrite filter_cons. destruct (is_thread a); cbn in *; [|case_decide; [done|lia]].
  rewrite decide_True by done. cbn. lia.
Qed.

(** From where the destructor is to its join, and the steps that are left to the thread. *)
Definition to_join (d : dpc) : list label :=
  replicate (match d with Alive => 4 | DTest => 3 | DClear => 2 | DComplete => 1 | _ => 0 end) Destroy.
Definition to_exit (p : pc) : list label :=
  match p with Test => [Run (inr 0)] | Query => [Run (inr 0); Wake; Run (inr 0)] | Wait => [Wake; Run (inr 0)] | _ => [] end.
Definition to_end (d : dpc) : list label :=
  replicate (match d with Freed => 0 | DMembers => 1 | DRest => 2 | _ => 3 end) Destroy.

Lemma destructor_ends s : inv s -> exists tr s', run tr s = Some s' /\ destructor s' = Freed /\ live (msgr s') = [OContext].
Proof.
  intros Hi. set (tr := to_join (destructor s) ++ to_exit (thread s) ++ to_end (destructor s)).
  assert (match run tr s with Some s' => destructor s' = Freed /\ live (msgr s') = [OContext] | None => False end) as H.
  { subst tr. destruct s as [m f dn sec p d]. unfold inv in Hi. cbn in Hi. cbn [destructor thread].
    destruct d;
      [destruct Hi as (-> & -> & H1 & H2); destruct p; [by destruct H1| | | |by destruct H2]..
      |destruct Hi as (-> & -> & H1); destruct p; [by destruct H1| | | |]
      |destruct Hi as (-> & -> & H1); destruct p; [by destruct H1| | | |]
      |destruct Hi as (-> & ->)|destruct Hi as (Hm & ->); injection Hm as <-|destruct Hi as (Hm & ->)];
      vm_compute; (split; [reflexivity|]); first [reflexivity|exact Hm]. }
  destruct (run tr s) as [s'|] eqn:E; [|done]. by exists tr, s'.
Qed.

(** C39: once the polling thread has announced itself, the messenger can be deleted at
    any time.  In every interleaving of its steps with the destructor's, as long as the
    answers of the monitors parse, nothing faults -- the thread never polls through a
    deleted dispatcher, [std::thread] is joined before it goes away; from the moment the
    flag is cleared the thread takes at most three more steps; and from every state the
    destructor can run to its end, leaving only the Ceph context allocated. *)
Theorem poll_thread_joins (g : bool) (df : PoolQuery.res Z) (tr : list label) (s : t)
  (Hr : run (Run df :: tr) (init g (up kr)) = Some s) :
  (forall a, polite s a -> forall e, step a s <> Fault e) /\
  (pollThreadFlag s = false -> forall tr' s', run tr' s = Some s' ->
     (length (filter (fun a => is_thread a = true) tr') <= 3)%nat) /\
  (exists tr' s', run tr' s = Some s' /\ destructor s' = Freed /\ live (msgr s') = [OContext]).
Proof.
  cbn [run] in Hr. change (step (Run df) (init g (up kr))) with (Ok (go Test (set_flag true (init g (up kr))))) in Hr.
  assert (inv s) as Hi by (eapply poll_inv_run; [|exact Hr]; by unfold inv; cbn). split; [|split].
  - intros a Ha e He. pose proof (inv_fine a s Hi Ha) as H. by rewrite He in H.
  - intros Hf tr' s' Hr'. assert (thread s <> Born) as Hb.
    { unfold inv in Hi. destruct (destructor s); naive_solver congruence. }
    pose proof (left_run _ _ _ Hr' Hf Hb) as H. destruct (thread s); cbn in H; lia.
  - by apply destructor_ends.
Qed.

(** Deleted before the thread ran, the flag has the value the memory had.  Read as false,
    the thread is never joined, and [std::terminate] is called; read as true, the thread
    sets it again after the destructor has cleared it, and the join never returns. *)
Lemma deleted_before_first_poll :
  (exists s, run [Destroy; Destroy; Destroy] (init false (up kr)) = Some s /\ step Destroy s = Fault Terminate) /\
  (forall tr s, run ([Destroy; Destroy; Destroy; Destroy; Run (inr 0)] ++ tr) (init true (up kr)) = Some s ->
     destructor s = DJoin /\ thread s <> Exited).
Proof.
  split; [by eexists|]. intros tr s Hr. cbn in Hr. set (s0 := go _ _) in Hr.
  enough (destructor s = DJoin /\ thread s <> Exited /\ thread s <> Born /\ pollThreadFlag s = true /\ joinable (msgr s) = true) by tauto.
  assert (destructor s0 = DJoin /\ thread s0 <> Exited /\ thread s0 <> Born /\ pollThreadFlag s0 = true /\ joinable (msgr s0) = true) as H0
    by by split_and!.
  revert H0 Hr. generalize s0. clear s0. induction tr as [|a tr IH]; intros s1 H1 Hr; cbn in Hr; [by injection Hr as <-|].
  destruct (step a s1) as [s2| |] eqn:E; [|done..]. apply (IH s2); [|done]. destruct H1 as (Hd & He & Hb & Hf & Hj).
  destruct a as [df| |]; cbn in E.
  - unfold thread_step in E. rewrite Hd, Hf in E. destruct (thread s1); try done; [by injection E as <-|].
    destruct (dispatcher (msgr s1)), df; try done. by injection E as <-.
  - rewrite Hd in E. destruct (thread s1); try done. by injection E as <-.
  - unfold destroy_step in E. rewrite Hd, Hj in E. by destruct (thread s1).
Qed.
End poll.

Lemma poll_thread_joins_witness :
  exists s tr' s', run [Run (inr 0); Run (inr 0); Run (inr (-5)); Destroy; Destroy; Destroy] (init true (up (bs "keyring"))) = Some s /\
    destructor s = DComplete /\ run tr' s = Some s' /\ destructor s' = Freed.
Proof.
  eexists.
  epose proof (poll_thread_joins (bs "keyring") true (inr 0) [Run (inr 0); Run (inr (-5)); Destroy; Destroy; Destroy] _
    ltac:(reflexivity)) as (_ & _ & tr' & s' & H1 & H2 & _).
  exists tr', s'. split; [reflexivity|]. split; [reflexivity|]. split; [exact H1|exact H2].
Defined.
End PollThread.
