(* ===== verification/RadosMonitor.v ===== *)
(** * [RadosMonitor.cc]: the usage statistics of the pools

    A timer reads the text table of [ceph df] every few seconds: [PoolUsageStat]
    records each line in [tmpPoolInfoMap], [Compare] publishes the result in
    [poolInfoMap], and the pools seen are reported to the cluster manager.
    [Regex] is [std::regex_match]; a [double] is an IEEE 754 number with the
    rounding of [SpecFloat]; the monitors' answers are the record [cluster].
    [None] is a round that does not end normally: an exception nobody catches, or
    a conversion of a [double] to an integer it does not fit. *)

From Stdlib Require Import Floats.SpecFloat.
From stdpp Require Import sorting.
From S2P Require Import Prelude CStr Regex CephMsgr.
Import Regex.

Module RadosMonitor.

Definition KIB_NUM : Z := 1024.
Definition MIB_NUM : Z := KIB_NUM * 1024.
Definition GIB_NUM : Z := MIB_NUM * 1024.
Definition TIB_NUM : Z := GIB_NUM * 1024.
Definition PIB_NUM : Z := TIB_NUM * 1024.
Definition defaultStripeUnit : Z := 4096.
Definition defaultECKInReplica : Z := 1.
Definition defaultECMInReplica : Z := 2.

(** ** Doubles *)

Definition of_u64 (n : Z) : spec_float := binary_normalize 53 1024 n 0 false.
Definition fmul : spec_float -> spec_float -> spec_float := SFmul 53 1024.
Definition fdiv : spec_float -> spec_float -> spec_float := SFdiv 53 1024.

(** [(uint64_t)x]: truncation, undefined outside the range of [uint64_t]. *)
Definition to_u64 (x : spec_float) : option Z :=
  match x with
  | S754_zero _ => Some 0
  | S754_finite neg m e =>
      let v := Z.shiftl (Zpos m) e in
      if neg then (if v =? 0 then Some 0 else None) else if v <? 2 ^ 64 then Some v else None
  | _ => None
  end.

(** [(float)x] *)
Definition to_float (x : spec_float) : spec_float :=
  match x with
  | S754_finite s m e => binary_normalize 24 128 (cond_Zopp s (Zpos m)) e s
  | _ => x
  end.

(** The double nearest to [n / 10^k]. *)
Definition decimal (n k : Z) : spec_float :=
  if n =? 0 then S754_zero false
  else let '(q, e, l) := SFdiv_core_binary 53 1024 n 0 (10 ^ k) 0 in binary_round_aux 53 1024 false q e l.

Definition point (x : ascii) : bool := Ascii.eqb x "."%char.

(** [strtod] on what the patterns below let through, digits with at most one
    point; the flag is [errno == ERANGE || end == src]. *)
Definition strtod (s : bytes) : spec_float * bool :=
  let s := c_str s in
  let '(n1, c1) := digits 10 0 s in
  let '(n, c2) := match drop (Z.to_nat c1) s with
                  | x :: r => if point x then digits 10 n1 r else (n1, 0)
                  | [] => (n1, 0)
                  end in
  if c1 + c2 =? 0 then (S754_zero false, true)
  else
    let d := decimal n c2 in
    (d, match d with
        | S754_infinity _ => true
        | _ => (0 <? n) && (n * 2 ^ 1022 <? 10 ^ c2)     (* below the normal numbers *)
        end).

(** ** The patterns *)

Definition df_num : re := Seq (Plus (Chr digit)) (Seq (Opt (Chr point)) (Star (Chr digit))).
Definition df_num0 : re := Seq (Star (Chr digit)) (Seq (Opt (Chr point)) (Star (Chr digit))).
Definition units : re :=
  Alt (lit (bs "TiB")) (Alt (lit (bs "GiB")) (Alt (lit (bs "MiB")) (Alt (lit (bs "KiB")) (lit (bs "B"))))).

Definition poolNamePattern (r : re) : re := Seq (Star sp) (Seq (Cap 1 (Star (Chr nonspace))) (Seq (Star sp) r)).
Definition poolIdPattern (r : re) : re := Seq (Cap 2 (Plus (Chr digit))) (Seq (Plus sp) r).
Definition storedPattern (r : re) : re := Seq (Cap 3 df_num) (Seq sp (Seq (Star (Cap 4 units)) (Seq (Star sp) r))).
Definition objectsPattern (r : re) : re :=
  Seq (Cap 5 df_num) (Seq (Star (Cap 6 (Alt (lit (bs "k")) (lit (bs "M"))))) (Seq (Star sp) r)).
Definition usedPattern (r : re) : re := Seq (Cap 7 df_num0) (Seq sp (Seq (Star (Cap 8 units)) (Seq (Star sp) r))).
Definition usedRatioPattern (r : re) : re := Seq (Cap 9 df_num0) (Seq (Star sp) r).
Definition availPattern : re := Seq (Cap 10 df_num0) (Seq sp (Seq (Cap 11 units) (Star (Chr dot)))).

(** The concatenation of the seven. *)
Definition row_pattern : re :=
  poolNamePattern (poolIdPattern (storedPattern (objectsPattern (usedPattern (usedRatioPattern availPattern))))).

(** [(\d+)\s?(\w+)?] *)
Definition size_pattern : re :=
  Seq (Cap 1 (Plus (Chr digit))) (Seq (Opt sp) (Opt (Cap 2 (Plus (Chr word))))).

(** ** Numbers with units *)

Definition TransStrUnitToNum (strUnit : bytes) : Z :=
  let named u := bytes_eqb strUnit (bs u) in
  if named "PiB" then PIB_NUM
  else if named "TiB" then TIB_NUM
  else if named "GiB" || named "G" then GIB_NUM
  else if named "MiB" || named "M" then MIB_NUM
  else if named "KiB" || named "K" then KIB_NUM
  else 1.

(** [num] keeps its value on failure. *)
Definition TransStrToNum (strNum : bytes) (num : Z) : Z :=
  match regex_match size_pattern strNum with
  | Some c =>
      let r := strtol 10 (group c 1) in
      if st_erange r || st_nodigits r then num
      else u64 (u32 (st_val r) * TransStrUnitToNum (c_str (group c 2)))
  | None => num
  end.

(** ** The state *)

(** [PoolUsageInfo]; its field [version] is never used. *)
Record PoolUsageInfo := {
  storedSize : Z; objectsNum : Z; usedSize : Z; useRatio : spec_float; maxAvail : Z;
  k : Z; m : Z; stripeUnit : Z; isEC : bool
}.
Definition no_usage : PoolUsageInfo :=
  {| storedSize := 0; objectsNum := 0; usedSize := 0; useRatio := S754_zero false; maxAvail := 0;
     k := 0; m := 0; stripeUnit := 0; isEC := false |}.

(** [PoolUsageStat] *)
Record t := {
  poolInfoMap : gmap Z PoolUsageInfo; tmpPoolInfoMap : gmap Z PoolUsageInfo;
  poolList : list Z; globalStripeSize : Z
}.
Definition init : t := {| poolInfoMap := ∅; tmpPoolInfoMap := ∅; poolList := []; globalStripeSize := 0 |}.

(** What the monitors answer in one round: [df], the profile of a pool, a
    profile, the default stripe unit, and per pool the number of objects and of
    copies ([None] when the pool's context or its statistics cannot be had); and whether
    the copies of the texts that are cut into lines can be made. *)
Record cluster := {
  df : Z * bytes; pool_get : bytes -> Z * bytes; profile_get : bytes -> Z * bytes;
  stripe_cfg : Z * bytes; pool_stat : Z -> option (Z * Z);
  copy_df : bool; copy_profile : bytes -> bool
}.

Record RecordInfo := {
  r_poolId : Z; r_storedSize : spec_float; r_storedSizeUnit : Z; r_objectsNum : spec_float; r_numUnit : Z;
  r_usedSize : spec_float; r_usedSizeUnit : Z; r_maxAvail : spec_float; r_maxAvailUnit : Z;
  r_useRatio : spec_float; r_poolName : bytes; r_profile : bytes; r_isEC : bool
}.
(** The part of [RecordInfo] that [CalPoolSize] fills in. *)
Record PoolSize := { ec_k : Z; ec_m : Z; s_stripeUnit : Z; rep : spec_float }.

(** ** One line of the table *)

(** An error, or whether the pool is erasure coded and its profile. *)
Definition IsECPool (e : cluster) (poolName : bytes) : Z + bool * bytes :=
  let '(ret, out) := pool_get e poolName in
  if ret <? 0 then (if ret =? - EACCES then inr (false, []) else inl ret)
  else match regex_match profile_pattern out with
       | Some c => inr (true, c_str (group c 1))
       | None => inl (-1)
       end.

(** [StrToInt] *)
Definition StrToInt (s : bytes) : Z * bool :=
  let r := strtol 10 (c_str s) in (s32 (st_val r), st_erange r || st_nodigits r).

(** [None]: -1. *)
Definition ParseToRecordInfo (e : cluster) (result : caps) : option RecordInfo :=
  let str i := group result i in
  let '(id, bad) := StrToInt (str 2%nat) in
  if bad then None else if id <? 0 then None else
  let '(stored, bad) := strtod (str 3%nat) in if bad then None else
  let '(objects, bad) := strtod (str 5%nat) in if bad then None else
  let magnitude := c_str (str 6%nat) in
  let numUnit := if len (str 6%nat) =? 0 then 1
                 else if bytes_eqb magnitude (bs "k") then 1024
                 else if bytes_eqb magnitude (bs "m") then 1024 * 1024 else 1 in
  let '(used, bad) := strtod (str 7%nat) in if bad then None else
  let '(ratio, bad) := strtod (str 9%nat) in if bad then None else
  let '(avail, bad) := strtod (str 10%nat) in if bad then None else
  match IsECPool e (c_str (str 1%nat)) with
  | inl _ => None
  | inr (ec, profile) =>
      Some {| r_poolId := u32 id; r_storedSize := stored;
              r_storedSizeUnit := TransStrUnitToNum (c_str (str 4%nat));
              r_objectsNum := objects; r_numUnit := numUnit; r_usedSize := used;
              r_usedSizeUnit := TransStrUnitToNum (c_str (str 8%nat)); r_maxAvail := avail;
              r_maxAvailUnit := TransStrUnitToNum (c_str (str 11%nat)); r_useRatio := ratio;
              r_poolName := c_str (str 1%nat); r_profile := profile; r_isEC := ec |}
  end.

(** [unit.replace(unit.find("\n"), 1, "")]: throws when there is no newline. *)
Fixpoint drop_newline (s : bytes) : option bytes :=
  match s with
  | [] => None
  | x :: s' => if Ascii.eqb x newline then Some s' else s'' ← drop_newline s'; Some (x :: s'')
  end.

Definition GetDefaultECStripeUnit (e : cluster) : option Z :=
  let '(ret, out) := stripe_cfg e in
  if ret <? 0 then Some (u32 ret)
  else
    unit ← drop_newline out;
    let num := TransStrToNum unit 0 in
    Some (if num =? 0 then defaultStripeUnit else u32 num).

(** The stripe unit in use, fetched when [globalStripeSize] is 0; both. *)
Definition stripe_size (e : cluster) (global : Z) : option (Z * Z) :=
  if global =? 0 then u ← GetDefaultECStripeUnit e; Some (u, u) else Some (global, global).

Definition ParseECProfile (line : bytes) (z : Z * Z * Z) : Z * Z * Z :=
  let '(k, m, su) := z in
  match regex_match assign_pattern line with
  | None => z
  | Some c =>
      let v := group c 2 in
      if bytes_eqb (group c 1) (bs "k") then (u32 (st_val (strtol 10 v)), m, su)
      else if bytes_eqb (group c 1) (bs "m") then (k, u32 (st_val (strtol 10 v)), su)
      else if bytes_eqb (group c 1) (bs "stripe_unit") then
        let val := TransStrToNum (c_str v) 0 in
        (k, m, if val =? 0 then su else u32 val)
      else z
  end.

(** The sizes of a profile and [globalStripeSize] afterwards. *)
Definition GetECProfileSize (e : cluster) (profile : bytes) (global : Z) : option ((Z + Z * Z * Z) * Z) :=
  let '(ret, out) := profile_get e profile in
  if negb (ret =? 0) then Some (inl ret, global)
  else
    '(su, global) ← stripe_size e global;
    Some (if negb (copy_profile e profile) then inl (- ENOMEM) else
          inr (fold_left (fun z l => ParseECProfile l z) (strtok (is_char newline) (c_str out)) (0, 0, su)), global).

Definition GetPoolReplicationSize (e : cluster) (poolId : Z) : option spec_float :=
  '(objects, copies) ← pool_stat e poolId;
  Some (if (objects =? 0) || (copies =? 0) then of_u64 3 else fdiv (of_u64 copies) (of_u64 objects)).

Definition CalPoolSize (e : cluster) (info : RecordInfo) (global : Z) : option ((Z + PoolSize) * Z) :=
  if r_isEC info then
    '(r, global) ← GetECProfileSize e (r_profile info) global;
    Some (match r with
          | inl _ => inl (-1)
          | inr (k, m, su) => inr {| ec_k := k; ec_m := m; s_stripeUnit := su;
                                     rep := fdiv (of_u64 (u32 (k + m))) (of_u64 k) |}
          end, global)
  else
    '(su, global) ← stripe_size e global;
    Some (match GetPoolReplicationSize e (r_poolId info) with
          | None => inl (-1)
          | Some r => inr {| ec_k := defaultECKInReplica; ec_m := defaultECMInReplica;
                             s_stripeUnit := su; rep := r |}
          end, global).

(** The values [Record] stores. *)
Definition usage_of (i : RecordInfo) (z : PoolSize) : option PoolUsageInfo :=
  stored ← to_u64 (fmul (r_storedSize i) (of_u64 (r_storedSizeUnit i)));
  objects ← to_u64 (fmul (r_objectsNum i) (of_u64 (r_numUnit i)));
  used ← to_u64 (fmul (r_usedSize i) (of_u64 (r_usedSizeUnit i)));
  avail ← to_u64 (fmul (fmul (r_maxAvail i) (of_u64 (r_maxAvailUnit i))) (rep z));
  Some {| storedSize := stored; objectsNum := objects; usedSize := used; useRatio := to_float (r_useRatio i);
          maxAvail := avail; k := ec_k z; m := ec_m z; stripeUnit := s_stripeUnit z; isEC := r_isEC i |}.

(** [Record] up to its critical section: an error or the pool and its values. *)
Definition pool_entry (e : cluster) (result : caps) (global : Z) : option ((Z + Z * PoolUsageInfo) * Z) :=
  match ParseToRecordInfo e result with
  | None => Some (inl (-1), global)
  | Some info =>
      '(r, global) ← CalPoolSize e info global;
      match r with
      | inl ret => Some (inl ret, global)
      | inr z => u ← usage_of info z; Some (inr (r_poolId info, u), global)
      end
  end.

Definition set_stripe (g : Z) (s : t) : t :=
  {| poolInfoMap := poolInfoMap s; tmpPoolInfoMap := tmpPoolInfoMap s; poolList := poolList s; globalStripeSize := g |}.

Definition Record_ (e : cluster) (result : caps) (s : t) : option (Z * t) :=
  '(r, g) ← pool_entry e result (globalStripeSize s);
  Some match r with
       | inl ret => (ret, set_stripe g s)
       | inr (id, u) => (0, {| poolInfoMap := poolInfoMap s; tmpPoolInfoMap := <[id := u]> (tmpPoolInfoMap s);
                               poolList := poolList s ++ [id]; globalStripeSize := g |})
       end.

(** ** A round *)

(** One pool of [poolList]; [tmpPoolInfoMap[poolId]] would create it. *)
Definition update_one (s : t) (id : Z) : t :=
  let u := default no_usage (tmpPoolInfoMap s !! id) in
  {| poolInfoMap := <[id := u]> (poolInfoMap s); tmpPoolInfoMap := <[id := u]> (tmpPoolInfoMap s);
     poolList := poolList s; globalStripeSize := globalStripeSize s |}.

Definition Compare (s : t) : t :=
  let s := fold_left update_one (poolList s) s in
  {| poolInfoMap := filter (fun p => p.1 ∈ poolList s) (poolInfoMap s);
     tmpPoolInfoMap := tmpPoolInfoMap s; poolList := poolList s; globalStripeSize := globalStripeSize s |}.

(** The loop of [GetPoolStorageUsage]; true when every line was recorded. *)
Fixpoint record_lines (e : cluster) (lines : list bytes) (s : t) : option (bool * t) :=
  match lines with
  | [] => Some (true, s)
  | l :: lines' =>
      match regex_match row_pattern l with
      | None => record_lines e lines' s
      | Some c => '(ret, s) ← Record_ e c s; if ret =? 0 then record_lines e lines' s else Some (false, s)
      end
  end.

Definition df_lines (out : bytes) : list bytes := strtok (is_char newline) (c_str out).

Definition GetPoolStorageUsage (e : cluster) (input : bytes) (s : t) : option (Z * t) :=
  if negb (copy_df e) then Some (- ENOMEM, s) else
  '(ok, s) ← record_lines e (df_lines input) s;
  Some (if ok : bool then (0, Compare s) else (-1, s)).

(** The result, the pools reported to the cluster manager, and the state. *)
Definition UpdatePoolList (malloc_ok : bool) (ccm : CcmAdaptor.t) (s : t) : Z * option (list Z) * t :=
  let '(r, sent) := CcmAdaptor.ReportCreatePool malloc_ok (poolList s) ccm in
  (if negb (r =? 0) then -1 else 0, sent,
   {| poolInfoMap := poolInfoMap s; tmpPoolInfoMap := ∅; poolList := []; globalStripeSize := globalStripeSize s |}).

Definition UpdatePoolUsage (e : cluster) (malloc_ok : bool) (ccm : CcmAdaptor.t) (s : t)
  : option (Z * option (list Z) * t) :=
  if fst (df e) <? 0 then Some (fst (df e), None, s)
  else
    '(ret, s) ← GetPoolStorageUsage e (snd (df e)) s;
    Some (if negb (ret =? 0) then (-1, None, s) else UpdatePoolList malloc_ok ccm s).

(** ** Queries *)

Definition GetPoolUsageInfo (poolId : Z) (poolInfo : option PoolUsageInfo) (s : t) : Z * option PoolUsageInfo :=
  match poolInfo with
  | None => (-22, None)
  | Some old =>
      match poolInfoMap s !! poolId with
      | None => (-1, Some old)
      | Some u => (0, Some {| storedSize := storedSize u; objectsNum := objectsNum u; usedSize := usedSize u;
                              useRatio := useRatio u; maxAvail := maxAvail u; k := k old; m := m old;
                              stripeUnit := stripeUnit old; isEC := isEC old |})
      end
  end.

Definition GetPoolInfo (poolId : Z) (s : t) : Z * option (Z * Z * Z) :=
  match poolInfoMap s !! poolId with
  | Some u => (0, Some (k u, m u, stripeUnit u))
  | None => (- ENOENT, None)
  end.

Definition key_le (p q : Z * PoolUsageInfo) : Prop := p.1 <= q.1.
#[local] Instance key_le_dec p q : Decision (key_le p q).
Proof. unfold key_le. apply _. Defined.

(** The loop over the map, in the order of the ids. *)
Definition GetPoolAllUsedAndAvail (s : t) : Z * Z :=
  let l := map snd (merge_sort key_le (map_to_list (poolInfoMap s))) in
  let first := match l with u :: _ => maxAvail u | [] => 0 end in
  fold_left (fun '(used, avail) u =>
    (u64 (used + usedSize u), if (avail =? 0) && negb (maxAvail u =? 0) then maxAvail u else avail)) l (0, first).

(** ** The manager and its timer *)

(** [joinable]: whether [timer] holds a thread; [exited]: whether that thread has
    left its loop. *)
Record mgr := {
  stats : t; ccm_adaptor : option CcmAdaptor.t; stop : bool; joinable : bool; exited : bool
}.
Definition PoolUsageStat_new : mgr :=
  {| stats := init; ccm_adaptor := None; stop := false; joinable := false; exited := false |}.

Definition RegisterPoolNewNotifyFn (fn : option CcmAdaptor.NotifyPoolEventFn) (g : mgr) : Z * mgr :=
  match ccm_adaptor g with
  | None => (-1, g)
  | Some ccm =>
      let '(ret, ccm) := CcmAdaptor.RegisterPoolCreateReportFn fn ccm in
      (if negb (ret =? 0) then -1 else 0,
       {| stats := stats g; ccm_adaptor := Some ccm; stop := stop g; joinable := joinable g; exited := exited g |})
  end.

Definition set_stats (s : t) (g : mgr) : mgr :=
  {| stats := s; ccm_adaptor := ccm_adaptor g; stop := stop g; joinable := joinable g; exited := exited g |}.

(** [alloc]: whether [new] gives the adaptor.  The result of the first round is
    only logged; then the timer thread starts. *)
Definition Start (alloc : bool) (e : cluster) (malloc_ok : bool) (g : mgr) : option mgr :=
  if negb alloc then
    Some {| stats := stats g; ccm_adaptor := None; stop := stop g; joinable := joinable g; exited := exited g |}
  else
    let ccm := {| CcmAdaptor.notifyCreateFunc := None |} in
    '(_, s) ← UpdatePoolUsage e malloc_ok ccm (stats g);
    if joinable g then None      (* assigning over a running thread terminates *)
    else Some {| stats := s; ccm_adaptor := Some ccm; stop := stop g; joinable := true; exited := false |}.

(** One iteration of the loop of [PoolUsageTimer]. *)
Definition timer_iter (e : cluster) (malloc_ok : bool) (g : mgr) : option mgr :=
  if stop g then
    Some {| stats := stats g; ccm_adaptor := ccm_adaptor g; stop := stop g; joinable := joinable g; exited := true |}
  else
    ccm ← ccm_adaptor g;
    '(_, s) ← UpdatePoolUsage e malloc_ok ccm (stats g);
    Some (set_stats s g).

(** [Stop] sets the flag; [join] throws when there is no thread and returns when
    the thread has left its loop. *)
Definition set_stop (g : mgr) : mgr :=
  {| stats := stats g; ccm_adaptor := ccm_adaptor g; stop := true; joinable := joinable g; exited := exited g |}.
Inductive joined := Thrown | Waiting | Returned (g : mgr).
Definition join (g : mgr) : joined :=
  if negb (joinable g) then Thrown
  else if exited g then
    Returned {| stats := stats g; ccm_adaptor := ccm_adaptor g; stop := stop g; joinable := false; exited := true |}
  else Waiting.

(** [Stop] after a [Start] that could not allocate its adaptor throws. *)
Lemma Stop_without_timer e malloc_ok g : joinable g = false ->
  exists g', Start false e malloc_ok g = Some g' /\ join (set_stop g') = Thrown.
Proof. intros Hg. eexists. split; [reflexivity|]. unfold join, set_stop. cbn. by rewrite Hg. Qed.

(** Otherwise it waits for at most the round under way: the next iteration ends
    the thread without touching the table. *)
Lemma Stop_ends_timer alloc e malloc_ok e' malloc_ok' g g' : alloc = true -> Start alloc e malloc_ok g = Some g' ->
  exists g'', timer_iter e' malloc_ok' (set_stop g') = Some g'' /\ stats g'' = stats g' /\
    exists h, join g'' = Returned h /\ joinable h = false.
Proof.
  intros ->. unfold Start. cbn [negb]. intros ((r & s) & _ & Hg)%bind_Some.
  destruct (joinable g); [done|]. injection Hg as <-.
  eexists. split; [reflexivity|]. split; [reflexivity|]. eexists. by split; reflexivity.
Qed.

(** ** Theorems *)

(** *** The lines of [ceph df] *)




























(** *** The published table *)

(** The pools that [lines] record, in order, from a stripe size [g] to [g']. *)
Inductive rows (e : cluster) : Z -> list bytes -> list (Z * PoolUsageInfo) -> Z -> Prop :=
| rows_nil g : rows e g [] [] g
| rows_skip g l lines es g' :
    regex_match row_pattern l = None -> rows e g lines es g' -> rows e g (l :: lines) es g'
| rows_add g l lines c p g1 es g' :
    regex_match row_pattern l = Some c -> pool_entry e c g = Some (inr p, g1) ->
    rows e g1 lines es g' -> rows e g (l :: lines) (p :: es) g'.

Definition put_rows (es : list (Z * PoolUsageInfo)) (m : gmap Z PoolUsageInfo) : gmap Z PoolUsageInfo :=
  fold_left (fun m p => <[p.1 := p.2]> m) es m.

(** [tmpPoolInfoMap] has exactly the pools of [poolList]. *)
Definition inv (s : t) : Prop := forall id, id ∈ poolList s <-> is_Some (tmpPoolInfoMap s !! id).

Lemma inv_empty mp g : inv {| poolInfoMap := mp; tmpPoolInfoMap := ∅; poolList := []; globalStripeSize := g |}.
Proof. intros id. cbn. rewrite lookup_empty. split; [by intros ?%elem_of_nil|by intros [? [=]]]. Qed.

(** The state after recording [es] on [s]. *)
Definition recorded (s : t) (es : list (Z * PoolUsageInfo)) (g : Z) : t :=
  {| poolInfoMap := poolInfoMap s; tmpPoolInfoMap := put_rows es (tmpPoolInfoMap s);
     poolList := poolList s ++ map fst es; globalStripeSize := g |}.

Lemma Record_cases e c s ret s' : Record_ e c s = Some (ret, s') ->
  exists r g, pool_entry e c (globalStripeSize s) = Some (r, g) /\
    match r with
    | inl x => ret = x /\ s' = set_stripe g s
    | inr p => ret = 0 /\ s' = recorded s [p] g
    end.
Proof.
  unfold Record_. intros ((r & g) & Hp & Hr)%bind_Some. exists r, g. split; [done|].
  destruct r as [x|[id u]]; by injection Hr as <- <-.
Qed.

(** Errors are not 0. *)
Lemma pool_entry_err e c g x g' : pool_entry e c g = Some (inl x, g') -> x <> 0.
Proof.
  unfold pool_entry. destruct (ParseToRecordInfo e c) as [info|]; [|by intros [= <- _]].
  intros ((r & g1) & Hc & H)%bind_Some. destruct r as [y|z].
  - injection H as -> ->. unfold CalPoolSize in Hc. destruct (r_isEC info);
      apply bind_Some in Hc as ([y z] & _ & Hc).
    + destruct y as [?|[[? ?] ?]]; injection Hc as Hx _; [lia|done].
    + destruct (GetPoolReplicationSize e (r_poolId info)); injection Hc as Hx _; [done|lia].
  - apply bind_Some in H as (? & _ & [=]).
Qed.

(** Recording stops at the first line that fails; what it recorded before stays. *)
Lemma record_lines_spec e lines s ok s' : record_lines e lines s = Some (ok, s') ->
  exists pre post es g, lines = pre ++ post /\ rows e (globalStripeSize s) pre es g /\
    (if ok : bool then post = [] /\ s' = recorded s es g
     else exists l post' c x g', post = l :: post' /\ regex_match row_pattern l = Some c /\
            pool_entry e c g = Some (inl x, g') /\ s' = recorded s es g').
Proof.
  revert s. induction lines as [|l lines IH]; intros s H; cbn [record_lines] in H.
  { injection H as <- <-. exists [], [], [], (globalStripeSize s). split; [done|]. split; [constructor|].
    split; [done|]. unfold recorded. cbn. rewrite app_nil_r. by destruct s. }
  destruct (regex_match row_pattern l) as [c|] eqn:El.
  - apply bind_Some in H as ([ret s1] & H1 & H2).
    apply Record_cases in H1 as (r & g1 & Hp & Hr). destruct r as [x|p]; destruct Hr as [-> ->].
    + pose proof (pool_entry_err _ _ _ _ _ Hp) as Hx. replace (x =? 0) with false in H2 by lia.
      injection H2 as <- <-. exists [], (l :: lines), [], (globalStripeSize s).
      split; [done|]. split; [constructor|]. exists l, lines, c, x, g1. repeat split; try done.
      unfold recorded, set_stripe. cbn. by rewrite app_nil_r.
    + cbn [Z.eqb] in H2. destruct (IH _ H2) as (pre & post & es & g & -> & Hrows & Hs).
      exists (l :: pre), post, (p :: es), g. split; [done|]. split; [by eapply rows_add|].
      assert (forall gg, recorded (recorded s [p] g1) es gg = recorded s (p :: es) gg) as Hrec
        by (intros gg; unfold recorded; cbn; by rewrite <- app_assoc).
      destruct ok; [destruct Hs as [-> ->]; by rewrite Hrec|].
      destruct Hs as (l' & post' & c' & x & g' & -> & ? & ? & ->). rewrite Hrec. by exists l', post', c', x, g'.
  - destruct (IH _ H) as (pre & post & es & g & -> & Hrows & Hs).
    exists (l :: pre), post, es, g. split; [done|]. split; [by apply rows_skip|done].
Qed.

Lemma recorded_inv s es g : inv s -> inv (recorded s es g).
Proof.
  intros Hi. unfold inv, recorded in *. cbn. revert s Hi. induction es as [|[i u] es IH]; intros s Hi id; cbn.
  { rewrite app_nil_r. apply Hi. }
  specialize (IH {| poolInfoMap := ∅; tmpPoolInfoMap := <[i := u]> (tmpPoolInfoMap s);
                    poolList := poolList s ++ [i]; globalStripeSize := 0 |}). cbn in IH.
  rewrite <- IH, <- app_assoc; [done|]. intros j. rewrite elem_of_app, list_elem_of_singleton, Hi.
  destruct (decide (j = i)) as [->|]; [rewrite lookup_insert_eq; naive_solver|rewrite lookup_insert_ne by done; naive_solver].
Qed.

Lemma update_all l s : (forall id, id ∈ l -> is_Some (tmpPoolInfoMap s !! id)) ->
  tmpPoolInfoMap (fold_left update_one l s) = tmpPoolInfoMap s /\
  poolList (fold_left update_one l s) = poolList s /\
  globalStripeSize (fold_left update_one l s) = globalStripeSize s /\
  (forall id, poolInfoMap (fold_left update_one l s) !! id =
     if decide (id ∈ l) then tmpPoolInfoMap s !! id else poolInfoMap s !! id).
Proof.
  revert s. induction l as [|i l IH]; intros s Hl; cbn.
  { split_and!; [done..|]. intros id. rewrite decide_False; [done|apply not_elem_of_nil]. }
  destruct (Hl i) as [u Hu]; [left|].
  assert (tmpPoolInfoMap (update_one s i) = tmpPoolInfoMap s) as Ht.
  { cbn. rewrite Hu. cbn. by apply insert_id. }
  destruct (IH (update_one s i)) as (H1 & H2 & H3 & H4).
  { intros id Hid. rewrite Ht. apply Hl. by right. }
  rewrite Ht in H1. split_and!; [done..|]. intros id. rewrite H4, Ht. cbn. rewrite Hu. cbn.
  destruct (decide (id ∈ l)); [rewrite decide_True by (by right); done|].
  destruct (decide (id = i)) as [->|Hne].
  - rewrite lookup_insert_eq, decide_True by left. done.
  - rewrite lookup_insert_ne, decide_False by (rewrite ?elem_of_cons; naive_solver). done.
Qed.

(** [Compare] publishes [tmpPoolInfoMap], neither more nor less. *)
Lemma Compare_spec s : inv s ->
  Compare s = {| poolInfoMap := tmpPoolInfoMap s; tmpPoolInfoMap := tmpPoolInfoMap s;
                 poolList := poolList s; globalStripeSize := globalStripeSize s |}.
Proof.
  intros Hi. destruct (update_all (poolList s) s) as (H1 & H2 & H3 & H4); [intros id; apply Hi|].
  unfold Compare. rewrite H1, H2, H3. f_equal. apply map_eq. intros id.
  rewrite map_lookup_filter, H4. destruct (decide (id ∈ poolList s)) as [Hin|Hout].
  - destruct (tmpPoolInfoMap s !! id) eqn:E; cbn; [|done]. by case_guard.
  - assert (tmpPoolInfoMap s !! id = None) as -> by (apply eq_None_not_Some; by intros H%Hi).
    destruct (poolInfoMap s !! id); cbn; [|done]. by case_guard.
Qed.

(** C22: a round replaces the table as a whole.  A round that succeeds publishes
    exactly the pools its lines record (the last line of a pool counts), on top
    of the lines that rounds since the last publication recorded before they
    failed; it reports the same pools, and starts the next one empty.  In a round
    that fails to record a line, or to copy the answer, the published table does not
    change, but the lines before it stay recorded: so a pool that is deleted after a failed round
    is published again by the next one. *)
Theorem round_publishes (e : cluster) (malloc_ok : bool) (ccm : CcmAdaptor.t) (s s' : t) (ret : Z)
    (sent : option (list Z)) (Hinv : inv s) (Hdf : 0 <= fst (df e))
    (Hround : UpdatePoolUsage e malloc_ok ccm s = Some (ret, sent, s')) :
  inv s' /\
  exists pre post es g, df_lines (snd (df e)) = pre ++ post /\ rows e (globalStripeSize s) pre es g /\
    ((post = [] /\ poolInfoMap s' = put_rows es (tmpPoolInfoMap s) /\ tmpPoolInfoMap s' = ∅ /\ poolList s' = [] /\
      (forall l, sent = Some l -> l = poolList s ++ map fst es)) \/
     ((post <> [] \/ copy_df e = false) /\ ret = -1 /\ sent = None /\ poolInfoMap s' = poolInfoMap s /\
      tmpPoolInfoMap s' = put_rows es (tmpPoolInfoMap s) /\ poolList s' = poolList s ++ map fst es)).
Proof.
  unfold UpdatePoolUsage in Hround. replace (fst (df e) <? 0) with false in Hround by lia.
  apply bind_Some in Hround as ([r s1] & H1 & H2). unfold GetPoolStorageUsage in H1.
  destruct (copy_df e); cbn [negb] in H1.
  2:{ injection H1 as <- <-. injection H2 as <- <- <-. split; [done|].
      exists [], (df_lines (snd (df e))), [], (globalStripeSize s). split; [done|]. split; [constructor|]. right.
      rewrite app_nil_r. by split; [right|]. }
  apply bind_Some in H1 as ([ok s2] & H3 & H4).
  apply record_lines_spec in H3 as (pre & post & es & g & Hl & Hrows & Hs). destruct ok.
  - destruct Hs as [-> ->]. injection H4 as <- <-. rewrite Compare_spec in H2 by by apply recorded_inv.
    cbn [negb Z.eqb] in H2. unfold UpdatePoolList in H2. cbn [poolList recorded] in H2.
    destruct (CcmAdaptor.ReportCreatePool malloc_ok (poolList s ++ map fst es) ccm) as [x snt] eqn:Ec.
    injection H2 as <- <- <-. split.
    { apply inv_empty. }
    exists pre, [], es, g. split; [done|]. split; [done|]. left. repeat split.
    intros l ->. unfold CcmAdaptor.ReportCreatePool in Ec.
    destruct (negb (len (poolList s ++ map fst es) =? 0) && negb malloc_ok); [done|].
    destruct (CcmAdaptor.notifyCreateFunc ccm); [by injection Ec as _ <-|done].
  - destruct Hs as (l & post' & c & x & g' & -> & _ & _ & ->). injection H4 as <- <-. injection H2 as <- <- <-.
    split; [by apply recorded_inv|]. exists pre, (l :: post'), es, g. split; [done|]. split; [done|]. right.
    split; [by left|]. repeat split.
Qed.

(** *** The stripe unit of replicated pools *)

(** [b] is the stripe size in use, or the one that the first use will set. *)
Definition source (e : cluster) (b g : Z) : Prop := g = b \/ (g = 0 /\ GetDefaultECStripeUnit e = Some b).
Definition stripe_ok (b : Z) (u : PoolUsageInfo) : Prop :=
  isEC u = false -> k u = defaultECKInReplica /\ m u = defaultECMInReplica /\ stripeUnit u = b.

Lemma stripe_size_source e b g u g' : b <> 0 -> source e b g -> stripe_size e g = Some (u, g') -> u = b /\ g' = b.
Proof.
  intros Hb [->|[-> He]]; unfold stripe_size.
  - replace (b =? 0) with false by lia. by intros [= <- <-].
  - cbn. rewrite He. by intros [= <- <-].
Qed.

Lemma pool_entry_source e b c g r g' : b <> 0 -> source e b g -> pool_entry e c g = Some (r, g') ->
  (g' = g \/ g' = b) /\ (forall p, r = inr p -> stripe_ok b p.2).
Proof.
  intros Hb Hg. unfold pool_entry. destruct (ParseToRecordInfo e c) as [info|]; [|intros [= <- <-]; by split; [left|]].
  intros ((x & g1) & Hc & H)%bind_Some.
  assert ((g1 = g \/ g1 = b) /\ forall z u, x = inr z -> usage_of info z = Some u -> stripe_ok b u) as [H1 H2].
  { unfold CalPoolSize in Hc. destruct (r_isEC info) eqn:Ee.
    - apply bind_Some in Hc as ((y & g2) & Hy & Hc). unfold GetECProfileSize in Hy.
      assert (g2 = g \/ g2 = b) as Hs.
      { destruct (profile_get e (r_profile info)) as [ret out]. destruct (negb (ret =? 0)); [injection Hy as _ <-; by left|].
        apply bind_Some in Hy as ((su & g3) & Hu & Hy). injection Hy as _ <-.
        apply stripe_size_source with (b := b) in Hu as [_ ->]; [|done..]. by right. }
      injection Hc as Hx <-. split; [done|]. intros z u -> Hu. unfold usage_of in Hu.
      repeat (apply bind_Some in Hu as (? & _ & Hu)). injection Hu as <-. intros Hn. cbn in Hn. congruence.
    - apply bind_Some in Hc as ((su & g2) & Hu & Hc). apply stripe_size_source with (b := b) in Hu as [-> ->]; [|done..].
      injection Hc as Hx <-. split; [by right|]. intros z u -> Huse. unfold usage_of in Huse.
      repeat (apply bind_Some in Huse as (? & _ & Huse)). injection Huse as <-. intros _. cbn.
      destruct (GetPoolReplicationSize e (r_poolId info)); [|done]. by injection Hx as <-. }
  destruct x as [y|z]; [by injection H as <- <-|].
  apply bind_Some in H as (u & Hu & H). injection H as <- <-. split; [done|]. intros p [= <-]. by eapply H2.
Qed.

Lemma rows_source e b g lines es g' : b <> 0 -> source e b g -> rows e g lines es g' ->
  (g' = g \/ g' = b) /\ Forall (fun p => stripe_ok b p.2) es.
Proof.
  intros Hb Hg Hr. induction Hr as [g|g l lines es g' _ _ IH|g l lines c p g1 es g' _ Hp _ IH];
    [by split; [left|]|by apply IH|].
  apply pool_entry_source with (b := b) in Hp as [H1 H2]; [|done..].
  destruct IH as [H3 ?]; [destruct H1 as [->| ->]; [done|by left]|].
  split; [naive_solver|]. constructor; [by apply H2|done].
Qed.

Definition stripes (b : Z) (s : t) : Prop :=
  map_Forall (fun _ => stripe_ok b) (poolInfoMap s) /\ map_Forall (fun _ => stripe_ok b) (tmpPoolInfoMap s).

Lemma put_rows_Forall (P : PoolUsageInfo -> Prop) es mp :
  Forall (fun p => P p.2) es -> map_Forall (fun _ => P) mp -> map_Forall (fun _ => P) (put_rows es mp).
Proof.
  intros He. revert mp. induction He as [|p es Hp _ IH]; intros mp Hm; [done|]. cbn. apply IH.
  by apply map_Forall_insert_2.
Qed.

Lemma fold_update_Forall (P : PoolUsageInfo -> Prop) l s :
  (forall id, id ∈ l -> is_Some (tmpPoolInfoMap s !! id)) ->
  map_Forall (fun _ => P) (poolInfoMap s) -> map_Forall (fun _ => P) (tmpPoolInfoMap s) ->
  map_Forall (fun _ => P) (poolInfoMap (fold_left update_one l s)).
Proof.
  intros Hl H1 H2 id u Hu. destruct (update_all l s Hl) as (_ & _ & _ & H4). rewrite H4 in Hu.
  destruct (decide (id ∈ l)); [by eapply H2|by eapply H1].
Qed.

(** Rounds, whatever each of them returns. *)
Fixpoint rounds (l : list (cluster * bool * CcmAdaptor.t)) (s : t) : option t :=
  match l with
  | [] => Some s
  | (e, malloc_ok, ccm) :: l' => '(_, s) ← UpdatePoolUsage e malloc_ok ccm s; rounds l' s
  end.

Lemma round_stripes e malloc_ok ccm b s ret sent s' : b <> 0 -> inv s -> stripes b s -> source e b (globalStripeSize s) ->
  UpdatePoolUsage e malloc_ok ccm s = Some (ret, sent, s') ->
  inv s' /\ stripes b s' /\ (globalStripeSize s' = globalStripeSize s \/ globalStripeSize s' = b).
Proof.
  intros Hb Hi [Hs1 Hs2] Hg. unfold UpdatePoolUsage. destruct (fst (df e) <? 0); [intros [= _ _ <-]; split_and!; [done..|by left]|].
  intros ([r s1] & H1 & H2)%bind_Some. unfold GetPoolStorageUsage in H1.
  destruct (copy_df e); cbn [negb] in H1; [|injection H1 as <- <-; injection H2 as _ _ <-; split_and!; [done..|by left]].
  apply bind_Some in H1 as ([ok s2] & H3 & H4).
  apply record_lines_spec in H3 as (pre & post & es & g & Hl & Hrows & Hs).
  apply rows_source with (b := b) in Hrows as [Hg1 Hes]; [|done..].
  pose proof (put_rows_Forall _ es _ Hes Hs2) as Hput. destruct ok.
  - destruct Hs as [-> ->]. injection H4 as <- <-. rewrite Compare_spec in H2 by by apply recorded_inv.
    cbn [negb Z.eqb] in H2. unfold UpdatePoolList in H2.
    destruct (CcmAdaptor.ReportCreatePool _ _ ccm) as [x snt]. injection H2 as _ _ <-. split_and!.
    + apply inv_empty.
    + by split; [|apply map_Forall_empty].
    + done.
  - destruct Hs as (l & post' & c & x & g' & _ & _ & Hp & ->). injection H4 as <- <-. injection H2 as _ _ <-.
    apply pool_entry_source with (b := b) in Hp as [Hg2 _]; [|done|destruct Hg1 as [->| ->]; [done|by left]].
    split; [by apply recorded_inv|]. split; [done|]. cbn. naive_solver.
Qed.

Lemma rounds_stripes l b s s' : b <> 0 -> inv s -> stripes b s -> globalStripeSize s = b -> rounds l s = Some s' ->
  stripes b s' /\ globalStripeSize s' = b.
Proof.
  intros Hb. revert s. induction l as [|[[e ok] ccm] l IH]; intros s Hi Hs Hg Hr; cbn [rounds] in Hr.
  - by injection Hr as <-.
  - apply bind_Some in Hr as ([[ret sent] s1] & H1 & Hr).
    apply round_stripes with (b := b) in H1 as (Hi1 & Hs1 & Hg1); [|done..|by left].
    eapply IH; [..|done]; [done|done|]. destruct Hg1 as [Hg1|Hg1]; congruence.
Qed.

(** A failure to read the default stripe unit is never repaired.  The error
    code of the query is stored as the stripe unit: after a first round in which
    the query failed and some pool asked for it, every replicated pool that any
    later round publishes has 1 data and 2 parity chunks and a stripe unit just
    below 2^32, whatever the monitors answer by then. *)
Theorem stripe_error_sticks (e : cluster) (malloc_ok : bool) (ccm : CcmAdaptor.t) (ret : Z) (sent : option (list Z))
    (s s' : t) (l : list (cluster * bool * CcmAdaptor.t)) (id : Z) (u : PoolUsageInfo)
    (Herr : - 2 ^ 31 <= fst (stripe_cfg e) < 0)
    (Hfirst : UpdatePoolUsage e malloc_ok ccm init = Some (ret, sent, s)) (Hused : globalStripeSize s <> 0)
    (Hlater : rounds l s = Some s') (Hu : poolInfoMap s' !! id = Some u) (Hrep : isEC u = false) :
  GetPoolInfo id s' = (0, Some (1, 2, 2 ^ 32 + fst (stripe_cfg e))).
Proof.
  set (b := 2 ^ 32 + fst (stripe_cfg e)).
  assert (GetDefaultECStripeUnit e = Some b) as Hd.
  { unfold GetDefaultECStripeUnit. destruct (stripe_cfg e) as [x out] eqn:Ex. cbn in Herr, b.
    replace (x <? 0) with true by lia. f_equal. unfold b, u32, wrap.
    rewrite <- (Z.mod_small (2 ^ 32 + x) (2 ^ 32)) by lia. by rewrite Z.add_mod, Z.mod_same, Z.add_0_l, Z.mod_mod by done. }
  apply round_stripes with (b := b) in Hfirst as (Hi & Hs & Hg);
    [|unfold b; lia|apply inv_empty|by split; apply map_Forall_empty|right; done].
  destruct Hg as [Hg|Hg]; [done|].
  apply rounds_stripes with (b := b) in Hlater as [[H1 _] _]; [|unfold b; lia|done..].
  unfold GetPoolInfo. rewrite Hu. destruct (H1 id u Hu Hrep) as (-> & -> & ->). done.
Qed.

(** ** Witnesses *)

(** Two replicated pools and an erasure-coded one; the monitors know no default
    stripe unit at first. *)
Definition ceph_df : string :=
  "POOL ID STORED OBJECTS USED %USED MAX AVAIL".
Definition nl (l : list string) : bytes := concat (map (fun x => bs x ++ [newline]) l).
Definition monitors (stripe : Z * bytes) (lines : list string) : cluster :=
  {| df := (0, nl (ceph_df :: lines));
     pool_get := fun p => if bytes_eqb p (bs "ecpool") then (0, nl ["erasure_code_profile: prof"]) else (- EACCES, []);
     profile_get := fun _ => (0, nl ["crush-root=default"; "k=4"; "m=2"; "stripe_unit=8K"]);
     stripe_cfg := stripe; pool_stat := fun _ => Some (100, 300); copy_df := true; copy_profile := fun _ => true |}.
Definition lines0 : list string :=
  ["rbd      1   1.2 GiB  12.5k  3.6 GiB   0.25   900 GiB"; "ecpool   2   4 KiB    1      6 KiB     0      1.5 TiB"].

Definition silent : CcmAdaptor.t := {| CcmAdaptor.notifyCreateFunc := None |}.
Definition after (r : option (Z * option (list Z) * t)) : t := match r with Some (_, _, s) => s | None => init end.
Definition down : cluster := monitors (-22, []) lines0.
Definition up : cluster := monitors (0, nl ["16K"]) lines0.
Definition s1 : t := after (UpdatePoolUsage down true silent init).
Definition s2 : t := default init (rounds [(up, true, silent); (up, true, silent)] s1).





Lemma round_publishes_witness : exists es g, rows up 0 (df_lines (snd (df up))) es g /\
  poolInfoMap (after (UpdatePoolUsage up true silent init)) = put_rows es ∅.
Proof.
  assert (H : UpdatePoolUsage up true silent init = Some (0, None, after (UpdatePoolUsage up true silent init)))
    by (vm_compute; reflexivity).
  destruct (round_publishes up true silent init _ 0 None (inv_empty _ _) ltac:(vm_compute; discriminate) H)
    as (_ & pre & post & es & g & Hl & Hr & [(-> & Hp & _)|(_ & Hret & _)]); [|discriminate].
  exists es, g. rewrite Hl, app_nil_r. split; [exact Hr|exact Hp].
Defined.

(** The stripe unit read as an error in the first round. *)
Lemma stripe_error_sticks_witness : GetPoolInfo 1 s2 = (0, Some (1, 2, 4294967274)).
Proof.
  destruct (poolInfoMap s2 !! 1) as [u|] eqn:Hu; [|vm_compute in Hu; discriminate].
  refine (stripe_error_sticks down true silent 0 None s1 s2 [(up, true, silent); (up, true, silent)] 1 u _ _ _ _ Hu _).
  - split; [discriminate|reflexivity].
  - vm_compute. reflexivity.
  - vm_compute. discriminate.
  - vm_compute. reflexivity.
  - vm_compute in Hu. injection Hu as <-. reflexivity.
Defined.
End RadosMonitor.
