(* ===== verification/Encoding.v ===== *)
(** * Ceph's wire format, as the server side relies on it

    The encoding of fixed-width integers is Ceph's and enters as the class
    [CephInts] with its laws; the length-prefixed strings, bufferlists and
    containers, whose layout [msg_module.cpp] walks by hand, are built on it.
    [le_ints] is the little-endian instance the examples run on. *)

From S2P Require Import Prelude CStr.

Class CephInts := {
  enc_u32 : Z -> bytes;
  enc_u64 : Z -> bytes;
  dec_u32 : bytes -> option (Z * bytes);    (* [None]: end of buffer *)
  dec_u64 : bytes -> option (Z * bytes);
  enc_u32_len : forall n, length (enc_u32 n) = 4%nat;
  enc_u64_len : forall n, length (enc_u64 n) = 8%nat;
  dec_enc_u32 : forall n r, 0 <= n < 2 ^ 32 -> dec_u32 (enc_u32 n ++ r) = Some (n, r);
  dec_enc_u64 : forall n r, 0 <= n < 2 ^ 64 -> dec_u64 (enc_u64 n ++ r) = Some (n, r);
  dec_u32_short : forall s, (length s < 4)%nat -> dec_u32 s = None;
  dec_u64_short : forall s, (length s < 8)%nat -> dec_u64 s = None;
  dec_u32_range : forall s n r, dec_u32 s = Some (n, r) -> 0 <= n < 2 ^ 32;
  dec_u64_range : forall s n r, dec_u64 s = Some (n, r) -> 0 <= n < 2 ^ 64
}.

Section containers.
Context `{CephInts}.

(** [encode(std::string_view, bl)], [encode(bufferlist, bl)] *)
Definition enc_str (s : bytes) : bytes := enc_u32 (len s) ++ s.

Definition advance (n : Z) (p : bytes) : option bytes :=
  if n <=? len p then Some (drop (Z.to_nat n) p) else None.

Definition dec_str (p : bytes) : option (bytes * bytes) :=
  '(n, r) ← dec_u32 p;
  if n <=? len r then Some (take (Z.to_nat n) r, drop (Z.to_nat n) r) else None.

(** [n] elements one after the other. *)
Fixpoint dec_many {A} (dec : bytes -> option (A * bytes)) (n : nat) (p : bytes)
  : option (list A * bytes) :=
  match n with
  | O => Some ([], p)
  | S n' => '(a, p1) ← dec p; '(l, p2) ← dec_many dec n' p1; Some (a :: l, p2)
  end.

Definition dec_pair {A B} (da : bytes -> option (A * bytes)) (db : bytes -> option (B * bytes))
    (p : bytes) : option (A * B * bytes) :=
  '(a, p1) ← da p; '(b, p2) ← db p1; Some (a, b, p2).

Definition enc_list {A} (enc : A -> bytes) (l : list A) : bytes :=
  enc_u32 (len l) ++ concat (map enc l).

Definition dec_list {A} (dec : bytes -> option (A * bytes)) (p : bytes) : option (list A * bytes) :=
  '(n, r) ← dec_u32 p; dec_many dec (Z.to_nat n) r.

(** [std::map<std::string, T>]: a count and the pairs; decoding assigns [m[k]]. *)
Definition enc_map {A} (enc : A -> bytes) (m : list (bytes * A)) : bytes :=
  enc_list (fun '(k, v) => enc_str k ++ enc v) m.
Definition dec_map {A} (dec : bytes -> option (A * bytes)) (p : bytes)
  : option (list (bytes * A) * bytes) :=
  '(l, r) ← dec_list (dec_pair dec_str dec) p;
  Some (fold_left (fun m '(k, v) => smap_insert k v m) l [], r).

(** [std::set<std::string>] *)
Definition enc_set (m : list bytes) : bytes := enc_list enc_str m.
Definition dec_set (p : bytes) : option (list bytes * bytes) :=
  '(l, r) ← dec_list dec_str p;
  Some (map fst (fold_left (fun m k => smap_insert k tt m) l []), r).

Lemma dec_enc_str s r : len s < 2 ^ 32 -> dec_str (enc_str s ++ r) = Some (s, r).
Proof.
  intros Hs. pose proof (len_nonneg s). unfold dec_str, enc_str. rewrite <- app_assoc.
  rewrite dec_enc_u32 by lia. cbn. rewrite len_app. pose proof (len_nonneg r).
  replace (len s <=? len s + len r) with true by lia. unfold len at 1 2. rewrite Nat2Z.id.
  by rewrite take_app_length, drop_app_length.
Qed.

Lemma dec_many_enc {A} (enc : A -> bytes) dec (ok : A -> Prop) l r :
  (forall a q, ok a -> dec (enc a ++ q) = Some (a, q)) -> Forall ok l ->
  dec_many dec (length l) (concat (map enc l) ++ r) = Some (l, r).
Proof.
  intros Hd Hl. induction Hl as [|a l Ha Hl IH]; [done|]. cbn. rewrite <- app_assoc.
  rewrite Hd by done. cbn. by rewrite IH.
Qed.

Lemma dec_enc_list {A} (enc : A -> bytes) dec (ok : A -> Prop) l r :
  (forall a q, ok a -> dec (enc a ++ q) = Some (a, q)) -> Forall ok l -> len l < 2 ^ 32 ->
  dec_list dec (enc_list enc l ++ r) = Some (l, r).
Proof.
  intros Hd Hl Hn. pose proof (len_nonneg l). unfold dec_list, enc_list. rewrite <- app_assoc.
  rewrite dec_enc_u32 by lia. cbn. unfold len. rewrite Nat2Z.id. by eapply dec_many_enc.
Qed.

Definition map_ok {A} (ok : A -> Prop) (m : list (bytes * A)) : Prop :=
  smap_sorted m /\ len m < 2 ^ 32 /\ Forall (fun p => len (fst p) < 2 ^ 32 /\ ok (snd p)) m.

Lemma dec_enc_map {A} (enc : A -> bytes) dec (ok : A -> Prop) m r :
  (forall a q, ok a -> dec (enc a ++ q) = Some (a, q)) -> map_ok ok m ->
  dec_map dec (enc_map enc m ++ r) = Some (m, r).
Proof.
  intros Hd (Hs & Hn & Hf). unfold dec_map, enc_map.
  rewrite (dec_enc_list _ _ (fun p => len (fst p) < 2 ^ 32 /\ ok (snd p))); [|  |done|done].
  - cbn. rewrite (smap_rebuild smap_insert); [done|apply smap_insert_last|done].
  - intros [k v] q [Hk Hv]. unfold dec_pair. rewrite <- app_assoc, dec_enc_str by done. cbn.
    by rewrite Hd.
Qed.
End containers.

(** ** The little-endian instance *)
Fixpoint le_enc (n : nat) (x : Z) : bytes :=
  match n with
  | O => []
  | S n' => Ascii.ascii_of_nat (Z.to_nat (x mod 256)) :: le_enc n' (x / 256)
  end.
Fixpoint le_val (s : bytes) : Z :=
  match s with
  | [] => 0
  | c :: s' => Z.of_nat (Ascii.nat_of_ascii c) + 256 * le_val s'
  end.
Definition le_dec (n : nat) (p : bytes) : option (Z * bytes) :=
  if Nat.ltb (length p) n then None else Some (le_val (take n p), drop n p).

Lemma le_enc_length n x : length (le_enc n x) = n.
Proof. revert x. induction n as [|n IH]; intros x; [done|]. cbn. by rewrite IH. Qed.

Lemma le_val_enc n x : 0 <= x < 256 ^ Z.of_nat n -> le_val (le_enc n x) = x.
Proof.
  revert x. induction n as [|n IH]; intros x Hx; [cbn in *; lia|]. cbn.
  pose proof (Z.mod_pos_bound x 256 ltac:(lia)).
  rewrite Ascii.nat_ascii_embedding by lia. rewrite Nat2Z.inj_succ, Z.pow_succ_r in Hx by lia.
  rewrite IH; [rewrite Z2Nat.id by lia; pose proof (Z.div_mod x 256 ltac:(lia)); lia|].
  split; [apply Z.div_pos; lia|apply Z.div_lt_upper_bound; lia].
Qed.

Lemma le_dec_enc n x r : 0 <= x < 256 ^ Z.of_nat n -> le_dec n (le_enc n x ++ r) = Some (x, r).
Proof.
  intros Hx. unfold le_dec. rewrite length_app, le_enc_length.
  replace (Nat.ltb (n + length r) n) with false by (symmetry; apply Nat.ltb_ge; lia).
  rewrite take_app_length', drop_app_length' by by rewrite le_enc_length. by rewrite le_val_enc.
Qed.

Lemma le_dec_short n s : (length s < n)%nat -> le_dec n s = None.
Proof. intros H. unfold le_dec. by rewrite (proj2 (Nat.ltb_lt _ _) H). Qed.

Lemma le_val_range s : 0 <= le_val s < 256 ^ len s.
Proof.
  induction s as [|c s IH]; [by cbn|]. cbn [le_val]. rewrite len_cons. pose proof (len_nonneg s).
  rewrite Z.pow_add_r by lia. pose proof (Ascii.nat_ascii_bounded c). lia.
Qed.

Lemma le_dec_range n s x r : le_dec n s = Some (x, r) -> 0 <= x < 256 ^ Z.of_nat n.
Proof.
  unfold le_dec. destruct (Nat.ltb_spec (length s) n); [done|]. intros [= <- _].
  pose proof (le_val_range (take n s)) as Hr. unfold len in Hr. by rewrite length_take, Nat.min_l in Hr by lia.
Qed.

Definition le_ints : CephInts.
Proof.
  refine {| enc_u32 := le_enc 4; enc_u64 := le_enc 8; dec_u32 := le_dec 4; dec_u64 := le_dec 8 |}.
  - intros. apply le_enc_length.
  - intros. apply le_enc_length.
  - intros. by apply le_dec_enc.
  - intros. by apply le_dec_enc.
  - intros. by apply le_dec_short.
  - intros. by apply le_dec_short.
  - intros s n r Hd. exact (le_dec_range 4 s n r Hd).
  - intros s n r Hd. exact (le_dec_range 8 s n r Hd).
Defined.
