(* ===== verification/MsgModule.v ===== *)
(** * [sa_def.h], [msg_module.cpp]: requests and the conversion of client operations

    [SaDef] holds the request structures shared by the server modules;
    [MsgModule] converts one operation of a client message into the [OpRequestOps]
    the cache engine executes.  A Ceph decode exception that leaves the
    conversion is [None]: no caller catches it. *)

From S2P Require Import Prelude CStr Encoding.

Module SaDef.
(** The Ceph operation codes the adaptor distinguishes. *)
Inductive OsdOp :=
| CEPH_OSD_OP_READ | CEPH_OSD_OP_SPARSE_READ | CEPH_OSD_OP_SYNC_READ | CEPH_OSD_OP_CMPEXT
| CEPH_OSD_OP_ZERO | CEPH_OSD_OP_TRUNCATE | CEPH_OSD_OP_WRITEFULL | CEPH_OSD_OP_WRITE
| CEPH_OSD_OP_WRITESAME
| CEPH_OSD_OP_GETXATTR | CEPH_OSD_OP_RMXATTR | CEPH_OSD_OP_CMPXATTR | CEPH_OSD_OP_SETXATTR
| CEPH_OSD_OP_OMAPGETVALS | CEPH_OSD_OP_OMAPSETVALS | CEPH_OSD_OP_OMAPGETKEYS
| CEPH_OSD_OP_OMAPRMKEYS | CEPH_OSD_OP_OMAPCLEAR | CEPH_OSD_OP_OMAPGETVALSBYKEYS
| CEPH_OSD_OP_OMAP_CMP | CEPH_OSD_OP_OMAPSETHEADER | CEPH_OSD_OP_OMAPGETHEADER
| CEPH_OSD_OP_GETXATTRS | CEPH_OSD_OP_STAT | CEPH_OSD_OP_CALL | CEPH_OSD_OP_LIST_SNAPS
| CEPH_OSD_OP_CREATE | CEPH_OSD_OP_ROLLBACK
| OTHER_OP (code : Z).
#[export] Instance OsdOp_eq_dec : EqDecision OsdOp.
Proof. solve_decision. Defined.

Inductive CmpMode := CEPH_OSD_CMPXATTR_MODE_STRING | CEPH_OSD_CMPXATTR_MODE_U64 | MODE_OTHER (m : Z).

(** [ceph_osd_op]: the fields of the union that are read. *)
Record ceph_osd_op := {
  op : OsdOp; op_flags : Z;
  extent_offset : Z; extent_length : Z;
  name_len : Z; value_len : Z; cmp_op : Z; cmp_mode : CmpMode;
  class_len : Z; method_len : Z; cls_indata_len : Z;
  snapid : Z;
  writesame_offset : Z; writesame_length : Z
}.

(** [OSDOp] *)
Record OSDOp := { osd_op : ceph_osd_op; indata : bytes; outdata : bytes; rval : Z }.

Definition GCACHE_DEFAULT : Z := 0.
Definition GCACHE_WRITE : Z := 1.
Definition GCACHE_READ : Z := 2.
Definition SA_VERSION : Z := 1.
Definition FORMAT_UNSPECIFY_MD_DATE_POOL : Z := 0.
Definition FORMAT_SPECIFY_MD_DATE_POOL : Z := 1.

Record OptionsType := { ot_write : Z; ot_read : Z }.
Record OptionsLength := { ol_write : Z; ol_read : Z }.

(** [RbdObjid]: [seq] is a 40-bit field. *)
Record RbdObjid := { rbd_poolId : Z; rbd_head : Z; rbd_seq : Z; rbd_format : Z; rbd_version : Z }.

(** [OpRequestOps]; [inData] is the data the pointer refers to. *)
Record OpRequestOps := {
  opSubType : OsdOp; objName : bytes; isRbd : bool; rbdObjId : option RbdObjid;
  inData : option bytes; inDataLen : Z; outDataLen : Z; objOffset : Z; objLength : Z;
  opFlags : Z; keys : list bytes; values : list bytes; subops : list Z; u64vals : list Z;
  cmpModes : list CmpMode
}.

(** [SaOpReq]; [copyupFlag] tells whether the worker's flag is attached. *)
Record SaOpReq := {
  vecOps : list OpRequestOps; optionType : Z; optionLength : Z; opType : Z; req_snapId : Z;
  tid : Z; opsSequence : Z; ptrMosdop : Z; ptId : Z; req_poolId : Z; ts : Z; snapSeq : Z;
  snaps : list Z; exitsCopyUp : Z; copyupFlag : bool; ptVersion : Z
}.

(** The copy constructor: every member but [vecOps]. *)
Definition SaOpReq_copy (o : SaOpReq) : SaOpReq :=
  {| vecOps := []; optionType := optionType o; optionLength := optionLength o; opType := opType o;
     req_snapId := req_snapId o; tid := tid o; opsSequence := opsSequence o;
     ptrMosdop := ptrMosdop o; ptId := ptId o; req_poolId := req_poolId o; ts := ts o;
     snapSeq := snapSeq o; snaps := snaps o; exitsCopyUp := exitsCopyUp o;
     copyupFlag := copyupFlag o; ptVersion := ptVersion o |}.
End SaDef.

Module MsgModule.
Import SaDef.

Definition new_op (name : bytes) : OpRequestOps :=
  {| opSubType := OTHER_OP 0; objName := name; isRbd := false; rbdObjId := None; inData := None;
     inDataLen := 0; outDataLen := 0; objOffset := 0; objLength := 0; opFlags := 0; keys := [];
     values := []; subops := []; u64vals := []; cmpModes := [] |}.

(** Updates of the parts the converters write. *)
Definition set_in (d : option bytes) (n : Z) (o : OpRequestOps) : OpRequestOps :=
  {| opSubType := opSubType o; objName := objName o; isRbd := isRbd o; rbdObjId := rbdObjId o;
     inData := d; inDataLen := n; outDataLen := outDataLen o; objOffset := objOffset o;
     objLength := objLength o; opFlags := opFlags o; keys := keys o; values := values o;
     subops := subops o; u64vals := u64vals o; cmpModes := cmpModes o |}.
Definition set_out (n : Z) (o : OpRequestOps) : OpRequestOps :=
  {| opSubType := opSubType o; objName := objName o; isRbd := isRbd o; rbdObjId := rbdObjId o;
     inData := inData o; inDataLen := inDataLen o; outDataLen := n; objOffset := objOffset o;
     objLength := objLength o; opFlags := opFlags o; keys := keys o; values := values o;
     subops := subops o; u64vals := u64vals o; cmpModes := cmpModes o |}.
Definition set_range (off n : Z) (o : OpRequestOps) : OpRequestOps :=
  {| opSubType := opSubType o; objName := objName o; isRbd := isRbd o; rbdObjId := rbdObjId o;
     inData := inData o; inDataLen := inDataLen o; outDataLen := outDataLen o; objOffset := off;
     objLength := n; opFlags := opFlags o; keys := keys o; values := values o;
     subops := subops o; u64vals := u64vals o; cmpModes := cmpModes o |}.
Definition set_flags (f : Z) (o : OpRequestOps) : OpRequestOps :=
  {| opSubType := opSubType o; objName := objName o; isRbd := isRbd o; rbdObjId := rbdObjId o;
     inData := inData o; inDataLen := inDataLen o; outDataLen := outDataLen o;
     objOffset := objOffset o; objLength := objLength o; opFlags := f; keys := keys o;
     values := values o; subops := subops o; u64vals := u64vals o; cmpModes := cmpModes o |}.
Definition set_type (t : OsdOp) (o : OpRequestOps) : OpRequestOps :=
  {| opSubType := t; objName := objName o; isRbd := isRbd o; rbdObjId := rbdObjId o;
     inData := inData o; inDataLen := inDataLen o; outDataLen := outDataLen o;
     objOffset := objOffset o; objLength := objLength o; opFlags := opFlags o; keys := keys o;
     values := values o; subops := subops o; u64vals := u64vals o; cmpModes := cmpModes o |}.
(** Appending to [keys], [values], [subops], [u64vals] and [cmpModes]. *)
Definition push (ks vs : list bytes) (so uv : list Z) (cm : list CmpMode) (o : OpRequestOps)
  : OpRequestOps :=
  {| opSubType := opSubType o; objName := objName o; isRbd := isRbd o; rbdObjId := rbdObjId o;
     inData := inData o; inDataLen := inDataLen o; outDataLen := outDataLen o;
     objOffset := objOffset o; objLength := objLength o; opFlags := opFlags o;
     keys := keys o ++ ks; values := values o ++ vs; subops := subops o ++ so;
     u64vals := u64vals o ++ uv; cmpModes := cmpModes o ++ cm |}.

Section convert.
Context `{CephInts}.
(** What [bp.copy(n, s)] has appended to [s] when it throws. *)
Context (partial_copy : Z -> bytes -> bytes).

(** [bp.copy(n, s)] *)
Definition copy (n : Z) (p : bytes) : option (bytes * bytes) :=
  if n <=? len p then Some (take (Z.to_nat n) p, drop (Z.to_nat n) p) else None.

(** The [while (n--)] loop of [decode_str_str_map_to_bl]; [unsigned len]. *)
Fixpoint skip_pairs (n : nat) (p : bytes) (length : Z) : option Z :=
  match n with
  | O => Some length
  | S n' =>
      '(l, p) ← dec_u32 p;
      p ← advance l p;
      let length := u32 (length + u32 (4 + l)) in
      '(l, p) ← dec_u32 p;
      p ← advance l p;
      skip_pairs n' p (u32 (length + u32 (4 + l)))
  end.

Definition decode_str_str_map_to_bl (p : bytes) : option bytes :=
  let start := p in
  '(n, p) ← dec_u32 p;
  length ← skip_pairs (Z.to_nat n) p 4;
  '(out, _) ← copy length start;
  Some out.

Definition dec_int (p : bytes) : option (Z * bytes) := '(n, r) ← dec_u32 p; Some (s32 n, r).

Definition ConvertObjRw (c : OSDOp) (o : OpRequestOps) : OpRequestOps :=
  match op (osd_op c) with
  | CEPH_OSD_OP_READ | CEPH_OSD_OP_SPARSE_READ | CEPH_OSD_OP_SYNC_READ =>
      set_out (u32 (extent_length (osd_op c))) o
  | CEPH_OSD_OP_WRITE | CEPH_OSD_OP_WRITEFULL | CEPH_OSD_OP_WRITESAME =>
      set_in (Some (indata c)) (u32 (len (indata c))) o
  | CEPH_OSD_OP_CMPEXT =>
      set_in (Some (indata c)) (u32 (len (indata c))) (set_out (u32 (extent_length (osd_op c))) o)
  | _ => o
  end.

Definition ConvertOmapOp (c : OSDOp) (o : OpRequestOps) : option OpRequestOps :=
  let bp := indata c in
  match op (osd_op c) with
  | CEPH_OSD_OP_OMAPGETVALS =>
      '(start_after, bp) ← dec_str bp;
      '(max_return, bp) ← dec_u64 bp;
      '(filter_prefix, bp) ← dec_str bp;
      Some (push [bs "start_after"; bs "max_return"; bs "filter_prefix"]
                 [start_after; to_string max_return; filter_prefix] [] [] [] o)
  | CEPH_OSD_OP_OMAPSETVALS =>
      to_set_bl ← decode_str_str_map_to_bl bp;
      '(to_set, _) ← dec_map dec_str to_set_bl;
      Some (push (map fst to_set) (map snd to_set) [] [] [] o)
  | CEPH_OSD_OP_OMAPGETKEYS =>
      '(start_after, bp) ← dec_str bp;
      '(max_return, bp) ← dec_u64 bp;
      Some (push [bs "start_after"; bs "max_return"] [start_after; to_string max_return] [] [] [] o)
  | CEPH_OSD_OP_OMAPRMKEYS | CEPH_OSD_OP_OMAPGETVALSBYKEYS =>
      '(ks, _) ← dec_set bp; Some (push ks [] [] [] [] o)
  | CEPH_OSD_OP_OMAPGETHEADER | CEPH_OSD_OP_OMAPCLEAR => Some o
  | CEPH_OSD_OP_OMAPSETHEADER =>
      Some (set_in (Some (indata c)) (u32 (extent_length (osd_op c))) o)
  | CEPH_OSD_OP_OMAP_CMP =>
      '(assertions, _) ← dec_map (dec_pair dec_str dec_int) bp;
      Some (push (map fst assertions) (map (fst ∘ snd) assertions) (map (snd ∘ snd) assertions) [] [] o)
  | _ => Some o
  end.

Definition ConvertAttrOp (c : OSDOp) (o : OpRequestOps) : option OpRequestOps :=
  let p := osd_op c in
  '(xattr_name, bp) ← copy (name_len p) (indata c);
  let o := push [xattr_name] [] [] [] [] o in
  match op p with
  | CEPH_OSD_OP_SETXATTR =>
      '(val, _) ← copy (value_len p) bp; Some (push [] [val] [] [] [] o)
  | CEPH_OSD_OP_CMPXATTR =>
      let o := push [] [] [cmp_op p] [] [cmp_mode p] o in
      match cmp_mode p with
      | CEPH_OSD_CMPXATTR_MODE_STRING =>
          '(val, _) ← copy (value_len p) bp; Some (push [] [val] [] [] [] o)
      | CEPH_OSD_CMPXATTR_MODE_U64 =>
          '(v, _) ← dec_u64 bp; Some (push [] [] [] [v] [] o)
      | MODE_OTHER _ => Some o
      end
  | _ => Some o
  end.

Definition ConvertRollBackOp (c : OSDOp) (o : OpRequestOps) : OpRequestOps :=
  push [bs "snapid"] [to_string (snapid (osd_op c))] [] [] [] o.

Definition READ_STAT_FLAG : Z := 1024.

(** Is the call the copyup method of the rbd class?  A short buffer throws
    and is caught, with what was copied so far in [cname] and [mname]. *)
Definition is_copyup (c : OSDOp) : bool :=
  let '(cname, mname) :=
    match copy (class_len (osd_op c)) (indata c) with
    | None => (partial_copy (class_len (osd_op c)) (indata c), [])
    | Some (cname, bp) => match copy (method_len (osd_op c)) bp with
                          | None => (cname, partial_copy (method_len (osd_op c)) bp)
                          | Some (mname, _) => (cname, mname)
                          end
    end in
  bytes_eqb cname (bs "rbd") && bytes_eqb mname (bs "copyup").

Record converted := { c_ret : Z; c_op : OpRequestOps; c_type : OptionsType; c_len : OptionsLength }.

Definition ConvertClientopToOpreq (readStatFlag : bool) (c : OSDOp) (o : OpRequestOps)
    (ot : OptionsType) (ol : OptionsLength) : option converted :=
  let p := osd_op c in
  let o := set_type (op p) o in
  let done o := {| c_ret := 0; c_op := o; c_type := ot; c_len := ol |} in
  match op p with
  | CEPH_OSD_OP_CMPEXT | CEPH_OSD_OP_SPARSE_READ | CEPH_OSD_OP_SYNC_READ | CEPH_OSD_OP_READ =>
      let o := ConvertObjRw c (set_range (u32 (extent_offset p)) (u32 (extent_length p)) o) in
      Some {| c_ret := 0;
              c_op := if readStatFlag then set_flags (Z.lor (opFlags o) READ_STAT_FLAG) o else o;
              c_type := {| ot_write := ot_write ot; ot_read := u32 (ot_read ot + 1) |};
              c_len := {| ol_write := ol_write ol;
                          ol_read := u64 (ol_read ol + extent_length p / 1024) |} |}
  | CEPH_OSD_OP_ZERO | CEPH_OSD_OP_TRUNCATE | CEPH_OSD_OP_WRITEFULL | CEPH_OSD_OP_WRITE =>
      Some {| c_ret := 0;
              c_op := ConvertObjRw c (set_range (u32 (extent_offset p)) (u32 (extent_length p)) o);
              c_type := {| ot_write := u32 (ot_write ot + 1); ot_read := ot_read ot |};
              c_len := {| ol_write := u64 (ol_write ol + extent_length p / 1024);
                          ol_read := ol_read ol |} |}
  | CEPH_OSD_OP_GETXATTR | CEPH_OSD_OP_RMXATTR | CEPH_OSD_OP_CMPXATTR | CEPH_OSD_OP_SETXATTR =>
      o ← ConvertAttrOp c o; Some (done o)
  | CEPH_OSD_OP_OMAPGETVALS | CEPH_OSD_OP_OMAPSETVALS | CEPH_OSD_OP_OMAPGETKEYS
  | CEPH_OSD_OP_OMAPRMKEYS | CEPH_OSD_OP_OMAPCLEAR | CEPH_OSD_OP_OMAPGETVALSBYKEYS
  | CEPH_OSD_OP_OMAP_CMP | CEPH_OSD_OP_OMAPSETHEADER | CEPH_OSD_OP_OMAPGETHEADER =>
      o ← ConvertOmapOp c o; Some (done o)
  | CEPH_OSD_OP_GETXATTRS | CEPH_OSD_OP_STAT | CEPH_OSD_OP_CREATE =>
      Some (done (set_flags (op_flags p) o))
  | CEPH_OSD_OP_CALL =>
      Some {| c_ret := if is_copyup c then 1 else 0; c_op := o; c_type := ot; c_len := ol |}
  | CEPH_OSD_OP_ROLLBACK => Some (done (ConvertRollBackOp c o))
  | CEPH_OSD_OP_WRITESAME =>
      Some {| c_ret := 0;
              c_op := ConvertObjRw c (set_range (u32 (writesame_offset p)) (u32 (writesame_length p)) o);
              c_type := {| ot_write := u32 (ot_write ot + 1); ot_read := ot_read ot |};
              c_len := {| ol_write := u64 (ol_write ol + writesame_length p / 1024);
                          ol_read := ol_read ol |} |}
  | CEPH_OSD_OP_LIST_SNAPS | OTHER_OP _ => Some (done o)
  end.

(** ** Theorems *)

Lemma advance_app a r : advance (len a) (a ++ r) = Some r.
Proof.
  unfold advance. rewrite len_app. pose proof (len_nonneg r).
  replace (len a <=? len a + len r) with true by lia. unfold len. by rewrite Nat2Z.id, drop_app_length.
Qed.

Definition kv_enc (p : bytes * bytes) : bytes := let '(k, v) := p in enc_str k ++ enc_str v.

Lemma enc_str_len s : len (enc_str s) = 4 + len s.
Proof. unfold enc_str. rewrite len_app. unfold len at 1. by rewrite enc_u32_len. Qed.

Lemma skip_pairs_spec (kvs : list (bytes * bytes)) r n0 :
  0 <= n0 -> n0 + len (concat (map kv_enc kvs)) < 2 ^ 32 ->
  skip_pairs (length kvs) (concat (map kv_enc kvs) ++ r) n0 =
  Some (n0 + len (concat (map kv_enc kvs))).
Proof.
  revert n0. induction kvs as [|[k v] kvs IH]; intros n0 H0 Hn.
  { cbn. by rewrite len_nil, Z.add_0_r. }
  cbn [map concat length skip_pairs kv_enc] in *. rewrite !len_app, !enc_str_len in *.
  pose proof (len_nonneg k). pose proof (len_nonneg v). pose proof (len_nonneg (concat (map kv_enc kvs))).
  unfold enc_str. rewrite <- !app_assoc, dec_enc_u32 by lia. cbn [mbind option_bind].
  rewrite advance_app. cbn [mbind option_bind]. rewrite dec_enc_u32 by lia. cbn [mbind option_bind].
  rewrite advance_app. cbn [mbind option_bind]. rewrite !(u32_small (4 + _)) by lia.
  rewrite (u32_small (n0 + _)), (u32_small (n0 + (4 + len k) + _)) by lia.
  rewrite IH by lia. f_equal. lia.
Qed.

Lemma decode_str_str_map_to_bl_spec kvs r :
  len kvs < 2 ^ 32 -> len (enc_map enc_str kvs) < 2 ^ 32 ->
  decode_str_str_map_to_bl (enc_map enc_str kvs ++ r) = Some (enc_map enc_str kvs).
Proof.
  intros Hn Hl. pose proof (len_nonneg kvs). unfold decode_str_str_map_to_bl.
  change (enc_map enc_str kvs) with (enc_u32 (len kvs) ++ concat (map kv_enc kvs)) in *.
  assert (len (enc_u32 (len kvs)) = 4) as H4 by (unfold len at 1; by rewrite enc_u32_len).
  rewrite len_app, H4 in Hl. rewrite <- app_assoc at 1. rewrite dec_enc_u32 by lia. cbn [mbind option_bind].
  replace (Z.to_nat (len kvs)) with (length kvs) by (unfold len; lia).
  rewrite skip_pairs_spec by lia. cbn [mbind option_bind].
  rewrite <- H4, <- len_app. unfold copy. rewrite (len_app _ r). pose proof (len_nonneg r).
  replace (_ <=? _) with true by lia. cbn. unfold len. by rewrite Nat2Z.id, take_app_length.
Qed.

Definition short (s : bytes) : Prop := len s < 2 ^ 32.

Lemma dec_int_enc i r : 0 <= i < 2 ^ 31 -> dec_int (enc_u32 i ++ r) = Some (i, r).
Proof. intros Hi. unfold dec_int. rewrite dec_enc_u32 by lia. cbn. by rewrite s32_small by lia. Qed.

(** C19: what a client encodes is what the engine gets: for every ordered map
    of omap entries, the keys and values of an OMAPSETVALS come out of the
    conversion in order and unchanged, whatever follows them in the message;
    likewise the keys, values and operators of an OMAP_CMP and the three
    arguments of an OMAPGETVALS. *)
Theorem ConvertOmapOp_roundtrip (c : OSDOp) (o : OpRequestOps) (rest : bytes) :
  (forall kvs, op (osd_op c) = CEPH_OSD_OP_OMAPSETVALS -> map_ok short kvs ->
     len (enc_map enc_str kvs) < 2 ^ 32 -> indata c = enc_map enc_str kvs ++ rest ->
     ConvertOmapOp c o = Some (push (map fst kvs) (map snd kvs) [] [] [] o)) /\
  (forall (kvs : list (bytes * (bytes * Z))), op (osd_op c) = CEPH_OSD_OP_OMAP_CMP ->
     map_ok (fun p => short (fst p) /\ 0 <= snd p < 2 ^ 31) kvs ->
     indata c = enc_map (fun '(v, cmp) => enc_str v ++ enc_u32 cmp) kvs ++ rest ->
     ConvertOmapOp c o =
       Some (push (map fst kvs) (map (fst ∘ snd) kvs) (map (snd ∘ snd) kvs) [] [] o)) /\
  (forall start n prefix, op (osd_op c) = CEPH_OSD_OP_OMAPGETVALS -> short start -> short prefix ->
     0 <= n < 2 ^ 64 -> indata c = enc_str start ++ enc_u64 n ++ enc_str prefix ++ rest ->
     ConvertOmapOp c o =
       Some (push [bs "start_after"; bs "max_return"; bs "filter_prefix"]
                  [start; to_string n; prefix] [] [] [] o)).
Proof.
  split_and!.
  - intros kvs Hop Hok Hl Hin. unfold ConvertOmapOp. rewrite Hop, Hin.
    rewrite decode_str_str_map_to_bl_spec by (apply Hok || done). cbn [mbind option_bind].
    pose proof (dec_enc_map enc_str dec_str short kvs [] (dec_enc_str) Hok) as Hd.
    rewrite app_nil_r in Hd. by rewrite Hd.
  - intros kvs Hop Hok Hin. unfold ConvertOmapOp. rewrite Hop, Hin.
    rewrite (dec_enc_map _ (dec_pair dec_str dec_int) (fun p => short (fst p) /\ 0 <= snd p < 2 ^ 31));
      [done| |done].
    intros [v cmp] q [Hv Hc]. unfold dec_pair. rewrite <- app_assoc, dec_enc_str by done.
    cbn [mbind option_bind]. cbn in Hc. by rewrite dec_int_enc.
  - intros start n prefix Hop Hs Hp Hn Hin. unfold ConvertOmapOp. rewrite Hop, Hin.
    rewrite dec_enc_str by done. cbn [mbind option_bind]. rewrite dec_enc_u64 by done.
    cbn [mbind option_bind]. by rewrite dec_enc_str.
Qed.

(** The operations whose conversion decodes the message's payload. *)
Definition decodes (t : OsdOp) : bool :=
  match t with
  | CEPH_OSD_OP_OMAPGETVALS | CEPH_OSD_OP_OMAPSETVALS | CEPH_OSD_OP_OMAPGETKEYS
  | CEPH_OSD_OP_OMAPRMKEYS | CEPH_OSD_OP_OMAPGETVALSBYKEYS | CEPH_OSD_OP_OMAP_CMP => true
  | _ => false
  end.

(** A client can make the conversion throw: an omap operation whose
    payload is shorter than its first count, and an attribute operation whose
    name is longer than its payload, leave [ConvertClientopToOpreq] by an
    exception, which none of its callers -- the worker threads -- catches;
    a call with a short payload does not. *)
Theorem malformed_op_throws (flag : bool) (c : OSDOp) (o : OpRequestOps) (ot : OptionsType)
  (ol : OptionsLength) :
  (decodes (op (osd_op c)) = true -> len (indata c) < 4 ->
     ConvertClientopToOpreq flag c o ot ol = None) /\
  (op (osd_op c) = CEPH_OSD_OP_GETXATTR -> len (indata c) < name_len (osd_op c) ->
     ConvertClientopToOpreq flag c o ot ol = None) /\
  (op (osd_op c) = CEPH_OSD_OP_CALL -> is_Some (ConvertClientopToOpreq flag c o ot ol)).
Proof.
  split_and!.
  - intros Hd Hl. assert (dec_u32 (indata c) = None) as Hn by (apply dec_u32_short; unfold len in Hl; lia).
    unfold ConvertClientopToOpreq. destruct (op (osd_op c)) eqn:E; try done; cbn -[u32 dec_map dec_set];
      unfold ConvertOmapOp; cbn; rewrite E;
      unfold decode_str_str_map_to_bl, dec_map, dec_set, dec_list, dec_str; by rewrite Hn.
  - intros E Hl. unfold ConvertClientopToOpreq. rewrite E. unfold ConvertAttrOp, copy.
    by replace (name_len (osd_op c) <=? len (indata c)) with false by lia.
  - intros E. unfold ConvertClientopToOpreq. rewrite E. by eexists.
Qed.
End convert.

Definition op_of (t : OsdOp) : ceph_osd_op :=
  {| op := t; op_flags := 0; extent_offset := 0; extent_length := 0; name_len := 5; value_len := 0;
     cmp_op := 0; cmp_mode := MODE_OTHER 0; class_len := 3; method_len := 6; cls_indata_len := 0; snapid := 0;
     writesame_offset := 0; writesame_length := 0 |}.

Lemma ConvertOmapOp_roundtrip_witness :
  let kvs := [(bs "a", bs "1"); (bs "b", bs "22")] in
  let c := {| osd_op := op_of CEPH_OSD_OP_OMAPSETVALS; outdata := []; rval := 0;
              indata := @enc_map le_ints _ (@enc_str le_ints) kvs ++ bs "tail" |} in
  @ConvertOmapOp le_ints c (new_op (bs "obj")) =
    Some (push [bs "a"; bs "b"] [bs "1"; bs "22"] [] [] [] (new_op (bs "obj"))).
Proof.
  intros kvs c.
  refine (proj1 (@ConvertOmapOp_roundtrip le_ints c (new_op (bs "obj")) (bs "tail")) kvs _ _ _ _).
  - reflexivity.
  - split; [|split].
    + repeat constructor.
    + vm_compute. reflexivity.
    + repeat constructor; vm_compute; reflexivity.
  - vm_compute. reflexivity.
  - reflexivity.
Defined.

Lemma malformed_op_throws_witness :
  let c := {| osd_op := op_of CEPH_OSD_OP_OMAPRMKEYS; outdata := []; rval := 0; indata := bs "xy" |} in
  @ConvertClientopToOpreq le_ints (fun _ p => p) false c (new_op (bs "obj"))
    {| ot_write := 0; ot_read := 0 |} {| ol_write := 0; ol_read := 0 |} = None.
Proof.
  intros c.
  refine (proj1 (@malformed_op_throws le_ints (fun _ p => p) false c (new_op (bs "obj"))
            {| ot_write := 0; ot_read := 0 |} {| ol_write := 0; ol_read := 0 |}) _ _).
  - reflexivity.
  - vm_compute. reflexivity.
Defined.
End MsgModule.
