(* ===== verification/Throttle.v ===== *)
(** * [network_module.cpp]: the compare-and-swap counters of the write and read throttles

    [lwtCount], [lwtWriteCount], [lwtReadCount], [writeIops], [writeBW] and
    [readBW] are counters with a Get that adds and waits and a Put that
    subtracts.  The threads' programs are modelled step by step: each read of the
    counter and each compare-and-swap is one action. *)

From S2P Require Import Prelude.

Module Throttle.

(** Where a thread stands.  [guarded] tells the Puts that test the counter
    ([PutWritelwtCas] and the like) from [PutlwtCas]. *)
Inductive pc :=
| Idle
| GetRead (c : Z)                      (* old = count *)
| GetCas (c old : Z)                   (* CAS(&count, old, old + c) *)
| GetWait (old : Z)                    (* while (old > throttle) *)
| PutCheck (guarded : bool) (c : Z)    (* if (count < c) return *)
| PutRead (guarded : bool) (c : Z)     (* old = count *)
| PutCas (guarded : bool) (c old : Z). (* CAS(&count, old, old - c) *)

(** [added] and [subtracted] count the successful swaps; [threads] all threads. *)
Record t := { count : Z; threads : list pc; added : Z; subtracted : Z }.

Definition set_pc (i : nat) (p : pc) (s : t) : t :=
  {| count := count s; threads := <[i := p]> (threads s); added := added s; subtracted := subtracted s |}.

Definition GetlwtCas_swap (i : nat) (c old : Z) (s : t) : t :=
  if count s =? old then
    {| count := u64 (old + c); threads := <[i := GetWait old]> (threads s);
       added := added s + c; subtracted := subtracted s |}
  else set_pc i (GetRead c) s.

Definition PutlwtCas_swap (i : nat) (guarded : bool) (c old : Z) (s : t) : t :=
  if count s =? old then
    {| count := u64 (old - c); threads := <[i := Idle]> (threads s);
       added := added s; subtracted := subtracted s + c |}
  else set_pc i (if guarded then PutCheck guarded c else PutRead guarded c) s.

(** A thread starts a Get or a Put, or makes its next step; [throttle] is the
    limit as it reads it now (0: no limit). *)
Inductive label := StartGet (i : nat) (c : Z) | StartPut (i : nat) (guarded : bool) (c : Z)
                 | Step (i : nat) (throttle : Z).

Definition step (a : label) (s : t) : option t :=
  match a with
  | StartGet i c =>
      match threads s !! i with Some Idle => Some (set_pc i (GetRead c) s) | _ => None end
  | StartPut i g c =>
      match threads s !! i with
      | Some Idle => Some (set_pc i (if g then PutCheck g c else PutRead g c) s)
      | _ => None
      end
  | Step i throttle =>
      p ← threads s !! i;
      match p with
      | Idle => None
      | GetRead c => Some (set_pc i (GetCas c (count s)) s)
      | GetCas c old => Some (GetlwtCas_swap i c old s)
      | GetWait old =>
          if (throttle =? 0) || (old <=? throttle) then Some (set_pc i Idle s)
          else Some (set_pc i (GetWait (count s)) s)
      | PutCheck g c => Some (set_pc i (if count s <? c then Idle else PutRead g c) s)
      | PutRead g c => Some (set_pc i (PutCas g c (count s)) s)
      | PutCas g c old => Some (PutlwtCas_swap i g c old s)
      end
  end.

Fixpoint run (tr : list label) (s : t) : option t :=
  match tr with
  | [] => Some s
  | a :: tr' => s' ← step a s; run tr' s'
  end.

Definition init (n : nat) : t :=
  {| count := 0; threads := replicate n Idle; added := 0; subtracted := 0 |}.

Lemma step_count a s s' :
  count s = u64 (added s - subtracted s) -> step a s = Some s' ->
  count s' = u64 (added s' - subtracted s').
Proof.
  intros Hc Hs. destruct a as [i c|i g c|i thr]; cbn in Hs.
  1,2: destruct (threads s !! i) as [[]|]; try done; by injection Hs as <-.
  apply bind_Some in Hs as (p & Hp & Hs). destruct p; try done; try (injection Hs as <-).
  - done.
  - unfold GetlwtCas_swap. destruct (count s =? old) eqn:E; bprop; cbn; [|done].
    rewrite <- E, Hc. unfold u64. rewrite wrap_add_l by lia. f_equal. lia.
  - destruct (_ || _); by injection Hs as <-.
  - done.
  - done.
  - unfold PutlwtCas_swap. destruct (count s =? old) eqn:E; bprop; cbn; [|done].
    rewrite <- E, Hc. unfold u64. rewrite <- Z.add_opp_r, wrap_add_l by lia. f_equal. lia.
Qed.

Lemma run_count tr s s' :
  count s = u64 (added s - subtracted s) -> run tr s = Some s' ->
  count s' = u64 (added s' - subtracted s').
Proof.
  revert s. induction tr as [|a tr IH]; intros s Hc Hr; cbn in Hr; [by injection Hr as <-|].
  apply bind_Some in Hr as (s1 & H1 & Hr). eapply IH; [|done]. by eapply step_count.
Qed.

(** No update is lost: in every interleaving of Gets and Puts the counter
    is what was added minus what was subtracted; so while the Puts that
    completed do not exceed the Gets, it is exactly the amount outstanding.  A
    guarded Put that runs alone takes nothing from a counter that is too small. *)
Theorem counter_exact (n : nat) (tr : list label) (s : t) (Hr : run tr (init n) = Some s) :
  count s = u64 (added s - subtracted s) /\
  (subtracted s <= added s < 2 ^ 64 -> 0 <= subtracted s -> count s = added s - subtracted s) /\
  (forall i c thr s', threads s !! i = Some Idle -> count s < c ->
     run [StartPut i true c; Step i thr] s = Some s' -> count s' = count s).
Proof.
  assert (count s = u64 (added s - subtracted s)) as Hc by (eapply (run_count tr (init n)); [reflexivity|exact Hr]).
  split; [done|]. split.
  - intros H1 H2. rewrite Hc. apply u64_small. lia.
  - intros i c thr s' Hi Hlt Hrun. cbn in Hrun. rewrite Hi in Hrun. cbn in Hrun.
    rewrite list_lookup_insert_eq in Hrun by (eapply lookup_lt_Some; exact Hi). cbn in Hrun.
    replace (count s <? c) with true in Hrun by lia. by injection Hrun as <-.
Qed.

(** Two threads add, one takes back while the other is between read and swap. *)
Definition busy : list label :=
  [StartGet 0 1; StartGet 1 1; Step 0 5; Step 1 5; Step 1 5; Step 0 5; Step 0 5; Step 0 5; Step 1 5;
   StartPut 1 true 1; Step 1 5; Step 1 5; Step 1 5].

Lemma counter_exact_witness :
  exists s, run busy (init 2) = Some s /\ added s = 2 /\ subtracted s = 1 /\
    count s = added s - subtracted s.
Proof.
  assert (exists s, run busy (init 2) = Some s) as [s Hs] by (vm_compute; eexists; reflexivity).
  exists s. pose proof (counter_exact 2 busy s Hs) as (_ & H2 & _).
  assert (added s = 2 /\ subtracted s = 1) as [E1 E2].
  { vm_compute in Hs. injection Hs as <-. split; reflexivity. }
  split; [exact Hs|]. split; [exact E1|]. split; [exact E2|]. apply H2; rewrite ?E1, ?E2; lia.
Defined.

(** The test of a guarded Put does not protect it: two threads that put
    back one unit while the counter holds one (possible because a Get is
    skipped while its throttle is off, the matching Put is not) both pass the
    test, and the counter wraps to 2^64 - 1, above every throttle. *)
Theorem guarded_put_underflows :
  exists tr s, run tr {| count := 1; threads := [Idle; Idle]; added := 1; subtracted := 0 |} = Some s /\
    threads s = [Idle; Idle] /\ count s = 2 ^ 64 - 1.
Proof.
  exists [StartPut 0 true 1; StartPut 1 true 1; Step 0 0; Step 1 0; Step 0 0; Step 0 0; Step 1 0; Step 1 0].
  eexists. split; [vm_compute; reflexivity|]. split; reflexivity.
Qed.

(** *** Waiting on a counter that has underflowed *)

Definition waiting (p : pc) : bool := match p with GetWait _ => true | _ => false end.
(** A Get of one unit that has only seen values of at least [lo]. *)
Definition stuck_get (lo : Z) (p : pc) : Prop :=
  match p with
  | GetRead c => c = 1
  | GetCas c old => c = 1 /\ lo <= old
  | GetWait old => lo <= old
  | _ => False
  end.

Definition blocked (k : Z) (s : t) : Prop :=
  Forall (stuck_get (2 ^ 64 - k)) (threads s) /\
  count s = 2 ^ 64 - k + count_if waiting (threads s) /\
  len (threads s) < k.

Lemma blocked_step k i thr s s' :
  0 < k < 2 ^ 64 -> 0 < thr < 2 ^ 64 - k -> blocked k s -> step (Step i thr) s = Some s' -> blocked k s'.
Proof.
  intros Hk Hthr (Hf & Hc & Hl) Hs. cbn in Hs. apply bind_Some in Hs as (p & Hp & Hs).
  pose proof (Forall_lookup_1 _ _ _ _ Hf Hp) as Hsp.
  pose proof (count_if_le waiting (threads s)) as Hle.
  assert (forall q, stuck_get (2 ^ 64 - k) q -> waiting q = waiting p -> blocked k (set_pc i q s)) as Hkeep.
  { intros q Hq Hw. unfold blocked. cbn [set_pc threads count]. rewrite len_insert.
    split; [by apply Forall_insert|]. split; [|done].
    rewrite (count_if_insert _ _ _ _ _ Hp), Hw. lia. }
  destruct p; try done; cbn in Hsp.
  - injection Hs as <-. apply Hkeep; [cbn; lia|done].
  - injection Hs as <-. unfold GetlwtCas_swap. destruct Hsp as [-> Hold].
    destruct (count s =? old) eqn:E; bprop; [|apply Hkeep; done].
    unfold blocked. cbn [threads count]. rewrite len_insert.
    split; [apply Forall_insert; done|]. split; [|done].
    pose proof (count_if_le waiting (<[i := GetWait old]> (threads s))) as Hins.
    rewrite len_insert, (count_if_insert _ _ _ _ _ Hp) in Hins.
    rewrite (count_if_insert _ _ _ _ _ Hp). cbn [waiting Z.b2z] in *. rewrite u64_small by lia. lia.
  - replace (thr =? 0) with false in Hs by lia. replace (old <=? thr) with false in Hs by lia.
    injection Hs as <-. apply Hkeep; [cbn; lia|done].
Qed.

Lemma blocked_run k thr tr s s' :
  0 < k < 2 ^ 64 -> 0 < thr < 2 ^ 64 - k -> blocked k s ->
  Forall (fun a => exists i, a = Step i thr) tr -> run tr s = Some s' -> blocked k s'.
Proof.
  intros Hk Hthr Hb Ht. revert s Hb. induction Ht as [|a tr [i ->] Ht IH]; intros s Hb Hr.
  - by injection Hr as <-.
  - cbn [run] in Hr. apply bind_Some in Hr as (s1 & H1 & Hr). eapply IH; [|done].
    by eapply blocked_step.
Qed.
End Throttle.
