(* ===== verification/NetworkModule.v ===== *)
(** * [network_module.cpp]: from a client message to a cache request and back

    [ProcessOpReq] turns an [MOSDOp] into the [SaOpReq] the cache engine runs;
    [FinishCacheOps] sends the reply and returns the throttle units that the
    worker's Gets took.  The counters' Gets and Puts are single steps here:
    [Throttle.counter_exact] is what allows it.  The messenger, the message class
    [MOSDOp] and the cache engine are outside the repository: of a message the
    model keeps what the code reads, and [replies] is what was sent. *)

From S2P Require Import Prelude CStr Encoding MsgModule Throttle.
Import SaDef.

Module NetworkModule.

(** What the code reads of an [MOSDOp]; [get_pool] is a signed 64-bit pool id, [get_tid]
    an unsigned number that the request keeps in a [long]. *)
Record MOSDOp := {
  mosdop_ptr : Z; get_tid : Z; get_snapid : Z; get_pool : Z; get_seq : Z; m_seed : Z;
  get_snap_seq : Z; get_snaps : list Z; get_oid : bytes; ops : list OSDOp
}.

(** How [ProcessOpReq] ends: 0 with the request, 1 after a reply was sent, -1,
    or by an exception nobody catches. *)
Inductive processed := Converted (r : SaOpReq) | Refused (ret : Z) | Overflow | Threw.

Definition strtok_dot (name : bytes) : list bytes := strtok (is_char "."%char) (c_str name).

(** The name test: [None] when the message is refused, else [isRbd]. *)
Definition is_rbd (vecObj : list bytes) : option bool :=
  match vecObj with
  | h :: _ => if bytes_eqb h (bs "rbd_data")
              then if (3 <=? length vecObj)%nat then Some true else None
              else Some false
  | [] => Some false
  end.

(** [vecObj[vecObj.size() - k]] *)
Definition from_end (k : nat) (vecObj : list bytes) : bytes :=
  default [] (vecObj !! (length vecObj - k)%nat).

(** The object id of a name with at least three sections; [None]: pool overflow. *)
Definition rbd_objid (vecObj : list bytes) : option RbdObjid :=
  let imageId := bs "1" ++ from_end 2 vecObj in
  let head := st_val (strtoull 16 imageId) in
  let seq := wrap 40 (st_val (strtoull 16 (from_end 1 vecObj))) in
  if (3 <? length vecObj)%nat then
    let poolId := st_val (strtoull 10 (from_end 3 vecObj)) in
    if 0 <? Z.shiftr poolId 32 then None
    else Some {| rbd_poolId := poolId; rbd_head := head; rbd_seq := seq;
                 rbd_format := FORMAT_SPECIFY_MD_DATE_POOL; rbd_version := SA_VERSION |}
  else Some {| rbd_poolId := 0; rbd_head := head; rbd_seq := seq;
               rbd_format := FORMAT_UNSPECIFY_MD_DATE_POOL; rbd_version := SA_VERSION |}.

Definition set_rbd (id : RbdObjid) (o : OpRequestOps) : OpRequestOps :=
  {| opSubType := opSubType o; objName := objName o; isRbd := true; rbdObjId := Some id;
     inData := inData o; inDataLen := inDataLen o; outDataLen := outDataLen o;
     objOffset := objOffset o; objLength := objLength o; opFlags := opFlags o; keys := keys o;
     values := values o; subops := subops o; u64vals := u64vals o; cmpModes := cmpModes o |}.

Section process.
Context `{CephInts} (partial_copy : Z -> bytes -> bytes) (readStatFlag : bool).

(** What the loop over [op->ops] has built. *)
Record acc := { a_ops : list OpRequestOps; a_type : OptionsType; a_len : OptionsLength; a_copyup : Z }.

Definition acc0 : acc :=
  {| a_ops := []; a_type := {| ot_write := 0; ot_read := 0 |};
     a_len := {| ol_write := 0; ol_read := 0 |}; a_copyup := 0 |}.

(** One round for the client operation [i]; [id] is [None] for a name that is
    not an rbd name. *)
Definition convert_one (name : bytes) (id : option RbdObjid) (i : OSDOp) (a : acc) : option acc :=
  let oneOp := MsgModule.new_op (c_str name) in
  let oneOp := match id with Some id => set_rbd id oneOp | None => oneOp end in
  c ← MsgModule.ConvertClientopToOpreq partial_copy readStatFlag i oneOp (a_type a) (a_len a);
  Some {| a_ops := a_ops a ++ [MsgModule.c_op c]; a_type := MsgModule.c_type c;
          a_len := MsgModule.c_len c;
          a_copyup := if MsgModule.c_ret c =? 1 then 1 else a_copyup a |}.

Fixpoint convert_ops (name : bytes) (id : option RbdObjid) (l : list OSDOp) (a : acc) : option acc :=
  match l with
  | [] => Some a
  | i :: l' => a' ← convert_one name id i a; convert_ops name id l' a'
  end.

Definition make_req (op : MOSDOp) (a : acc) : SaOpReq :=
  let write := negb (ot_write (a_type a) =? 0) in
  {| vecOps := a_ops a;
     optionType := if write then GCACHE_WRITE else GCACHE_READ;
     optionLength := if write then ol_write (a_len a) else ol_read (a_len a);
     opType := 0; req_snapId := get_snapid op; tid := s64 (get_tid op); opsSequence := get_seq op;
     ptrMosdop := mosdop_ptr op; ptId := m_seed op;
     req_poolId := Z.land (get_pool op) (2 ^ 32 - 1); ts := 0; snapSeq := get_snap_seq op;
     snaps := get_snaps op; exitsCopyUp := a_copyup a; copyupFlag := false;
     ptVersion := u64 (Z.shiftr (get_pool op) 32) |}.

Definition ProcessOpReq (op : MOSDOp) : processed :=
  let vecObj := strtok_dot (get_oid op) in
  let finish r := match r with Some a => Converted (make_req op a) | None => Threw end in
  match is_rbd vecObj with
  | None => Refused (- EINVAL)
  | Some false => finish (convert_ops (get_oid op) None (ops op) acc0)
  | Some true =>
      match ops op with
      | [] => finish (Some acc0)
      | _ => match rbd_objid vecObj with
             | None => Overflow
             | Some id => finish (convert_ops (get_oid op) (Some id) (ops op) acc0)
             end
      end
  end.

(** *** What the loop computes *)











End process.

(** *** The names of rbd data objects *)

(** [rbd_data.<id>.<seq>], or [rbd_data.<pool>.<id>.<seq>] with a data pool. *)
Definition rbd_name (pool : option Z) (id seq : bytes) : bytes :=
  bs "rbd_data" ++ "."%char ::
    match pool with
    | Some p => to_string p ++ "."%char :: id ++ "."%char :: seq
    | None => id ++ "."%char :: seq
    end.

(** Lower-case hexadecimal, as librbd prints ids and object numbers. *)
Definition lower_hex (c : Ascii.ascii) : Prop :=
  let n := Ascii.nat_of_ascii c in (48 <= n <= 57)%nat \/ (97 <= n <= 102)%nat.
#[export] Instance lower_hex_dec c : Decision (lower_hex c).
Proof. unfold lower_hex. apply _. Defined.

Definition hex_digit (c : Ascii.ascii) : Z := default 0 (digit_in 16 c).
Definition hex_val (s : bytes) : Z := horner 16 (map hex_digit s).

(** Checked on all 256 characters: a lower-case digit has a value, and comes
    back from it. *)
Lemma lower_hex_table c :
  negb (bool_decide (lower_hex c)) ||
  (bool_decide (digit_in 16 c = Some (hex_digit c)) && (0 <=? hex_digit c) && (hex_digit c <? 16) &&
   Ascii.eqb (Ascii.ascii_of_nat (Z.to_nat (if hex_digit c <? 10 then hex_digit c + 48
                                            else hex_digit c + 87))) c) = true.
Proof. by destruct c as [[] [] [] [] [] [] [] []]. Qed.

Lemma lower_hex_digit c : lower_hex c -> digit_in 16 c = Some (hex_digit c) /\ 0 <= hex_digit c < 16.
Proof.
  intros Hc. pose proof (lower_hex_table c) as Ht. rewrite (bool_decide_true _ Hc) in Ht.
  cbn [negb orb] in Ht. bprop.
  match goal with H : bool_decide _ = true |- _ => apply bool_decide_eq_true in H end. done.
Qed.

Lemma lower_hex_inj c d : lower_hex c -> lower_hex d -> hex_digit c = hex_digit d -> c = d.
Proof.
  intros Hc Hd He. pose proof (lower_hex_table c) as Ht. pose proof (lower_hex_table d) as Hu.
  rewrite (bool_decide_true _ Hc) in Ht. rewrite (bool_decide_true _ Hd) in Hu.
  cbn [negb orb] in Ht, Hu. apply andb_true_iff in Ht as [_ <-%Ascii.eqb_eq].
  apply andb_true_iff in Hu as [_ <-%Ascii.eqb_eq]. by rewrite He.
Qed.

Lemma lower_hex_plain c : lower_hex c ->
  Ascii.eqb c NUL = false /\ isspace c = false /\ Ascii.eqb c "-"%char = false /\
  Ascii.eqb c "+"%char = false /\ is_char "."%char c = false /\
  (Ascii.eqb c "x"%char || Ascii.eqb c "X"%char) = false.
Proof.
  intros Hc. assert (forall x, ~ lower_hex x -> Ascii.eqb c x = false) as Hn.
  { intros x Hx. apply Ascii.eqb_neq. by intros ->. }
  assert (forall x, bool_decide (lower_hex x) = false -> Ascii.eqb c x = false) as Hb.
  { intros x Hx. apply Hn. by apply bool_decide_eq_false in Hx. }
  split_and!; try (by apply Hb).
  - unfold lower_hex in Hc. unfold isspace. apply orb_false_iff. split; [apply andb_false_iff; right|].
    + apply Nat.leb_gt. lia.
    + apply Nat.eqb_neq. lia.
  - unfold is_char. rewrite Ascii.eqb_sym. by apply Hb.
  - apply orb_false_iff. split; by apply Hb.
Qed.

Lemma lower_hex_mapM s : Forall lower_hex s -> mapM (digit_in 16) s = Some (map hex_digit s).
Proof.
  induction 1 as [|c s Hc _ IH]; [done|]. cbn. destruct (lower_hex_digit _ Hc) as [-> _]. cbn. by rewrite IH.
Qed.

Lemma hex_digits_range s : Forall lower_hex s -> Forall (fun d => 0 <= d < 16) (map hex_digit s).
Proof. induction 1 as [|c s Hc _ IH]; constructor; [by apply lower_hex_digit|done]. Qed.

Lemma hex_val_range s : Forall lower_hex s -> 0 <= hex_val s < 16 ^ len s.
Proof.
  intros Hs. pose proof (horner_range 16 (map hex_digit s) ltac:(lia) (hex_digits_range _ Hs)) as Hr.
  unfold len in *. by rewrite length_map in Hr.
Qed.

Lemma hex_val_inj s t : Forall lower_hex s -> Forall lower_hex t -> length s = length t ->
  hex_val s = hex_val t -> s = t.
Proof.
  intros Hs Ht Hl He.
  assert (map hex_digit s = map hex_digit t) as Hm.
  { apply (horner_inj 16); [lia|by rewrite !length_map|by apply hex_digits_range..|done]. }
  clear Hl He. revert t Ht Hm. induction Hs as [|c s Hc _ IH]; intros [|d t] Ht Hm; try done.
  apply Forall_cons in Ht as [Hd Ht]. cbn in Hm. injection Hm as H1 H2.
  f_equal; [by apply lower_hex_inj|by apply IH].
Qed.

Lemma c_str_hex s : Forall lower_hex s -> c_str s = s.
Proof.
  induction 1 as [|c s Hc _ IH]; [done|]. cbn. destruct (lower_hex_plain _ Hc) as (-> & _). by rewrite IH.
Qed.

Lemma strtoull_hex s : Forall lower_hex s -> s <> [] -> hex_val s <= UINT64_MAX ->
  st_val (strtoull 16 s) = hex_val s.
Proof.
  intros Hs Hne Hv. unfold strtoull, parse_int. rewrite c_str_hex by done.
  destruct s as [|c s]; [done|]. pose proof Hs as Hs'. apply Forall_cons in Hs' as [Hc Hs'].
  destruct (lower_hex_plain _ Hc) as (_ & H1 & H2 & H3 & _).
  cbn [skip_space]. rewrite H1. cbn [take_sign]. rewrite H2, H3.
  assert (skip_0x 16 (c :: s) = c :: s) as ->.
  { destruct s as [|x [|d r]]; [done..|]. apply Forall_cons in Hs' as [Hx _].
    destruct (lower_hex_plain _ Hx) as (_ & _ & _ & _ & _ & Hx'). cbn -[Ascii.eqb].
    by rewrite Hx', andb_false_r. }
  erewrite digits_horner by (by apply lower_hex_mapM). cbn [p_mag p_neg].
  change (fold_left _ _ 0) with (hex_val (c :: s)).
  by replace (UINT64_MAX <? hex_val (c :: s)) with false by lia.
Qed.

(** The parts of a name librbd makes: at most 15 digits of image id, 16 digits
    of object number, and a 32-bit pool. *)
Definition rbd_parts_ok (pool : option Z) (id seq : bytes) : Prop :=
  match pool with Some p => 0 <= p < 2 ^ 32 | None => True end /\
  Forall lower_hex id /\ (1 <= length id <= 15)%nat /\
  Forall lower_hex seq /\ length seq = 16%nat /\ hex_val seq < 2 ^ 40.

Lemma c_str_no_nul s : Forall (fun c => Ascii.eqb c NUL = false) s -> c_str s = s.
Proof. induction 1 as [|c s Hc _ IH]; [done|]. cbn. by rewrite Hc, IH. Qed.

Lemma lower_hex_token s : Forall lower_hex s -> s <> [] -> token (is_char "."%char) s.
Proof.
  intros Hs Hne. split; [done|]. eapply Forall_impl; [done|]. intros c Hc. by apply lower_hex_plain.
Qed.

Lemma is_digit_lower_hex c : is_digit c -> lower_hex c.
Proof. intros Hc%is_digit_code. left. lia. Qed.

Lemma strtok_rbd_name pool id seq : rbd_parts_ok pool id seq ->
  strtok_dot (rbd_name pool id seq) =
    bs "rbd_data" :: match pool with Some p => [to_string p; id; seq] | None => [id; seq] end.
Proof.
  intros (Hp & Hid & Hl & Hseq & Hl2 & _).
  assert (id <> [] /\ seq <> []) as [Hn1 Hn2] by (split; intros ->; cbn in *; lia).
  assert (forall s, Forall lower_hex s -> Forall (fun c => Ascii.eqb c NUL = false) s) as Hnul.
  { intros s Hs. eapply Forall_impl; [done|]. intros c Hc. by apply lower_hex_plain. }
  assert (Forall lower_hex (match pool with Some p => to_string p | None => [] end)) as Hpool.
  { destruct pool; [|constructor]. eapply Forall_impl; [apply to_string_spec; lia|].
    apply is_digit_lower_hex. }
  unfold strtok_dot. rewrite c_str_no_nul.
  - unfold rbd_name. rewrite strtok_cons_token; [|split; [done|repeat constructor]|done]. f_equal.
    destruct pool as [p|].
    + rewrite strtok_cons_token; [f_equal|apply lower_hex_token; [done|apply to_string_spec; lia]|done].
      rewrite strtok_cons_token; [f_equal|by apply lower_hex_token|done].
      apply strtok_token. by apply lower_hex_token.
    + rewrite strtok_cons_token; [f_equal|by apply lower_hex_token|done].
      apply strtok_token. by apply lower_hex_token.
  - unfold rbd_name. apply Forall_app. split; [repeat constructor|]. constructor; [done|].
    destruct pool as [p|]; [apply Forall_app; split; [by apply Hnul|constructor; [done|]]|];
      (apply Forall_app; split; [by apply Hnul|constructor; [done|by apply Hnul]]).
Qed.

Lemma hex_val_1 id : hex_val (bs "1" ++ id) = 16 ^ len id + hex_val id.
Proof.
  unfold hex_val. change (map hex_digit (bs "1" ++ id)) with (1 :: map hex_digit id).
  rewrite horner_cons. unfold len. rewrite length_map. lia.
Qed.

Lemma hex_head_range id : Forall lower_hex id -> (length id <= 15)%nat ->
  0 <= hex_val id < 16 ^ len id /\ 16 ^ len id <= 16 ^ 15.
Proof.
  intros Hid Hl. split; [by apply hex_val_range|]. apply Z.pow_le_mono_r; unfold len; lia.
Qed.

Lemma rbd_objid_spec pool id seq : rbd_parts_ok pool id seq ->
  rbd_objid (strtok_dot (rbd_name pool id seq)) =
    Some {| rbd_poolId := default 0 pool; rbd_head := 16 ^ len id + hex_val id; rbd_seq := hex_val seq;
            rbd_format := match pool with Some _ => FORMAT_SPECIFY_MD_DATE_POOL
                                        | None => FORMAT_UNSPECIFY_MD_DATE_POOL end;
            rbd_version := SA_VERSION |}.
Proof.
  intros Hok. rewrite strtok_rbd_name by done. destruct Hok as (Hp & Hid & Hl & Hseq & Hl2 & Hv).
  destruct (hex_head_range id Hid) as [Hr1 Hr2]; [lia|].
  pose proof (hex_val_range seq Hseq) as Hr3.
  assert (st_val (strtoull 16 (bs "1" ++ id)) = 16 ^ len id + hex_val id) as Hh.
  { rewrite <- hex_val_1. apply strtoull_hex; [|done|rewrite hex_val_1; unfold UINT64_MAX; lia].
    constructor; [left; vm_compute; lia|done]. }
  assert (wrap 40 (st_val (strtoull 16 seq)) = hex_val seq) as Hq.
  { rewrite strtoull_hex; [apply (wrap_small 40); lia|done|intros ->; cbn in *; lia|unfold UINT64_MAX; lia]. }
  unfold rbd_objid. destruct pool as [p|]; cbn [length Nat.ltb Nat.leb from_end];
    unfold from_end; cbn [length Nat.sub lookup list_lookup default].
  - cbn in *. rewrite Hh, Hq, strtoull_to_string by (unfold UINT64_MAX; lia). cbn [st_val].
    replace (0 <? Z.shiftr p 32) with false; [done|].
    rewrite Z.shiftr_div_pow2, Z.div_small by lia. done.
  - cbn in *. by rewrite Hh, Hq.
Qed.

Lemma pow16_inj a b x y : 0 <= a -> 0 <= b -> 0 <= x < 16 ^ a -> 0 <= y < 16 ^ b ->
  16 ^ a + x = 16 ^ b + y -> a = b /\ x = y.
Proof.
  assert (forall a b x y, 0 <= a -> a < b -> 0 <= x < 16 ^ a -> 0 <= y -> 16 ^ a + x <> 16 ^ b + y) as H.
  { intros a' b' x' y' Ha Hb Hx Hy. assert (16 ^ (a' + 1) <= 16 ^ b') by (apply Z.pow_le_mono_r; lia).
    rewrite Z.pow_add_r in *; lia. }
  intros Ha Hb Hx Hy He. destruct (Z.lt_trichotomy a b) as [Hc|[->|Hc]]; [|lia|].
  - exfalso. by apply (H a b x y); try lia.
  - exfalso. apply (H b a y x); lia.
Qed.

(** The names of different rbd data objects never collapse to one object
    of the cache: for names as librbd prints them (image id of up to 15
    lower-case digits, 16-digit object number below 2^40, optional data pool)
    the object id is the parts' values, and equal object ids mean equal names.
    The digit 1 put before the image id is what keeps its leading zeros. *)
Theorem rbd_objid_injective (pool pool' : option Z) (id seq id' seq' : bytes)
  (Hok : rbd_parts_ok pool id seq) (Hok' : rbd_parts_ok pool' id' seq') :
  is_rbd (strtok_dot (rbd_name pool id seq)) = Some true /\
  is_Some (rbd_objid (strtok_dot (rbd_name pool id seq))) /\
  (rbd_objid (strtok_dot (rbd_name pool id seq)) = rbd_objid (strtok_dot (rbd_name pool' id' seq')) ->
   rbd_name pool id seq = rbd_name pool' id' seq').
Proof.
  rewrite !rbd_objid_spec by done. split; [rewrite strtok_rbd_name by done; by destruct pool|].
  split; [by eexists|]. intros He. injection He as H1 H2 H3 H4.
  destruct Hok as (Hp & Hid & Hl & Hseq & Hl2 & Hv), Hok' as (Hp' & Hid' & Hl' & Hseq' & Hl2' & Hv').
  destruct (pow16_inj (len id) (len id') (hex_val id) (hex_val id')) as [E1 E2];
    [apply len_nonneg..|by apply hex_val_range|by apply hex_val_range|done|].
  assert (id = id') as -> by (apply hex_val_inj; try done; unfold len in E1; lia).
  assert (seq = seq') as -> by (apply hex_val_inj; try done; lia).
  destruct pool, pool'; try done. cbn in H1. by subst.
Qed.

(** ** The throttle counters and the end of a request *)

Record counters := {
  lwtCount : Z; lwtWriteCount : Z; lwtReadCount : Z; writeIops : Z; writeBW : Z; readBW : Z
}.

(** The limits: [qosParam.saOpThrottle] and what the cache engine returns (0
    turns a throttle off). *)
Record throttles := {
  saOpThrottle : Z; writeOpThrottle : Z; readOpThrottle : Z; writeIopsThrottle : Z;
  writeBWThrottle : Z; readBWThrottle : Z; isGc : Z
}.

(** A Get of a counter whose throttle is on adds; the waiting that follows
    changes nothing. *)
Definition Get (on : bool) (c v : Z) : Z := if on then u64 (v + c) else v.
(** A Put of a counter that holds less takes nothing. *)
Definition Put (c v : Z) : Z := if v <? c then v else u64 (v - c).

Definition on (throttle : Z) : bool := negb (throttle =? 0).

(** The Gets of [OpHandlerThread] for one request. *)
Definition take_lwt (th : throttles) (optionType optionLength : Z) (s : counters) : counters :=
  let w := optionType =? GCACHE_WRITE in
  let r := optionType =? GCACHE_READ in
  {| lwtCount := Get (on (saOpThrottle th)) 1 (lwtCount s);
     lwtWriteCount := if w then Get (on (writeOpThrottle th)) 1 (lwtWriteCount s) else lwtWriteCount s;
     lwtReadCount := if r then Get (on (readOpThrottle th)) 1 (lwtReadCount s) else lwtReadCount s;
     writeIops := if w then Get (on (writeIopsThrottle th) && on (isGc th)) 1 (writeIops s) else writeIops s;
     writeBW := if w then Get (on (writeBWThrottle th)) optionLength (writeBW s) else writeBW s;
     readBW := if r then Get (on (readBWThrottle th)) optionLength (readBW s) else readBW s |}.

(** [PutlwtCas]: the only Put without a test of the counter. *)
Definition PutlwtCas (th : throttles) (v : Z) : Z := if on (saOpThrottle th) then u64 (v - 1) else v.

Record reply := { rp_op : Z; rp_result : Z; rp_outdata : list bytes }.
Record state := { cnt : counters; replies : list reply }.

(** [FinishCacheOps]; [None] is the null message. *)
Definition FinishCacheOps (th : throttles) (op : option MOSDOp) (optionType optionLength r : Z)
    (s : state) : state :=
  match op with
  | None => s
  | Some ptr =>
      let c := cnt s in
      let w := optionType =? GCACHE_WRITE in
      let rd := optionType =? GCACHE_READ in
      {| cnt :=
           {| lwtCount := PutlwtCas th (lwtCount c);
              lwtWriteCount := if w then Put 1 (lwtWriteCount c) else lwtWriteCount c;
              lwtReadCount := if rd then Put 1 (lwtReadCount c) else lwtReadCount c;
              writeIops := if w && on (isGc th) then Put 1 (writeIops c) else writeIops c;
              writeBW := if w then Put optionLength (writeBW c) else writeBW c;
              readBW := if rd then Put optionLength (readBW c) else readBW c |};
         replies := replies s ++ [{| rp_op := mosdop_ptr ptr; rp_result := r;
                                     rp_outdata := map outdata (ops ptr) |}] |}
  end.

(** The entry of the engine into the completion, with its return code. *)
Definition OSA_FinishCacheOps (th : throttles) (p : option MOSDOp) (t l r : Z) (s : state) : Z * state :=
  let ret := 0 in (ret, FinishCacheOps th p t l r s).

Definition counters0 : counters :=
  {| lwtCount := 0; lwtWriteCount := 0; lwtReadCount := 0; writeIops := 0; writeBW := 0; readBW := 0 |}.

(** *** Admissions and completions *)

(** A request in the cache engine: its message, type and length. *)
Record pending := { p_op : MOSDOp; p_type : Z; p_len : Z }.

(** A worker admits a request; the [i]-th pending one completes with [r]. *)
Inductive event := Admit (p : pending) | Complete (i : nat) (r : Z).

Record system := { st : state; waiting : list pending }.

Definition step (th : throttles) (e : event) (s : system) : option system :=
  match e with
  | Admit p => Some {| st := {| cnt := take_lwt th (p_type p) (p_len p) (cnt (st s)); replies := replies (st s) |};
                       waiting := waiting s ++ [p] |}
  | Complete i r =>
      p ← waiting s !! i;
      Some {| st := FinishCacheOps th (Some (p_op p)) (p_type p) (p_len p) r (st s);
              waiting := delete i (waiting s) |}
  end.

Fixpoint run (th : throttles) (tr : list event) (s : system) : option system :=
  match tr with
  | [] => Some s
  | e :: tr' => s' ← step th e s; run th tr' s'
  end.

(** The sum of [f] over the pending requests of type [t]. *)
Definition total (f : pending -> Z) (l : list pending) : Z := fold_right (fun p a => f p + a) 0 l.
Definition if_type (t : Z) (f : pending -> Z) (p : pending) : Z := if p_type p =? t then f p else 0.
Definition held (onb : bool) (f : pending -> Z) (l : list pending) : Z := if onb then total f l else 0.

(** What the counters should be. *)
Definition expected (th : throttles) (l : list pending) : counters :=
  {| lwtCount := held (on (saOpThrottle th)) (fun _ => 1) l;
     lwtWriteCount := held (on (writeOpThrottle th)) (if_type GCACHE_WRITE (fun _ => 1)) l;
     lwtReadCount := held (on (readOpThrottle th)) (if_type GCACHE_READ (fun _ => 1)) l;
     writeIops := held (on (writeIopsThrottle th) && on (isGc th)) (if_type GCACHE_WRITE (fun _ => 1)) l;
     writeBW := held (on (writeBWThrottle th)) (if_type GCACHE_WRITE p_len) l;
     readBW := held (on (readBWThrottle th)) (if_type GCACHE_READ p_len) l |}.

Lemma total_app f l k : total f (l ++ k) = total f l + total f k.
Proof. unfold total. induction l as [|p l IH]; cbn; [lia|]. rewrite IH. lia. Qed.

Lemma total_delete f l i p : l !! i = Some p -> total f l = f p + total f (delete i l).
Proof.
  intros Hi. rewrite <- (take_drop_middle l i p Hi) at 1.
  rewrite delete_take_drop, !total_app. cbn [total fold_right].
  change (fold_right (fun p a => f p + a) 0 ?x) with (total f x). lia.
Qed.

Lemma total_le f g l : (forall p, p ∈ l -> 0 <= f p <= g p) -> 0 <= total f l <= total g l.
Proof.
  unfold total. induction l as [|p l IH]; intros Hf; cbn; [lia|].
  pose proof (Hf p ltac:(left)). specialize (IH ltac:(intros; apply Hf; by right)). lia.
Qed.

(** [bounded f l]: [f] is not negative on [l] and its sum fits 64 bits. *)
Definition bounded (f : pending -> Z) (l : list pending) : Prop :=
  (forall p, p ∈ l -> 0 <= f p) /\ total f l < 2 ^ 64.

Lemma bounded_nonneg f l : bounded f l -> 0 <= total f l.
Proof. intros [Hf _]. apply (total_le f f). intros p Hp. specialize (Hf p Hp). lia. Qed.

Lemma total_one f l p : total f (l ++ [p]) = total f l + f p.
Proof. rewrite total_app. cbn. lia. Qed.

Lemma Get_held onb f l p : bounded f (l ++ [p]) ->
  Get onb (f p) (held onb f l) = held onb f (l ++ [p]).
Proof.
  intros Hb. pose proof (bounded_nonneg _ _ Hb). destruct Hb as [_ Hb].
  unfold Get, held. destruct onb; [|done]. rewrite total_one in *. by apply u64_small.
Qed.

Lemma bounded_delete f l i : bounded f l -> bounded f (delete i l).
Proof.
  intros [Hf Hb]. split.
  - intros p Hp. apply Hf. by eapply elem_of_sublist, sublist_delete.
  - destruct (l !! i) as [p|] eqn:Hi; [|apply lookup_ge_None in Hi;
      by rewrite delete_take_drop, take_ge, drop_ge, app_nil_r by lia].
    rewrite (total_delete f l i p Hi) in Hb.
    pose proof (Hf p (list_elem_of_lookup_2 _ _ _ Hi)). lia.
Qed.

Lemma Put_held onb f l i p : bounded f l -> l !! i = Some p ->
  Put (f p) (held onb f l) = held onb f (delete i l).
Proof.
  intros Hb Hi. pose proof (bounded_nonneg _ _ (bounded_delete f l i Hb)) as H0.
  pose proof (total_delete f l i p Hi) as Ht. destruct Hb as [Hf Hb].
  pose proof (Hf p (list_elem_of_lookup_2 _ _ _ Hi)).
  unfold Put, held. destruct onb.
  - replace (total f l <? f p) with false by lia. rewrite u64_small by lia. lia.
  - destruct (0 <? f p) eqn:E; bprop; [done|]. by replace (f p) with 0 by lia.
Qed.

Lemma held_app_0 onb f l p : f p = 0 -> held onb f (l ++ [p]) = held onb f l.
Proof. unfold held. intros Hp. destruct onb; [|done]. rewrite total_one. lia. Qed.

Lemma held_delete_0 onb f l i p : l !! i = Some p -> f p = 0 -> held onb f (delete i l) = held onb f l.
Proof. unfold held. intros Hi Hp. destruct onb; [|done]. rewrite (total_delete f l i p Hi). lia. Qed.

(** The five sums, all below the count and the total length. *)
Definition fits (l : list pending) : Prop := bounded (fun _ => 1) l /\ bounded p_len l.

Lemma fits_if_type t f l : bounded f l -> bounded (if_type t f) l.
Proof.
  intros [Hf Hb]. assert (forall p, p ∈ l -> 0 <= if_type t f p <= f p) as Hle.
  { intros p Hp. specialize (Hf p Hp). unfold if_type. case_match; lia. }
  split; [intros p Hp; by apply Hle|]. pose proof (total_le _ _ _ Hle). lia.
Qed.

Lemma admit_expected th l p : fits (l ++ [p]) ->
  take_lwt th (p_type p) (p_len p) (expected th l) = expected th (l ++ [p]).
Proof.
  intros [H1 H2]. unfold take_lwt, expected. cbn [lwtCount lwtWriteCount lwtReadCount writeIops writeBW readBW].
  assert (forall t f onb, bounded f (l ++ [p]) ->
    (if p_type p =? t then Get onb (f p) (held onb (if_type t f) l) else held onb (if_type t f) l) =
    held onb (if_type t f) (l ++ [p])) as Hg.
  { intros t f onb Hb. apply (fits_if_type t) in Hb. destruct (p_type p =? t) eqn:E.
    - assert (f p = if_type t f p) as -> by (unfold if_type; by rewrite E). by apply Get_held.
    - rewrite held_app_0; [done|]. unfold if_type. by rewrite E. }
  f_equal; try (by apply (Hg _ (fun _ => 1))); try (by apply Hg).
  by apply (Get_held _ (fun _ => 1)).
Qed.

Lemma finish_expected th l i p r s : fits l -> l !! i = Some p -> cnt s = expected th l ->
  cnt (FinishCacheOps th (Some (p_op p)) (p_type p) (p_len p) r s) = expected th (delete i l).
Proof.
  intros [H1 H2] Hi Hc. unfold FinishCacheOps. rewrite Hc. unfold expected.
  cbn [cnt lwtCount lwtWriteCount lwtReadCount writeIops writeBW readBW].
  assert (forall t f onb, bounded f l ->
    (if p_type p =? t then Put (f p) (held onb (if_type t f) l) else held onb (if_type t f) l) =
    held onb (if_type t f) (delete i l)) as Hg.
  { intros t f onb Hb. apply (fits_if_type t) in Hb. destruct (p_type p =? t) eqn:E.
    - assert (f p = if_type t f p) as -> by (unfold if_type; by rewrite E). by apply Put_held.
    - rewrite (held_delete_0 _ _ _ _ _ Hi); [done|]. unfold if_type. by rewrite E. }
  f_equal; try (by apply (Hg _ (fun _ => 1))); try (by apply Hg).
  - pose proof (Put_held (on (saOpThrottle th)) (fun _ => 1) l i p H1 Hi) as Hp.
    unfold PutlwtCas. rewrite <- Hp. unfold held, Put. destruct (on _); [|done].
    pose proof (total_delete (fun _ => 1) l i p Hi).
    pose proof (bounded_nonneg _ _ (bounded_delete _ l i H1)).
    cbn beta in *. by replace (total (fun _ => 1) l <? 1) with false by lia.
  - destruct (on (isGc th)); [|by rewrite !andb_false_r].
    rewrite !andb_true_r. by apply (Hg _ (fun _ => 1)).
Qed.

(** What a trace admits. *)
Definition admitted (tr : list event) : list pending :=
  omap (fun e => match e with Admit p => Some p | _ => None end) tr.

Lemma run_expected th tr s s' :
  cnt (st s) = expected th (waiting s) -> fits (waiting s ++ admitted tr) ->
  run th tr s = Some s' ->
  cnt (st s') = expected th (waiting s') /\
  len (replies (st s')) + len (waiting s') = len (replies (st s)) + len (waiting s) + len (admitted tr).
Proof.
  assert (forall l k, fits (l ++ k) -> fits l) as Hpre.
  { assert (forall f l k, bounded f (l ++ k) -> bounded f l) as Hpre; [|intros l k [? ?]; split; by eapply Hpre].
    intros f l k [Hf Hb]. rewrite total_app in Hb. split; [intros; apply Hf, elem_of_app; by left|].
    assert (0 <= total f k); [|lia]. apply (total_le f f). intros p Hp.
    specialize (Hf p ltac:(apply elem_of_app; by right)). lia. }
  revert s. induction tr as [|e tr IH]; intros s Hc Hf Hr; cbn in Hr.
  - injection Hr as <-. split; [done|]. cbn. rewrite len_nil. lia.
  - apply bind_Some in Hr as (s1 & H1 & Hr). destruct e as [p|i r]; cbn in H1.
    + injection H1 as <-. unfold admitted in Hf. cbn in Hf. fold (admitted tr) in Hf.
      assert (fits ((waiting s ++ [p]) ++ admitted tr)) as Hf' by by rewrite <- app_assoc.
      apply IH in Hr as [H1 H2]; [|cbn; rewrite Hc; apply admit_expected; by eapply Hpre|done].
      split; [done|]. rewrite H2. cbn. rewrite len_app, len_cons, len_nil.
      unfold admitted. cbn. rewrite len_cons. lia.
    + apply bind_Some in H1 as (p & Hi & H1). injection H1 as <-.
      apply IH in Hr as [H1 H2].
      * split; [done|]. rewrite H2. cbn. rewrite len_app, len_cons, len_nil.
        rewrite (delete_take_drop (waiting s)), len_app.
        rewrite <- (take_drop_middle (waiting s) i p Hi) at 3. rewrite len_app, len_cons.
        unfold admitted. cbn. lia.
      * cbn [st waiting]. apply finish_expected; [by eapply Hpre|done|done].
      * cbn [waiting]. unfold admitted in Hf. cbn in Hf. fold (admitted tr) in Hf.
        assert (delete i (waiting s ++ admitted tr) = delete i (waiting s) ++ admitted tr) as <-.
        { rewrite !delete_take_drop. apply lookup_lt_Some in Hi.
          rewrite take_app_le, drop_app_le by lia. by rewrite app_assoc. }
        destruct Hf. split; by apply bounded_delete.
Qed.

Definition system0 : system := {| st := {| cnt := counters0; replies := [] |}; waiting := [] |}.

(** The throttles account for exactly the requests in flight: whatever
    the order in which requests are admitted and complete, each counter whose
    throttle is on is the number (or total length) of the pending requests it
    is about, each counter whose throttle is off is 0, and every completion
    sent one reply.  In particular all counters return to 0 when nothing is
    pending. *)
Theorem throttle_accounting (th : throttles) (tr : list event) (s : system)
  (Hfit : fits (admitted tr)) (Hr : run th tr system0 = Some s) :
  cnt (st s) = expected th (waiting s) /\
  len (replies (st s)) + len (waiting s) = len (admitted tr) /\
  (waiting s = [] -> cnt (st s) = counters0).
Proof.
  apply run_expected in Hr as [H1 H2]; [| |done].
  2:{ unfold expected, held, counters0. cbn. by repeat case_match. }
  split; [done|]. split; [cbn in H2; unfold len at 3 4 in H2; cbn in H2; lia|].
  intros Hw. rewrite H1, Hw. unfold expected, held, counters0. cbn. by repeat case_match.
Qed.

(** [ProcessOpReq] with the reply it sends itself: the request's type and
    length are still the defaults then. *)
Definition process_effect `{CephInts} (partial_copy : Z -> bytes -> bytes) (flag : bool)
    (th : throttles) (m : MOSDOp) (s : state) : processed * state :=
  let r := ProcessOpReq partial_copy flag m in
  (r, match r with Refused _ => FinishCacheOps th (Some m) GCACHE_DEFAULT 0 (- EINVAL) s | _ => s end).

Fixpoint process_all `{CephInts} (partial_copy : Z -> bytes -> bytes) (flag : bool)
    (th : throttles) (l : list MOSDOp) (s : state) : state :=
  match l with
  | [] => s
  | m :: l' => process_all partial_copy flag th l' (snd (process_effect partial_copy flag th m s))
  end.

Lemma process_all_refused `{CephInts} pc flag th l s :
  on (saOpThrottle th) = true -> Forall (fun m => is_rbd (strtok_dot (get_oid m)) = None) l ->
  lwtCount (cnt (process_all pc flag th l s)) = (if (length l =? 0)%nat then lwtCount (cnt s)
    else u64 (lwtCount (cnt s) - len l)).
Proof.
  intros Ht Hl. revert s. induction Hl as [|m l Hm Hl IH]; intros s; [done|].
  cbn [process_all]. unfold process_effect, ProcessOpReq. rewrite Hm. cbn [snd]. rewrite IH.
  cbn [FinishCacheOps cnt lwtCount length Nat.eqb]. unfold PutlwtCas. rewrite Ht, len_cons.
  destruct (length l =? 0)%nat eqn:E.
  - apply Nat.eqb_eq in E. unfold len. rewrite E. done.
  - unfold u64. rewrite <- Z.add_opp_r, wrap_add_l by lia. f_equal. lia.
Qed.

(** The accounting fails for refused messages: a message named like an
    rbd object with fewer than three sections is answered by [FinishCacheOps],
    whose [PutlwtCas] returns a unit that no Get took.  From an idle server,
    [n] such messages leave [lwtCount] at 2^64 - n; with fewer than [n] worker
    threads, each of them then blocks in its next [GetlwtCas] and no
    interleaving lets one through. *)
Theorem refused_messages_block_workers `{CephInts} (partial_copy : Z -> bytes -> bytes) (flag : bool)
  (th : throttles) (l : list MOSDOp) (workers : nat) (tr : list Throttle.label) (s : Throttle.t)
  (Hthr : 0 < saOpThrottle th <= 30000) (Hw : Z.of_nat workers < len l < 2 ^ 63)
  (Hbad : Forall (fun m => is_rbd (strtok_dot (get_oid m)) = None) l)
  (Hsteps : Forall (fun a => exists i, a = Throttle.Step i (saOpThrottle th)) tr) :
  let count := lwtCount (cnt (process_all partial_copy flag th l (st system0))) in
  count = 2 ^ 64 - len l /\
  (Throttle.run tr {| Throttle.count := count; Throttle.threads := replicate workers (Throttle.GetRead 1);
                      Throttle.added := 0; Throttle.subtracted := len l |} = Some s ->
   forall i, Throttle.threads s !! i <> Some Throttle.Idle).
Proof.
  intros count. assert (count = 2 ^ 64 - len l) as Hc.
  { unfold count. rewrite process_all_refused by (done || unfold on; by replace (saOpThrottle th =? 0) with false by lia).
    cbn [system0 st cnt lwtCount counters0]. destruct l as [|m l]; [unfold len in Hw; cbn in Hw; lia|].
    cbn [length Nat.eqb]. unfold u64, wrap. symmetry. apply Z.mod_unique with (-1); lia. }
  split; [done|]. intros Hr i Hi.
  apply (Throttle.blocked_run (len l) (saOpThrottle th)) in Hr as [Hf _]; [|lia|lia| |done].
  - by apply (Forall_lookup_1 _ _ _ _ Hf) in Hi.
  - unfold Throttle.blocked. cbn [Throttle.count Throttle.threads]. split; [by apply Forall_replicate|].
    assert (forall n, count_if Throttle.waiting (replicate n (Throttle.GetRead 1)) = 0) as ->.
    { induction n as [|n IH]; [done|]. cbn [replicate]. by rewrite count_if_cons, IH. }
    rewrite Hc. split; [lia|]. unfold len at 1. rewrite length_replicate. lia.
Qed.
End NetworkModule.

Module NetworkModuleExamples.
Import NetworkModule.

Definition osd (t : OsdOp) (data : bytes) : OSDOp :=
  {| osd_op := MsgModule.op_of t; indata := data; outdata := []; rval := 0 |}.

Definition message (name : bytes) (l : list OSDOp) : MOSDOp :=
  {| mosdop_ptr := 7; get_tid := 1; get_snapid := 0; get_pool := 3 * 2 ^ 32 + 5; get_seq := 2;
     m_seed := 9; get_snap_seq := 0; get_snaps := []; get_oid := name; ops := l |}.

Definition copied (n : Z) (p : bytes) : bytes := [].


(** Ids that differ by a leading zero stay apart. *)
Lemma rbd_objid_injective_witness :
  let seq := bs "0000000000000010" in
  rbd_parts_ok None (bs "a1") seq /\ rbd_parts_ok None (bs "0a1") seq /\
  rbd_objid (strtok_dot (rbd_name None (bs "a1") seq)) <>
  rbd_objid (strtok_dot (rbd_name None (bs "0a1") seq)).
Proof.
  intros seq.
  assert (forall id, bool_decide (Forall lower_hex id) && Nat.leb 1 (length id) && Nat.leb (length id) 15 = true ->
    rbd_parts_ok None id seq) as Hok.
  { intros id [[H1%bool_decide_eq_true H2%Nat.leb_le]%andb_true_iff H3%Nat.leb_le]%andb_true_iff.
    split; [exact I|]. split; [exact H1|]. split; [split; assumption|].
    split; [apply (bool_decide_unpack _); vm_compute; exact I|]. split; [reflexivity|]. vm_compute. reflexivity. }
  split; [apply Hok; vm_compute; reflexivity|]. split; [apply Hok; vm_compute; reflexivity|].
  intros He.
  pose proof (rbd_objid_injective None None (bs "a1") seq (bs "0a1") seq
    (Hok (bs "a1") ltac:(vm_compute; reflexivity)) (Hok (bs "0a1") ltac:(vm_compute; reflexivity))) as (_ & _ & H).
  specialize (H He). vm_compute in H. discriminate H.
Defined.

Definition th : throttles :=
  {| saOpThrottle := 5000; writeOpThrottle := 10; readOpThrottle := 0; writeIopsThrottle := 10;
     writeBWThrottle := 100; readBWThrottle := 100; isGc := 1 |}.

Lemma throttle_accounting_witness :
  let w := {| p_op := message (bs "o") []; p_type := GCACHE_WRITE; p_len := 64 |} in
  let r := {| p_op := message (bs "p") []; p_type := GCACHE_READ; p_len := 32 |} in
  let tr := [Admit w; Admit r; Admit w; Complete 0 0; Complete 0 0] in
  exists s, run th tr system0 = Some s /\ waiting s = [w] /\ writeBW (cnt (st s)) = 64 /\
    cnt (st s) = expected th [w].
Proof.
  intros w r tr. eexists. split; [vm_compute; reflexivity|]. split; [reflexivity|]. split; [reflexivity|].
  eapply (throttle_accounting th tr); [|vm_compute; reflexivity].
  assert (forall f, (forall p, p ∈ [w; r; w] -> 0 <= f p) -> total f [w; r; w] < 2 ^ 64 ->
    bounded f [w; r; w]) as Hb by (intros; split; assumption).
  split; apply Hb; try reflexivity.
  - intros p _. lia.
  - intros p Hp. repeat (apply elem_of_cons in Hp as [->|Hp]; [vm_compute; discriminate|]).
    by apply elem_of_nil in Hp.
Defined.

Lemma refused_messages_block_workers_witness :
  let m := message (bs "rbd_data.10") [osd CEPH_OSD_OP_READ []] in
  let count := lwtCount (cnt (@process_all le_ints copied false th [m; m; m] (st system0))) in
  @ProcessOpReq le_ints copied false m = Refused (- EINVAL) /\ count = 2 ^ 64 - 3.
Proof.
  intros m count. split; [vm_compute; reflexivity|].
  refine (proj1 (@refused_messages_block_workers le_ints copied false th [m; m; m] 2 []
           (Throttle.init 0) _ _ _ _)).
  - vm_compute. split; [reflexivity|discriminate].
  - vm_compute. split; reflexivity.
  - repeat constructor.
  - constructor.
Defined.
End NetworkModuleExamples.
