(* ===== verification/RequestTypes.v ===== *)
(** * The types of the requests the cache engine gets

    [OpRequestOps] and [SaOpReq] are plain structures that the conversion fills
    field by field.  This file states what the engine may assume of them -- the
    width of every integer, which vectors an operation fills and how they belong
    together, when an rbd object id is there -- and that every request
    [ProcessOpReq] makes is of that type. *)

From S2P Require Import Prelude CStr Encoding MsgModule Throttle NetworkModule.
Import SaDef.

Module RequestTypes.

(** Unsigned of [w] bits; [int]. *)
Definition uint (w n : Z) : Prop := 0 <= n < 2 ^ w.
Definition int32 (n : Z) : Prop := - 2 ^ 31 <= n < 2 ^ 31.

(** What the fields of an [OSDOp] that are copied hold by their C types. *)
Record wire_op (c : OSDOp) : Prop := {
  wire_flags : uint 32 (op_flags (osd_op c));
  wire_cmp_op : uint 8 (cmp_op (osd_op c))
}.

(** The same of the message. *)
Record wire_msg (m : NetworkModule.MOSDOp) : Prop := {
  wire_tid : uint 64 (NetworkModule.get_tid m);
  wire_snapid : uint 64 (NetworkModule.get_snapid m);
  wire_seq : uint 64 (NetworkModule.get_seq m);
  wire_seed : uint 32 (NetworkModule.m_seed m);
  wire_snap_seq : uint 64 (NetworkModule.get_snap_seq m);
  wire_snaps : Forall (uint 64) (NetworkModule.get_snaps m);
  wire_ops : Forall wire_op (NetworkModule.ops m)
}.

Definition rbd_typed (i : RbdObjid) : Prop :=
  uint 32 (rbd_poolId i) /\ uint 64 (rbd_head i) /\ uint 40 (rbd_seq i) /\
  (rbd_format i = FORMAT_SPECIFY_MD_DATE_POOL \/
   rbd_format i = FORMAT_UNSPECIFY_MD_DATE_POOL /\ rbd_poolId i = 0) /\
  rbd_version i = SA_VERSION.

(** How many keys, values, operators, numbers and modes an operation carries. *)
Definition arity (o : OpRequestOps) (k v s u m : nat) : Prop :=
  length (keys o) = k /\ length (values o) = v /\ length (subops o) = s /\
  length (u64vals o) = u /\ length (cmpModes o) = m.

Definition ascending (ks : list bytes) : Prop := StronglySorted bytes_lt ks.

(** The vectors, by operation: the keys of a map or set are ascending (so each
    comes once) and the vectors that belong together have one length. *)
Definition shape (o : OpRequestOps) : Prop :=
  match opSubType o with
  | CEPH_OSD_OP_OMAPGETVALS =>
      arity o 3 3 0 0 0 /\ keys o = [bs "start_after"; bs "max_return"; bs "filter_prefix"]
  | CEPH_OSD_OP_OMAPGETKEYS => arity o 2 2 0 0 0 /\ keys o = [bs "start_after"; bs "max_return"]
  | CEPH_OSD_OP_OMAPSETVALS => arity o (length (keys o)) (length (keys o)) 0 0 0 /\ ascending (keys o)
  | CEPH_OSD_OP_OMAPRMKEYS | CEPH_OSD_OP_OMAPGETVALSBYKEYS =>
      arity o (length (keys o)) 0 0 0 0 /\ ascending (keys o)
  | CEPH_OSD_OP_OMAP_CMP =>
      arity o (length (keys o)) (length (keys o)) (length (keys o)) 0 0 /\ ascending (keys o)
  | CEPH_OSD_OP_GETXATTR | CEPH_OSD_OP_RMXATTR => arity o 1 0 0 0 0
  | CEPH_OSD_OP_SETXATTR => arity o 1 1 0 0 0
  | CEPH_OSD_OP_CMPXATTR =>
      match cmpModes o with
      | [CEPH_OSD_CMPXATTR_MODE_STRING] => arity o 1 1 1 0 1
      | [CEPH_OSD_CMPXATTR_MODE_U64] => arity o 1 0 1 1 1
      | [MODE_OTHER _] => arity o 1 0 1 0 1
      | _ => False
      end
  | CEPH_OSD_OP_ROLLBACK => arity o 1 1 0 0 0
  | _ => arity o 0 0 0 0 0
  end.

(** The data is there exactly for the operations that write data from the message, with
    its length; the length of an OMAPSETHEADER is the one the client declares, see
    [header_of]. *)
Definition carries_data (t : OsdOp) : bool :=
  match t with
  | CEPH_OSD_OP_WRITE | CEPH_OSD_OP_WRITEFULL | CEPH_OSD_OP_WRITESAME | CEPH_OSD_OP_CMPEXT
  | CEPH_OSD_OP_OMAPSETHEADER => true
  | _ => false
  end.
Definition data_typed (o : OpRequestOps) : Prop :=
  match inData o with
  | Some d => carries_data (opSubType o) = true /\
              (opSubType o <> CEPH_OSD_OP_OMAPSETHEADER -> inDataLen o = u32 (len d))
  | None => carries_data (opSubType o) = false /\ inDataLen o = 0
  end.

(** What an OMAPSETHEADER takes from the operation of the message. *)
Definition header_of (i : OSDOp) (o : OpRequestOps) : Prop :=
  opSubType o = op (osd_op i) /\
  (opSubType o = CEPH_OSD_OP_OMAPSETHEADER ->
   inData o = Some (indata i) /\ inDataLen o = u32 (extent_length (osd_op i))).

Record op_typed (o : OpRequestOps) : Prop := {
  t_in : uint 32 (inDataLen o);
  t_out : uint 32 (outDataLen o);
  t_off : uint 32 (objOffset o);
  t_length : uint 32 (objLength o);
  t_flags : uint 32 (opFlags o);
  t_subops : Forall int32 (subops o);
  t_u64vals : Forall (uint 64) (u64vals o);
  t_rbd : isRbd o = bool_decide (is_Some (rbdObjId o)) /\ (forall i, rbdObjId o = Some i -> rbd_typed i);
  t_data : data_typed o;
  t_shape : shape o
}.

Record req_typed (r : SaOpReq) : Prop := {
  t_ops : Forall op_typed (vecOps r);
  t_optionType : optionType r = GCACHE_WRITE \/ optionType r = GCACHE_READ;
  t_optionLength : uint 64 (optionLength r);
  t_opType : uint 64 (opType r);
  t_snapId : uint 64 (req_snapId r);
  t_tid : - 2 ^ 63 <= tid r < 2 ^ 63;
  t_opsSequence : uint 64 (opsSequence r);
  t_ptId : uint 32 (ptId r);
  t_ts : uint 64 (ts r);
  t_snapSeq : uint 64 (snapSeq r);
  t_snaps : Forall (uint 64) (snaps r);
  t_poolId : uint 32 (req_poolId r);
  t_ptVersion : uint 64 (ptVersion r);
  t_copyup : exitsCopyUp r = 0 \/ exitsCopyUp r = 1;
  t_rbd_uniform : forall o o', o ∈ vecOps r -> o' ∈ vecOps r -> rbdObjId o = rbdObjId o' /\ objName o = objName o'
}.

(** ** Decoded values are of their types *)
Section decode.
Context `{CephInts}.

Lemma dec_int_int32 p n r : MsgModule.dec_int p = Some (n, r) -> int32 n.
Proof. unfold MsgModule.dec_int. intros ((x & q) & _ & [= <- _])%bind_Some. apply s32_range. Qed.

Lemma dec_pair_inv {A B} (da : bytes -> option (A * bytes)) (db : bytes -> option (B * bytes)) p a b r :
  dec_pair da db p = Some (a, b, r) -> exists q, da p = Some (a, q) /\ db q = Some (b, r).
Proof. unfold dec_pair. intros ((x & q) & Ha & ((y & q') & Hb & [= -> -> ->])%bind_Some)%bind_Some. by exists q. Qed.

Lemma dec_cmp_int32 p (a : bytes * Z) r : dec_pair dec_str MsgModule.dec_int p = Some (a, r) -> int32 (snd a).
Proof. destruct a as [v n]. intros (q & _ & Hn)%dec_pair_inv. by eapply dec_int_int32. Qed.

Lemma dec_many_Forall {A} (P : A -> Prop) dec : (forall p a r, dec p = Some (a, r) -> P a) ->
  forall n p l r, dec_many dec n p = Some (l, r) -> Forall P l.
Proof.
  intros Hd. induction n as [|n IH]; intros p l r Hl; cbn in Hl; [by injection Hl as <- _|].
  apply bind_Some in Hl as ((a & q) & Ha & Hl). apply bind_Some in Hl as ((l' & q') & Hl & [= <- _]).
  constructor; [by eapply Hd|by eapply IH].
Qed.

(** A decoded map is ascending, whatever the message holds. *)
Lemma dec_map_ok {A} (P : A -> Prop) (dec : bytes -> option (A * bytes)) p m r :
  (forall p a r, dec p = Some (a, r) -> P a) -> dec_map dec p = Some (m, r) ->
  ascending (map fst m) /\ Forall (fun e => P (snd e)) m.
Proof.
  intros Hd. unfold dec_map, dec_list. intros ((l & q) & ((n & q') & _ & Hl)%bind_Some & [= <- _])%bind_Some.
  apply (dec_many_Forall (fun e => P (snd e))) in Hl.
  2:{ intros q0 [k a] r0 (q1 & _ & Ha)%dec_pair_inv. by eapply Hd. }
  assert (forall acc : list (bytes * A), smap_sorted acc -> Forall (fun e => P (snd e)) acc ->
    let m := fold_left (fun m '(k, v) => smap_insert k v m) l acc in
    smap_sorted m /\ Forall (fun e => P (snd e)) m) as Hf.
  { clear q. induction Hl as [|[k v] l Hp _ IH]; intros acc Hs Ha; cbn; [done|].
    apply IH; [by apply smap_insert_sorted|by apply smap_insert_Forall]. }
  destruct (Hf []) as [Hs Hp]; [constructor..|]. split; [by apply smap_sorted_keys|done].
Qed.

Lemma dec_set_ascending p ks r : dec_set p = Some (ks, r) -> ascending ks.
Proof.
  unfold dec_set. intros ((l & q) & _ & [= <- _])%bind_Some. apply smap_sorted_keys.
  assert (forall acc : list (bytes * unit), smap_sorted acc ->
    smap_sorted (fold_left (fun m k => smap_insert k tt m) l acc)) as Hf.
  { induction l as [|k l IH]; intros acc Hs; cbn; [done|]. by apply IH, smap_insert_sorted. }
  apply Hf. constructor.
Qed.
End decode.

Lemma rbd_objid_typed l i : NetworkModule.rbd_objid l = Some i -> rbd_typed i.
Proof.
  unfold NetworkModule.rbd_objid, rbd_typed, uint.
  set (h := st_val (strtoull 16 _)). assert (0 <= h < 2 ^ 64) as Hh by by apply strtoull_range.
  set (s := wrap 40 _). assert (0 <= s < 2 ^ 40) as Hs by by apply wrap_range.
  set (p := st_val (strtoull 10 _)). assert (0 <= p < 2 ^ 64) as Hp by by apply strtoull_range.
  clearbody h s p. destruct (3 <? length l)%nat; [|intros [= <-]; cbn; split_and!; auto; lia].
  destruct (0 <? _) eqn:E; [done|]. intros [= <-]. cbn.
  assert (p < 2 ^ 32).
  { rewrite Z.shiftr_div_pow2 in E by lia. bprop. destruct (Z.lt_ge_cases p (2 ^ 32)); [done|].
    pose proof (Z.div_le_lower_bound p (2 ^ 32) 1 ltac:(lia) ltac:(lia)). lia. }
  split_and!; auto; lia.
Qed.

(** ** One operation *)
Section convert.
Context `{CephInts} (partial_copy : Z -> bytes -> bytes) (readStatFlag : bool).

(** An operation before its conversion. *)
Record fresh (o : OpRequestOps) : Prop := {
  f_rbd : isRbd o = bool_decide (is_Some (rbdObjId o)) /\ (forall i, rbdObjId o = Some i -> rbd_typed i);
  f_data : inData o = None /\ inDataLen o = 0 /\ outDataLen o = 0;
  f_range : objOffset o = 0 /\ objLength o = 0 /\ opFlags o = 0;
  f_vecs : keys o = [] /\ values o = [] /\ subops o = [] /\ u64vals o = [] /\ cmpModes o = []
}.

Lemma new_op_fresh name id : (forall i, id = Some i -> rbd_typed i) ->
  fresh (match id with Some id => NetworkModule.set_rbd id (MsgModule.new_op name) | None => MsgModule.new_op name end).
Proof. intros Hid. destruct id as [i|]; constructor; try done. all: split; [done|]; intros j [= <-]; by apply Hid. Qed.

Lemma fresh_inv o : fresh o ->
  o = {| opSubType := opSubType o; objName := objName o; isRbd := bool_decide (is_Some (rbdObjId o));
         rbdObjId := rbdObjId o; inData := None; inDataLen := 0; outDataLen := 0; objOffset := 0;
         objLength := 0; opFlags := 0; keys := []; values := []; subops := []; u64vals := []; cmpModes := [] |} /\
  (forall i, rbdObjId o = Some i -> rbd_typed i).
Proof. destruct o. intros []. cbn in *. destruct_and!. by subst. Qed.

(** An operation that carries no data, only vectors and flags. *)
Definition vectors (id : option RbdObjid) (name : bytes) (t : OsdOp) (fl : Z) (ks vs : list bytes) (so uv : list Z)
    (cm : list CmpMode) : OpRequestOps :=
  {| opSubType := t; objName := name; isRbd := bool_decide (is_Some id); rbdObjId := id; inData := None;
     inDataLen := 0; outDataLen := 0; objOffset := 0; objLength := 0; opFlags := fl; keys := ks; values := vs;
     subops := so; u64vals := uv; cmpModes := cm |}.

Lemma vectors_typed id name t fl ks vs so uv cm : (forall i, id = Some i -> rbd_typed i) ->
  carries_data t = false -> uint 32 fl -> Forall int32 so -> Forall (uint 64) uv ->
  shape (vectors id name t fl ks vs so uv cm) -> op_typed (vectors id name t fl ks vs so uv cm).
Proof. intros. by constructor. Qed.

(** Case analysis on a conversion that returned. *)
Ltac returned H :=
  repeat match type of H with
    | mbind _ _ = Some _ => let E := fresh "Hd" in apply bind_Some in H as (? & E & H)
    | (let '(_, _) := ?p in _) = Some _ => destruct p
    | Some _ = Some _ => apply (inj Some) in H; subst
    | None = Some _ => discriminate H
    | match ?x with _ => _ end = Some _ => destruct x eqn:?
    end.

Ltac as_vectors Hid :=
  refine (vectors_typed _ _ _ _ _ _ _ _ _ Hid _ _ _ _ _); try done; try constructor; try done.

Lemma ConvertOmapOp_typed i o o' : fresh o -> MsgModule.decodes (op (osd_op i)) = true ->
  MsgModule.ConvertOmapOp i (MsgModule.set_type (op (osd_op i)) o) = Some o' -> op_typed o'.
Proof.
  intros [-> Hid]%fresh_inv Hc Hr. unfold MsgModule.ConvertOmapOp, MsgModule.set_type in Hr.
  destruct (op (osd_op i)) eqn:E; try done; returned Hr.
  - as_vectors Hid.
  - destruct (dec_map_ok (fun _ => True) _ _ _ _ (fun _ _ _ _ => I) Hd0) as [Hs _].
    as_vectors Hid. by split_and!; cbn; rewrite ?length_map.
  - as_vectors Hid.
  - as_vectors Hid. by eapply dec_set_ascending.
  - as_vectors Hid. by eapply dec_set_ascending.
  - destruct (dec_map_ok (fun p => int32 (snd p)) _ _ _ _ dec_cmp_int32 Hd) as [Hs Hp].
    refine (vectors_typed _ _ _ _ _ _ _ _ _ Hid _ _ _ _ _); try done.
    + apply Forall_map. eapply Forall_impl; [exact Hp|]. done.
    + split; [|done]. split_and!; cbn; by rewrite ?length_map.
Qed.

Lemma ConvertAttrOp_typed i o o' : fresh o -> wire_op i ->
  op (osd_op i) = CEPH_OSD_OP_GETXATTR \/ op (osd_op i) = CEPH_OSD_OP_RMXATTR \/
  op (osd_op i) = CEPH_OSD_OP_CMPXATTR \/ op (osd_op i) = CEPH_OSD_OP_SETXATTR ->
  MsgModule.ConvertAttrOp i (MsgModule.set_type (op (osd_op i)) o) = Some o' -> op_typed o'.
Proof.
  intros [-> Hid]%fresh_inv [_ Hcmp] Hc Hr. unfold uint in Hcmp.
  assert (int32 (cmp_op (osd_op i))) as Hi by (unfold int32; lia).
  unfold MsgModule.ConvertAttrOp, MsgModule.set_type in Hr.
  apply bind_Some in Hr as ((l & q) & Hd & Hr).
  destruct Hc as [E|[E|[E|E]]]; rewrite E in Hr; [| |destruct (cmp_mode (osd_op i))|]; returned Hr; as_vectors Hid.
  by eapply dec_u64_range.
Qed.

(** An operation on a range of the object: data and read length come with it. *)
Definition ranged (id : option RbdObjid) (name : bytes) (t : OsdOp) (d : option bytes) (n out off l fl : Z) : OpRequestOps :=
  {| opSubType := t; objName := name; isRbd := bool_decide (is_Some id); rbdObjId := id; inData := d;
     inDataLen := n; outDataLen := out; objOffset := off; objLength := l; opFlags := fl; keys := []; values := [];
     subops := []; u64vals := []; cmpModes := [] |}.

Lemma ranged_typed id name t d n out off l fl : (forall i, id = Some i -> rbd_typed i) ->
  uint 32 n -> uint 32 out -> uint 32 off -> uint 32 l -> uint 32 fl ->
  data_typed (ranged id name t d n out off l fl) -> shape (ranged id name t d n out off l fl) ->
  op_typed (ranged id name t d n out off l fl).
Proof. intros. by constructor. Qed.

Lemma uint_u32 x : uint 32 (u32 x).
Proof. apply u32_range. Qed.

Ltac as_ranged Hid :=
  refine (ranged_typed _ _ _ _ _ _ _ _ _ Hid _ _ _ _ _ _ _); try apply uint_u32; try done; try (by split).

Lemma convert_typed i o ot ol c : fresh o -> wire_op i ->
  MsgModule.ConvertClientopToOpreq partial_copy readStatFlag i o ot ol = Some c -> op_typed (MsgModule.c_op c).
Proof.
  intros Ho Hw Hr. unfold MsgModule.ConvertClientopToOpreq in Hr.
  pose proof (fresh_inv o Ho) as [Eo Hid]. pose proof (wire_flags _ Hw) as Hf.
  destruct (op (osd_op i)) eqn:E; returned Hr; cbn [MsgModule.c_op];
    try (eapply (ConvertOmapOp_typed i o); [done|by rewrite E|by rewrite E]);
    try (eapply (ConvertAttrOp_typed i o); [done..|rewrite E; tauto|by rewrite E]);
    rewrite Eo in *;
    try (unfold MsgModule.ConvertOmapOp in Hd; rewrite E in Hd; injection Hd as <-);
    unfold MsgModule.ConvertObjRw; rewrite ?E; try destruct readStatFlag;
    first [solve [as_vectors Hid] | as_ranged Hid].
Qed.

(** The object of the operation is kept. *)
Definition same_object (o o' : OpRequestOps) : Prop := objName o' = objName o /\ rbdObjId o' = rbdObjId o.

Lemma convert_object i o ot ol c :
  MsgModule.ConvertClientopToOpreq partial_copy readStatFlag i o ot ol = Some c -> same_object o (MsgModule.c_op c).
Proof.
  intros Hr. unfold MsgModule.ConvertClientopToOpreq, MsgModule.ConvertOmapOp, MsgModule.ConvertAttrOp, MsgModule.ConvertObjRw in Hr.
  destruct (op (osd_op i)) eqn:E; returned Hr; try (returned Hd); try destruct readStatFlag; done.
Qed.

Lemma convert_lengths i o ot ol c : uint 64 (ol_write ol) -> uint 64 (ol_read ol) ->
  MsgModule.ConvertClientopToOpreq partial_copy readStatFlag i o ot ol = Some c ->
  uint 64 (ol_write (MsgModule.c_len c)) /\ uint 64 (ol_read (MsgModule.c_len c)).
Proof.
  intros Hw Hl Hr. unfold MsgModule.ConvertClientopToOpreq in Hr.
  destruct (op (osd_op i)) eqn:E; returned Hr; split; try done; apply u64_range.
Qed.

Lemma convert_header i o ot ol c :
  MsgModule.ConvertClientopToOpreq partial_copy readStatFlag i o ot ol = Some c -> header_of i (MsgModule.c_op c).
Proof.
  intros Hr. unfold header_of. unfold MsgModule.ConvertClientopToOpreq, MsgModule.ConvertOmapOp, MsgModule.ConvertAttrOp, MsgModule.ConvertObjRw in Hr.
  destruct (op (osd_op i)) eqn:E; returned Hr; try (returned Hd); try destruct readStatFlag; (split; [done|]); by intros ?.
Qed.

(** ** The request *)

Record acc_typed (name : bytes) (id : option RbdObjid) (a : NetworkModule.acc) : Prop := {
  at_ops : Forall (fun o => op_typed o /\ objName o = name /\ rbdObjId o = id) (NetworkModule.a_ops a);
  at_len : uint 64 (ol_write (NetworkModule.a_len a)) /\ uint 64 (ol_read (NetworkModule.a_len a));
  at_copyup : NetworkModule.a_copyup a = 0 \/ NetworkModule.a_copyup a = 1
}.

Lemma convert_ops_typed name id l : forall a a', (forall i, id = Some i -> rbd_typed i) -> Forall wire_op l ->
  acc_typed (c_str name) id a -> NetworkModule.convert_ops partial_copy readStatFlag name id l a = Some a' ->
  acc_typed (c_str name) id a'.
Proof.
  induction l as [|i l IH]; intros a a' Hid Hl [Ho [Hw Hr] Hc] Ha; cbn in Ha; [by injection Ha as <-|].
  apply Forall_cons in Hl as [Hi Hl]. apply bind_Some in Ha as (a1 & (c & H1 & [= <-])%bind_Some & Ha).
  eapply IH; [done..| |exact Ha]. constructor; cbn [NetworkModule.a_ops NetworkModule.a_len NetworkModule.a_copyup].
  - apply Forall_app. split; [done|]. apply Forall_singleton. split.
    + eapply convert_typed; [by apply new_op_fresh|done|exact H1].
    + apply convert_object in H1 as [-> ->]. by destruct id.
  - by eapply convert_lengths.
  - case_match; [by right|done].
Qed.

Lemma convert_ops_headers name id l : forall a a', NetworkModule.convert_ops partial_copy readStatFlag name id l a = Some a' ->
  exists os, NetworkModule.a_ops a' = NetworkModule.a_ops a ++ os /\ Forall2 header_of l os.
Proof.
  induction l as [|i l IH]; intros a a' Ha; cbn in Ha; [injection Ha as <-; exists []; by rewrite app_nil_r|].
  apply bind_Some in Ha as (a1 & (c & H1 & [= <-])%bind_Some & Ha). destruct (IH _ _ Ha) as (os & -> & Hos).
  exists (MsgModule.c_op c :: os). cbn. rewrite <- app_assoc. split; [done|]. constructor; [by eapply convert_header|done].
Qed.

(** C10: whatever a message holds, if the fields copied from it are of their C types, the
    request made of it is well typed.  Every integer of the request and of its operations
    fits the field it is stored in.  Each operation carries the vectors its code calls for:
    keys of a map ascending and so distinct, as many values and operators as keys, one mode
    per comparison.  The data pointer is set exactly for the operations that write client
    data, with the length of the data -- except that an OMAPSETHEADER has the length the
    client declares, which need not be that of the data it sent.  The rbd flag tells whether
    there is an object id, whose pool, head and sequence number fit their bit fields, and
    all operations of a request name the same object. *)
Theorem ProcessOpReq_typed (m : NetworkModule.MOSDOp) (r : SaOpReq) (Hw : wire_msg m)
  (Hr : NetworkModule.ProcessOpReq partial_copy readStatFlag m = NetworkModule.Converted r) :
  req_typed r /\ Forall2 header_of (NetworkModule.ops m) (vecOps r).
Proof.
  assert (exists id a, r = NetworkModule.make_req m a /\ acc_typed (c_str (NetworkModule.get_oid m)) id a /\
    Forall2 header_of (NetworkModule.ops m) (NetworkModule.a_ops a)) as (id & a & -> & [Ho [H1 H2] Hc] & Hh).
  { assert (forall id, acc_typed (c_str (NetworkModule.get_oid m)) id NetworkModule.acc0) as H0.
    { intros id. constructor; cbn; [constructor|done|by left]. }
    assert (forall id a, NetworkModule.convert_ops partial_copy readStatFlag (NetworkModule.get_oid m) id (NetworkModule.ops m) NetworkModule.acc0 = Some a ->
      Forall2 header_of (NetworkModule.ops m) (NetworkModule.a_ops a)) as Hd by (by intros id a (os & -> & Hos)%convert_ops_headers).
    unfold NetworkModule.ProcessOpReq in Hr. destruct (NetworkModule.is_rbd _) as [[]|]; [| |done].
    - destruct (NetworkModule.ops m) as [|i l] eqn:El; [injection Hr as <-; exists None, NetworkModule.acc0; split_and!; [done..|constructor]|]. rewrite <- El in *.
      destruct (NetworkModule.rbd_objid _) as [id|] eqn:Eid; [|done].
      destruct (NetworkModule.convert_ops _ _ _ _ _ _) as [a|] eqn:Ea; [|done]. injection Hr as <-. exists (Some id), a. split; [done|].
      split; [|by eapply Hd]. eapply convert_ops_typed; [|by apply wire_ops|done|exact Ea]. intros i' [= <-]. by eapply rbd_objid_typed.
    - destruct (NetworkModule.convert_ops _ _ _ _ _ _) as [a|] eqn:Ea; [|done]. injection Hr as <-. exists None, a. split; [done|].
      split; [|by eapply Hd]. eapply convert_ops_typed; [done|by apply wire_ops|done|exact Ea]. }
  split; [|exact Hh].
  constructor; cbn [NetworkModule.make_req vecOps optionType optionLength opType req_snapId tid opsSequence ptId ts snapSeq snaps req_poolId ptVersion exitsCopyUp];
    try (by apply Hw).
  - eapply Forall_impl; [exact Ho|]. by intros o [? _].
  - case_match; [by left|by right].
  - by case_match.
  - done.
  - apply (swrap_range 64). lia.
  - done.
  - change (2 ^ 32 - 1) with (Z.ones 32). rewrite Z.land_ones by lia. apply Z.mod_pos_bound. lia.
  - apply u64_range.
  - done.
  - intros o o' Hx Hy. rewrite Forall_forall in Ho. destruct (Ho _ Hx) as (_ & -> & ->). by destruct (Ho _ Hy) as (_ & -> & ->).
Qed.
End convert.
End RequestTypes.

Module RequestTypesExamples.
Import RequestTypes NetworkModule NetworkModuleExamples.

(** Map entries that the client did not send in order. *)
Definition unordered : OSDOp :=
  osd CEPH_OSD_OP_OMAPSETVALS
    (@enc_map le_ints _ (@enc_str le_ints) [(bs "b", bs "2"); (bs "a", bs "1"); (bs "b", bs "3")]).

Lemma ProcessOpReq_typed_witness :
  let m := message (bs "rbd_data.7.0a1.0000000000000010") [unordered; osd CEPH_OSD_OP_WRITE (bs "xyz")] in
  exists r, @ProcessOpReq le_ints copied false m = Converted r /\
    map keys (vecOps r) = [[bs "a"; bs "b"]; []] /\ map inDataLen (vecOps r) = [0; 3] /\ req_typed r.
Proof.
  intros m. eexists. split; [vm_compute; reflexivity|]. split; [reflexivity|]. split; [reflexivity|].
  refine (proj1 (@ProcessOpReq_typed le_ints copied false m _ _ _)); [|vm_compute; reflexivity].
  constructor; repeat constructor; vm_compute; congruence.
Defined.
End RequestTypesExamples.
