(* ===== verification/Qos.v ===== *)
(** * [network_module.cpp]: the limits on client writes

    [LimitWriteBw] and [LimitWriteIops] delay the dispatcher that has just queued
    a write: the first charges the KiB of the writes of a window of
    [getQuotaCycle] milliseconds against what the cache engine allows, the second
    their number.  Both keep their mutex while they sleep, so a call is one
    transition from state to state; its inputs are the readings of the clock and
    the successive answers of the engine. *)

From S2P Require Import Prelude CStr Encoding MsgModule Throttle NetworkModule.
Import SaDef NetworkModule.

Module Qos.

Definition SA_THOUSAND_DEC : Z := 1000.

Record QosParam := { limitWrite : Z; getQuotaCycle : Z; enableThrottle : Z; q_saOpThrottle : Z }.

(** The fields of [SaWcacheQosInfo] that the adaptor reads. *)
Record SaWcacheQosInfo := { writeRatio : Z; isGc : Z }.

(** The fields of [NetworkModule] that the limits use; time points in ns. *)
Record t := {
  qosParam : QosParam; cycleBegin : Z; iopsCycleBegin : Z; periodBW : Z; wcacheBW : Z; periodIops : Z;
  qosInfo : SaWcacheQosInfo
}.

(** [NetworkModule::NetworkModule] at the times [now1] and [now2]. *)
Definition init (p : QosParam) (now1 now2 : Z) : t :=
  {| qosParam := p; cycleBegin := now1; iopsCycleBegin := now2; periodBW := 0; wcacheBW := UINT64_MAX;
     periodIops := 0; qosInfo := {| writeRatio := 0; isGc := 0 |} |}.

Definition SetQosParam (p : QosParam) (s : t) : t :=
  {| qosParam := p; cycleBegin := cycleBegin s; iopsCycleBegin := iopsCycleBegin s; periodBW := periodBW s;
     wcacheBW := wcacheBW s; periodIops := periodIops s; qosInfo := qosInfo s |}.

(** [writeRatio] and the bandwidth computed from it. *)
Definition set_quota (q : SaWcacheQosInfo) (bw : Z) (s : t) : t :=
  {| qosParam := qosParam s; cycleBegin := cycleBegin s; iopsCycleBegin := iopsCycleBegin s; periodBW := periodBW s;
     wcacheBW := bw; periodIops := periodIops s; qosInfo := q |}.
Definition set_bw (begin sum : Z) (s : t) : t :=
  {| qosParam := qosParam s; cycleBegin := begin; iopsCycleBegin := iopsCycleBegin s; periodBW := sum;
     wcacheBW := wcacheBW s; periodIops := periodIops s; qosInfo := qosInfo s |}.
Definition set_iops (begin sum : Z) (s : t) : t :=
  {| qosParam := qosParam s; cycleBegin := cycleBegin s; iopsCycleBegin := begin; periodBW := periodBW s;
     wcacheBW := wcacheBW s; periodIops := sum; qosInfo := qosInfo s |}.

(** The readings of the clock in one call: at its start, when it opens a window,
    and before its last wait (or at its end).  [indeterminate] is the value of
    [timeInterval] when the clock went back: it is declared without one. *)
Record clock := { enter : Z; indeterminate : Z; opened : Z; checked : Z }.

(** [duration_cast<milliseconds>(now - begin).count()] *)
Definition elapsed (now begin : Z) : Z := Z.quot (now - begin) 1000000.
Definition timeInterval (c : clock) (begin : Z) : Z :=
  if begin <=? enter c then elapsed (enter c) begin else indeterminate c.

(** A call returns, having slept for [slept] microseconds at a time; it is still
    in its loop after the answers given; or it divides by zero. *)
Inductive outcome := Done (slept : list Z) (s : t) | Waiting | DivByZero.

Definition is_write (o : OSDOp) : bool :=
  match op (osd_op o) with CEPH_OSD_OP_WRITEFULL | CEPH_OSD_OP_WRITE => true | _ => false end.
Definition ContainWriteOp (m : MOSDOp) : bool := existsb is_write (ops m).

(** The last wait of both functions. *)
Definition pause (cycle now begin : Z) : list Z :=
  let dt := elapsed now begin in
  if dt <=? cycle then
    let iWait := u32 (cycle - dt) in
    if iWait =? 0 then [] else [u32 (iWait * SA_THOUSAND_DEC)]
  else [].

(** ** Bandwidth *)

(** [writeRatio] for one window; [None] divides by zero. *)
Definition scale_bw (cycle ratio : Z) : option Z :=
  if cycle =? 0 then None
  else Some (if cycle <? SA_THOUSAND_DEC then ratio / (SA_THOUSAND_DEC / cycle)
             else u32 (ratio * (cycle / SA_THOUSAND_DEC))).

Fixpoint bw_loop (answers : list SaWcacheQosInfo) (opened : Z) (slept : list Z) (s : t) : outcome :=
  match answers with
  | [] => Waiting
  | q :: answers' =>
      let cycle := getQuotaCycle (qosParam s) in
      match scale_bw cycle (writeRatio q) with
      | None => DivByZero
      | Some bw =>
          let s := set_quota q bw s in
          if writeRatio q =? 0 then bw_loop answers' opened (slept ++ [u32 (cycle * SA_THOUSAND_DEC)]) s
          else Done slept (set_bw opened 0 s)
      end
  end.

Definition charge_bw (l : list OSDOp) (sum : Z) : Z :=
  fold_left (fun sum o => if is_write o then u64 (sum + extent_length (osd_op o) / 1024) else sum) l sum.

(** [quota]: the engine's answers for a pool. *)
Definition LimitWriteBw (c : clock) (quota : Z -> list SaWcacheQosInfo) (m : MOSDOp) (s : t) : outcome :=
  let cycle := getQuotaCycle (qosParam s) in
  let poolId := Z.land (get_pool m) UINT32_MAX in
  match (if cycle <=? timeInterval c (cycleBegin s) then bw_loop (quota poolId) (opened c) [] s else Done [] s) with
  | Done slept s =>
      let s := set_bw (cycleBegin s) (charge_bw (ops m) (periodBW s)) s in
      Done (slept ++ (if wcacheBW s <=? periodBW s then pause cycle (checked c) (cycleBegin s) else [])) s
  | o => o
  end.

(** ** Number of writes *)

Definition scale_iops (cycle rate : Z) : option Z :=
  if cycle =? 0 then None
  else Some (if cycle <? SA_THOUSAND_DEC then rate / (SA_THOUSAND_DEC / cycle)
             else u64 (rate * (cycle / SA_THOUSAND_DEC))).

(** The limit of the window that is opened, and the sleeps before. *)
Inductive iops_quota := Limit (slept : list Z) (limitIops : Z) | NoLimit (o : outcome).
Fixpoint iops_loop (answers : list Z) (cycle : Z) (slept : list Z) : iops_quota :=
  match answers with
  | [] => NoLimit Waiting
  | rate :: answers' =>
      match scale_iops cycle rate with
      | None => NoLimit DivByZero
      | Some limitIops =>
          if limitIops =? 0 then iops_loop answers' cycle (slept ++ [u32 (cycle * SA_THOUSAND_DEC)])
          else Limit slept limitIops
      end
  end.

Definition charge_iops (l : list OSDOp) (sum : Z) : Z :=
  fold_left (fun sum o => if is_write o then u64 (sum + 1) else sum) l sum.

Definition iops_tail (c : clock) (slept : list Z) (limitIops : Z) (m : MOSDOp) (s : t) : outcome :=
  let s := set_iops (iopsCycleBegin s) (charge_iops (ops m) (periodIops s)) s in
  Done (slept ++ (if limitIops <=? periodIops s
                  then pause (getQuotaCycle (qosParam s)) (checked c) (iopsCycleBegin s) else [])) s.

(** [rate]: [GetWriteIopsThrottle] before the loop; [answers]: in the loop. *)
Definition LimitWriteIops (c : clock) (rate : Z) (answers : list Z) (m : MOSDOp) (s : t) : outcome :=
  let cycle := getQuotaCycle (qosParam s) in
  if isGc (qosInfo s) =? 0 then Done [] s
  else if cycle <=? timeInterval c (iopsCycleBegin s) then
    match iops_loop answers cycle [] with
    | Limit slept limitIops => iops_tail c slept limitIops m (set_iops (opened c) 0 s)
    | NoLimit o => o
    end
  else iops_tail c [] rate m s.

(** ** Both, as [EnqueueClientop] calls them with the queue's mutex held *)

Record inputs := {
  iops_clock : clock; iops_rate : Z; iops_answers : list Z; bw_clock : clock; bw_quota : Z -> list SaWcacheQosInfo
}.

Definition LimitWrite (i : inputs) (m : MOSDOp) (s : t) : outcome :=
  match LimitWriteIops (iops_clock i) (iops_rate i) (iops_answers i) m s with
  | Done slept s =>
      match LimitWriteBw (bw_clock i) (bw_quota i) m s with
      | Done slept' s => Done (slept ++ slept') s
      | o => o
      end
  | o => o
  end.

Definition limit_client (i : inputs) (m : MOSDOp) (s : t) : outcome :=
  if negb (limitWrite (qosParam s) =? 0) && ContainWriteOp m then LimitWrite i m s else Done [] s.

(** ** Theorems *)

(** *** The share of a window *)

Lemma scale_short cycle rate : 0 < cycle < 1000 -> 0 <= rate ->
  scale_iops cycle rate = Some (rate / (1000 / cycle)) /\ scale_bw cycle rate = Some (rate / (1000 / cycle)) /\
  rate * cycle / 1000 <= rate / (1000 / cycle) <= rate.
Proof.
  intros Hc Hr. unfold scale_iops, scale_bw, SA_THOUSAND_DEC. rewrite (proj2 (Z.eqb_neq cycle 0)) by lia.
  rewrite (proj2 (Z.ltb_lt cycle 1000)) by lia. do 2 (split; [done|]).
  assert (1 <= 1000 / cycle) by (apply Z.div_le_lower_bound; lia).
  pose proof (Z.mul_div_le 1000 cycle ltac:(lia)). split.
  - rewrite <- (Z.div_mul_cancel_r rate (1000 / cycle) cycle) by lia. apply Z.div_le_compat_l; [lia|]. lia.
  - apply Z.div_le_upper_bound; nia.
Qed.

Lemma scale_long cycle rate : 1000 <= cycle -> 0 <= rate ->
  scale_iops cycle rate = Some (u64 (rate * (cycle / 1000))) /\ scale_bw cycle rate = Some (u32 (rate * (cycle / 1000))) /\
  rate <= rate * (cycle / 1000) <= rate * cycle / 1000.
Proof.
  intros Hc Hr. unfold scale_iops, scale_bw, SA_THOUSAND_DEC. rewrite (proj2 (Z.eqb_neq cycle 0)) by lia.
  rewrite (proj2 (Z.ltb_ge cycle 1000)) by lia.
  assert (1 <= cycle / 1000) by (apply Z.div_le_lower_bound; lia).
  pose proof (Z.mul_div_le cycle 1000 ltac:(lia)).
  do 2 (split; [done|]). split; [nia|]. apply Z.div_le_lower_bound; [lia|]. nia.
Qed.

(** C36: a window is given its proportional share of the rate per second, for every rate
    whose share fits the 32 bits it is computed in, exactly when its length divides a
    second or is a whole number of seconds. Whatever the rate, a window shorter than a
    second never gets less than its share (from 501 ms on it gets that of a whole second),
    and for a longer one no more than its share is computed. In windows of a second or
    more the multiplication wraps: the number of writes is computed modulo 2^64, the
    bandwidth modulo 2^32, so a bandwidth whose share is 2^32 or more is cut by at least
    2^32. *)
Theorem quota_scaling (cycle : Z) (Hc : 0 < cycle < 2 ^ 32) :
  ((forall rate, 0 <= rate -> rate * (cycle / 1000) < 2 ^ 32 ->
      scale_bw cycle rate = Some (rate * cycle / 1000) /\ scale_iops cycle rate = Some (rate * cycle / 1000)) <->
   (1000 mod cycle = 0 \/ cycle mod 1000 = 0)) /\
  (forall rate, 0 <= rate -> cycle < 1000 ->
     exists n, scale_bw cycle rate = Some n /\ scale_iops cycle rate = Some n /\
       rate * cycle / 1000 <= n <= rate /\ (500 < cycle -> n = rate)) /\
  (forall rate, 0 <= rate -> 1000 <= cycle ->
     let share := rate * (cycle / 1000) in
     rate <= share <= rate * cycle / 1000 /\
     scale_iops cycle rate = Some (share mod 2 ^ 64) /\ scale_bw cycle rate = Some (share mod 2 ^ 32) /\
     (2 ^ 32 <= share -> exists n, scale_bw cycle rate = Some n /\ n <= share - 2 ^ 32)).
Proof.
  split; [|split].
  - pose proof (Z.div_mod 1000 cycle ltac:(lia)) as H1. pose proof (Z.div_mod cycle 1000 ltac:(lia)) as H2.
    pose proof (Z.mod_pos_bound 1000 cycle ltac:(lia)) as H3. pose proof (Z.mod_pos_bound cycle 1000 ltac:(lia)) as H4.
    destruct (decide (cycle < 1000)) as [Hs|Hs]; split.
    + intros H. left. specialize (H (1000 * (1000 / cycle)) ltac:(nia) ltac:(rewrite (Z.div_small cycle) by lia; lia)) as [_ H].
      destruct (scale_short cycle (1000 * (1000 / cycle))) as (E & _); [lia|nia|]. rewrite E in H. injection H as H.
      assert (0 < 1000 / cycle) by (apply Z.div_str_pos; lia).
      rewrite Z.div_mul in H by lia. replace (1000 * (1000 / cycle) * cycle) with (1000 / cycle * cycle * 1000) in H by lia.
      rewrite Z.div_mul in H by lia. lia.
    + intros Hd rate Hr _. destruct (scale_short cycle rate) as (-> & -> & _); [lia..|].
      enough (rate / (1000 / cycle) = rate * cycle / 1000) as -> by done.
      destruct Hd as [Hd|Hd]; [|rewrite Z.mod_small in Hd; lia].
      rewrite Hd, Z.add_0_r in H1. rewrite H1 at 2. rewrite (Z.mul_comm cycle). symmetry. apply Z.div_mul_cancel_r; [|lia].
      intros H0. rewrite H0 in H1. lia.
    + intros H. right. specialize (H 1000 ltac:(lia) ltac:(lia)) as [H _].
      destruct (scale_long cycle 1000) as (_ & E & _); [lia..|]. rewrite E, u32_small in H by lia. injection H as H.
      rewrite (Z.mul_comm 1000 cycle), Z.div_mul in H by lia. lia.
    + intros Hd rate Hr Hb. assert (1 <= cycle / 1000) by (apply Z.div_le_lower_bound; lia).
      destruct (scale_long cycle rate) as (-> & -> & _); [lia..|]. rewrite u32_small, u64_small by nia.
      enough (rate * (cycle / 1000) = rate * cycle / 1000) as -> by done.
      destruct Hd as [Hd|Hd].
      * destruct (decide (cycle = 1000)) as [->|]; [|rewrite Z.mod_small in Hd; lia].
        rewrite Z.div_mul by lia. by rewrite Z.mul_1_r.
      * rewrite H2 at 2. rewrite Hd, Z.add_0_r. replace (rate * (1000 * (cycle / 1000))) with (rate * (cycle / 1000) * 1000) by lia.
        by rewrite Z.div_mul by lia.
  - intros rate Hr Hs. destruct (scale_short cycle rate) as (-> & -> & H); [lia..|]. eexists. do 3 (split; [done|]).
    intros Hh. replace (1000 / cycle) with 1; [by rewrite Z.div_1_r|]. apply (Z.div_unique 1000 cycle 1 (1000 - cycle)); lia.
  - intros rate Hr Hs share. destruct (scale_long cycle rate) as (-> & -> & H); [lia..|]. do 3 (split; [done|]).
    intros Hbig. eexists. split; [reflexivity|]. fold share. unfold u32, wrap.
    pose proof (Z.div_mod share (2 ^ 32) ltac:(lia)). assert (1 <= share / 2 ^ 32) by (apply Z.div_le_lower_bound; lia). lia.
Qed.

(** *** The windows of the bandwidth limit *)

Record call := { c_clock : clock; c_quota : Z -> list SaWcacheQosInfo; c_op : MOSDOp }.

(** What a call charges. *)
Definition kib (m : MOSDOp) : Z :=
  foldr (fun o z => (if is_write o then extent_length (osd_op o) / 1024 else 0) + z) 0 (ops m).

Definition sum (l : list Z) : Z := foldr Z.add 0 l.

Record window := { w_begin : Z; w_limit : Z; w_kib : list Z }.

(** Whether the call finds the window over. *)
Definition expired (c : clock) (s : t) : bool := getQuotaCycle (qosParam s) <=? timeInterval c (cycleBegin s).

(** The windows of a sequence of calls, [w] being the one under way; [None] when
    a call does not return. *)
Fixpoint windows (l : list call) (w : window) (s : t) : option (list window) :=
  match l with
  | [] => Some [w]
  | c :: l' =>
      match LimitWriteBw (c_clock c) (c_quota c) (c_op c) s with
      | Done _ s' =>
          if expired (c_clock c) s
          then ws ← windows l' {| w_begin := cycleBegin s'; w_limit := wcacheBW s'; w_kib := [kib (c_op c)] |} s';
               Some (w :: ws)
          else windows l' {| w_begin := w_begin w; w_limit := w_limit w; w_kib := w_kib w ++ [kib (c_op c)] |} s'
      | _ => None
      end
  end.

(** When a call gives the mutex back: [usleep] sleeps at least as long as asked. *)
Definition released (c : clock) (s' : t) : Z :=
  checked c + 1000 * sum (if wcacheBW s' <=? periodBW s'
                          then pause (getQuotaCycle (qosParam s')) (checked c) (cycleBegin s') else []).

(** The clock does not go back, and calls exclude each other. *)
Fixpoint timely (free : Z) (l : list call) (s : t) : Prop :=
  match l with
  | [] => True
  | c :: l' =>
      free <= enter (c_clock c) <= opened (c_clock c) /\ opened (c_clock c) <= checked (c_clock c) /\
      match LimitWriteBw (c_clock c) (c_quota c) (c_op c) s with
      | Done _ s' => timely (released (c_clock c) s') l' s'
      | _ => True
      end
  end.

(** The engine grants the pool of the write some bandwidth in the end. *)
Definition granted (c : call) : Prop :=
  Exists (fun q => writeRatio q <> 0) (c_quota c (Z.land (get_pool (c_op c)) UINT32_MAX)).

(** Every write but the last of a window was let in below its limit. *)
Definition within (w : window) : Prop :=
  forall pre x, w_kib w = pre ++ [x] -> pre = [] \/ u64 (sum pre) < w_limit w.

Definition ms : Z := 1000000.

Record inv (cycle free : Z) (w : window) (s : t) : Prop := {
  inv_cycle : getQuotaCycle (qosParam s) = cycle;
  inv_free : cycleBegin s <= free;
  inv_begin : w_begin w = cycleBegin s;
  inv_limit : w_limit w = wcacheBW s;
  inv_sum : periodBW s = u64 (sum (w_kib w));
  inv_full : wcacheBW s <= periodBW s -> cycleBegin s + cycle * ms <= free;
  inv_within : within w
}.

Lemma charge_bw_sum l z : charge_bw l (u64 z) =
  u64 (z + foldr (fun o z => (if is_write o then extent_length (osd_op o) / 1024 else 0) + z) 0 l).
Proof.
  revert z. induction l as [|o l IH]; intros z; cbn; [by rewrite Z.add_0_r|]. destruct (is_write o).
  - unfold u64 at 2. rewrite wrap_add_l by lia. rewrite IH. f_equal. lia.
  - apply IH.
Qed.

Lemma pause_lasts cycle now begin : 0 < cycle <= 4294967 -> begin <= now ->
  begin + cycle * ms <= now + 1000 * sum (pause cycle now begin).
Proof.
  intros Hc Hn. unfold pause, elapsed, ms, SA_THOUSAND_DEC.
  rewrite Z.quot_div_nonneg by lia. pose proof (Z.mul_div_le (now - begin) 1000000 ltac:(lia)).
  pose proof (Z.mul_succ_div_gt (now - begin) 1000000 ltac:(lia)).
  assert (0 <= (now - begin) / 1000000) by (apply Z.div_pos; lia).
  destruct (_ <=? cycle) eqn:E; bprop; [|cbn; lia].
  rewrite (u32_small (cycle - _)) by lia. destruct (_ =? 0) eqn:E0; bprop; [cbn; lia|].
  rewrite u32_small by lia. cbn. lia.
Qed.

Lemma pause_nonneg cycle now begin : 0 <= sum (pause cycle now begin).
Proof.
  unfold pause. destruct (_ <=? cycle); [|done]. destruct (_ =? 0); [done|]. unfold sum. cbn [foldr].
  pose proof (u32_range (u32 (cycle - elapsed now begin) * SA_THOUSAND_DEC)). lia.
Qed.

Lemma scale_bw_total cycle ratio : 0 < cycle -> is_Some (scale_bw cycle ratio).
Proof. intros Hc. unfold scale_bw. rewrite (proj2 (Z.eqb_neq cycle 0)) by lia. by eexists. Qed.

(** The loop ends at the first answer that is not 0. *)
Lemma bw_loop_done answers op slept s : 0 < getQuotaCycle (qosParam s) ->
  Exists (fun q => writeRatio q <> 0) answers ->
  exists slept' q bw, q ∈ answers /\ writeRatio q <> 0 /\ scale_bw (getQuotaCycle (qosParam s)) (writeRatio q) = Some bw /\
    bw_loop answers op slept s = Done slept' (set_bw op 0 (set_quota q bw s)).
Proof.
  intros Hc He. revert slept s Hc. induction answers as [|q l IH]; intros slept s Hc; [by apply Exists_nil in He|].
  cbn [bw_loop]. destruct (scale_bw_total (getQuotaCycle (qosParam s)) (writeRatio q) Hc) as [bw Hbw]. rewrite Hbw.
  destruct (writeRatio q =? 0) eqn:E; bprop.
  - apply Exists_cons in He as [He|He]; [done|].
    destruct (IH He (slept ++ [u32 (getQuotaCycle (qosParam s) * SA_THOUSAND_DEC)]) (set_quota q bw s) Hc)
      as (sl & q' & bw' & H1 & H2 & H3 & H4).
    exists sl, q', bw'. split_and!; [by right|done..].
  - exists slept, q, bw. split_and!; [left|done..].
Qed.

Lemma kib_sum m z : charge_bw (ops m) (u64 z) = u64 (z + kib m).
Proof. apply charge_bw_sum. Qed.

Lemma within_snoc w x : (w_kib w = [] \/ u64 (sum (w_kib w)) < w_limit w) ->
  within {| w_begin := w_begin w; w_limit := w_limit w; w_kib := w_kib w ++ [x] |}.
Proof. intros H pre y Hp. apply app_inj_tail in Hp as [<- <-]. exact H. Qed.

Lemma sum_snoc l x : sum (l ++ [x]) = sum l + x.
Proof. induction l as [|y l IH]; cbn; [lia|]. unfold sum in IH. rewrite IH. lia. Qed.

(** The state a call leaves satisfies the invariant of its window. *)
Lemma inv_charged cycle c m w s1 : 0 < cycle <= 4294967 ->
  getQuotaCycle (qosParam s1) = cycle -> cycleBegin s1 <= checked c -> w_begin w = cycleBegin s1 ->
  w_limit w = wcacheBW s1 -> periodBW s1 = u64 (sum (w_kib w)) -> (w_kib w = [] \/ u64 (sum (w_kib w)) < w_limit w) ->
  let s' := set_bw (cycleBegin s1) (charge_bw (ops m) (periodBW s1)) s1 in
  inv cycle (released c s') {| w_begin := w_begin w; w_limit := w_limit w; w_kib := w_kib w ++ [kib m] |} s'.
Proof.
  intros Hc Hq Ht Hb Hl Hs Hw s'.
  assert (checked c <= released c s' /\ (wcacheBW s' <= periodBW s' -> cycleBegin s' + cycle * ms <= released c s')) as [H1 H2].
  { unfold released. destruct (_ <=? _) eqn:E; bprop.
    - replace (getQuotaCycle (qosParam s')) with cycle. pose proof (pause_lasts cycle (checked c) (cycleBegin s') Hc Ht).
      split; [|done]. pose proof (pause_nonneg cycle (checked c) (cycleBegin s')). lia.
    - cbn [sum foldr]. split; [lia|]. intros. lia. }
  split; cbn; try done.
  - etrans; [exact Ht|exact H1].
  - by rewrite Hs, kib_sum, sum_snoc.
  - by apply within_snoc.
Qed.

Lemma elapsed_ge now begin cycle : begin <= now -> cycle <= elapsed now begin <-> begin + cycle * ms <= now.
Proof.
  intros H. unfold elapsed, ms. rewrite Z.quot_div_nonneg by lia.
  pose proof (Z.mul_div_le (now - begin) 1000000 ltac:(lia)).
  pose proof (Z.mul_succ_div_gt (now - begin) 1000000 ltac:(lia)). split; intros; lia.
Qed.

Lemma expired_spec cycle free w s c : inv cycle free w s -> free <= enter c ->
  if expired c s then cycleBegin s + cycle * ms <= enter c else periodBW s < wcacheBW s.
Proof.
  intros Hi Hf. unfold expired, timeInterval. rewrite (inv_cycle _ _ _ _ Hi).
  pose proof (inv_free _ _ _ _ Hi). rewrite (proj2 (Z.leb_le (cycleBegin s) (enter c))) by lia.
  pose proof (elapsed_ge (enter c) (cycleBegin s) cycle ltac:(lia)) as He.
  destruct (_ <=? _) eqn:E; bprop; [by apply He|].
  destruct (decide (wcacheBW s <= periodBW s)) as [Hd|]; [|lia].
  apply (inv_full _ _ _ _ Hi) in Hd. lia.
Qed.

Lemma call_inv cycle free w s c : 0 < cycle <= 4294967 -> inv cycle free w s ->
  free <= enter (c_clock c) <= opened (c_clock c) -> opened (c_clock c) <= checked (c_clock c) -> granted c ->
  exists slept s', LimitWriteBw (c_clock c) (c_quota c) (c_op c) s = Done slept s' /\
    if expired (c_clock c) s
    then cycleBegin s + cycle * ms <= cycleBegin s' /\
         inv cycle (released (c_clock c) s') {| w_begin := cycleBegin s'; w_limit := wcacheBW s'; w_kib := [kib (c_op c)] |} s'
    else inv cycle (released (c_clock c) s')
           {| w_begin := w_begin w; w_limit := w_limit w; w_kib := w_kib w ++ [kib (c_op c)] |} s'.
Proof.
  intros Hc Hi Ht1 Ht2 Hg. pose proof (expired_spec _ _ _ _ (c_clock c) Hi (proj1 Ht1)) as Hx.
  pose proof (inv_cycle _ _ _ _ Hi) as Hcy. pose proof (inv_free _ _ _ _ Hi).
  unfold LimitWriteBw. fold (expired (c_clock c) s). destruct (expired (c_clock c) s) eqn:E.
  - destruct (bw_loop_done _ (opened (c_clock c)) [] s ltac:(lia) Hg) as (sl & q & bw & _ & _ & _ & ->).
    eexists _, _. split; [reflexivity|]. split; [cbn; lia|].
    apply (inv_charged cycle (c_clock c) (c_op c) {| w_begin := opened (c_clock c); w_limit := bw; w_kib := [] |}
             (set_bw (opened (c_clock c)) 0 (set_quota q bw s))); cbn; try done. by left.
  - eexists _, _. split; [reflexivity|]. destruct Hi as [H1 H2 H3 H4 H5 H6 H7].
    apply (inv_charged cycle (c_clock c) (c_op c) w s); try done; [lia|]. right. by rewrite <- H5, H4.
Qed.

(** An engine that grants nothing keeps the call. *)
Lemma bw_loop_zero answers op slept s : Forall (fun q => writeRatio q = 0) answers ->
  match bw_loop answers op slept s with Done _ _ => False | _ => True end.
Proof.
  intros Hz. revert slept s. induction Hz as [|q l Hq _ IH]; intros slept s; cbn [bw_loop]; [done|].
  destruct (scale_bw _ _); [|done]. rewrite Hq. apply IH.
Qed.

(** Consecutive windows begin at least a cycle apart. *)
Fixpoint spaced (cycle : Z) (ws : list window) : Prop :=
  match ws with
  | w :: (w' :: _) as ws' => w_begin w + cycle * ms <= w_begin w' /\ spaced cycle ws'
  | _ => True
  end.

Lemma windows_inv cycle l : 0 < cycle <= 4294967 -> forall free w s, inv cycle free w s -> timely free l s ->
  Forall granted l ->
  exists w0 ws, windows l w s = Some (w0 :: ws) /\ w_begin w0 = w_begin w /\ Forall within (w0 :: ws) /\
    spaced cycle (w0 :: ws) /\ concat (map w_kib (w0 :: ws)) = w_kib w ++ map (fun c => kib (c_op c)) l.
Proof.
  intros Hc. induction l as [|c l IH]; intros free w s Hi Ht Hg.
  - exists w, []. cbn. split_and!; [done..| |done|]; [constructor; [apply Hi|constructor]|]. by rewrite !app_nil_r.
  - destruct Ht as (Ht1 & Ht2 & Ht). apply Forall_cons in Hg as [Hg1 Hg].
    destruct (call_inv cycle free w s c Hc Hi Ht1 Ht2 Hg1) as (slept & s' & Hd & Hi').
    rewrite Hd in Ht. cbn [windows]. rewrite Hd. destruct (expired (c_clock c) s).
    + destruct Hi' as [Hb Hi']. destruct (IH _ _ _ Hi' Ht Hg) as (w0 & ws & -> & H1 & H2 & H3 & H4).
      exists w, (w0 :: ws). cbn [mbind option_bind]. split_and!; [done..| | |].
      * constructor; [apply Hi|done].
      * split; [|done]. rewrite H1. cbn. rewrite (inv_begin _ _ _ _ Hi). exact Hb.
      * cbn [map concat]. cbn [map concat] in H4. rewrite H4. done.
    + destruct (IH _ _ _ Hi' Ht Hg) as (w0 & ws & -> & H1 & H2 & H3 & H4).
      exists w0, ws. split_and!; [done..|]. rewrite H4. cbn. by rewrite <- app_assoc.
Qed.

(** C18: the bandwidth limit holds window by window.  With clocks that do not go
    back and an engine that in the end grants some bandwidth, any sequence of
    calls returns; it splits into windows that begin at least a cycle apart; no
    call is lost or charged twice; and within a window every write but the last
    was let in while the sum was below the limit set when the window was
    opened, because the last one keeps the mutex until the window is over. *)
Theorem bw_windows (p : QosParam) (now1 now2 : Z) (l : list call) (Hc : 0 < getQuotaCycle p <= 4294967)
    (Ht : timely now1 l (init p now1 now2)) (Hg : Forall granted l) :
  exists ws, windows l {| w_begin := now1; w_limit := UINT64_MAX; w_kib := [] |} (init p now1 now2) = Some ws /\
    Forall within ws /\ spaced (getQuotaCycle p) ws /\ concat (map w_kib ws) = map (fun c => kib (c_op c)) l.
Proof.
  destruct (windows_inv (getQuotaCycle p) l Hc now1 {| w_begin := now1; w_limit := UINT64_MAX; w_kib := [] |}
              (init p now1 now2)) as (w0 & ws & H1 & _ & H2 & H3 & H4); [|done..|by exists (w0 :: ws)].
  split; cbn; try done. intros [|? []] x Hp; discriminate Hp.
Qed.

(** *** The limit on the number of writes *)

(** The number of writes of a message. *)
Definition writes (m : MOSDOp) : Z := count_if is_write (ops m).

Lemma charge_iops_count m z : charge_iops (ops m) (u64 z) = u64 (z + writes m).
Proof.
  unfold writes, charge_iops. revert z. induction (ops m) as [|o l IH]; intros z; cbn [fold_left]; [by rewrite Z.add_0_r|].
  rewrite count_if_cons. destruct (is_write o); cbn [Z.b2z].
  - unfold u64 at 2. rewrite wrap_add_l by lia. rewrite IH. f_equal. lia.
  - by rewrite IH.
Qed.

(** Too small a rate keeps the loop waiting, whatever the number of answers. *)
Lemma iops_starves cycle answers slept : 0 < cycle < 1000 -> Forall (fun r => 0 <= r < 1000 / cycle) answers ->
  iops_loop answers cycle slept = NoLimit Waiting.
Proof.
  intros Hc Hl. revert slept. induction Hl as [|r l Hr _ IH]; intros slept; cbn [iops_loop]; [done|].
  destruct (scale_short cycle r) as (-> & _); [lia..|]. rewrite (Z.div_small r) by lia. apply IH.
Qed.

(** The limit on the number of writes is not the one that was configured.
    While the engine collects garbage: (1) a write in a window under way is
    compared with the rate of a whole second, so it is let in without a wait
    while the window has had less than a second's worth; only the write that
    opens a window is compared with the window's share.  (2) When the rate is
    below one write per window, the call sleeps for ever with its mutex held,
    whatever the number of times it asks, although (3) the bandwidth limit lets
    one write per window in whenever its rate is not 0. *)
Theorem iops_limit_unscaled (c : clock) (rate : Z) (answers : list Z) (quota : Z -> list SaWcacheQosInfo) (m : MOSDOp)
    (s : t) (q : SaWcacheQosInfo) (rest : list SaWcacheQosInfo)
    (Hc : 0 < getQuotaCycle (qosParam s) < 1000) (Hgc : isGc (qosInfo s) <> 0) (Hp : 0 <= periodIops s < 2 ^ 64)
    (Hb : iopsCycleBegin s <= enter c) (Hb' : cycleBegin s <= enter c)
    (Hq : quota (Z.land (get_pool m) UINT32_MAX) = q :: rest) (Hr : 0 < writeRatio q < 2 ^ 32) :
  let cycle := getQuotaCycle (qosParam s) in
  (enter c < iopsCycleBegin s + cycle * ms -> periodIops s + writes m < rate < 2 ^ 64 ->
     exists s', LimitWriteIops c rate answers m s = Done [] s' /\ periodIops s' = periodIops s + writes m /\
                iopsCycleBegin s' = iopsCycleBegin s) /\
  (iopsCycleBegin s + cycle * ms <= enter c -> Forall (fun r => 0 <= r < 1000 / cycle) answers ->
     LimitWriteIops c rate answers m s = Waiting) /\
  (cycleBegin s + cycle * ms <= enter c ->
     exists slept s', LimitWriteBw c quota m s = Done slept s' /\ cycleBegin s' = opened c /\
       wcacheBW s' = writeRatio q / (1000 / cycle)).
Proof.
  cbn zeta. assert (0 <= writes m) as Hw by (apply count_if_le).
  pose proof (elapsed_ge (enter c) (iopsCycleBegin s) (getQuotaCycle (qosParam s)) Hb) as He.
  pose proof (elapsed_ge (enter c) (cycleBegin s) (getQuotaCycle (qosParam s)) Hb') as He'.
  unfold LimitWriteIops, LimitWriteBw, timeInterval. rewrite (proj2 (Z.leb_le _ _) Hb), (proj2 (Z.leb_le _ _) Hb').
  rewrite (proj2 (Z.eqb_neq _ _) Hgc). split_and!.
  - intros Hin Hlow. destruct (_ <=? elapsed _ (iopsCycleBegin s)) eqn:E; bprop; [apply He in E; lia|].
    assert (charge_iops (ops m) (periodIops s) = periodIops s + writes m) as Hch.
    { rewrite <- (u64_small (periodIops s)) at 1 by lia. rewrite charge_iops_count. apply u64_small. lia. }
    unfold iops_tail. rewrite Hch. cbn [periodIops set_iops]. rewrite (proj2 (Z.leb_gt _ _)) by lia.
    eexists. split; [reflexivity|]. done.
  - intros Hout Hl. apply He in Hout. rewrite (proj2 (Z.leb_le _ _) Hout). by rewrite iops_starves.
  - intros Hout. apply He' in Hout. rewrite (proj2 (Z.leb_le _ _) Hout), Hq. cbn [bw_loop].
    destruct (scale_short (getQuotaCycle (qosParam s)) (writeRatio q)) as (_ & -> & _); [lia..|].
    rewrite (proj2 (Z.eqb_neq (writeRatio q) 0)) by lia. eexists _, _. split; [reflexivity|]. done.
Qed.

(** ** Witnesses *)

Definition qos (cycle : Z) : QosParam := {| limitWrite := 1; getQuotaCycle := cycle; enableThrottle := 0; q_saOpThrottle := 0 |}.
Definition write_op (length : Z) : OSDOp :=
  {| osd_op := {| op := CEPH_OSD_OP_WRITE; op_flags := 0; extent_offset := 0; extent_length := length; name_len := 0;
                  value_len := 0; cmp_op := 0; cmp_mode := MODE_OTHER 0; class_len := 0; method_len := 0;
                  cls_indata_len := 0; snapid := 0; writesame_offset := 0; writesame_length := 0 |};
     indata := []; outdata := []; rval := 0 |}.
Definition message (length : Z) : MOSDOp :=
  {| mosdop_ptr := 1; get_tid := 1; get_snapid := 0; get_pool := 3; get_seq := 0; m_seed := 0; get_snap_seq := 0;
     get_snaps := []; get_oid := []; ops := [write_op length] |}.
Definition at_ms (n : Z) : clock := {| enter := n * ms; indeterminate := 7; opened := n * ms; checked := n * ms |}.
Definition grants (l : list Z) : Z -> list SaWcacheQosInfo := fun _ => map (fun r => {| writeRatio := r; isGc := 1 |}) l.

Lemma quota_scaling_witness :
  (exists n, scale_bw 600 5000 = Some n /\ n = 5000) /\ scale_bw 2000 (2 ^ 31) = Some 0.
Proof.
  split.
  - destruct (proj1 (proj2 (quota_scaling 600 ltac:(split; reflexivity))) 5000 ltac:(discriminate) ltac:(reflexivity))
      as (n & H & _ & _ & Hn).
    exists n. split; [exact H|apply Hn; reflexivity].
  - exact (proj1 (proj2 (proj2 (proj2 (proj2 (quota_scaling 2000 ltac:(split; reflexivity))) (2 ^ 31) ltac:(discriminate) ltac:(discriminate))))).
Defined.

(** 200 KiB/s in windows of 200 ms: 40 KiB each.  The second write of 30 KiB fills
    the second window and sleeps to its end; the third opens the next one. *)
Definition three : list call :=
  [{| c_clock := at_ms 250; c_quota := grants [0; 200]; c_op := message 30720 |};
   {| c_clock := at_ms 300; c_quota := grants [200]; c_op := message 30720 |};
   {| c_clock := at_ms 450; c_quota := grants [200]; c_op := message 1024 |}].

Lemma bw_windows_witness :
  option_map (map (fun w => (w_begin w, w_limit w, w_kib w)))
    (windows three {| w_begin := 0; w_limit := UINT64_MAX; w_kib := [] |} (init (qos 200) 0 0)) =
  Some [(0, UINT64_MAX, []); (250 * ms, 40, [30; 30]); (450 * ms, 40, [1])].
Proof.
  destruct (bw_windows (qos 200) 0 0 three) as (ws & H & _).
  - cbn. lia.
  - vm_compute. intuition congruence.
  - apply Forall_cons_2; [apply Exists_cons_tl, Exists_cons_hd; discriminate|].
    apply Forall_cons_2; [apply Exists_cons_hd; discriminate|].
    apply Forall_cons_2; [apply Exists_cons_hd; discriminate|constructor].
  - rewrite H. cbn [option_map]. vm_compute in H. injection H as <-. reflexivity.
Defined.

Lemma iops_limit_unscaled_witness :
  LimitWriteIops (at_ms 250) 4 [4; 4; 4] (message 1024) (set_quota {| writeRatio := 5; isGc := 1 |} 0 (init (qos 200) 0 0)) = Waiting.
Proof.
  refine (proj1 (proj2 (iops_limit_unscaled (at_ms 250) 4 [4; 4; 4] (grants [5]) (message 1024)
    (set_quota {| writeRatio := 5; isGc := 1 |} 0 (init (qos 200) 0 0)) {| writeRatio := 5; isGc := 1 |} []
    _ _ _ _ _ _ _)) _ _).
  all: try (vm_compute; intuition congruence); try reflexivity.
  repeat constructor; vm_compute; intuition congruence.
Defined.
End Qos.
