(* ===== verification/OpQueue.v ===== *)
(** * [client_op_queue.h], [network_module.cpp]: the dispatch queues and their workers

    Dispatcher threads push client messages into [queueNum] queues, chosen by
    the object's name; one worker per queue swaps its queue out and hands the
    requests to the cache engine.  A label of the transition system is one
    critical section, or one step of a thread outside it.  The mutex of a queue
    is held by its worker exactly in [AtLoop] and [AtEmpty], and by a dispatcher
    in [DLimiting], while [LimitWrite] delays the write it has just queued; the
    other critical sections are single labels.  The worker's [condOpReq.wait] returns
    when it is notified; a spurious wake-up, which would only take it through the two
    tests before the wait once more, is not a label.  [DoOneOps] is an entry of the
    lane's log. *)

From S2P Require Import Prelude CStr Encoding MsgModule Throttle NetworkModule Qos.
Import SaDef.

Module ClientOpQueue.
Record t {M : Type} := { reqQueue : list M; tsQueue : list Z; period : list Z }.
#[global] Arguments t : clear implicits.

Definition new {M} : t M := {| reqQueue := []; tsQueue := []; period := [] |}.
Definition EnQueue {M} (opReq : M) (ts p : Z) (q : t M) : t M :=
  {| reqQueue := reqQueue q ++ [opReq]; tsQueue := tsQueue q ++ [ts]; period := period q ++ [p] |}.
Definition Empty {M} (q : t M) : bool := match reqQueue q with [] => true | _ => false end.
Definition GetSize {M} (q : t M) : Z := len (reqQueue q).

(** The three queues hold the entries of [l], in order. *)
Definition holds {M} (q : t M) (l : list (M * Z * Z)) : Prop :=
  reqQueue q = map (fun e => e.1.1) l /\ tsQueue q = map (fun e => e.1.2) l /\ period q = map snd l.

Lemma holds_EnQueue {M} (q : t M) l m ts p : holds q l -> holds (EnQueue m ts p q) (l ++ [(m, ts, p)]).
Proof. intros (H1 & H2 & H3). unfold holds, EnQueue. cbn. by rewrite !map_app, H1, H2, H3. Qed.

Lemma holds_new {M} : holds (@new M) [].
Proof. done. Qed.
End ClientOpQueue.

Module OpQueue.
Import NetworkModule.
Section queues.
Context `{CephInts} (partial_copy : Z -> bytes -> bytes) (readStatFlag : bool).
(** [std::hash<std::string>], [queueNum] and [queueMaxCapacity]. *)
Context (hash : bytes -> Z) (queueNum queueMaxCapacity : Z).

(** Where a worker stands in [OpHandlerThread]. *)
Inductive pc := Locking | AtLoop | AtEmpty | InWait (notified : bool) | Dealing | Finished.

(** What a worker did with a message, and the end of a copyup. *)
Inductive entry :=
| Handled (e : MOSDOp * Z * Z) (r : processed)
| CopyupDone.

(** A queue with its worker's variables; [deal] are [dealQueue], [dealTs] and
    [periodTs]. *)
Record lane := {
  queue : ClientOpQueue.t MOSDOp; deal : ClientOpQueue.t MOSDOp; worker : pc;
  finishThread : bool; copyupFlag : bool; log : list entry
}.

(** A dispatcher thread: idle, in [cond.wait] with its message, or in
    [LimitWrite], before or after [LimitWriteIops]. *)
Inductive dispatcher :=
| DIdle
| DWaiting (idx : nat) (m : MOSDOp) (ts : Z) (notified : bool)
| DLimiting (idx : nat) (m : MOSDOp) (iops_done : bool).

(** Where [StopThread] stands. *)
Inductive stop_pc := StLock (i : nat) | StFlag (i : nat) | StNotify (i : nat) | StJoin (i : nat).

(** [submitted] is history: what was enqueued, in order. *)
Record t := {
  lanes : list lane; dispatchers : list dispatcher; stopper : option stop_pc; qos : Qos.t;
  submitted : list (MOSDOp * Z * Z); crashed : bool
}.

Definition new_lane : lane :=
  {| queue := ClientOpQueue.new; deal := ClientOpQueue.new; worker := Locking;
     finishThread := false; copyupFlag := false; log := [] |}.

(** [CreateWorkThread], with [nd] dispatcher threads and the limits [q]. *)
Definition CreateWorkThread (nd : nat) (q : Qos.t) : t :=
  {| lanes := replicate (Z.to_nat queueNum) new_lane; dispatchers := replicate nd DIdle;
     stopper := None; qos := q; submitted := []; crashed := false |}.

Definition index_of (name : bytes) : nat := Z.to_nat (hash name mod queueNum).

Definition set_lane (i : nat) (l : lane) (s : t) : t :=
  {| lanes := <[i := l]> (lanes s); dispatchers := dispatchers s; stopper := stopper s; qos := qos s;
     submitted := submitted s; crashed := crashed s |}.
Definition set_dispatcher (d : nat) (x : dispatcher) (s : t) : t :=
  {| lanes := lanes s; dispatchers := <[d := x]> (dispatchers s); stopper := stopper s; qos := qos s;
     submitted := submitted s; crashed := crashed s |}.
Definition set_qos (q : Qos.t) (s : t) : t :=
  {| lanes := lanes s; dispatchers := dispatchers s; stopper := stopper s; qos := q;
     submitted := submitted s; crashed := crashed s |}.
Definition set_stopper (x : stop_pc) (s : t) : t :=
  {| lanes := lanes s; dispatchers := dispatchers s; stopper := Some x; qos := qos s;
     submitted := submitted s; crashed := crashed s |}.

Definition at_pc (p : pc) (l : lane) : lane :=
  {| queue := queue l; deal := deal l; worker := p; finishThread := finishThread l;
     copyupFlag := copyupFlag l; log := log l |}.

(** [notify_all] on the worker's condition, on the dispatchers' one. *)
Definition wake (l : lane) : lane :=
  match worker l with InWait _ => at_pc (InWait true) l | _ => l end.
Definition wake_dispatcher (i : nat) (x : dispatcher) : dispatcher :=
  match x with
  | DWaiting j m ts n => if bool_decide (i = j) then DWaiting j m ts true else x
  | _ => x
  end.

(** Who holds the mutex of a queue. *)
Definition locked (l : lane) : bool :=
  match worker l with AtLoop | AtEmpty => true | _ => false end.
Definition limiting (i : nat) (x : dispatcher) : bool :=
  match x with DLimiting j _ _ => bool_decide (i = j) | _ => false end.
Definition held (i : nat) (s : t) : bool := existsb (limiting i) (dispatchers s).

(** [qosParam.limitWrite && ContainWriteOp] *)
Definition limits (q : Qos.t) (m : MOSDOp) : bool :=
  negb (Qos.limitWrite (Qos.qosParam q) =? 0) && Qos.ContainWriteOp m.

(** The end of [EnqueueClientop]: [EnQueue] under the mutex, which the dispatcher
    keeps when it is to limit the write. *)
Definition push (d i : nat) (m : MOSDOp) (ts p : Z) (s : t) : option t :=
  l ← lanes s !! i;
  if locked l || held i s then None else
  Some {| lanes := <[i := wake {| queue := ClientOpQueue.EnQueue m ts p (queue l); deal := deal l;
                                  worker := worker l; finishThread := finishThread l;
                                  copyupFlag := copyupFlag l; log := log l |}]> (lanes s);
          dispatchers := if limits (qos s) m then <[d := DLimiting i m false]> (dispatchers s) else dispatchers s;
          stopper := stopper s; qos := qos s; submitted := submitted s ++ [(m, ts, p)]; crashed := crashed s |}.

(** [EnqueueClientop] by an idle dispatcher: a queue over its capacity makes it
    wait, once. *)
Definition EnqueueClientop (d : nat) (m : MOSDOp) (ts p : Z) (s : t) : option t :=
  x ← dispatchers s !! d;
  match x with
  | DWaiting _ _ _ _ | DLimiting _ _ _ => None
  | DIdle =>
      let i := index_of (get_oid m) in
      l ← lanes s !! i;
      if locked l || held i s then None
      else if queueMaxCapacity <? ClientOpQueue.GetSize (queue l)
      then Some (set_dispatcher d (DWaiting i m ts false) s)
      else push d i m ts p s
  end.

(** A dispatcher that was notified, or woke up spuriously, enqueues. *)
Definition resume (spurious : bool) (d : nat) (p : Z) (s : t) : option t :=
  x ← dispatchers s !! d;
  match x with
  | DWaiting i m ts n => if n || spurious then push d i m ts p (set_dispatcher d DIdle s) else None
  | _ => None
  end.

(** [LimitWrite]: each of its two calls keeps the state of the limits to itself
    until it returns; after the second the dispatcher unlocks the queue. *)
Definition LimitWriteIops (d : nat) (c : Qos.clock) (rate : Z) (answers : list Z) (s : t) : option t :=
  x ← dispatchers s !! d;
  match x with
  | DLimiting i m false =>
      match Qos.LimitWriteIops c rate answers m (qos s) with
      | Qos.Done _ q => Some (set_qos q (set_dispatcher d (DLimiting i m true) s))
      | _ => None
      end
  | _ => None
  end.
Definition LimitWriteBw (d : nat) (c : Qos.clock) (quota : Z -> list Qos.SaWcacheQosInfo) (s : t) : option t :=
  x ← dispatchers s !! d;
  match x with
  | DLimiting i m true =>
      match Qos.LimitWriteBw c quota m (qos s) with
      | Qos.Done _ q => Some (set_qos q (set_dispatcher d DIdle s))
      | _ => None
      end
  | _ => None
  end.

(** [dealQueue.pop()] and the like. *)
Definition pop_deal (q : ClientOpQueue.t MOSDOp) : option (MOSDOp * Z * Z * ClientOpQueue.t MOSDOp) :=
  match ClientOpQueue.reqQueue q, ClientOpQueue.tsQueue q, ClientOpQueue.period q with
  | m :: q1, ts :: q2, p :: q3 =>
      Some (m, ts, p, {| ClientOpQueue.reqQueue := q1; ClientOpQueue.tsQueue := q2; ClientOpQueue.period := q3 |})
  | _, _, _ => None
  end.

(** One step of the worker of queue [i]. *)
Definition OpHandlerThread (i : nat) (s : t) : option t :=
  l ← lanes s !! i;
  match worker l with
  | Locking => if held i s then None else Some (set_lane i (at_pc AtLoop l) s)
  | AtLoop => Some (set_lane i (at_pc (if finishThread l then Finished else AtEmpty) l) s)
  | AtEmpty =>
      if ClientOpQueue.Empty (queue l) then Some (set_lane i (at_pc (InWait false) l) s)
      else Some {| lanes := <[i := {| queue := deal l; deal := queue l; worker := Dealing;
                                      finishThread := finishThread l; copyupFlag := copyupFlag l;
                                      log := log l |}]> (lanes s);
                   dispatchers := map (wake_dispatcher i) (dispatchers s);
                   stopper := stopper s; qos := qos s; submitted := submitted s; crashed := crashed s |}
  | InWait notified => if notified && negb (held i s) then Some (set_lane i (at_pc AtLoop l) s) else None
  | Dealing =>
      if ClientOpQueue.Empty (deal l) then Some (set_lane i (at_pc Locking l) s) else
      '(m, ts, p, rest) ← pop_deal (deal l);
      let after r cf := {| queue := queue l; deal := rest; worker := Dealing; finishThread := finishThread l;
                           copyupFlag := cf; log := log l ++ [Handled (m, ts, p) r] |} in
      match ProcessOpReq partial_copy readStatFlag m with
      | Converted r =>
          if copyupFlag l then None      (* while (copyupFlag.load() == 1) *)
          else Some (set_lane i (after (Converted r) (exitsCopyUp r =? 1)) s)
      | Threw => Some {| lanes := <[i := after Threw (copyupFlag l)]> (lanes s);
                         dispatchers := dispatchers s; stopper := stopper s; qos := qos s;
                         submitted := submitted s; crashed := true |}
      | r => Some (set_lane i (after r (copyupFlag l)) s)
      end
  | Finished => None
  end.

(** The engine ends a copyup: [*pOpReq->copyupFlag = 0]. *)
Definition copyup_done (i : nat) (s : t) : option t :=
  l ← lanes s !! i;
  if copyupFlag l then
    Some (set_lane i {| queue := queue l; deal := deal l; worker := worker l;
                        finishThread := finishThread l; copyupFlag := false;
                        log := log l ++ [CopyupDone] |} s)
  else None.

(** One step of [StopThread]. *)
Definition StopThread (s : t) : option t :=
  match default (StLock 0) (stopper s) with
  | StLock i => match lanes s !! i with
                | Some l => if locked l || held i s then None else Some (set_stopper (StFlag i) s)
                | None => Some (set_stopper (StNotify 0) s)
                end
  | StFlag i => l ← lanes s !! i;
                Some (set_stopper (StLock (S i))
                        (set_lane i {| queue := queue l; deal := deal l; worker := worker l;
                                       finishThread := true; copyupFlag := copyupFlag l; log := log l |} s))
  | StNotify i => match lanes s !! i with
                  | Some l => Some (set_stopper (StNotify (S i)) (set_lane i (wake l) s))
                  | None => Some (set_stopper (StJoin 0) s)
                  end
  | StJoin i => l ← lanes s !! i;
                match worker l with Finished => Some (set_stopper (StJoin (S i)) s) | _ => None end
  end.

Inductive label :=
| Dispatch (d : nat) (m : MOSDOp) (ts p : Z)
| Resume (spurious : bool) (d : nat) (p : Z)
| LimitIops (d : nat) (c : Qos.clock) (rate : Z) (answers : list Z)
| LimitBw (d : nat) (c : Qos.clock) (quota : Z -> list Qos.SaWcacheQosInfo)
| Work (i : nat)
| EndCopyup (i : nat)
| Stop.

Definition step (a : label) (s : t) : option t :=
  if crashed s then None else
  match a with
  | Dispatch d m ts p => EnqueueClientop d m ts p s
  | Resume spurious d p => resume spurious d p s
  | LimitIops d c rate answers => LimitWriteIops d c rate answers s
  | LimitBw d c quota => LimitWriteBw d c quota s
  | Work i => OpHandlerThread i s
  | EndCopyup i => copyup_done i s
  | Stop => StopThread s
  end.

Fixpoint run (tr : list label) (s : t) : option t :=
  match tr with
  | [] => Some s
  | a :: tr' => s' ← step a s; run tr' s'
  end.

(** ** Invariants *)

Definition handled (l : list entry) : list (MOSDOp * Z * Z) :=
  omap (fun e => match e with Handled x _ => Some x | CopyupDone => None end) l.

Definition routed (i : nat) (e : MOSDOp * Z * Z) : Prop := index_of (get_oid e.1.1) = i.
#[local] Instance routed_dec i e : Decision (routed i e).
Proof. unfold routed. apply _. Defined.

(** Reading a log: after a copyup request only its end may follow. *)
Fixpoint barrier (flag : bool) (l : list entry) : option bool :=
  match l with
  | [] => Some flag
  | Handled _ (Converted r) :: l' => if flag then None else barrier (exitsCopyUp r =? 1) l'
  | Handled _ _ :: l' => barrier flag l'
  | CopyupDone :: l' => if flag then barrier false l' else None
  end.

Definition lane_inv (sub : list (MOSDOp * Z * Z)) (i : nat) (l : lane) : Prop :=
  exists dd qd, ClientOpQueue.holds (deal l) dd /\ ClientOpQueue.holds (queue l) qd /\
    filter (routed i) sub = handled (log l) ++ dd ++ qd /\
    (worker l <> Dealing -> dd = []) /\ barrier false (log l) = Some (copyupFlag l).

Definition inv (s : t) : Prop :=
  (forall i l, lanes s !! i = Some l -> lane_inv (submitted s) i l) /\
  (forall d i m ts n, dispatchers s !! d = Some (DWaiting i m ts n) -> i = index_of (get_oid m)).

Lemma barrier_app f l k :
  barrier f (l ++ k) = f' ← barrier f l; barrier f' k.
Proof.
  revert f. induction l as [|[e r|] l IH]; intros f; cbn; [done| |by destruct f].
  destruct r; [by destruct f|done..].
Qed.

Lemma handled_app l k : handled (l ++ k) = handled l ++ handled k.
Proof. apply omap_app. Qed.

Lemma lanes_inv_set_lane s i l l' :
  inv s -> lanes s !! i = Some l -> lane_inv (submitted s) i l' -> inv (set_lane i l' s).
Proof.
  intros [Hi Hd] Hl Hl'. split; [|done]. intros j k Hk. cbn in *.
  apply list_lookup_insert_Some in Hk. destruct Hk as [(-> & -> & _)|[_ Hk]]; [done|by apply Hi].
Qed.

Lemma lane_inv_pc sub i l p :
  lane_inv sub i l -> (worker l = Dealing -> p = Dealing \/ ClientOpQueue.reqQueue (deal l) = []) ->
  lane_inv sub i (at_pc p l).
Proof.
  intros (dd & qd & H1 & H2 & H3 & H4 & H5) Hp. exists dd, qd. cbn. do 3 (split; [done|]). split; [|done].
  intros Hne. destruct (worker l); try (apply H4; done).
  destruct (Hp eq_refl) as [|He]; [done|]. destruct H1 as [H1 _]. rewrite He in H1. by destruct dd.
Qed.

Lemma lane_inv_wake sub i l : lane_inv sub i l -> lane_inv sub i (wake l).
Proof. intros Hl. unfold wake. destruct (worker l) eqn:E; try done. apply lane_inv_pc; [done|]. by rewrite E. Qed.

Lemma inv_push d i m ts p s s' :
  inv s -> i = index_of (get_oid m) -> push d i m ts p s = Some s' -> inv s'.
Proof.
  intros [Hi Hd] Hm Hs. unfold push in Hs. apply bind_Some in Hs as (l & Hl & Hs).
  destruct (_ || _); [done|]. injection Hs as <-. split.
  2:{ intros d' j m' ts' n Hk. cbn in Hk. destruct (limits (qos s) m); [|by eapply Hd].
      apply list_lookup_insert_Some in Hk as [(_ & Hk & _)|[_ Hk]]; [done|by eapply Hd]. }
  intros j k Hk. cbn in *. apply list_lookup_insert_Some in Hk. destruct Hk as [(<- & <- & Hlt)|[Hne Hk]].
  - apply lane_inv_wake. destruct (Hi _ _ Hl) as (dd & qd & H1 & H2 & H3 & H4 & H5).
    exists dd, (qd ++ [(m, ts, p)]). cbn. split; [done|]. split; [by apply ClientOpQueue.holds_EnQueue|].
    split; [|done]. rewrite filter_app, H3, filter_cons_True, filter_nil by done. by rewrite !app_assoc.
  - destruct (Hi _ _ Hk) as (dd & qd & H1 & H2 & H3 & H4 & H5). exists dd, qd.
    do 2 (split; [done|]). split; [|done].
    rewrite filter_app, H3, filter_cons_False, filter_nil, app_nil_r; [done|]. unfold routed. cbn. congruence.
Qed.

Lemma inv_set_dispatcher d x s :
  inv s -> (forall i m ts n, x = DWaiting i m ts n -> i = index_of (get_oid m)) ->
  inv (set_dispatcher d x s).
Proof.
  intros [Hi Hd] Hx. split; [done|]. intros d' i m ts n Hk. cbn in Hk.
  apply list_lookup_insert_Some in Hk. destruct Hk as [(_ & Hk & _)|[_ Hk]]; [by eapply Hx|by eapply Hd].
Qed.

Lemma inv_EnqueueClientop d m ts p s s' : inv s -> EnqueueClientop d m ts p s = Some s' -> inv s'.
Proof.
  intros Hi Hs. unfold EnqueueClientop in Hs. apply bind_Some in Hs as (x & Hx & Hs).
  destruct x; [|done..]. apply bind_Some in Hs as (l & Hl & Hs). destruct (_ || _); [done|].
  destruct (_ <? _); [|by eapply inv_push]. injection Hs as <-.
  apply inv_set_dispatcher; [done|]. by intros ? ? ? ? [= <- <- <- <-].
Qed.

Lemma inv_resume sp d p s s' : inv s -> resume sp d p s = Some s' -> inv s'.
Proof.
  intros Hi Hs. unfold resume in Hs. apply bind_Some in Hs as (x & Hx & Hs).
  destruct x as [|i m ts n|]; [done| |done]. destruct (n || sp); [|done].
  eapply inv_push; [|by eapply Hi|done]. by apply inv_set_dispatcher.
Qed.

Lemma inv_set_qos q s : inv s -> inv (set_qos q s).
Proof. done. Qed.

Lemma inv_LimitWriteIops s s' d c rate answers : inv s -> LimitWriteIops d c rate answers s = Some s' -> inv s'.
Proof.
  intros Hi Hs. apply bind_Some in Hs as (x & Hx & Hs). destruct x as [| |i m [|]]; try done.
  case_match; try done. injection Hs as <-. by apply inv_set_qos, inv_set_dispatcher.
Qed.

Lemma inv_LimitWriteBw s s' d c quota : inv s -> LimitWriteBw d c quota s = Some s' -> inv s'.
Proof.
  intros Hi Hs. apply bind_Some in Hs as (x & Hx & Hs). destruct x as [| |i m [|]]; try done.
  case_match; try done. injection Hs as <-. by apply inv_set_qos, inv_set_dispatcher.
Qed.

Lemma inv_swap i l s : inv s -> lanes s !! i = Some l -> worker l = AtEmpty ->
  inv {| lanes := <[i := {| queue := deal l; deal := queue l; worker := Dealing;
                            finishThread := finishThread l; copyupFlag := copyupFlag l; log := log l |}]> (lanes s);
         dispatchers := map (wake_dispatcher i) (dispatchers s); stopper := stopper s; qos := qos s;
         submitted := submitted s; crashed := crashed s |}.
Proof.
  intros [Hi Hd] Hl Hw. split.
  - intros j k Hk. cbn in *. apply list_lookup_insert_Some in Hk.
    destruct Hk as [(-> & <- & _)|[_ Hk]]; [|by apply Hi].
    destruct (Hi _ _ Hl) as (dd & qd & H1 & H2 & H3 & H4 & H5).
    rewrite H4 in * by by rewrite Hw. exists qd, []. cbn. do 2 (split; [done|]).
    split; [by rewrite app_nil_r|done].
  - intros d j m ts n Hk. cbn in Hk. rewrite list_lookup_fmap in Hk.
    destruct (dispatchers s !! d) as [x|] eqn:Hx; [|done]. cbn in Hk. injection Hk as Hk.
    destruct x as [|j' m' ts' n'|]; [done| |done]. cbn in Hk. apply Hd in Hx.
    destruct (bool_decide _); by simplify_eq.
Qed.

Lemma pop_deal_spec q m ts p rest dd :
  ClientOpQueue.holds q dd -> pop_deal q = Some (m, ts, p, rest) ->
  exists dd', dd = (m, ts, p) :: dd' /\ ClientOpQueue.holds rest dd'.
Proof.
  intros (H1 & H2 & H3) Hp. unfold pop_deal in Hp.
  destruct (ClientOpQueue.reqQueue q), (ClientOpQueue.tsQueue q), (ClientOpQueue.period q); try done.
  simplify_eq. destruct dd as [|[[m' ts'] p'] dd]; [done|]. cbn in *. simplify_eq. by exists dd.
Qed.

Lemma inv_OpHandlerThread i s s' : inv s -> OpHandlerThread i s = Some s' -> inv s'.
Proof.
  intros Hi Hs. unfold OpHandlerThread in Hs. apply bind_Some in Hs as (l & Hl & Hs).
  pose proof (proj1 Hi _ _ Hl) as HL.
  assert (forall p, (worker l = Dealing -> ClientOpQueue.reqQueue (deal l) = []) ->
    inv (set_lane i (at_pc p l) s)) as Hpc.
  { intros p Hp. eapply lanes_inv_set_lane; [done..|]. apply lane_inv_pc; [done|]. intros Hw. right. by apply Hp. }
  destruct (worker l) eqn:Ew; try done.
  - destruct (held i s); [done|]. injection Hs as <-. by apply Hpc.
  - injection Hs as <-. by apply Hpc.
  - destruct (ClientOpQueue.Empty (queue l)); injection Hs as <-; [by apply Hpc|by apply inv_swap].
  - destruct (_ && _); [|done]. injection Hs as <-. by apply Hpc.
  - destruct (ClientOpQueue.Empty (deal l)) eqn:Ee.
    { injection Hs as <-. apply Hpc. intros _. unfold ClientOpQueue.Empty in Ee.
      by destruct (ClientOpQueue.reqQueue (deal l)). }
    apply bind_Some in Hs as ([[[m ts] p] rest] & Hp & Hs).
    destruct HL as (dd & qd & H1 & H2 & H3 & H4 & H5).
    destruct (pop_deal_spec _ _ _ _ _ _ H1 Hp) as (dd' & -> & H1').
    assert (forall r cf, barrier (copyupFlag l) [Handled (m, ts, p) r] = Some cf ->
      lane_inv (submitted s) i {| queue := queue l; deal := rest; worker := Dealing;
        finishThread := finishThread l; copyupFlag := cf; log := log l ++ [Handled (m, ts, p) r] |}) as Hn.
    { intros r cf Hb. exists dd', qd. cbn. do 2 (split; [done|]). split; [|split; [done|]].
      - rewrite handled_app, H3. cbn. by rewrite <- app_assoc.
      - by rewrite barrier_app, H5. }
    destruct (ProcessOpReq partial_copy readStatFlag m) as [r|ret| |] eqn:Ep.
    + destruct (copyupFlag l) eqn:Ec; [done|]. injection Hs as <-. eapply lanes_inv_set_lane; [done..|].
      by apply Hn.
    + injection Hs as <-. eapply lanes_inv_set_lane; [done..|]. by apply Hn.
    + injection Hs as <-. eapply lanes_inv_set_lane; [done..|]. by apply Hn.
    + injection Hs as <-. assert (inv (set_lane i {| queue := queue l; deal := rest; worker := Dealing;
        finishThread := finishThread l; copyupFlag := copyupFlag l;
        log := log l ++ [Handled (m, ts, p) Threw] |} s)) as Hn'; [|exact Hn'].
      eapply lanes_inv_set_lane; [done..|]. by apply Hn.
Qed.

Lemma inv_copyup_done i s s' : inv s -> copyup_done i s = Some s' -> inv s'.
Proof.
  intros Hi Hs. unfold copyup_done in Hs. apply bind_Some in Hs as (l & Hl & Hs).
  destruct (copyupFlag l) eqn:Ec; [|done]. injection Hs as <-. eapply lanes_inv_set_lane; [done..|].
  destruct (proj1 Hi _ _ Hl) as (dd & qd & H1 & H2 & H3 & H4 & H5). exists dd, qd. cbn.
  do 2 (split; [done|]). split; [by rewrite handled_app, app_nil_r|]. split; [done|].
  by rewrite barrier_app, H5, Ec.
Qed.

Lemma inv_StopThread s s' : inv s -> StopThread s = Some s' -> inv s'.
Proof.
  intros Hi Hs. unfold StopThread in Hs.
  destruct (default _ (stopper s)) as [i|i|i|i]; destruct (lanes s !! i) as [l|] eqn:Hl; try done; cbn in Hs.
  - destruct (_ || _); [done|]. by injection Hs as <-.
  - by injection Hs as <-.
  - injection Hs as <-. refine (lanes_inv_set_lane s i l _ Hi Hl _). exact (proj1 Hi _ _ Hl).
  - injection Hs as <-. refine (lanes_inv_set_lane s i l _ Hi Hl _). apply lane_inv_wake. exact (proj1 Hi _ _ Hl).
  - by injection Hs as <-.
  - destruct (worker l); try done. by injection Hs as <-.
Qed.

Lemma lanes_inv_run tr s s' : inv s -> run tr s = Some s' -> inv s'.
Proof.
  revert s. induction tr as [|a tr IH]; intros s Hi Hr; cbn in Hr; [by injection Hr as <-|].
  apply bind_Some in Hr as (s1 & H1 & Hr). eapply IH; [|done]. unfold step in H1.
  destruct (crashed s); [done|].
  destruct a; eauto using inv_EnqueueClientop, inv_resume, inv_LimitWriteIops, inv_LimitWriteBw,
    inv_OpHandlerThread, inv_copyup_done, inv_StopThread.
Qed.

Lemma lanes_inv_init nd q : inv (CreateWorkThread nd q).
Proof.
  split; cbn.
  - intros i l [-> _]%lookup_replicate. exists [], []. by repeat split.
  - by intros d i m ts n [? _]%lookup_replicate.
Qed.

(** *** The number of queued messages *)

(** A dispatcher of queue [i] that has been notified. *)
Definition ready (i : nat) (x : dispatcher) : bool :=
  match x with DWaiting j _ _ n => n && bool_decide (i = j) | _ => false end.

Definition cap_inv (nd : nat) (s : t) : Prop :=
  length (dispatchers s) = nd /\
  forall i l, lanes s !! i = Some l ->
    ClientOpQueue.GetSize (queue l) + count_if (ready i) (dispatchers s) <= queueMaxCapacity + 1 + Z.of_nat nd.

Definition no_spurious (a : label) : Prop := match a with Resume sp _ _ => sp = false | _ => True end.

Lemma cap_ready nd i s : cap_inv nd s -> 0 <= count_if (ready i) (dispatchers s) <= Z.of_nat nd.
Proof. intros [Hd _]. pose proof (count_if_le (ready i) (dispatchers s)). unfold len in *. lia. Qed.

Lemma cap_set_lane nd s i l l' : cap_inv nd s -> lanes s !! i = Some l -> queue l' = queue l ->
  cap_inv nd (set_lane i l' s).
Proof.
  intros [Hd Hc] Hl Hq. split; [done|]. intros j k Hk. cbn in *. apply list_lookup_insert_Some in Hk.
  destruct Hk as [(<- & <- & _)|[_ Hk]]; [rewrite Hq|]; by apply Hc.
Qed.

Lemma wake_queue l : queue (wake l) = queue l.
Proof. unfold wake. by destruct (worker l). Qed.

(** A dispatcher that starts to limit is no longer ready. *)
Lemma limiting_not_ready i j d m b ds : count_if (ready j) (<[d := DLimiting i m b]> ds) <= count_if (ready j) ds.
Proof.
  destruct (ds !! d) as [x|] eqn:Hx.
  - rewrite (count_if_insert _ _ _ _ _ Hx). cbn. destruct (ready j x); cbn; lia.
  - rewrite list_insert_ge; [done|]. by apply lookup_ge_None.
Qed.

Lemma cap_le_dispatchers nd s s' : length (dispatchers s') = length (dispatchers s) ->
  (forall i, count_if (ready i) (dispatchers s') <= count_if (ready i) (dispatchers s)) ->
  cap_inv nd {| lanes := lanes s'; dispatchers := dispatchers s; stopper := stopper s'; qos := qos s';
                submitted := submitted s'; crashed := crashed s' |} -> cap_inv nd s'.
Proof.
  intros Hl Hr [Hd Hc]. split; [rewrite Hl; exact Hd|]. intros i l Hi. specialize (Hc i l Hi). cbn in Hc.
  specialize (Hr i). lia.
Qed.

Lemma cap_push nd d i m ts p s s' :
  length (dispatchers s) = nd ->
  (forall j l, lanes s !! j = Some l ->
     ClientOpQueue.GetSize (queue l) + (if decide (i = j) then 1 else 0) + count_if (ready j) (dispatchers s)
       <= queueMaxCapacity + 1 + Z.of_nat nd) ->
  push d i m ts p s = Some s' -> cap_inv nd s'.
Proof.
  intros Hd Hc Hs. unfold push in Hs. apply bind_Some in Hs as (l & Hl & Hs).
  destruct (_ || _); [done|]. injection Hs as <-. apply (cap_le_dispatchers nd s).
  { cbn. destruct (limits (qos s) m); [by rewrite length_insert|done]. }
  { intros j. cbn. destruct (limits (qos s) m); [by apply limiting_not_ready|done]. }
  split; [done|]. intros j k Hk. cbn in *. apply list_lookup_insert_Some in Hk. destruct Hk as [(<- & <- & _)|[Hne Hk]].
  - specialize (Hc _ _ Hl). rewrite decide_True in Hc by done. rewrite wake_queue. cbn.
    unfold ClientOpQueue.GetSize in *. cbn. rewrite len_app, len_cons, len_nil. lia.
  - specialize (Hc _ _ Hk). rewrite decide_False in Hc by done. lia.
Qed.

Lemma cap_LimitWrite nd d x y q s : cap_inv nd s -> dispatchers s !! d = Some x -> (forall i, ready i y = false) ->
  cap_inv nd (set_qos q (set_dispatcher d y s)).
Proof.
  intros [Hd Hc] Hx Hy. split; [cbn; by rewrite length_insert|]. intros i l Hl. cbn in *.
  rewrite (count_if_insert _ _ _ _ _ Hx), Hy. specialize (Hc _ _ Hl). destruct (ready i x); cbn; lia.
Qed.

Lemma cap_step nd a s s' :
  0 <= queueMaxCapacity -> no_spurious a -> inv s -> cap_inv nd s -> step a s = Some s' -> cap_inv nd s'.
Proof.
  intros H0 Hns Hi Hc Hs. unfold step in Hs. destruct (crashed s); [done|]. destruct a as [d m ts p|sp d p|d c rate ans|d c quota|i|i|].
  - unfold EnqueueClientop in Hs. apply bind_Some in Hs as (x & Hx & Hs). destruct x; [|done..].
    apply bind_Some in Hs as (l & Hl & Hs). destruct (_ || _); [done|]. destruct (_ <? _) eqn:El; bprop.
    + injection Hs as <-. destruct Hc as [Hd Hc]. split; [cbn [set_dispatcher dispatchers]; by rewrite length_insert|].
      intros i k Hk. cbn [set_dispatcher dispatchers lanes] in *. rewrite (count_if_insert _ _ _ _ _ Hx). cbn. specialize (Hc _ _ Hk). lia.
    + eapply cap_push; [apply Hc| |done]. intros j k Hk. pose proof (cap_ready nd j s Hc).
      destruct (decide _) as [<-|]; [simplify_eq; lia|]. destruct Hc as [_ Hc]. specialize (Hc _ _ Hk). lia.
  - cbn in Hns. subst sp. unfold resume in Hs. apply bind_Some in Hs as (x & Hx & Hs).
    destruct x as [|i m ts n|]; [done| |done]. destruct n; [|done]. cbn [orb] in Hs.
    destruct Hc as [Hd Hc]. eapply cap_push; [| |exact Hs]; [cbn [set_dispatcher dispatchers]; by rewrite length_insert|].
    intros j k Hk. cbn [set_dispatcher dispatchers lanes] in *.
    rewrite (count_if_insert _ _ _ _ _ Hx). cbn [ready andb]. specialize (Hc _ _ Hk).
    destruct (decide (i = j)) as [->|]; [rewrite bool_decide_true by done; cbn; lia|].
    rewrite bool_decide_false by done. cbn. lia.
  - apply bind_Some in Hs as (x & Hx & Hs). destruct x as [| |i m [|]]; try done. case_match; try done.
    injection Hs as <-. by eapply cap_LimitWrite.
  - apply bind_Some in Hs as (x & Hx & Hs). destruct x as [| |i m [|]]; try done. case_match; try done.
    injection Hs as <-. by eapply cap_LimitWrite.
  - unfold OpHandlerThread in Hs. apply bind_Some in Hs as (l & Hl & Hs).
    destruct (worker l) eqn:Ew; try done.
    + destruct (held i s); [done|]. injection Hs as <-. by eapply cap_set_lane.
    + injection Hs as <-. by eapply cap_set_lane.
    + destruct (ClientOpQueue.Empty (queue l)); injection Hs as <-; [by eapply cap_set_lane|].
      destruct Hc as [Hd Hc]. split; [cbn; by rewrite length_map|]. intros j k Hk. cbn in *.
      pose proof (count_if_le (ready j) (map (wake_dispatcher i) (dispatchers s))) as Hle.
      unfold len in Hle. rewrite length_map in Hle.
      apply list_lookup_insert_Some in Hk. destruct Hk as [(<- & <- & _)|[Hne Hk]].
      * cbn. destruct (proj1 Hi _ _ Hl) as (dd & qd & [H1 _] & _ & _ & H4 & _).
        rewrite H4 in H1 by by rewrite Ew. unfold ClientOpQueue.GetSize. rewrite H1. cbn. rewrite len_nil. lia.
      * assert (count_if (ready j) (map (wake_dispatcher i) (dispatchers s)) =
                count_if (ready j) (dispatchers s)) as ->; [|by apply Hc].
        clear -Hne. induction (dispatchers s) as [|x l IH]; [done|]. cbn [map].
        rewrite !count_if_cons, IH. f_equal. f_equal. destruct x as [|j' m ts n|]; [done| |done]. cbn.
        destruct (bool_decide (i = j')) eqn:E; [|done]. apply bool_decide_eq_true in E as <-.
        cbn. by rewrite (bool_decide_false (j = i)), andb_false_r by congruence.
    + destruct (_ && _); [|done]. injection Hs as <-. by eapply cap_set_lane.
    + destruct (ClientOpQueue.Empty (deal l)); [injection Hs as <-; by eapply cap_set_lane|].
      apply bind_Some in Hs as ([[[m ts] p] rest] & Hp & Hs).
      destruct (ProcessOpReq _ _ _); [destruct (copyupFlag l); [done|]|..]; injection Hs as <-;
        try (by eapply cap_set_lane).
  - unfold copyup_done in Hs. apply bind_Some in Hs as (l & Hl & Hs). destruct (copyupFlag l); [|done].
    injection Hs as <-. by eapply cap_set_lane.
  - unfold StopThread in Hs.
    destruct (default _ (stopper s)) as [i|i|i|i]; destruct (lanes s !! i) as [l|] eqn:Hl; try done; cbn in Hs.
    + destruct (_ || _); [done|]. by injection Hs as <-.
    + by injection Hs as <-.
    + injection Hs as <-. by refine (cap_set_lane nd s i l _ Hc Hl _).
    + injection Hs as <-. refine (cap_set_lane nd s i l _ Hc Hl _). apply wake_queue.
    + by injection Hs as <-.
    + destruct (worker l); try done. by injection Hs as <-.
Qed.

(** *** The mutex of a queue while a write is limited *)

(** One holder at most: the worker, or one dispatcher. *)
Definition exclusive (s : t) : Prop :=
  (forall i l d m b, lanes s !! i = Some l -> dispatchers s !! d = Some (DLimiting i m b) -> locked l = false) /\
  (forall d d' i m b m' b', dispatchers s !! d = Some (DLimiting i m b) ->
     dispatchers s !! d' = Some (DLimiting i m' b') -> d = d').

Lemma held_false i s : held i s = false <-> forall d m b, dispatchers s !! d <> Some (DLimiting i m b).
Proof.
  unfold held. rewrite <- not_true_iff_false, existsb_exists. split.
  - intros Hf d m b Hd. apply Hf. exists (DLimiting i m b). split; [by eapply list_elem_of_In, list_elem_of_lookup_2|].
    cbn. by apply bool_decide_true.
  - intros Hf (x & Hx & Hl). destruct x as [| |j m b]; try done. cbn in Hl. apply bool_decide_eq_true in Hl as <-.
    apply list_elem_of_In, list_elem_of_lookup_1 in Hx as [d Hd]. by eapply Hf.
Qed.

(** A change of the dispatchers that makes no new holder. *)
Lemma exclusive_mono s s' : exclusive s -> lanes s' = lanes s ->
  (forall d i m b, dispatchers s' !! d = Some (DLimiting i m b) -> exists b', dispatchers s !! d = Some (DLimiting i m b')) ->
  exclusive s'.
Proof.
  intros [H1 H2] Hl Hd. split.
  - intros i l d m b Hi Hx. apply Hd in Hx as [b' Hx]. rewrite Hl in Hi. by eapply H1.
  - intros d d' i m b m' b' Hx Hx'. apply Hd in Hx as [? Hx]. apply Hd in Hx' as [? Hx']. by eapply H2.
Qed.

Lemma exclusive_set_dispatcher s d x : exclusive s ->
  (forall i m b, x = DLimiting i m b -> exists b', dispatchers s !! d = Some (DLimiting i m b')) ->
  exclusive (set_dispatcher d x s).
Proof.
  intros He Hx. apply (exclusive_mono s); [done..|]. intros d' i m b Hd. cbn in Hd.
  apply list_lookup_insert_Some in Hd as [(-> & Hd & _)|[_ Hd]]; [by eapply Hx|by exists b].
Qed.

Lemma exclusive_set_lane s i l l' : exclusive s -> lanes s !! i = Some l ->
  (locked l' = true -> locked l = true \/ held i s = false) -> exclusive (set_lane i l' s).
Proof.
  intros [H1 H2] Hl Hk. split; [|done]. intros j k d m b Hj Hd. cbn in *.
  apply list_lookup_insert_Some in Hj as [(-> & -> & _)|[_ Hj]]; [|by eapply H1].
  destruct (locked k) eqn:E; [|done]. destruct Hk as [Hk|Hk]; [done| |].
  - rewrite (H1 _ _ _ _ _ Hl Hd) in Hk. done.
  - by apply (proj1 (held_false _ _) Hk) in Hd.
Qed.

Lemma locked_wake l : locked l = false -> locked (wake l) = false.
Proof. intros Hl. unfold wake. by destruct (worker l) eqn:E. Qed.

Lemma exclusive_push s d i m ts p s' : exclusive s -> push d i m ts p s = Some s' -> exclusive s'.
Proof.
  intros [H1 H2] Hs. unfold push in Hs. apply bind_Some in Hs as (l & Hl & Hs).
  destruct (locked l || held i s) eqn:E; [done|]. apply orb_false_iff in E as [El Eh].
  injection Hs as <-. pose proof (proj1 (held_false _ _) Eh) as Hh.
  assert (forall d' j n b, (if limits (qos s) m then <[d := DLimiting i m false]> (dispatchers s) else dispatchers s) !! d' =
            Some (DLimiting j n b) -> (d' = d /\ j = i) \/ dispatchers s !! d' = Some (DLimiting j n b)) as Hd.
  { intros d' j n b. destruct (limits (qos s) m); [|by right].
    intros [(-> & [= <- _ _] & _)|[_ Hd]]%list_lookup_insert_Some; [by left|by right]. }
  split; cbn.
  - intros j k d' n b Hj Hd'. apply list_lookup_insert_Some in Hj as [(<- & <- & _)|[Hne Hj]]; [by apply locked_wake|].
    apply Hd in Hd' as [[_ ->]|Hd']; [done|by eapply H1].
  - intros d1 d2 j n b n' b' Hx Hy. apply Hd in Hx, Hy.
    destruct Hx as [[-> ->]|Hx], Hy as [[-> Hj]|Hy]; subst; try done; try (by apply Hh in Hx); try (by apply Hh in Hy).
    by eapply H2.
Qed.

Lemma exclusive_OpHandlerThread i s s' : exclusive s -> OpHandlerThread i s = Some s' -> exclusive s'.
Proof.
  intros He Hs. unfold OpHandlerThread in Hs. apply bind_Some in Hs as (l & Hl & Hs).
  destruct (worker l) eqn:Ew; try done.
  - destruct (held i s) eqn:Eh; [done|]. injection Hs as <-. eapply exclusive_set_lane; [done..|by right].
  - injection Hs as <-. eapply exclusive_set_lane; [done..|]. left. unfold locked. by rewrite Ew.
  - destruct (ClientOpQueue.Empty (queue l)); injection Hs as <-; [by eapply exclusive_set_lane|].
    apply (exclusive_mono (set_lane i {| queue := deal l; deal := queue l; worker := Dealing;
      finishThread := finishThread l; copyupFlag := copyupFlag l; log := log l |} s)); [by eapply exclusive_set_lane|done|].
    cbn. intros d j m b Hd. rewrite list_lookup_fmap in Hd. destruct (dispatchers s !! d) as [x|]; [|done].
    injection Hd as Hd. destruct x; try done; [|by simplify_eq/=; exists b]. cbn in Hd. by case_bool_decide.
  - destruct (notified && negb (held i s)) eqn:E; [|done]. injection Hs as <-. apply andb_true_iff in E as [_ E].
    apply negb_true_iff in E. eapply exclusive_set_lane; [done..|by right].
  - destruct (ClientOpQueue.Empty (deal l)); [injection Hs as <-; by eapply exclusive_set_lane|].
    apply bind_Some in Hs as ([[[m ts] p] rest] & Hp & Hs).
    destruct (ProcessOpReq _ _ _); [destruct (copyupFlag l); [done|]|..]; injection Hs as <-;
      by eapply exclusive_set_lane.
Qed.

Lemma exclusive_step a s s' : exclusive s -> step a s = Some s' -> exclusive s'.
Proof.
  intros He Hs. unfold step in Hs. destruct (crashed s); [done|].
  destruct a as [d m ts p|sp d p|d c rate ans|d c quota|i|i|].
  - apply bind_Some in Hs as (x & Hx & Hs). destruct x; [|done..]. apply bind_Some in Hs as (l & Hl & Hs).
    destruct (_ || _); [done|]. destruct (_ <? _); [|by eapply exclusive_push].
    injection Hs as <-. by apply exclusive_set_dispatcher.
  - apply bind_Some in Hs as (x & Hx & Hs). destruct x; [done| |done]. destruct (_ || _); [|done].
    eapply exclusive_push; [|done]. by apply exclusive_set_dispatcher.
  - apply bind_Some in Hs as (x & Hx & Hs). destruct x as [| |i m [|]]; try done. case_match; try done.
    injection Hs as <-. apply (exclusive_set_dispatcher s); [done|]. intros ? ? ? [= <- <- <-]. by exists false.
  - apply bind_Some in Hs as (x & Hx & Hs). destruct x as [| |i m [|]]; try done. case_match; try done.
    injection Hs as <-. by apply (exclusive_set_dispatcher s).
  - by eapply exclusive_OpHandlerThread.
  - unfold copyup_done in Hs. apply bind_Some in Hs as (l & Hl & Hs). destruct (copyupFlag l); [|done].
    injection Hs as <-. eapply exclusive_set_lane; [done..|]. by left.
  - unfold StopThread in Hs.
    destruct (default _ (stopper s)) as [i|i|i|i]; destruct (lanes s !! i) as [l|] eqn:Hl; try done; cbn in Hs.
    + destruct (_ || _); [done|]. by injection Hs as <-.
    + by injection Hs as <-.
    + injection Hs as <-. refine (exclusive_set_lane s i l _ He Hl _). by left.
    + injection Hs as <-. refine (exclusive_set_lane s i l _ He Hl _). left.
      destruct (locked l) eqn:E; [done|]. by rewrite locked_wake in *.
    + by injection Hs as <-.
    + destruct (worker l); try done. by injection Hs as <-.
Qed.

Lemma exclusive_run tr s s' : exclusive s -> run tr s = Some s' -> exclusive s'.
Proof.
  revert s. induction tr as [|a tr IH]; intros s He Hr; cbn in Hr; [by injection Hr as <-|].
  apply bind_Some in Hr as (s1 & H1 & Hr). eapply IH; [by eapply exclusive_step|done].
Qed.

Lemma exclusive_init nd q : exclusive (CreateWorkThread nd q).
Proof. split; cbn; intros; match goal with Hx : replicate _ _ !! _ = _ |- _ => by apply lookup_replicate in Hx as [? _] end. Qed.

(** The labels of dispatcher [d]'s way through [LimitWrite]. *)
Definition limit_of (a : label) : option nat :=
  match a with LimitIops d _ _ _ | LimitBw d _ _ => Some d | _ => None end.

(** What can happen to a queue whose mutex is not given back: its worker goes
    through the messages it had taken out. *)
Definition stuck (l l' : lane) : Prop :=
  queue l' = queue l /\ locked l' = false /\ exists k, handled (log l') = handled (log l) ++ k /\
    map (fun e => e.1.1) k ++ ClientOpQueue.reqQueue (deal l') = ClientOpQueue.reqQueue (deal l).

Lemma stuck_same l l' : queue l' = queue l -> deal l' = deal l -> handled (log l') = handled (log l) ->
  locked l' = false -> stuck l l'.
Proof. intros Hq Hd Hg Hl. split; [done|]. split; [done|]. exists []. by rewrite app_nil_r, Hd. Qed.

Lemma stuck_trans l1 l2 l3 : stuck l1 l2 -> stuck l2 l3 -> stuck l1 l3.
Proof.
  intros (H1 & H2 & k & H3 & H4) (H5 & H6 & k' & H7 & H8). split; [congruence|]. split; [done|]. exists (k ++ k').
  by rewrite H7, H3, <- app_assoc, map_app, <- app_assoc, H8.
Qed.

Lemma held_intro i s d m b : dispatchers s !! d = Some (DLimiting i m b) -> held i s = true.
Proof. intros Hd. destruct (held i s) eqn:E; [done|]. exfalso. by eapply (proj1 (held_false _ _) E). Qed.

Lemma stuck_worker i l s s' : lanes s !! i = Some l -> locked l = false -> held i s = true ->
  OpHandlerThread i s = Some s' -> exists l', lanes s' !! i = Some l' /\ stuck l l'.
Proof.
  intros Hl Hk Hh Hs. unfold OpHandlerThread in Hs. rewrite Hl in Hs. cbn [mbind option_bind] in Hs.
  assert (Hi : (i < length (lanes s))%nat) by by eapply lookup_lt_Some.
  destruct (worker l) eqn:Ew; try done; unfold locked in Hk; rewrite ?Ew in Hk; try done.
  - by rewrite Hh in Hs.
  - rewrite Hh, andb_false_r in Hs. done.
  - destruct (ClientOpQueue.Empty (deal l)).
    { injection Hs as <-. eexists. split; [by apply list_lookup_insert_eq|]. by apply stuck_same. }
    apply bind_Some in Hs as ([[[m ts] p] rest] & Hp & Hs).
    assert (forall r cf, stuck l {| queue := queue l; deal := rest; worker := Dealing; finishThread := finishThread l;
              copyupFlag := cf; log := log l ++ [Handled (m, ts, p) r] |}) as Hn.
    { intros r cf. split; [done|]. split; [done|]. exists [(m, ts, p)]. cbn. rewrite handled_app. split; [done|].
      unfold pop_deal in Hp. destruct (ClientOpQueue.reqQueue (deal l)), (ClientOpQueue.tsQueue (deal l)),
        (ClientOpQueue.period (deal l)); by simplify_eq/=. }
    destruct (ProcessOpReq _ _ _); [destruct (copyupFlag l); [done|]|..]; injection Hs as <-; cbn;
      (eexists; split; [by apply list_lookup_insert_eq|apply Hn]).
Qed.

(** Dispatcher [d] still limits, and queue [i] is at most drained by its worker. *)
Definition held_on (d i : nat) (m : MOSDOp) (b : bool) (l : lane) (s' : t) : Prop :=
  dispatchers s' !! d = Some (DLimiting i m b) /\ exists l', lanes s' !! i = Some l' /\ stuck l l'.

Lemma held_set_lane d i m b l s j k k' : dispatchers s !! d = Some (DLimiting i m b) -> lanes s !! i = Some l ->
  locked l = false -> lanes s !! j = Some k -> (i = j -> stuck k k') -> held_on d i m b l (set_lane j k' s).
Proof.
  intros Hd Hl Hk Hj Hs. split; [done|]. destruct (decide (i = j)) as [<-|Hne]; cbn.
  - simplify_eq. eexists. split; [apply list_lookup_insert_eq; by eapply lookup_lt_Some|by apply Hs].
  - rewrite list_lookup_insert_ne by done. eexists. split; [done|by apply stuck_same].
Qed.

Lemma held_push d i m b l s d' j m' ts p s' : dispatchers s !! d = Some (DLimiting i m b) -> lanes s !! i = Some l ->
  locked l = false -> d <> d' -> push d' j m' ts p s = Some s' -> held_on d i m b l s'.
Proof.
  intros Hd Hl Hk Hne Hs. unfold push in Hs. apply bind_Some in Hs as (k & Hj & Hs).
  destruct (locked k || held j s) eqn:E; [done|]. apply orb_false_iff in E as [_ E]. injection Hs as <-.
  assert (i <> j) by (intros <-; by rewrite (held_intro _ _ _ _ _ Hd) in E). split; cbn.
  - destruct (limits (qos s) m'); [|done]. by rewrite list_lookup_insert_ne.
  - rewrite list_lookup_insert_ne by done. eexists. split; [done|by apply stuck_same].
Qed.

Lemma held_set_dispatcher d i m b l s d' x q : dispatchers s !! d = Some (DLimiting i m b) -> lanes s !! i = Some l ->
  locked l = false -> d <> d' -> held_on d i m b l (set_qos q (set_dispatcher d' x s)).
Proof.
  intros Hd Hl Hk Hne. split; cbn; [by rewrite list_lookup_insert_ne|]. eexists. split; [done|by apply stuck_same].
Qed.

Lemma held_worker d i m b l s j s' : dispatchers s !! d = Some (DLimiting i m b) -> lanes s !! i = Some l ->
  locked l = false -> OpHandlerThread j s = Some s' -> held_on d i m b l s'.
Proof.
  intros Hd Hl Hk Hs. destruct (decide (i = j)) as [<-|Hne].
  - split; [|by eapply stuck_worker; [..|by eapply held_intro|]].
    unfold OpHandlerThread in Hs. rewrite Hl in Hs. cbn [mbind option_bind] in Hs.
    destruct (worker l) eqn:Ew; try done; unfold locked in Hk; rewrite ?Ew in Hk; try done; repeat case_match; try done;
      (by simplify_eq/=) || (apply bind_Some in Hs as ([[[? ?] ?] ?] & _ & Hs); repeat case_match; by simplify_eq/=).
  - assert (exists k k', lanes s !! j = Some k /\ lanes s' = <[j := k']> (lanes s) /\
              (dispatchers s' = dispatchers s \/ dispatchers s' = map (wake_dispatcher j) (dispatchers s))) as (k & k' & Hj & El & Ed).
    { unfold OpHandlerThread in Hs. apply bind_Some in Hs as (k & Hj & Hs). exists k.
      destruct (worker k); try done.
      - destruct (held j s); [done|]. injection Hs as <-. by eauto.
      - injection Hs as <-. by eauto.
      - destruct (ClientOpQueue.Empty (queue k)); injection Hs as <-; by eauto.
      - destruct (_ && _); [|done]. injection Hs as <-. by eauto.
      - destruct (ClientOpQueue.Empty (deal k)); [injection Hs as <-; by eauto|].
        apply bind_Some in Hs as ([[[? ?] ?] ?] & _ & Hs).
        destruct (ProcessOpReq _ _ _); [destruct (copyupFlag k); [done|]|..]; injection Hs as <-; by eauto. }
    split; [|rewrite El, list_lookup_insert_ne by done; eexists; split; [done|by apply stuck_same]].
    destruct Ed as [->| ->]; [done|]. by rewrite list_lookup_fmap, Hd.
Qed.

Lemma held_step d i m b l a s s' : exclusive s -> dispatchers s !! d = Some (DLimiting i m b) -> lanes s !! i = Some l ->
  limit_of a <> Some d -> step a s = Some s' -> held_on d i m b l s'.
Proof.
  intros He Hd Hl Ha Hs. pose proof (proj1 He _ _ _ _ _ Hl Hd) as Hk. unfold step in Hs. destruct (crashed s); [done|].
  destruct a as [d' m' ts p|sp d' p|d' c rate ans|d' c quota|j|j|]; cbn in Ha.
  - apply bind_Some in Hs as (x & Hx & Hs). destruct x; [|done..]. apply bind_Some in Hs as (k & Hj & Hs).
    assert (d <> d') by congruence. destruct (_ || _); [done|]. destruct (_ <? _); [|by eapply held_push].
    injection Hs as <-. by apply (held_set_dispatcher d i m b l s d' _ (qos s)).
  - apply bind_Some in Hs as (x & Hx & Hs). destruct x; [done| |done]. assert (d <> d') by congruence.
    destruct (_ || _); [|done]. refine (held_push d i m b l _ d' _ _ _ _ s' _ _ Hk _ Hs); [|done..].
    cbn. by rewrite list_lookup_insert_ne.
  - apply bind_Some in Hs as (x & Hx & Hs). destruct x as [| |i' m' [|]]; try done. case_match; try done.
    injection Hs as <-. apply held_set_dispatcher; [done..|]. congruence.
  - apply bind_Some in Hs as (x & Hx & Hs). destruct x as [| |i' m' [|]]; try done. case_match; try done.
    injection Hs as <-. apply held_set_dispatcher; [done..|]. congruence.
  - by eapply held_worker.
  - unfold copyup_done in Hs. apply bind_Some in Hs as (k & Hj & Hs). destruct (copyupFlag k); [|done].
    injection Hs as <-. eapply held_set_lane; [done..|]. intros <-. simplify_eq. apply stuck_same; try done.
    cbn. by rewrite handled_app, app_nil_r.
  - unfold StopThread in Hs.
    destruct (default _ (stopper s)) as [j|j|j|j]; destruct (lanes s !! j) as [k|] eqn:Hj; try done; cbn in Hs.
    + destruct (_ || _); [done|]. injection Hs as <-. split; [done|]. eexists. split; [done|by apply stuck_same].
    + injection Hs as <-. split; [done|]. eexists. split; [done|by apply stuck_same].
    + injection Hs as <-. refine (held_set_lane d i m b l s j k _ Hd Hl Hk Hj _). intros <-. simplify_eq. by apply stuck_same.
    + injection Hs as <-. refine (held_set_lane d i m b l s j k _ Hd Hl Hk Hj _). intros <-. simplify_eq.
      unfold wake. destruct (worker l) eqn:Ew; by apply stuck_same.
    + injection Hs as <-. split; [done|]. eexists. split; [done|by apply stuck_same].
    + destruct (worker k); try done. injection Hs as <-. split; [done|]. eexists. split; [done|by apply stuck_same].
Qed.

(** ** Theorems *)

(** C1: messages of one object reach the cache engine in the order they were
    enqueued.  In every reachable state a worker has handled, in order, a prefix
    of what was enqueued for its queue, each message with its own two time
    stamps; the rest is in [dealQueue] and [reqQueue]; and the three parallel
    queues never get out of step, so a worker with a message to handle can pop
    its time stamps. *)
Theorem op_order (nd : nat) (q : Qos.t) (tr : list label) (s : t)
  (Hr : run tr (CreateWorkThread nd q) = Some s) (i : nat) (l : lane) (Hl : lanes s !! i = Some l) :
  (exists dd qd, ClientOpQueue.holds (deal l) dd /\ ClientOpQueue.holds (queue l) qd /\
     forall name, index_of name = i ->
       filter (fun e => get_oid e.1.1 = name) (submitted s) =
       filter (fun e => get_oid e.1.1 = name) (handled (log l)) ++
       filter (fun e => get_oid e.1.1 = name) (dd ++ qd)) /\
  (ClientOpQueue.Empty (deal l) = false -> is_Some (pop_deal (deal l))).
Proof.
  destruct (proj1 (lanes_inv_run _ _ _ (lanes_inv_init nd q) Hr) _ _ Hl) as (dd & qd & H1 & H2 & H3 & _).
  split.
  - exists dd, qd. do 2 (split; [done|]). intros name Hn.
    rewrite <- filter_app, <- H3. rewrite list_filter_filter_l; [done|].
    intros e He. unfold routed. by rewrite He.
  - unfold ClientOpQueue.Empty, pop_deal. destruct H1 as (-> & -> & ->).
    destruct dd as [|[[m ts] p] dd]; [done|]. cbn. by eexists.
Qed.

(** C4: nothing overtakes a copyup: between a request with a copyup and the
    next request the worker hands to the engine, the engine has ended the
    copyup. *)
Theorem copyup_barrier (nd : nat) (q : Qos.t) (tr : list label) (s : t)
  (Hr : run tr (CreateWorkThread nd q) = Some s) (i : nat) (l : lane) (Hl : lanes s !! i = Some l)
  (before between after : list entry) (e e' : MOSDOp * Z * Z) (r r' : SaOpReq)
  (Hlog : log l = before ++ Handled e (Converted r) :: between ++ Handled e' (Converted r') :: after)
  (Hcopyup : exitsCopyUp r = 1) :
  CopyupDone ∈ between.
Proof.
  destruct (proj1 (lanes_inv_run _ _ _ (lanes_inv_init nd q) Hr) _ _ Hl) as (_ & _ & _ & _ & _ & _ & Hb).
  rewrite Hlog, barrier_app in Hb. apply bind_Some in Hb as (f & _ & Hb). cbn in Hb.
  destruct f; [done|]. rewrite Hcopyup in Hb. change (1 =? 1) with true in Hb.
  clear -Hb. induction between as [|[x [y|y| |]|] k IH]; cbn in Hb; try done;
    [right; by apply IH..|left].
Qed.

(** C5: a limited write stops its whole queue.  While a dispatcher is in
    [LimitWrite] it alone holds the mutex of the queue it has pushed to: whatever
    the other threads do, nothing is added to or taken from the queue (reads of
    other objects with the same hash included), and its worker only goes through
    the messages it had taken out before.  And as long as the engine grants the
    pool no bandwidth, the dispatcher does not get out of a window that is
    over -- the queue waits for an engine that may be waiting for the queue. *)
Theorem limit_holds_queue (nd : nat) (q : Qos.t) (tr tr' : list label) (s s' : t)
  (Hr : run tr (CreateWorkThread nd q) = Some s) (d i : nat) (m : MOSDOp) (b : bool) (l : lane)
  (Hd : dispatchers s !! d = Some (DLimiting i m b)) (Hl : lanes s !! i = Some l)
  (Hn : Forall (fun a => limit_of a <> Some d) tr') (Hr' : run tr' s = Some s') :
  held_on d i m b l s' /\
  (forall d' m' b', dispatchers s !! d' = Some (DLimiting i m' b') -> d' = d) /\
  (forall c quota, Qos.expired c (qos s) = true ->
     Forall (fun a => Qos.writeRatio a = 0) (quota (Z.land (get_pool m) UINT32_MAX)) -> step (LimitBw d c quota) s = None).
Proof.
  pose proof (exclusive_run _ _ _ (exclusive_init nd q) Hr) as He. split_and!.
  - clear Hr. revert s l He Hd Hl Hr'. induction Hn as [|a tr' Ha Hn IH]; intros s l He Hd Hl Hr'; cbn in Hr'.
    + injection Hr' as <-. split; [done|]. eexists. split; [done|]. apply stuck_same; try done. by eapply (proj1 He).
    + apply bind_Some in Hr' as (s1 & H1 & Hr'). destruct (held_step d i m b l a s s1) as (Hd1 & l1 & Hl1 & Hs1); [done..|].
      destruct (IH s1 l1) as (Hd2 & l2 & Hl2 & Hs2); [by eapply exclusive_step|done..|]. split; [done|].
      eexists. split; [done|by eapply stuck_trans].
  - intros d' m' b' Hd'. by eapply (proj2 He).
  - intros c quota Hx Hz. unfold step, LimitWriteBw, Qos.LimitWriteBw. destruct (crashed s); [done|]. rewrite Hd.
    cbn [mbind option_bind]. destruct b; [|done]. unfold Qos.expired in Hx. rewrite Hx.
    pose proof (Qos.bw_loop_zero _ (Qos.opened c) [] (qos s) Hz) as Hw. by destruct (Qos.bw_loop _ _ _ _).
Qed.

(** The queues are bounded although a full queue makes a dispatcher wait
    only once: as long as no dispatcher wakes up without being notified, a queue
    never holds more than [queueMaxCapacity + 1] messages plus one per
    dispatcher thread. *)
Theorem queue_bounded (nd : nat) (q : Qos.t) (tr : list label) (s : t)
  (Hcap : 0 <= queueMaxCapacity) (Hns : Forall no_spurious tr)
  (Hr : run tr (CreateWorkThread nd q) = Some s) (i : nat) (l : lane) (Hl : lanes s !! i = Some l) :
  ClientOpQueue.GetSize (queue l) <= queueMaxCapacity + 1 + Z.of_nat nd.
Proof.
  assert (inv (CreateWorkThread nd q) /\ cap_inv nd (CreateWorkThread nd q)) as [Hi Hc].
  { split; [apply lanes_inv_init|]. split; [cbn; by rewrite length_replicate|].
    intros j k Hk. cbn in Hk. apply lookup_replicate in Hk as [-> _].
    change (ClientOpQueue.GetSize (queue new_lane)) with 0. cbn [CreateWorkThread dispatchers].
    assert (count_if (ready j) (replicate nd DIdle) = 0) as ->; [|lia].
    clear. induction nd as [|n IH]; [done|]. cbn [replicate]. by rewrite count_if_cons, IH. }
  cut (cap_inv nd s).
  { intros Hcs. pose proof (cap_ready nd i s Hcs). destruct Hcs as [_ Hcs]. specialize (Hcs _ _ Hl). lia. }
  revert Hi Hc Hr. generalize (CreateWorkThread nd q). clear Hl.
  induction Hns as [|a tr Ha Hns IH]; intros s0 Hi Hc Hr; cbn in Hr; [by injection Hr as <-|].
  apply bind_Some in Hr as (s1 & H1 & Hr). eapply (IH s1); [| |done].
  - apply (lanes_inv_run [a] s0 s1 Hi). cbn. by rewrite H1.
  - by eapply cap_step.
Qed.
End queues.
End OpQueue.

Module OpQueueExamples.
Import NetworkModule NetworkModuleExamples OpQueue.

Definition hash (name : bytes) : Z := len name.

(** [write_qos] is off. *)
Definition unlimited : Qos.t :=
  Qos.init {| Qos.limitWrite := 0; Qos.getQuotaCycle := 200; Qos.enableThrottle := 0; Qos.q_saOpThrottle := 0 |} 0 0.
#[local] Abbreviation go n cap nd tr := (@run le_ints copied false hash n cap tr (CreateWorkThread n nd unlimited)).

Definition copyup : MOSDOp := message (bs "ab") [osd CEPH_OSD_OP_CALL (bs "rbdcopyup")].
Definition write : MOSDOp := message (bs "ab") [osd CEPH_OSD_OP_WRITE (bs "x")].
Definition other : MOSDOp := message (bs "c") [osd CEPH_OSD_OP_READ []].

(** Two workers; a copyup and a write on one object, a read on another. *)
Definition traffic : list label :=
  [Dispatch 0 copyup 1 11; Dispatch 1 other 2 12; Work 0; Work 0; Work 0; Work 0;
   Dispatch 0 write 3 13; Work 0; EndCopyup 0; Work 0; Work 0; Work 0; Work 0].

Lemma op_order_witness :
  let tr := [Dispatch 0 copyup 1 11; Dispatch 1 other 2 12; Dispatch 0 write 3 13; Work 0; Work 0; Work 0; Work 0] in
  exists s l, go 2 10 2 tr = Some s /\ lanes s !! 0%nat = Some l /\ log l <> [] /\
    (ClientOpQueue.Empty (deal l) = false -> is_Some (pop_deal (deal l))).
Proof.
  intros tr. eexists. eexists. split; [vm_compute; reflexivity|]. split; [reflexivity|]. split; [discriminate|].
  eapply (@op_order le_ints copied false hash 2 10 2 unlimited tr _ ltac:(vm_compute; reflexivity) 0%nat).
  reflexivity.
Defined.

Lemma copyup_barrier_witness :
  exists s l e e' r r', go 2 10 2 traffic = Some s /\ lanes s !! 0%nat = Some l /\
    exitsCopyUp r = 1 /\ log l = [Handled e (Converted r); CopyupDone; Handled e' (Converted r')] /\
    CopyupDone ∈ [CopyupDone].
Proof.
  do 6 eexists. split; [vm_compute; reflexivity|]. split; [reflexivity|]. split; [|split; [reflexivity|]].
  2:{ eapply (@copyup_barrier le_ints copied false hash 2 10 2 unlimited traffic _ ltac:(vm_compute; reflexivity) 0%nat _
        ltac:(reflexivity) [] [CopyupDone] []); reflexivity. }
  reflexivity.
Defined.

(** Capacity 0: the second dispatcher waits, and still makes it two. *)
Lemma queue_bounded_witness :
  let tr := [Dispatch 0 other 1 1; Dispatch 1 other 2 2; Work 1; Work 1; Work 1; Resume false 1 3; Dispatch 0 other 4 4] in
  exists s l, go 2 0 2 tr = Some s /\ lanes s !! 1%nat = Some l /\
    ClientOpQueue.GetSize (queue l) <= 0 + 1 + 2.
Proof.
  intros tr. do 2 eexists. split; [vm_compute; reflexivity|]. split; [reflexivity|].
  refine (@queue_bounded le_ints copied false hash 2 0 2 unlimited tr _ ltac:(lia) ltac:(repeat constructor)
    ltac:(vm_compute; reflexivity) 1%nat _ ltac:(reflexivity)).
Defined.

(** A write is limited by dispatcher 0; the read of the same queue waits. *)
Definition limited : Qos.t :=
  Qos.init {| Qos.limitWrite := 1; Qos.getQuotaCycle := 200; Qos.enableThrottle := 0; Qos.q_saOpThrottle := 0 |} 0 0.

Lemma limit_holds_queue_witness :
  let tr := [Dispatch 0 other 1 1; Work 0; Work 0; Work 0; Dispatch 0 write 2 2; LimitIops 0 (Qos.at_ms 300) 9 []] in
  let tr' := [Work 0; Work 0] in
  exists s s' l, @run le_ints copied false hash 1 10 tr (CreateWorkThread 1 2 limited) = Some s /\
    @run le_ints copied false hash 1 10 tr' s = Some s' /\ lanes s !! 0%nat = Some l /\
    held_on 0 0 write true l s' /\
    @step le_ints copied false hash 1 10 (Work 0) s' = None.
Proof.
  intros tr tr'. do 3 eexists. split; [vm_compute; reflexivity|]. split; [vm_compute; reflexivity|].
  split; [reflexivity|]. split; [|vm_compute; reflexivity].
  refine (proj1 (@limit_holds_queue le_ints copied false hash 1 10 2 limited tr tr' _ _ ltac:(vm_compute; reflexivity)
    0%nat 0%nat write true _ ltac:(reflexivity) ltac:(reflexivity) _ ltac:(vm_compute; reflexivity))).
  repeat constructor; discriminate.
Defined.

(** Stopping can hang, and drops queued messages.  [StopThread] releases
    the mutex before it sets [finishThread], so a worker between its test of the
    flag and its wait misses the notification: the worker waits, [join] waits
    for the worker, and no step of any thread is left.  And a worker that sees
    the flag returns with messages in its queue, which are never answered. *)
Theorem stop_loses_wakeup :
  (exists tr s, go 1 10 0 tr = Some s /\ stopper s = Some (StJoin 0) /\
     (forall l, lanes s !! 0%nat = Some l -> finishThread l = true /\ worker l = InWait false) /\
     forall a, @step le_ints copied false hash 1 10 a s = None) /\
  (exists tr s l, go 1 10 1 tr = Some s /\ stopper s = Some (StJoin 1) /\
     lanes s !! 0%nat = Some l /\ worker l = Finished /\ ClientOpQueue.reqQueue (queue l) = [other]).
Proof.
  split.
  - exists [Stop; Work 0; Work 0; Stop; Stop; Stop; Work 0; Stop]. eexists. split; [vm_compute; reflexivity|].
    split; [reflexivity|]. split; [by intros l [= <-]|].
    by intros [d m ts p|sp d p|d c r an|d c qu|[|i]|[|i]|].
  - exists [Stop; Stop; Dispatch 0 other 1 1; Work 0; Work 0; Stop; Stop; Stop; Stop].
    do 2 eexists. split; [vm_compute; reflexivity|]. by repeat split.
Qed.
End OpQueueExamples.
