(* ===== verification/ServerSystem.v ===== *)
(** * The server from the dispatch queues to the replies

    [OpQueue] hands a converted message to the cache engine in one step, and
    [NetworkModule] counts what is in flight.  Here both are put together: a worker
    takes a message from its [dealQueue], passes the Gets of the throttles one access
    at a time -- it adds first and then waits while the counter, which includes its own
    amount, is above the limit --, waits for a copyup and calls [DoOneOps]; the engine
    completes requests in any order.  [OpQueue]'s steps that do not take a message are
    used as they are. *)

From S2P Require Import Prelude CStr Encoding MsgModule Throttle NetworkModule Qos OpQueue.
Import SaDef.

Module ServerSystem.
Import NetworkModule.

(** ** The counters by name *)

Inductive kind := Lwt | WriteLwt | ReadLwt | WriteIops | WriteBW | ReadBW.
#[export] Instance kind_eq_dec : EqDecision kind.
Proof. solve_decision. Defined.

Definition counter (k : kind) (c : counters) : Z :=
  match k with
  | Lwt => lwtCount c | WriteLwt => lwtWriteCount c | ReadLwt => lwtReadCount c
  | WriteIops => writeIops c | WriteBW => writeBW c | ReadBW => readBW c
  end.

Definition set_counter (k : kind) (v : Z) (c : counters) : counters :=
  let f k' := if decide (k = k') then v else counter k' c in
  {| lwtCount := f Lwt; lwtWriteCount := f WriteLwt; lwtReadCount := f ReadLwt;
     writeIops := f WriteIops; writeBW := f WriteBW; readBW := f ReadBW |}.

Definition limit (th : throttles) (k : kind) : Z :=
  match k with
  | Lwt => saOpThrottle th | WriteLwt => writeOpThrottle th | ReadLwt => readOpThrottle th
  | WriteIops => writeIopsThrottle th | WriteBW => writeBWThrottle th | ReadBW => readBWThrottle th
  end.

(** Does a Get return at once? *)
Definition enabled (th : throttles) (k : kind) : bool :=
  on (limit th k) && match k with WriteIops => on (isGc th) | _ => true end.

Definition amount (k : kind) (p : pending) : Z := match k with WriteBW | ReadBW => p_len p | _ => 1 end.

(** The Gets for a request, in order. *)
Definition gets (p : pending) : list kind :=
  [Lwt] ++ (if p_type p =? GCACHE_WRITE then [WriteLwt; WriteIops; WriteBW] else []) ++
  (if p_type p =? GCACHE_READ then [ReadLwt; ReadBW] else []).

Definition applies (k : kind) (p : pending) : bool :=
  match k with
  | Lwt => true
  | WriteLwt | WriteIops | WriteBW => p_type p =? GCACHE_WRITE
  | ReadLwt | ReadBW => p_type p =? GCACHE_READ
  end.

Lemma gets_spec k p : k ∈ gets p <-> applies k p = true.
Proof. unfold gets. destruct k; cbn [applies]; do 2 destruct (_ =? _); cbn; set_solver. Qed.

Lemma gets_NoDup p : NoDup (gets p).
Proof. apply (bool_decide_unpack _). unfold gets. do 2 destruct (_ =? _); vm_compute; exact I. Qed.

(** The test of the loop in a Get; only [GetlwtCas] has no way out for a throttle
    that was turned off. *)
Definition passes (th : throttles) (k : kind) (old : Z) : bool :=
  (old <=? limit th k) || match k with Lwt => false | _ => negb (on (limit th k)) end.

(** ** The state *)

(** Where the worker of a lane is with the message it has taken: the Gets still to
    do; in the loop of one, with the count it read last. *)
Inductive gate := Free | Adding (p : pending) (ks : list kind) | Waiting (p : pending) (k : kind) (ks : list kind) (old : Z).

(** [answered] is history: the messages that got a reply, in the order of the replies. *)
Record t := {
  q : OpQueue.t; gates : list gate; net : state; inflight : list pending; answered : list MOSDOp
}.

Definition set_q (x : OpQueue.t) (s : t) : t :=
  {| q := x; gates := gates s; net := net s; inflight := inflight s; answered := answered s |}.
Definition set_gate (i : nat) (g : gate) (s : t) : t :=
  {| q := q s; gates := <[i := g]> (gates s); net := net s; inflight := inflight s; answered := answered s |}.
Definition set_count (k : kind) (v : Z) (s : t) : t :=
  {| q := q s; gates := gates s; net := {| cnt := set_counter k v (cnt (net s)); replies := replies (net s) |};
     inflight := inflight s; answered := answered s |}.
Definition set_net (x : state) (m : MOSDOp) (s : t) : t :=
  {| q := q s; gates := gates s; net := x; inflight := inflight s; answered := answered s ++ [m] |}.
Definition set_inflight (l : list pending) (s : t) : t :=
  {| q := q s; gates := gates s; net := net s; inflight := l; answered := answered s |}.

Definition pend_of (m : MOSDOp) (r : SaOpReq) : pending :=
  {| p_op := m; p_type := optionType r; p_len := optionLength r |}.

(** The message with the data that the encoders have put into its operations. *)
Definition with_out (out : nat -> bytes) (m : MOSDOp) : MOSDOp :=
  {| mosdop_ptr := mosdop_ptr m; get_tid := get_tid m; get_snapid := get_snapid m; get_pool := get_pool m;
     get_seq := get_seq m; m_seed := m_seed m; get_snap_seq := get_snap_seq m; get_snaps := get_snaps m;
     get_oid := get_oid m;
     ops := imap (fun n o => {| osd_op := osd_op o; indata := indata o; outdata := out n; rval := rval o |}) (ops m) |}.

(** The message at the front of [dealQueue] of a worker that deals. *)
Definition front (i : nat) (x : OpQueue.t) : option MOSDOp :=
  l ← OpQueue.lanes x !! i;
  match OpQueue.worker l with
  | OpQueue.Dealing => '(m, _, _, _) ← OpQueue.pop_deal (OpQueue.deal l); Some m
  | _ => None
  end.

Section system.
Context `{CephInts} (partial_copy : Z -> bytes -> bytes) (readStatFlag : bool).
Context (hash : bytes -> Z) (queueNum queueMaxCapacity : Z).

#[local] Abbreviation convert := (ProcessOpReq partial_copy readStatFlag).
#[local] Abbreviation qstep := (OpQueue.step partial_copy readStatFlag hash queueNum queueMaxCapacity).

(** A step of the queues; of a worker: one that does not take a message; what the
    worker does with its next message; one access of a Get; [DoOneOps]; the engine
    completes the [j]-th request with its data and result.  [th] are the throttles as
    they are read in that step. *)
Inductive label :=
| Queue (a : OpQueue.label)
| Take (i : nat) (th : throttles)
| Gate (i : nat) (th : throttles)
| Submit (i : nat)
| Complete (j : nat) (out : nat -> bytes) (r : Z) (th : throttles).

Definition takes (a : OpQueue.label) (x : OpQueue.t) : bool :=
  match a with OpQueue.Work i => match front i x with Some _ => true | None => false end | _ => false end.

(** [ProcessOpReq] of the next message; a request goes on to the Gets. *)
Definition take_step (i : nat) (th : throttles) (s : t) : option t :=
  m ← front i (q s);
  g ← gates s !! i;
  match g with
  | Free =>
      match convert m with
      | Converted r => Some (set_gate i (Adding (pend_of m r) (gets (pend_of m r))) s)
      | Refused e => x ← qstep (OpQueue.Work i) (q s);
                     Some (set_q x (set_net (FinishCacheOps th (Some m) GCACHE_DEFAULT 0 e (net s)) m s))
      | _ => x ← qstep (OpQueue.Work i) (q s); Some (set_q x s)
      end
  | _ => None
  end.

(** One access of the Get a worker is in. *)
Definition gate_step (i : nat) (th : throttles) (s : t) : option t :=
  g ← gates s !! i;
  match g with
  | Adding p (k :: ks) =>
      let old := counter k (cnt (net s)) in
      if enabled th k then Some (set_gate i (Waiting p k ks old) (set_count k (u64 (old + amount k p)) s))
      else Some (set_gate i (Adding p ks) s)
  | Waiting p k ks old =>
      if passes th k old then Some (set_gate i (Adding p ks) s)
      else Some (set_gate i (Waiting p k ks (counter k (cnt (net s)))) s)
  | _ => None
  end.

(** [DoOneOps], past the loop on [copyupFlag]. *)
Definition submit_step (i : nat) (s : t) : option t :=
  g ← gates s !! i;
  match g with
  | Adding p [] => x ← qstep (OpQueue.Work i) (q s); Some (set_inflight (inflight s ++ [p]) (set_gate i Free (set_q x s)))
  | _ => None
  end.

Definition complete_step (j : nat) (out : nat -> bytes) (r : Z) (th : throttles) (s : t) : option t :=
  p ← inflight s !! j;
  Some (set_inflight (delete j (inflight s))
         (set_net (FinishCacheOps th (Some (with_out out (p_op p))) (p_type p) (p_len p) r (net s)) (p_op p) s)).

Definition step (a : label) (s : t) : option t :=
  if OpQueue.crashed (q s) then None else
  match a with
  | Queue a => if takes a (q s) then None else x ← qstep a (q s); Some (set_q x s)
  | Take i th => take_step i th s
  | Gate i th => gate_step i th s
  | Submit i => submit_step i s
  | Complete j out r th => complete_step j out r th s
  end.

Fixpoint run (tr : list label) (s : t) : option t :=
  match tr with
  | [] => Some s
  | a :: tr' => s' ← step a s; run tr' s'
  end.

(** [nd] dispatcher threads, the limits [qos]. *)
Definition init (nd : nat) (qos : Qos.t) : t :=
  {| q := OpQueue.CreateWorkThread queueNum nd qos; gates := replicate (Z.to_nat queueNum) Free;
     net := {| cnt := counters0; replies := [] |}; inflight := []; answered := [] |}.

(** ** What a step of the queues does to the lanes *)

(** The entries of a log that lead to a reply, and those that do not. *)
Definition to_answer (l : list OpQueue.entry) : list MOSDOp :=
  omap (fun e => match e with OpQueue.Handled x (Converted _ | Refused _) => Some x.1.1 | _ => None end) l.
Definition to_drop (l : list OpQueue.entry) : list MOSDOp :=
  omap (fun e => match e with OpQueue.Handled x (Overflow | Threw) => Some x.1.1 | _ => None end) l.

Definition dealing (l : OpQueue.lane) : Prop :=
  OpQueue.worker l = OpQueue.Dealing /\ ClientOpQueue.Empty (OpQueue.deal l) = false.

(** A lane between two steps of which neither takes a message from it. *)
Definition kept (l l' : OpQueue.lane) : Prop :=
  to_answer (OpQueue.log l') = to_answer (OpQueue.log l) /\ to_drop (OpQueue.log l') = to_drop (OpQueue.log l) /\
  (dealing l -> OpQueue.deal l' = OpQueue.deal l /\ OpQueue.worker l' = OpQueue.Dealing).

Definition lanes_kept (x x' : OpQueue.t) : Prop :=
  length (OpQueue.lanes x') = length (OpQueue.lanes x) /\
  forall i l', OpQueue.lanes x' !! i = Some l' -> exists l, OpQueue.lanes x !! i = Some l /\ kept l l'.

Lemma kept_refl l : kept l l.
Proof. split_and!; [done..|by intros [? ?]]. Qed.

Lemma lanes_kept_refl x x' : OpQueue.lanes x' = OpQueue.lanes x -> lanes_kept x x'.
Proof. intros E. split; [by rewrite E|]. intros i l' Hl. rewrite E in Hl. exists l'. split; [done|apply kept_refl]. Qed.

Lemma lanes_kept_insert x x' i l l' : OpQueue.lanes x' = <[i := l']> (OpQueue.lanes x) -> OpQueue.lanes x !! i = Some l ->
  kept l l' -> lanes_kept x x'.
Proof.
  intros E Hl Hk. split; [by rewrite E, length_insert|]. intros j k Hj. rewrite E in Hj.
  apply list_lookup_insert_Some in Hj as [(<- & <- & _)|[_ Hj]]; [by exists l|]. exists k. split; [done|apply kept_refl].
Qed.

Lemma kept_wake l : kept l (OpQueue.wake l).
Proof.
  unfold OpQueue.wake. destruct (OpQueue.worker l) eqn:E; try apply kept_refl. split_and!; [done..|].
  intros [Hw _]. by rewrite E in Hw.
Qed.

Lemma front_dealing i x l m : OpQueue.lanes x !! i = Some l -> front i x = Some m -> dealing l.
Proof.
  unfold front, dealing. intros ->. cbn. destruct (OpQueue.worker l); try done. intros ([[[m' ?] ?] ?] & Hp & _)%bind_Some.
  split; [done|]. unfold OpQueue.pop_deal in Hp. unfold ClientOpQueue.Empty. by destruct (ClientOpQueue.reqQueue _).
Qed.

Lemma kept_trans l1 l2 l3 : kept l1 l2 -> kept l2 l3 -> kept l1 l3.
Proof.
  intros (E1 & E2 & E3) (F1 & F2 & F3). split_and!; [congruence..|].
  intros [Hw He]; destruct (E3 (conj Hw He)) as [Hd Hw']; destruct F3 as [Hd' Hw'']; [split; [done|by rewrite Hd]|split; congruence].
Qed.

(** Changes that leave log, [dealQueue] and program counter alone. *)
Lemma kept_same l l' : OpQueue.log l' = OpQueue.log l -> OpQueue.deal l' = OpQueue.deal l ->
  OpQueue.worker l' = OpQueue.worker l -> kept l l'.
Proof. intros E1 E2 E3. unfold kept, dealing. rewrite E1, E2, E3. split_and!; [done..|tauto]. Qed.

Lemma kept_pc l p : ~ dealing l -> kept l (OpQueue.at_pc p l).
Proof. intros Hn. by split_and!. Qed.

Lemma kept_push d i m ts p x x' : OpQueue.push d i m ts p x = Some x' -> lanes_kept x x'.
Proof.
  intros (l & Hl & Hs)%bind_Some. destruct (_ || _); [done|]. injection Hs as <-.
  eapply lanes_kept_insert; [done..|]. eapply kept_trans; [|apply kept_wake]. by apply kept_same.
Qed.

Lemma kept_OpHandlerThread i x x' : front i x = None ->
  OpQueue.OpHandlerThread partial_copy readStatFlag i x = Some x' -> lanes_kept x x'.
Proof.
  intros Hf (l & Hl & Hs)%bind_Some. unfold front in Hf. rewrite Hl in Hf. cbn in Hf.
  assert (forall p, OpQueue.worker l <> OpQueue.Dealing \/ ClientOpQueue.Empty (OpQueue.deal l) = true ->
    lanes_kept x (OpQueue.set_lane i (OpQueue.at_pc p l) x)) as Hpc.
  { intros p Hn. eapply lanes_kept_insert; [done..|]. apply kept_pc. intros [? E]. rewrite E in Hn. by destruct Hn. }
  destruct (OpQueue.worker l) eqn:Ew; try done.
  - destruct (OpQueue.held i x); [done|]. injection Hs as <-. apply Hpc. by left.
  - injection Hs as <-. apply Hpc. by left.
  - destruct (ClientOpQueue.Empty (OpQueue.queue l)); injection Hs as <-; [apply Hpc; by left|].
    eapply lanes_kept_insert; [done..|]. split_and!; [done..|]. intros [? _]; congruence.
  - destruct (_ && _); [|done]. injection Hs as <-. apply Hpc. by left.
  - destruct (ClientOpQueue.Empty (OpQueue.deal l)) eqn:Ee; [injection Hs as <-; apply Hpc; by right|].
    apply bind_Some in Hs as ([[[m ts] p] rest] & Hp & _). by rewrite Hp in Hf.
Qed.

Lemma kept_step a x x' : takes a x = false -> qstep a x = Some x' -> lanes_kept x x'.
Proof.
  unfold OpQueue.step. destruct (OpQueue.crashed x); [done|]. intros Ht Hs.
  destruct a as [d m ts p|sp d p|d c rate ans|d c quota|i|i|].
  - apply bind_Some in Hs as (y & _ & Hs). destruct y; [|done..]. apply bind_Some in Hs as (l & Hl & Hs).
    destruct (_ || _); [done|]. destruct (_ <? _); [injection Hs as <-; by apply lanes_kept_refl|by eapply kept_push].
  - apply bind_Some in Hs as (y & _ & Hs). destruct y; [done| |done]. destruct (_ || _); [|done]. by apply kept_push in Hs.
  - apply bind_Some in Hs as (y & _ & Hs). destruct y as [| |i m [|]]; try done. case_match; try done.
    injection Hs as <-. by apply lanes_kept_refl.
  - apply bind_Some in Hs as (y & _ & Hs). destruct y as [| |i m [|]]; try done. case_match; try done.
    injection Hs as <-. by apply lanes_kept_refl.
  - cbn in Ht. eapply kept_OpHandlerThread; [|exact Hs]. by destruct (front i x).
  - apply bind_Some in Hs as (l & Hl & Hs). destruct (OpQueue.copyupFlag l); [|done]. injection Hs as <-.
    eapply lanes_kept_insert; [done..|]. unfold kept, to_answer, to_drop. cbn. rewrite !omap_app, !app_nil_r.
    split_and!; [done..|by intros [? _]].
  - unfold OpQueue.StopThread in Hs.
    destruct (default _ (OpQueue.stopper x)) as [i|i|i|i]; destruct (OpQueue.lanes x !! i) as [l|] eqn:Hl; try done; cbn in Hs.
    + destruct (_ || _); [done|]. injection Hs as <-. by apply lanes_kept_refl.
    + injection Hs as <-. by apply lanes_kept_refl.
    + injection Hs as <-. eapply lanes_kept_insert; [done..|]. by apply kept_same.
    + injection Hs as <-. eapply lanes_kept_insert; [done..|]. apply kept_wake.
    + injection Hs as <-. by apply lanes_kept_refl.
    + destruct (OpQueue.worker l); try done. injection Hs as <-. by apply lanes_kept_refl.
Qed.

(** Handling the message at the front. *)
Lemma handle_step i x x' m : front i x = Some m -> qstep (OpQueue.Work i) x = Some x' ->
  exists l l' e cf, OpQueue.lanes x !! i = Some l /\ OpQueue.lanes x' = <[i := l']> (OpQueue.lanes x) /\ e.1.1 = m /\
    l' = {| OpQueue.queue := OpQueue.queue l; OpQueue.deal := OpQueue.deal l'; OpQueue.worker := OpQueue.Dealing;
            OpQueue.finishThread := OpQueue.finishThread l; OpQueue.copyupFlag := cf;
            OpQueue.log := OpQueue.log l ++ [OpQueue.Handled e (convert m)] |} /\
    OpQueue.pop_deal (OpQueue.deal l) = Some (e.1.1, e.1.2, e.2, OpQueue.deal l') /\
    OpQueue.submitted x' = OpQueue.submitted x /\ OpQueue.dispatchers x' = OpQueue.dispatchers x /\
    OpQueue.stopper x' = OpQueue.stopper x /\ OpQueue.crashed x' = match convert m with Threw => true | _ => OpQueue.crashed x end.
Proof.
  intros Hf Hs. unfold OpQueue.step in Hs. destruct (OpQueue.crashed x) eqn:Ec; [done|].
  apply bind_Some in Hs as (l & Hl & Hs). pose proof (front_dealing _ _ _ _ Hl Hf) as [Hw He]. rewrite Hw, He in Hs.
  unfold front in Hf. rewrite Hl in Hf. cbn in Hf. rewrite Hw in Hf. apply bind_Some in Hf as ([[[m' ts] p] rest] & Hp & [= ->]).
  rewrite Hp in Hs. cbn in Hs. destruct (convert m) as [r|ret| |] eqn:E; [destruct (OpQueue.copyupFlag l); [done|]|..]; injection Hs as <-;
    eexists l, _, (m, ts, p), _; cbn; repeat (split; [done|]); done.
Qed.

(** ** Where the messages are *)

Definition answered_logs (x : OpQueue.t) : list MOSDOp := flat_map (fun l => to_answer (OpQueue.log l)) (OpQueue.lanes x).
Definition dropped (x : OpQueue.t) : list MOSDOp := flat_map (fun l => to_drop (OpQueue.log l)) (OpQueue.lanes x).
Definition todo (l : OpQueue.lane) : list MOSDOp :=
  ClientOpQueue.reqQueue (OpQueue.deal l) ++ ClientOpQueue.reqQueue (OpQueue.queue l).
Definition unhandled (x : OpQueue.t) : list MOSDOp := flat_map todo (OpQueue.lanes x).
Definition messages (x : OpQueue.t) : list MOSDOp := map (fun e => e.1.1) (OpQueue.submitted x).

Lemma log_parts l : map (fun e => e.1.1) (OpQueue.handled l) ≡ₚ to_answer l ++ to_drop l.
Proof.
  induction l as [|[e [r|r| |]|] l IH]; cbn; [done|..|done]; rewrite IH; [done|done|..]; by rewrite Permutation_middle.
Qed.

Lemma messages_parts x : 0 < queueNum -> length (OpQueue.lanes x) = Z.to_nat queueNum -> OpQueue.inv hash queueNum x ->
  messages x ≡ₚ answered_logs x ++ dropped x ++ unhandled x.
Proof.
  intros Hn Hlen [Hi _]. unfold messages, answered_logs, dropped, unhandled. rewrite <- !flat_map_parts.
  rewrite (flat_map_classes (fun e => OpQueue.index_of hash queueNum (get_oid e.1.1)) (OpQueue.submitted x) (length (OpQueue.lanes x))).
  2:{ apply Forall_forall. intros e _. unfold OpQueue.index_of. rewrite Hlen.
      pose proof (Z.mod_pos_bound (hash (get_oid e.1.1)) queueNum Hn). lia. }
  rewrite <- (flat_map_lookup (fun l => _ ++ _ ++ _)).
  rewrite map_flat_map. apply flat_map_perm. intros i Hx%elem_of_seq.
  destruct (lookup_lt_is_Some_2 (OpQueue.lanes x) i ltac:(lia)) as [l Hl]. rewrite Hl.
  destruct (Hi _ _ Hl) as (dd & qd & (H1 & _) & (H2 & _) & H3 & _).
  unfold todo. rewrite H1, H2. unfold OpQueue.routed in H3.
  assert (forall P (d1 d2 : forall e, Decision (P e)) (l : list (MOSDOp * Z * Z)), @filter _ _ _ P d1 l = @filter _ _ _ P d2 l) as Hd.
  { intros P d1 d2. induction l0 as [|e l0 IH]; [done|]. rewrite !filter_cons, IH. by do 2 destruct (decide _). }
  match goal with |- map _ ?F ≡ₚ _ => assert (F = _) as -> by (etrans; [apply Hd|exact H3]) end. rewrite !map_app, log_parts. by rewrite <- app_assoc.
Qed.

(** ** What every reachable state satisfies *)

Definition is_req (p : pending) : Prop := exists r, convert (p_op p) = Converted r /\ p = pend_of (p_op p) r.

Definition gate_req (g : gate) : option (pending * list kind) :=
  match g with Free => None | Adding p ks | Waiting p _ ks _ => Some (p, ks) end.

Record wf (s : t) : Prop := {
  wf_queues : OpQueue.inv hash queueNum (q s);
  wf_lanes : length (OpQueue.lanes (q s)) = Z.to_nat queueNum;
  wf_len : length (gates s) = Z.to_nat queueNum;
  wf_gates i g p ks : gates s !! i = Some g -> gate_req g = Some (p, ks) ->
    front i (q s) = Some (p_op p) /\ is_req p /\ exists dn, gets p = dn ++ ks;
  wf_inflight : Forall is_req (inflight s);
  wf_dropped : Forall (fun m => convert m = Overflow \/ convert m = Threw) (dropped (q s));
  wf_answers : answered_logs (q s) ≡ₚ answered s ++ map p_op (inflight s);
  wf_replies : map rp_op (replies (net s)) = map mosdop_ptr (answered s)
}.

Lemma qstep_inv a x x' : OpQueue.inv hash queueNum x -> qstep a x = Some x' -> OpQueue.inv hash queueNum x'.
Proof.
  intros Hi Hs. eapply (OpQueue.lanes_inv_run partial_copy readStatFlag hash queueNum queueMaxCapacity [a]); [done|].
  cbn. by rewrite Hs.
Qed.

Lemma kept_front x x' i m : lanes_kept x x' -> front i x = Some m -> front i x' = Some m.
Proof.
  intros [Hn Hk] Hf. unfold front in *. destruct (OpQueue.lanes x !! i) as [l|] eqn:Hl; [|done].
  destruct (lookup_lt_is_Some_2 (OpQueue.lanes x') i ltac:(rewrite Hn; by eapply lookup_lt_Some)) as [l' Hl'].
  destruct (Hk _ _ Hl') as (l0 & Hl0 & _ & _ & Hd). rewrite Hl in Hl0. injection Hl0 as <-.
  assert (dealing l) as Hdl by (eapply front_dealing; [done|unfold front; by rewrite Hl]).
  destruct (Hd Hdl) as [E1 E2]. rewrite Hl'. cbn in *. rewrite E1, E2. by rewrite (proj1 Hdl) in Hf.
Qed.

Lemma kept_logs x x' : lanes_kept x x' -> answered_logs x' = answered_logs x /\ dropped x' = dropped x.
Proof. intros [Hn Hk]. split; apply flat_map_same; [done| |done|]; intros i l' Hl'; destruct (Hk _ _ Hl') as (l & Hl & H1 & H2 & _); by exists l. Qed.

Lemma wf_kept s x' : wf s -> lanes_kept (q s) x' -> OpQueue.inv hash queueNum x' -> wf (set_q x' s).
Proof.
  intros [W1 W2 W3 W4 W5 W8 W6 W7] Hk Hi. split; cbn; try done.
  - by rewrite (proj1 Hk).
  - intros i g p ks Hg Hr. destruct (W4 _ _ _ _ Hg Hr) as (Hf & ? & ?). split; [by eapply kept_front|done].
  - by rewrite (proj2 (kept_logs _ _ Hk)).
  - by rewrite (proj1 (kept_logs _ _ Hk)).
Qed.

(** The worker of lane [i] has handled [m]; it was past its Gets, or never got there. *)
Lemma wf_handle s i m x' l g : wf s -> front i (q s) = Some m -> qstep (OpQueue.Work i) (q s) = Some x' ->
  l ≡ₚ map p_op (inflight s) ++ answered s ++ match convert m with Converted _ | Refused _ => [m] | _ => [] end ->
  forall fl n an, g = Free -> Forall is_req fl -> l ≡ₚ an ++ map p_op fl -> map rp_op (replies n) = map mosdop_ptr an ->
  wf {| q := x'; gates := <[i := g]> (gates s); net := n; inflight := fl; answered := an |}.
Proof.
  intros [W1 W2 W3 W4 W5 W8 W6 W7] Hf Hs El fl n an -> Hfl Han Hr.
  destruct (handle_step _ _ _ _ Hf Hs) as (la & l' & e & cf & Hl & Hx & He & Hl' & Hp & Hsub & _).
  split; cbn; try done.
  - by eapply qstep_inv.
  - by rewrite Hx, length_insert.
  - by rewrite length_insert.
  - intros j g p ks Hg Hgr. apply list_lookup_insert_Some in Hg as [(<- & <- & _)|[Hne Hg]]; [done|].
    destruct (W4 _ _ _ _ Hg Hgr) as (Hfj & ? & ?). split; [|done]. unfold front in *. by rewrite Hx, list_lookup_insert_ne.
  - unfold dropped. rewrite Hx.
    erewrite flat_map_insert with (k := match convert m with Overflow | Threw => [m] | _ => [] end); [|done|].
    + apply Forall_app. split; [exact W8|]. destruct (convert m) eqn:Ec; try constructor; try done; rewrite Ec; tauto.
    + rewrite Hl'. cbn [OpQueue.log]. unfold to_drop. rewrite omap_app. cbn. rewrite He. by destruct (convert m).
  - rewrite <- Han, El. unfold answered_logs. rewrite Hx.
    erewrite flat_map_insert with (k := match convert m with Converted _ | Refused _ => [m] | _ => [] end); [|done|].
    + fold (answered_logs (q s)). rewrite W6. solve_Permutation.
    + rewrite Hl'. cbn [OpQueue.log]. unfold to_answer. rewrite omap_app. cbn. rewrite He. by destruct (convert m).
Qed.

Lemma wf_gate s i g : wf s ->
  (forall p ks, gate_req g = Some (p, ks) -> front i (q s) = Some (p_op p) /\ is_req p /\ exists dn, gets p = dn ++ ks) ->
  wf (set_gate i g s).
Proof.
  intros [W1 W2 W3 W4 W5 W8 W6 W7] Hg. split; cbn; try done; [by rewrite length_insert|].
  intros j g' p ks Hj Hr. apply list_lookup_insert_Some in Hj as [(<- & <- & _)|[_ Hj]]; [by apply Hg|by eapply W4].
Qed.

Lemma wf_set_count s k v : wf s -> wf (set_count k v s).
Proof. by intros []. Qed.

Lemma is_req_pend m r : convert m = Converted r -> is_req (pend_of m r).
Proof. intros E. by exists r. Qed.

Lemma FinishCacheOps_replies th m ty n r s :
  map rp_op (replies (FinishCacheOps th (Some m) ty n r s)) = map rp_op (replies s) ++ [mosdop_ptr m].
Proof. cbn. by rewrite map_app. Qed.

Lemma wf_take i th s s' : wf s -> take_step i th s = Some s' -> wf s'.
Proof.
  intros Hw Hs. unfold take_step in Hs. apply bind_Some in Hs as (m & Hf & Hs). apply bind_Some in Hs as (g & Hg & Hs).
  destruct g; [|done..].
  assert (forall x fl n an, x = q s' -> qstep (OpQueue.Work i) (q s) = Some x -> fl = inflight s ->
    an = answered s ++ match convert m with Converted _ | Refused _ => [m] | _ => [] end ->
    (forall r, convert m <> Converted r) -> map rp_op (replies n) = map mosdop_ptr an ->
    wf {| q := x; gates := gates s; net := n; inflight := fl; answered := an |}) as Hh.
  { intros x fl n an Hx Hq -> -> Hc Hn. rewrite <- (list_insert_id (gates s) i Free Hg).
    eapply wf_handle; [done|exact Hf|done| |done|apply Hw| |done].
    - reflexivity.
    - by rewrite (Permutation_app_comm _ (map p_op (inflight s))). }
  destruct (convert m) as [r|e| |] eqn:Ec.
  - injection Hs as <-. apply wf_gate; [done|]. intros p ks [= <- <-]. split; [done|]. split; [by apply is_req_pend|by exists []].
  - apply bind_Some in Hs as (x & Hx & [= <-]). apply Hh; try done. cbn. by rewrite !map_app, (wf_replies _ Hw).
  - apply bind_Some in Hs as (x & Hx & [= <-]). apply Hh; try done; [by rewrite app_nil_r|apply Hw].
  - apply bind_Some in Hs as (x & Hx & [= <-]). apply Hh; try done; [by rewrite app_nil_r|apply Hw].
Qed.

Lemma wf_gate_step i th s s' : wf s -> gate_step i th s = Some s' -> wf s'.
Proof.
  intros Hw Hs. unfold gate_step in Hs. apply bind_Some in Hs as (g & Hg & Hs). destruct g as [|p [|k ks]|p k ks old]; try done.
  - destruct (wf_gates _ Hw _ _ _ _ Hg eq_refl) as (Hf & Hp & dn & Hd).
    destruct (enabled th k); injection Hs as <-; (apply wf_gate; [try apply wf_set_count; done|]);
      intros p' ks' [= <- <-]; (split; [done|]); (split; [done|]); exists (dn ++ [k]); by rewrite <- app_assoc.
  - destruct (passes th k old); injection Hs as <-; (apply wf_gate; [done|]); intros p' ks' [= <- <-]; by eapply wf_gates.
Qed.

Lemma wf_submit i s s' : wf s -> submit_step i s = Some s' -> wf s'.
Proof.
  intros Hw Hs. unfold submit_step in Hs. apply bind_Some in Hs as (g & Hg & Hs). destruct g as [|p [|k ks]|p k ks old]; try done.
  apply bind_Some in Hs as (x & Hx & [= <-]). destruct (wf_gates _ Hw _ _ _ _ Hg eq_refl) as (Hf & Hp & _).
  destruct Hp as (r & Hr & Ep). unshelve eapply (wf_handle s i (p_op p) x _ Free Hw Hf Hx); [exact (map p_op (inflight s) ++ answered s ++ [p_op p])|..]; rewrite ?Hr; [done|done| | |by apply Hw].
  - apply Forall_app. split; [apply Hw|]. apply Forall_singleton. by exists r.
  - rewrite map_app. cbn. solve_Permutation.
Qed.

Lemma wf_complete j out r th s s' : wf s -> complete_step j out r th s = Some s' -> wf s'.
Proof.
  intros [W1 W2 W3 W4 W5 W8 W6 W7] Hs. unfold complete_step in Hs. apply bind_Some in Hs as (p & Hp & [= <-]).
  split; cbn; try done.
  - by apply Forall_delete.
  - rewrite W6, (delete_perm _ _ _ Hp) at 1. cbn. by rewrite <- app_assoc.
  - rewrite !map_app, W7. done.
Qed.

Lemma wf_step a s s' : wf s -> step a s = Some s' -> wf s'.
Proof.
  intros Hw Hs. unfold step in Hs. destruct (OpQueue.crashed (q s)); [done|]. destruct a as [a|i th|i th|i|j out r th].
  - destruct (takes a (q s)) eqn:E; [done|]. apply bind_Some in Hs as (x & Hx & [= <-]).
    apply wf_kept; [done|by eapply kept_step|]. eapply qstep_inv; [apply Hw|done].
  - by eapply wf_take.
  - by eapply wf_gate_step.
  - by eapply wf_submit.
  - by eapply wf_complete.
Qed.

Lemma wf_init nd qos : wf (init nd qos).
Proof.
  split; cbn; try done.
  - apply OpQueue.lanes_inv_init.
  - apply length_replicate.
  - apply length_replicate.
  - intros i g p ks [-> _]%lookup_replicate. done.
  - unfold dropped. cbn. by rewrite flat_map_replicate_nil.
  - unfold answered_logs. cbn. by rewrite flat_map_replicate_nil.
Qed.

Lemma wf_run tr s s' : wf s -> run tr s = Some s' -> wf s'.
Proof.
  revert s. induction tr as [|a tr IH]; intros s Hw Hr; cbn in Hr; [by injection Hr as <-|].
  apply bind_Some in Hr as (s1 & H1 & Hr). eapply IH; [by eapply wf_step|done].
Qed.

Lemma system_run_app tr1 tr2 s : run (tr1 ++ tr2) s = s' ← run tr1 s; run tr2 s'.
Proof. revert s. induction tr1 as [|a tr1 IH]; intros s; [done|]. cbn. destruct (step a s); [apply IH|done]. Qed.

(** A step of the system is a step of the queues, or leaves them alone. *)
Lemma step_refines a s s' : step a s = Some s' -> q s' = q s \/ exists b, qstep b (q s) = Some (q s').
Proof.
  unfold step. destruct (OpQueue.crashed (q s)); [done|]. destruct a as [a|i th|i th|i|j out r th]; intros Hs.
  - destruct (takes a (q s)); [done|]. apply bind_Some in Hs as (x & Hx & [= <-]). right. by exists a.
  - apply bind_Some in Hs as (m & _ & Hs). apply bind_Some in Hs as (g & _ & Hs). destruct g; [|done..].
    destruct (convert m); [injection Hs as <-; by left|..]; apply bind_Some in Hs as (x & Hx & [= <-]); right; by eexists.
  - apply bind_Some in Hs as (g & _ & Hs). destruct g as [|p [|k ks]|p k ks old]; try done; case_match; injection Hs as <-; by left.
  - apply bind_Some in Hs as (g & _ & Hs). destruct g as [|p [|k ks]|p k ks old]; try done.
    apply bind_Some in Hs as (x & Hx & [= <-]). right. by eexists.
  - apply bind_Some in Hs as (p & _ & [= <-]). by left.
Qed.

Lemma system_refines tr s s' : run tr s = Some s' ->
  exists tr', OpQueue.run partial_copy readStatFlag hash queueNum queueMaxCapacity tr' (q s) = Some (q s').
Proof.
  revert s. induction tr as [|a tr IH]; intros s Hr; cbn in Hr; [injection Hr as <-; by exists []|].
  apply bind_Some in Hr as (s1 & H1 & Hr). destruct (IH _ Hr) as [tr' Ht].
  destruct (step_refines _ _ _ H1) as [<-|[b Hb]]; [by exists tr'|]. exists (b :: tr'). cbn. by rewrite Hb.
Qed.

Lemma system_submitted_step a x x' : qstep a x = Some x' -> exists k, OpQueue.submitted x' = OpQueue.submitted x ++ k.
Proof.
  unfold OpQueue.step. destruct (OpQueue.crashed x); [done|].
  assert (forall d i m ts p y, OpQueue.push d i m ts p y = Some x' -> exists k, OpQueue.submitted x' = OpQueue.submitted y ++ k) as Hpush.
  { intros d i m ts p y (l & _ & Hs)%bind_Some. destruct (_ || _); [done|]. injection Hs as <-. by eexists. }
  assert (OpQueue.submitted x' = OpQueue.submitted x -> exists k, OpQueue.submitted x' = OpQueue.submitted x ++ k) as Hsame.
  { intros ->. exists []. by rewrite app_nil_r. }
  intros Hs. destruct a as [d m ts p|sp d p|d c rate ans|d c quota|i|i|].
  - apply bind_Some in Hs as (y & _ & Hs). destruct y; [|done..]. apply bind_Some in Hs as (l & _ & Hs).
    destruct (_ || _); [done|]. destruct (_ <? _); [injection Hs as <-; by apply Hsame|by eapply Hpush].
  - apply bind_Some in Hs as (y & _ & Hs). destruct y; [done| |done]. destruct (_ || _); [|done]. by apply Hpush in Hs.
  - apply bind_Some in Hs as (y & _ & Hs). destruct y as [| |i m [|]]; try done. case_match; try done. injection Hs as <-. by apply Hsame.
  - apply bind_Some in Hs as (y & _ & Hs). destruct y as [| |i m [|]]; try done. case_match; try done. injection Hs as <-. by apply Hsame.
  - apply bind_Some in Hs as (l & _ & Hs). apply Hsame. destruct (OpQueue.worker l); try done; repeat (case_match; try done);
      try (apply bind_Some in Hs as ([[[m ts] p] rest] & _ & Hs)); repeat (case_match; try done); by injection Hs as <-.
  - apply bind_Some in Hs as (l & _ & Hs). destruct (OpQueue.copyupFlag l); [|done]. injection Hs as <-. by apply Hsame.
  - apply Hsame. unfold OpQueue.StopThread in Hs.
    destruct (default _ (OpQueue.stopper x)) as [i|i|i|i]; destruct (OpQueue.lanes x !! i) as [l|] eqn:Hl; try done; cbn in Hs;
      repeat (case_match; try done); by injection Hs as <-.
Qed.

(** ** What the counters count *)

(** What a request that has passed the Get [k] holds of its counter. *)
Definition contrib (th : throttles) (k : kind) (p : pending) : Z := if enabled th k && applies k p then amount k p else 0.

Definition gheld (th : throttles) (k : kind) (g : gate) : Z :=
  match gate_req g with Some (p, ks) => if decide (k ∈ ks) then 0 else contrib th k p | None => 0 end.

Definition outstanding (th : throttles) (k : kind) (s : t) : Z :=
  sumZ (contrib th k) (inflight s) + sumZ (gheld th k) (gates s).

Definition refused (m : MOSDOp) : Z := match convert m with Refused _ => 1 | _ => 0 end.

(** The units of [lwtCount] that replies to refused messages gave back without a Get. *)
Definition owed (th : throttles) (k : kind) (s : t) : Z :=
  if decide (k = Lwt) then if enabled th Lwt then sumZ refused (answered s) else 0 else 0.

Definition accounted (th : throttles) (s : t) : Prop :=
  forall k, counter k (cnt (net s)) = u64 (outstanding th k s - owed th k s).

(** The lengths of the requests, and their number, fit 64 bits. *)
Definition req_len (m : MOSDOp) : Z := match convert m with Converted r => optionLength r | _ => 0 end.
Definition room (x : OpQueue.t) : Prop :=
  (forall m, m ∈ messages x -> 0 <= req_len m) /\ sumZ req_len (messages x) < 2 ^ 64 /\ len (messages x) < 2 ^ 64.

(** The throttles that a step reads. *)
Definition under (th : throttles) (a : label) : Prop :=
  match a with Take _ th' | Gate _ th' | Complete _ _ _ th' => th' = th | _ => True end.

(** A bound on what one message can hold. *)
Definition weight (k : kind) (m : MOSDOp) : Z := match k with WriteBW | ReadBW => req_len m | _ => 1 end.

Lemma contrib_weight th k p : is_req p -> 0 <= req_len (p_op p) -> 0 <= contrib th k p <= weight k (p_op p).
Proof.
  intros (r & Hr & ->) Hn. cbn in *. unfold contrib, weight, req_len in *. rewrite Hr in *.
  destruct (_ && _), k; cbn; lia.
Qed.

Lemma front_todo x i l m : OpQueue.lanes x !! i = Some l -> front i x = Some m -> exists rest, todo l = m :: rest.
Proof.
  unfold front, todo. intros ->. cbn. destruct (OpQueue.worker l); try done. intros ([[[m' ?] ?] ?] & Hp & [= ->])%bind_Some.
  unfold OpQueue.pop_deal in Hp. destruct (ClientOpQueue.reqQueue (OpQueue.deal l)), (ClientOpQueue.tsQueue (OpQueue.deal l)),
    (ClientOpQueue.period (OpQueue.deal l)); try done. injection Hp as <- <- <- <-. by eexists.
Qed.

Section accounting.
Hypothesis (HqueueNum : 0 < queueNum).

Lemma messages_wf s : wf s -> messages (q s) ≡ₚ answered s ++ map p_op (inflight s) ++ dropped (q s) ++ unhandled (q s).
Proof.
  intros Hw. rewrite messages_parts by (done || apply Hw). rewrite (wf_answers _ Hw). by rewrite <- !app_assoc.
Qed.

Lemma gates_bound th k s : wf s -> (forall m, m ∈ messages (q s) -> 0 <= req_len m) ->
  (forall g, g ∈ gates s -> 0 <= gheld th k g) /\ sumZ (gheld th k) (gates s) <= sumZ (weight k) (unhandled (q s)).
Proof.
  intros Hw Hn.
  assert (forall i g l, gates s !! i = Some g -> OpQueue.lanes (q s) !! i = Some l ->
    0 <= gheld th k g <= sumZ (weight k) (todo l)) as Hi.
  { intros i g l Hg Hl.
    assert (forall m, m ∈ todo l -> 0 <= weight k m) as Hm.
    { intros m Hm. assert (m ∈ messages (q s)) as Hin.
      { rewrite (messages_wf _ Hw), !elem_of_app. do 3 right. apply list_elem_of_In, in_flat_map. exists l. split; [|by apply list_elem_of_In].
        by eapply list_elem_of_In, list_elem_of_lookup_2. }
      specialize (Hn _ Hin). unfold weight. destruct k; lia. }
    unfold gheld. destruct (gate_req g) as [[p ks]|] eqn:Er; [|pose proof (sumZ_nonneg _ _ Hm); lia].
    destruct (wf_gates _ Hw _ _ _ _ Hg Er) as (Hf & Hp & _). destruct (front_todo _ _ _ _ Hl Hf) as [rest Ht]. rewrite Ht in *.
    assert (p_op p ∈ messages (q s)) as Hin.
    { rewrite (messages_wf _ Hw), !elem_of_app. do 3 right. apply list_elem_of_In, in_flat_map. exists l.
      split; [by eapply list_elem_of_In, list_elem_of_lookup_2|]. rewrite Ht. by left. }
    pose proof (contrib_weight th k p Hp (Hn _ Hin)).
    pose proof (sumZ_nonneg (weight k) rest (fun m Hm' => Hm m (list_elem_of_further _ _ _ Hm'))). cbn in *.
    destruct (decide _); lia. }
  assert (length (gates s) = length (OpQueue.lanes (q s))) as Hlen by (by rewrite (wf_len _ Hw), (wf_lanes _ Hw)).
  split.
  - intros g [i Hg]%list_elem_of_lookup_1.
    destruct (lookup_lt_is_Some_2 (OpQueue.lanes (q s)) i ltac:(rewrite <- Hlen; by eapply lookup_lt_Some)) as [l Hl].
    by apply (Hi i g l).
  - unfold unhandled. rewrite sumZ_flat_map. apply sumZ_le2; [done|]. intros i g l Hg Hl. by apply (Hi i g l).
Qed.

Lemma inflight_bound th k s : wf s -> (forall m, m ∈ messages (q s) -> 0 <= req_len m) ->
  (forall p, p ∈ inflight s -> 0 <= contrib th k p) /\
  sumZ (contrib th k) (inflight s) <= sumZ (weight k) (map p_op (inflight s)).
Proof.
  intros Hw Hn. assert (forall p, p ∈ inflight s -> 0 <= contrib th k p <= weight k (p_op p)) as Hp.
  { intros p Hp. apply contrib_weight; [by eapply Forall_forall in Hp; [|apply (wf_inflight _ Hw)]|]. apply Hn.
    rewrite (messages_wf _ Hw), !elem_of_app. right. left. by apply list_elem_of_fmap_2. }
  split; [intros p Hin; by apply Hp|]. rewrite sumZ_map. apply sumZ_le. intros p Hin. by apply Hp.
Qed.

Lemma outstanding_bound th k s : wf s -> room (q s) ->
  0 <= sumZ (gheld th k) (gates s) /\ 0 <= sumZ (contrib th k) (inflight s) /\ outstanding th k s < 2 ^ 64.
Proof.
  intros Hw (Hn & Hl & Hc). destruct (gates_bound th k s Hw Hn) as [Hg1 Hg2]. destruct (inflight_bound th k s Hw Hn) as [Hi1 Hi2].
  split; [by apply sumZ_nonneg|]. split; [by apply sumZ_nonneg|]. unfold outstanding.
  assert (sumZ (weight k) (messages (q s)) < 2 ^ 64) as Ht.
  { destruct k; cbn [weight]; try exact Hl; by rewrite sumZ_const. }
  rewrite (sumZ_perm _ _ _ (messages_wf _ Hw)), !sumZ_app in Ht.
  assert (forall l, (forall m, m ∈ l -> m ∈ messages (q s)) -> 0 <= sumZ (weight k) l) as Hpos.
  { intros l Hin. apply sumZ_nonneg. intros m Hm. specialize (Hn _ (Hin _ Hm)). unfold weight. destruct k; lia. }
  pose proof (Hpos (answered s) ltac:(intros; rewrite (messages_wf _ Hw); set_solver)).
  pose proof (Hpos (dropped (q s)) ltac:(intros; rewrite (messages_wf _ Hw); set_solver)). lia.
Qed.

(** *** Every step keeps the accounts *)

Lemma counter_set k k' v c : counter k (set_counter k' v c) = if decide (k' = k) then v else counter k c.
Proof. by destruct k. Qed.

Lemma enabled_on th k : enabled th k = true -> on (limit th k) = true.
Proof. unfold enabled. by intros [? _]%andb_true_iff. Qed.

(** [FinishCacheOps], counter by counter. *)
Lemma finish_counter th m p r s k :
  counter k (cnt (FinishCacheOps th (Some m) (p_type p) (p_len p) r s)) =
  match k with
  | Lwt => PutlwtCas th (counter k (cnt s))
  | WriteIops => if applies k p && on (isGc th) then Put (amount k p) (counter k (cnt s)) else counter k (cnt s)
  | _ => if applies k p then Put (amount k p) (counter k (cnt s)) else counter k (cnt s)
  end.
Proof. by destruct k. Qed.

Lemma finish_default th m r s k :
  counter k (cnt (FinishCacheOps th (Some m) GCACHE_DEFAULT 0 r s)) =
  if decide (k = Lwt) then PutlwtCas th (counter k (cnt s)) else counter k (cnt s).
Proof. by destruct k. Qed.

Lemma u64_shift x a : u64 (u64 x + a) = u64 (x + a).
Proof. unfold u64. by rewrite wrap_add_l by lia. Qed.

Lemma PutlwtCas_owed th x : PutlwtCas th (u64 x) = u64 (x - Z.b2z (enabled th Lwt)).
Proof.
  unfold PutlwtCas. assert (enabled th Lwt = on (saOpThrottle th)) as -> by (unfold enabled; cbn; by rewrite andb_true_r).
  destruct (on (saOpThrottle th)); cbn [Z.b2z]; [|by rewrite Z.sub_0_r].
  rewrite <- Z.add_opp_r, u64_shift. by rewrite Z.add_opp_r.
Qed.

Lemma Put_contrib th k p x : 0 <= x < 2 ^ 64 -> contrib th k p <= x -> 0 <= amount k p ->
  (enabled th k = false -> x = 0) -> applies k p = true -> Put (amount k p) x = x - contrib th k p.
Proof.
  intros Hx Hc Ha Hz Hap. unfold contrib in *. rewrite Hap, andb_true_r in *. unfold Put. destruct (enabled th k).
  - replace (x <? amount k p) with false by lia. by rewrite u64_small by lia.
  - rewrite Hz in * by done. destruct (0 <? amount k p) eqn:E; bprop; [done|]. by replace (amount k p) with 0 by lia.
Qed.

Lemma contrib_off th k p : enabled th k = false -> contrib th k p = 0.
Proof. unfold contrib. by intros ->. Qed.

Lemma outstanding_off th k s : enabled th k = false -> outstanding th k s = 0.
Proof.
  intros E. unfold outstanding. rewrite !sumZ_zero; [done|..].
  - intros g _. unfold gheld. destruct (gate_req g) as [[p ks]|]; [|done]. destruct (decide _); [done|by apply contrib_off].
  - intros p _. by apply contrib_off.
Qed.

(** The same accounts in another state. *)
Lemma accounted_same th s s' : accounted th s -> cnt (net s') = cnt (net s) ->
  (forall k, outstanding th k s' = outstanding th k s) -> sumZ refused (answered s') = sumZ refused (answered s) -> accounted th s'.
Proof. intros Ha Hc Ho Hr k. rewrite Hc, Ho, (Ha k). unfold owed. by rewrite Hr. Qed.

Lemma outstanding_gate th k i g0 g s : gates s !! i = Some g0 -> gheld th k g = gheld th k g0 ->
  outstanding th k (set_gate i g s) = outstanding th k s.
Proof. intros Hg E. unfold outstanding. cbn. rewrite (sumZ_insert _ _ _ _ _ Hg), E. lia. Qed.

Lemma gheld_start th k p : gheld th k (Adding p (gets p)) = 0.
Proof.
  cbn. destruct (decide _) as [|Hn]; [done|]. unfold contrib. destruct (applies k p) eqn:E; [|by rewrite andb_false_r].
  by apply gets_spec in E.
Qed.

Lemma gheld_past th k p : gheld th k (Adding p []) = contrib th k p.
Proof. cbn. rewrite decide_False; [done|]. by apply not_elem_of_nil. Qed.

Lemma accounted_take i th s s' : wf s -> accounted th s -> take_step i th s = Some s' -> accounted th s'.
Proof.
  intros Hw Ha Hs. unfold take_step in Hs. apply bind_Some in Hs as (m & Hf & Hs). apply bind_Some in Hs as (g & Hg & Hs).
  destruct g; [|done..]. destruct (convert m) as [r|e| |] eqn:Ec.
  - injection Hs as <-. apply (accounted_same th s); [done..| |done]. intros k. eapply outstanding_gate; [done|].
    by rewrite gheld_start.
  - apply bind_Some in Hs as (x & Hx & [= <-]). intros k.
    change (counter k (cnt (FinishCacheOps th (Some m) GCACHE_DEFAULT 0 e (net s))) =
      u64 (outstanding th k s - owed th k (set_net (FinishCacheOps th (Some m) GCACHE_DEFAULT 0 e (net s)) m s))).
    rewrite finish_default, (Ha k). unfold owed. cbn [answered set_net]. rewrite sumZ_app. cbn [sumZ].
    assert (refused m = 1) as -> by (unfold refused; by rewrite Ec).
    destruct (decide (k = Lwt)) as [->|]; [|done]. rewrite PutlwtCas_owed. f_equal. destruct (enabled th Lwt); cbn [Z.b2z]; lia.
  - apply bind_Some in Hs as (x & Hx & [= <-]). by apply (accounted_same th s).
  - apply bind_Some in Hs as (x & Hx & [= <-]). by apply (accounted_same th s).
Qed.

(** A Get that is done with. *)
Lemma gheld_done th k k' p ks : NoDup (k' :: ks) -> k' ∈ gets p ->
  gheld th k (Adding p ks) = gheld th k (Adding p (k' :: ks)) + (if decide (k' = k) then contrib th k p else 0).
Proof.
  intros [Hn _]%NoDup_cons Hk. cbn. destruct (decide (k' = k)) as [<-|Hne].
  - rewrite decide_False by done. rewrite decide_True by left. lia.
  - destruct (decide (k ∈ ks)) as [Hi|Hi]; [rewrite decide_True by (by right)|rewrite decide_False by (by intros [|]%elem_of_cons)]; lia.
Qed.

Lemma accounted_gate i th s s' : wf s -> accounted th s -> gate_step i th s = Some s' -> accounted th s'.
Proof.
  intros Hw Ha Hs. unfold gate_step in Hs. apply bind_Some in Hs as (g & Hg & Hs). destruct g as [|p [|k' ks]|p k' ks old]; try done.
  2: { destruct (passes th k' old); injection Hs as <-; (apply (accounted_same th s); [done..| |done]); intros k;
         by eapply outstanding_gate. }
  destruct (wf_gates _ Hw _ _ _ _ Hg eq_refl) as (Hf & Hp & dn & Hd).
  assert (NoDup (k' :: ks) /\ k' ∈ gets p) as [Hnd Hin].
  { pose proof (gets_NoDup p) as Hn. rewrite Hd in *. apply NoDup_app in Hn as (_ & _ & Hn). split; [done|]. apply elem_of_app. right. left. }
  destruct (enabled th k') eqn:Ee; injection Hs as <-.
  - intros k. unfold outstanding. cbn [set_gate set_count net cnt gates inflight]. rewrite counter_set, (sumZ_insert _ _ _ _ _ Hg).
    change (gheld th k (Waiting p k' ks ?o)) with (gheld th k (Adding p ks)). rewrite (gheld_done th k k' p ks) by done.
    change (owed th k _) with (owed th k s). pose proof (Ha k) as Hk. unfold outstanding in Hk.
    destruct (decide (k' = k)) as [->|]; [|rewrite Hk; f_equal; lia].
    rewrite Hk, u64_shift. f_equal. unfold contrib. apply gets_spec in Hin. rewrite Ee, Hin. cbn [andb]. lia.
  - apply (accounted_same th s); [done..| |done]. intros k. eapply outstanding_gate; [done|]. rewrite (gheld_done th k k' p ks) by done.
    destruct (decide (k' = k)) as [->|]; [|lia]. rewrite contrib_off by done. lia.
Qed.

Lemma accounted_submit i th s s' : wf s -> accounted th s -> submit_step i s = Some s' -> accounted th s'.
Proof.
  intros Hw Ha Hs. unfold submit_step in Hs. apply bind_Some in Hs as (g & Hg & Hs). destruct g as [|p [|k ks]|p k ks old]; try done.
  apply bind_Some in Hs as (x & Hx & [= <-]). apply (accounted_same th s); [done..| |done]. intros k.
  unfold outstanding. cbn [inflight set_inflight gates set_gate set_q]. rewrite sumZ_app, (sumZ_insert _ _ _ _ _ Hg), gheld_past.
  cbn [sumZ]. change (gheld th k Free) with 0. lia.
Qed.

Lemma accounted_complete j out r th s s' : wf s -> room (q s) -> accounted th s -> complete_step j out r th s = Some s' ->
  accounted th s'.
Proof.
  intros Hw Hr Ha Hs. unfold complete_step in Hs. apply bind_Some in Hs as (p & Hp & Hs). injection Hs as <-. intros k.
  assert (is_req p) as Hq by (eapply Forall_lookup_1; [apply (wf_inflight _ Hw)|done]).
  assert (0 <= req_len (p_op p)) as Hl.
  { apply (proj1 Hr). rewrite (messages_wf _ Hw), !elem_of_app. right. left. apply list_elem_of_fmap_2. by eapply list_elem_of_lookup_2. }
  pose proof (contrib_weight th k p Hq Hl) as Hc.
  assert (0 <= amount k p) as Ham.
  { destruct Hq as (r0 & Hr0 & E). unfold req_len in Hl. rewrite Hr0 in Hl. rewrite E. destruct k; cbn; lia. }
  destruct (outstanding_bound th k s Hw Hr) as (Hb1 & Hb2 & Hb3).
  assert (outstanding th k (set_inflight (delete j (inflight s)) s) = outstanding th k s - contrib th k p) as Ho.
  { unfold outstanding. cbn. rewrite (sumZ_perm _ (inflight s) _ (delete_perm _ _ _ Hp)). cbn. lia. }
  assert (contrib th k p <= outstanding th k s) as Hle.
  { unfold outstanding in *. rewrite (sumZ_perm _ (inflight s) _ (delete_perm _ _ _ Hp)). cbn.
    assert (0 <= sumZ (contrib th k) (delete j (inflight s))); [|lia]. apply sumZ_nonneg. intros p' Hp'.
    apply (proj1 (inflight_bound th k s Hw (proj1 Hr))). by eapply elem_of_sublist, sublist_delete. }
  match goal with |- _ = u64 (_ - ?o) => change (counter k (cnt (FinishCacheOps th (Some (with_out out (p_op p))) (p_type p) (p_len p) r (net s))) =
    u64 (outstanding th k (set_inflight (delete j (inflight s)) s) - o)) end. rewrite finish_counter.
  rewrite Ho, (Ha k).
  match goal with |- context [owed th k ?x] => assert (owed th k x = owed th k s) as -> end.
  { unfold owed. cbn [answered set_inflight set_net]. rewrite sumZ_app. cbn [sumZ].
    assert (refused (p_op p) = 0) as -> by (unfold refused; by destruct Hq as (r0 & -> & _)). by rewrite !Z.add_0_r. }
  assert (forall b, k <> Lwt -> (enabled th k = true -> b = true) ->
    (if applies k p && b then Put (amount k p) (u64 (outstanding th k s - owed th k s)) else u64 (outstanding th k s - owed th k s)) =
    u64 (outstanding th k s - contrib th k p - owed th k s)) as Hput.
  { intros b Hk Hb. unfold owed. rewrite !decide_False by done. rewrite !Z.sub_0_r, !u64_small by (unfold outstanding in *; lia).
    destruct (applies k p) eqn:Eap; cbn [andb]; [|unfold contrib; rewrite Eap, andb_false_r; lia].
    destruct b.
    - apply Put_contrib; [unfold outstanding in *; lia|done|done| |done]. intros. by apply outstanding_off.
    - destruct (enabled th k) eqn:E; [by specialize (Hb eq_refl)|]. rewrite contrib_off by done. lia. }
  destruct k; try (rewrite <- (Hput true) by done; by rewrite andb_true_r).
  - rewrite PutlwtCas_owed. unfold contrib. cbn [applies amount]. rewrite andb_true_r. f_equal. destruct (enabled th Lwt); cbn [Z.b2z]; lia.
  - apply Hput; [done|]. unfold enabled. by intros [_ ?]%andb_true_iff.
Qed.

Lemma accounted_step th a s s' : wf s -> room (q s) -> accounted th s -> under th a -> step a s = Some s' -> accounted th s'.
Proof.
  intros Hw Hr Ha Hu Hs. unfold step in Hs. destruct (OpQueue.crashed (q s)); [done|]. destruct a as [a|i th'|i th'|i|j out r th']; cbn in Hu; subst.
  - destruct (takes a (q s)); [done|]. apply bind_Some in Hs as (x & Hx & [= <-]). by apply (accounted_same th s).
  - by eapply accounted_take.
  - by eapply accounted_gate.
  - by eapply accounted_submit.
  - by eapply accounted_complete.
Qed.

Lemma room_prefix x x' k : OpQueue.submitted x' = OpQueue.submitted x ++ k -> room x' -> room x.
Proof.
  intros E (H1 & H2 & H3). unfold room, messages in *. rewrite E, map_app in *.
  assert (forall m, m ∈ map (fun e => e.1.1) k -> 0 <= req_len m) as Hk by (intros m Hm; apply H1, elem_of_app; by right).
  rewrite sumZ_app in H2. rewrite len_app in H3. pose proof (sumZ_nonneg _ _ Hk). pose proof (len_nonneg (map (fun e => e.1.1) k)).
  split; [intros m Hm; apply H1, elem_of_app; by left|]. lia.
Qed.

Lemma room_run tr s s' : run tr s = Some s' -> room (q s') -> room (q s).
Proof.
  intros (tr' & Hr)%system_refines. revert Hr. generalize (q s), (q s'). clear s s' tr.
  induction tr' as [|a tr IH]; intros x y Hr Hy; cbn in Hr; [by injection Hr as <-|].
  apply bind_Some in Hr as (z & Hz & Hr). destruct (system_submitted_step _ _ _ Hz) as [k Hk]. by eapply room_prefix, IH.
Qed.

Lemma accounted_run th tr s s' : wf s -> accounted th s -> Forall (under th) tr -> run tr s = Some s' -> room (q s') ->
  wf s' /\ accounted th s'.
Proof.
  revert s. induction tr as [|a tr IH]; intros s Hw Ha Hu Hr Hm; cbn in Hr; [by injection Hr as <-|].
  apply bind_Some in Hr as (s1 & H1 & Hr). apply Forall_cons in Hu as [Hu1 Hu]. apply (IH s1); try done; [by eapply wf_step|].
  eapply accounted_step; [exact Hw| |done..]. eapply (room_run (a :: tr)); [|exact Hm]. cbn. by rewrite H1.
Qed.

Lemma accounted_init th nd qos : accounted th (init nd qos).
Proof.
  intros k. unfold outstanding, owed. cbn [inflight init gates answered sumZ].
  assert (sumZ (gheld th k) (replicate (Z.to_nat queueNum) Free) = 0) as ->.
  { apply sumZ_zero. by intros g [-> _]%elem_of_replicate. }
  destruct (decide (k = Lwt)), (enabled th Lwt); by destruct k.
Qed.

(** *** Workers that wait for each other *)

(** In the loop of the Get [k], above the limit. *)
Definition stuck (th : throttles) (k : kind) (g : gate) : Prop :=
  exists p ks old, g = Waiting p k ks old /\ passes th k old = false.

Definition stuckb (th : throttles) (k : kind) (g : gate) : bool :=
  match g with Waiting _ k' _ old => bool_decide (k' = k) && negb (passes th k old) | _ => false end.

Lemma stuckb_all th k l : forallb (stuckb th k) l = true -> Forall (stuck th k) l.
Proof.
  induction l as [|g l IH]; intros Hb; [constructor|]. cbn in Hb. apply andb_true_iff in Hb as [Hg Hl]. constructor; [|by apply IH].
  destruct g as [| |p k' ks old]; try done. cbn in Hg. apply andb_true_iff in Hg as [->%bool_decide_eq_true Ho].
  exists p, ks, old. split; [done|]. by destruct (passes th k old).
Qed.

Definition all_stuck (th : throttles) (k : kind) (s : t) : Prop :=
  inflight s = [] /\ Forall (stuck th k) (gates s) /\ passes th k (counter k (cnt (net s))) = false.

(** No step changes that, and none hands anything over or answers. *)
Lemma stuck_step th k a s s' : all_stuck th k s -> under th a -> step a s = Some s' ->
  all_stuck th k s' /\ answered s' = answered s /\ answered_logs (q s') = answered_logs (q s).
Proof.
  intros (Hi & Hg & Hc) Hu Hs. unfold step in Hs. destruct (OpQueue.crashed (q s)); [done|].
  destruct a as [a|i th'|i th'|i|j out r th']; cbn in Hu; subst.
  - destruct (takes a (q s)) eqn:E; [done|]. apply bind_Some in Hs as (x & Hx & [= <-]). split; [done|]. split; [done|].
    apply kept_step in Hx; [|done]. by apply kept_logs in Hx as [? _].
  - apply bind_Some in Hs as (m & _ & Hs). apply bind_Some in Hs as (g & Hgi & Hs).
    apply (Forall_lookup_1 _ _ _ _ Hg) in Hgi as (p & ks & old & -> & _). done.
  - apply bind_Some in Hs as (g & Hgi & Hs). pose proof (Forall_lookup_1 _ _ _ _ Hg Hgi) as (p & ks & old & -> & Ho).
    rewrite Ho in Hs. injection Hs as <-. split; [|done]. split; [done|]. split; [|done].
    apply Forall_insert; [done|]. by exists p, ks, (counter k (cnt (net s))).
  - apply bind_Some in Hs as (g & Hgi & Hs).
    apply (Forall_lookup_1 _ _ _ _ Hg) in Hgi as (p & ks & old & -> & _). done.
  - apply bind_Some in Hs as (p & Hp & _). by rewrite Hi in Hp.
Qed.

Lemma stuck_run th k tr s s' : all_stuck th k s -> Forall (under th) tr -> run tr s = Some s' ->
  all_stuck th k s' /\ answered s' = answered s /\ answered_logs (q s') = answered_logs (q s).
Proof.
  revert s. induction tr as [|a tr IH]; intros s Hk Hu Hr; cbn in Hr; [by injection Hr as <-|].
  apply bind_Some in Hr as (s1 & H1 & Hr). apply Forall_cons in Hu as [Hu1 Hu].
  destruct (stuck_step _ _ _ _ _ Hk Hu1 H1) as (Hk1 & E1 & E2). destruct (IH _ Hk1 Hu Hr) as (Hk2 & F1 & F2).
  split; [done|]. by rewrite F1, F2.
Qed.

(** ** Theorems *)

Context (nd : nat) (qos : Qos.t).

(** C2: the server with its throttles implements the queues: whatever the dispatchers,
    workers and the engine do, and however the throttles delay them, the queues go
    through a run of [OpQueue] -- so its theorems on the order of messages, the barrier
    of a copyup and the limits of writes hold of the whole server.  What the engine gets
    from a lane are the requests that its log says, in that order: those in flight and
    those answered are together the handled ones. *)
Theorem server_refines_queues (tr : list label) (s : t) (Hr : run tr (init nd qos) = Some s) :
  (exists tr', OpQueue.run partial_copy readStatFlag hash queueNum queueMaxCapacity tr'
     (OpQueue.CreateWorkThread queueNum nd qos) = Some (q s)) /\
  answered_logs (q s) ≡ₚ answered s ++ map p_op (inflight s) /\
  (forall i g p ks, gates s !! i = Some g -> gate_req g = Some (p, ks) -> front i (q s) = Some (p_op p)).
Proof.
  pose proof (wf_run _ _ _ (wf_init nd qos) Hr) as Hw. apply system_refines in Hr as [tr' Hr].
  split; [by exists tr'|]. split; [apply Hw|]. intros i g p ks Hg Hp. by apply (wf_gates _ Hw _ _ _ _ Hg Hp).
Qed.

(** C3: every message gets at most one reply, and one unless it is dropped.  In every
    reachable state the messages the dispatchers have enqueued are, each exactly once:
    those answered, whose pointers are those of the replies in that order; those in the
    engine; those still with the workers and their queues; and those that [ProcessOpReq]
    gave up without a reply, because their pool id overflows or they cannot be decoded. *)
Theorem one_reply_per_message (tr : list label) (s : t) (Hr : run tr (init nd qos) = Some s) :
  messages (q s) ≡ₚ answered s ++ map p_op (inflight s) ++ dropped (q s) ++ unhandled (q s) /\
  map rp_op (replies (net s)) = map mosdop_ptr (answered s) /\
  Forall (fun m => convert m = Overflow \/ convert m = Threw) (dropped (q s)).
Proof.
  pose proof (wf_run _ _ _ (wf_init nd qos) Hr) as Hw. split; [by apply messages_wf|]. split; apply Hw.
Qed.

(** C7: the counters of the throttles, access by access.  While the throttles stay as
    they are, each counter is the sum of what the requests in flight and the workers past
    that Get hold of it, less -- for [lwtCount] -- one for every refused message, whose
    reply gives back what was never taken, modulo 2^64.  So with no message refused all
    counters are 0 when nothing is in flight and no worker is in its Gets. *)
Theorem server_accounts (th : throttles) (tr : list label) (s : t) (Hu : Forall (under th) tr)
  (Hr : run tr (init nd qos) = Some s) (Hroom : room (q s)) (k : kind) :
  counter k (cnt (net s)) = u64 (outstanding th k s - owed th k s) /\
  0 <= outstanding th k s < 2 ^ 64 /\
  (sumZ refused (answered s) = 0 -> counter k (cnt (net s)) = outstanding th k s) /\
  (sumZ refused (answered s) = 0 -> inflight s = [] -> Forall (eq Free) (gates s) -> counter k (cnt (net s)) = 0).
Proof.
  destruct (accounted_run th tr _ s (wf_init nd qos) (accounted_init th nd qos) Hu Hr Hroom) as [Hw Ha].
  destruct (outstanding_bound th k s Hw Hroom) as (H1 & H2 & H3).
  assert (sumZ refused (answered s) = 0 -> counter k (cnt (net s)) = outstanding th k s) as Hz.
  { intros E. rewrite (Ha k). unfold owed. rewrite E.
    assert ((if decide (k = Lwt) then if enabled th Lwt then 0 else 0 else 0) = 0) as -> by (by repeat case_match).
    rewrite Z.sub_0_r. apply u64_small. unfold outstanding in *. lia. }
  split; [apply Ha|]. split; [unfold outstanding in *; lia|]. split; [done|]. intros E Hi Hg. rewrite Hz by done.
  unfold outstanding. rewrite Hi, (sumZ_zero (gheld th k)); [done|]. intros g Hin. rewrite Forall_forall in Hg. by rewrite <- (Hg g Hin).
Qed.

(** C8: workers can wait for each other, and then the server answers nothing any more. In
    any state in which the engine has completed everything, every worker is in the loop of
    the same Get, whose throttle is on, having read a count above the limit, and the
    counter is above it: no sequence of steps, whatever arrives, hands another request to
    the engine or sends another reply, as long as the throttles stay as they are. A
    waiting worker's own amount is part of the counter it waits for: if the throttles were
    the same in the whole run, lengths and numbers of the messages fit 64 bits and no
    refused message was answered, the counter is what the waiting workers hold together.
    In the witness it is a single worker, with a write longer than [writeBW]'s limit. *)
Theorem waiting_workers_deadlock (th : throttles) (k : kind) (s : t)
  (Hi : inflight s = []) (Hen : enabled th k = true) (Hg : Forall (stuck th k) (gates s)) :
  (limit th k < counter k (cnt (net s)) ->
   forall tr' s', Forall (under th) tr' -> run tr' s = Some s' ->
     inflight s' = [] /\ answered s' = answered s /\ answered_logs (q s') = answered_logs (q s) /\
     Forall (stuck th k) (gates s')) /\
  (forall tr, run tr (init nd qos) = Some s -> Forall (under th) tr -> room (q s) -> sumZ refused (answered s) = 0 ->
     counter k (cnt (net s)) = sumZ (gheld th k) (gates s)).
Proof.
  split.
  - intros Hlim tr' s' Hu' Hr'. destruct (stuck_run th k tr' s s') as ((H1 & H2 & _) & H3 & H4); [|done..].
    split; [done|]. split; [done|]. unfold passes. apply enabled_on in Hen. rewrite Hen.
    replace (_ <=? _) with false by lia. by destruct k.
  - intros tr Hr Hu Hroom Hno.
    destruct (accounted_run th tr _ s (wf_init nd qos) (accounted_init th nd qos) Hu Hr Hroom) as [Hw Ha].
    rewrite (Ha k). unfold owed. rewrite Hno.
    assert ((if decide (k = Lwt) then if enabled th Lwt then 0 else 0 else 0) = 0) as -> by (by repeat case_match).
    destruct (outstanding_bound th k s Hw Hroom) as (H1 & H2 & H3). unfold outstanding in *. rewrite Hi in *. cbn [sumZ] in *.
    rewrite Z.sub_0_r. by apply u64_small.
Qed.

End accounting.
End system.
End ServerSystem.

Module ServerSystemExamples.
Import NetworkModule NetworkModuleExamples ServerSystem.

#[local] Abbreviation go tr := (@run le_ints copied false OpQueueExamples.hash 1 10 tr (init 1 1 OpQueueExamples.unlimited)).

(** A write of 8 KiB, with a pointer of its own. *)
Definition write (ptr : Z) : MOSDOp :=
  {| mosdop_ptr := ptr; get_tid := 1; get_snapid := 0; get_pool := 5; get_seq := 2; m_seed := 9; get_snap_seq := 0;
     get_snaps := []; get_oid := bs "c";
     ops := [{| osd_op := {| op := CEPH_OSD_OP_WRITE; op_flags := 0; extent_offset := 0; extent_length := 8192; name_len := 0;
                             value_len := 0; cmp_op := 0; cmp_mode := MODE_OTHER 0; class_len := 0; method_len := 0;
                             cls_indata_len := 0; snapid := 0; writesame_offset := 0; writesame_length := 0 |};
                indata := bs "x"; outdata := []; rval := 0 |}] |}.

(** The engine takes writes of up to 4 KiB at a time. *)
Definition narrow : throttles :=
  {| saOpThrottle := 5000; writeOpThrottle := 10; readOpThrottle := 0; writeIopsThrottle := 10;
     writeBWThrottle := 4; readBWThrottle := 100; isGc := 1 |}.

Definition no_data : nat -> bytes := fun _ => [].

(** The first write is in the engine; the second has come to the loop of [GetWriteBWCas]. *)
Definition busy : list label :=
  [Queue (OpQueue.Dispatch 0 (write 1) 1 1); Queue (OpQueue.Dispatch 0 (write 2) 2 2); Queue (OpQueue.Work 0);
   Queue (OpQueue.Work 0); Queue (OpQueue.Work 0); Take 0 narrow] ++ replicate 8 (Gate 0 narrow) ++
  [Submit 0; Take 0 narrow] ++ replicate 7 (Gate 0 narrow).
(** The first one is done, and nothing is in the engine any more. *)
Definition jammed : list label := busy ++ [Complete 0 no_data 0 narrow; Gate 0 narrow].

Lemma under_narrow : Forall (under narrow) jammed.
Proof. repeat (constructor; [first [reflexivity|exact I]|]). constructor. Qed.

Lemma server_refines_queues_witness :
  exists s, go busy = Some s /\ length (inflight s) = 1%nat /\ answered_logs (q s) ≡ₚ answered s ++ map p_op (inflight s).
Proof.
  destruct (go busy) as [s|] eqn:E; [|vm_compute in E; discriminate E]. exists s. split; [reflexivity|].
  assert (option_map (fun s => length (inflight s)) (go busy) = Some 1%nat) as Hx by (vm_compute; reflexivity).
  rewrite E in Hx. injection Hx as H1. split; [exact H1|].
  exact (proj1 (proj2 (@server_refines_queues le_ints copied false OpQueueExamples.hash 1 10 1 OpQueueExamples.unlimited busy s E))).
Defined.

Lemma one_reply_per_message_witness :
  exists s, go jammed = Some s /\ map rp_op (replies (net s)) = [1] /\ map mosdop_ptr (unhandled (q s)) = [2] /\
    messages (q s) ≡ₚ answered s ++ map p_op (inflight s) ++ dropped (q s) ++ unhandled (q s).
Proof.
  destruct (go jammed) as [s|] eqn:E; [|vm_compute in E; discriminate E]. exists s. split; [reflexivity|].
  assert (option_map (fun s => (map rp_op (replies (net s)), map mosdop_ptr (unhandled (q s)))) (go jammed) = Some ([1], [2])) as Hx
    by (vm_compute; reflexivity).
  rewrite E in Hx. injection Hx as H1 H2. split; [exact H1|]. split; [exact H2|].
  exact (proj1 (@one_reply_per_message le_ints copied false OpQueueExamples.hash 1 10 ltac:(reflexivity) 1 OpQueueExamples.unlimited jammed s E)).
Defined.

Lemma room_jammed s : go jammed = Some s -> @room le_ints copied false (q s).
Proof.
  intros E. assert (messages (q s) = [write 1; write 2]) as Hm.
  { assert (option_map (fun s => messages (q s)) (go jammed) = Some [write 1; write 2]) as Hx by (vm_compute; reflexivity).
    rewrite E in Hx. injection Hx as Hx. exact Hx. }
  unfold room. rewrite Hm. split; [|split; vm_compute; reflexivity].
  intros m Hi. repeat (apply elem_of_cons in Hi as [->|Hi]; [vm_compute; discriminate|]). destruct (not_elem_of_nil _ Hi).
Qed.

Lemma server_accounts_witness :
  exists s, go jammed = Some s /\ writeBW (cnt (net s)) = 8 /\
    counter WriteBW (cnt (net s)) = outstanding narrow WriteBW s.
Proof.
  destruct (go jammed) as [s|] eqn:E; [|vm_compute in E; discriminate E]. exists s. split; [reflexivity|].
  assert (option_map (fun s => (writeBW (cnt (net s)), sumZ (@refused le_ints copied false) (answered s))) (go jammed) = Some (8, 0)) as Hx
    by (vm_compute; reflexivity).
  rewrite E in Hx. injection Hx as H1 H2. split; [exact H1|].
  exact (proj1 (proj2 (proj2 (@server_accounts le_ints copied false OpQueueExamples.hash 1 10 ltac:(reflexivity) 1
    OpQueueExamples.unlimited narrow jammed s under_narrow E (room_jammed s E) WriteBW))) H2).
Defined.

(** More messages may come; the write stays where it is. *)
Lemma waiting_workers_deadlock_witness :
  exists s s' tr', go jammed = Some s /\ tr' = [Queue (OpQueue.Dispatch 0 (write 3) 3 3); Gate 0 narrow; Gate 0 narrow] /\
    @run le_ints copied false OpQueueExamples.hash 1 10 tr' s = Some s' /\ inflight s' = [] /\ answered s' = answered s.
Proof.
  destruct (go jammed) as [s|] eqn:E; [|vm_compute in E; discriminate E].
  set (tr' := [Queue (OpQueue.Dispatch 0 (write 3) 3 3); Gate 0 narrow; Gate 0 narrow]).
  destruct (@run le_ints copied false OpQueueExamples.hash 1 10 tr' s) as [s'|] eqn:E'.
  2:{ assert (option_map (fun x => true) (go (jammed ++ tr')) = Some true) as Hx by (vm_compute; reflexivity).
      rewrite system_run_app, E in Hx. cbn [mbind option_bind] in Hx. rewrite E' in Hx. discriminate Hx. }
  exists s, s', tr'. split; [reflexivity|]. split; [reflexivity|]. split; [exact E'|].
  assert (option_map (fun s => (sumZ (@refused le_ints copied false) (answered s), length (inflight s),
      forallb (stuckb narrow WriteBW) (gates s), sumZ (gheld narrow WriteBW) (gates s))) (go jammed) =
    Some (0, 0%nat, true, 8)) as Hx by (vm_compute; reflexivity).
  rewrite E in Hx. injection Hx as H1 H2 H3 H4.
  pose proof (@waiting_workers_deadlock le_ints copied false OpQueueExamples.hash 1 10 ltac:(reflexivity) 1
    OpQueueExamples.unlimited narrow WriteBW s (nil_length_inv _ H2) eq_refl (stuckb_all _ _ _ H3)) as [Hd Hc].
  specialize (Hc jammed E under_narrow (room_jammed s E) H1). rewrite Hc, H4 in Hd.
  destruct (Hd ltac:(reflexivity) tr' s' ltac:(repeat constructor) E') as (G1 & G2 & _).
  split; [exact G1|exact G2].
Defined.

End ServerSystemExamples.
