(* ===== verification/ServerProgress.v ===== *)
(** * The server answers everything when its throttles leave room

    The liveness of [ServerSystem]: if the limit of every counter has room for one
    request of each worker, the workers and the engine can always bring every message
    that has been enqueued to its reply -- one lemma per phase of a worker's loop, put
    together lane by lane. *)

From S2P Require Import Prelude CStr Encoding MsgModule Throttle NetworkModule Qos OpQueue ServerSystem.
Import SaDef.

Module ServerProgress.
Import NetworkModule ServerSystem.
Section progress.
Context `{CephInts} (partial_copy : Z -> bytes -> bytes) (readStatFlag : bool).
Context (hash : bytes -> Z) (queueNum queueMaxCapacity : Z).
#[local] Abbreviation convert := (ProcessOpReq partial_copy readStatFlag).
#[local] Abbreviation qstep := (OpQueue.step partial_copy readStatFlag hash queueNum queueMaxCapacity).
#[local] Abbreviation step := (ServerSystem.step partial_copy readStatFlag hash queueNum queueMaxCapacity).
#[local] Abbreviation run := (ServerSystem.run partial_copy readStatFlag hash queueNum queueMaxCapacity).
#[local] Abbreviation wf := (ServerSystem.wf partial_copy readStatFlag hash queueNum).
#[local] Abbreviation accounted := (ServerSystem.accounted partial_copy readStatFlag).
#[local] Abbreviation room := (ServerSystem.room partial_copy readStatFlag).
Hypothesis (HqueueNum : 0 < queueNum).

(** ** Workers that have not been told to stop *)

(** A worker that waits without having been notified has nothing to do. *)
Definition alive_lane (l : OpQueue.lane) : Prop :=
  OpQueue.finishThread l = false /\ OpQueue.worker l <> OpQueue.Finished /\
  (OpQueue.worker l = OpQueue.InWait false -> ClientOpQueue.Empty (OpQueue.queue l) = true).
Definition alive (x : OpQueue.t) : Prop := forall i l, OpQueue.lanes x !! i = Some l -> alive_lane l.

Lemma alive_insert x x' i l : OpQueue.lanes x' = <[i := l]> (OpQueue.lanes x) -> alive_lane l -> alive x -> alive x'.
Proof.
  intros E Hl Ha j k Hk. rewrite E in Hk. apply list_lookup_insert_Some in Hk as [(_ & <- & _)|[_ Hk]]; [done|by eapply Ha].
Qed.

Lemma alive_wake l : OpQueue.finishThread l = false -> OpQueue.worker l <> OpQueue.Finished ->
  alive_lane (OpQueue.wake l) \/ OpQueue.wake l = l /\ OpQueue.worker l <> OpQueue.InWait false.
Proof. intros Hf Hw. unfold OpQueue.wake. destruct (OpQueue.worker l) eqn:E; [right..|left|right|done]; by split_and!. Qed.

Lemma alive_push d i m ts p x x' : alive x -> OpQueue.push d i m ts p x = Some x' -> alive x'.
Proof.
  intros Ha (l & Hl & Hs)%bind_Some. destruct (_ || _); [done|]. injection Hs as <-. destruct (Ha _ _ Hl) as (Hf & Hw & _).
  eapply alive_insert; [done| |done].
  match goal with |- alive_lane (OpQueue.wake ?k) => destruct (alive_wake k Hf Hw) as [|[-> Hn]]; [done|by split_and!] end.
Qed.

Lemma queues_alive_step a x x' : alive x -> a <> OpQueue.Stop -> qstep a x = Some x' -> alive x'.
Proof.
  intros Ha Hns Hs. unfold OpQueue.step in Hs. destruct (OpQueue.crashed x); [done|].
  destruct a as [d m ts p|sp d p|d c rate ans|d c quota|i|i|]; [..|done].
  - apply bind_Some in Hs as (y & _ & Hs). destruct y; [|done..]. apply bind_Some in Hs as (l & _ & Hs).
    destruct (_ || _); [done|]. destruct (_ <? _); [by injection Hs as <-|by eapply alive_push].
  - apply bind_Some in Hs as (y & _ & Hs). destruct y; [done| |done]. destruct (_ || _); [|done]. by eapply alive_push in Hs.
  - apply bind_Some in Hs as (y & _ & Hs). destruct y as [| |i m [|]]; try done. case_match; try done. by injection Hs as <-.
  - apply bind_Some in Hs as (y & _ & Hs). destruct y as [| |i m [|]]; try done. case_match; try done. by injection Hs as <-.
  - apply bind_Some in Hs as (l & Hl & Hs). destruct (Ha _ _ Hl) as (Hf & Hw & He).
    assert (forall l' x', OpQueue.lanes x' = <[i := l']> (OpQueue.lanes x) -> alive_lane l' -> alive x') as Hi by (intros; by eapply alive_insert).
    destruct (OpQueue.worker l) eqn:Ew; try done.
    + destruct (OpQueue.held i x); [done|]. injection Hs as <-. by eapply Hi.
    + rewrite Hf in Hs. injection Hs as <-. by eapply Hi.
    + destruct (ClientOpQueue.Empty (OpQueue.queue l)) eqn:Ee; injection Hs as <-; by eapply Hi.
    + destruct (_ && _); [|done]. injection Hs as <-. by eapply Hi.
    + destruct (ClientOpQueue.Empty (OpQueue.deal l)); [injection Hs as <-; by eapply Hi|].
      apply bind_Some in Hs as ([[[m ts] p] rest] & _ & Hs).
      destruct (convert m); [destruct (OpQueue.copyupFlag l); [done|]|..]; injection Hs as <-; by eapply Hi.
  - apply bind_Some in Hs as (l & Hl & Hs). destruct (OpQueue.copyupFlag l); [|done]. injection Hs as <-.
    eapply alive_insert; [done| |done]. by apply (Ha _ _ Hl).
Qed.

Lemma queues_alive_run (tr : list label) s s' : alive (q s) -> Queue OpQueue.Stop ∉ tr -> run tr s = Some s' -> alive (q s').
Proof.
  revert s. induction tr as [|a tr IH]; intros s Ha Hns Hr; cbn in Hr; [by injection Hr as <-|].
  apply bind_Some in Hr as (s1 & H1 & Hr). apply not_elem_of_cons in Hns as [Hn Hns]. apply (IH s1); [|done..].
  unfold ServerSystem.step in H1. destruct (OpQueue.crashed (q s)); [done|]. destruct a as [a|i th|i th|i|j out r th].
  - destruct (takes a (q s)); [done|]. apply bind_Some in H1 as (x & Hx & [= <-]). eapply queues_alive_step; [done| |done]. by intros ->.
  - apply bind_Some in H1 as (m & _ & H1). apply bind_Some in H1 as (g & _ & H1). destruct g; [|done..].
    destruct (convert m); [by injection H1 as <-|..]; apply bind_Some in H1 as (x & Hx & [= <-]); exact (queues_alive_step (OpQueue.Work i) _ _ Ha ltac:(discriminate) Hx).
  - apply bind_Some in H1 as (g & _ & H1). destruct g as [|p [|k ks]|p k ks old]; try done; case_match; by injection H1 as <-.
  - apply bind_Some in H1 as (g & _ & H1). destruct g as [|p [|k ks]|p k ks old]; try done.
    apply bind_Some in H1 as (x & Hx & [= <-]). exact (queues_alive_step (OpQueue.Work i) _ _ Ha ltac:(discriminate) Hx).
  - by apply bind_Some in H1 as (p & _ & [= <-]).
Qed.

(** ** Steps of the workers and the engine *)

Context (th : throttles) (B : kind -> Z).
(** A limit is an unsigned number; if it is on, it has room for [B k] of every worker. *)
Hypothesis (Hpos : forall k, 0 <= limit th k).
Hypothesis (HB : forall k, enabled th k = true -> 0 <= B k /\ queueNum * B k <= limit th k).

Definition internal (a : label) : Prop :=
  match a with
  | Queue (OpQueue.Work _ | OpQueue.EndCopyup _) => True
  | Queue _ => False
  | _ => under th a
  end.

Definition reach (s : t) (P : t -> Prop) : Prop := exists tr s', Forall internal tr /\ run tr s = Some s' /\ P s'.

Lemma reach_here s (P : t -> Prop) : P s -> reach s P.
Proof. intros Hp. exists [], s. by split; [constructor|]. Qed.

Lemma reach_trans s (P Q : t -> Prop) : reach s P -> (forall s', P s' -> reach s' Q) -> reach s Q.
Proof.
  intros (tr & s1 & Hi & Hr & Hp) HPQ. destruct (HPQ _ Hp) as (tr' & s2 & Hi' & Hr' & Hq). exists (tr ++ tr'), s2.
  split; [by apply Forall_app|]. split; [|done]. rewrite system_run_app, Hr. done.
Qed.

Lemma reach_step a s s' (P : t -> Prop) : internal a -> step a s = Some s' -> reach s' P -> reach s P.
Proof.
  intros Ha Hs Hr. eapply (reach_trans _ (fun x => x = s')); [|by intros ? ->]. exists [a], s'.
  split; [by constructor|]. split; [|done]. cbn. by rewrite Hs.
Qed.

Lemma internal_under tr : Forall internal tr -> Forall (under th) tr.
Proof. intros Hi. eapply Forall_impl; [exact Hi|]. by intros [[]| | | |]. Qed.

(** What a message holds of a counter at most. *)
Definition hold (k : kind) (m : MOSDOp) : Z := match convert m with Converted r => contrib th k (pend_of m r) | _ => 0 end.

(** The messages are in order and small enough for the limits. *)
Definition good (m : MOSDOp) : Prop :=
  ((exists r, convert m = Converted r) \/ convert m = Overflow) /\ forall k, enabled th k = true -> hold k m <= B k.

(** A state in which nothing but the workers and the engine has to move. *)
Record calm (s : t) : Prop := {
  c_wf : wf s;
  c_accounted : accounted th s;
  c_room : room (q s);
  c_crashed : OpQueue.crashed (q s) = false;
  c_held i : OpQueue.held i (q s) = false;
  c_alive : alive (q s);
  c_good m : m ∈ messages (q s) -> good m
}.

(** Only lane [i] has moved. *)
Definition only (i : nat) (s s' : t) : Prop :=
  OpQueue.submitted (q s') = OpQueue.submitted (q s) /\
  forall j, j <> i -> OpQueue.lanes (q s') !! j = OpQueue.lanes (q s) !! j /\ gates s' !! j = gates s !! j.

Lemma only_refl i s : only i s s.
Proof. done. Qed.

Lemma only_trans i s1 s2 s3 : only i s1 s2 -> only i s2 s3 -> only i s1 s3.
Proof.
  intros [E1 H1] [E2 H2]. split; [congruence|]. intros j Hj. destruct (H1 j Hj) as [E3 E4], (H2 j Hj) as [E5 E6]. split; congruence.
Qed.

(** The counters never stand above the limits when nothing is in the engine. *)
Lemma refused_good m : good m -> refused partial_copy readStatFlag m = 0.
Proof. intros [[[r E]|E] _]; unfold refused; by rewrite E. Qed.

Lemma calm_answered s m : calm s -> m ∈ answered s -> good m.
Proof. intros Hc Hm. apply (c_good _ Hc). rewrite (messages_wf _ _ _ _ HqueueNum _ (c_wf _ Hc)). by apply elem_of_app; left. Qed.

Lemma calm_front s i m : calm s -> front i (q s) = Some m -> m ∈ messages (q s).
Proof.
  intros Hc Hf. pose proof Hf as Hf'. unfold front in Hf'. destruct (OpQueue.lanes (q s) !! i) as [l|] eqn:Hl; [|done].
  destruct (front_todo _ _ _ _ Hl Hf) as [rest Ht]. rewrite (messages_wf _ _ _ _ HqueueNum _ (c_wf _ Hc)), !elem_of_app. do 3 right.
  apply list_elem_of_In, in_flat_map. exists l. split; [by eapply list_elem_of_In, list_elem_of_lookup_2|]. rewrite Ht. by left.
Qed.

Lemma gate_fits s k g : calm s -> g ∈ gates s -> enabled th k = true -> gheld th k g <= B k.
Proof.
  intros Hc [i Hg]%list_elem_of_lookup_1 He. unfold gheld. destruct (HB k He) as [HB0 _].
  destruct (gate_req g) as [[p ks]|] eqn:Er; [|done]. destruct (decide _); [done|].
  destruct (wf_gates _ _ _ _ _ (c_wf _ Hc) _ _ _ _ Hg Er) as (Hf & (r & Hr & Ep) & _).
  pose proof (c_good _ Hc _ (calm_front _ _ _ Hc Hf)) as [_ Hh]. specialize (Hh k He). unfold hold in Hh. rewrite Hr in Hh. by rewrite Ep.
Qed.

Lemma below_limit s k : calm s -> inflight s = [] -> counter k (cnt (net s)) <= limit th k.
Proof.
  intros Hc Hi. rewrite (c_accounted _ Hc k). unfold owed.
  rewrite (sumZ_zero _ (answered s)) by (intros m Hm; by eapply refused_good, calm_answered).
  assert ((if decide (k = Lwt) then if enabled th Lwt then 0 else 0 else 0) = 0) as -> by (by repeat case_match).
  rewrite Z.sub_0_r. destruct (outstanding_bound partial_copy readStatFlag hash queueNum HqueueNum th k s (c_wf _ Hc) (c_room _ Hc)) as (H1 & H2 & H3).
  rewrite u64_small by (unfold outstanding in *; lia). destruct (enabled th k) eqn:He; [|rewrite outstanding_off by done; apply Hpos].
  unfold outstanding. rewrite Hi. cbn [sumZ]. destruct (HB k He) as [HB0 HB1].
  assert (sumZ (gheld th k) (gates s) <= B k * len (gates s)) as Hle.
  { rewrite <- sumZ_const. assert (forall g, g ∈ gates s -> gheld th k g <= B k) as Hg by (intros; by eapply gate_fits).
    clear -Hg. revert Hg. induction (gates s) as [|g l IH]; intros Hg; cbn; [lia|]. pose proof (Hg g ltac:(left)).
    pose proof (IH ltac:(intros; apply Hg; by right)). lia. }
  assert (len (gates s) = queueNum) as E by (unfold len; rewrite (wf_len _ _ _ _ _ (c_wf _ Hc)); lia). rewrite E in Hle. lia.
Qed.

Lemma passes_now s k : calm s -> inflight s = [] -> passes th k (counter k (cnt (net s))) = true.
Proof. intros Hc Hi. unfold passes. pose proof (below_limit s k Hc Hi). by replace (_ <=? _) with true by lia. Qed.

(** *** Internal steps keep the calm *)

Lemma held_wake i j ds : existsb (OpQueue.limiting j) (map (OpQueue.wake_dispatcher i) ds) = existsb (OpQueue.limiting j) ds.
Proof.
  induction ds as [|d ds IH]; [done|]. cbn. rewrite IH. f_equal. destruct d as [|k m ts n|]; try done. cbn. by destruct (bool_decide _).
Qed.

Definition internal_queue (a : OpQueue.label) : Prop := match a with OpQueue.Work _ | OpQueue.EndCopyup _ => True | _ => False end.

Lemma queue_calm a x x' : internal_queue a -> qstep a x = Some x' ->
  OpQueue.submitted x' = OpQueue.submitted x /\ (forall j, OpQueue.held j x' = OpQueue.held j x) /\
  (OpQueue.crashed x' = true -> exists i m, front i x = Some m /\ convert m = Threw).
Proof.
  unfold OpQueue.step. destruct (OpQueue.crashed x) eqn:Ec; [done|]. intros Ha Hs.
  destruct a as [| | | |i|i|]; try done; apply bind_Some in Hs as (l & Hl & Hs).
  2: { destruct (OpQueue.copyupFlag l); [|done]. injection Hs as <-. split_and!; [done..|]. cbn. by rewrite Ec. }
  assert (forall p, OpQueue.submitted (OpQueue.set_lane i (OpQueue.at_pc p l) x) = OpQueue.submitted x /\
    (forall j, OpQueue.held j (OpQueue.set_lane i (OpQueue.at_pc p l) x) = OpQueue.held j x) /\
    (OpQueue.crashed (OpQueue.set_lane i (OpQueue.at_pc p l) x) = true -> exists i m, front i x = Some m /\ convert m = Threw)) as Hpc.
  { intros p. split_and!; [done..|]. cbn. by rewrite Ec. }
  destruct (OpQueue.worker l) eqn:Ew; try done.
  - destruct (OpQueue.held i x); [done|]. injection Hs as <-. apply Hpc.
  - injection Hs as <-. apply Hpc.
  - destruct (ClientOpQueue.Empty (OpQueue.queue l)); injection Hs as <-; [apply Hpc|].
    split_and!; [done| |cbn; by rewrite Ec]. intros j. apply held_wake.
  - destruct (_ && _); [|done]. injection Hs as <-. apply Hpc.
  - destruct (ClientOpQueue.Empty (OpQueue.deal l)); [injection Hs as <-; apply Hpc|].
    apply bind_Some in Hs as ([[[m ts] p] rest] & Hp & Hs).
    destruct (convert m) eqn:Em; [destruct (OpQueue.copyupFlag l); [done|]|..]; injection Hs as <-;
      (split_and!; [done..|]); cbn; try (by rewrite Ec).
    intros _. exists i, m. split; [|done]. unfold front. rewrite Hl. cbn. rewrite Ew, Hp. done.
Qed.

Lemma calm_queue s x' s' a : calm s -> q s' = x' -> internal_queue a -> qstep a (q s) = Some x' -> wf s' -> accounted th s' -> calm s'.
Proof.
  intros Hc E Ha Hx Hw Hac. destruct (queue_calm _ _ _ Ha Hx) as (Es & Eh & Ecr).
  assert (messages x' = messages (q s)) as Em by (unfold messages; by rewrite Es).
  split; try done; rewrite ?E.
  - unfold ServerSystem.room. rewrite Em. apply Hc.
  - destruct (OpQueue.crashed x'); [|done]. destruct (Ecr eq_refl) as (i & m & Hf & Ht).
    destruct (c_good _ Hc _ (calm_front _ _ _ Hc Hf)) as [[[r Hg]|Hg] _]; by rewrite Ht in Hg.
  - intros i. rewrite Eh. apply Hc.
  - eapply queues_alive_step; [by apply (c_alive _ Hc)| |exact Hx]. by intros ->.
  - rewrite Em. apply (c_good _ Hc).
Qed.

Lemma calm_same s s' : calm s -> q s' = q s -> wf s' -> accounted th s' -> calm s'.
Proof. intros [] E Hw Ha. split; rewrite ?E; done. Qed.

Lemma calm_step a s s' : calm s -> internal a -> step a s = Some s' -> calm s'.
Proof.
  intros Hc Ha Hs. assert (under th a) as Hu by (destruct a as [[]| | | |]; done).
  assert (wf s') as Hw by (eapply wf_step; [apply Hc|exact Hs]).
  assert (accounted th s') as Hac by (eapply accounted_step; [exact HqueueNum|apply Hc..|exact Hu|exact Hs]).
  unfold ServerSystem.step in Hs. rewrite (c_crashed _ Hc) in Hs. destruct a as [a|i th'|i th'|i|j out r th'].
  - destruct (takes a (q s)); [done|]. apply bind_Some in Hs as (x & Hx & [= <-]). eapply calm_queue; [done..| |exact Hx|done|done].
    by destruct a.
  - apply bind_Some in Hs as (m & _ & Hs). apply bind_Some in Hs as (g & _ & Hs). destruct g; [|done..].
    destruct (convert m); [injection Hs as <-; by apply (calm_same s)|..];
      apply bind_Some in Hs as (x & Hx & [= <-]); by eapply (calm_queue s x _ (OpQueue.Work i)).
  - apply bind_Some in Hs as (g & _ & Hs). destruct g as [|p [|k ks]|p k ks old]; try done; case_match; injection Hs as <-; by apply (calm_same s).
  - apply bind_Some in Hs as (g & _ & Hs). destruct g as [|p [|k ks]|p k ks old]; try done.
    apply bind_Some in Hs as (x & Hx & [= <-]). by eapply (calm_queue s x _ (OpQueue.Work i)).
  - apply bind_Some in Hs as (p & _ & [= <-]). by apply (calm_same s).
Qed.

Lemma reach_calm a s s' (P : t -> Prop) : calm s -> internal a -> step a s = Some s' -> (calm s' -> reach s' P) -> reach s P.
Proof. intros Hc Ha Hs HP. eapply reach_step; [done..|]. apply HP. by eapply calm_step. Qed.

(** ** A worker passes its Gets and hands its request over *)

Lemma step_calm a s : calm s -> step a s =
  match a with
  | Queue a => if takes a (q s) then None else x ← qstep a (q s); Some (set_q x s)
  | Take i th => take_step partial_copy readStatFlag hash queueNum queueMaxCapacity i th s
  | Gate i th => gate_step i th s
  | Submit i => submit_step partial_copy readStatFlag hash queueNum queueMaxCapacity i s
  | Complete j out r th => complete_step j out r th s
  end.
Proof. intros Hc. unfold ServerSystem.step. by rewrite (c_crashed _ Hc). Qed.

(** Past the Gets: the queues have not moved. *)
Definition passed (i : nat) (p : pending) (s s' : t) : Prop :=
  calm s' /\ q s' = q s /\ inflight s' = [] /\ answered s' = answered s /\ gates s' = <[i := Adding p []]> (gates s).

Lemma passed_from i p s s1 s' g : q s1 = q s -> answered s1 = answered s -> gates s1 = <[i := g]> (gates s) ->
  passed i p s1 s' -> passed i p s s'.
Proof.
  intros E1 E2 E3 (Hc & F1 & F2 & F3 & F4). split; [done|]. split; [congruence|]. split; [done|]. split; [congruence|].
  by rewrite F4, E3, list_insert_insert_eq.
Qed.

Lemma gate_waits i p k ks old s : calm s -> inflight s = [] -> gates s !! i = Some (Waiting p k ks old) ->
  (forall s', calm s' -> inflight s' = [] -> gates s' !! i = Some (Adding p ks) -> q s' = q s -> answered s' = answered s ->
     gates s' = <[i := Adding p ks]> (gates s) -> reach s' (passed i p s')) ->
  reach s (passed i p s).
Proof.
  intros Hc Hi Hg IH.
  assert (forall s old, calm s -> inflight s = [] -> gates s !! i = Some (Waiting p k ks old) -> passes th k old = true ->
    step (Gate i th) s = Some (set_gate i (Adding p ks) s)) as Hpass.
  { intros s0 o Hc0 Hi0 Hg0 Hp. rewrite step_calm by done. unfold gate_step. rewrite Hg0. cbn. by rewrite Hp. }
  assert (forall s1 g, calm s1 -> q s1 = q s -> answered s1 = answered s -> inflight s1 = [] -> gates s1 = <[i := Waiting p k ks g]> (gates s) ->
    passes th k g = true -> reach s1 (passed i p s)) as Hlast.
  { intros s1 o Hc1 E1 E2 E3 E4 Hp. pose proof (lookup_lt_Some _ _ _ Hg) as Hlt.
    assert (gates s1 !! i = Some (Waiting p k ks o)) as Hg1 by (rewrite E4; by apply list_lookup_insert_eq).
    eapply (reach_calm (Gate i th)); [exact Hc1|done|by eapply Hpass|]. intros Hc2.
    eapply reach_trans; [apply IH; try done|].
    - cbn. rewrite E4, list_insert_insert_eq. by apply list_lookup_insert_eq.
    - cbn. by rewrite E4, list_insert_insert_eq.
    - intros s' Hs'. apply reach_here. eapply passed_from; [..|exact Hs']; [done..|]. cbn. by rewrite E4, list_insert_insert_eq. }
  destruct (passes th k old) eqn:Ep; [apply (Hlast s old); [done..|by rewrite list_insert_id|done]|].
  eapply (reach_calm (Gate i th)); [exact Hc|done|rewrite step_calm by done; unfold gate_step; rewrite Hg; cbn; by rewrite Ep|].
  intros Hc1. eapply Hlast; [done..|]. by apply passes_now.
Qed.

Lemma gate_passes i p ks s : calm s -> inflight s = [] -> gates s !! i = Some (Adding p ks) -> reach s (passed i p s).
Proof.
  revert s. induction ks as [|k ks IH]; intros s Hc Hi Hg.
  { apply reach_here. split; [done|]. by rewrite list_insert_id. }
  pose proof (lookup_lt_Some _ _ _ Hg) as Hlt. destruct (enabled th k) eqn:He.
  - eapply (reach_calm (Gate i th)); [exact Hc|done|rewrite step_calm by done; unfold gate_step; rewrite Hg; cbn; by rewrite He|].
    intros Hc1. eapply reach_trans; [eapply gate_waits; [done..|cbn; by apply list_lookup_insert_eq|]|].
    + intros s' Hc' Hi' Hg' _ _ _. by apply IH.
    + intros s' Hs'. apply reach_here. eapply passed_from; [..|exact Hs']; done.
  - eapply (reach_calm (Gate i th)); [exact Hc|done|rewrite step_calm by done; unfold gate_step; rewrite Hg; cbn; by rewrite He|].
    intros Hc1. eapply reach_trans; [apply IH; [done..|cbn; by apply list_lookup_insert_eq]|].
    intros s' Hs'. apply reach_here. eapply passed_from; [..|exact Hs']; done.
Qed.

Lemma request_passes i g p ks s : calm s -> inflight s = [] -> gates s !! i = Some g -> gate_req g = Some (p, ks) ->
  reach s (passed i p s).
Proof.
  intros Hc Hi Hg Hr. destruct g as [|p' ks'|p' k ks' old]; [done|..]; cbn in Hr; injection Hr as -> ->; [by eapply gate_passes|].
  eapply gate_waits; [done..|]. intros s' Hc' Hi' Hg' _ _ _. by eapply gate_passes.
Qed.

(** How far a worker is from dealing. *)
Definition phase (l : OpQueue.lane) : nat :=
  match OpQueue.worker l with
  | OpQueue.InWait _ => 4
  | OpQueue.Dealing => if ClientOpQueue.Empty (OpQueue.deal l) then 4 else 0
  | OpQueue.Locking => 3 | OpQueue.AtLoop => 2 | OpQueue.AtEmpty => 1 | OpQueue.Finished => 0
  end.
Definition rank (l : OpQueue.lane) : nat := 5 * length (todo l) + phase l.

Lemma phase_le l : (phase l <= 4)%nat.
Proof. unfold phase. destruct (OpQueue.worker l); try destruct (ClientOpQueue.Empty _); lia. Qed.

(** Lane [i] got nearer to its end, and nothing else moved. *)
Definition nearer (i : nat) (s s' : t) : Prop :=
  calm s' /\ inflight s' = [] /\ only i s s' /\
  exists l l', OpQueue.lanes (q s) !! i = Some l /\ OpQueue.lanes (q s') !! i = Some l' /\ (rank l' < rank l)%nat.

Lemma pop_todo l m ts p rest : OpQueue.pop_deal (OpQueue.deal l) = Some (m, ts, p, rest) ->
  ClientOpQueue.reqQueue (OpQueue.deal l) = m :: ClientOpQueue.reqQueue rest.
Proof.
  unfold OpQueue.pop_deal. destruct (ClientOpQueue.reqQueue (OpQueue.deal l)), (ClientOpQueue.tsQueue (OpQueue.deal l)),
    (ClientOpQueue.period (OpQueue.deal l)); try done. by intros [= <- <- <- <-].
Qed.

Lemma can_handle s i m l : calm s -> front i (q s) = Some m -> OpQueue.lanes (q s) !! i = Some l ->
  ((exists r, convert m = Converted r) -> OpQueue.copyupFlag l = false) ->
  exists x', qstep (OpQueue.Work i) (q s) = Some x'.
Proof.
  intros Hc Hf Hl Hcf. unfold OpQueue.step. rewrite (c_crashed _ Hc). cbn. unfold OpQueue.OpHandlerThread. rewrite Hl. cbn.
  pose proof (front_dealing _ _ _ _ Hl Hf) as [Hw He]. rewrite Hw, He. unfold front in Hf. rewrite Hl in Hf. cbn in Hf.
  rewrite Hw in Hf. apply bind_Some in Hf as ([[[m' ts] p] rest] & Hp & [= ->]). rewrite Hp. cbn.
  destruct (convert m); [rewrite Hcf by by eexists|..]; by eexists.
Qed.

(** The lane after its message was handled. *)
Lemma handled_nearer s s' i m x' : front i (q s) = Some m -> qstep (OpQueue.Work i) (q s) = Some x' -> q s' = x' ->
  calm s' -> inflight s' = [] -> (forall j, j <> i -> gates s' !! j = gates s !! j) -> nearer i s s'.
Proof.
  intros Hf Hx E Hc Hi Hg. destruct (handle_step _ _ _ _ _ _ _ _ _ Hf Hx) as (l & l' & e & cf & Hl & El & He & El' & Hp & Hsub & _).
  split; [done|]. split; [done|]. split.
  - split; [by rewrite E|]. intros j Hj. split; [|by apply Hg]. by rewrite E, El, list_lookup_insert_ne.
  - exists l, l'. split; [done|]. split; [rewrite E, El; apply list_lookup_insert_eq; by eapply lookup_lt_Some|].
    unfold rank. pose proof (phase_le l'). apply pop_todo in Hp. unfold todo. rewrite Hp. rewrite El'. cbn [OpQueue.deal OpQueue.queue].
    cbn [app length]. rewrite !length_app. unfold phase at 1. cbn. destruct (ClientOpQueue.Empty _); lia.
Qed.

Lemma hand_over i p s : calm s -> inflight s = [] -> gates s !! i = Some (Adding p []) -> reach s (nearer i s).
Proof.
  intros Hc Hi Hg. destruct (wf_gates _ _ _ _ _ (c_wf _ Hc) _ _ _ _ Hg eq_refl) as (Hf & (r & Hr & _) & _).
  assert (forall s1 l, calm s1 -> inflight s1 = [] -> gates s1 = gates s -> front i (q s1) = Some (p_op p) ->
    OpQueue.lanes (q s1) !! i = Some l -> OpQueue.copyupFlag l = false -> reach s1 (nearer i s1)) as Hgo.
  { intros s1 l Hc1 Hi1 E1 Hf1 Hl1 Hcf. destruct (can_handle s1 i (p_op p) l Hc1 Hf1 Hl1) as [x' Hx]; [done|].
    eapply (reach_calm (Submit i)); [exact Hc1|done|rewrite step_calm by done; unfold submit_step; rewrite E1, Hg; cbn; by rewrite Hx|].
    intros Hc2. eapply (reach_calm (Complete 0 (fun _ => []) 0 th)); [exact Hc2|done|rewrite step_calm by done; unfold complete_step; cbn; by rewrite Hi1|].
    intros Hc3. apply reach_here. eapply handled_nearer; [exact Hf1|exact Hx|done|exact Hc3|done|].
    intros j Hj. cbn. by apply list_lookup_insert_ne. }
  destruct (lookup_lt_is_Some_2 (OpQueue.lanes (q s)) i) as [l Hl].
  { rewrite (wf_lanes _ _ _ _ _ (c_wf _ Hc)), <- (wf_len _ _ _ _ _ (c_wf _ Hc)). by eapply lookup_lt_Some. }
  destruct (OpQueue.copyupFlag l) eqn:Ecf; [|by eapply Hgo].
  pose proof (front_dealing _ _ _ _ Hl Hf) as [Hw He]. pose proof (lookup_lt_Some _ _ _ Hl) as Hlt.
  eapply (reach_calm (Queue (OpQueue.EndCopyup i))); [exact Hc|done|rewrite step_calm by done; cbn; unfold OpQueue.step; rewrite (c_crashed _ Hc); cbn;
    unfold OpQueue.copyup_done; rewrite Hl; cbn; by rewrite Ecf|].
  intros Hc1. eapply reach_trans; [eapply Hgo; [exact Hc1|done|done| |cbn; by apply list_lookup_insert_eq|done]|].
  - unfold front in *. cbn. rewrite list_lookup_insert_eq by done. rewrite Hl in Hf. exact Hf.
  - intros s' (Hc' & Hi' & Ho & l1 & l2 & H1 & H2 & H3). apply reach_here. split; [done|]. split; [done|]. split.
    + eapply only_trans; [|exact Ho]. split; [done|]. intros j Hj. cbn. by rewrite list_lookup_insert_ne.
    + exists l, l2. split; [done|]. split; [done|]. cbn in H1. rewrite list_lookup_insert_eq in H1 by done. injection H1 as <-. exact H3.
Qed.

(** ** One lane to its end *)

Lemma work_nearer i l s : calm s -> inflight s = [] -> OpQueue.lanes (q s) !! i = Some l -> front i (q s) = None -> todo l <> [] ->
  reach s (nearer i s).
Proof.
  intros Hc Hi Hl Hf Hne.
  assert (forall x' l', qstep (OpQueue.Work i) (q s) = Some x' -> OpQueue.lanes x' = <[i := l']> (OpQueue.lanes (q s)) ->
    OpQueue.submitted x' = OpQueue.submitted (q s) -> (rank l' < rank l)%nat -> reach s (nearer i s)) as Hgo.
  { intros x' l' Hx El Es Hr. eapply (reach_calm (Queue (OpQueue.Work i))); [exact Hc|done|rewrite step_calm by done; cbn; rewrite Hf; cbn in Hx; by rewrite Hx|].
    intros Hc'. apply reach_here. split; [done|]. split; [done|]. split.
    - split; [done|]. intros j Hj. cbn. by rewrite El, list_lookup_insert_ne.
    - exists l, l'. split; [done|]. split; [|done]. cbn. rewrite El. apply list_lookup_insert_eq. by eapply lookup_lt_Some. }
  assert (forall p, qstep (OpQueue.Work i) (q s) = Some (OpQueue.set_lane i (OpQueue.at_pc p l) (q s)) ->
    (phase (OpQueue.at_pc p l) < phase l)%nat -> reach s (nearer i s)) as Hpc.
  { intros p Hx Hr. eapply Hgo; [exact Hx|done|done|]. unfold rank. change (todo (OpQueue.at_pc p l)) with (todo l). lia. }
  destruct (c_alive _ Hc _ _ Hl) as (Hft & Hnf & Hnw). destruct (proj1 (wf_queues _ _ _ _ _ (c_wf _ Hc)) _ _ Hl) as (dd & qd & (Hd & Hd2 & Hd3) & (Hq & _) & _ & Hdd & _).
  assert (forall r, OpQueue.OpHandlerThread partial_copy readStatFlag i (q s) = r -> qstep (OpQueue.Work i) (q s) = r) as Hw.
  { intros r <-. unfold OpQueue.step. by rewrite (c_crashed _ Hc). }
  assert (OpQueue.worker l <> OpQueue.Dealing -> ClientOpQueue.Empty (OpQueue.queue l) = false) as Hnq.
  { intros Hx. apply Hdd in Hx. unfold todo in Hne. rewrite Hd, Hx in Hne. unfold ClientOpQueue.Empty. by destruct (ClientOpQueue.reqQueue (OpQueue.queue l)). }
  unfold OpQueue.OpHandlerThread in Hw. rewrite Hl in Hw. cbn [mbind option_bind] in Hw.
  unfold phase in Hpc. destruct (OpQueue.worker l) as [| | |n| |] eqn:Ew.
  - rewrite (c_held _ Hc) in Hw. eapply Hpc; [by apply Hw|cbn; lia].
  - rewrite Hft in Hw. eapply Hpc; [by apply Hw|cbn; lia].
  - rewrite Hnq in Hw by done. eapply Hgo; [by apply Hw|done|done|]. unfold rank, phase, todo. rewrite Ew. cbn.
    rewrite !length_app. rewrite Hnq by done. lia.
  - destruct n; [|by rewrite Hnq in Hnw by done; specialize (Hnw eq_refl)]. rewrite (c_held _ Hc) in Hw. eapply Hpc; [by apply Hw|cbn; lia].
  - unfold front in Hf. rewrite Hl in Hf. cbn in Hf. rewrite Ew in Hf. destruct (ClientOpQueue.Empty (OpQueue.deal l)) eqn:Ee.
    + eapply Hpc; [by apply Hw|cbn; lia].
    + unfold ClientOpQueue.Empty in Ee. unfold OpQueue.pop_deal in Hf. rewrite Hd, Hd2, Hd3 in Hf. rewrite Hd in Ee. by destruct dd as [|[[? ?] ?] dd].
  - done.
Qed.

Lemma nearer_gates i s s1 s' : q s1 = q s -> (forall j, j <> i -> gates s1 !! j = gates s !! j) -> nearer i s1 s' -> nearer i s s'.
Proof.
  intros Eq Eg (Hc & Hi & Ho & l & l' & H1 & H2 & H3). split; [done|]. split; [done|]. split.
  - eapply only_trans; [|exact Ho]. split; [by rewrite Eq|]. intros j Hj. by rewrite Eq, Eg.
  - exists l, l'. by rewrite <- Eq.
Qed.

Lemma request_nearer i g p ks s : calm s -> inflight s = [] -> gates s !! i = Some g -> gate_req g = Some (p, ks) ->
  reach s (nearer i s).
Proof.
  intros Hc Hi Hg Hr. eapply reach_trans; [by eapply request_passes|]. intros s1 (Hc1 & E1 & Hi1 & _ & E2).
  eapply reach_trans; [apply (hand_over i p); [done..|]|].
  - rewrite E2. apply list_lookup_insert_eq. by eapply lookup_lt_Some.
  - intros s' Hs'. apply reach_here. eapply nearer_gates; [done| |done]. intros j Hj. by rewrite E2, list_lookup_insert_ne.
Qed.

Lemma lane_nearer i l s : calm s -> inflight s = [] -> OpQueue.lanes (q s) !! i = Some l -> todo l <> [] -> reach s (nearer i s).
Proof.
  intros Hc Hi Hl Hne. destruct (front i (q s)) as [m|] eqn:Hf; [|by eapply work_nearer].
  destruct (lookup_lt_is_Some_2 (gates s) i) as [g Hg].
  { rewrite (wf_len _ _ _ _ _ (c_wf _ Hc)), <- (wf_lanes _ _ _ _ _ (c_wf _ Hc)). by eapply lookup_lt_Some. }
  destruct (gate_req g) as [[p ks]|] eqn:Er; [by eapply request_nearer|]. destruct g; [|done..].
  assert (forall r, take_step partial_copy readStatFlag hash queueNum queueMaxCapacity i th s = r -> step (Take i th) s = r) as Ht
    by (intros r <-; by rewrite step_calm). unfold take_step in Ht. rewrite Hf in Ht. cbn [mbind option_bind] in Ht. rewrite Hg in Ht. cbn in Ht.
  destruct (c_good _ Hc _ (calm_front _ _ _ Hc Hf)) as [[[r Em]|Em] _]; rewrite Em in Ht.
  - eapply (reach_calm (Take i th)); [exact Hc|done|by apply Ht|]. intros Hc1.
    eapply reach_trans; [eapply (request_nearer i); [exact Hc1|done|cbn; apply list_lookup_insert_eq; by eapply lookup_lt_Some|done]|].
    intros s' Hs'. apply reach_here. eapply nearer_gates; [..|exact Hs']; [done|]. intros j Hj. cbn. by apply list_lookup_insert_ne.
  - destruct (can_handle s i m l Hc Hf Hl) as [x' Hx]; [intros [r Hr]; by rewrite Em in Hr|].
    eapply (reach_calm (Take i th)); [exact Hc|done|apply Ht; by rewrite Hx|]. intros Hc1. apply reach_here. by eapply handled_nearer.
Qed.

Definition ended (i : nat) (x : OpQueue.t) : Prop := forall l, OpQueue.lanes x !! i = Some l -> todo l = [].

Lemma lane_drains i s : calm s -> inflight s = [] ->
  reach s (fun s' => calm s' /\ inflight s' = [] /\ only i s s' /\ ended i (q s')).
Proof.
  assert (forall n s l, (rank l < n)%nat -> OpQueue.lanes (q s) !! i = Some l -> calm s -> inflight s = [] ->
    reach s (fun s' => calm s' /\ inflight s' = [] /\ only i s s' /\ ended i (q s'))) as Hn.
  { induction n as [|n IH]; intros s0 l Hr Hl Hc Hi; [lia|]. destruct (decide (todo l = [])) as [He|Hne].
    { apply reach_here. split_and!; [done..|]. intros l' Hl'. rewrite Hl in Hl'. by injection Hl' as <-. }
    eapply reach_trans; [by eapply lane_nearer|]. intros s1 (Hc1 & Hi1 & Ho & l0 & l1 & H0 & H1 & Hlt).
    rewrite Hl in H0. injection H0 as <-. eapply reach_trans; [apply (IH s1 l1); [lia|done..]|].
    intros s' (Hc' & Hi' & Ho' & He). apply reach_here. split_and!; [done..| |done]. by eapply only_trans. }
  intros Hc Hi. destruct (OpQueue.lanes (q s) !! i) as [l|] eqn:Hl; [apply (Hn (S (rank l)) s l); [lia|done..]|].
  apply reach_here. split_and!; [done..|]. intros l Hl'. by rewrite Hl in Hl'.
Qed.

Lemma lanes_drain n s : calm s -> inflight s = [] ->
  reach s (fun s' => calm s' /\ inflight s' = [] /\ OpQueue.submitted (q s') = OpQueue.submitted (q s) /\
    forall i, (i < n)%nat -> ended i (q s')).
Proof.
  intros Hc Hi. induction n as [|n IH]; [apply reach_here; split_and!; [done..|lia]|].
  eapply reach_trans; [exact IH|]. intros s1 (Hc1 & Hi1 & Es & He). eapply reach_trans; [by apply (lane_drains n)|].
  intros s' (Hc' & Hi' & [Es' Ho] & He'). apply reach_here. split_and!; [done..|by rewrite Es'|].
  intros i Hin. destruct (decide (i = n)) as [->|Hne]; [done|]. intros l Hl. destruct (Ho i Hne) as [E _]. rewrite E in Hl.
  by apply (He i ltac:(lia)).
Qed.

(** The engine completes what it has. *)
Lemma engine_drains s : calm s -> reach s (fun s' => calm s' /\ inflight s' = [] /\ q s' = q s).
Proof.
  intros Hc. remember (inflight s) as fl eqn:E. revert s Hc E. induction fl as [|p fl IH]; intros s Hc E; [by apply reach_here|].
  eapply (reach_calm (Complete 0 (fun _ => []) 0 th)); [exact Hc|done|rewrite step_calm by done; unfold complete_step; by rewrite <- E|].
  intros Hc1. eapply reach_trans; [apply IH; [exact Hc1|done]|]. intros s' (H1 & H2 & H3). by apply reach_here.
Qed.

(** ** The theorem *)

Context (nd : nat) (qos : Qos.t).

(** C6: if the throttles leave room and do not change, everything is answered.  Take any
    state that a run reaches in which every step saw the same throttles -- a switch turned
    in between can leak what a request holds -- and which has not been told to stop, and in
    which no dispatcher is limiting a write; let the messages convert or overflow their pool
    id (none is refused or throws), their lengths and number fit 64 bits, and the limit of
    every throttle that is on be at least what [queueNum] requests hold of its counter.  Then
    steps of the workers and the engine alone, under these throttles, lead to a state in
    which every message enqueued has been answered, save those dropped for their pool id, no
    request is left anywhere and every counter is back to 0. *)
Theorem server_answers_all (tr : list label) (s : t) (Hu : Forall (under th) tr) (Hns : Queue OpQueue.Stop ∉ tr)
  (Hr : run tr (init queueNum nd qos) = Some s) (Hroom : room (q s)) (Hcr : OpQueue.crashed (q s) = false)
  (Hd : forall d i m b, OpQueue.dispatchers (q s) !! d <> Some (OpQueue.DLimiting i m b))
  (Hgood : forall m, m ∈ messages (q s) -> good m) :
  exists tr' s', Forall internal tr' /\ run tr' s = Some s' /\ messages (q s') = messages (q s) /\
    inflight s' = [] /\ unhandled (q s') = [] /\
    messages (q s) ≡ₚ answered s' ++ dropped (q s') /\
    Forall (fun m => convert m = Overflow) (dropped (q s')) /\
    map rp_op (replies (net s')) = map mosdop_ptr (answered s') /\
    forall k, counter k (cnt (net s')) = 0.
Proof.
  destruct (accounted_run partial_copy readStatFlag hash queueNum queueMaxCapacity HqueueNum th tr _ s
    (wf_init _ _ _ _ nd qos) (accounted_init _ _ _ th nd qos) Hu Hr Hroom) as [Hw Ha].
  assert (alive (q s)) as Hal.
  { eapply queues_alive_run; [|exact Hns|exact Hr]. intros i l [-> _]%lookup_replicate. by split_and!. }
  assert (calm s) as Hc by (split; try done; intros i; by apply OpQueue.held_false).
  destruct (engine_drains s Hc) as (tr1 & s1 & Hi1 & Hr1 & Hc1 & Hf1 & E1).
  destruct (lanes_drain (Z.to_nat queueNum) s1 Hc1 Hf1) as (tr2 & s2 & Hi2 & Hr2 & Hc2 & Hf2 & Es & He).
  assert (messages (q s2) = messages (q s)) as Em by (unfold messages; by rewrite Es, E1).
  assert (unhandled (q s2) = []) as Hun.
  { unfold unhandled. assert (forall ls, (forall l, l ∈ ls -> todo l = []) -> flat_map todo ls = []) as Hnil.
    { induction ls as [|l ls IH]; intros Hl; [done|]. cbn. rewrite (Hl l) by left. apply IH. intros. apply Hl. by right. }
    apply Hnil. intros l [i Hl]%list_elem_of_lookup_1. apply (He i); [|done].
    rewrite <- (wf_lanes _ _ _ _ _ (c_wf _ Hc2)). by eapply lookup_lt_Some. }
  pose proof (messages_wf partial_copy readStatFlag hash queueNum HqueueNum _ (c_wf _ Hc2)) as Hm. rewrite Hf2, Hun in Hm. cbn in Hm. rewrite app_nil_r in Hm.
  exists (tr1 ++ tr2), s2. split; [by apply Forall_app|]. split; [by rewrite system_run_app, Hr1|]. split; [done|]. split; [done|]. split; [done|].
  split; [by rewrite <- Em|]. split.
  { pose proof (wf_dropped _ _ _ _ _ (c_wf _ Hc2)) as Hdr. rewrite Forall_forall in Hdr |- *. intros m Hin. destruct (Hdr m Hin) as [|Ht]; [done|].
    assert (good m) as [[[r Hg]|Hg] _] by (apply (c_good _ Hc2); rewrite Hm; apply elem_of_app; by right); by rewrite Ht in Hg. }
  split; [apply (wf_replies _ _ _ _ _ (c_wf _ Hc2))|]. intros k.
  rewrite (c_accounted _ Hc2 k). unfold owed. rewrite (sumZ_zero _ (answered s2)) by (intros m Hin; by eapply refused_good, calm_answered).
  assert ((if decide (k = Lwt) then if enabled th Lwt then 0 else 0 else 0) = 0) as -> by (by repeat case_match).
  unfold outstanding. rewrite Hf2, (sumZ_zero (gheld th k)); [done|]. intros g [i Hg]%list_elem_of_lookup_1.
  unfold gheld. destruct (gate_req g) as [[p ks]|] eqn:Er; [|done].
  destruct (wf_gates _ _ _ _ _ (c_wf _ Hc2) _ _ _ _ Hg Er) as (Hf & _).
  destruct (lookup_lt_is_Some_2 (OpQueue.lanes (q s2)) i) as [l Hl].
  { rewrite (wf_lanes _ _ _ _ _ (c_wf _ Hc2)), <- (wf_len _ _ _ _ _ (c_wf _ Hc2)). by eapply lookup_lt_Some. }
  destruct (front_todo _ _ _ _ Hl Hf) as [rest Ht].
  rewrite (He i) in Ht; [done| |done]. rewrite <- (wf_lanes _ _ _ _ _ (c_wf _ Hc2)). by eapply lookup_lt_Some.
Qed.

End progress.
End ServerProgress.

Module ServerProgressExamples.
Import NetworkModule NetworkModuleExamples ServerSystem ServerSystemExamples ServerProgress.

(** Two workers, 8 KiB for each. *)
Definition wide : throttles :=
  {| saOpThrottle := 5000; writeOpThrottle := 10; readOpThrottle := 0; writeIopsThrottle := 10;
     writeBWThrottle := 16; readBWThrottle := 100; isGc := 1 |}.
Definition each (k : kind) : Z := match k with WriteBW => 8 | _ => 1 end.

(** Two writes are queued; the worker of one is between two Gets. *)
Definition start : list label :=
  [Queue (OpQueue.Dispatch 0 (write 1) 1 1); Queue (OpQueue.Dispatch 0 (write 2) 2 2); Queue (OpQueue.Work 1);
   Queue (OpQueue.Work 1); Queue (OpQueue.Work 1); Take 1 wide; Gate 1 wide; Gate 1 wide].
#[local] Abbreviation go tr := (@ServerSystem.run le_ints copied false OpQueueExamples.hash 2 10 tr (init 2 1 OpQueueExamples.unlimited)).

Lemma server_answers_all_witness :
  exists s tr s', go start = Some s /\ length (messages (q s)) = 2%nat /\
    @ServerSystem.run le_ints copied false OpQueueExamples.hash 2 10 tr s = Some s' /\
    inflight s' = [] /\ unhandled (q s') = [].
Proof.
  destruct (go start) as [s|] eqn:E; [|vm_compute in E; discriminate E].
  assert (option_map (fun s => (messages (q s), OpQueue.crashed (q s), OpQueue.dispatchers (q s))) (go start) =
    Some ([write 1; write 2], false, [OpQueue.DIdle])) as Hx by (vm_compute; reflexivity).
  rewrite E in Hx. injection Hx as H1 H2 H3.
  assert (forall m, m ∈ messages (q s) -> m = write 1 \/ m = write 2) as Hm.
  { rewrite H1. intros m Hi. apply elem_of_cons in Hi as [->|Hi]; [left; reflexivity|]. apply elem_of_cons in Hi as [->|Hi]; [right; reflexivity|].
    destruct (not_elem_of_nil _ Hi). }
  destruct (@server_answers_all le_ints copied false OpQueueExamples.hash 2 10 ltac:(reflexivity) wide each) with
    (nd := 1%nat) (qos := OpQueueExamples.unlimited) (tr := start) (s := s) as (tr & s' & _ & Hr & _ & Hi & Hu & _).
  - intros k. destruct k; vm_compute; discriminate.
  - intros k Hk. destruct k; try discriminate Hk; vm_compute; split; discriminate.
  - repeat (constructor; [first [reflexivity|exact I]|]). constructor.
  - intros Hin. repeat (apply elem_of_cons in Hin as [Hin|Hin]; [discriminate Hin|]). destruct (not_elem_of_nil _ Hin).
  - exact E.
  - unfold ServerSystem.room. rewrite H1. split; [|split; vm_compute; reflexivity].
    rewrite <- H1. intros m Hin. destruct (Hm m Hin) as [->| ->]; vm_compute; discriminate.
  - exact H2.
  - intros d i m b. rewrite H3. destruct d as [|d]; [discriminate|]. discriminate.
  - intros m Hin. split.
    + left. destruct (Hm m Hin) as [->| ->]; eexists; vm_compute; reflexivity.
    + intros k _. destruct (Hm m Hin) as [->| ->]; destruct k; vm_compute; discriminate.
  - exists s, tr, s'. split; [reflexivity|]. split; [rewrite H1; reflexivity|]. split; [exact Hr|]. split; [exact Hi|exact Hu].
Defined.
End ServerProgressExamples.
