(* ===== verification/OpEncode.v ===== *)
(** * [network_module.cpp]: what the engine writes into a reply

    The functions [OSA_Encode*] store a result in the [outdata] of one operation
    of the client's message, in Ceph's wire format, from which the client decodes
    it.  The encodings of [bool] and of [obj_list_snap_response_t] are Ceph's and
    stay parameters. *)

From S2P Require Import Prelude CStr Encoding MsgModule Throttle NetworkModule.
Import SaDef.

Module OpEncode.
Import NetworkModule.

(** [SaStr]: a pointer and a length. *)
Record SaStr := { s_len : Z; s_buf : option bytes }.

(** [std::string_view(s.buf, s.len)], [string(s.buf, s.len)] *)
Definition view (s : SaStr) : bytes := take (Z.to_nat (s_len s)) (default [] (s_buf s)).

Record SaBatchKeys := { k_keys : list SaStr; nums : Z }.
Record SaBatchKv := { kv_keys : list SaStr; kv_values : list SaStr; kvNum : Z }.

(** [p[j]] for the pointers of a batch. *)
Definition nth_str (l : list SaStr) (j : nat) : SaStr := default {| s_len := 0; s_buf := None |} (l !! j).
(** The pairs the loops over [kvNum] visit. *)
Definition kvs (b : SaBatchKv) : list (SaStr * SaStr) :=
  map (fun j => (nth_str (kv_keys b) j, nth_str (kv_values b) j)) (seq 0 (Z.to_nat (kvNum b))).
Definition pairs (b : SaBatchKv) : list (bytes * bytes) := map (fun '(k, v) => (view k, view v)) (kvs b).

Record CloneInfo := { c_cloneid : Z; c_objSize : Z; c_snaps : list Z; c_overlaps : list (Z * Z) }.
Record ObjSnaps := { o_seq : Z; cloneInfos : list CloneInfo }.
(** [clone_info] and [obj_list_snap_response_t] of Ceph *)
Record clone_info := { ci_cloneid : Z; ci_size : Z; ci_snaps : list Z; ci_overlap : list (Z * Z) }.
Record snap_response := { resp_seq : Z; clones : list clone_info }.

Section encode.
Context `{CephInts} (enc_bool : bool -> bytes) (enc_snaps : snap_response -> bytes).

Definition set_outdata (d : bytes) (o : OSDOp) : OSDOp :=
  {| osd_op := osd_op o; indata := indata o; outdata := d; rval := rval o |}.
Definition set_rval (r : Z) (o : OSDOp) : OSDOp :=
  {| osd_op := osd_op o; indata := indata o; outdata := outdata o; rval := r |}.

Definition set_ops (l : list OSDOp) (m : MOSDOp) : MOSDOp :=
  {| mosdop_ptr := mosdop_ptr m; get_tid := get_tid m; get_snapid := get_snapid m; get_pool := get_pool m;
     get_seq := get_seq m; m_seed := m_seed m; get_snap_seq := get_snap_seq m; get_snaps := get_snaps m;
     get_oid := get_oid m; ops := l |}.

(** [mosdop->ops[i]] rewritten by [f], when [(uint32_t)i < ops.size()]. *)
Definition on_op (i : Z) (f : OSDOp -> OSDOp) (m : MOSDOp) : MOSDOp :=
  if len (ops m) <=? u32 i then m else set_ops (alter f (Z.to_nat (u32 i)) (ops m)) m.

(** A null argument makes every function return without effect. *)
Definition with_arg {A} (a : option A) (op : option MOSDOp) (f : A -> MOSDOp -> MOSDOp) : option MOSDOp :=
  match op, a with Some m, Some x => Some (f x m) | _, _ => op end.

Definition append (d : bytes) (o : OSDOp) : OSDOp := set_outdata (outdata o ++ d) o.

Definition SetOpResult (i ret : Z) (op : option MOSDOp) : option MOSDOp :=
  on_op i (set_rval ret) <$> op.

(** No bound test: [cnt] past the end is undefined, [None] here. *)
Definition ProcessBuf (buf : option bytes) (n cnt : Z) (p : option MOSDOp) : option (option MOSDOp) :=
  match p, buf with
  | Some m, Some b =>
      _ ← ops m !! Z.to_nat cnt;
      Some (Some (set_ops (alter (append (enc_str (take (Z.to_nat n) b))) (Z.to_nat cnt) (ops m)) m))
  | _, _ => Some p
  end.

Definition EncodeOmapGetkeys (batchKeys : option SaBatchKeys) (i : Z) (op : option MOSDOp) : option MOSDOp :=
  with_arg batchKeys op (fun b =>
    let bl := concat (map (fun j => enc_str (view (nth_str (k_keys b) j))) (seq 0 (Z.to_nat (nums b)))) in
    on_op i (append (enc_u32 (nums b) ++ bl ++ enc_bool false))).

(** A key or value is encoded only when its pointer and its length are not 0. *)
Definition enc_nonempty (s : SaStr) : bytes :=
  match s_buf s with
  | Some _ => if s_len s =? 0 then [] else enc_str (view s)
  | None => []
  end.

Definition EncodeOmapGetvals (KVs : option SaBatchKv) (i : Z) (op : option MOSDOp) : option MOSDOp :=
  with_arg KVs op (fun b =>
    let bl := concat (map (fun '(k, v) => enc_nonempty k ++ enc_nonempty v) (kvs b)) in
    on_op i (append (enc_u32 (kvNum b) ++ bl ++ enc_bool false))).

Definition EncodeOmapGetvalsbykeys (keyValue : option SaBatchKv) (i : Z) (op : option MOSDOp) : option MOSDOp :=
  with_arg keyValue op (fun b => on_op i (append (enc_map enc_str (smap_of (pairs b))))).

Definition EncodeRead (opType : OsdOp) (offset length : Z) (buf : option bytes) (bufLen i : Z)
    (op : option MOSDOp) : option MOSDOp :=
  with_arg buf op (fun b =>
    let data := take (Z.to_nat bufLen) b in
    on_op i (append (match opType with
                     | CEPH_OSD_OP_SPARSE_READ =>
                         enc_list (fun '(o, l) => enc_u64 o ++ enc_u64 l) [(offset, length)] ++ enc_str data
                     | _ => data
                     end))).

Definition EncodeXattrGetXattr (keyValue : option SaBatchKv) (i : Z) (op : option MOSDOp) : option MOSDOp :=
  with_arg keyValue op (fun b => on_op i (set_outdata (concat (map snd (pairs b))))).

Definition EncodeXattrGetXattrs (keyValue : option SaBatchKv) (i : Z) (op : option MOSDOp) : option MOSDOp :=
  with_arg keyValue op (fun b => on_op i (append (enc_map enc_str (smap_of (pairs b))))).

Definition EncodeGetOpstat (psize ptime i : Z) (op : option MOSDOp) : option MOSDOp :=
  on_op i (append (enc_u64 psize ++ enc_u64 (u64 ptime))) <$> op.

Definition clone_of (c : CloneInfo) : clone_info :=
  {| ci_cloneid := c_cloneid c; ci_size := c_objSize c; ci_snaps := c_snaps c; ci_overlap := c_overlaps c |}.

(** The response: every clone but the last one, and the last one as the head. *)
Definition snap_resp (l : list CloneInfo) (last : CloneInfo) : snap_response :=
  {| resp_seq := match List.rev l with c :: _ => c_cloneid c | [] => 0 end;
     clones := map clone_of l ++
               [{| ci_cloneid := u64 (-2); ci_size := c_objSize last; ci_snaps := []; ci_overlap := [] |}] |}.

Definition EncodeListSnaps (objSnaps : option ObjSnaps) (i : Z) (op : option MOSDOp) : option MOSDOp :=
  with_arg objSnaps op (fun b m =>
    match List.rev (cloneInfos b) with
    | [] => m
    | last :: l => on_op i (append (enc_snaps (snap_resp (List.rev l) last))) m
    end).

(** *** What the engine calls: [osa.cpp] hands the message on *)
Definition OSA_ProcessBuf (buf : option bytes) (n cnt : Z) (p : option MOSDOp) := ProcessBuf buf n cnt p.
Definition OSA_EncodeOmapGetkeys (batchKeys : option SaBatchKeys) (i : Z) (p : option MOSDOp) := EncodeOmapGetkeys batchKeys i p.
Definition OSA_EncodeOmapGetvals (KVs : option SaBatchKv) (i : Z) (p : option MOSDOp) := EncodeOmapGetvals KVs i p.
Definition OSA_EncodeOmapGetvalsbykeys (keyValue : option SaBatchKv) (i : Z) (p : option MOSDOp) := EncodeOmapGetvalsbykeys keyValue i p.
Definition OSA_EncodeRead (opType : OsdOp) (offset n : Z) (buf : option bytes) (bufLen i : Z) (p : option MOSDOp) :=
  EncodeRead opType offset n buf bufLen i p.
Definition OSA_SetOpResult (i ret : Z) (p : option MOSDOp) := SetOpResult i ret p.
Definition OSA_EncodeXattrGetxattr (keyValue : option SaBatchKv) (i : Z) (p : option MOSDOp) := EncodeXattrGetXattr keyValue i p.
Definition OSA_EncodeXattrGetxattrs (keyValue : option SaBatchKv) (i : Z) (p : option MOSDOp) := EncodeXattrGetXattrs keyValue i p.
Definition OSA_EncodeGetOpstat (psize ptime i : Z) (p : option MOSDOp) := EncodeGetOpstat psize ptime i p.
Definition OSA_EncodeListSnaps (objSnaps : option ObjSnaps) (i : Z) (p : option MOSDOp) := EncodeListSnaps objSnaps i p.

(** ** Theorems *)

(** [op'] is [op] with [d] appended to the result of its [i]-th operation only. *)
Definition replied (m : MOSDOp) (i : Z) (d : bytes) (op' : option MOSDOp) : Prop :=
  op' = Some (set_ops (alter (append d) (Z.to_nat i) (ops m)) m).

Lemma on_op_in i f m : 0 <= i < 2 ^ 32 -> i < len (ops m) ->
  on_op i f m = set_ops (alter f (Z.to_nat i) (ops m)) m.
Proof.
  intros Hi Hl. unfold on_op. rewrite u32_small by lia. by replace (len (ops m) <=? i) with false by lia.
Qed.

Lemma kvs_length b : 0 <= kvNum b -> len (kvs b) = kvNum b.
Proof. intros Hn. unfold kvs, len. rewrite length_map, length_seq. lia. Qed.

Definition str_ok (s : bytes) : Prop := len s < 2 ^ 32.
Definition kv_ok (p : bytes * bytes) : Prop := len (fst p) < 2 ^ 32 /\ str_ok (snd p).

(** A batch from the engine: a 32-bit count, strings shorter than 2^32. *)
Definition batch_ok (b : SaBatchKv) : Prop := 0 <= kvNum b < 2 ^ 32 /\ Forall kv_ok (pairs b).

Definition nonempty (s : SaStr) : Prop := s_buf s <> None /\ s_len s <> 0.

Lemma enc_nonempty_ok s : nonempty s -> enc_nonempty s = enc_str (view s).
Proof. intros [H1 H2]. unfold enc_nonempty. destruct (s_buf s); [|done]. by replace (s_len s =? 0) with false by lia. Qed.

Lemma dec_pair_str k v q : len k < 2 ^ 32 -> len v < 2 ^ 32 ->
  dec_pair dec_str dec_str ((enc_str k ++ enc_str v) ++ q) = Some (k, v, q).
Proof.
  intros Hk Hv. unfold dec_pair. rewrite <- app_assoc, dec_enc_str by done. cbn. by rewrite dec_enc_str.
Qed.

Lemma smap_pairs_dec b : batch_ok b ->
  dec_map dec_str (enc_map enc_str (smap_of (pairs b))) = Some (smap_of (pairs b), []).
Proof.
  intros [Hn Hf]. destruct (smap_of_ok kv_ok (pairs b) Hf) as (H1 & H2 & H3).
  pose proof (dec_enc_map enc_str dec_str str_ok (smap_of (pairs b)) []) as Hd.
  rewrite app_nil_r in Hd. apply Hd; [intros a q Ha; by apply dec_enc_str|].
  split; [done|]. split; [|done].
  pose proof (kvs_length b ltac:(lia)) as Hl. unfold pairs in *. rewrite length_map in H3.
  unfold len in *. lia.
Qed.

Lemma getvals_dec b r : batch_ok b -> Forall (fun '(k, v) => nonempty k /\ nonempty v) (kvs b) ->
  dec_list (dec_pair dec_str dec_str)
    (enc_u32 (kvNum b) ++ concat (map (fun '(k, v) => enc_nonempty k ++ enc_nonempty v) (kvs b)) ++ r) =
  Some (pairs b, r).
Proof.
  intros [Hn Hf] Hne. pose proof (kvs_length b ltac:(lia)) as Hl.
  assert (map (fun '(k, v) => enc_nonempty k ++ enc_nonempty v) (kvs b) =
          map (fun '(k, v) => enc_str k ++ enc_str v) (pairs b)) as ->.
  { unfold pairs. rewrite map_map. clear -Hne. induction (kvs b) as [|[k v] l IH]; [done|].
    apply Forall_cons in Hne as [[Hk Hv] Hne]. cbn. by rewrite !enc_nonempty_ok, IH. }
  rewrite app_assoc. change (enc_u32 (kvNum b) ++ concat ?x) with (enc_u32 (kvNum b) ++ concat x).
  replace (kvNum b) with (len (pairs b)) by (unfold pairs, len in *; rewrite length_map; lia).
  apply (dec_enc_list (fun '(k, v) => enc_str k ++ enc_str v) (dec_pair dec_str dec_str) kv_ok);
    [|done|unfold pairs, len in *; rewrite length_map; lia].
  intros [k v] q [Hk Hv]. by apply dec_pair_str.
Qed.

Lemma getkeys_dec b r : 0 <= nums b < 2 ^ 32 ->
  (forall j, str_ok (view (nth_str (k_keys b) j))) ->
  dec_list dec_str (enc_u32 (nums b) ++
      concat (map (fun j => enc_str (view (nth_str (k_keys b) j))) (seq 0 (Z.to_nat (nums b)))) ++ r) =
    Some (map (fun j => view (nth_str (k_keys b) j)) (seq 0 (Z.to_nat (nums b))), r).
Proof.
  intros Hn Hk. rewrite app_assoc.
  set (l := map (fun j => view (nth_str (k_keys b) j)) (seq 0 (Z.to_nat (nums b)))).
  assert (len l = nums b) as Hl by (unfold l, len; rewrite length_map, length_seq; lia).
  assert (map (fun j => enc_str (view (nth_str (k_keys b) j))) (seq 0 (Z.to_nat (nums b))) = map enc_str l) as ->
    by (unfold l; by rewrite map_map).
  rewrite <- Hl. apply (dec_enc_list enc_str dec_str str_ok); [intros a q Ha; by apply dec_enc_str| |lia].
  unfold l. apply Forall_map, Forall_true. intros j. apply Hk.
Qed.

(** C11: a client decodes from the reply what the engine handed over: the keys
    of an OMAPGETKEYS, the pairs of an OMAPGETVALS whose keys and values are all
    non-empty, the ordered map of an OMAPGETVALSBYKEYS and of a GETXATTRS, the
    extent and the data of a sparse read, the plain data of any other read.  Only the
    [i]-th operation's result grows.  A null batch or buffer changes nothing, whatever the
    index, nor does any of the functions at an index outside the message. *)
Theorem replies_decode (m : MOSDOp) (i : Z) (Hi : 0 <= i < 2 ^ 31) :
  (forall b, i < len (ops m) -> 0 <= nums b < 2 ^ 32 -> (forall j, str_ok (view (nth_str (k_keys b) j))) ->
     exists d, replied m i d (EncodeOmapGetkeys (Some b) i (Some m)) /\
       dec_list dec_str d =
         Some (map (fun j => view (nth_str (k_keys b) j)) (seq 0 (Z.to_nat (nums b))), enc_bool false)) /\
  (forall b, i < len (ops m) -> batch_ok b ->
     (Forall (fun '(k, v) => nonempty k /\ nonempty v) (kvs b) ->
      exists d, replied m i d (EncodeOmapGetvals (Some b) i (Some m)) /\
        dec_list (dec_pair dec_str dec_str) d = Some (pairs b, enc_bool false)) /\
     exists d, replied m i d (EncodeOmapGetvalsbykeys (Some b) i (Some m)) /\
       replied m i d (EncodeXattrGetXattrs (Some b) i (Some m)) /\
       dec_map dec_str d = Some (smap_of (pairs b), [])) /\
  (forall off n buf bufLen, i < len (ops m) -> 0 <= off < 2 ^ 64 -> 0 <= n < 2 ^ 64 -> 0 <= bufLen < 2 ^ 32 ->
     exists d, replied m i d (EncodeRead CEPH_OSD_OP_SPARSE_READ off n (Some buf) bufLen i (Some m)) /\
       exists d', dec_list (dec_pair dec_u64 dec_u64) d = Some ([(off, n)], d') /\
         dec_str d' = Some (take (Z.to_nat bufLen) buf, [])) /\
  (forall t off n buf bufLen, i < len (ops m) -> t <> CEPH_OSD_OP_SPARSE_READ ->
     replied m i (take (Z.to_nat bufLen) buf) (EncodeRead t off n (Some buf) bufLen i (Some m))) /\
  (forall t off n bufLen,
     EncodeOmapGetkeys None i (Some m) = Some m /\ EncodeOmapGetvals None i (Some m) = Some m /\
     EncodeOmapGetvalsbykeys None i (Some m) = Some m /\ EncodeXattrGetXattr None i (Some m) = Some m /\
     EncodeXattrGetXattrs None i (Some m) = Some m /\ EncodeRead t off n None bufLen i (Some m) = Some m) /\
  (forall bk bv t off n buf bufLen ret size time, len (ops m) <= i ->
     EncodeOmapGetkeys bk i (Some m) = Some m /\ EncodeOmapGetvals bv i (Some m) = Some m /\
     EncodeOmapGetvalsbykeys bv i (Some m) = Some m /\ EncodeXattrGetXattr bv i (Some m) = Some m /\
     EncodeXattrGetXattrs bv i (Some m) = Some m /\ EncodeRead t off n buf bufLen i (Some m) = Some m /\
     EncodeGetOpstat size time i (Some m) = Some m /\ SetOpResult i ret (Some m) = Some m).
Proof.
  split; [|split; [|split; [|split; [|split]]]].
  - intros b Hl Hn Hk. eexists. split; [unfold replied, EncodeOmapGetkeys, with_arg; rewrite on_op_in by lia; reflexivity|].
    by apply getkeys_dec.
  - intros b Hl Hb. split.
    + intros Hne. eexists. split; [unfold replied, EncodeOmapGetvals, with_arg; rewrite on_op_in by lia; reflexivity|].
      by apply getvals_dec.
    + eexists. split; [unfold replied, EncodeOmapGetvalsbykeys, with_arg; rewrite on_op_in by lia; reflexivity|].
      split; [unfold replied, EncodeXattrGetXattrs, with_arg; rewrite on_op_in by lia; reflexivity|].
      by apply smap_pairs_dec.
  - intros off n buf bufLen Hl Ho Hn Hbl.
    eexists. split; [unfold replied, EncodeRead, with_arg; rewrite on_op_in by lia; reflexivity|].
    eexists. split.
    + apply (dec_enc_list (fun '(o, l) => enc_u64 o ++ enc_u64 l) (dec_pair dec_u64 dec_u64)
        (fun p => 0 <= fst p < 2 ^ 64 /\ 0 <= snd p < 2 ^ 64) [(off, n)]); [|by apply Forall_singleton|done].
      intros [a c] q [Ha Hc]. unfold dec_pair. rewrite <- app_assoc, dec_enc_u64 by done. cbn.
      by rewrite dec_enc_u64.
    + pose proof (dec_enc_str (take (Z.to_nat bufLen) buf) []) as Hd. rewrite app_nil_r in Hd.
      apply Hd. unfold len. rewrite length_take. lia.
  - intros t off n buf bufLen Hl Ht. unfold replied, EncodeRead, with_arg. rewrite on_op_in by lia. by destruct t.
  - done.
  - intros bk bv t off n buf bufLen ret size time Hl.
    assert (forall f, on_op i f m = m) as Ho.
    { intros f. unfold on_op. rewrite u32_small by lia. by replace (len (ops m) <=? i) with true by lia. }
    unfold EncodeOmapGetkeys, EncodeOmapGetvals, EncodeOmapGetvalsbykeys, EncodeXattrGetXattr, EncodeXattrGetXattrs,
      EncodeRead, EncodeGetOpstat, SetOpResult, with_arg. cbn.
    rewrite !Ho. destruct bk, bv, buf; by rewrite ?Ho.
Qed.

(** The strings of a batch that are encoded. *)
Definition present (s : SaStr) : list bytes :=
  match s_buf s with Some _ => if s_len s =? 0 then [] else [view s] | None => [] end.

Lemma enc_nonempty_present s : enc_nonempty s = concat (map enc_str (present s)).
Proof.
  unfold enc_nonempty, present. destruct (s_buf s); [|done]. destruct (s_len s =? 0); [done|].
  cbn. by rewrite app_nil_r.
Qed.

Lemma dec_few_pairs n ss r : Forall str_ok ss -> (length ss < 2 * n)%nat -> (length r < 4)%nat ->
  dec_many (dec_pair dec_str dec_str) n (concat (map enc_str ss) ++ r) = None.
Proof.
  intros Hs. revert ss Hs. induction n as [|n IH]; intros ss Hs Hl Hr; [lia|]. cbn.
  assert (dec_str r = None) as Hd by (unfold dec_str; by rewrite dec_u32_short).
  unfold dec_pair. destruct ss as [|a [|b ss]]; cbn.
  - by rewrite Hd.
  - apply Forall_cons in Hs as [Ha _]. rewrite <- app_assoc, dec_enc_str by done. cbn. by rewrite Hd.
  - apply Forall_cons in Hs as [Ha [Hb Hs]%Forall_cons].
    rewrite <- !app_assoc, dec_enc_str by done. cbn. rewrite dec_enc_str by done. cbn.
    by rewrite IH by (done || cbn in Hl; lia).
Qed.

Lemma getvals_dec_empty b r k v : batch_ok b -> (length r < 4)%nat ->
  (k, v) ∈ kvs b -> s_len k = 0 \/ s_len v = 0 ->
  dec_list (dec_pair dec_str dec_str)
    (enc_u32 (kvNum b) ++ concat (map (fun '(k, v) => enc_nonempty k ++ enc_nonempty v) (kvs b)) ++ r) = None.
Proof.
  intros [Hn Hf] Hr Hkv Hempty. pose proof (kvs_length b ltac:(lia)) as Hlen.
  set (ss := concat (map (fun '(k, v) => present k ++ present v) (kvs b))).
  assert (concat (map (fun '(k, v) => enc_nonempty k ++ enc_nonempty v) (kvs b)) = concat (map enc_str ss)) as ->.
  { unfold ss. clear. induction (kvs b) as [|[k1 v1] l IH]; [done|]. cbn.
    rewrite IH, !enc_nonempty_present, !map_app, !concat_app. by rewrite <- !app_assoc. }
  unfold dec_list. rewrite dec_enc_u32 by done. cbn. rewrite dec_few_pairs; [done| | |done].
  - unfold ss. unfold pairs in Hf. clear -Hf. induction (kvs b) as [|[k1 v1] l IH]; [constructor|].
    cbn in *. apply Forall_cons in Hf as [[Hk Hv] Hf]. apply Forall_app. split; [|by apply IH].
    apply Forall_app; split; unfold present; repeat case_match; repeat constructor; done.
  - assert (forall s, (length (present s) <= 1)%nat /\ (s_len s = 0 -> length (present s) = 0%nat)) as Hp.
    { intros s. unfold present. destruct (s_buf s); [|cbn; split; [lia|done]].
      destruct (s_len s =? 0) eqn:E; cbn; [split; [lia|done]|bprop; split; [lia|done]]. }
    assert (length ss < 2 * length (kvs b))%nat; [|unfold len in Hlen; lia].
    unfold ss. clear -Hkv Hempty Hp.
    assert (forall l, length (concat (map (fun '(k, v) => present k ++ present v) l)) <= 2 * length l)%nat as Hall.
    { induction l as [|[k1 v1] l IH]; [done|]. cbn. rewrite !length_app. destruct (Hp k1), (Hp v1). lia. }
    induction (kvs b) as [|[k1 v1] l IH]; [by apply elem_of_nil in Hkv|].
    cbn. rewrite !length_app. destruct (Hp k1) as [K1 K2], (Hp v1) as [V1 V2]. specialize (Hall l).
    apply elem_of_cons in Hkv as [[= <- <-]|Hkv]; [destruct Hempty as [He|He]|].
    + rewrite (K2 He). lia.
    + rewrite (V2 He). lia.
    + specialize (IH Hkv). lia.
Qed.

(** An OMAPGETVALS with an empty key or value makes a reply the client
    cannot decode: the pair is counted, but the empty string (which Ceph encodes
    as a length of 0) is left out, so the decoder runs out of input. *)
Theorem empty_value_breaks_reply (m : MOSDOp) (i : Z) (b : SaBatchKv)
  (Hi : 0 <= i < 2 ^ 31) (Hl : i < len (ops m)) (Hb : batch_ok b)
  (Hbool : (length (enc_bool false) < 4)%nat)
  (k v : SaStr) (Hkv : (k, v) ∈ kvs b) (Hempty : s_len k = 0 \/ s_len v = 0) :
  exists d, replied m i d (EncodeOmapGetvals (Some b) i (Some m)) /\
    dec_list (dec_pair dec_str dec_str) d = None.
Proof.
  eexists. split; [unfold replied, EncodeOmapGetvals, with_arg; rewrite on_op_in by lia; reflexivity|].
  by apply (getvals_dec_empty b (enc_bool false) k v).
Qed.
End encode.

Definition str (s : string) : SaStr := {| s_len := len (bs s); s_buf := Some (bs s) |}.

Lemma replies_decode_witness :
  let m := NetworkModuleExamples.message (bs "o") [NetworkModuleExamples.osd CEPH_OSD_OP_OMAPGETVALSBYKEYS []] in
  let b := {| kv_keys := [str "k2"; str "k1"]; kv_values := [str "v2"; str "v1"]; kvNum := 2 |} in
  let bool_enc := fun x : bool => if x then bs "1" else bs "0" in
  exists d, replied m 0 d (@EncodeOmapGetvalsbykeys le_ints (Some b) 0 (Some m)) /\
    @dec_map le_ints _ (@dec_str le_ints) d = Some ([(bs "k1", bs "v1"); (bs "k2", bs "v2")], []).
Proof.
  intros m b bool_enc.
  destruct (proj1 (proj2 (@replies_decode le_ints bool_enc m 0 ltac:(lia))) b) as [_ (d & H1 & _ & H2)].
  - reflexivity.
  - split; [vm_compute; split; [discriminate|reflexivity]|].
    repeat (constructor; [split; vm_compute; reflexivity|]). constructor.
  - exists d. split; [exact H1|exact H2].
Defined.

Lemma empty_value_breaks_reply_witness :
  let m := NetworkModuleExamples.message (bs "o") [NetworkModuleExamples.osd CEPH_OSD_OP_OMAPGETVALS []] in
  let b := {| kv_keys := [str "a"; str "b"]; kv_values := [str "1"; str ""]; kvNum := 2 |} in
  exists d, replied m 0 d (@EncodeOmapGetvals le_ints (fun _ => [NUL]) (Some b) 0 (Some m)) /\
    @dec_list le_ints _ (dec_pair (@dec_str le_ints) (@dec_str le_ints)) d = None.
Proof.
  intros m b.
  refine (@empty_value_breaks_reply le_ints (fun _ => [NUL]) m 0 b _ _ _ _ (str "b") (str "") _ _).
  - lia.
  - reflexivity.
  - split; [vm_compute; split; [discriminate|reflexivity]|].
    repeat (constructor; [split; vm_compute; reflexivity|]). constructor.
  - vm_compute. lia.
  - right. left.
  - right. reflexivity.
Defined.
End OpEncode.
