(* ===== verification/ClassApi.v ===== *)
(** * [class_api.cc]: the object-class API on top of the cache engine

    Object classes read and write the object of the running request through these
    functions.  Each builds one [OpRequestOps] and hands a copy of the request to
    the engine; a function that reads lends the engine a fresh [OSDOp] by swapping
    it with the message's operations.  The engine is the parameter [cbFunc], which
    sees the request and may change the operations the message holds; the decoders
    of Ceph types other than strings and integers are parameters too. *)

From S2P Require Import Prelude CStr Encoding MsgModule Throttle NetworkModule OpEncode.
Import SaDef.

Module ClassApi.

(** What a class call works on: [pctx->opReq], [pctx->opId] and the name and
    operations of its message. *)
Record ctx := { opReq : SaOpReq; opId : nat; oid : bytes; msg_ops : list OSDOp }.

(** [cbFunc]: the request and the message's operations to a result and the
    operations afterwards. *)
Definition engine : Type := SaOpReq -> list OSDOp -> Z * list OSDOp.

(** [OSDOp()] *)
Definition osdop0 : OSDOp :=
  {| osd_op := {| op := OTHER_OP 0; op_flags := 0; extent_offset := 0; extent_length := 0; name_len := 0;
                  value_len := 0; cmp_op := 0; cmp_mode := MODE_OTHER 0; class_len := 0; method_len := 0; cls_indata_len := 0;
                  snapid := 0; writesame_offset := 0; writesame_length := 0 |};
     indata := []; outdata := []; rval := 0 |}.

Definition set_ops (l : list OSDOp) (c : ctx) : ctx :=
  {| opReq := opReq c; opId := opId c; oid := oid c; msg_ops := l |}.

(** [SaOpReq opreq = *pOpReq; opreq.vecOps.clear(); opreq.vecOps.push_back(op)] *)
Definition set_vecOps (l : list OpRequestOps) (r : SaOpReq) : SaOpReq :=
  {| vecOps := l; optionType := optionType r; optionLength := optionLength r; opType := opType r;
     req_snapId := req_snapId r; tid := tid r; opsSequence := opsSequence r; ptrMosdop := ptrMosdop r;
     ptId := ptId r; req_poolId := req_poolId r; ts := ts r; snapSeq := snapSeq r; snaps := snaps r;
     exitsCopyUp := exitsCopyUp r; copyupFlag := copyupFlag r; ptVersion := ptVersion r |}.
Definition one_op (o : OpRequestOps) (c : ctx) : SaOpReq := set_vecOps [o] (SaOpReq_copy (opReq c)).

(** A call that writes: the engine works on the message's own operations. *)
Definition submit (cb : engine) (o : OpRequestOps) (c : ctx) : Z * ctx :=
  let '(r, l) := cb (one_op o c) (msg_ops c) in (r, set_ops l c).

(** A call that reads: [ops.swap(ptr->ops)] around the engine; also what the
    lent vector holds afterwards. *)
Definition submit_swapped (cb : engine) (o : OpRequestOps) (c : ctx) : Z * list OSDOp * ctx :=
  let ops := [osdop0] in
  let '(ops, c) := (msg_ops c, set_ops ops c) in
  let '(r, l) := cb (one_op o c) (msg_ops c) in
  let c := set_ops l c in
  let '(ops, c) := (msg_ops c, set_ops ops c) in
  (r, ops, c).

(** [ops[0].outdata] *)
Definition out0 (l : list OSDOp) : bytes := match l with o :: _ => outdata o | [] => [] end.

(** The operation of a call: its code, the object's name, its arguments. *)
Definition call_op (t : OsdOp) (c : ctx) (ks vs : list bytes) : OpRequestOps :=
  MsgModule.push ks vs [] [] [] (MsgModule.set_type t (MsgModule.new_op (oid c))).

(** The same for the calls that keep the rbd identity of the current operation. *)
Definition rbd_op (t : OsdOp) (c : ctx) : OpRequestOps :=
  match vecOps (opReq c) !! opId c with
  | Some cur => {| opSubType := t; objName := objName cur; isRbd := isRbd cur; rbdObjId := rbdObjId cur;
                   inData := None; inDataLen := 0; outDataLen := 0; objOffset := 0; objLength := 0;
                   opFlags := 0; keys := []; values := []; subops := []; u64vals := []; cmpModes := [] |}
  | None => MsgModule.set_type t (MsgModule.new_op [])
  end.

(** A reading call: a negative result of the engine is returned as it is,
    otherwise [k] makes the result from the lent operation's data. *)
Definition reading {A} (cb : engine) (o : OpRequestOps) (c : ctx) (k : Z -> bytes -> Z * option A)
  : Z * option A * ctx :=
  let '(r, l, c) := submit_swapped cb o c in
  if r <? 0 then (r, None, c) else let '(ret, v) := k r (out0 l) in (ret, v, c).

Section api.
Context `{CephInts} (dec_bool : bytes -> option (bool * bytes)) (dec_time : bytes -> option (Z * bytes)).
Context (CEPH_OSD_OP_DELETE : OsdOp) (cbFunc : engine).

(** [alloc]: whether [malloc] gives the copy. *)
Definition cls_getxattr (alloc : bool) (name : bytes) (c : ctx) :=
  reading cbFunc (call_op CEPH_OSD_OP_GETXATTR c [c_str name] []) c
    (fun r d => if alloc then (r, Some d) else (- ENOMEM, None)).

Definition cls_setxattr (name value : bytes) (val_len : Z) (c : ctx) : Z * ctx :=
  submit cbFunc (call_op CEPH_OSD_OP_SETXATTR c [c_str name] [take (Z.to_nat val_len) value]) c.

Definition cls_cxx_create (c : ctx) : Z * ctx := submit cbFunc (call_op CEPH_OSD_OP_CREATE c [] []) c.
Definition cls_cxx_remove (c : ctx) : Z * ctx := submit cbFunc (call_op CEPH_OSD_OP_DELETE c [] []) c.

(** Size and time out of a STAT's data, [-EIO] when they do not decode. *)
Definition dec_stat (d : bytes) : Z * option (Z * Z) :=
  match '(s, d) ← dec_u64 d; '(t, _) ← dec_time d; Some (s, t) with
  | Some st => (0, Some st)
  | None => (- EIO, None)
  end.

Definition cls_cxx_stat (c : ctx) :=
  reading cbFunc (call_op CEPH_OSD_OP_STAT c [] []) c (fun _ => dec_stat).
Definition cls_cxx_stat2 (c : ctx) :=
  reading cbFunc (MsgModule.set_flags 1 (rbd_op CEPH_OSD_OP_STAT c)) c (fun _ => dec_stat).

Definition cls_cxx_read2 (ofs n : Z) (c : ctx) : Z * option bytes * ctx :=
  if (n <=? 0) || (INT_MAX - 2 <=? n) then (- EINVAL, None, c)
  else reading cbFunc (MsgModule.set_out n (MsgModule.set_range (u32 ofs) n (call_op CEPH_OSD_OP_SYNC_READ c [] []))) c
         (fun _ d => (s32 (len d), Some d)).
Definition cls_cxx_read (ofs n : Z) (c : ctx) : Z * option bytes * ctx := cls_cxx_read2 ofs n c.

Definition cls_cxx_write2 (ofs n : Z) (inbl : bytes) (c : ctx) : Z * ctx :=
  submit cbFunc (MsgModule.set_in (Some inbl) (u32 (len inbl))
                   (MsgModule.set_range (u32 ofs) (u32 n) (rbd_op CEPH_OSD_OP_WRITE c))) c.
Definition cls_cxx_write (ofs n : Z) (inbl : bytes) (c : ctx) : Z * ctx := cls_cxx_write2 ofs n inbl c.

Definition cls_cxx_write_full (inbl : bytes) (c : ctx) : Z * ctx :=
  submit cbFunc (MsgModule.set_in (Some inbl) (u32 (len inbl))
                   (MsgModule.set_range 0 (u32 (len inbl)) (call_op CEPH_OSD_OP_WRITEFULL c [] []))) c.

Definition cls_cxx_getxattr (name : bytes) (c : ctx) :=
  reading cbFunc (call_op CEPH_OSD_OP_GETXATTR c [c_str name] []) c (fun _ d => (s32 (len d), Some d)).

Definition cls_cxx_getxattrs (c : ctx) :=
  reading cbFunc (call_op CEPH_OSD_OP_GETXATTRS c [] []) c
    (fun _ d => match dec_map dec_str d with Some (m, _) => (0, Some m) | None => (- EIO, None) end).

Definition cls_cxx_setxattr (name inbl : bytes) (c : ctx) : Z * ctx :=
  submit cbFunc (call_op CEPH_OSD_OP_SETXATTR c [c_str name] [inbl]) c.

(** A container and the [more] flag, with the container's size. *)
Definition dec_vals (d : bytes) : Z * option (list (bytes * bytes) * bool) :=
  match '(m, d) ← dec_map dec_str d; '(more, _) ← dec_bool d; Some (m, more) with
  | Some (m, more) => (s32 (len m), Some (m, more))
  | None => (- EIO, None)
  end.
Definition dec_keys (d : bytes) : Z * option (list bytes * bool) :=
  match '(m, d) ← dec_set d; '(more, _) ← dec_bool d; Some (m, more) with
  | Some (m, more) => (s32 (len m), Some (m, more))
  | None => (- EIO, None)
  end.

Definition cls_cxx_map_get_vals (start_obj filter_prefix : bytes) (max_to_get : Z) (c : ctx) :=
  reading cbFunc (call_op CEPH_OSD_OP_OMAPGETVALS c [bs "start_after"; bs "max_return"; bs "filter_prefix"]
                    [start_obj; to_string max_to_get; filter_prefix]) c (fun _ => dec_vals).
Definition cls_cxx_map_get_all_vals (c : ctx) :=
  reading cbFunc (call_op CEPH_OSD_OP_OMAPGETVALS c [bs "start_after"; bs "max_return"; bs "filter_prefix"]
                    [[]; to_string UINT64_MAX; []]) c (fun _ => dec_vals).
Definition cls_cxx_map_get_keys (start_obj : bytes) (max_to_get : Z) (c : ctx) :=
  reading cbFunc (call_op CEPH_OSD_OP_OMAPGETKEYS c [bs "start_after"; bs "max_return"]
                    [start_obj; to_string max_to_get]) c (fun _ => dec_keys).

Definition cls_cxx_map_read_header (c : ctx) :=
  reading cbFunc (call_op CEPH_OSD_OP_OMAPGETHEADER c [] []) c (fun _ d => (0, Some d)).

Definition cls_cxx_map_get_val (key : bytes) (c : ctx) :=
  reading cbFunc (call_op CEPH_OSD_OP_OMAPGETVALSBYKEYS c [key] []) c
    (fun _ d => match dec_map dec_str d with
                | Some ((_, v) :: _, _) => (0, Some v)
                | Some ([], _) => (- ENOENT, None)
                | None => (- EIO, None)
                end).

Definition cls_cxx_map_set_val (key inbl : bytes) (c : ctx) : Z * ctx :=
  submit cbFunc (call_op CEPH_OSD_OP_OMAPSETVALS c [key] [inbl]) c.
Definition cls_cxx_map_set_vals (m : list (bytes * bytes)) (c : ctx) : Z * ctx :=
  submit cbFunc (call_op CEPH_OSD_OP_OMAPSETVALS c (map fst m) (map snd m)) c.
Definition cls_cxx_map_clear (c : ctx) : Z * ctx := submit cbFunc (call_op CEPH_OSD_OP_OMAPCLEAR c [] []) c.
Definition cls_cxx_map_write_header (inbl : bytes) (c : ctx) : Z * ctx :=
  submit cbFunc (MsgModule.set_in (Some inbl) (u32 (len inbl)) (call_op CEPH_OSD_OP_OMAPSETHEADER c [] [])) c.
Definition cls_cxx_map_remove_key (key : bytes) (c : ctx) : Z * ctx :=
  submit cbFunc (call_op CEPH_OSD_OP_OMAPRMKEYS c [key] []) c.

Definition cls_current_subop_num (c : ctx) : Z := Z.of_nat (opId c).
Definition cls_current_version (c : ctx) : Z := 0.

Lemma dec_map_pairs b r :
  OpEncode.batch_ok b -> Forall (fun '(k, v) => OpEncode.nonempty k /\ OpEncode.nonempty v) (OpEncode.kvs b) ->
  smap_sorted (OpEncode.pairs b) ->
  dec_map dec_str (enc_u32 (OpEncode.kvNum b) ++
    concat (map (fun '(k, v) => OpEncode.enc_nonempty k ++ OpEncode.enc_nonempty v) (OpEncode.kvs b)) ++ r) =
  Some (OpEncode.pairs b, r).
Proof.
  intros Hb Hne Hs. unfold dec_map. rewrite OpEncode.getvals_dec by done. cbn.
  by rewrite (smap_rebuild smap_insert) by (done || apply smap_insert_last).
Qed.
End api.

(** A class call that reads leaves no trace in the client's message: the
    engine is lent one fresh operation and a request that differs from the
    client's in its operation only, the message's own operations are back in
    place afterwards whatever the engine did to the lent one, and a negative
    result of the engine comes back as it is. *)
Theorem reading_restores {A} (cb : engine) (o : OpRequestOps) (c : ctx) (k : Z -> bytes -> Z * option A) :
  exists r l, cb (one_op o c) [osdop0] = (r, l) /\
    vecOps (one_op o c) = [o] /\ SaOpReq_copy (one_op o c) = SaOpReq_copy (opReq c) /\
    reading cb o c k = (if r <? 0 then (r, None, c) else (fst (k r (out0 l)), snd (k r (out0 l)), c)).
Proof.
  destruct (cb (one_op o c) [osdop0]) as [r l] eqn:E. exists r, l. do 3 (split; [done|]).
  unfold reading, submit_swapped. cbn [msg_ops set_ops]. change (one_op o (set_ops [osdop0] c)) with (one_op o c).
  rewrite E. cbn. destruct (r <? 0); [by destruct c|]. destruct (k r (out0 l)). by destruct c.
Qed.

(** ** What the cache engine promises

    The engine is not part of the source.  What the class API relies on is that it answers
    the one operation of the request it is given -- by its code, its object's name and its
    arguments -- from the object it holds, and writes the answer into the first operation of
    the message with the encoders of [OpEncode]. *)

(** An object: its omap in key order, and its data. *)
Record object := { o_omap : list (bytes * bytes); o_data : bytes }.

Definition bytes_ltb (a b : bytes) : bool := match bytes_cmp a b with Lt => true | _ => false end.

(** At most [n] pairs, those after [start] whose keys begin with [prefix]. *)
Definition vals_after (start : bytes) (n : Z) (prefix : bytes) (l : list (bytes * bytes)) : list (bytes * bytes) :=
  take (Z.to_nat n) (List.filter (fun p => bytes_ltb start (fst p) && bytes_eqb (take (length prefix) (fst p)) prefix) l).
Definition vals_of (ks : list bytes) (l : list (bytes * bytes)) : list (bytes * bytes) :=
  filter (fun p => fst p ∈ ks) l.
Definition range_of (off n : Z) (d : bytes) : bytes := take (Z.to_nat n) (drop (Z.to_nat off) d).
(** The value of a key. *)
Fixpoint assoc (k : bytes) (l : list (bytes * bytes)) : option bytes :=
  match l with [] => None | (k', v) :: l' => if bytes_eqb k k' then Some v else assoc k l' end.

(** A batch whose strings are there with their lengths, holding [l]. *)
Definition whole (s : OpEncode.SaStr) : Prop := exists d, OpEncode.s_buf s = Some d /\ OpEncode.s_len s = len d.
Definition holds (b : OpEncode.SaBatchKv) (l : list (bytes * bytes)) : Prop :=
  OpEncode.batch_ok b /\ OpEncode.pairs b = l /\ Forall (fun '(k, v) => whole k /\ whole v) (OpEncode.kvs b).

(** The operations of the message [m] after [f]. *)
Definition answer (m : NetworkModule.MOSDOp) (f : option NetworkModule.MOSDOp -> option NetworkModule.MOSDOp) (l : list OSDOp)
  : list OSDOp := match f (Some (OpEncode.set_ops l m)) with Some m' => NetworkModule.ops m' | None => l end.

Section served.
Context `{CephInts} (enc_bool : bool -> bytes).

Record serves (store : bytes -> object) (cb : engine) : Prop := {
  s_vals r l o start n prefix : vecOps r = [o] -> opSubType o = CEPH_OSD_OP_OMAPGETVALS ->
    keys o = [bs "start_after"; bs "max_return"; bs "filter_prefix"] -> values o = [start; to_string n; prefix] -> 0 <= n < 2 ^ 64 ->
    exists m b, holds b (vals_after start n prefix (o_omap (store (objName o)))) /\
      cb r l = (0, answer m (OpEncode.EncodeOmapGetvals enc_bool (Some b) 0) l);
  s_bykeys r l o : vecOps r = [o] -> opSubType o = CEPH_OSD_OP_OMAPGETVALSBYKEYS ->
    exists m b, holds b (vals_of (keys o) (o_omap (store (objName o)))) /\
      cb r l = (0, answer m (OpEncode.EncodeOmapGetvalsbykeys (Some b) 0) l);
  s_read r l o : vecOps r = [o] -> opSubType o = CEPH_OSD_OP_SYNC_READ ->
    exists m, let d := range_of (objOffset o) (objLength o) (o_data (store (objName o))) in
      cb r l = (0, answer m (OpEncode.EncodeRead CEPH_OSD_OP_SYNC_READ (objOffset o) (objLength o) (Some d) (len d) 0) l)
}.

(** A reading call whose one operation gets [d]. *)
Lemma reading_answered {A} cb o c m f (k : Z -> bytes -> Z * option A) d :
  cb (one_op o c) [osdop0] = (0, answer m f [osdop0]) ->
  OpEncode.replied (OpEncode.set_ops [osdop0] m) 0 d (f (Some (OpEncode.set_ops [osdop0] m))) ->
  reading cb o c k = (fst (k 0 d), snd (k 0 d), c).
Proof.
  intros Hc Hr. destruct (reading_restores cb o c k) as (r & l & E & _ & _ & ->). rewrite Hc in E. injection E as <- <-.
  cbn [Z.ltb Z.compare]. unfold answer. rewrite Hr. cbn [NetworkModule.ops OpEncode.set_ops].
  change (alter (OpEncode.append d) (Z.to_nat 0) [osdop0]) with [OpEncode.append d osdop0]. done.
Qed.

Lemma vals_after_sorted start n prefix l : smap_sorted l -> smap_sorted (vals_after start n prefix l).
Proof.
  intros Hl. assert (forall m (l : list (bytes * bytes)), smap_sorted l -> smap_sorted (take m l)) as Ht.
  { clear. unfold smap_sorted. intros m l. revert m. induction l as [|p l IH]; intros [|m] Hs; cbn; try constructor.
    - apply IH. by apply StronglySorted_inv in Hs as [Hs _].
    - apply StronglySorted_inv in Hs as [_ Hs]. by apply Forall_take. }
  apply Ht. induction Hl as [|p l Hs IH Hf]; cbn; [constructor|]. destruct (_ && _); [|done]. constructor; [exact IH|].
  apply Forall_forall. intros q Hq. rewrite Forall_forall in Hf. apply Hf. apply list_elem_of_In in Hq. apply filter_In in Hq as [Hq _].
  by apply list_elem_of_In.
Qed.

Lemma bytes_lt_irrefl k : ~ bytes_lt k k.
Proof. unfold bytes_lt. induction k as [|x k IH]; [done|]. cbn. by rewrite Nat.compare_refl. Qed.

Lemma vals_of_one k l : smap_sorted l -> vals_of [k] l = match assoc k l with Some v => [(k, v)] | None => [] end.
Proof.
  unfold vals_of. induction 1 as [|[k' v] l Hs IH Hf]; [done|]. cbn [assoc]. rewrite filter_cons. cbn [fst].
  unfold bytes_eqb. case_bool_decide as E.
  - subst k'. rewrite decide_True by by left. f_equal. clear -Hf. induction Hf as [|[k2 v2] l Hlt Hf IH]; [done|].
    rewrite filter_cons, decide_False; [exact IH|]. cbn [fst]. intros [->|[]%not_elem_of_nil]%elem_of_cons. by apply bytes_lt_irrefl in Hlt.
  - rewrite decide_False; [exact IH|]. intros [?|[]%not_elem_of_nil]%elem_of_cons. done.
Qed.

Lemma holds_count b l : holds b l -> OpEncode.kvNum b = len l.
Proof.
  intros ([Hn _] & <- & _). pose proof (OpEncode.kvs_length b ltac:(lia)) as Hl. unfold OpEncode.pairs, len in *. by rewrite length_map.
Qed.

Lemma whole_view s : whole s -> OpEncode.view s = default [] (OpEncode.s_buf s) /\ OpEncode.s_len s = len (OpEncode.view s).
Proof.
  intros (d & E & Hl). assert (OpEncode.view s = d) as ->; [|by rewrite E, Hl].
  unfold OpEncode.view. rewrite E, Hl. cbn. unfold len. by rewrite Nat2Z.id, take_ge.
Qed.

(** Pairs that are not empty are encoded, an empty one is not. *)
Lemma holds_nonempty b l : holds b l -> Forall (fun p => fst p <> [] /\ snd p <> []) l ->
  Forall (fun '(k, v) => OpEncode.nonempty k /\ OpEncode.nonempty v) (OpEncode.kvs b).
Proof.
  intros (_ & <- & Hw). unfold OpEncode.pairs. induction Hw as [|[k v] kvs [Hk Hv] Hw IH]; intros Hl; [constructor|].
  cbn in Hl. apply Forall_cons in Hl as [[Nk Nv] Hl]. constructor; [|by apply IH].
  assert (forall s, whole s -> OpEncode.view s <> [] -> OpEncode.nonempty s) as Hn.
  { intros s Hs Hne. destruct (whole_view s Hs) as [_ E]. destruct Hs as (d & Ed & _). split; [by rewrite Ed|].
    rewrite E. intros E0. apply Hne. destruct (OpEncode.view s); [done|]. rewrite len_cons in E0. pose proof (len_nonneg l). lia. }
  split; by apply Hn.
Qed.

Lemma holds_empty b l p : holds b l -> p ∈ l -> fst p = [] \/ snd p = [] ->
  exists k v, (k, v) ∈ OpEncode.kvs b /\ (OpEncode.s_len k = 0 \/ OpEncode.s_len v = 0).
Proof.
  intros (_ & <- & Hw) Hp He. unfold OpEncode.pairs in Hp. apply list_elem_of_fmap in Hp as ([k v] & -> & Hkv). cbn in He.
  rewrite Forall_forall in Hw. destruct (Hw _ Hkv) as [Hk Hv].
  destruct (whole_view k Hk) as [_ Ek], (whole_view v Hv) as [_ Ev]. exists k, v. split; [done|]. rewrite Ek, Ev.
  destruct He as [-> | ->]; [left|right]; done.
Qed.

Context (dec_bool : bytes -> option (bool * bytes)) (Hbool : dec_bool (enc_bool false) = Some (false, []))
  (Hlen : (length (enc_bool false) < 4)%nat).

(** What a listing decodes to, from the batch the engine holds. *)
Lemma dec_vals_held b l : holds b l -> smap_sorted l -> len l < 2 ^ 31 ->
  let d := enc_u32 (OpEncode.kvNum b) ++
      concat (map (fun '(k, v) => OpEncode.enc_nonempty k ++ OpEncode.enc_nonempty v) (OpEncode.kvs b)) ++ enc_bool false in
  (Forall (fun p => fst p <> [] /\ snd p <> []) l -> dec_vals dec_bool d = (len l, Some (l, false))) /\
  (Exists (fun p => fst p = [] \/ snd p = []) l -> dec_vals dec_bool d = (- EIO, None)).
Proof.
  intros Hh Hs Hl d. pose proof Hh as (Hb & Hp & _). split.
  - intros Hne. unfold dec_vals, d. rewrite dec_map_pairs; [|done|by eapply holds_nonempty|by rewrite Hp]. cbn. rewrite Hbool. cbn.
    rewrite Hp, s32_small; [done|]. pose proof (len_nonneg l). lia.
  - intros (p & Hin & He)%Exists_exists. destruct (holds_empty b l p Hh Hin He) as (k & v & Hkv & H0).
    unfold dec_vals, dec_map, d. by rewrite (OpEncode.getvals_dec_empty b (enc_bool false) k v).
Qed.

(** C20: an object class reads what the engine holds. Let the engine answer each request
    from the object it names -- by the operation's code and arguments, through the reply
    encoders -- and let the object's omap be ordered, with fewer than 2^31 pairs. Then
    [cls_cxx_map_get_vals] returns exactly the pairs after [start_obj] whose keys have the
    prefix, as many as asked for, and their number, when none of them is empty, and [-EIO]
    as soon as one key or value of them is; [cls_cxx_map_get_all_vals] does so for the
    whole omap when no key or value in it is empty; [cls_cxx_map_get_val] returns the
    value the object has for the key, [-ENOENT] when it has none; [cls_cxx_read], given an
    offset of 32 bits and a positive length below [INT_MAX] - 2, returns the bytes of the
    range asked for and their number. The client's operations are untouched in every case.
    *)
Theorem class_reads_engine_data (store : bytes -> object) (cb : engine) (Hserves : serves store cb) (c : ctx)
  (Hsorted : smap_sorted (o_omap (store (oid c)))) (Hsmall : len (o_omap (store (oid c))) < 2 ^ 31) :
  (forall start prefix n, 0 <= n < 2 ^ 64 ->
     let l := vals_after start n prefix (o_omap (store (oid c))) in
     (Forall (fun p => fst p <> [] /\ snd p <> []) l ->
      cls_cxx_map_get_vals dec_bool cb start prefix n c = (len l, Some (l, false), c)) /\
     (Exists (fun p => fst p = [] \/ snd p = []) l ->
      cls_cxx_map_get_vals dec_bool cb start prefix n c = (- EIO, None, c))) /\
  (Forall (fun p => fst p <> [] /\ snd p <> []) (o_omap (store (oid c))) ->
   cls_cxx_map_get_all_vals dec_bool cb c =
     (len (o_omap (store (oid c))), Some (o_omap (store (oid c)), false), c)) /\
  (forall key, cls_cxx_map_get_val cb key c =
     match assoc key (o_omap (store (oid c))) with Some v => (0, Some v, c) | None => (- ENOENT, None, c) end) /\
  (forall ofs n, 0 <= ofs < 2 ^ 32 -> 0 < n < INT_MAX - 2 ->
     let d := range_of ofs n (o_data (store (oid c))) in
     cls_cxx_read cb ofs n c = (len d, Some d, c)).
Proof.
  assert (forall start prefix n, 0 <= n < 2 ^ 64 ->
     let l := vals_after start n prefix (o_omap (store (oid c))) in
     (Forall (fun p => fst p <> [] /\ snd p <> []) l ->
      cls_cxx_map_get_vals dec_bool cb start prefix n c = (len l, Some (l, false), c)) /\
     (Exists (fun p => fst p = [] \/ snd p = []) l ->
      cls_cxx_map_get_vals dec_bool cb start prefix n c = (- EIO, None, c))) as Hvals.
  { intros start prefix n Hn l. unfold cls_cxx_map_get_vals.
    set (o := call_op _ _ _ _). destruct (s_vals _ _ Hserves (one_op o c) [osdop0] o start n prefix) as (m & b & Hh & Hc); [done..|].
    change (objName o) with (oid c) in Hh. fold l in Hh.
    rewrite (reading_answered _ _ _ _ _ (fun _ => dec_vals dec_bool) _ Hc)
      by (unfold OpEncode.replied, OpEncode.EncodeOmapGetvals, OpEncode.with_arg; by rewrite OpEncode.on_op_in).
    assert (len l < 2 ^ 31) as Hll.
    { pose proof (filter_length_le (fun p => bytes_ltb start (fst p) && bytes_eqb (take (length prefix) (fst p)) prefix) (o_omap (store (oid c)))).
      unfold l, vals_after, len in *. rewrite length_take. lia. }
    destruct (dec_vals_held b l Hh (vals_after_sorted _ _ _ _ Hsorted) Hll) as [H1 H2]. split.
    - intros Hne. by rewrite (H1 Hne).
    - intros He. by rewrite (H2 He). }
  split; [exact Hvals|]. split; [|split].
  - intros Hne. change (cls_cxx_map_get_all_vals dec_bool cb c) with (cls_cxx_map_get_vals dec_bool cb [] [] UINT64_MAX c).
    assert (vals_after [] UINT64_MAX [] (o_omap (store (oid c))) = o_omap (store (oid c))) as E.
    { unfold vals_after. rewrite take_ge.
      - clear -Hne. induction Hne as [|[k v] l [Hk _] Hl IH]; [done|]. cbn in *. destruct k; [done|]. cbn. by rewrite IH.
      - etransitivity; [apply filter_length_le|]. unfold len in Hsmall. unfold UINT64_MAX. lia. }
    destruct (Hvals [] [] UINT64_MAX ltac:(done)) as [H1 _]. rewrite E in H1. by apply H1.
  - intros key. unfold cls_cxx_map_get_val. set (o := call_op _ _ _ _).
    destruct (s_bykeys _ _ Hserves (one_op o c) [osdop0] o) as (m & b & Hh & Hc); [done..|].
    rewrite (reading_answered _ _ _ _ _ _ (enc_map enc_str (smap_of (OpEncode.pairs b))) Hc)
      by (unfold OpEncode.replied, OpEncode.EncodeOmapGetvalsbykeys, OpEncode.with_arg; by rewrite OpEncode.on_op_in).
    destruct Hh as (Hb & Hp & _). rewrite OpEncode.smap_pairs_dec by done. rewrite Hp.
    change (keys o) with [key]. change (objName o) with (oid c). rewrite vals_of_one by done. by destruct (assoc key _).
  - intros ofs n Ho Hn d. unfold cls_cxx_read, cls_cxx_read2.
    replace (n <=? 0) with false by lia. replace (INT_MAX - 2 <=? n) with false by lia. cbn [orb]. set (o := MsgModule.set_out _ _).
    destruct (s_read _ _ Hserves (one_op o c) [osdop0] o) as (m & Hc); [done..|].
    change (objOffset o) with (u32 ofs) in Hc. change (objLength o) with n in Hc. change (objName o) with (oid c) in Hc.
    rewrite u32_small in Hc by lia. fold d in Hc. rewrite (reading_answered _ _ _ _ _ _ d Hc).
    + pose proof (len_nonneg d). assert (len d <= n). { unfold d, range_of, len. rewrite length_take. lia. }
      cbn [fst snd]. rewrite s32_small; [done|]. unfold INT_MAX in *. lia.
    + unfold OpEncode.replied, OpEncode.EncodeRead, OpEncode.with_arg. rewrite OpEncode.on_op_in by done.
      unfold len. by rewrite Nat2Z.id, take_ge by lia.
Qed.
End served.

(** *** An engine that keeps the promise *)

Definition str_of (d : bytes) : OpEncode.SaStr := {| OpEncode.s_len := len d; OpEncode.s_buf := Some d |}.
Definition batch_of (l : list (bytes * bytes)) : OpEncode.SaBatchKv :=
  {| OpEncode.kv_keys := map (str_of ∘ fst) l; OpEncode.kv_values := map (str_of ∘ snd) l; OpEncode.kvNum := len l |}.

Section store_engine.
Context `{CephInts} (enc_bool : bool -> bytes) (store : bytes -> object) (m : NetworkModule.MOSDOp).

Definition store_engine : engine := fun r l =>
  match vecOps r with
  | [o] =>
      let x := store (objName o) in
      match opSubType o, values o with
      | CEPH_OSD_OP_OMAPGETVALS, [start; n; prefix] =>
          (0, answer m (OpEncode.EncodeOmapGetvals enc_bool (Some (batch_of (vals_after start (st_val (strtoull 10 n)) prefix (o_omap x)))) 0) l)
      | CEPH_OSD_OP_OMAPGETVALSBYKEYS, _ =>
          (0, answer m (OpEncode.EncodeOmapGetvalsbykeys (Some (batch_of (vals_of (keys o) (o_omap x)))) 0) l)
      | CEPH_OSD_OP_SYNC_READ, _ =>
          let d := range_of (objOffset o) (objLength o) (o_data x) in
          (0, answer m (OpEncode.EncodeRead CEPH_OSD_OP_SYNC_READ (objOffset o) (objLength o) (Some d) (len d) 0) l)
      | _, _ => (- EINVAL, l)
      end
  | _ => (- EINVAL, l)
  end.

Lemma view_str_of d : OpEncode.view (str_of d) = d.
Proof. unfold OpEncode.view, str_of, len. cbn. by rewrite Nat2Z.id, take_ge. Qed.

Lemma batch_kvs l : OpEncode.kvs (batch_of l) = map (fun p => (str_of (fst p), str_of (snd p))) l.
Proof.
  unfold OpEncode.kvs, batch_of. cbn [OpEncode.kv_keys OpEncode.kv_values OpEncode.kvNum]. unfold len. rewrite Nat2Z.id.
  apply list_eq. intros i. rewrite !list_lookup_fmap. destruct (l !! i) as [p|] eqn:Hp.
  - rewrite lookup_seq_lt by by eapply lookup_lt_Some. cbn. unfold OpEncode.nth_str.
    by rewrite (list_lookup_fmap (str_of ∘ fst)), (list_lookup_fmap (str_of ∘ snd)), Hp.
  - by rewrite lookup_seq_ge by by apply lookup_ge_None.
Qed.

Lemma batch_holds l : len l < 2 ^ 32 -> Forall OpEncode.kv_ok l -> holds (batch_of l) l.
Proof.
  intros Hl Hk. assert (OpEncode.pairs (batch_of l) = l) as E.
  { unfold OpEncode.pairs. rewrite batch_kvs, map_map. rewrite <- (map_id l) at 2. apply map_ext. intros [k v]. cbn. by rewrite !view_str_of. }
  split; [split; [split; [apply len_nonneg|exact Hl]|by rewrite E]|]. split; [exact E|]. rewrite batch_kvs. apply Forall_map, Forall_true.
  intros [k v]. split; by eexists.
Qed.

Lemma store_engine_serves : (forall n, len (o_omap (store n)) < 2 ^ 32 /\ Forall OpEncode.kv_ok (o_omap (store n))) ->
  serves enc_bool store store_engine.
Proof.
  intros Hs. assert (forall n (l : list (bytes * bytes)), sublist l (o_omap (store n)) -> holds (batch_of l) l) as Hb.
  { intros n l Hl. destruct (Hs n) as [H1 H2]. apply batch_holds.
    - apply sublist_length in Hl. unfold len in *. lia.
    - apply Forall_forall. intros x Hx. rewrite Forall_forall in H2. apply H2. eapply elem_of_submseteq; [exact Hx|by apply sublist_submseteq]. }
  split; intros r l o; unfold store_engine.
  - intros start n prefix Hr Ht Hk Hv Hn. rewrite Hr, Ht, Hv, strtoull_to_string by (unfold UINT64_MAX; lia). cbn [st_val].
    exists m, (batch_of (vals_after start n prefix (o_omap (store (objName o))))). split; [|done]. apply (Hb (objName o)).
    unfold vals_after. etransitivity; [apply sublist_take|]. generalize (o_omap (store (objName o))). clear. intros l.
    induction l as [|p l IH]; cbn; [constructor|]. destruct (_ && _); by constructor.
  - intros Hr Ht. rewrite Hr, Ht. exists m, (batch_of (vals_of (keys o) (o_omap (store (objName o))))).
    split; [|by destruct (values o) as [|? [|? [|? [|]]]]]. apply (Hb (objName o)). apply sublist_filter.
  - intros Hr Ht. rewrite Hr, Ht. exists m. by destruct (values o) as [|? [|? [|? [|]]]].
Qed.
End store_engine.

Definition sample_ctx : ctx :=
  {| opReq := {| vecOps := []; optionType := 0; optionLength := 0; opType := 0; req_snapId := 0; tid := 3;
                 opsSequence := 0; ptrMosdop := 7; ptId := 0; req_poolId := 1; ts := 0; snapSeq := 0; snaps := [];
                 exitsCopyUp := 0; copyupFlag := false; ptVersion := 0 |};
     opId := 0; oid := bs "bucket"; msg_ops := [osdop0] |}.

Definition sample_store : bytes -> object := fun _ =>
  {| o_omap := [(bs "a", bs "1"); (bs "b1", bs "2"); (bs "b2", bs "3"); (bs "c", [])]; o_data := bs "abcdefgh" |}.

(** Two of the pairs, no more; the value of a key; a range. *)
Lemma class_reads_engine_data_witness :
  let enc := fun x : bool => if x then bs "1" else bs "0" in
  let dec := fun d : bytes => match d with x :: r => Some (Ascii.eqb x "1", r) | [] => None end in
  let eng := @store_engine le_ints enc sample_store (NetworkModuleExamples.message (bs "bucket") []) in
  @cls_cxx_map_get_vals le_ints dec eng (bs "a") (bs "b") 10 sample_ctx = (2, Some ([(bs "b1", bs "2"); (bs "b2", bs "3")], false), sample_ctx) /\
  @cls_cxx_map_get_vals le_ints dec eng (bs "a") [] 10 sample_ctx = (- EIO, None, sample_ctx) /\
  @cls_cxx_map_get_val le_ints eng (bs "b2") sample_ctx = (0, Some (bs "3"), sample_ctx) /\
  cls_cxx_read eng 2 3 sample_ctx = (3, Some (bs "cde"), sample_ctx).
Proof.
  intros enc dec eng.
  destruct (@class_reads_engine_data le_ints enc dec ltac:(reflexivity) ltac:(vm_compute; lia) sample_store eng
    ltac:(apply store_engine_serves; intros n; split; [reflexivity|];
          repeat (constructor; [split; vm_compute; reflexivity|]); constructor) sample_ctx
    ltac:(repeat constructor) ltac:(reflexivity)) as (H1 & _ & H3 & H4).
  split; [|split; [|split]].
  - apply (proj1 (H1 (bs "a") (bs "b") 10 ltac:(split; [discriminate|reflexivity]))).
    vm_compute. repeat (constructor; [split; discriminate|]). constructor.
  - apply (proj2 (H1 (bs "a") [] 10 ltac:(split; [discriminate|reflexivity]))).
    vm_compute. apply Exists_cons_tl, Exists_cons_tl, Exists_cons_hd. right. reflexivity.
  - exact (H3 (bs "b2")).
  - exact (H4 2 3 ltac:(split; [discriminate|reflexivity]) ltac:(split; reflexivity)).
Defined.
End ClassApi.
