(* ===== verification/OsaExec.v ===== *)
(** * [osa.cpp]: class calls and the copyup of cloned images

    [OSA_ExecClass] runs one CALL operation of a request: a prefetch hint, the
    copyup of a cloned rbd object (whose data the following writes of the request
    are merged into), or a method of a whitelisted object class.  The engine and
    the prefetch function are parameters; the class handler enters through
    [open_class] and [get_method].  [None] is a call that does not return: an
    exception nobody catches, or a write outside a buffer. *)

From S2P Require Import Prelude CStr Encoding MsgModule Throttle NetworkModule OpEncode ClassApi.
Import SaDef.

Module OsaExec.
Import ClassApi.

Definition OSA_COPYUP_NEED_MERGE_WRITE : Z := 10.
Definition ROCACHE_OP : OsdOp := OTHER_OP 20480.  (* 0x5000 *)

(** The fields [ConstructWriteOp] and [WriteSaRocache] take from the current
    operation. *)
Definition like_current (t : OsdOp) (name : bytes) (cur : OpRequestOps) : OpRequestOps :=
  {| opSubType := t; objName := name; isRbd := isRbd cur; rbdObjId := rbdObjId cur;
     inData := None; inDataLen := 0; outDataLen := 0; objOffset := 0; objLength := 0;
     opFlags := 0; keys := []; values := []; subops := []; u64vals := []; cmpModes := [] |}.

Definition ConstructWriteOp (cur : OpRequestOps) (data : bytes) (off n : Z) : OpRequestOps :=
  MsgModule.set_in (Some data) (u32 n) (MsgModule.set_range (u32 off) (u32 n)
    (like_current CEPH_OSD_OP_WRITE (objName cur) cur)).

(** [memcpy(buf + off, src, n)] *)
Definition memcpy (buf : bytes) (off : Z) (src : bytes) (n : Z) : option bytes :=
  if (off + n <=? len buf) && (n <=? len src)
  then Some (take (Z.to_nat off) buf ++ take (Z.to_nat n) src ++ drop (Z.to_nat (off + n)) buf)
  else None.

Definition merged (o : OpRequestOps) : bool :=
  bool_decide (opSubType o = CEPH_OSD_OP_WRITE) && negb (inDataLen o =? 0).

(** The loop of [MergeCopyup] over the operations after the copyup; the bound
    test is computed in [uint32_t]. *)
Fixpoint merge (length : Z) (l : list OpRequestOps) (data : bytes) : option (Z + bytes) :=
  match l with
  | [] => Some (inr data)
  | osdop :: l' =>
      if merged osdop then
        if length <? u32 (objOffset osdop + inDataLen osdop) then Some (inl (- EINVAL))
        else data' ← memcpy data (objOffset osdop) (default [] (inData osdop)) (inDataLen osdop);
             merge length l' data'
      else merge length l' data
  end.

Section exec.
Context `{CephInts} (dec_time : bytes -> option (Z * bytes)).
Context (cbFunc : engine) (prefetch : option (SaOpReq -> OpRequestOps -> Z)).
(** [rpc_handler->open_class] and the method's [exec]: result and output. *)
Context (open_class : bytes -> Z) (get_method : bytes -> bytes -> option (ctx -> bytes -> Z * bytes * ctx)).

Definition MergeCopyup (c : ctx) (copyUpData : bytes) : option (Z * ctx) :=
  cur ← vecOps (opReq c) !! opId c;
  let length := u32 (len copyUpData) in
  r ← merge length (drop (S (opId c)) (vecOps (opReq c))) copyUpData;
  match r with
  | inl e => Some (e, c)
  | inr data =>
      let '(ret, c) := submit cbFunc (ConstructWriteOp cur data 0 length) c in
      Some (if ret =? 0 then OSA_COPYUP_NEED_MERGE_WRITE else ret, c)
  end.

Definition WriteSaRocache (c : ctx) : option (Z * ctx) :=
  cur ← vecOps (opReq c) !! opId c;
  Some (submit cbFunc (like_current ROCACHE_OP (oid c) cur) c).

Definition ClassList : list bytes := [bs "rgw"; bs "lock"].

(** The result, the call's context, and whether [copyupFlag] was reset. *)
Record result := { e_ret : Z; e_ctx : option ctx; e_reset : bool }.
Definition ret (r : Z) (c : ctx) : option result := Some {| e_ret := r; e_ctx := Some c; e_reset := false |}.
(** [*pOpReq->copyupFlag = 0]: a null pointer is a crash. *)
Definition ret_reset (r : Z) (c : ctx) : option result :=
  if copyupFlag (opReq c) then Some {| e_ret := r; e_ctx := Some c; e_reset := true |} else None.

(** Class name, method name and input of a CALL; [None]: caught exception. *)
Definition decode_call (op : OSDOp) : option (bytes * bytes * bytes) :=
  '(cname, bp) ← MsgModule.copy (class_len (osd_op op)) (indata op);
  '(mname, bp) ← MsgModule.copy (method_len (osd_op op)) bp;
  '(data, _) ← MsgModule.copy (cls_indata_len (osd_op op)) bp;
  Some (cname, mname, data).

Definition set_op (i : nat) (o : OpRequestOps) (r : SaOpReq) : SaOpReq :=
  set_vecOps (<[i := o]> (vecOps r)) r.

(** The outcome of a class method stored in the client's operation. *)
Definition store_output (out : bytes) (o : OSDOp) : OSDOp :=
  let p := osd_op o in
  {| osd_op := {| op := op p; op_flags := op_flags p; extent_offset := extent_offset p;
                  extent_length := len out; name_len := name_len p; value_len := value_len p;
                  cmp_op := cmp_op p; cmp_mode := cmp_mode p; class_len := class_len p;
                  method_len := method_len p; cls_indata_len := cls_indata_len p; snapid := snapid p;
                  writesame_offset := writesame_offset p; writesame_length := writesame_length p |};
     indata := indata o; outdata := outdata o ++ out; rval := rval o |}.

(** [pctx] may be null, and so may its message. *)
Definition OSA_ExecClass (pctx : option ctx) : option result :=
  match pctx with
  | None => Some {| e_ret := - EINVAL; e_ctx := None; e_reset := false |}
  | Some c =>
      if ptrMosdop (opReq c) =? 0 then ret (- EINVAL) c else
      clientop ← msg_ops c !! opId c;
      match decode_call clientop with
      | None => ret (- EINVAL) c
      | Some (cname, mname, data) =>
          if bytes_eqb cname (bs "rpc") && bytes_eqb mname (bs "das_prefetch") then
            match prefetch with
            | None => ret (- EINVAL) c
            | Some prefetch =>
                '(offset, bp) ← dec_u64 data;
                '(n, _) ← dec_u64 bp;
                osdop ← vecOps (opReq c) !! opId c;
                let osdop := MsgModule.set_range (u32 offset) (u32 n) osdop in
                let req := set_op (opId c) osdop (opReq c) in
                ret (prefetch req osdop)
                    {| opReq := req; opId := opId c; oid := oid c; msg_ops := msg_ops c |}
            end
          else if bytes_eqb cname (bs "rbd") && bytes_eqb mname (bs "copyup") then
            let '(st, _, c) := cls_cxx_stat2 dec_time cbFunc c in
            if st =? 0 then ret_reset 0 c else
            '(r, c) ← (if negb (len data =? 0) then MergeCopyup c data else WriteSaRocache c);
            ret_reset r c
          else if negb (bool_decide (cname ∈ ClassList)) then ret (- EOPNOTSUPP) c
          else if negb (open_class cname =? 0) then ret (- EOPNOTSUPP) c
          else match get_method cname (c_str mname) with
               | None => ret (- EOPNOTSUPP) c
               | Some exec =>
                   let '(r, outdata, c) := exec c data in
                   if r =? 0 then ret r (set_ops (alter (store_output outdata) (opId c) (msg_ops c)) c)
                   else ret r c
               end
      end
  end.

(** ** Theorems *)

(** The operation writes the byte [j]: a plain WRITE whose range holds it. *)
Definition covers (j : Z) (o : OpRequestOps) : Prop :=
  opSubType o = CEPH_OSD_OP_WRITE /\ objOffset o <= j < objOffset o + inDataLen o.

(** A write that lies in the object and has its data. *)
Definition fits (length : Z) (o : OpRequestOps) : Prop :=
  opSubType o = CEPH_OSD_OP_WRITE -> inDataLen o <> 0 ->
  0 <= objOffset o /\ 0 <= inDataLen o <= len (default [] (inData o)) /\ objOffset o + inDataLen o <= length.

Lemma not_covers j o : (j <? objOffset o) || (objOffset o + inDataLen o <=? j) = true -> ~ covers j o.
Proof. intros Hj [_ ?]. apply orb_true_iff in Hj as [?|?]; bprop; lia. Qed.

Lemma merged_iff o : merged o = true <-> opSubType o = CEPH_OSD_OP_WRITE /\ inDataLen o <> 0.
Proof. unfold merged. rewrite andb_true_iff, bool_decide_eq_true, negb_true_iff, Z.eqb_neq. done. Qed.
Lemma fits_merged n o : fits n o -> merged o = true ->
  0 <= objOffset o /\ 0 <= inDataLen o <= len (default [] (inData o)) /\ objOffset o + inDataLen o <= n.
Proof. rewrite merged_iff. intros Hf [? ?]. by apply Hf. Qed.

(** The byte the merged operations of [l] leave at [j], the last one winning. *)
Fixpoint written (j : Z) (l : list OpRequestOps) : option ascii :=
  match l with
  | [] => None
  | o :: l' =>
      match written j l' with
      | Some x => Some x
      | None => if merged o && (objOffset o <=? j) && (j <? objOffset o + inDataLen o)
                then default [] (inData o) !! Z.to_nat (j - objOffset o) else None
      end
  end.

Lemma written_none j l : (forall k o, l !! k = Some o -> ~ covers j o) -> written j l = None.
Proof.
  induction l as [|o l IH]; intros Hl; cbn; [done|].
  rewrite IH by (intros k x Hx; by apply (Hl (S k))).
  destruct (merged o) eqn:Em; [|done]. apply merged_iff in Em as [Ht _].
  destruct (objOffset o <=? j) eqn:E1; [|done]. destruct (j <? objOffset o + inDataLen o) eqn:E2; [|done]. bprop.
  destruct (Hl 0%nat o eq_refl). by split.
Qed.

Lemma written_last n j l k o : Forall (fits n) l -> l !! k = Some o -> covers j o ->
  (forall k' o', (k < k')%nat -> l !! k' = Some o' -> ~ covers j o') ->
  exists x, written j l = Some x /\ default [] (inData o) !! Z.to_nat (j - objOffset o) = Some x.
Proof.
  revert k. induction l as [|p l IH]; intros k Hf Hk Hc Hlast; [done|]. inversion Hf as [|? ? Hp Hl]; subst.
  destruct k as [|k].
  - injection Hk as ->. cbn [written].
    rewrite written_none by (intros k x Hx; apply (Hlast (S k)); [lia|done]).
    destruct Hc as [Ht Hr]. destruct (Hp Ht) as (H0 & Hn & _); [lia|].
    replace (merged o) with true by (symmetry; apply merged_iff; split; [done|lia]).
    replace (objOffset o <=? j) with true by lia. replace (j <? objOffset o + inDataLen o) with true by lia.
    cbn [andb]. destruct (_ !! _) eqn:E; [by eauto|]. apply lookup_ge_None in E. unfold len in *. lia.
  - destruct (IH k Hl Hk Hc) as (x & Hx & Hx').
    { intros k' o' Hkk Hk'. apply (Hlast (S k') o'); [lia|done]. }
    exists x. split; [|done]. cbn. by rewrite Hx.
Qed.

Lemma memcpy_spec buf off src n : 0 <= off -> 0 <= n <= len src -> off + n <= len buf ->
  exists buf', memcpy buf off src n = Some buf' /\ len buf' = len buf /\
    forall j, 0 <= j -> buf' !! Z.to_nat j =
      if (off <=? j) && (j <? off + n) then src !! Z.to_nat (j - off) else buf !! Z.to_nat j.
Proof.
  intros Ho Hn Hf. unfold memcpy. unfold len in *.
  replace (off + n <=? Z.of_nat (length buf)) with true by lia.
  replace (n <=? Z.of_nat (length src)) with true by lia. cbn [andb].
  eexists. split; [reflexivity|]. split.
  { rewrite !length_app, !length_take, length_drop. lia. }
  intros j Hj. destruct (off <=? j) eqn:E1; bprop.
  - rewrite lookup_app_r by (rewrite length_take; lia). rewrite length_take, Nat.min_l by lia.
    replace (Z.to_nat j - Z.to_nat off)%nat with (Z.to_nat (j - off)) by lia.
    destruct (j <? off + n) eqn:E2; bprop; cbn [andb].
    + rewrite lookup_app_l by (rewrite length_take; lia). apply lookup_take_lt. lia.
    + rewrite lookup_app_r by (rewrite length_take; lia). rewrite length_take, Nat.min_l by lia.
      rewrite lookup_drop. f_equal. lia.
  - cbn [andb]. rewrite lookup_app_l by (rewrite length_take; lia). apply lookup_take_lt. lia.
Qed.

Lemma merge_spec length l data : length < 2 ^ 32 -> len data = length -> Forall (fits length) l ->
  exists data', merge length l data = Some (inr data') /\ len data' = length /\
    forall j, 0 <= j < length ->
      data' !! Z.to_nat j = match written j l with Some x => Some x | None => data !! Z.to_nat j end.
Proof.
  intros Hlen Hd Hl. revert data Hd. induction Hl as [|o l Ho Hl IH]; intros data Hd; [by exists data|].
  cbn [merge written]. destruct (merged o) eqn:Em.
  - destruct (fits_merged _ _ Ho Em) as (H0 & Hn & Hf). rewrite u32_small by lia.
    replace (length <? objOffset o + inDataLen o) with false by lia.
    destruct (memcpy_spec data (objOffset o) (default [] (inData o)) (inDataLen o)) as (d1 & H1 & H2 & H3);
      [lia..|]. rewrite H1. cbn. destruct (IH d1) as (d' & H4 & H5 & H6); [lia|].
    exists d'. split; [done|]. split; [done|]. intros j Hj. rewrite H6 by done.
    destruct (written j l); [done|]. rewrite H3 by lia. cbn [andb].
    destruct (objOffset o <=? j) eqn:E1; [|done]. destruct (j <? objOffset o + inDataLen o) eqn:E2; [|done].
    cbn. bprop. destruct (_ !! _) eqn:E3; [done|]. apply lookup_ge_None in E3. unfold len in *. lia.
  - destruct (IH data Hd) as (d' & H4 & H5 & H6). exists d'. split; [done|]. split; [done|].
    intros j Hj. rewrite H6 by done. by destruct (written j l).
Qed.
End exec.

(** C26: merging a copyup keeps the plain WRITE operations of the request (and
    only those: WRITEFULL, WRITESAME and ZERO after a copyup are not merged).
    When each WRITE with data that follows the copyup has its data and lies
    inside the object, the engine is given one write of the whole object with
    the identity of the copyup's operation; each of its bytes is that of the
    last following WRITE whose range holds it, and the parent's where there is
    none.  The engine's success is reported as [OSA_COPYUP_NEED_MERGE_WRITE],
    its errors as they are.  The first WRITE that ends beyond the object
    (without wrapping in 32 bits) is refused with [-EINVAL] before the engine
    sees anything. *)
Theorem MergeCopyup_correct (cb : engine) (c : ctx) (cur : OpRequestOps) (data : bytes)
  (Hcur : vecOps (opReq c) !! opId c = Some cur) (Hlen : len data < 2 ^ 32) :
  let rest := drop (S (opId c)) (vecOps (opReq c)) in
  (Forall (fits (len data)) rest ->
   exists data', len data' = len data /\
     (forall j k o, 0 <= j < len data -> rest !! k = Some o -> covers j o ->
        (forall k' o', (k < k')%nat -> rest !! k' = Some o' -> ~ covers j o') ->
        data' !! Z.to_nat j = default [] (inData o) !! Z.to_nat (j - objOffset o)) /\
     (forall j, 0 <= j < len data -> (forall k o, rest !! k = Some o -> ~ covers j o) ->
        data' !! Z.to_nat j = data !! Z.to_nat j) /\
     let o := ConstructWriteOp cur data' 0 (len data) in
     opSubType o = CEPH_OSD_OP_WRITE /\ rbdObjId o = rbdObjId cur /\ inData o = Some data' /\
     objOffset o = 0 /\ objLength o = len data /\
     let '(r, l) := cb (one_op o c) (msg_ops c) in
     MergeCopyup cb c data = Some (if r =? 0 then OSA_COPYUP_NEED_MERGE_WRITE else r, set_ops l c)) /\
  (forall pre o post, rest = pre ++ o :: post -> Forall (fits (len data)) pre ->
     opSubType o = CEPH_OSD_OP_WRITE -> 0 < inDataLen o -> 0 <= objOffset o ->
     len data < objOffset o + inDataLen o < 2 ^ 32 ->
     MergeCopyup cb c data = Some (- EINVAL, c)).
Proof.
  intros rest. pose proof (len_nonneg data) as H0. split.
  - intros Hf. destruct (merge_spec (len data) rest data Hlen eq_refl Hf) as (d' & H1 & H2 & H3).
    exists d'. split; [done|]. split.
    { intros j k o Hj Hk Hc Hlast. destruct (written_last _ _ _ _ _ Hf Hk Hc Hlast) as (x & Hx & Hx').
      rewrite H3 by done. by rewrite Hx, Hx'. }
    split; [intros j Hj Hn; rewrite H3 by done; by rewrite (written_none j rest Hn)|]. cbn zeta.
    do 4 (split; [done|]). split; [cbn; by apply u32_small|].
    unfold MergeCopyup, submit. rewrite Hcur. cbn [mbind option_bind]. rewrite u32_small by lia.
    fold rest. rewrite H1. cbn [mbind option_bind]. by destruct (cb _ _).
  - intros pre o post Hr Hf Ht Hi Ho Hbig. unfold MergeCopyup. rewrite Hcur. cbn [mbind option_bind].
    rewrite u32_small by lia. fold rest. rewrite Hr.
    assert (merged o = true) as Hm by (apply merged_iff; split; [done|lia]).
    assert (forall d, len d = len data -> merge (len data) (pre ++ o :: post) d = Some (inl (- EINVAL))) as Hmg.
    { clear Hr rest. induction Hf as [|p pre Hp Hf IH]; intros d Hd; cbn [app merge].
      - rewrite Hm, u32_small by lia. by replace (len data <? objOffset o + inDataLen o) with true by lia.
      - destruct (merged p) eqn:Ep; [|by apply IH]. destruct (fits_merged _ _ Hp Ep) as (G0 & G1 & G2).
        rewrite u32_small by lia. replace (len data <? objOffset p + inDataLen p) with false by lia.
        destruct (memcpy_spec d (objOffset p) (default [] (inData p)) (inDataLen p)) as (d1 & H1 & H2 & _);
          [lia..|]. rewrite H1. cbn. apply IH. lia. }
    by rewrite Hmg.
Qed.

(** The calls into the engine leave the request alone. *)
Lemma stat2_opReq `{CephInts} dec_time cb c st v c' :
  cls_cxx_stat2 dec_time cb c = (st, v, c') -> opReq c' = opReq c /\ opId c' = opId c.
Proof.
  unfold cls_cxx_stat2, reading, submit_swapped. cbn -[dec_stat one_op].
  destruct (cb _ _) as [r l]. cbn -[dec_stat]. destruct (r <? 0); [by intros [= <- <- <-]|].
  destruct (dec_stat _ _) as [x y]. by intros [= <- <- <-].
Qed.
Lemma submit_opReq cb o c r c' : submit cb o c = (r, c') -> opReq c' = opReq c /\ opId c' = opId c.
Proof. unfold submit. destruct (cb _ _). by intros [= <- <-]. Qed.

(** A write whose end does not wrap and whose data is there: the merge ends,
    with the data or with an error. *)
Definition no_wrap (o : OpRequestOps) : Prop :=
  opSubType o = CEPH_OSD_OP_WRITE -> inDataLen o <> 0 ->
  0 <= objOffset o /\ 0 <= inDataLen o <= len (default [] (inData o)) /\ objOffset o + inDataLen o < 2 ^ 32.

Lemma merge_ends length l data : length <= len data -> Forall no_wrap l -> is_Some (merge length l data).
Proof.
  intros Hle Hl. revert data Hle. induction Hl as [|o l Ho Hl IH]; intros data Hle; cbn; [by eauto|].
  destruct (merged o) eqn:Em; [|by apply IH]. apply merged_iff in Em as [Ht Hn].
  destruct (Ho Ht Hn) as (H0 & Hi & He). rewrite u32_small by lia.
  destruct (length <? objOffset o + inDataLen o) eqn:E; bprop; [by eauto|].
  destruct (memcpy_spec data (objOffset o) (default [] (inData o)) (inDataLen o)) as (d & -> & Hd & _); [lia..|].
  cbn. apply IH. lia.
Qed.

Lemma MergeCopyup_ends cb c cur data : vecOps (opReq c) !! opId c = Some cur ->
  Forall no_wrap (drop (S (opId c)) (vecOps (opReq c))) ->
  exists r c', MergeCopyup cb c data = Some (r, c') /\ opReq c' = opReq c.
Proof.
  intros Hc Hf. unfold MergeCopyup. rewrite Hc. cbn [mbind option_bind].
  destruct (merge_ends (u32 (len data)) (drop (S (opId c)) (vecOps (opReq c))) data) as [[e|d] ->];
    [|done|cbn [mbind option_bind]; by eauto|].
  - unfold u32, wrap. apply Z.mod_le; [apply len_nonneg|lia].
  - cbn [mbind option_bind]. destruct (submit _ _ _) as [r c'] eqn:Es. apply submit_opReq in Es as [Es _]. by eauto.
Qed.

(** The worker counts the operation as a copyup, from its two names. *)
Lemma decode_call_copyup partial_copy op cname mname data :
  MsgModule.is_copyup partial_copy op = true -> decode_call op = Some (cname, mname, data) ->
  cname = bs "rbd" /\ mname = bs "copyup".
Proof.
  unfold MsgModule.is_copyup, decode_call. intros Hc Hd.
  destruct (MsgModule.copy (class_len (osd_op op)) (indata op)) as [[cn bp]|]; [|done].
  cbn [mbind option_bind] in Hd.
  destruct (MsgModule.copy (method_len (osd_op op)) bp) as [[mn bp']|]; [|done].
  cbn [mbind option_bind] in Hd. destruct (MsgModule.copy (cls_indata_len _) bp') as [[x y]|]; [|done].
  cbn in Hd. injection Hd as <- <- <-.
  apply andb_true_iff in Hc as [H1 H2]. unfold bytes_eqb in *. by apply bool_decide_eq_true in H1, H2.
Qed.

(** C40: the flag a copyup holds is reset when the call returns, except when the
    call's arguments do not decode.  For an operation the worker takes for a
    copyup: (1) when class name, method name and input decode, a call that
    returns has reset the flag, whatever the engine answers; (2) it does return
    when the request carries its flag, the operation is one of the request's
    and no following WRITE with data ends at 2^32 or later or lacks its data
    (otherwise the call may crash: a null flag, an operation index out of range,
    the wrapped bound test of [merge_overflow]); (3) when the declared lengths
    exceed the payload the call returns [-EINVAL] and the flag keeps its
    value. *)
Theorem copyup_flag_released `{CephInts} (partial_copy : Z -> bytes -> bytes)
  (dec_time : bytes -> option (Z * bytes)) (cb : engine) (prefetch : option (SaOpReq -> OpRequestOps -> Z))
  (open_class : bytes -> Z) (get_method : bytes -> bytes -> option (ctx -> bytes -> Z * bytes * ctx))
  (c : ctx) (op : OSDOp) (Hop : msg_ops c !! opId c = Some op)
  (Hcopyup : MsgModule.is_copyup partial_copy op = true) (Hptr : ptrMosdop (opReq c) <> 0) :
  let call := OSA_ExecClass dec_time cb prefetch open_class get_method (Some c) in
  (is_Some (decode_call op) -> forall r, call = Some r -> e_reset r = true) /\
  (is_Some (decode_call op) -> copyupFlag (opReq c) = true -> is_Some (vecOps (opReq c) !! opId c) ->
   Forall no_wrap (drop (S (opId c)) (vecOps (opReq c))) -> exists r, call = Some r /\ e_reset r = true) /\
  (0 <= class_len (osd_op op) -> 0 <= method_len (osd_op op) ->
   len (indata op) < class_len (osd_op op) + method_len (osd_op op) + cls_indata_len (osd_op op) ->
   call = Some {| e_ret := - EINVAL; e_ctx := Some c; e_reset := false |}).
Proof.
  intros call. subst call. unfold OSA_ExecClass.
  replace (ptrMosdop (opReq c) =? 0) with false by lia. rewrite Hop. cbn [mbind option_bind]. split; [|split].
  - intros [[[cname mname] data] Hd] r Hr. rewrite Hd in Hr.
    destruct (decode_call_copyup _ _ _ _ _ Hcopyup Hd) as [-> ->].
    change (bytes_eqb (bs "rbd") (bs "rpc") && _) with false in Hr.
    change (bytes_eqb (bs "rbd") (bs "rbd") && bytes_eqb (bs "copyup") (bs "copyup")) with true in Hr.
    cbv iota in Hr. destruct (cls_cxx_stat2 dec_time cb c) as [[st v] c1].
    unfold ret_reset in Hr. destruct (st =? 0).
    + destruct (copyupFlag (opReq c1)); [|done]. by injection Hr as <-.
    + apply bind_Some in Hr as ([r1 c2] & _ & Hr).
      destruct (copyupFlag (opReq c2)); [|done]. by injection Hr as <-.
  - intros [[[cname mname] data] Hd] Hflag [cur Hcur] Hw. rewrite Hd.
    destruct (decode_call_copyup _ _ _ _ _ Hcopyup Hd) as [-> ->].
    change (bytes_eqb (bs "rbd") (bs "rpc") && _) with false.
    change (bytes_eqb (bs "rbd") (bs "rbd") && bytes_eqb (bs "copyup") (bs "copyup")) with true.
    cbv iota. destruct (cls_cxx_stat2 dec_time cb c) as [[st v] c1] eqn:Es. apply stat2_opReq in Es as [Es1 Es2].
    unfold ret_reset. destruct (st =? 0); [rewrite Es1, Hflag; by eauto|].
    destruct (negb (len data =? 0)).
    + destruct (MergeCopyup_ends cb c1 cur data) as (r & c2 & -> & Hr2); [by rewrite Es1, Es2..|].
      cbn [mbind option_bind]. rewrite Hr2, Es1, Hflag. by eauto.
    + unfold WriteSaRocache. rewrite Es1, Es2, Hcur. cbn [mbind option_bind].
      destruct (submit _ _ _) as [r c2] eqn:E2. apply submit_opReq in E2 as [E2 _].
      cbn [mbind option_bind]. rewrite E2, Es1, Hflag. by eauto.
  - intros Hc Hm Hl. assert (decode_call op = None) as ->; [|done].
    unfold decode_call, MsgModule.copy. destruct (_ <=? len (indata op)) eqn:E1; [|done]. cbn [mbind option_bind].
    destruct (_ <=? len (drop _ _)) eqn:E2; [|done]. cbn [mbind option_bind].
    destruct (_ <=? len (drop _ (drop _ _))) eqn:E3; [|done]. bprop. exfalso.
    unfold len in *. rewrite !length_drop in *. lia.
Qed.

(** The bound test of the merge wraps: for a write whose end is 2^32 or
    more, [objOffset + inDataLen] is computed modulo 2^32, the test passes, and
    [memcpy] writes outside the copyup data (no result here). *)
Theorem merge_overflow (o : OpRequestOps) (l : list OpRequestOps) (data : bytes)
  (Hm : merged o = true) (Hoff : 0 <= objOffset o < 2 ^ 32) (Hin : 0 < inDataLen o <= len data)
  (Hwrap : 2 ^ 32 <= objOffset o + inDataLen o) (Hlen : len data < 2 ^ 32) :
  u32 (objOffset o + inDataLen o) <= len data /\ merge (len data) (o :: l) data = None.
Proof.
  assert (u32 (objOffset o + inDataLen o) = objOffset o + inDataLen o - 2 ^ 32) as Hu.
  { unfold u32, wrap. symmetry. apply Z.mod_unique with 1; lia. }
  split; [lia|]. cbn [merge]. rewrite Hm, Hu.
  replace (len data <? objOffset o + inDataLen o - 2 ^ 32) with false by lia.
  unfold memcpy. by replace (objOffset o + inDataLen o <=? len data) with false by lia.
Qed.

Definition write_op (off : Z) (d : bytes) : OpRequestOps :=
  MsgModule.set_in (Some d) (len d) (MsgModule.set_range off (len d)
    (MsgModule.set_type CEPH_OSD_OP_WRITE (MsgModule.new_op (bs "o")))).

Definition copyup_ctx (l : list OpRequestOps) (in_len : Z) (payload : bytes) : ctx :=
  {| opReq := {| vecOps := MsgModule.set_type CEPH_OSD_OP_CALL (MsgModule.new_op (bs "o")) :: l;
                 optionType := 1; optionLength := 0; opType := 0; req_snapId := 0; tid := 3; opsSequence := 0;
                 ptrMosdop := 7; ptId := 0; req_poolId := 1; ts := 0; snapSeq := 0; snaps := [];
                 exitsCopyUp := 1; copyupFlag := true; ptVersion := 0 |};
     opId := 0; oid := bs "o";
     msg_ops := [{| osd_op := {| op := CEPH_OSD_OP_CALL; op_flags := 0; extent_offset := 0; extent_length := 0;
                                 name_len := 0; value_len := 0; cmp_op := 0; cmp_mode := MODE_OTHER 0;
                                 class_len := 3; method_len := 6; cls_indata_len := in_len; snapid := 0;
                                 writesame_offset := 0; writesame_length := 0 |};
                    indata := bs "rbdcopyup" ++ payload; outdata := []; rval := 0 |}] |}.

Definition engine_ok : engine := fun _ l => (0, l).

(** Two overlapping writes into a parent of eight bytes: a byte of the parent,
    one of the first write, and one that both write. *)
Lemma MergeCopyup_correct_witness :
  let c := copyup_ctx [write_op 2 (bs "XYZ"); write_op 4 (bs "12")] 8 (bs "abcdefgh") in
  exists d, len d = 8 /\ d !! 1%nat = Some "b"%char /\ d !! 3%nat = Some "Y"%char /\ d !! 4%nat = Some "1"%char /\
    MergeCopyup engine_ok c (bs "abcdefgh") = Some (10, set_ops (msg_ops c) c).
Proof.
  intros c.
  destruct (proj1 (MergeCopyup_correct engine_ok c
    (MsgModule.set_type CEPH_OSD_OP_CALL (MsgModule.new_op (bs "o"))) (bs "abcdefgh") eq_refl eq_refl))
    as (d & H1 & H2 & H2' & _ & _ & _ & _ & _ & H3).
  - repeat (constructor; [intros _ _; vm_compute; repeat split; discriminate|]). constructor.
  - exists d. split; [exact H1|]. change (len (bs "abcdefgh")) with 8 in H2, H2'.
    split; [|split; [|split; [|exact H3]]].
    + apply (H2' 1 ltac:(lia)). intros [|[|k]] o [= <-]; by apply not_covers.
    + refine (H2 3 0%nat _ ltac:(lia) eq_refl _ _); [split; [done|vm_compute; by split]|].
      intros [|[|k]] o Hk [= <-]; [lia|by apply not_covers].
    + refine (H2 4 1%nat _ ltac:(lia) eq_refl _ _); [split; [done|vm_compute; by split]|].
      intros [|[|k]] o Hk [= <-]; lia.
Defined.

(** A copyup with a write behind it, and one that declares one byte more than
    it carries. *)
Lemma copyup_flag_released_witness :
  let exec c := @OSA_ExecClass le_ints (fun _ => None) engine_ok None (fun _ => 0) (fun _ _ => None) (Some c) in
  let good := copyup_ctx [write_op 2 (bs "XYZ")] 8 (bs "abcdefgh") in
  let short := copyup_ctx [] 9 (bs "abcdefgh") in
  (exists r, exec good = Some r /\ e_reset r = true) /\
  exec short = Some {| e_ret := - EINVAL; e_ctx := Some short; e_reset := false |}.
Proof.
  intros exec good short. split.
  - refine (proj1 (proj2 (@copyup_flag_released le_ints (fun n b => take (Z.to_nat n) b) (fun _ => None) engine_ok None
      (fun _ => 0) (fun _ _ => None) good _ eq_refl _ _)) _ eq_refl _ _).
    + vm_compute. reflexivity.
    + discriminate.
    + exact (mk_is_Some _ (bs "rbd", bs "copyup", bs "abcdefgh") eq_refl).
    + eexists. reflexivity.
    + constructor; [|constructor]. intros _ _. vm_compute. repeat split; discriminate.
  - refine (proj2 (proj2 (@copyup_flag_released le_ints (fun _ _ => []) (fun _ => None) engine_ok None (fun _ => 0)
      (fun _ _ => None) short _ eq_refl _ _)) _ _ _).
    + vm_compute. reflexivity.
    + discriminate.
    + discriminate.
    + discriminate.
    + reflexivity.
Defined.

Lemma merge_overflow_witness :
  merge 8 [write_op (2 ^ 32 - 1) (bs "AB")] (bs "abcdefgh") = None.
Proof.
  refine (proj2 (merge_overflow (write_op (2 ^ 32 - 1) (bs "AB")) [] (bs "abcdefgh") _ _ _ _ _));
    vm_compute; try (split; [discriminate|reflexivity]); try (split; [reflexivity|discriminate]);
    try discriminate; reflexivity.
Defined.
End OsaExec.
