(* ===== verification/ClassHandler.v ===== *)
(** * [ClassHandler.cc]: loading object classes and their dependencies

    The handler keeps a map of classes, each with a status and the classes it
    depends on; [open_class] loads a class and, first, every dependency that is not
    open yet.  The dynamic loader is the parameter [dlopen]: the library of a name
    with the names its [class_deps] lists and the calls of [class_api.cc] its
    [__cls_init] makes, to register itself and its methods.  A pointer to a [ClassData] is the class's name; the order of a set
    of pointers is the parameter [by_address]. *)

From S2P Require Import Prelude CStr.

Module ClassHandler.

Inductive Status := CLASS_UNKNOWN | CLASS_MISSING | CLASS_MISSING_DEPS | CLASS_INITIALIZING | CLASS_OPEN.
#[export] Instance Status_eq_dec : EqDecision Status.
Proof. solve_decision. Defined.

(** A function of a library, by a number: it takes the input and makes the result and
    the output. *)
Record ClassMethod := { flags : Z; func : option Z; cxx_func : option Z }.

Record ClassData := {
  status : Status; handle : bool; whitelisted : bool;
  methods_map : gmap bytes ClassMethod; filters_map : gmap bytes Z;
  dependencies : list bytes; missing_dependencies : list bytes
}.

(** [classes] *)
Abbreviation classes := (gmap bytes ClassData).

(** What [__cls_init] does with the handle [cls_register] gave it. *)
Inductive init_call :=
| cls_register_method (method : bytes) (flags class_call : Z)
| cls_register_cxx_method (method : bytes) (flags class_call : Z).

Record library := { class_deps : list bytes; cls_init : option (bytes * list init_call) }.

Section handler.
(** [stat_errno]: why a library cannot be opened -- [stat]'s error number for its file, or
    [EIO] when the file is there. *)
Context (dlopen : bytes -> option library) (stat_errno : bytes -> Z).
Context (osd_class_load_list osd_class_default_list : bytes) (by_address : list bytes -> list bytes).

(** The words of a list, separated by white space. *)
Definition in_class_list (cname list : bytes) : bool :=
  existsb (fun w => bytes_eqb w cname || bytes_eqb w (bs "*")) (strtok isspace list).

Definition _get_class (cname : bytes) (check_allowed : bool) (s : classes) : option classes :=
  match s !! cname with
  | Some _ => Some s
  | None =>
      if check_allowed && negb (in_class_list cname osd_class_load_list) then None
      else Some (<[cname := {| status := CLASS_UNKNOWN; handle := false;
                               whitelisted := in_class_list cname osd_class_default_list;
                               methods_map := ∅; filters_map := ∅; dependencies := []; missing_dependencies := [] |}]> s)
  end.

Definition set_status (st : Status) (d : ClassData) : ClassData :=
  {| status := st; handle := handle d; whitelisted := whitelisted d; methods_map := methods_map d; filters_map := filters_map d;
     dependencies := dependencies d; missing_dependencies := missing_dependencies d |}.
Definition set_missing (l : list bytes) (d : ClassData) : ClassData :=
  {| status := status d; handle := handle d; whitelisted := whitelisted d; methods_map := methods_map d; filters_map := filters_map d;
     dependencies := dependencies d; missing_dependencies := l |}.

(** [std::set::insert] *)
Definition set_insert (x : bytes) (l : list bytes) : list bytes :=
  if bool_decide (x ∈ l) then l else l ++ [x].

Definition is_open (s : classes) (n : bytes) : Prop := exists d, s !! n = Some d /\ status d = CLASS_OPEN.
#[export] Instance is_open_dec s n : Decision (is_open s n).
Proof.
  unfold is_open. destruct (s !! n) as [d|] eqn:E.
  - destruct (decide (status d = CLASS_OPEN)); [left; by exists d|right; by intros (d' & [= <-] & ?)].
  - right. by intros (d' & ? & ?).
Defined.

(** One dependency of [n], as [class_deps] names it. *)
Definition add_dep (n dep : bytes) (s : classes) : classes :=
  let s := default s (_get_class dep false s) in
  alter (fun d => {| status := status d; handle := handle d; whitelisted := whitelisted d;
                     methods_map := methods_map d; filters_map := filters_map d;
                     dependencies := set_insert dep (dependencies d);
                     missing_dependencies := if bool_decide (is_open s dep) then missing_dependencies d
                                             else set_insert dep (missing_dependencies d) |}) n s.

(** [cls->handle = dlopen(...)] and the loop over the dependencies. *)
Definition open_handle (n : bytes) (lib : library) (s : classes) : classes :=
  let s := alter (fun d => {| status := status d; handle := true; whitelisted := whitelisted d;
                              methods_map := methods_map d; filters_map := filters_map d; dependencies := dependencies d;
                              missing_dependencies := missing_dependencies d |}) n s in
  fold_left (fun s dep => add_dep n dep s) (class_deps lib) s.

(** *** Methods and filters *)

Definition set_methods (m : gmap bytes ClassMethod) (d : ClassData) : ClassData :=
  {| status := status d; handle := handle d; whitelisted := whitelisted d; methods_map := m; filters_map := filters_map d;
     dependencies := dependencies d; missing_dependencies := missing_dependencies d |}.
Definition set_filters (m : gmap bytes Z) (d : ClassData) : ClassData :=
  {| status := status d; handle := handle d; whitelisted := whitelisted d; methods_map := methods_map d; filters_map := m;
     dependencies := dependencies d; missing_dependencies := missing_dependencies d |}.

(** [methods_map[mname]], with the members of a new entry. *)
Definition method_of (mname : bytes) (d : ClassData) : ClassMethod :=
  default {| flags := 0; func := None; cxx_func := None |} (methods_map d !! mname).

(** Whether a method is returned, and the class. *)
Definition register_method (mname : bytes) (fl fn : Z) (d : ClassData) : bool * ClassData :=
  if fl =? 0 then (false, d) else
  (true, set_methods (<[mname := {| flags := fl; func := Some fn; cxx_func := cxx_func (method_of mname d) |}]> (methods_map d)) d).
Definition register_cxx_method (mname : bytes) (fl fn : Z) (d : ClassData) : bool * ClassData :=
  (true, set_methods (<[mname := {| flags := fl; func := func (method_of mname d); cxx_func := Some fn |}]> (methods_map d)) d).
Definition register_cxx_filter (filter_name : bytes) (fn : Z) (d : ClassData) : ClassData :=
  set_filters (<[filter_name := fn]> (filters_map d)) d.

Definition unregister_method (mname : bytes) (d : ClassData) : ClassData := set_methods (delete mname (methods_map d)) d.
Definition unregister_filter (filter_name : bytes) (d : ClassData) : ClassData := set_filters (delete filter_name (filters_map d)) d.

Definition _get_method (mname : bytes) (d : ClassData) : option ClassMethod := methods_map d !! mname.
Definition get_method_flags (mname : bytes) (d : ClassData) : Z :=
  match _get_method mname d with Some m => flags m | None => - ENOENT end.
Definition get_filter (filter_name : bytes) (d : ClassData) : option Z := filters_map d !! filter_name.

(** [ClassMethod::exec]: the C++ function works on the output, what the C function
    allocated is appended to it.  [None]: a method with neither. *)
Definition exec {C} (cxx_call : Z -> C -> bytes -> bytes -> Z * bytes * C) (call : Z -> C -> bytes -> Z * option bytes * C)
    (m : ClassMethod) (ctx : C) (indata outdata : bytes) : option (Z * bytes * C) :=
  match cxx_func m, func m with
  | Some f, _ => Some (cxx_call f ctx indata outdata)
  | None, Some f => let '(ret, out, ctx) := call f ctx indata in
                    Some (ret, match out with Some o => outdata ++ o | None => outdata end, ctx)
  | None, None => None
  end.

(** The class API for one class: the result of the call. *)
Definition CLS_METHOD_RD : Z := 1.
Definition CLS_METHOD_WR : Z := 2.
Definition api_call (c : init_call) (d : ClassData) : Z * ClassData :=
  match c with
  | cls_register_method m fl fn =>
      if Z.land fl (Z.lor CLS_METHOD_RD CLS_METHOD_WR) =? 0 then (- EINVAL, d) else
      let '(ok, d) := register_method (c_str m) fl fn d in (if ok then 1 else 0, d)
  | cls_register_cxx_method m fl fn => let '(ok, d) := register_cxx_method (c_str m) fl fn d in (if ok then 1 else 0, d)
  end.

(** [register_class]: the handle, unless the class is not being initialized. *)
Definition register_class (cname : bytes) (s : classes) : option bytes * classes :=
  let s := default s (_get_class cname false s) in
  (match s !! cname with
   | Some d => if bool_decide (status d = CLASS_INITIALIZING) then Some cname else None
   | None => None
   end, s).

(** [cls_register]: the handle, and whether it is one. *)
Definition cls_register (name : bytes) (s : classes) : option bytes * Z * classes :=
  let '(h, s) := register_class (c_str name) s in (h, match h with Some _ => 1 | None => 0 end, s).

(** [__cls_init] of a library that registers as [name]; [None]: it uses the null handle
    it got for another name than its class's. *)
Definition run_init (name : bytes) (calls : list init_call) (s : classes) : option classes :=
  let '(h, _, s) := cls_register name s in
  match h with
  | Some n => Some (alter (fun d => fold_left (fun d c => snd (api_call c d)) calls d) n s)
  | None => match calls with [] => Some s | _ => None end
  end.

Definition initialize (n : bytes) (s : classes) : option classes :=
  s ← match dlopen n with
      | Some lib => match cls_init lib with
                    | Some (name, calls) => run_init name calls (alter (set_status CLASS_INITIALIZING) n s)
                    | None => Some s
                    end
      | None => Some s
      end;
  Some (alter (set_status CLASS_OPEN) n s).

(** The loop over [missing_dependencies]. *)
Fixpoint resolve (load : bytes -> classes -> option (Z * classes)) (n : bytes) (todo : list bytes)
    (s : classes) : option (Z * classes) :=
  match todo with
  | [] => Some (0, s)
  | dc :: rest =>
      '(r, s) ← load dc s;
      if r <? 0 then Some (r, alter (set_status CLASS_MISSING_DEPS) n s)
      else resolve load n rest
             (alter (fun d => set_missing (filter (fun x => x <> dc) (missing_dependencies d)) d) n s)
  end.

Definition missing_of (n : bytes) (s : classes) : list bytes :=
  match s !! n with Some d => missing_dependencies d | None => [] end.

(** [_load_class]; [None] when the fuel runs out, or a library misuses the API. *)
Fixpoint _load_class (fuel : nat) (n : bytes) (s : classes) : option (Z * classes) :=
  match fuel with
  | O => None
  | S f =>
      d ← s !! n;
      if bool_decide (status d = CLASS_OPEN) then Some (0, s) else
      let rest s :=
        '(r, s) ← resolve (_load_class f) n (by_address (missing_of n s)) s;
        if r <? 0 then Some (r, s) else s ← initialize n s; Some (0, s) in
      if bool_decide (status d = CLASS_UNKNOWN) || bool_decide (status d = CLASS_MISSING) then
        match dlopen n with
        | None => Some (- stat_errno n, alter (set_status CLASS_MISSING) n s)
        | Some lib => rest (open_handle n lib s)
        end
      else rest s
  end.

Definition open_class (fuel : nat) (cname : bytes) (s : classes) : option (Z * classes) :=
  match _get_class cname true s with
  | None => Some (- EPERM, s)
  | Some s => _load_class fuel cname s
  end.

(** [shutdown]: the number of handles closed, and the empty map. *)
Definition shutdown (s : classes) : Z * classes :=
  (len (filter (fun p => handle p.2 = true) (map_to_list s)), ∅).

Definition get_method (cname mname : bytes) (s : classes) : option ClassMethod :=
  d ← s !! cname; _get_method mname d.

(** [add_embedded_class]; [None] is its assertion. *)
Definition add_embedded_class (cname : bytes) (s : classes) : option classes :=
  let s := default s (_get_class cname false s) in
  d ← s !! cname;
  if bool_decide (status d = CLASS_UNKNOWN) then Some (alter (set_status CLASS_INITIALIZING) cname s) else None.

(** The class a file of the class directory holds: [libcls_<cname>.so]. *)
Definition CLS_PREFIX : bytes := bs "libcls_".
Definition CLS_SUFFIX : bytes := bs ".so".
Definition class_of_file (d_name : bytes) : option bytes :=
  let n := length d_name in
  if Nat.ltb (length CLS_PREFIX + length CLS_SUFFIX) n && bytes_eqb (take (length CLS_PREFIX) d_name) CLS_PREFIX
     && bytes_eqb (drop (n - length CLS_SUFFIX) d_name) CLS_SUFFIX
  then Some (take (n - length CLS_SUFFIX - length CLS_PREFIX) (drop (length CLS_PREFIX) d_name)) else None.

(** [pde->d_name[0] == '.'] *)
Definition hidden (f : bytes) : bool := match f with c :: _ => Ascii.eqb c "."%char | [] => false end.

(** The loop over the directory; [r] is what the last [open_class] returned. *)
Fixpoint open_files (fuel : nat) (files : list bytes) (r : Z) (s : classes) : option (Z * classes) :=
  match files with
  | [] => Some (r, s)
  | f :: rest =>
      match (if hidden f then None else class_of_file f) with
      | None => open_files fuel rest r s
      | Some cname =>
          '(r, s) ← open_class fuel cname s;
          if (r <? 0) && negb (r =? - EPERM) then Some (r, s) else open_files fuel rest r s
      end
  end.

(** [open_all_classes]; the directory is an error number or its names. *)
Definition open_all_classes (fuel : nat) (dir : Z + list bytes) (s : classes) : option (Z * classes) :=
  match dir with
  | inl errno => Some (- errno, s)
  | inr files => open_files fuel files 0 s
  end.

(** [rpc_init] of osa.cpp: the two classes the server starts with. *)
Definition rpc_init (fuel : nat) (s : classes) : option (Z * classes) :=
  '(ret, s) ← open_class fuel (bs "rgw") s;
  if negb (ret =? 0) then Some (ret, s) else
  '(ret, s) ← open_class fuel (bs "lock") s;
  Some (if negb (ret =? 0) then ret else 0, s).

(** ** Loading, when the libraries' dependencies have no cycle *)
Section loading.
Context (rank : bytes -> nat).
Hypothesis (Hrank : forall n lib d, dlopen n = Some lib -> d ∈ class_deps lib -> (rank d < rank n)%nat).
Hypothesis (Horder : forall l, by_address l ≡ₚ l).
Hypothesis (Herrno : forall n, 0 < stat_errno n).
(** A library registers under the name it is loaded by. *)
Hypothesis (Hinit : forall n lib name calls, dlopen n = Some lib -> cls_init lib = Some (name, calls) -> c_str name = n).

(** [s'] knows at least the classes of [s], and those open stay open. *)
Definition mono (s s' : classes) : Prop :=
  (forall m, is_Some (s !! m) -> is_Some (s' !! m)) /\ (forall m, is_open s m -> is_open s' m).

(** A class of the map: its dependencies are known and either missing or
    open, and an open class misses none. *)
Definition data_ok (s : classes) (n : bytes) (d : ClassData) : Prop :=
  (forall m, m ∈ dependencies d -> (rank m < rank n)%nat /\ is_Some (s !! m) /\
                                   (m ∈ missing_dependencies d \/ is_open s m)) /\
  (forall m, m ∈ missing_dependencies d -> m ∈ dependencies d) /\
  (status d = CLASS_OPEN -> missing_dependencies d = [] /\ handle d = true) /\
  status d <> CLASS_INITIALIZING /\ (status d = CLASS_MISSING_DEPS -> handle d = true).

Definition wf (s : classes) : Prop := forall n d, s !! n = Some d -> data_ok s n d.

(** Loading [n] leaves the classes of its rank and above alone. *)
Definition ext (n : bytes) (s s' : classes) : Prop :=
  mono s s' /\ forall m, m <> n -> (rank n <= rank m)%nat -> s' !! m = s !! m.

Lemma mono_trans s1 s2 s3 : mono s1 s2 -> mono s2 s3 -> mono s1 s3.
Proof. intros [] []. split; eauto. Qed.

Lemma ext_trans n s1 s2 s3 : ext n s1 s2 -> ext n s2 s3 -> ext n s1 s3.
Proof.
  intros [M1 F1] [M2 F2]. split; [by eapply mono_trans|]. intros m Hm Hr. by rewrite F2, F1.
Qed.

Lemma ext_below n dc s s' : (rank dc < rank n)%nat -> ext dc s s' -> ext n s s' /\ s' !! n = s !! n.
Proof.
  intros Hr [M F]. split; [split; [done|]|].
  - intros m Hm Hn. apply F; [|lia]. intros ->. lia.
  - apply F; [|lia]. intros ->. lia.
Qed.

Lemma data_ok_mono s s' n d : mono s s' -> data_ok s n d -> data_ok s' n d.
Proof.
  intros [M1 M2] (H1 & H2). split; [|done]. intros m Hm.
  destruct (H1 m Hm) as (Hr & Hs & Ho). split; [done|]. split; [by apply M1|].
  destruct Ho as [|Ho]; [by left|right; by apply M2].
Qed.

Lemma mono_insert s n d' : (is_open s n -> status d' = CLASS_OPEN) -> mono s (<[n := d']> s).
Proof.
  intros Ho. split.
  - intros m Hm. destruct (decide (m = n)) as [->|]; [by rewrite lookup_insert_eq|by rewrite lookup_insert_ne].
  - intros m Hm. unfold is_open. destruct (decide (m = n)) as [->|].
    + rewrite lookup_insert_eq. exists d'. split; [done|]. by apply Ho.
    + by rewrite lookup_insert_ne.
Qed.

Lemma insert_ok s n d' : wf s -> (is_open s n -> status d' = CLASS_OPEN) -> data_ok s n d' ->
  wf (<[n := d']> s) /\ ext n s (<[n := d']> s).
Proof.
  intros Hw Ho Hd. pose proof (mono_insert s n d' Ho) as Hm. split; [|split; [done|]].
  - intros m d Hl. apply (data_ok_mono s); [done|]. destruct (decide (m = n)) as [->|].
    + rewrite lookup_insert_eq in Hl. by injection Hl as <-.
    + rewrite lookup_insert_ne in Hl by done. by apply Hw.
  - intros m Hne _. by rewrite lookup_insert_ne.
Qed.

Lemma alter_insert_eq (f : ClassData -> ClassData) (n : bytes) (s : classes) (d : ClassData) :
  s !! n = Some d -> alter f n s = <[n := f d]> s.
Proof.
  intros Hd. apply map_eq. intros m. destruct (decide (m = n)) as [->|].
  - by rewrite lookup_alter_eq, lookup_insert_eq, Hd.
  - by rewrite lookup_alter_ne, lookup_insert_ne.
Qed.

Lemma not_open s n d : s !! n = Some d -> status d <> CLASS_OPEN -> ~ is_open s n.
Proof. intros Hd Hs (d' & Hd' & Ho). rewrite Hd in Hd'. by injection Hd' as <-. Qed.

Lemma get_class_ok n dep s : wf s -> (rank dep < rank n)%nat ->
  exists s', _get_class dep false s = Some s' /\ wf s' /\ ext n s s' /\ is_Some (s' !! dep) /\ s' !! n = s !! n.
Proof.
  intros Hw Hr. unfold _get_class. destruct (s !! dep) as [d|] eqn:E.
  - exists s. split; [done|]. split; [done|]. split; [by split|]. by rewrite E.
  - cbn [andb]. eexists. split; [reflexivity|].
    match goal with |- wf (<[dep := ?d]> s) /\ _ => destruct (insert_ok s dep d) as [Hw' He] end.
    + done.
    + intros (d & Hd & _). by rewrite E in Hd.
    + split; [by intros m Hm%elem_of_nil|]. by split; [intros m Hm%elem_of_nil|].
    + split; [done|]. destruct (ext_below n dep _ _ Hr He) as [He' Hn].
      split; [done|]. split; [by rewrite lookup_insert_eq|done].
Qed.

Lemma elem_of_set_insert x y l : x ∈ set_insert y l <-> x = y \/ x ∈ l.
Proof.
  unfold set_insert. case_bool_decide as Hy.
  - split; [by right|]. by intros [->|].
  - rewrite elem_of_app, list_elem_of_singleton. tauto.
Qed.

(** A class being loaded: known, its library open, not open itself. *)
Definition loading (s : classes) (n : bytes) : Prop :=
  exists d, s !! n = Some d /\ status d <> CLASS_OPEN /\ handle d = true.

Lemma add_dep_ok n dep s : wf s -> loading s n -> (rank dep < rank n)%nat ->
  wf (add_dep n dep s) /\ ext n s (add_dep n dep s) /\ loading (add_dep n dep s) n.
Proof.
  intros Hw (d & Hd & Hs & Hh) Hr. unfold add_dep.
  destruct (get_class_ok n dep s Hw Hr) as (s1 & -> & Hw1 & He1 & Hdep & Hn1). cbn [default].
  rewrite Hd in Hn1. rewrite (alter_insert_eq _ _ _ _ Hn1).
  destruct (Hw1 _ _ Hn1) as (H1 & H2 & H3 & H4 & H5).
  match goal with |- wf (<[n := ?d']> s1) /\ _ => destruct (insert_ok s1 n d') as [Hw2 He2] end.
  - done.
  - intros Ho. by apply (not_open _ _ _ Hn1) in Ho.
  - split; [|split; [|split; [|split]]]; cbn [dependencies missing_dependencies status handle].
    + intros m [->|Hm]%elem_of_set_insert.
      * split; [done|]. split; [done|]. case_bool_decide as Ho; [by right|left].
        apply elem_of_set_insert. by left.
      * destruct (H1 m Hm) as (G1 & G2 & G3). split; [done|]. split; [done|].
        destruct G3 as [G3|G3]; [left|by right]. case_bool_decide; [done|].
        apply elem_of_set_insert. by right.
    + intros m Hm. apply elem_of_set_insert. case_bool_decide; [right; by apply H2|].
      apply elem_of_set_insert in Hm as [->|Hm]; [by left|right; by apply H2].
    + done.
    + done.
    + done.
  - split; [done|]. split; [by eapply ext_trans|]. eexists. by rewrite lookup_insert_eq.
Qed.

Lemma open_handle_ok n lib s d : wf s -> s !! n = Some d -> status d <> CLASS_OPEN ->
  dlopen n = Some lib ->
  wf (open_handle n lib s) /\ ext n s (open_handle n lib s) /\ loading (open_handle n lib s) n.
Proof.
  intros Hw Hd Hs Hlib. unfold open_handle. rewrite (alter_insert_eq _ _ _ _ Hd).
  destruct (Hw _ _ Hd) as (H1 & H2 & H3 & H4 & H5).
  match goal with |- context [<[n := ?d']> s] => destruct (insert_ok s n d') as [Hw1 He1];
    [done|intros Ho; by apply (not_open _ _ _ Hd) in Ho|by split|];
    assert (loading (<[n := d']> s) n) as Hl1 by (eexists; by rewrite lookup_insert_eq);
    revert Hw1 He1 Hl1; generalize (<[n := d']> s) end.
  assert (Forall (fun m => (rank m < rank n)%nat) (class_deps lib)) as Hf.
  { apply Forall_forall. intros m Hm. by eapply Hrank. }
  revert Hf. generalize (class_deps lib). clear -Hw. intros l Hf.
  induction Hf as [|m l Hm Hf IH]; intros s1 Hw1 He1 Hl1; [done|]. cbn [fold_left].
  destruct (add_dep_ok n m s1 Hw1 Hl1 Hm) as (Hw2 & He2 & Hl2). apply IH; [done|by eapply ext_trans|done].
Qed.

(** The results of a load: an error is that of a library that could not be opened. *)
Definition errs (r : Z) : Prop := r = 0 \/ exists m, dlopen m = None /\ r = - stat_errno m.
Lemma errs_le r : errs r -> r <= 0.
Proof. intros [->|(m & _ & ->)]; [done|]. pose proof (Herrno m). lia. Qed.

(** What a call that loads [n] promises. *)
Definition loads (load : bytes -> classes -> option (Z * classes)) (n : bytes) : Prop :=
  forall s, wf s -> is_Some (s !! n) ->
  exists r s', load n s = Some (r, s') /\ wf s' /\ ext n s s' /\ errs r /\ (r = 0 <-> is_open s' n).

Lemma resolve_ok load n todo s :
  (forall m, (rank m < rank n)%nat -> loads load m) -> wf s -> loading s n ->
  (forall x, x ∈ missing_of n s -> x ∈ todo) ->
  (forall x, x ∈ todo -> (rank x < rank n)%nat /\ is_Some (s !! x)) ->
  exists r s', resolve load n todo s = Some (r, s') /\ wf s' /\ ext n s s' /\ errs r /\
    (r = 0 -> loading s' n /\ missing_of n s' = []) /\ (r < 0 -> ~ is_open s' n).
Proof.
  intros Hload. revert s. induction todo as [|dc todo IH]; intros s Hw Hl Hmiss Htodo.
  - exists 0, s. split; [done|]. split; [done|]. split; [by split|]. split; [by left|]. split; [|lia].
    intros _. split; [done|]. destruct (missing_of n s) as [|x l]; [done|].
    specialize (Hmiss x ltac:(left)). by apply elem_of_nil in Hmiss.
  - destruct (Htodo dc ltac:(left)) as [Hr Hdc]. destruct (Hload dc Hr s Hw Hdc) as (r & s1 & E1 & Hw1 & He1 & Hr0 & Hopen).
    cbn [resolve]. rewrite E1. cbn [mbind option_bind].
    destruct (ext_below n dc _ _ Hr He1) as [He1' Hn1].
    destruct Hl as (d & Hd & Hs & Hh). rewrite Hd in Hn1.
    destruct (Hw1 _ _ Hn1) as (H1 & H2 & H3 & H4 & H5).
    assert (forall d', is_open s1 n -> status d' = CLASS_OPEN) as Hno.
    { intros d' Ho. by apply (not_open _ _ _ Hn1) in Ho. }
    destruct (r <? 0) eqn:Er; bprop.
    + rewrite (alter_insert_eq _ _ _ _ Hn1). eexists _, _. split; [reflexivity|].
      destruct (insert_ok s1 n (set_status CLASS_MISSING_DEPS d)) as [Hw2 He2]; [done|apply Hno|split_and!; done|].
      split; [done|]. split; [by eapply ext_trans|]. split; [done|]. split; [lia|].
      intros _ (d' & Hd' & Ho). rewrite lookup_insert_eq in Hd'. by injection Hd' as <-.
    + assert (r = 0) as -> by (apply errs_le in Hr0; lia). pose proof (proj1 Hopen eq_refl) as Hdo.
      rewrite (alter_insert_eq _ _ _ _ Hn1). set (d' := set_missing _ d).
      destruct (insert_ok s1 n d') as [Hw2 He2]; [done|apply Hno| |].
      { split; [|split; [|split; [|split]]]; [| |by intros Ho|done|done].
        - intros m Hm. destruct (H1 m Hm) as (G1 & G2 & G3). split; [done|]. split; [done|].
          destruct G3 as [G3|G3]; [|by right]. destruct (decide (m = dc)) as [->|]; [by right|].
          left. by apply list_elem_of_filter.
        - intros m Hm. apply list_elem_of_filter in Hm as [_ Hm]. by apply H2. }
      destruct (IH (<[n := d']> s1)) as (r' & s' & E2 & Hw3 & He3 & Hr3 & H6 & H7); [done| | | |].
      * exists d'. by rewrite lookup_insert_eq.
      * intros x. unfold missing_of. rewrite lookup_insert_eq. cbn. intros [Hne Hx]%list_elem_of_filter.
        specialize (Hmiss x). unfold missing_of in Hmiss. rewrite Hd in Hmiss.
        apply Hmiss in Hx. apply elem_of_cons in Hx as [->|]; done.
      * intros x Hx. destruct (Htodo x ltac:(by right)) as [G1 G2]. split; [done|].
        apply (proj1 (proj1 He2)), (proj1 (proj1 He1)). done.
      * exists r', s'. split; [done|]. split; [done|].
        split; [eapply ext_trans; [exact He1'|by eapply ext_trans]|done].
Qed.

(** The calls of the class API leave everything but the methods alone. *)
Lemma api_calls_methods calls d :
  exists m, fold_left (fun d c => snd (api_call c d)) calls d = set_methods m d.
Proof.
  revert d. induction calls as [|c calls IH]; intros d; [exists (methods_map d); by destruct d|]. cbn [fold_left].
  destruct (IH (snd (api_call c d))) as [m ->].
  destruct c as [mn fl fn|mn fl fn]; cbn [api_call]; [|by eexists]. destruct (_ =? 0); [by eexists|].
  unfold register_method. destruct (fl =? 0); by eexists.
Qed.

Lemma run_init_own n calls s d : s !! n = Some d -> status d = CLASS_INITIALIZING -> forall name, c_str name = n ->
  run_init name calls s = Some (<[n := fold_left (fun d c => snd (api_call c d)) calls d]> s).
Proof.
  intros Hd Hs name <-. unfold run_init, cls_register, register_class, _get_class. rewrite Hd. cbn. rewrite ?Hd.
  rewrite bool_decide_true by done. by rewrite (alter_insert_eq _ _ _ _ Hd).
Qed.

(** What [initialize] makes of a class: its own methods, and open. *)
Definition initialized (n : bytes) (d : ClassData) : ClassData :=
  set_status CLASS_OPEN
    match lib ← dlopen n; cls_init lib with
    | Some (_, calls) => fold_left (fun d c => snd (api_call c d)) calls (set_status CLASS_INITIALIZING d)
    | None => d
    end.

Lemma initialize_spec n s d : s !! n = Some d -> initialize n s = Some (<[n := initialized n d]> s).
Proof.
  intros Hd. unfold initialize, initialized. destruct (dlopen n) as [lib|] eqn:El; cbn [mbind option_bind].
  - destruct (cls_init lib) as [[name calls]|] eqn:Ec; cbn [mbind option_bind].
    + rewrite (alter_insert_eq _ _ _ _ Hd).
      rewrite (run_init_own n calls _ (set_status CLASS_INITIALIZING d)) 
        by first [by rewrite lookup_insert_eq|done|by eapply Hinit].
      cbn [mbind option_bind]. rewrite insert_insert_eq.
      erewrite alter_insert_eq by apply lookup_insert_eq. by rewrite insert_insert_eq.
    + by rewrite (alter_insert_eq _ _ _ _ Hd).
  - by rewrite (alter_insert_eq _ _ _ _ Hd).
Qed.

Lemma initialize_ok n s : wf s -> loading s n -> missing_of n s = [] ->
  exists s', initialize n s = Some s' /\ wf s' /\ ext n s s' /\ is_open s' n.
Proof.
  intros Hw (d & Hd & Hs & Hh) Hm. unfold missing_of in Hm. rewrite Hd in Hm. rewrite (initialize_spec n s d Hd).
  destruct (Hw _ _ Hd) as (H1 & H2 & H3 & H4 & H5). eexists. split; [reflexivity|].
  assert (status (initialized n d) = CLASS_OPEN /\ handle (initialized n d) = true /\
          dependencies (initialized n d) = dependencies d /\ missing_dependencies (initialized n d) = []) as (E1 & E2 & E3 & E4).
  { unfold initialized. destruct (dlopen n) as [lib|]; cbn [mbind option_bind]; [|done].
    destruct (cls_init lib) as [[name calls]|]; [|done].
    by destruct (api_calls_methods calls (set_status CLASS_INITIALIZING d)) as [m ->]. }
  destruct (insert_ok s n (initialized n d)) as [Hw1 He1]; [done|done| |].
  { split; [|split; [|split; [|split]]]; rewrite ?E1, ?E3, ?E4; try done.
    - intros m Hmd. destruct (H1 m Hmd) as (G1 & G2 & G3). rewrite Hm in G3. done.
    - by intros m ?%elem_of_nil. }
  split; [done|]. split; [done|]. eexists. by rewrite lookup_insert_eq.
Qed.

Lemma load_ok fuel n : (rank n < fuel)%nat -> loads (_load_class fuel) n.
Proof.
  revert n. induction fuel as [|f IH]; intros n Hf; [lia|]. intros s Hw [d Hd].
  cbn [_load_class]. rewrite Hd. cbn [mbind option_bind].
  case_bool_decide as Ho.
  { exists 0, s. split; [done|]. split; [done|]. split; [by split|]. split; [by left|].
    split; [by exists d|done]. }
  assert (forall s1, wf s1 -> ext n s s1 -> loading s1 n ->
    exists r s', ('(r, s) ← resolve (_load_class f) n (by_address (missing_of n s1)) s1;
                  if r <? 0 then Some (r, s) else s ← initialize n s; Some (0, s)) = Some (r, s') /\
      wf s' /\ ext n s s' /\ errs r /\ (r = 0 <-> is_open s' n)) as Hrest.
  { intros s1 Hw1 He1 Hl1.
    destruct (resolve_ok (_load_class f) n (by_address (missing_of n s1)) s1) as (r & s2 & E & Hw2 & He2 & Hr & H0 & Hn).
    - intros m Hm. apply IH. lia.
    - done.
    - done.
    - intros x Hx. by rewrite Horder.
    - intros x Hx. rewrite Horder in Hx. destruct Hl1 as (d1 & Hd1 & _). unfold missing_of in Hx.
      rewrite Hd1 in Hx. destruct (Hw1 _ _ Hd1) as (H1 & H2 & _). apply H2, H1 in Hx. tauto.
    - rewrite E. cbn [mbind option_bind]. destruct (r <? 0) eqn:Er; bprop.
      + exists r, s2. split; [done|]. split; [done|]. split; [by eapply ext_trans|]. split; [done|].
        split; [lia|]. intros Hop. by destruct (Hn Er).
      + destruct (H0 ltac:(apply errs_le in Hr; lia)) as [Hl2 Hm2]. destruct (initialize_ok n s2 Hw2 Hl2 Hm2) as (s3 & -> & Hw3 & He3 & Ho3).
        exists 0, s3. split; [done|]. split; [done|].
        split; [eapply ext_trans; [exact He1|by eapply ext_trans]|]. split; [by left|done]. }
  destruct (Hw _ _ Hd) as (H1 & H2 & H3 & H4 & H5).
  destruct (bool_decide (status d = CLASS_UNKNOWN) || bool_decide (status d = CLASS_MISSING)) eqn:Eu.
  - destruct (dlopen n) as [lib|] eqn:El.
    + destruct (open_handle_ok n lib s d Hw Hd Ho El) as (Hw1 & He1 & Hl1). by apply Hrest.
    + rewrite (alter_insert_eq _ _ _ _ Hd).
      destruct (insert_ok s n (set_status CLASS_MISSING d)) as [Hw1 He1];
        [done|intros Hop; by apply (not_open _ _ _ Hd) in Hop|split_and!; done|].
      eexists _, _. split; [reflexivity|]. split; [done|]. split; [done|].
      pose proof (Herrno n). split; [right; by exists n|]. split; [lia|]. intros (d' & Hd' & Hop).
      rewrite lookup_insert_eq in Hd'. by injection Hd' as <-.
  - apply Hrest; [done|by split|]. exists d. split; [done|]. split; [done|].
    apply orb_false_iff in Eu as [E1 E2]. apply bool_decide_eq_false in E1, E2.
    destruct (status d); try done. by apply H5.
Qed.

(** [open_class], on its two ways. *)
Lemma open_ok cname s fuel : wf s -> (rank cname < fuel)%nat ->
  exists r s', open_class fuel cname s = Some (r, s') /\ wf s' /\ mono s s' /\
    (if bool_decide (is_Some (s !! cname)) || in_class_list cname osd_class_load_list
     then errs r /\ (r = 0 <-> is_open s' cname) else r = - EPERM /\ s' = s).
Proof.
  intros Hwf Hfuel. unfold open_class, _get_class. destruct (s !! cname) as [d|] eqn:E.
  - rewrite bool_decide_true by done. cbn [orb].
    destruct (load_ok fuel cname Hfuel s Hwf ltac:(by eexists)) as (r & s' & -> & Hw' & [Hm _] & Hr & Ho).
    exists r, s'. by split_and!.
  - rewrite bool_decide_false by by intros [? ?]. cbn [orb andb].
    destruct (in_class_list cname osd_class_load_list); cbn [negb].
    + match goal with |- context [_load_class fuel cname (<[cname := ?d]> s)] =>
        destruct (insert_ok s cname d) as [Hw1 He1];
        [done|intros (d' & Hd' & _); by rewrite E in Hd'| |];
        [split; [by intros m Hm%elem_of_nil|]; by split; [intros m Hm%elem_of_nil|]|];
        destruct (load_ok fuel cname Hfuel (<[cname := d]> s) Hw1) as (r & s' & -> & Hw' & [Hm _] & Hr & Ho);
        [by rewrite lookup_insert_eq|] end.
      exists r, s'. split; [done|]. split; [done|]. split; [by eapply mono_trans; [apply He1|]|]. by split.
    + exists (- EPERM), s. by split_and!.
Qed.

(** C32: loading terminates, and an open class has everything it needs.  Let the
    libraries' dependencies have no cycle, let each library register under the name it is
    loaded by, and start from a well-formed map in which no class is being initialized, as
    the empty one.  Then [open_class] comes back (any fuel above the class's rank is
    enough) with a map that is well formed again -- every open class has its library and
    only open dependencies, directly and transitively -- and in which no open class was
    closed.  For a class that is neither known nor in the load list the result is [-EPERM]
    and the map is as it was; for any other class the result is 0 exactly when the class is
    open now, and otherwise the error of a library that could not be opened. *)
Theorem open_class_correct (cname : bytes) (s : classes) (fuel : nat)
  (Hwf : wf s) (Hfuel : (rank cname < fuel)%nat) :
  exists r s', open_class fuel cname s = Some (r, s') /\ wf s' /\ mono s s' /\
    (forall n d, s' !! n = Some d -> status d = CLASS_OPEN ->
       handle d = true /\ forall m, m ∈ dependencies d -> is_open s' m) /\
    (s !! cname = None -> in_class_list cname osd_class_load_list = false -> r = - EPERM /\ s' = s) /\
    (is_Some (s !! cname) \/ in_class_list cname osd_class_load_list = true ->
       (r = 0 <-> is_open s' cname) /\ (r = 0 \/ exists m, dlopen m = None /\ r = - stat_errno m)).
Proof.
  assert (forall s', wf s' -> forall n d, s' !! n = Some d -> status d = CLASS_OPEN ->
    handle d = true /\ forall m, m ∈ dependencies d -> is_open s' m) as Hopen.
  { intros s' Hw n d Hd Ho. destruct (Hw _ _ Hd) as (H1 & _ & H3 & _). destruct (H3 Ho) as [Hm Hh].
    split; [done|]. intros m Hdm. destruct (H1 m Hdm) as (_ & _ & [Hx|]); [|done].
    rewrite Hm in Hx. by apply elem_of_nil in Hx. }
  destruct (open_ok cname s fuel Hwf Hfuel) as (r & s' & Hr & Hw & Hm & Hc). exists r, s'.
  split; [done|]. split; [done|]. split; [done|]. split; [by apply Hopen|]. split.
  - intros Hn Hl. rewrite Hn, Hl, bool_decide_false in Hc by by intros [? ?]. exact Hc.
  - intros Hk. replace (_ || _) with true in Hc by (destruct Hk as [Hk|Hk]; [by rewrite bool_decide_true|by rewrite Hk, orb_true_r]).
    by destruct Hc.
Qed.

(** *** All classes of the directory *)

(** [open_all_classes] opens what it may.  It comes back whatever the directory
    holds; the map stays well formed and open classes stay open.  When it returns 0 or
    [-EPERM], every class with a file in the directory is open, unless the load list
    does not name it; any other result means that one of them could not be loaded --
    also [-EPERM] says only that the last file was one not to be loaded. *)
Theorem open_all_classes_correct (files : list bytes) (s : classes) (fuel : nat)
  (Hwf : wf s) (Hfuel : forall f c, f ∈ files -> class_of_file f = Some c -> (rank c < fuel)%nat)
  (Hstat : forall n, stat_errno n <> EPERM) :
  exists r s', open_all_classes fuel (inr files) s = Some (r, s') /\ wf s' /\ mono s s' /\
    (r = 0 \/ r = - EPERM -> forall f c, f ∈ files -> hidden f = false -> class_of_file f = Some c ->
       is_open s' c \/ in_class_list c osd_class_load_list = false) /\
    (r <> 0 -> r <> - EPERM -> exists f c, f ∈ files /\ class_of_file f = Some c /\ ~ is_open s' c).
Proof.
  unfold open_all_classes.
  enough (forall r, r = 0 \/ r = - EPERM -> exists r' s', open_files fuel files r s = Some (r', s') /\ wf s' /\ mono s s' /\
    (r' = 0 \/ r' = - EPERM -> forall f c, f ∈ files -> hidden f = false -> class_of_file f = Some c ->
       is_open s' c \/ in_class_list c osd_class_load_list = false) /\
    (r' <> 0 -> r' <> - EPERM -> exists f c, f ∈ files /\ class_of_file f = Some c /\ ~ is_open s' c)) as H by (apply H; by left).
  revert s Hwf. induction files as [|f files IH]; intros s Hwf r Hr.
  { exists r, s. split; [done|]. split; [done|]. split; [by split|]. split; [by intros _ f c Hf%elem_of_nil|tauto]. }
  cbn [open_files]. specialize (IH ltac:(intros; eapply Hfuel; [by right|done])).
  destruct (if hidden f then None else class_of_file f) as [cname|] eqn:Ec.
  2:{ destruct (IH s Hwf r Hr) as (r' & s' & H1 & H2 & H3 & H4 & H5). exists r', s'. split; [done|]. split; [done|]. split; [done|]. split.
      - intros Hr' g c [->|Hg]%elem_of_cons Hh Hc; [by rewrite Hh in Ec; rewrite Ec in Hc|by eapply H4].
      - intros Ha Hb. destruct (H5 Ha Hb) as (g & c & Hg & Hc). exists g, c. split; [by right|done]. }
  assert (hidden f = false /\ class_of_file f = Some cname) as [Hh Hc] by by destruct (hidden f).
  destruct (open_ok cname s fuel Hwf ltac:(eapply Hfuel; [by left|done])) as (r1 & s1 & -> & Hw1 & Hm1 & Hcase). cbn [mbind option_bind].
  destruct ((r1 <? 0) && negb (r1 =? - EPERM)) eqn:Er.
  - apply andb_true_iff in Er as [E1 E2]. bprop. exists r1, s1. split; [done|]. split; [done|]. split; [done|]. split; [unfold EPERM in *; lia|].
    intros _ _. exists f, cname. split; [by left|]. split; [done|]. intros Ho.
    destruct (_ || _); [|by destruct Hcase]. destruct Hcase as [_ Hcase]. apply Hcase in Ho. lia.
  - assert (r1 = 0 \/ r1 = - EPERM) as Hr1.
    { destruct (_ || _); [|right; tauto]. destruct Hcase as [He _]. pose proof (errs_le _ He).
      destruct (r1 <? 0) eqn:E1; cbn in Er; bprop; [right; lia|left; lia]. }
    destruct (IH s1 Hw1 r1 Hr1) as (r' & s' & H1 & H2 & H3 & H4 & H5). exists r', s'. split; [done|]. split; [done|].
    split; [by eapply mono_trans|]. split.
    + intros Hr' g c [->|Hg]%elem_of_cons Hhg Hcg; [|by eapply H4]. rewrite Hc in Hcg. injection Hcg as <-.
      destruct (in_class_list cname osd_class_load_list) eqn:El; [left|by right]. rewrite orb_true_r in Hcase.
      destruct Hcase as [He Hcase]. apply H3, Hcase. destruct He as [->|(m & _ & ->)]; [done|].
      exfalso. pose proof (Hstat m). pose proof (Herrno m). lia.
    + intros Ha Hb. destruct (H5 Ha Hb) as (g & c & Hg & Hcg). exists g, c. split; [by right|done].
Qed.
End loading.
End handler.

(** The rgw library needs the lock library. *)
Definition sample_dlopen (n : bytes) : option library :=
  if bytes_eqb n (bs "rgw") then Some {| class_deps := [bs "lock"]; cls_init := Some (bs "rgw", [cls_register_cxx_method (bs "bucket_list") 1 10]) |}
  else if bytes_eqb n (bs "lock") then Some {| class_deps := []; cls_init := Some (bs "lock", [cls_register_cxx_method (bs "lock") 3 20]) |}
  else None.
Definition sample_rank (n : bytes) : nat := if bytes_eqb n (bs "rgw") then 1 else 0.

Lemma sample_init n lib name calls : sample_dlopen n = Some lib -> cls_init lib = Some (name, calls) -> c_str name = n.
Proof.
  unfold sample_dlopen, bytes_eqb. case_bool_decide as E; [subst n; intros [= <-] [= <- <-]; reflexivity|].
  case_bool_decide as E2; [subst n; intros [= <-] [= <- <-]; reflexivity|done].
Qed.

Lemma open_class_correct_witness :
  exists r s', open_class sample_dlopen (fun _ => 2) (bs "rgw lock") [] (fun l => l) 2 (bs "rgw") ∅ = Some (r, s')
    /\ (r = 0 <-> is_open s' (bs "rgw")).
Proof.
  destruct (open_class_correct sample_dlopen (fun _ => 2) (bs "rgw lock") [] (fun l => l) sample_rank
    ltac:(intros n lib d; unfold sample_dlopen, sample_rank; destruct (bytes_eqb n (bs "rgw"));
          [intros [= <-] Hd; apply list_elem_of_singleton in Hd; subst d; exact (Nat.lt_0_succ 0)
          |destruct (bytes_eqb n (bs "lock")); [intros [= <-] Hd; by apply elem_of_nil in Hd|discriminate]])
    ltac:(reflexivity) ltac:(intros; reflexivity) sample_init (bs "rgw") ∅ 2
    ltac:(intros n d Hd; rewrite lookup_empty in Hd; discriminate) ltac:(exact (Nat.lt_succ_diag_r 1)))
    as (r & s' & H1 & _ & _ & _ & _ & H2).
  exists r, s'. split; [exact H1|]. exact (proj1 (H2 ltac:(right; vm_compute; reflexivity))).
Defined.

(** A directory with both libraries, a file of another kind and one that is not to be
    loaded, which is the last. *)
Definition sample_files : list bytes := map bs [".." ; "libcls_rgw.so"; "README"; "libcls_lock.so"; "libcls_hello.so"]%string.

Lemma open_all_classes_correct_witness :
  exists s', open_all_classes sample_dlopen (fun _ => 2) (bs "rgw lock") [] (fun l => l) 2 (inr sample_files) ∅ = Some (- EPERM, s') /\
    is_open s' (bs "rgw").
Proof.
  destruct (open_all_classes_correct sample_dlopen (fun _ => 2) (bs "rgw lock") [] (fun l => l) sample_rank
    ltac:(intros n lib d; unfold sample_dlopen, sample_rank; destruct (bytes_eqb n (bs "rgw"));
          [intros [= <-] Hd; apply list_elem_of_singleton in Hd; subst d; exact (Nat.lt_0_succ 0)
          |destruct (bytes_eqb n (bs "lock")); [intros [= <-] Hd; by apply elem_of_nil in Hd|discriminate]])
    ltac:(reflexivity) ltac:(intros; reflexivity) sample_init sample_files ∅ 2
    ltac:(intros n d Hd; rewrite lookup_empty in Hd; discriminate)
    ltac:(intros f c _ _; unfold sample_rank; destruct (bytes_eqb c (bs "rgw")); lia) ltac:(discriminate))
    as (r & s' & H1 & _ & _ & H2 & _).
  match type of H1 with ?x = _ =>
    assert (option_map fst x = Some (- EPERM)) as Hr by (vm_compute; reflexivity); rewrite H1 in Hr; cbn in Hr; injection Hr as -> end.
  exists s'. split; [exact H1|].
  destruct (H2 ltac:(by right) (bs "libcls_rgw.so") (bs "rgw") ltac:(right; left) ltac:(reflexivity) ltac:(reflexivity)) as [Ho|Hl];
    [exact Ho|vm_compute in Hl; discriminate].
Defined.

(** The methods of a class that was opened, with the flags its library gave them. *)
Lemma methods_of_rgw :
  ('(r, s) ← open_class sample_dlopen (fun _ => 2) (bs "rgw lock") [] (fun l => l) 2 (bs "rgw") ∅;
   Some (r, get_method (bs "lock") (bs "lock") s, get_method (bs "rgw") (bs "bucket_list") s)) =
  Some (0, Some {| flags := 3; func := None; cxx_func := Some 20 |}, Some {| flags := 1; func := None; cxx_func := Some 10 |}).
Proof. vm_compute. reflexivity. Qed.
End ClassHandler.
