(* ===== verification/ClassUtil.v ===== *)
(** * [class_api.cc]: the handler pointer, unregistration, random strings and logging

    What object classes use of the API besides the calls to the engine ([ClassApi]) and
    the registration made while a class is loaded ([ClassHandler]).  The random source
    and [ceph_armor] belong to Ceph and are parameters; of [vsnprintf] only the length
    of the whole text is used. *)

From S2P Require Import Prelude CStr ClassHandler.

Module ClassUtil.
Import ClassHandler.

(** *** The pointer [ch] and what goes through it *)

(** The handler's classes, or null. *)
Definition cls_initialize (h : classes) : option classes := Some h.
Definition cls_finalize : option classes := None.

(** [ClassHandler::unregister_class] has an empty body. *)
Definition unregister_class (cls : bytes) (s : classes) : classes := s.
Definition cls_unregister (cls : bytes) (ch : option classes) : option (Z * option classes) :=
  s ← ch; Some (1, Some (unregister_class cls s)).

(** The class and the name of a method stand for the pointer to it; its class holds it
    under that name. *)
Definition unregister (cls mname : bytes) (s : classes) : classes := alter (unregister_method mname) cls s.
Definition cls_unregister_method (cls mname : bytes) (s : classes) : Z * classes := (1, unregister cls mname s).

(** Registering a method and taking it back leaves the class without the method and
    everything else as it was, whether the method was there before or not. *)
Lemma unregister_registered (cname m : bytes) (fl fn : Z) (s : classes) (d : ClassData) :
  s !! cname = Some d -> fl <> 0 ->
  let s' := <[cname := snd (register_method m fl fn d)]> s in
  exists d', snd (cls_unregister_method cname m s') !! cname = Some d' /\ _get_method m d' = None /\
    (forall m', m' <> m -> _get_method m' d' = _get_method m' d) /\
    forall c, c <> cname -> snd (cls_unregister_method cname m s') !! c = s !! c.
Proof.
  intros Hd Hfl s'. unfold s', register_method. replace (fl =? 0) with false by lia. cbn [snd cls_unregister_method].
  eexists. unfold unregister. rewrite lookup_alter_eq, lookup_insert_eq. cbn. split; [done|]. unfold _get_method. cbn. split; [apply lookup_delete_eq|].
  split; [intros m' Hm; by rewrite lookup_delete_ne, lookup_insert_ne|]. intros c Hc. by rewrite lookup_alter_ne, lookup_insert_ne.
Qed.

(** *** Random strings *)

Section random.
(** [get_bytes] of the random source, and [ceph_armor] with the room of its
    destination: the length or a negative code, and the text. *)
Context (get_bytes : Z -> bytes) (ceph_armor : Z -> bytes -> Z * bytes).

(** The bytes in [buf]. *)
Definition cls_gen_random_bytes (size : Z) : Z * bytes := (0, get_bytes size).

(** [dest] before and after, a byte without a value being [None]; the result is [None]
    for an array of no length and for an access outside an array. *)
Definition cls_gen_rand_base64 (dest : list (option ascii)) (size : Z) : option (Z * list (option ascii)) :=
  if size <=? 0 then None else
  let '(ret, buf) := cls_gen_random_bytes size in
  if ret <? 0 then Some (-1, dest) else
  let n := Z.quot (s32 (s32 ((size - 1) * 3) + 4 - 1)) 4 in
  let '(ret, text) := ceph_armor (size + 4) (take (Z.to_nat n) buf) in
  if ret <? 0 then Some (-1, dest) else
  if (size + 4 <=? ret) || (len dest <? size) then None else
  let tmp_dest := <[Z.to_nat ret := Some NUL]> (map Some text ++ replicate (Z.to_nat (size + 4) - length text) None) in
  let dest := take (Z.to_nat size) tmp_dest ++ drop (Z.to_nat size) dest in
  Some (0, <[Z.to_nat (size - 1) := Some NUL]> dest).

(** The length of [n] bytes in base 64. *)
Definition armored (n : Z) : Z := 4 * ((n + 2) / 3).

(** For every size of at least one, with a random source that delivers and an armor
    that needs [armored n] characters for [n] bytes: the text fits [tmp_dest], and
    [dest] becomes [size - 1] characters of it and the final zero, all with a value,
    what is behind them untouched. *)
Lemma rand_base64_fills (dest : list (option ascii)) (size : Z) (text : bytes) :
  0 < size < 2 ^ 29 -> size <= len dest -> (forall n, 0 <= n -> len (get_bytes n) = n) ->
  (forall room src, armored (len src) <= room -> fst (ceph_armor room src) = armored (len src)) ->
  (forall room src, fst (ceph_armor room src) = len (snd (ceph_armor room src)) \/ fst (ceph_armor room src) < 0) ->
  text = snd (ceph_armor (size + 4) (take (Z.to_nat (3 * size / 4)) (get_bytes size))) ->
  size - 1 <= len text <= size + 3 /\
  cls_gen_rand_base64 dest size =
    Some (0, map Some (take (Z.to_nat (size - 1)) text) ++ [Some NUL] ++ drop (Z.to_nat size) dest).
Proof.
  intros Hs Hd Hr Ha Hl Ht. unfold cls_gen_rand_base64. replace (size <=? 0) with false by lia. cbn [cls_gen_random_bytes].
  change (0 <? 0) with false. cbn match.
  rewrite !s32_small by (rewrite ?s32_small by lia; lia). rewrite Z.quot_div_nonneg by lia.
  replace ((size - 1) * 3 + 4 - 1) with (3 * size) by lia. set (src := take _ (get_bytes size)) in *.
  assert (len src = 3 * size / 4) as Hn.
  { unfold src. specialize (Hr size ltac:(lia)). unfold len in *. rewrite length_take.
    pose proof (Z.div_le_upper_bound (3 * size) 4 size ltac:(lia) ltac:(lia)). pose proof (Z.div_pos (3 * size) 4 ltac:(lia) ltac:(lia)). lia. }
  assert (size - 1 <= armored (len src) <= size + 3) as Hsz by (rewrite Hn; unfold armored; Z.to_euclidean_division_equations; lia).
  specialize (Ha (size + 4) src ltac:(lia)). specialize (Hl (size + 4) src).
  destruct (ceph_armor (size + 4) src) as [ret t] eqn:E. cbn [fst snd] in *. subst t.
  assert (ret = len text) as -> by lia. split; [lia|].
  replace (len text <? 0) with false by lia. replace (size + 4 <=? len text) with false by lia. replace (len dest <? size) with false by lia.
  cbn [orb]. do 2 f_equal. apply list_eq. intros i. unfold len in *.
  destruct (decide (i < Z.to_nat (size - 1))%nat) as [Hi|Hi].
  - rewrite list_lookup_insert_ne by lia. rewrite lookup_app_l by (rewrite length_take, length_insert, length_app, length_map, length_replicate; lia).
    rewrite lookup_take_lt by lia. rewrite list_lookup_insert_ne by lia. rewrite lookup_app_l by (rewrite length_map; lia).
    rewrite lookup_app_l by (rewrite length_map, length_take; lia). rewrite !list_lookup_fmap. by rewrite lookup_take_lt by lia.
  - destruct (decide (i = Z.to_nat (size - 1))) as [->|Hne].
    + rewrite list_lookup_insert_eq.
      2:{ rewrite length_app, length_take, length_drop, length_insert, length_app, length_map, length_replicate. lia. }
      rewrite lookup_app_r by (rewrite length_map, length_take; lia). rewrite length_map, length_take.
      by replace (_ - _)%nat with O by lia.
    + rewrite list_lookup_insert_ne by lia. rewrite lookup_app_r by (rewrite length_take, length_insert, length_app, length_map, length_replicate; lia).
      rewrite lookup_app_r by (rewrite length_map, length_take; lia).
      rewrite length_take, length_insert, length_app, !length_map, length_replicate, length_take.
      replace (i - Z.to_nat (size - 1) `min` length text)%nat with (S (i - Z.to_nat size)) by lia. cbn.
      f_equal. lia.
Qed.
End random.

(** *** [cls_log] *)

Definition MAX_SIZE : Z := 8196.

(** [n]: what [vsnprintf] returns, the length of the whole text or a negative code. *)
Fixpoint log_loop (fuel : nat) (n size : Z) : option Z :=
  match fuel with
  | O => None
  | S fuel => if ((-1 <? n) && (n <? size)) || (MAX_SIZE <? size) then Some size else log_loop fuel n (size * 2)
  end.

(** The text written to the log, and the result. *)
Definition cls_log (n : Z) (text : bytes) : option (bytes * Z) :=
  size ← log_loop 7 n 256; Some (take (Z.to_nat (size - 1)) text, n).

(** Seven rounds are always enough; the log gets the whole text when it is shorter
    than 16384 characters and its first 16383 otherwise, and the caller its full length. *)
Lemma cls_log_total (text : bytes) : cls_log (len text) text = Some (take (Z.to_nat 16383) text, len text).
Proof.
  unfold cls_log. pose proof (len_nonneg text) as Hn. set (n := len text) in *.
  assert (forall size, n < size -> size <= 16384 -> take (Z.to_nat (size - 1)) text = take (Z.to_nat 16383) text) as Ht.
  { intros size H1 H2. unfold n, len in H1. rewrite !take_ge by lia. done. }
  cbn [log_loop]. unfold MAX_SIZE. replace (-1 <? n) with true by lia. cbn [andb Z.mul Pos.mul Z.ltb Z.compare Pos.compare Pos.compare_cont orb].
  repeat match goal with |- context [8196 <? ?k] => let b := eval vm_compute in (8196 <? k) in replace (8196 <? k) with b by reflexivity end.
  repeat match goal with |- context [n <? ?k] => destruct (n <? k) eqn:?; cbn [orb mbind option_bind]; bprop; [by rewrite Ht by lia|] end.
  done.
Qed.

(** A formatting error is returned as it is, after the buffer has grown to its limit. *)
Lemma cls_log_error (n : Z) (text : bytes) : n < 0 -> cls_log n text = Some (take (Z.to_nat 16383) text, n).
Proof.
  intros Hn. unfold cls_log. cbn [log_loop]. replace (-1 <? n) with false by lia. cbn [andb orb]. reflexivity.
Qed.

End ClassUtil.
