(* ===== verification/Tracing.v ===== *)
(** * [salog.cpp], [msg_perf_record.cc], [CephProxyFtds.cc]: logging and tracing

    What the adaptor does before a line or a number leaves it: [Salog] cuts lines and
    hands them to the cache engine, [MsgPerfRecord] averages latencies in a thread of
    its own, [ProxyFtds] counts operations.  The sinks (the engine, a file) are lists. *)

From S2P Require Import Prelude CStr.

Module Salog.
Definition ONE_LOG_MAX_LEN : Z := 2048.

Inductive LogLevel := LV_CRITICAL | LV_ERROR | LV_WARNING | LV_INFORMATION | LV_DEBUG.

(** Where a line goes: the four calls of [SaExport]. *)
Inductive sink := WriteLog (l : LogLevel) | WriteDataLog | WriteLogLimit (l : LogLevel) | WriteLogLimit2 (l : LogLevel).
Record entry := { e_engine : nat; e_sink : sink; e_file : bytes; e_line : Z; e_func : bytes; e_log : bytes }.

(** [sa], the engine that gets the lines, and what engines got so far. *)
Record t := { sa : option nat; written : list entry }.
Definition init : t := {| sa := None; written := [] |}.

Definition InitSalog (p : nat) (s : t) : Z * t :=
  (0, match sa s with None => {| sa := Some p; written := written s |} | Some _ => s end).
Definition FinishSalog (name : bytes) (s : t) : Z * t := (0, s).

(** [vsnprintf(log, size, szFmt, ap)] for arguments that format to [text] ([None]: an
    encoding error): the result, and the string left in [log]. *)
Definition vsnprintf (size : Z) (text : option bytes) : Z * bytes :=
  match text with
  | None => (-1, [])
  | Some x => if INT_MAX <? len x then (-1, []) else (len x, take (Z.to_nat (size - 1)) x)
  end.

(** The common body of the four functions; the engine sees a C string. *)
Definition write (k : sink) (file_name : bytes) (f_line : Z) (func_name : bytes) (text : option bytes) (s : t) : t :=
  match sa s with
  | None => s
  | Some p =>
      let '(sRet, log) := vsnprintf ONE_LOG_MAX_LEN text in
      if sRet <? 0 then s else
      {| sa := sa s; written := written s ++ [{| e_engine := p; e_sink := k; e_file := file_name; e_line := f_line;
                                                 e_func := func_name; e_log := c_str log |}] |}
  end.

Definition OsaWriteLog (l : LogLevel) := write (WriteLog l).
Definition OsaWriteDataLog := write WriteDataLog.
Definition OsaWriteLogLimit (l : LogLevel) := write (WriteLogLimit l).
Definition OsaWriteLogLimit2 (l : LogLevel) := write (WriteLogLimit2 l).

(** Everything that is done to the log. *)
Inductive call := Init (p : nat) | Finish (name : bytes) | Write (k : sink) (file : bytes) (line : Z) (func : bytes) (text : option bytes).
Definition exec (s : t) (c : call) : t :=
  match c with
  | Init p => snd (InitSalog p s)
  | Finish n => snd (FinishSalog n s)
  | Write k f n g x => write k f n g x s
  end.
Definition run (cs : list call) (s : t) : t := fold_left exec cs s.

(** *** Lemmas *)

Lemma c_str_len x : len (c_str x) <= len x.
Proof.
  unfold len. enough (length (c_str x) <= length x)%nat by lia.
  induction x as [|c x IH]; [done|]. cbn. destruct (Ascii.eqb _ _); cbn; lia.
Qed.

Lemma sa_run cs s p : sa s = Some p -> sa (run cs s) = Some p.
Proof.
  revert s. induction cs as [|c cs IH]; intros s Hs; [done|]. cbn. apply IH. destruct c as [q|n|k f n g x]; cbn.
  - by rewrite Hs.
  - done.
  - unfold write. rewrite Hs. destruct (vsnprintf _ x) as [r l]. by destruct (r <? 0).
Qed.

(** The lines of a call sequence after the engine [p] was announced. *)
Definition lines (p : nat) (c : call) : list entry :=
  match c with
  | Write k f n g (Some x) =>
      if INT_MAX <? len x then [] else
      [{| e_engine := p; e_sink := k; e_file := f; e_line := n; e_func := g; e_log := c_str (take 2047 x) |}]
  | _ => []
  end.

Lemma written_run cs s p : sa s = Some p -> written (run cs s) = written s ++ flat_map (lines p) cs.
Proof.
  revert s. induction cs as [|c cs IH]; intros s Hs; [by rewrite app_nil_r|].
  cbn [run fold_left flat_map]. change (fold_left exec cs (exec s c)) with (run cs (exec s c)).
  rewrite IH by (apply (sa_run [c]); exact Hs). rewrite app_assoc. f_equal.
  destruct c as [q|n|k f n g [x|]]; cbn [exec lines].
  - cbn. rewrite Hs. by rewrite app_nil_r.
  - by rewrite app_nil_r.
  - unfold write. rewrite Hs. cbn [vsnprintf]. destruct (INT_MAX <? len x) eqn:E; cbn -[INT_MAX take].
    + by rewrite app_nil_r.
    + replace (len x <? 0) with false by (pose proof (len_nonneg x); lia). done.
  - unfold write. rewrite Hs. by rewrite app_nil_r.
Qed.

(** Lines before the first [InitSalog] are lost; from then on every line reaches the
    engine of that first call, in order, cut to at most 2047 characters - whatever
    [FinishSalog] and later [InitSalog] calls say: an engine that replaces the first
    one in a restarted server never gets a line. *)
Theorem log_reaches_first_engine (before after : list call) (p : nat)
    (Hb : Forall (fun c => match c with Init _ => False | _ => True end) before) :
  written (run (before ++ Init p :: after) init) = flat_map (lines p) after /\
  Forall (fun e => e_engine e = p /\ len (e_log e) <= 2047) (flat_map (lines p) after).
Proof.
  split.
  - unfold run. rewrite fold_left_app. assert (fold_left exec before init = init) as ->.
    { induction Hb as [|c cs Hc _ IH]; [done|]. cbn. destruct c; try done. }
    cbn [fold_left]. change (fold_left exec after _) with (run after (exec init (Init p))). by rewrite (written_run _ _ p).
  - induction after as [|c cs IH]; [constructor|]. cbn. apply Forall_app. split; [|done].
    destruct c as [q|n|k f n g [x|]]; try constructor. cbn [lines]. destruct (_ <? _); repeat constructor. cbn -[take].
    pose proof (c_str_len (take 2047 x)) as Hc. unfold len in *. rewrite length_take in Hc. lia.
Qed.

(** A server stopped and started with another engine. *)
Lemma log_reaches_first_engine_witness :
  map e_engine (written (run [Init 1; Finish (bs "sa"); Init 2; Write (WriteLog LV_ERROR) (bs "osa.cpp") 211 (bs "OSA_Init") (Some (bs "up"))] init)) = [1%nat].
Proof.
  destruct (log_reaches_first_engine [] [Finish (bs "sa"); Init 2; Write (WriteLog LV_ERROR) (bs "osa.cpp") 211 (bs "OSA_Init") (Some (bs "up"))] 1
    ltac:(constructor)) as [H _].
  cbn [app] in H. rewrite H. reflexivity.
Defined.
End Salog.

(** ** The recorder of message latencies *)
Module MsgPerfRecord.
(** One of the three measures: the sum of the times and their number, both
    [unsigned long long]. *)
Record stat := { tinc : Z; count : Z }.
Record counters := { recv : stat; send : stat; total : stat }.
Inductive measure := Recv | Send | Total.

Definition get (m : measure) (s : counters) : stat := match m with Recv => recv s | Send => send s | Total => total s end.
Definition put (m : measure) (x : stat) (s : counters) : counters :=
  match m with
  | Recv => {| recv := x; send := send s; total := total s |}
  | Send => {| recv := recv s; send := x; total := total s |}
  | Total => {| recv := recv s; send := send s; total := x |}
  end.

(** The two atomic steps of [set_recv], [set_send] and [set_Total]; [t] is a [long]. *)
Definition inc (m : measure) (s : counters) : counters :=
  put m {| tinc := tinc (get m s); count := u64 (count (get m s) + 1) |} s.
Definition add (m : measure) (t : Z) (s : counters) : counters :=
  put m {| tinc := u64 (tinc (get m s) + t); count := count (get m s) |} s.
Definition set_recv (t : Z) (s : counters) : counters := add Recv t (inc Recv s).
Definition set_send (t : Z) (s : counters) : counters := add Send t (inc Send s).
Definition set_Total (t : Z) (s : counters) : counters := add Total t (inc Total s).

Definition counters0 : counters :=
  let z := {| tinc := 0; count := 0 |} in {| recv := z; send := z; total := z |}.

(** The numbers of the previous round, private to the writing thread. *)
Record seen := { recvPre : Z; sendPre : Z; totalPre : Z }.

(** One round of the loop of [write_perf_log] after its [sleep].  The counters move on
    while it runs: [v k] is their value at its [k]-th load.  A line is a count and an
    average, whose operands are loaded from left to right; [Killed]: a division by zero
    ends the process. *)
Inductive round_result := Quiet | Lines (p : seen) (l : list (Z * Z)) | Killed.

Definition line (m : measure) (v : nat -> counters) (k : nat) : option (Z * Z) :=
  let shown := count (get m (v k)) in
  let sum := tinc (get m (v (k + 1)%nat)) in
  let n := count (get m (v (k + 2)%nat)) in
  if n =? 0 then None else Some (shown, sum / n).

Definition write_round (p : seen) (v : nat -> counters) : round_result :=
  if (recvPre p =? count (recv (v 0%nat))) && (sendPre p =? count (send (v 1%nat))) && (totalPre p =? count (total (v 2%nat)))
  then Quiet else
  let p := {| recvPre := count (recv (v 3%nat)); sendPre := count (send (v 4%nat)); totalPre := count (total (v 5%nat)) |} in
  match line Recv v 6 with None => Killed | Some a =>
  match line Send v 9 with None => Killed | Some b =>
  match line Total v 12 with None => Killed | Some c => Lines p [a; b; c] end end end.

(** The threads of the recorder: joinable or not; [finish] is never reset. *)
Record threads := { finish : bool; joinable : list bool }.
Definition start (t : threads) : threads := {| finish := finish t; joinable := joinable t ++ [true] |}.
(** [None]: [join] of a thread that was joined throws [std::system_error]. *)
Definition stop (t : threads) : option threads :=
  if forallb id (joinable t) then Some {| finish := true; joinable := map (fun _ => false) (joinable t) |} else None.

(** *** Theorems *)

#[local] Instance measure_eq_dec : EqDecision measure.
Proof. solve_decision. Defined.

(** The number of measurements of one kind, and their sum, as long as neither wraps. *)
Definition record (m : measure) (t : Z) : counters -> counters :=
  match m with Recv => set_recv t | Send => set_send t | Total => set_Total t end.

Lemma get_record m m' t s : get m' (record m t s) =
  if decide (m' = m) then {| tinc := u64 (tinc (get m s) + t); count := u64 (count (get m s) + 1) |} else get m' s.
Proof. by destruct m, m'. Qed.

Lemma records_count m ms : forall s, 0 <= count (get m s) -> count (get m s) + len ms < 2 ^ 64 ->
  count (get m (fold_left (fun s x => record (fst x) (snd x) s) ms s)) =
  count (get m s) + count_if (fun x => bool_decide (fst x = m)) ms.
Proof.
  induction ms as [|[k t] ms IH]; intros s H0 Hs; [unfold count_if; cbn; rewrite len_nil; lia|]. rewrite len_cons in Hs. pose proof (len_nonneg ms).
  cbn [fold_left]. rewrite count_if_cons. cbn [fst snd].
  assert (count (get m (record k t s)) = count (get m s) + Z.b2z (bool_decide (k = m))) as Hc.
  { rewrite get_record. destruct (decide (m = k)) as [->|Hne].
    - rewrite bool_decide_true by done. cbn. rewrite u64_small by lia. lia.
    - rewrite bool_decide_false by congruence. cbn. lia. }
  rewrite IH; rewrite Hc; destruct (bool_decide _); cbn [Z.b2z]; lia.
Qed.

(** A round ends the process as soon as one kind of message was counted and another
    never was, however the threads interleave: all three averages are computed
    whenever one count has changed. *)
Theorem perf_round_kills (p : seen) (v : nat -> counters) (m : measure)
    (Hnew : recvPre p <> count (recv (v 0%nat)) \/ sendPre p <> count (send (v 1%nat)) \/ totalPre p <> count (total (v 2%nat)))
    (Hnone : forall k, count (get m (v k)) = 0) : write_round p v = Killed.
Proof.
  unfold write_round. destruct (_ && _) eqn:E; [bprop; lia|].
  assert (forall k, line m v k = None) as Hm by (intros k; unfold line; by rewrite Hnone).
  destruct m; rewrite ?Hm; [done|..]; destruct (line Recv v 6); try done; by destruct (line Send v 9).
Qed.

(** And a round in which all three kinds had been counted writes three lines. *)
Theorem perf_round_writes (p : seen) (v : nat -> counters)
    (Hnew : recvPre p <> count (recv (v 0%nat)) \/ sendPre p <> count (send (v 1%nat)) \/ totalPre p <> count (total (v 2%nat)))
    (Hall : forall m k, count (get m (v k)) <> 0) :
  exists q l, write_round p v = Lines q l /\ len l = 3.
Proof.
  unfold write_round. destruct (_ && _) eqn:E; [bprop; lia|].
  assert (forall m k, exists x, line m v k = Some x) as Hl.
  { intros m k. unfold line. rewrite (proj2 (Z.eqb_neq _ _) (Hall m _)). by eexists. }
  destruct (Hl Recv 6%nat) as [a ->], (Hl Send 9%nat) as [b ->], (Hl Total 12%nat) as [c ->]. by eexists _, _.
Qed.

(** The first message received, none sent yet. *)
Lemma perf_round_kills_witness :
  write_round {| recvPre := 0; sendPre := 0; totalPre := 0 |} (fun _ => set_recv 7 counters0) = Killed.
Proof. apply (perf_round_kills _ _ Send); [left; vm_compute; discriminate|intros k; reflexivity]. Defined.

(** A recorder can be stopped once; a second [stop] throws. *)
Lemma stop_once (t t' : threads) : joinable t <> [] -> stop t = Some t' -> stop t' = None.
Proof.
  unfold stop. intros Hne Hs. destruct (forallb id (joinable t)); [|done]. injection Hs as <-. cbn.
  by destruct (joinable t).
Qed.
End MsgPerfRecord.

(** ** The counters of the proxy's trace points *)
Module ProxyFtds.
Definition PROXY_FTDS_OPS_QUEUE : Z := 100000.
Definition PROXY_FTDS_COUNT : Z := 100023.

Record ftds_counter := { cin : Z; cout : Z; cfail : Z }.
(** [g_proxy_ftds], zero at start. *)
Definition t := Z -> ftds_counter.
Definition init : t := fun _ => {| cin := 0; cout := 0; cfail := 0 |}.

(** [None]: [id] is not an index of the array. *)
Definition at_id (id : Z) (f : ftds_counter -> ftds_counter) (g : t) : option t :=
  if (0 <=? id) && (id <? PROXY_FTDS_COUNT) then Some (fun i => if i =? id then f (g i) else g i) else None.
Definition inc64 (v : Z) : Z := s64 (v + 1).

Definition proxy_ftds_in (id : Z) : t -> option t := at_id id (fun c => {| cin := inc64 (cin c); cout := cout c; cfail := cfail c |}).
Definition proxy_ftds_out (id ret : Z) : t -> option t :=
  at_id id (fun c => {| cin := cin c; cout := inc64 (cout c); cfail := if ret =? 0 then cfail c else inc64 (cfail c) |}).
Definition proxy_ftds_counter (id : Z) : t -> option t := proxy_ftds_in id.

Inductive event := In (id : Z) | Out (id ret : Z) | Counter (id : Z).
Definition exec (e : event) : t -> option t :=
  match e with In i => proxy_ftds_in i | Out i r => proxy_ftds_out i r | Counter i => proxy_ftds_counter i end.
Fixpoint run (es : list event) (g : t) : option t :=
  match es with [] => Some g | e :: es => g ← exec e g; run es g end.

Definition id_of (e : event) : Z := match e with In i | Out i _ | Counter i => i end.
Definition ins (i : Z) (e : event) : bool := match e with In j | Counter j => j =? i | _ => false end.
Definition outs (i : Z) (e : event) : bool := match e with Out j _ => j =? i | _ => false end.
Definition fails (i : Z) (e : event) : bool := match e with Out j r => (j =? i) && negb (r =? 0) | _ => false end.

Lemma run_from i es : forall g, let c := g i in
  Forall (fun e => PROXY_FTDS_OPS_QUEUE <= id_of e < PROXY_FTDS_COUNT) es ->
  0 <= cin c -> 0 <= cout c -> 0 <= cfail c ->
  cin c + len es < 2 ^ 63 -> cout c + len es < 2 ^ 63 -> cfail c + len es < 2 ^ 63 ->
  exists g', run es g = Some g' /\
    g' i = {| cin := cin c + count_if (ins i) es; cout := cout c + count_if (outs i) es; cfail := cfail c + count_if (fails i) es |}.
Proof.
  induction es as [|e es IH]; intros g c Hf H1 H2 H3 L1 L2 L3.
  - exists g. split; [done|]. subst c. unfold count_if. cbn. destruct (g i). cbn. f_equal; rewrite len_nil; lia.
  - apply Forall_cons in Hf as [He Hf]. rewrite len_cons in *. pose proof (len_nonneg es). unfold PROXY_FTDS_OPS_QUEUE in He.
    rewrite !count_if_cons.
    assert (exists g1, exec e g = Some g1 /\
      g1 i = {| cin := cin c + Z.b2z (ins i e); cout := cout c + Z.b2z (outs i e); cfail := cfail c + Z.b2z (fails i e) |}) as (g1 & Hg1 & Hv).
    { assert (forall f, at_id (id_of e) f g = Some (fun j => if j =? id_of e then f (g j) else g j)) as Hat.
      { intros f. unfold at_id. by replace (_ && _) with true by lia. }
      destruct e as [j|j r|j]; cbn [exec id_of ins outs fails] in *; unfold proxy_ftds_counter, proxy_ftds_in, proxy_ftds_out;
        rewrite Hat; eexists; (split; [reflexivity|]); cbn; rewrite (Z.eqb_sym j i); fold c; destruct (i =? j);
        cbn [cin cout cfail Z.b2z andb]; unfold inc64; rewrite ?s64_small by lia; try destruct (r =? 0); cbn [negb Z.b2z];
        destruct c; cbn in *; f_equal; lia. }
    cbn [run]. rewrite Hg1. cbn [mbind option_bind].
    destruct (IH g1) as (g' & Hr & Hg'); rewrite ?Hv; cbn [cin cout cfail]; try done;
      try (destruct (ins i e), (outs i e), (fails i e); cbn [Z.b2z]; lia).
    exists g'. split; [done|]. rewrite Hg', Hv. cbn [cin cout cfail]. f_equal; lia.
Qed.

(** Every trace point of the enumeration is an index of the array, and its counters
    are the numbers of entries, returns and failures. *)
Theorem ftds_counts (es : list event) (i : Z)
    (Hid : Forall (fun e => PROXY_FTDS_OPS_QUEUE <= id_of e < PROXY_FTDS_COUNT) es) (Hn : len es < 2 ^ 63) :
  exists g, run es init = Some g /\
    g i = {| cin := count_if (ins i) es; cout := count_if (outs i) es; cfail := count_if (fails i) es |}.
Proof.
  destruct (run_from i es init Hid) as (g & Hr & Hg); cbn; try lia. exists g. split; [done|]. rewrite Hg. done.
Qed.
End ProxyFtds.
