(* ===== verification/OsaInit.v ===== *)
(** * [config_read.cpp], [osa.cpp]: the server's configuration and its life cycle

    [ReadConfig] fetches the items through the external configuration library,
    [OSA_Init] validates them, starts the network module and waits for the
    server socket; [OSA_Finish] takes everything down.  The configuration
    library, the host's addresses and processors, memory and thread creation are
    the environment [env]. *)

From S2P Require Import Prelude CStr Qos.

Module OsaConfig.

(** [SA_ClusterControlCfg] *)
Record cfg := {
  listenIp : bytes; listenPort : bytes; coreNumber : bytes; workerCore : bytes;
  queueAmount : Z; msgrAmount : Z; bindCore : Z; bindQueueCore : Z; queueMaxCapacity : Z;
  writeOoS : Z; getQuotaCyc : Z; getMessengerThrottle : Z; saOpThrottle : Z; readStat : bool
}.

Section read.
(** [GetCfgItemCstr] and [GetCfgItemUint64] of a unit and key; [None]: failure. *)
Context (GetCfgItemCstr : bytes -> bytes -> option bytes) (GetCfgItemUint64 : bytes -> bytes -> option Z).
Context (cpuNum : Z).

(** Which pair of core lists applies. *)
Definition core_keys : bytes * bytes :=
  if cpuNum <? 96 then (bs "core_number_64", bs "sa_worker_core_64")
  else if cpuNum <? 128 then (bs "core_number_96", bs "sa_worker_core_96")
  else if cpuNum <? 256 then (bs "core_number_128", bs "sa_worker_core_128")
  else (bs "core_number_256", bs "sa_worker_core_256").

Definition SetCfgCorenum : option (bytes * bytes) :=
  c ← GetCfgItemCstr (bs "sa") (fst core_keys);
  w ← GetCfgItemCstr (bs "sa") (snd core_keys);
  Some (c, w).

(** [None] is [RETURN_ERROR]. *)
Definition ReadConfig : option cfg :=
  ip ← GetCfgItemCstr (bs "communicate") (bs "public_ipv4_addr");
  port ← GetCfgItemCstr (bs "communicate") (bs "local_port");
  cw ← SetCfgCorenum;
  qa ← GetCfgItemUint64 (bs "sa") (bs "queue_amount");
  qc ← GetCfgItemUint64 (bs "sa") (bs "queue_max_capacity");
  ma ← GetCfgItemUint64 (bs "sa") (bs "msgr_amount");
  bc ← GetCfgItemUint64 (bs "sa") (bs "bind_core");
  bq ← GetCfgItemUint64 (bs "sa") (bs "bind_queue_core");
  wq ← GetCfgItemUint64 (bs "sa") (bs "write_qos");
  gq ← GetCfgItemUint64 (bs "sa") (bs "get_quota_cyc");
  mt ← GetCfgItemUint64 (bs "sa") (bs "enable_messenger_throttle");
  ot ← GetCfgItemUint64 (bs "sa") (bs "sa_op_throttle");
  rs ← GetCfgItemUint64 (bs "cache") (bs "rcache_snapshot_enable");
  Some {| listenIp := ip; listenPort := port; coreNumber := fst cw; workerCore := snd cw;
          queueAmount := qa; msgrAmount := ma; bindCore := bc; bindQueueCore := bq;
          queueMaxCapacity := qc; writeOoS := wq; getQuotaCyc := gq; getMessengerThrottle := mt;
          saOpThrottle := ot; readStat := negb (rs =? 0) |}.
End read.

Definition GetListenIp (c : cfg) : bytes := listenIp c.
Definition GetListenPort (c : cfg) : bytes := listenPort c.
Definition GetCoreNumber (c : cfg) : bytes := coreNumber c.
Definition GetWorkerCore (c : cfg) : bytes := c_str (workerCore c).
Definition GetSaOpThrottle (c : cfg) : Z := saOpThrottle c.
Definition GetReadStatFlag (c : cfg) : bool := readStat c.

(** The getters that narrow a 64-bit item to [uint32_t]. *)
Definition GetQueueAmount (c : cfg) : Z := u32 (queueAmount c).
Definition GetMsgrAmount (c : cfg) : Z := u32 (msgrAmount c).
Definition GetBindCore (c : cfg) : Z := u32 (bindCore c).
Definition GetBindQueueCore (c : cfg) : Z := u32 (bindQueueCore c).
Definition GetQueueMaxCapacity (c : cfg) : Z := u32 (queueMaxCapacity c).
Definition GetWriteQoS (c : cfg) : Z := u32 (writeOoS c).
Definition GetQuotCyc (c : cfg) : Z := u32 (getQuotaCyc c).
Definition GetMessengerThrottle (c : cfg) : Z := u32 (getMessengerThrottle c).
End OsaConfig.

Module OsaInit.
Import OsaConfig.

Definition ERROR_PORT : Z := 101.
Definition ERROR_BIND : Z := 102.
Definition SA_QUEUE_MAX_NUM : Z := 5000.
Definition SA_QUEUE_MIN_NUM : Z := 4.
Definition SA_QUEUE_MAX_CAPACITY : Z := 1024.
Definition SA_QUEUE_MIN_CAPACITY : Z := 1.
Definition SA_MSGR_MAX_NUM : Z := 16.
Definition SA_MSGR_MIN_NUM : Z := 3.

(** [CheckLocalIp]: an interface has its family, unless it has no address, and what
    [getnameinfo] says of it. *)
Record ifaddr := { ifa_family : option Z; getnameinfo : Z * bytes }.
Definition AF_INET : Z := 2.
Definition AF_INET6 : Z := 10.

Fixpoint find_ip (ipaddr : bytes) (l : list ifaddr) : bool :=
  match l with
  | [] => false
  | i :: l' =>
      match ifa_family i with
      | Some f =>
          if (f =? AF_INET) || (f =? AF_INET6) then
            if negb (fst (getnameinfo i) =? 0) then false else
            if bytes_eqb ipaddr (c_str (snd (getnameinfo i))) then true else find_ip ipaddr l'
          else find_ip ipaddr l'
      | None => find_ip ipaddr l'
      end
  end.

(** [None]: [getifaddrs] fails. *)
Definition CheckLocalIp (ifs : option (list ifaddr)) (ipaddr : bytes) : bool :=
  match ifs with Some l => find_ip ipaddr l | None => false end.

Lemma CheckLocalIp_sound ifs ip : CheckLocalIp ifs ip = true ->
  exists l i, ifs = Some l /\ i ∈ l /\ c_str (snd (getnameinfo i)) = ip /\ (ifa_family i = Some AF_INET \/ ifa_family i = Some AF_INET6).
Proof.
  destruct ifs as [l|]; [|done]. cbn. induction l as [|i l IH]; [done|]. cbn [find_ip]. intros H.
  assert (find_ip ip l = true -> exists l0 i0, Some (i :: l) = Some l0 /\ i0 ∈ l0 /\ c_str (snd (getnameinfo i0)) = ip /\
            (ifa_family i0 = Some AF_INET \/ ifa_family i0 = Some AF_INET6)) as Hrest.
  { intros (l0 & i0 & [= <-] & Hi & H0)%IH. exists (i :: l), i0. split; [done|]. split; [by right|done]. }
  destruct (ifa_family i) as [f|] eqn:Ef; [|by apply Hrest]. destruct ((f =? AF_INET) || (f =? AF_INET6)) eqn:Eo; [|by apply Hrest].
  destruct (negb _); [done|]. destruct (bytes_eqb ip _) eqn:Eb; [|by apply Hrest]. apply bool_decide_eq_true in Eb.
  exists (i :: l), i. split; [done|]. split; [by left|]. split; [done|]. rewrite Ef.
  apply orb_true_iff in Eo as [Eo|Eo]; bprop; subst; [by left|by right].
Qed.

Definition IsDigit (c : bytes) : bool :=
  forallb (fun x => let n := nat_of_ascii x in Nat.leb 48 n && Nat.leb n 57) c.

Definition CheckPort (p : bytes) : bool :=
  if IsDigit p then
    let portNum := atoi p in negb ((65535 <? portNum) || (portNum <? 1024))
  else false.

(** The [while] loops over comma-separated tokens: [None] is [ERROR_PORT]. *)
Definition ParsePortVec (rPort : bytes) : option (list bytes) :=
  if bool_decide (rPort = []) then None else
  let toks := strtok (is_char ","%char) (c_str rPort) in
  if forallb CheckPort toks then
    if (len toks <=? 0) || (8 <? len toks) then None else Some toks
  else None.

Definition CheckCoreId (nproc coreId : Z) : bool := (0 <=? coreId) && (coreId <? nproc).

(** One token of [ParseCore]. *)
Definition parse_core_id (nproc : Z) (p : bytes) : option Z :=
  let r := strtol 10 p in
  if st_erange r || st_nodigits r then None
  else let coreId := s32 (st_val r) in if CheckCoreId nproc coreId then Some coreId else None.

Definition ParseCore (nproc : Z) (core : bytes) : option (list Z) :=
  mapM (parse_core_id nproc) (strtok (is_char ","%char) (c_str core)).

Definition ParseQos (c : cfg) : option Qos.QosParam :=
  let qos := {| Qos.limitWrite := GetWriteQoS c; Qos.getQuotaCycle := GetQuotCyc c;
                Qos.enableThrottle := GetMessengerThrottle c; Qos.q_saOpThrottle := GetSaOpThrottle c |} in
  if Qos.getQuotaCycle qos <? 1 then None
  else if negb (Qos.q_saOpThrottle qos =? 0) && ((Qos.q_saOpThrottle qos <? 2000) || (30000 <? Qos.q_saOpThrottle qos))
  then None else Some qos.

(** What the checks of [OSA_Init] let through. *)
Record settings := {
  s_addr : bytes; s_ports : list bytes; s_cores : list Z; s_workers : list Z;
  s_queueAmount : Z; s_queueMaxCapacity : Z; s_msgrAmount : Z; s_bindCore : Z; s_bindSaCore : Z;
  s_qos : Qos.QosParam
}.

(** [OSA_Init] up to [global_init]: [None] is a return of [ERROR_PORT]. *)
Definition validate (ifs : option (list ifaddr)) (nproc : Z) (read : option cfg) : option settings :=
  c ← read;
  if negb (CheckLocalIp ifs (c_str (GetListenIp c))) then None else
  ports ← ParsePortVec (c_str (GetListenPort c));
  cores ← ParseCore nproc (c_str (GetCoreNumber c));
  workers ← ParseCore nproc (GetWorkerCore c);
  let qa := GetQueueAmount c in
  if (SA_QUEUE_MAX_NUM <? qa) || (qa <? SA_QUEUE_MIN_NUM) then None else
  let qc := GetQueueMaxCapacity c in
  if (SA_QUEUE_MAX_CAPACITY <? qc) || (qc <? SA_QUEUE_MIN_CAPACITY) then None else
  let ma := GetMsgrAmount c in
  if (SA_MSGR_MAX_NUM <? ma) || (ma <? SA_MSGR_MIN_NUM) then None else
  qos ← ParseQos c;
  Some {| s_addr := c_str (GetListenIp c); s_ports := ports; s_cores := cores; s_workers := workers;
          s_queueAmount := qa; s_queueMaxCapacity := qc; s_msgrAmount := ma;
          s_bindCore := GetBindCore c; s_bindSaCore := GetBindQueueCore c; s_qos := qos |}.

(** ** Starting and stopping *)

(** [network] is [g_ptrNetwork], [handler] is [rpc_handler]. *)
Record app := { network : option settings; handler : bool }.

(** The environment of one call: whether the two allocations succeed, what
    [InitNetworkModule] returns, and [bindSuccess] as the [k]-th poll sees it. *)
Record env := { alloc_network : bool; alloc_handler : bool; init_ret : Z; bind_at : nat -> Z }.

(** A call returns, or the process is terminated. *)
Inductive outcome := Returned (ret : Z) (a : app) | Terminated.

(** The polling loop: [sleepCnt] goes up once per second. *)
Fixpoint wait_bind (bind : nat -> Z) (fuel sleepCnt : nat) (ret : Z) : Z :=
  if bind sleepCnt =? -1 then
    match fuel with
    | O => ERROR_BIND
    | S f => wait_bind bind f (S sleepCnt) ret
    end
  else if bind sleepCnt =? 0 then ERROR_BIND else ret.

(** [delete g_ptrNetwork]: destroying a [std::thread] that was not joined
    terminates the process; the module has one per queue once
    [CreateWorkThread] has run. *)
Definition delete_network (threads : Z) (k : outcome) : outcome :=
  if 0 <? threads then Terminated else k.

Definition OSA_Init (checked : option settings) (e : env) (a : app) : outcome :=
  match checked with
  | None => Returned ERROR_PORT a
  | Some s =>
      match network a with
      | Some _ => Returned 0 a
      | None =>
          if negb (alloc_network e) then Returned 1 a
          else if negb (alloc_handler e) then
            delete_network 0 (Returned 1 {| network := None; handler := false |})
          else if negb (init_ret e =? 0) then
            delete_network (s_queueAmount s) (Returned 1 {| network := None; handler := false |})
          else Returned (wait_bind (bind_at e) 60 0 0) {| network := Some s; handler := true |}
      end
  end.

(** [finish_ret] is what [FinishNetworkModule] returns. *)
Definition OSA_Finish (finish_ret : Z) (a : app) : Z * app :=
  match network a with
  | None => (1, a)
  | Some _ => (finish_ret, {| network := None; handler := false |})
  end.

(** ** Theorems *)

Lemma IsDigit_spec s : IsDigit s = true -> Forall is_digit s.
Proof.
  unfold IsDigit. rewrite forallb_forall. intros Hs. apply List.Forall_forall. intros c Hc.
  specialize (Hs c Hc). apply andb_true_iff in Hs as [H1%Nat.leb_le H2%Nat.leb_le].
  unfold is_digit, digit_in, digit_val.
  replace (48 <=? Z.of_nat (nat_of_ascii c)) with true by lia.
  replace (Z.of_nat (nat_of_ascii c) <=? 57) with true by lia. cbn [andb].
  replace (_ <? 10) with true by lia. by eexists.
Qed.

Lemma mapM_range nproc l r :
  mapM (parse_core_id nproc) l = Some r -> Forall (fun c => 0 <= c < nproc) r.
Proof.
  intros H%mapM_Some. induction H as [|p c l r Hp _ IH]; constructor; [|done].
  unfold parse_core_id in Hp. destruct (_ || _); [done|]. unfold CheckCoreId in Hp.
  destruct (_ && _) eqn:E; [|done]. injection Hp as <-. bprop. lia.
Qed.

(** The port a token of decimal digits denotes. *)
Definition port_value (p : bytes) : Z := fst (digits 10 0 p).

Lemma digits_bound s acc ds : mapM (digit_in 10) s = Some ds ->
  fst (digits 10 acc s) = acc * 10 ^ len s + horner 10 ds /\ 0 <= horner 10 ds < 10 ^ len s.
Proof.
  intros Hm. rewrite (digits_horner 10 acc s ds Hm), fold_horner. cbn.
  assert (length ds = length s) as Hl by (symmetry; apply mapM_Some in Hm; by eapply Forall2_length).
  assert (len ds = len s) as -> by (unfold len; by rewrite Hl). split; [done|].
  pose proof (horner_range 10 ds ltac:(lia)) as Hr.
  assert (len ds = len s) as <- by (unfold len; by rewrite Hl). apply Hr.
  apply mapM_Some in Hm. clear -Hm. induction Hm as [|c d s ds Hd _ IH]; constructor; [|done].
  by eapply digit_in_range.
Qed.

Lemma CheckPort_spec p : CheckPort p = true -> p <> [] ->
  Forall is_digit p /\ 1024 <= atoi p <= 65535 /\ (len p <= 9 -> atoi p = port_value p).
Proof.
  unfold CheckPort. destruct (IsDigit p) eqn:Ed; [|done]. intros Hc Hne.
  apply IsDigit_spec in Ed. split; [done|]. apply negb_true_iff, orb_false_iff in Hc as [H1 H2]. bprop.
  split; [lia|]. intros Hl. unfold atoi, strtol, port_value. rewrite parse_int_digits by done. cbn [p_neg p_mag].
  assert (exists ds, mapM (digit_in 10) p = Some ds) as [ds Hds].
  { clear -Ed. induction Ed as [|c s [d Hd] _ [ds IH]]; [by exists []|]. exists (d :: ds). cbn. by rewrite Hd; cbn; rewrite IH. }
  destruct (digits_bound p 0 ds Hds) as [-> Hr]. rewrite Z.mul_0_l, Z.add_0_l.
  assert (10 ^ len p <= 10 ^ 9) by (apply Z.pow_le_mono_r; lia).
  replace (2 ^ 63 - 1 <? horner 10 ds) with false by lia.
  replace (horner 10 ds <? - 2 ^ 63) with false by lia. cbn [st_val]. apply s32_small. lia.
Qed.

(** C35: a server that starts has a configuration in range: the IPv4 or IPv6
    address of an interface of the host; 1 to 8 ports of
    decimal digits which, when they have at most 9 digits, denote a number from
    1024 to 65535; every core number of both lists is a processor of the host;
    4 to 5000 queues of capacity 1 to 1024; 3 to 16 messenger threads; a quota
    cycle of at least 1 ms; an operation throttle that is off or in
    2000..30000. *)
Theorem validate_sound (ifs : option (list ifaddr)) (nproc : Z) (read : option cfg) (s : settings)
  (Hs : validate ifs nproc read = Some s) :
  (exists l i, ifs = Some l /\ i ∈ l /\ c_str (snd (getnameinfo i)) = s_addr s /\
     (ifa_family i = Some AF_INET \/ ifa_family i = Some AF_INET6)) /\
  1 <= len (s_ports s) <= 8 /\
  Forall (fun p => Forall is_digit p /\ 1024 <= atoi p <= 65535 /\
                   (len p <= 9 -> 1024 <= port_value p <= 65535)) (s_ports s) /\
  Forall (fun c => 0 <= c < nproc) (s_cores s ++ s_workers s) /\
  4 <= s_queueAmount s <= 5000 /\ 1 <= s_queueMaxCapacity s <= 1024 /\ 3 <= s_msgrAmount s <= 16 /\
  1 <= Qos.getQuotaCycle (s_qos s) /\
  (Qos.q_saOpThrottle (s_qos s) = 0 \/ 2000 <= Qos.q_saOpThrottle (s_qos s) <= 30000).
Proof.
  unfold validate in Hs. apply bind_Some in Hs as (c & _ & Hs).
  destruct (CheckLocalIp _ _) eqn:Eip; [|done]. apply CheckLocalIp_sound in Eip. cbn [negb] in Hs.
  apply bind_Some in Hs as (ports & Hp & Hs). apply bind_Some in Hs as (cores & Hc & Hs).
  apply bind_Some in Hs as (workers & Hw & Hs).
  destruct (_ || _) eqn:E1 in Hs; [done|]. destruct (_ || _) eqn:E2 in Hs; [done|].
  destruct (_ || _) eqn:E3 in Hs; [done|]. apply bind_Some in Hs as (qos & Hq & Hs). injection Hs as <-.
  cbn [s_addr s_ports s_cores s_workers s_queueAmount s_queueMaxCapacity s_msgrAmount s_qos].
  unfold SA_QUEUE_MAX_NUM, SA_QUEUE_MIN_NUM, SA_QUEUE_MAX_CAPACITY, SA_QUEUE_MIN_CAPACITY, SA_MSGR_MAX_NUM,
    SA_MSGR_MIN_NUM in *. bprop.
  unfold ParsePortVec in Hp. case_bool_decide; [done|].
  destruct (forallb CheckPort _) eqn:Ef; [|done]. destruct (_ || _) eqn:E4 in Hp; [done|]. injection Hp as <-.
  unfold ParseQos in Hq. destruct (_ <? 1) eqn:E5; [done|]. destruct (_ && _) eqn:E6 in Hq; [done|].
  injection Hq as <-. cbn [Qos.getQuotaCycle Qos.q_saOpThrottle] in *. bprop.
  split; [done|]. split; [lia|]. split; [|split; [|split; [lia|split; [lia|split; [lia|split; [lia|]]]]]].
  - pose proof (strtok_tokens (is_char ","%char) (c_str (c_str (listenPort c)))) as Ht.
    apply List.Forall_forall. intros p Hin. rewrite forallb_forall in Ef. specialize (Ef p Hin).
    rewrite List.Forall_forall in Ht. destruct (Ht p Hin) as [Hne _].
    destruct (CheckPort_spec p Ef Hne) as (G1 & G2 & G3). split; [done|]. split; [done|].
    intros Hl. by rewrite <- G3.
  - apply Forall_app. split; by eapply mapM_range.
  - apply andb_false_iff in E6 as [E6|E6].
    + left. apply negb_false_iff in E6. lia.
    + right. bprop. lia.
Qed.

(** There is a port to serve, and a queue with its worker. *)
Lemma validate_nonempty ifs nproc read s : validate ifs nproc read = Some s ->
  s_ports s <> [] /\ 0 < s_queueAmount s.
Proof.
  intros (c & _ & Hs)%bind_Some. destruct (negb _); [done|]. apply bind_Some in Hs as (ports & Hp & Hs).
  do 2 (apply bind_Some in Hs as (? & _ & Hs)). cbn zeta in Hs. destruct (_ || _) eqn:E1 in Hs; [done|].
  do 2 (destruct (_ || _) in Hs; [done|]). apply bind_Some in Hs as (? & _ & Hs). injection Hs as <-. cbn. split.
  - unfold ParsePortVec in Hp. case_bool_decide; [done|]. destruct (forallb _ _); [|done].
    destruct (_ || _) eqn:E in Hp; [done|]. injection Hp as <-. intros E0. by rewrite E0 in E.
  - unfold SA_QUEUE_MIN_NUM in *. bprop. lia.
Qed.

Lemma wait_bind_spec bind fuel n :
  (wait_bind bind fuel n 0 = 0 \/ wait_bind bind fuel n 0 = ERROR_BIND) /\
  (wait_bind bind fuel n 0 = 0 <->
   exists k, (n <= k <= n + fuel)%nat /\ (forall j, (n <= j < k)%nat -> bind j = -1) /\
             bind k <> -1 /\ bind k <> 0).
Proof.
  revert n. induction fuel as [|fuel IH]; intros n; cbn; unfold ERROR_BIND in *;
    destruct (bind n =? -1) eqn:E1; bprop.
  - split; [by right|]. split; [done|]. intros (k & Hk & _ & Hn & _).
    assert (k = n) as -> by lia. done.
  - destruct (bind n =? 0) eqn:E2; bprop; (split; [lia|]); split; try done.
    + intros (k & Hk & _ & _ & Hn). assert (k = n) as -> by lia. done.
    + intros _. exists n. split; [lia|]. split; [lia|done].
  - destruct (IH (S n)) as [H1 H2]. split; [done|]. rewrite H2. split.
    + intros (k & Hk & Hb & Hn). exists k. split; [lia|]. split; [|done]. intros j Hj.
      destruct (decide (j = n)) as [->|]; [done|]. apply Hb. lia.
    + intros (k & Hk & Hb & Hn). exists k.
      assert (k <> n) by (intros ->; by destruct Hn).
      split; [lia|]. split; [|done]. intros j Hj. apply Hb. lia.
  - destruct (bind n =? 0) eqn:E2; bprop; (split; [lia|]); split; try done.
    + intros (k & Hk & Hb & Hn & Hz). destruct (decide (k = n)) as [->|]; [done|].
      exfalso. assert (bind n = -1) by (apply Hb; lia). done.
    + intros _. exists n. split; [lia|]. split; [lia|done].
Qed.

(** What a start that passed validation ends with.  Out of memory: 1, and
    nothing is left behind.  A network module that was initialised: the server
    is up, and the call returns 0 exactly when one of the first 61 polls sees
    the socket bound with no failure before it.  A network module whose
    initialisation failed: the code means to return 1, but deletes the module
    while its worker threads are running, which terminates the process. *)
Theorem start_outcome (ifs : option (list ifaddr)) (nproc : Z) (read : option cfg) (s : settings) (e : env)
  (Hs : validate ifs nproc read = Some s) :
  let a0 := {| network := None; handler := false |} in
  (alloc_network e && alloc_handler e = false -> OSA_Init (Some s) e a0 = Returned 1 a0) /\
  (alloc_network e && alloc_handler e = true -> init_ret e <> 0 -> OSA_Init (Some s) e a0 = Terminated) /\
  (alloc_network e && alloc_handler e = true -> init_ret e = 0 ->
   exists r, OSA_Init (Some s) e a0 = Returned r {| network := Some s; handler := true |} /\
     (r = 0 \/ r = ERROR_BIND) /\
     (r = 0 <-> exists k, (k <= 60)%nat /\ (forall j, (j < k)%nat -> bind_at e j = -1) /\
                          bind_at e k <> -1 /\ bind_at e k <> 0) /\
     OSA_Init (Some s) e {| network := Some s; handler := true |} =
       Returned 0 {| network := Some s; handler := true |} /\
     OSA_Finish 0 {| network := Some s; handler := true |} = (0, a0)).
Proof.
  intros a0. unfold OSA_Init, a0, delete_network. cbn [network].
  pose proof (proj2 (validate_nonempty _ _ _ _ Hs)) as Hq.
  split; [|split].
  - destruct (alloc_network e); [|done]. by destruct (alloc_handler e).
  - intros [-> ->]%andb_true_iff Hi. cbn. replace (init_ret e =? 0) with false by lia. cbn.
    by replace (0 <? s_queueAmount s) with true by lia.
  - intros [-> ->]%andb_true_iff ->. cbn -[wait_bind].
    destruct (wait_bind_spec (bind_at e) 60 0) as [H1 H2]. eexists. split; [reflexivity|].
    split; [done|]. split; [|done]. rewrite H2. split.
    + intros (k & Hk & Hb & Hn). exists k. split; [lia|]. split; [|done]. intros j Hj. apply Hb. lia.
    + intros (k & Hk & Hb & Hn). exists k. split; [lia|]. split; [|done]. intros j Hj. apply Hb. lia.
Qed.

Definition sample (qa : Z) (port : bytes) : cfg :=
  {| listenIp := bs "10.0.0.1"; listenPort := port; coreNumber := bs "0,1"; workerCore := bs "2";
     queueAmount := qa; msgrAmount := 5; bindCore := 0; bindQueueCore := 1; queueMaxCapacity := 100;
     writeOoS := 0; getQuotaCyc := 200; getMessengerThrottle := 0; saOpThrottle := 5000; readStat := true |}.

(** A host with the loopback interface, one without an address, and the listening one. *)
Definition ifs0 : option (list ifaddr) :=
  Some [{| ifa_family := Some AF_INET; getnameinfo := (0, bs "127.0.0.1") |}; {| ifa_family := None; getnameinfo := (-2, []) |};
        {| ifa_family := Some AF_INET; getnameinfo := (0, bs "10.0.0.1") |}].

Lemma validate_sound_witness :
  exists s, validate ifs0 4 (Some (sample 8 (bs "7000,7001"))) = Some s /\
    s_ports s = [bs "7000"; bs "7001"] /\ s_cores s = [0; 1] /\ 1 <= Qos.getQuotaCycle (s_qos s).
Proof.
  eexists. split; [vm_compute; reflexivity|]. split; [reflexivity|]. split; [reflexivity|].
  exact (proj1 (proj2 (proj2 (proj2 (proj2 (proj2 (proj2 (proj2
    (validate_sound ifs0 4 (Some (sample 8 (bs "7000,7001"))) _ ltac:(vm_compute; reflexivity)))))))))).
Defined.

Lemma start_outcome_witness :
  let e := {| alloc_network := true; alloc_handler := true; init_ret := 11; bind_at := fun _ => 1 |} in
  exists s, validate ifs0 4 (Some (sample 8 (bs "7000"))) = Some s /\
    OSA_Init (Some s) e {| network := None; handler := false |} = Terminated.
Proof.
  intros e. eexists. split; [vm_compute; reflexivity|].
  refine (proj1 (proj2 (start_outcome ifs0 4 (Some (sample 8 (bs "7000"))) _ e
            ltac:(vm_compute; reflexivity))) _ _).
  - reflexivity.
  - discriminate.
Defined.

(** The checks see narrowed values: the port 4294968320 is accepted because
    [atoi] keeps its low 32 bits (1024), although the string goes to the
    messenger as it is; a queue amount of 2^32 + 4 is accepted as 4. *)
Theorem oversized_values_accepted :
  exists s, validate ifs0 4 (Some (sample (2 ^ 32 + 4) (bs "4294968320"))) = Some s /\
    s_ports s = [bs "4294968320"] /\ port_value (bs "4294968320") = 4294968320 /\ s_queueAmount s = 4.
Proof. eexists. split; [vm_compute; reflexivity|]. repeat split. Qed.
End OsaInit.
