(* ===== verification/Server.v ===== *)
(** * [network_module.cpp], [sa_server_dispatcher.cpp]: the sockets of the server

    [ThreadFuncBodyServer] makes one messenger per configured port, with two
    throttlers and a dispatcher, tells [OSA_Init] through [bindSuccess] how it
    went, and waits; [FinishMessenger] and the destructor take everything down;
    [ms_dispatch] is where the messages of clients come in.  Ceph's messenger is
    outside the repository: a messenger is what the code asked of it, on a heap
    where it stays until it is deleted. *)

From stdpp Require Import sorting.
From S2P Require Import Prelude CStr Encoding MsgModule Throttle NetworkModule Qos OpQueue OsaInit.

Module Server.

(** A [Messenger], with the throttlers of its client policy. *)
Record messenger := {
  m_port : bytes; byte_throttle : option nat; msg_throttle : option nat; m_running : bool; m_live : bool
}.
Record throttler := { th_max : Z; th_live : bool }.

(** The members of [NetworkModule], ids into the two heaps; a dispatcher is named
    by its messenger. *)
Record t := {
  messengers : list messenger; throttlers : list throttler;
  vecSvrMessenger : list nat; vecDispatcher : list nat; vecByteThrottler : list nat; vecMsgThrottler : list nat;
  bindSuccess : Z
}.
Definition init : t :=
  {| messengers := []; throttlers := []; vecSvrMessenger := []; vecDispatcher := []; vecByteThrottler := [];
     vecMsgThrottler := []; bindSuccess := -1 |}.

(** [osd_client_message_size_cap], [osd_client_message_cap], [enableThrottle]. *)
Record conf := { messageSize : Z; messageCap : Z; enableThrottle : Z }.

(** What happens to one port: the three [new(std::nothrow)], and [bind]. *)
Record port_env := { alloc_byte : bool; alloc_msg : bool; bind_ret : Z; alloc_dispatcher : bool }.

(** ** Messengers and throttlers *)

Definition upd_messenger (f : messenger -> messenger) (i : nat) (s : t) : t :=
  {| messengers := alter f i (messengers s); throttlers := throttlers s; vecSvrMessenger := vecSvrMessenger s;
     vecDispatcher := vecDispatcher s; vecByteThrottler := vecByteThrottler s; vecMsgThrottler := vecMsgThrottler s;
     bindSuccess := bindSuccess s |}.
Definition set_running (b : bool) (m : messenger) : messenger :=
  {| m_port := m_port m; byte_throttle := byte_throttle m; msg_throttle := msg_throttle m; m_running := b; m_live := m_live m |}.
Definition kill (m : messenger) : messenger :=
  {| m_port := m_port m; byte_throttle := byte_throttle m; msg_throttle := msg_throttle m; m_running := m_running m;
     m_live := false |}.

(** [set_policy_throttlers(type, byte_throttle, msg_throttle)] sets both. *)
Definition set_policy_throttlers (byte msg : option nat) (m : messenger) : messenger :=
  {| m_port := m_port m; byte_throttle := byte; msg_throttle := msg; m_running := m_running m; m_live := m_live m |}.

Definition create (port : bytes) (s : t) : nat * t :=
  (length (messengers s),
   {| messengers := messengers s ++ [{| m_port := port; byte_throttle := None; msg_throttle := None;
                                        m_running := false; m_live := true |}];
      throttlers := throttlers s; vecSvrMessenger := vecSvrMessenger s; vecDispatcher := vecDispatcher s;
      vecByteThrottler := vecByteThrottler s; vecMsgThrottler := vecMsgThrottler s; bindSuccess := bindSuccess s |}).

Definition set_throttlers (l : list throttler) (s : t) : t :=
  {| messengers := messengers s; throttlers := l; vecSvrMessenger := vecSvrMessenger s;
     vecDispatcher := vecDispatcher s; vecByteThrottler := vecByteThrottler s; vecMsgThrottler := vecMsgThrottler s;
     bindSuccess := bindSuccess s |}.
Definition new_throttler (alloc : bool) (max : Z) (s : t) : option nat * t :=
  if alloc then (Some (length (throttlers s)), set_throttlers (throttlers s ++ [{| th_max := max; th_live := true |}]) s)
  else (None, s).
Definition delete_throttler (i : nat) (s : t) : t :=
  set_throttlers (alter (fun x => {| th_max := th_max x; th_live := false |}) i (throttlers s)) s.
Definition delete_opt (i : option nat) (s : t) : t := match i with Some i => delete_throttler i s | None => s end.

Definition set_bind (b : Z) (s : t) : t :=
  {| messengers := messengers s; throttlers := throttlers s; vecSvrMessenger := vecSvrMessenger s;
     vecDispatcher := vecDispatcher s; vecByteThrottler := vecByteThrottler s; vecMsgThrottler := vecMsgThrottler s;
     bindSuccess := b |}.

(** The four [push_back]s. *)
Definition register (m b q : nat) (s : t) : t :=
  {| messengers := messengers s; throttlers := throttlers s; vecSvrMessenger := vecSvrMessenger s ++ [m];
     vecDispatcher := vecDispatcher s ++ [m]; vecByteThrottler := vecByteThrottler s ++ [b];
     vecMsgThrottler := vecMsgThrottler s ++ [q]; bindSuccess := bindSuccess s |}.

(** ** The server thread *)

(** One iteration: [inl] is the [goto out] with its [r]. *)
Definition serve_port (c : conf) (port : bytes) (e : port_env) (s : t) : (Z + Z) * t :=
  let '(m, s) := create port s in
  let '(byte, s) := new_throttler (alloc_byte e) (messageSize c) s in
  let '(msg, s) := new_throttler (alloc_msg e) (messageCap c) s in
  match byte, msg with
  | Some b, Some q =>
      let s := if enableThrottle c =? 0 then s
               else upd_messenger (set_policy_throttlers (Some q) None) m
                      (upd_messenger (set_policy_throttlers (Some b) None) m s) in
      if bind_ret e <? 0 then (inl (bind_ret e), delete_throttler q (delete_throttler b (set_bind 0 s)))
      else if negb (alloc_dispatcher e) then (inl (- ENOMEM), delete_throttler q (delete_throttler b (set_bind 0 s)))
      else (inr (bind_ret e), register m b q (upd_messenger (set_running true) m s))
  | _, _ => (inl (- ENOMEM), delete_opt msg (delete_opt byte (set_bind 0 s)))
  end.

Fixpoint serve_ports (c : conf) (l : list (bytes * port_env)) (r : Z) (s : t) : (Z + Z) * t :=
  match l with
  | [] => (inr r, s)
  | (port, e) :: l' =>
      match serve_port c port e s with
      | (inl r, s) => (inl r, s)
      | (inr r, s) => serve_ports c l' r s
      end
  end.

(** Its result, whether it got to wait for the first messenger, and the state. *)
Definition ThreadFuncBodyServer (c : conf) (l : list (bytes * port_env)) (s : t) : Z * bool * t :=
  match serve_ports c l 0 s with
  | (inl r, s) => (r, false, s)
  | (inr r, s) => match l with [] => (r, false, s) | _ => (r, true, set_bind 1 s) end
  end.

(** [InitMessenger]: what [pthread_create] answers. *)
Inductive create_thread := ThreadCreated (ret : Z) | ThreadThrew.
Definition InitMessenger (p : create_thread) : Z * bool :=
  match p with
  | ThreadCreated ret => (ret, ret =? 0)
  | ThreadThrew => (200, true)
  end.

(** [ptrMsgModule] with its [readStatFlag], [vecPorts], [startServerThread]. *)
Record module := { ptrMsgModule : option bool; vecPorts : list bytes; startServerThread : bool }.

(** [alloc]: whether [new] gives a [MsgModule]. *)
Definition InitNetworkModule (alloc : bool) (p : create_thread) (rPort : list bytes) (readStatFlag : bool) (n : module)
  : Z * module :=
  match ptrMsgModule n, alloc with
  | None, false => (- ENOMEM, n)
  | q, _ =>
      let '(ret, started) := InitMessenger p in
      (ret, {| ptrMsgModule := match q with Some f => Some f | None => Some readStatFlag end; vecPorts := rPort;
               startServerThread := started |})
  end.

(** ** Taking it down *)

Definition clear_throttlers (s : t) : t :=
  {| messengers := messengers s; throttlers := throttlers s; vecSvrMessenger := vecSvrMessenger s;
     vecDispatcher := vecDispatcher s; vecByteThrottler := []; vecMsgThrottler := []; bindSuccess := bindSuccess s |}.

(** [clientMessenger] is never set; [pthread_join] waits for the server thread. *)
Definition FinishMessenger (s : t) : t :=
  let s := fold_left (fun s i => upd_messenger (set_running false) i s) (vecSvrMessenger s) s in
  let s := fold_left (fun s i => delete_throttler i s) (vecMsgThrottler s) s in
  let s := fold_left (fun s i => delete_throttler i s) (vecByteThrottler s) s in
  clear_throttlers s.

(** Its result: always 0. *)
Definition FinishNetworkModule (s : t) : Z * t := (0, FinishMessenger s).

(** [~NetworkModule]: the messengers and the dispatchers that were registered. *)
Definition destroy (s : t) : t :=
  fold_left (fun s i => upd_messenger kill i s) (vecSvrMessenger s) s.

(** ** Threads of the messenger *)

Definition desc (a b : Z) : Prop := b <= a.
#[local] Instance desc_dec a b : Decision (desc a b).
Proof. unfold desc. apply _. Defined.

(** The threads of [/proc/<pid>/task] with the first line of their status, in the
    order of their names: [None] for a file that does not open, [Some None] for
    one without a line.  [inl] is the early return. *)
Fixpoint scan_tasks (l : list (bytes * option (option bytes))) (msgr disp : list Z) : unit + list Z * list Z :=
  match l with
  | [] => inr (msgr, disp)
  | (_, None) :: _ => inl ()
  | (_, Some None) :: l' => scan_tasks l' msgr disp
  | (i, Some (Some line)) :: l' =>
      let tid := u64 (st_val (strtol 10 i)) in
      scan_tasks l' (if contains (bs "msgr-worker-") line then msgr ++ [tid] else msgr)
                    (if contains (bs "ms_dispatch") line then disp ++ [tid] else disp)
  end.

(** The threads that are bound to the cores. *)
Definition BindMsgrWorker (msgrNum nports : Z) (l : list (bytes * option (option bytes))) : list Z :=
  match scan_tasks l [] [] with
  | inl _ => []
  | inr (msgr, disp) => take (Z.to_nat msgrNum) (merge_sort desc msgr) ++ take (Z.to_nat nports) (merge_sort desc disp)
  end.

(** What [opendir] and [readdir] tell of a directory, into a set of names. *)
Definition easy_readdir (dir : Z + list bytes) : Z * list bytes :=
  match dir with
  | inl errno => (- errno, [])
  | inr names => (0, map fst (smap_of (map (fun n => (n, tt)) (filter (fun n => n <> bs "." /\ n <> bs "..") names))))
  end.

(** [CPU_SET] ignores what is no core of a [cpu_set_t]. *)
Definition cpu_mask (cores : list Z) : gset Z := list_to_set (filter (fun c => 0 <= c < 1024) cores).

(** The arguments of [sched_setaffinity]; a failure is only logged. *)
Definition BindCore (coreId : list Z) (id : Z) : Z * gset Z := (s32 id, cpu_mask coreId).

(** The calls made when [bindMsgrCore] is set; the result of [easy_readdir] is not looked at. *)
Definition bind_msgr (bindMsgrCore msgrNum nports : Z) (coreId : list Z) (dir : Z + list bytes)
    (status : bytes -> option (option bytes)) : list (Z * gset Z) :=
  if bindMsgrCore =? 0 then []
  else map (BindCore coreId) (BindMsgrWorker msgrNum nports (map (fun i => (i, status i)) (snd (easy_readdir dir)))).

(** What a worker asks for itself before it takes the lock of its queue. *)
Definition bind_worker (bindSaCore : Z) (workerCore : list Z) : option (gset Z) :=
  if bindSaCore =? 0 then None else Some (cpu_mask workerCore).

(** ** Messages of clients *)

Inductive message := Ping | OsdOp (m : NetworkModule.MOSDOp) | NotAnOsdOp | OtherMessage (type : Z).
Inductive delivered := SentBack | Enqueued | Ignored.

(** [StatOpStart] keeps a 64-bit time stamp in the [utime_t] of the message. *)
Definition StatOpStart (ts : Z) : Z * Z := (Z.land ts UINT32_MAX, Z.shiftr ts 32).
Definition StatOpEnd (mtime : Z * Z) : Z := Z.lor (fst mtime) (Z.shiftl (snd mtime) 32).

(** [ms_dispatch] by dispatcher thread [d]; its answer is always true, so the
    messenger takes every message as consumed.  [dcount] counts them. *)
Definition ms_dispatch (hash : bytes -> Z) (queueNum queueMaxCapacity : Z) (d : nat) (x : message) (ts p : Z)
  (dcount : Z) (s : OpQueue.t) : option (delivered * Z * OpQueue.t) :=
  match x with
  | Ping => Some (SentBack, u64 (dcount + 1), s)
  | OsdOp m => s' ← OpQueue.EnqueueClientop hash queueNum queueMaxCapacity d m ts p s; Some (Enqueued, u64 (dcount + 1), s')
  | NotAnOsdOp | OtherMessage _ => Some (Ignored, u64 (dcount + 1), s)
  end.

(** ** Theorems *)

Lemma StatOp_roundtrip ts : 0 <= ts < 2 ^ 64 -> StatOpEnd (StatOpStart ts) = ts.
Proof.
  intros Ht. unfold StatOpEnd, StatOpStart. cbn [fst snd]. apply Z.bits_inj'. intros n Hn.
  change UINT32_MAX with (Z.ones 32). rewrite Z.lor_spec, Z.land_spec.
  destruct (decide (n < 32)).
  - rewrite Z.ones_spec_low, Z.shiftl_spec_low by lia. by rewrite andb_true_r, orb_false_r.
  - rewrite Z.ones_spec_high, Z.shiftl_spec, Z.shiftr_spec by lia. rewrite andb_false_r. cbn. f_equal. lia.
Qed.

(** The threads that are bound carry the name of a messenger thread. *)
Lemma scan_tasks_in l : forall msgr disp r1 r2, scan_tasks l msgr disp = inr (r1, r2) -> forall tid,
  (tid ∈ r1 -> tid ∈ msgr \/ exists i line, (i, Some (Some line)) ∈ l /\ contains (bs "msgr-worker-") line = true /\
                                       tid = u64 (st_val (strtol 10 i))) /\
  (tid ∈ r2 -> tid ∈ disp \/ exists i line, (i, Some (Some line)) ∈ l /\ contains (bs "ms_dispatch") line = true /\
                                       tid = u64 (st_val (strtol 10 i))).
Proof.
  induction l as [|[i [[line|]|]] l IH]; intros msgr disp r1 r2 Hs tid; cbn [scan_tasks] in Hs.
  - injection Hs as <- <-. by split; left.
  - destruct (IH _ _ _ _ Hs tid) as [H1 H2]. split; intros Ht.
    + apply H1 in Ht as [Ht|(j & x & Hj & Hx)]; [|right; exists j, x; split; [by right|done]].
      destruct (contains (bs "msgr-worker-") line) eqn:E; [|by left].
      apply elem_of_app in Ht as [Ht|Ht%list_elem_of_singleton]; [by left|right]. exists i, line. split; [left|done].
    + apply H2 in Ht as [Ht|(j & x & Hj & Hx)]; [|right; exists j, x; split; [by right|done]].
      destruct (contains (bs "ms_dispatch") line) eqn:E; [|by left].
      apply elem_of_app in Ht as [Ht|Ht%list_elem_of_singleton]; [by left|right]. exists i, line. split; [left|done].
  - destruct (IH _ _ _ _ Hs tid) as [H1 H2]. split; intros Ht.
    + apply H1 in Ht as [Ht|(j & x & Hj & Hx)]; [by left|right; exists j, x; split; [by right|done]].
    + apply H2 in Ht as [Ht|(j & x & Hj & Hx)]; [by left|right; exists j, x; split; [by right|done]].
  - done.
Qed.

(** A thread that ends between [readdir] and [fopen] leaves all threads unbound. *)
Lemma BindMsgrWorker_vanished msgrNum nports l1 i l2 : BindMsgrWorker msgrNum nports (l1 ++ (i, None) :: l2) = [].
Proof.
  unfold BindMsgrWorker. generalize (@nil Z) at 1 as a, (@nil Z) at 1 as b.
  induction l1 as [|[j [[line|]|]] l1 IH]; intros a b; cbn [app scan_tasks]; [done|apply IH..|done].
Qed.

(** *** Starting *)

Definition port_ok (e : port_env) : Prop :=
  alloc_byte e = true /\ alloc_msg e = true /\ 0 <= bind_ret e /\ alloc_dispatcher e = true.

(** The messenger that serves the [i]-th port: of the two throttlers only the
    second stays, as the limit on bytes. *)
Definition serving (c : conf) (i : nat) (port : bytes) : messenger :=
  {| m_port := port; byte_throttle := if enableThrottle c =? 0 then None else Some (2 * i + 1)%nat; msg_throttle := None;
     m_running := true; m_live := true |}.
Definition pair_of_throttlers (c : conf) : list throttler :=
  [{| th_max := messageSize c; th_live := true |}; {| th_max := messageCap c; th_live := true |}].

(** All of [ports] served. *)
Definition started (c : conf) (ports : list bytes) (b : Z) : t :=
  {| messengers := imap (serving c) ports; throttlers := concat (map (fun _ => pair_of_throttlers c) ports);
     vecSvrMessenger := seq 0 (length ports); vecDispatcher := seq 0 (length ports);
     vecByteThrottler := map (fun i => 2 * i)%nat (seq 0 (length ports));
     vecMsgThrottler := map (fun i => 2 * i + 1)%nat (seq 0 (length ports)); bindSuccess := b |}.

(** What a port that fails leaves: its messenger, neither running nor registered,
    and the throttlers [l] it made, deleted. *)
Definition failed (c : conf) (ports : list bytes) (m : messenger) (l : list throttler) : t :=
  let s := started c ports 0 in
  {| messengers := messengers s ++ [m]; throttlers := throttlers s ++ l; vecSvrMessenger := vecSvrMessenger s;
     vecDispatcher := vecDispatcher s; vecByteThrottler := vecByteThrottler s; vecMsgThrottler := vecMsgThrottler s;
     bindSuccess := 0 |}.

Lemma alter_last {A} (f : A -> A) l x n : n = length l -> alter f n (l ++ [x]) = l ++ [f x].
Proof. intros ->. induction l as [|y l IH]; [done|]. cbn. f_equal. exact IH. Qed.

Lemma alter_last2 {A} (f : A -> A) l x y n : n = length l -> alter f n (l ++ [x; y]) = l ++ [f x; y].
Proof. intros ->. induction l as [|z l IH]; [done|]. cbn. f_equal. exact IH. Qed.

Lemma alter_second {A} (f : A -> A) l x y n : n = S (length l) -> alter f n (l ++ [x; y]) = l ++ [x; f y].
Proof. intros ->. induction l as [|z l IH]; [done|]. cbn. f_equal. exact IH. Qed.

Lemma throttlers_length c (ports : list bytes) : length (concat (map (fun _ => pair_of_throttlers c) ports)) = (2 * length ports)%nat.
Proof. induction ports as [|p l IH]; [done|]. cbn [map concat]. rewrite length_app, IH. cbn. lia. Qed.

Lemma started_snoc c ports p b : started c (ports ++ [p]) b =
  {| messengers := imap (serving c) ports ++ [serving c (length ports) p];
     throttlers := (concat (map (fun _ => pair_of_throttlers c) ports) ++ [{| th_max := messageSize c; th_live := true |}]) ++
                   [{| th_max := messageCap c; th_live := true |}];
     vecSvrMessenger := seq 0 (length ports) ++ [length ports]; vecDispatcher := seq 0 (length ports) ++ [length ports];
     vecByteThrottler := map (fun i => 2 * i)%nat (seq 0 (length ports)) ++ [(2 * length ports)%nat];
     vecMsgThrottler := map (fun i => 2 * i + 1)%nat (seq 0 (length ports)) ++ [(2 * length ports + 1)%nat];
     bindSuccess := b |}.
Proof.
  unfold started. rewrite imap_app, map_app, concat_app, length_app, Nat.add_1_r, seq_S, !map_app. cbn.
  by rewrite <- app_assoc, Nat.add_0_r.
Qed.

Lemma serve_port_ok c ports p e : port_ok e ->
  serve_port c p e (started c ports (-1)) = (inr (bind_ret e), started c (ports ++ [p]) (-1)).
Proof.
  intros (H1 & H2 & H3 & H4). rewrite started_snoc. unfold serve_port, create, new_throttler. rewrite H1, H2, H4. cbn.
  rewrite (proj2 (Z.ltb_ge _ _) H3), length_app, throttlers_length, length_imap, Nat.add_1_r.
  unfold serving. destruct (enableThrottle c =? 0); cbn; unfold register, upd_messenger; cbn;
    rewrite !alter_last by (by rewrite length_imap); by rewrite ?Nat.add_1_r.
Qed.

Definition dead (max : Z) : throttler := {| th_max := max; th_live := false |}.

Lemma serve_port_failed c ports p e : ~ port_ok e ->
  exists m l r, serve_port c p e (started c ports (-1)) = (inl r, failed c ports m l) /\
    (m_port m = p /\ m_running m = false /\ m_live m = true) /\ Forall (fun x => th_live x = false) l /\
    (r = - ENOMEM \/ r = bind_ret e /\ r < 0).
Proof.
  intros Hn. unfold port_ok in Hn. unfold serve_port, create, new_throttler.
  pose proof (throttlers_length c ports) as HT. pose proof (length_imap (serving c) ports) as HM.
  set (m0 := {| m_port := p; byte_throttle := None; msg_throttle := None; m_running := false; m_live := true |}).
  destruct (alloc_byte e) eqn:E1, (alloc_msg e) eqn:E2; cbn [negb].
  2-4: exists m0, (if alloc_byte e then [dead (messageSize c)] else if alloc_msg e then [dead (messageCap c)] else []), (- ENOMEM);
    rewrite E1, ?E2; (split; [|split_and!; [done..|repeat constructor|by left]]);
    unfold failed; cbn; unfold delete_throttler, set_throttlers; cbn; rewrite ?alter_last by done; by rewrite ?app_nil_r.
  exists (set_policy_throttlers (if enableThrottle c =? 0 then None else Some (2 * length ports + 1)%nat) None m0),
    [dead (messageSize c); dead (messageCap c)].
  assert (forall (f g : throttler -> throttler) x y,
    alter f (length ((throttlers (started c ports (-1))) ++ [x])) (alter g (length (throttlers (started c ports (-1))))
      ((throttlers (started c ports (-1)) ++ [x]) ++ [y])) = throttlers (started c ports (-1)) ++ [g x; f y]) as Ha.
  { intros f g x y. rewrite <- app_assoc. cbn [app]. rewrite alter_last2 by done. apply alter_second.
    rewrite length_app. cbn. lia. }
  cbn [throttlers started] in Ha.
  destruct (bind_ret e <? 0) eqn:E3; [exists (bind_ret e)|destruct (alloc_dispatcher e) eqn:E4;
    [exfalso; apply Hn; bprop; done|exists (- ENOMEM)]]; bprop.
  all: (split; [|split_and!; [by destruct (_ =? 0)..|repeat constructor|first [by left|by right]]]).
  all: unfold failed; cbn; unfold delete_throttler, set_throttlers, set_bind; destruct (enableThrottle c =? 0); cbn;
    rewrite Ha, ?alter_last by done; by rewrite ?length_app, ?HT.
Qed.

Lemma serve_ports_started c l : forall ports r, Forall (fun pe => port_ok (snd pe)) l ->
  serve_ports c l r (started c ports (-1)) =
    (inr (default r (option_map (fun pe => bind_ret (snd pe)) (last l))), started c (ports ++ map fst l) (-1)).
Proof.
  induction l as [|[p e] l IH]; intros ports r Hl; cbn [serve_ports].
  - by rewrite app_nil_r.
  - apply Forall_cons in Hl as [He Hl]. cbn in He. rewrite (serve_port_ok c ports p e He), IH by done.
    rewrite <- app_assoc. f_equal. f_equal. rewrite last_cons. by destruct (last l).
Qed.

Lemma serve_ports_failed c good p e rest : Forall (fun pe => port_ok (snd pe)) good -> ~ port_ok e ->
  exists m l r, serve_ports c (good ++ (p, e) :: rest) 0 init = (inl r, failed c (map fst good) m l) /\
    (m_port m = p /\ m_running m = false /\ m_live m = true) /\ Forall (fun x => th_live x = false) l /\
    (r = - ENOMEM \/ r = bind_ret e /\ r < 0).
Proof.
  intros Hg He. change init with (started c [] (-1)). change (map fst good) with ([] ++ map fst good).
  generalize 0 at 1. generalize ([] : list bytes) as ports. induction Hg as [|[q e'] good Hq _ IH]; intros ports r; cbn [app serve_ports].
  - destruct (serve_port_failed c ports p e He) as (m & l & r' & H1 & H2). exists m, l, r'.
    cbn [map]. rewrite H1, app_nil_r. split; [reflexivity|]. exact H2.
  - cbn in Hq. rewrite (serve_port_ok c ports q e' Hq). 
    change (ports ++ map fst ((q, e') :: good)) with (ports ++ [q] ++ map fst good). rewrite app_assoc. apply IH.
Qed.

(** C33: how the server starts.  When every port can be served, the thread waits
    with [bindSuccess] 1 and, per port, a running messenger with its dispatcher
    and two throttlers.  Otherwise it ends at the first port that cannot, with a
    negative result and [bindSuccess] 0: the ports before it stay served, and
    its own messenger stays behind, registered nowhere.  The limit on the number
    of messages replaces the one on bytes: with throttling on, every messenger
    lets in only [messageCap] bytes at a time, and any number of messages. *)
Theorem server_start (c : conf) (good rest : list (bytes * port_env)) (Hg : Forall (fun pe => port_ok (snd pe)) good) :
  match rest with
  | [] => good <> [] -> exists r, ThreadFuncBodyServer c good init = (r, true, started c (map fst good) 1) /\ 0 <= r
  | (p, e) :: _ =>
      ~ port_ok e -> exists m l r, ThreadFuncBodyServer c (good ++ rest) init = (r, false, failed c (map fst good) m l) /\
        r < 0 /\ m_port m = p /\ m_running m = false /\ m_live m = true /\ Forall (fun x => th_live x = false) l
  end /\
  (enableThrottle c <> 0 -> Forall (fun m => msg_throttle m = None /\
     exists i th, byte_throttle m = Some i /\ throttlers (started c (map fst good) 1) !! i = Some th /\
                  th_max th = messageCap c) (messengers (started c (map fst good) 1))).
Proof.
  split.
  - destruct rest as [|[p e] rest].
    + intros Hne. unfold ThreadFuncBodyServer. change init with (started c [] (-1)).
      rewrite (serve_ports_started c good [] 0 Hg). destruct good as [|x l] eqn:El; [done|]. rewrite <- El in *.
      exists (default 0 (option_map (fun pe => bind_ret (snd pe)) (last good))). split; [done|].
      destruct (last good) as [[q e]|] eqn:E; [|done]. cbn.
      apply last_Some in E as [l' ->]. apply Forall_app in Hg as [_ Hg]. apply Forall_cons in Hg as [(_ & _ & Hg & _) _]. done.
    + intros He. destruct (serve_ports_failed c good p e rest Hg He) as (m & l & r & Hs & (H1 & H2 & H3) & H4 & H5).
      exists m, l, r. unfold ThreadFuncBodyServer. rewrite Hs. split_and!; try done. destruct H5 as [->|[_ ?]]; [done|done].
  - intros Ht. apply Forall_lookup_2. intros i m Hm. cbn in Hm. rewrite list_lookup_imap in Hm.
    destruct (map fst good !! i) as [p|] eqn:Hp; [|done]. injection Hm as <-. unfold serving. cbn.
    rewrite (proj2 (Z.eqb_neq _ _) Ht). split; [done|]. eexists _, _. split; [reflexivity|].
    clear -Hp. revert i Hp. generalize (map fst good). intros ports. induction ports as [|q ports IH]; intros i Hp; [done|].
    cbn [map concat]. destruct i as [|i]; [by split|]. cbn in Hp. apply IH in Hp as [Hp Hm].
    replace (S i + (S i + 0) + 1)%nat with (S (S (i + (i + 0) + 1))) by lia. by split.
Qed.

(** *** Stopping *)

Lemma fold_upd f ids s : fold_left (fun s i => upd_messenger f i s) ids s =
  {| messengers := fold_left (fun l i => alter f i l) ids (messengers s); throttlers := throttlers s;
     vecSvrMessenger := vecSvrMessenger s; vecDispatcher := vecDispatcher s; vecByteThrottler := vecByteThrottler s;
     vecMsgThrottler := vecMsgThrottler s; bindSuccess := bindSuccess s |}.
Proof. revert s. induction ids as [|i ids IH]; intros s; cbn [fold_left]; [by destruct s|]. by rewrite IH. Qed.

Lemma fold_delete ids s : fold_left (fun s i => delete_throttler i s) ids s =
  set_throttlers (fold_left (fun l i => alter (fun x => {| th_max := th_max x; th_live := false |}) i l) ids (throttlers s)) s.
Proof. revert s. induction ids as [|i ids IH]; intros s; cbn [fold_left]; [by destruct s|]. by rewrite IH. Qed.

Lemma fold_alter_all {A} (f : A -> A) ms rest :
  fold_left (fun l i => alter f i l) (seq 0 (length ms)) (ms ++ rest) = map f ms ++ rest.
Proof.
  change (ms ++ rest) with ([] ++ ms ++ rest). change 0%nat with (length (@nil A)).
  change (map f ms ++ rest) with ([] ++ map f ms ++ rest). generalize (@nil A) as pre.
  induction ms as [|m ms IH]; intros pre; [done|]. cbn [length seq fold_left].
  assert (alter f (length pre) (pre ++ (m :: ms) ++ rest) = pre ++ (f m :: ms) ++ rest) as ->.
  { clear. induction pre as [|x pre IH]; [done|]. cbn. f_equal. exact IH. }
  specialize (IH (pre ++ [f m])). rewrite length_app, Nat.add_1_r, <- !app_assoc in IH. exact IH.
Qed.

Definition dead_at (j : nat) (l : list throttler) : Prop := forall x, l !! j = Some x -> th_live x = false.

Lemma fold_kill j ids l : j ∈ ids \/ dead_at j l ->
  dead_at j (fold_left (fun l i => alter (fun x => {| th_max := th_max x; th_live := false |}) i l) ids l).
Proof.
  revert l. induction ids as [|i ids IH]; intros l Hj; cbn [fold_left]; [destruct Hj as [Hj|]; [by apply elem_of_nil in Hj|done]|].
  apply IH. destruct (decide (i = j)) as [->|Hne].
  - right. intros x Hx. rewrite list_lookup_alter_eq in Hx. by apply fmap_Some in Hx as (y & _ & ->).
  - destruct Hj as [Hj|Hj]; [left; apply elem_of_cons in Hj as [Hj|Hj]; [congruence|exact Hj]|right].
    intros x Hx. rewrite list_lookup_alter_ne in Hx by done. by apply Hj.
Qed.

Lemma stop_throttlers c ports l : Forall (fun x => th_live x = false) l ->
  let kill := fun l i => alter (fun x => {| th_max := th_max x; th_live := false |}) i l in
  Forall (fun x => th_live x = false)
    (fold_left kill (map (fun i => 2 * i)%nat (seq 0 (length ports)))
      (fold_left kill (map (fun i => 2 * i + 1)%nat (seq 0 (length ports)))
        (concat (map (fun _ : bytes => pair_of_throttlers c) ports) ++ l))).
Proof.
  intros Hl kill. apply Forall_lookup_2. intros j x. apply fold_kill.
  destruct (decide (j < 2 * length ports)%nat) as [Hj|Hj].
  - destruct (Nat.Even_or_Odd j) as [[i ->]|[i ->]].
    + left. apply list_elem_of_fmap. exists i. split; [done|]. apply elem_of_seq. lia.
    + right. apply fold_kill. left. apply list_elem_of_fmap. exists i. split; [done|]. apply elem_of_seq. lia.
  - right. apply fold_kill. right. intros y Hy. rewrite lookup_app_r, throttlers_length in Hy by (rewrite throttlers_length; lia).
    by eapply Forall_lookup_1 in Hl.
Qed.

Definition gone (m : messenger) : Prop := m_running m = false /\ m_live m = false.

(** Stopping and deleting the server frees everything that a successful start
    made: no messenger runs or is left, no throttler is left.  After a failed
    start one thing is left, the messenger of the port that failed, which is in
    no list and leaks. *)
Theorem server_stop (c : conf) (ports : list bytes) (b : Z) (m : messenger) (l : list throttler)
    (Hm : m_running m = false /\ m_live m = true) (Hl : Forall (fun x => th_live x = false) l) :
  (Forall gone (messengers (destroy (FinishMessenger (started c ports b)))) /\
   Forall (fun x => th_live x = false) (throttlers (destroy (FinishMessenger (started c ports b))))) /\
  (exists ms, messengers (destroy (FinishMessenger (failed c ports m l))) = ms ++ [m] /\ length ms = length ports /\
     Forall gone ms) /\
  Forall (fun x => th_live x = false) (throttlers (destroy (FinishMessenger (failed c ports m l)))).
Proof.
  assert (forall rest T b', Forall (fun x => th_live x = false) T ->
    let s := {| messengers := imap (serving c) ports ++ rest;
                throttlers := concat (map (fun _ => pair_of_throttlers c) ports) ++ T;
                vecSvrMessenger := seq 0 (length ports); vecDispatcher := seq 0 (length ports);
                vecByteThrottler := map (fun i => 2 * i)%nat (seq 0 (length ports));
                vecMsgThrottler := map (fun i => 2 * i + 1)%nat (seq 0 (length ports)); bindSuccess := b' |} in
    messengers (destroy (FinishMessenger s)) = map kill (map (set_running false) (imap (serving c) ports)) ++ rest /\
    Forall (fun x => th_live x = false) (throttlers (destroy (FinishMessenger s)))) as Hall.
  { intros rest T b' HT s. unfold destroy, FinishMessenger.
    rewrite !fold_upd. cbn. rewrite !fold_delete. cbn.
    rewrite <- (length_imap (serving c) ports) at 1 2.
    rewrite fold_alter_all. split.
    - rewrite <- (length_map (set_running false)) at 1. apply fold_alter_all.
    - by apply stop_throttlers. }
  assert (Forall gone (map kill (map (set_running false) (imap (serving c) ports)))) as Hgone.
  { apply Forall_forall. intros x Hx. apply list_elem_of_fmap in Hx as (y & -> & Hy).
    by apply list_elem_of_fmap in Hy as (z & -> & _). }
  split.
  - specialize (Hall [] [] b (Forall_nil_2 _)). rewrite !app_nil_r in Hall. destruct Hall as [H1 H2]. unfold started. by rewrite H1.
  - destruct (Hall [m] l 0 Hl) as [H1 H2]. split; [|exact H2]. eexists. split; [exact H1|]. split; [|done].
    by rewrite !length_map, length_imap.
Qed.

(** *** The server thread and [OSA_Init] *)

#[local] Instance port_ok_dec e : Decision (port_ok e).
Proof. unfold port_ok. apply _. Defined.

Lemma split_ok (l : list (bytes * port_env)) : Forall (fun pe => port_ok (snd pe)) l \/
  exists good p e rest, l = good ++ (p, e) :: rest /\ Forall (fun pe => port_ok (snd pe)) good /\ ~ port_ok e.
Proof.
  induction l as [|[p e] l IH]; [by left|]. destruct (decide (port_ok e)) as [He|He].
  - destruct IH as [Hl|(good & p' & e' & rest & -> & Hg & He')]; [left; by constructor|right].
    exists ((p, e) :: good), p', e', rest. split_and!; [done|by constructor|done].
  - right. exists [], p, e, l. by split_and!.
Qed.

Lemma thread_outcome c l : l <> [] -> let s := snd (ThreadFuncBodyServer c l init) in
  (bindSuccess s = 1 /\ Forall (fun pe => port_ok (snd pe)) l /\ s = started c (map fst l) 1) \/
  (bindSuccess s = 0 /\ ~ Forall (fun pe => port_ok (snd pe)) l).
Proof.
  intros Hne s. unfold s, ThreadFuncBodyServer. destruct (split_ok l) as [Hl|(good & p & e & rest & -> & Hg & He)].
  - left. change init with (started c [] (-1)). rewrite (serve_ports_started c l [] 0 Hl). by destruct l.
  - right. destruct (serve_ports_failed c good p e rest Hg He) as (m & k & r & -> & _). split; [done|].
    intros [_ [Hx _]%Forall_cons]%Forall_app. done.
Qed.

Lemma wait_bind_delayed n b fuel k : (k <= n <= k + fuel)%nat -> b <> -1 ->
  OsaInit.wait_bind (fun j => if (j <? n)%nat then -1 else b) fuel k 0 = if b =? 0 then OsaInit.ERROR_BIND else 0.
Proof.
  intros Hk Hb. revert k Hk. induction fuel as [|fuel IH]; intros k Hk; cbn [OsaInit.wait_bind].
  - replace (k <? n)%nat with false by (symmetry; apply Nat.ltb_ge; lia). by rewrite (proj2 (Z.eqb_neq _ _) Hb).
  - destruct (k <? n)%nat eqn:E; [cbn; apply IH; apply Nat.ltb_lt in E; lia|]. by rewrite (proj2 (Z.eqb_neq _ _) Hb).
Qed.

(** C34: what a start tells its caller.  With memory, a server thread that was
    created and that is done with its ports in the first minute, [OSA_Init]
    returns 0 exactly when every configured port is served; otherwise
    [ERROR_BIND].  But the failed module stays in place, so that the next start
    returns 0 at once, whatever it finds, with the failed ports unserved; and a
    server thread that cannot be created does not make the call return 1, as
    written: it deletes the module while its workers run, which terminates. *)
Theorem start_reports_ports (ifs : option (list OsaInit.ifaddr)) (nproc : Z) (read : option OsaConfig.cfg) (st : OsaInit.settings)
    (c : conf) (envs : list port_env) (e e' : OsaInit.env) (n : nat)
    (Hs : OsaInit.validate ifs nproc read = Some st) (Hlen : length envs = length (OsaInit.s_ports st))
    (He : OsaInit.alloc_network e = true /\ OsaInit.alloc_handler e = true /\ OsaInit.init_ret e = 0)
    (Hn : (n <= 60)%nat)
    (Hbind : OsaInit.bind_at e = fun k => if (k <? n)%nat then -1
       else bindSuccess (snd (ThreadFuncBodyServer c (zip (OsaInit.s_ports st) envs) init))) :
  let s := snd (ThreadFuncBodyServer c (zip (OsaInit.s_ports st) envs) init) in
  let up := {| OsaInit.network := Some st; OsaInit.handler := true |} in
  exists r, OsaInit.OSA_Init (Some st) e {| OsaInit.network := None; OsaInit.handler := false |} = OsaInit.Returned r up /\
    (r = 0 <-> Forall port_ok envs) /\ (r = 0 -> s = started c (OsaInit.s_ports st) 1) /\
    (r <> 0 -> r = OsaInit.ERROR_BIND) /\ OsaInit.OSA_Init (Some st) e' up = OsaInit.Returned 0 up /\
    (OsaInit.alloc_network e' && OsaInit.alloc_handler e' = true -> OsaInit.init_ret e' <> 0 ->
     OsaInit.OSA_Init (Some st) e' {| OsaInit.network := None; OsaInit.handler := false |} = OsaInit.Terminated).
Proof.
  destruct (OsaInit.validate_nonempty _ _ _ _ Hs) as [Hp Hq]. set (l := zip (OsaInit.s_ports st) envs) in *.
  assert (map fst l = OsaInit.s_ports st) as Hf by (apply fst_zip; lia).
  assert (l <> []) as Hl by (intros E; apply Hp; by rewrite <- Hf, E).
  assert (Forall (fun pe => port_ok (snd pe)) l <-> Forall port_ok envs) as Hok.
  { assert (map snd l = envs) as Hsnd by (apply snd_zip; lia). rewrite <- Hsnd. symmetry. apply Forall_fmap. }
  assert (OsaInit.alloc_network e' && OsaInit.alloc_handler e' = true -> OsaInit.init_ret e' <> 0 ->
     OsaInit.OSA_Init (Some st) e' {| OsaInit.network := None; OsaInit.handler := false |} = OsaInit.Terminated) as Hterm.
  { intros [Ha Hh]%andb_true_iff Hi. unfold OsaInit.OSA_Init. cbn [OsaInit.network]. rewrite Ha, Hh. cbn [negb].
    rewrite (proj2 (Z.eqb_neq _ _) Hi). cbn [negb]. unfold OsaInit.delete_network. by rewrite (proj2 (Z.ltb_lt _ _) Hq). }
  destruct He as (E1 & E2 & E3). intros s up. unfold OsaInit.OSA_Init at 1. cbn [OsaInit.network].
  rewrite E1, E2, E3, Hbind. cbn [negb Z.eqb]. eexists. split; [reflexivity|].
  pose proof (thread_outcome c l Hl) as Ho. cbn zeta in Ho. fold s in Ho |- *.
  destruct Ho as [(Hb & Hall & Hst)|(Hb & Hall)]; rewrite Hb, wait_bind_delayed by (done || lia).
  - split_and!; [|by intros _; rewrite Hst, Hf|done..]. split; [intros _; by apply Hok|done].
  - split_and!; [|done..]. split; [done|]. intros Hx. by apply Hok in Hx.
Qed.

(** ** Witnesses *)

Definition sample_conf : conf := {| messageSize := 524288000; messageCap := 256; enableThrottle := 1 |}.
Definition fine : port_env := {| alloc_byte := true; alloc_msg := true; bind_ret := 0; alloc_dispatcher := true |}.
Definition in_use : port_env := {| alloc_byte := true; alloc_msg := true; bind_ret := -98; alloc_dispatcher := true |}.

(** The second port is taken. *)
Lemma server_start_witness : exists m l r,
  ThreadFuncBodyServer sample_conf ([(bs "7000", fine)] ++ [(bs "7001", in_use)]) init = (r, false, failed sample_conf [bs "7000"] m l) /\
  r < 0 /\ m_running m = false.
Proof.
  destruct (proj1 (server_start sample_conf [(bs "7000", fine)] [(bs "7001", in_use)] ltac:(repeat constructor; discriminate)))
    as (m & l & r & H1 & H2 & _ & H3 & _).
  - intros (_ & _ & H & _). apply H. reflexivity.
  - exists m, l, r. exact (conj H1 (conj H2 H3)).
Defined.

Lemma server_stop_witness :
  let m := {| m_port := bs "7001"; byte_throttle := None; msg_throttle := None; m_running := false; m_live := true |} in
  exists ms, messengers (destroy (FinishMessenger (failed sample_conf [bs "7000"] m [dead 256]))) = ms ++ [m] /\ Forall gone ms.
Proof.
  intros m. destruct (proj1 (proj2 (server_stop sample_conf [bs "7000"] 1 m [dead 256] ltac:(split; reflexivity)
    ltac:(repeat constructor)))) as (ms & H1 & _ & H2).
  exists ms. exact (conj H1 H2).
Defined.

(** [bind] fails; the start says so after three polls, the next one says 0. *)
Lemma start_reports_ports_witness :
  let e := {| OsaInit.alloc_network := true; OsaInit.alloc_handler := true; OsaInit.init_ret := 0;
              OsaInit.bind_at := fun k => if (k <? 3)%nat then -1 else 0 |} in
  exists st r, OsaInit.validate OsaInit.ifs0 4 (Some (OsaInit.sample 8 (bs "7000"))) = Some st /\
    OsaInit.OSA_Init (Some st) e {| OsaInit.network := None; OsaInit.handler := false |} =
      OsaInit.Returned r {| OsaInit.network := Some st; OsaInit.handler := true |} /\
    (r = 0 <-> Forall port_ok [in_use]).
Proof.
  intros e. eexists. destruct (start_reports_ports OsaInit.ifs0 4 (Some (OsaInit.sample 8 (bs "7000"))) _ sample_conf [in_use] e e 3
    ltac:(vm_compute; reflexivity) eq_refl ltac:(repeat split) ltac:(lia) ltac:(reflexivity)) as (r & H1 & H2 & _).
  exists r. split; [vm_compute; reflexivity|]. exact (conj H1 H2).
Defined.
End Server.
