(* ===== verification/RbdWrapper.v ===== *)
(** * [RbdWrapper.cc]: the librbd calls of the proxy and their shared client

    The calls share one librados client, counted in [gProxyCtx.ref]; it is
    connected by the first and shut down by the last.  What librados, librbd and
    the configuration library return is the environment; the model keeps the
    client, the reference count and the numbers of IO contexts and images that
    are open. *)

From stdpp Require Import sorting.
From S2P Require Import Prelude CStr Regex.
Import Regex.

Module RbdWrapper.

Definition RADOS_CONNECT_RETRY : nat := 5.
Definition MB : Z := 1024 * 1024.

(** [gProxyCtx], and what is open. *)
Record ProxyCtx := { init_flag : bool; ref : Z; client_up : bool; open_ioctx : Z; open_images : Z }.

Definition set_client (flag : bool) (r : Z) (up : bool) (s : ProxyCtx) : ProxyCtx :=
  {| init_flag := flag; ref := r; client_up := up; open_ioctx := open_ioctx s; open_images := open_images s |}.
Definition add_ioctx (n : Z) (s : ProxyCtx) : ProxyCtx :=
  {| init_flag := init_flag s; ref := ref s; client_up := client_up s; open_ioctx := open_ioctx s + n;
     open_images := open_images s |}.
Definition add_image (n : Z) (s : ProxyCtx) : ProxyCtx :=
  {| init_flag := init_flag s; ref := ref s; client_up := client_up s; open_ioctx := open_ioctx s;
     open_images := open_images s + n |}.

Definition RadosShutdown (s : ProxyCtx) : ProxyCtx :=
  let r := ref s - 1 in
  if r =? 0 then set_client false r false s else set_client (init_flag s) r (client_up s) s.

(** The two paths of the configuration, both or an error. *)
Definition GetCephPath (ceph_conf_path ceph_keyring_path : Z * bytes) : Z * option (bytes * bytes) :=
  if negb (fst ceph_conf_path =? 0) then (fst ceph_conf_path, None) else
  if negb (fst ceph_keyring_path =? 0) then (fst ceph_keyring_path, None) else
  (0, Some (c_str (snd ceph_conf_path), c_str (snd ceph_keyring_path))).

(** The results of setting the client up. *)
Record init_env := {
  e_init : Z; e_conf_path : Z * bytes; e_keyring_path : Z * bytes; e_read : Z; e_auth : Z * bytes; e_keyring : Z;
  e_conf_set : bytes -> bytes -> Z; e_connect : nat -> Z
}.

Definition e_paths (e : init_env) : Z := fst (GetCephPath (e_conf_path e) (e_keyring_path e)).

(** [while (retryCount < RADOS_CONNECT_RETRY)]: the [n] tries left, the next
    being the [k]-th; the result of the last one made. *)
Fixpoint connect_loop (connect : nat -> Z) (n k : nat) (ret : Z) : Z :=
  match n with
  | O => ret
  | S n' => if connect k <? 0 then connect_loop connect n' (S k) (connect k) else connect k
  end.

(** The first [conf_set] of the map that fails. *)
Fixpoint set_confs (conf_set : bytes -> bytes -> Z) (l : list (bytes * bytes)) (ret : Z) : Z + Z :=
  match l with
  | [] => inr ret
  | (k, v) :: l' => let r := conf_set k v in if r <? 0 then inl r else set_confs conf_set l' r
  end.

Definition FastInitRados (s : ProxyCtx) : ProxyCtx :=
  if negb (init_flag s) then s else set_client (init_flag s) (ref s + 1) (client_up s) s.

Definition RadosInit (e : init_env) (conf_map : list (bytes * bytes)) (s : ProxyCtx) : Z * ProxyCtx :=
  if init_flag s then (0, FastInitRados s) else
  if negb (e_init e =? 0) then (e_init e, s) else
  let fail r := (r, set_client (init_flag s) (ref s) false s) in
  if negb (e_paths e =? 0) then fail (e_paths e) else
  if negb (e_read e =? 0) then fail (e_read e) else
  if negb (fst (e_auth e) =? 0) then fail (fst (e_auth e)) else
  let cephx := bytes_eqb (c_str (snd (e_auth e))) (bs "cephx") in
  if cephx && (e_keyring e <? 0) then fail (e_keyring e) else
  match set_confs (e_conf_set e) conf_map (if cephx then e_keyring e else 0) with
  | inl r => fail r
  | inr r =>
      let r := connect_loop (e_connect e) RADOS_CONNECT_RETRY 0 r in
      if r <? 0 then fail r else (0, set_client true 1 true s)
  end.

(** The results of a call once the client is up. *)
Record call_env := {
  e_create : Z; e_ns_exists : Z * bool; e_open : Z; e_snap_remove2 : bytes -> bool -> Z; e_snap_remove_by_id : Z; e_stat : Z * Z
}.

(** [IoctxInit] with [IoctxSetNamespace]: the pool by name or by id. *)
Definition IoctxInit (e : call_env) (namespace_name : bytes) (s : ProxyCtx) : Z * ProxyCtx :=
  if negb (init_flag s) then (-1, s) else
  if e_create e <? 0 then (e_create e, s) else
  let s := add_ioctx 1 s in
  let r := if bytes_eqb namespace_name [] then 0
           else if fst (e_ns_exists e) <? 0 then fst (e_ns_exists e)
           else if negb (snd (e_ns_exists e)) then - ENOENT else 0 in
  if r <? 0 then (r, add_ioctx (-1) s) else (r, s).

Definition IoctxOpenImage (e : call_env) (s : ProxyCtx) : Z * ProxyCtx :=
  if e_open e <? 0 then (e_open e, s) else (e_open e, add_image 1 s).

(** The number of objects is the part of the image's information that is used. *)
Definition ImageState (e : call_env) : Z * Z := e_stat e.

(** By name if there is one, else by id. *)
Definition ImageRemoveSnap (e : call_env) (snap_name : bytes) (force : bool) : Z :=
  if negb (bytes_eqb snap_name []) then e_snap_remove2 e snap_name force else e_snap_remove_by_id e.

(** [-ENOENT] on the way means there is nothing left to remove. *)
Definition gone (r : Z) : Z := if r =? - ENOENT then 0 else r.

Definition CephLibrbdSnapRemove (ie : init_env) (e : call_env) (pool_id : Z) (namespace_name image_id : option bytes)
    (snap_id : Z) (force : bool) (s : ProxyCtx) : Z * ProxyCtx :=
  match namespace_name, image_id with
  | Some ns, Some image =>
      if pool_id =? 0 then (- EINVAL, s)
      else if bytes_eqb image [] then (- EINVAL, s)
      else if snap_id =? 0 then (- EINVAL, s)
      else
      let '(r, s) := RadosInit ie [(bs "rbd_cache_writethrough_until_flush", bs "false")] s in
      if r <? 0 then (r, s) else
      let '(r, s) := IoctxInit e ns s in
      if r <? 0 then (gone r, RadosShutdown s) else
      let '(r, s) := IoctxOpenImage e s in
      if r <? 0 then (gone r, RadosShutdown (add_ioctx (-1) s)) else
      let r := ImageRemoveSnap e [] force in
      ((if r <? 0 then gone r else r), RadosShutdown (add_ioctx (-1) (add_image (-1) s)))
  | _, _ => (- EINVAL, s)
  end.

(** [*num_objs] is written on success only; [None] for a null pointer. *)
Definition CephLibrbdGetImageInfo (ie : init_env) (e : call_env) (image_id : option bytes) (num_objs : option Z)
    (s : ProxyCtx) : Z * option Z * ProxyCtx :=
  match num_objs, image_id with
  | Some old, Some image =>
      let '(r, s) := RadosInit ie [] s in
      if r <? 0 then (r, Some old, s) else
      let '(r, s) := IoctxInit e [] s in
      if r <? 0 then (r, Some old, RadosShutdown s) else
      let '(r, s) := IoctxOpenImage e s in
      if r <? 0 then (r, Some old, RadosShutdown (add_ioctx (-1) s)) else
      let '(r, num_objs) := ImageState e in
      (r, Some (if r <? 0 then old else s32 num_objs),
       RadosShutdown (add_ioctx (-1) (add_image (-1) s)))
  | _, _ => (- EINVAL, num_objs, s)
  end.

(** ** The disk usage of the pools *)

Record SigPoolInfo := { poolName : bytes; isEC : bool; k : Z; m : Z; usage : Z; ecProfileName : bytes }.

(** [\s*(\d+)\s+(\S+)] *)
Definition pool_pattern : re :=
  Seq (Star sp) (Seq (Cap 1 (Plus (Chr digit))) (Seq (Plus sp) (Cap 2 (Plus (Chr nonspace))))).

Definition new_pool (name : bytes) : SigPoolInfo :=
  {| poolName := name; isEC := false; k := 0; m := 0; usage := 0; ecProfileName := [] |}.

Fixpoint parse_lines (lines : list bytes) (pools : gmap Z SigPoolInfo) : gmap Z SigPoolInfo :=
  match lines with
  | [] => pools
  | l :: lines' =>
      match regex_match pool_pattern l with
      | None => parse_lines lines' pools
      | Some c =>
          let r := strtol 10 (group c 1) in
          if st_erange r || st_nodigits r then pools
          else parse_lines lines' (<[st_val r := new_pool (c_str (group c 2))]> pools)
      end
  end.

(** [alloc]: whether the copy that is cut into lines can be made. *)
Definition ParsePoolMap (alloc : bool) (outs : bytes) (pools : gmap Z SigPoolInfo) : Z * gmap Z SigPoolInfo :=
  if alloc then (0, parse_lines (strtok (is_char newline) (c_str outs)) pools) else (-1, pools).

Definition set_scale (ec : bool) (k' m' : Z) (p : bytes) (i : SigPoolInfo) : SigPoolInfo :=
  {| poolName := poolName i; isEC := ec; k := k'; m := m'; usage := usage i; ecProfileName := p |}.

(** The lines of a profile: a number that does not parse ends the loop. *)
Fixpoint scale_lines (lines : list bytes) (k m : Z) : Z * Z :=
  match lines with
  | [] => (k, m)
  | l :: lines' =>
      match regex_match assign_pattern l with
      | None => scale_lines lines' k m
      | Some c =>
          let name := group c 1 in
          let r := strtol 10 (group c 2) in
          let stop := st_erange r || st_nodigits r in
          let n := s32 (st_val r) in
          if bytes_eqb name (bs "k") then if stop then (n, m) else scale_lines lines' n m
          else if bytes_eqb name (bs "m") then if stop then (k, n) else scale_lines lines' k n
          else scale_lines lines' k m
      end
  end.

(** [client.mon_command]'s result and output become the result and the text. *)
Definition MonCommand (s : ProxyCtx) (answer : Z * bytes) : Z * bytes :=
  if negb (init_flag s) then (-1, []) else
  if fst answer <? 0 then (fst answer, []) else (0, c_str (snd answer)).

Section disk_usage.
(** What the monitors answer, and per pool the result of listing and
    measuring its images. *)
Context (get_profile : bytes -> Z * bytes) (profile_get : bytes -> Z * bytes).
(** Whether a copy of a profile's text can be made. *)
Context (alloc_profile : bytes -> bool).

(** The result, and [k] and [m] if it is 0. *)
Definition GetECPoolScale (s : ProxyCtx) (ecProfileName : bytes) : Z * (Z * Z) :=
  let '(ret, outs) := MonCommand s (profile_get ecProfileName) in
  if negb (ret =? 0) then (ret, (0, 0)) else
  if negb (alloc_profile ecProfileName) then (-1, (0, 0)) else (0, scale_lines (strtok (is_char newline) (c_str outs)) 0 0).

Definition pool_property (s : ProxyCtx) (i : SigPoolInfo) : Z + SigPoolInfo :=
  let '(r, out) := MonCommand s (get_profile (poolName i)) in
  if r <? 0 then
    if r =? - EACCES then inr (set_scale false 1 2 (ecProfileName i) i) else inl r
  else
    match regex_match profile_pattern (c_str out) with
    | None => inl (-1)
    | Some c =>
        let p := c_str (group c 1) in
        let '(r, (k, m)) := GetECPoolScale s p in
        if r <? 0 then inl r else
        if (k =? 0) || (m =? 0) then inl (-1) else inr (set_scale true k m p i)
    end.

(** [DiffCallback] over the extents of one diff. *)
Definition diff_used (extents : list (Z * bool)) : Z :=
  fold_left (fun used '(n, exists_) => if exists_ : bool then u64 (used + n) else used) extents 0.

(** An image: the result of opening it, of its stat and snapshot list, per
    snapshot the results of opening and of the diff with its extents, and the
    same for the image itself. *)
Record image_env := {
  im_open : Z; im_stat : Z; im_snap_list : Z;
  im_snaps : list (Z * Z * list (Z * bool)); im_diff : Z * list (Z * bool)
}.

(** The loop over the snapshots: each is opened, compared with the one before
    and closed again, by [close] when the comparison fails and by the destructor
    of the round's [snap_image] otherwise. *)
Fixpoint snaps_usage (l : list (Z * Z * list (Z * bool))) (usage : Z) (s : ProxyCtx) : (Z + Z) * ProxyCtx :=
  match l with
  | [] => (inr usage, s)
  | (op, diff, extents) :: l' =>
      if op <? 0 then (inl op, s) else
      let s := add_image 1 s in
      if diff <? 0 then (inl diff, add_image (-1) s)
      else snaps_usage l' (u64 (usage + diff_used extents)) (add_image (-1) s)
  end.

(** [CalImageUsage]: an error, or its result and the pool's usage with the
    image's added.  The image is closed at [image_close], which every path after
    the opening reaches. *)
Definition CalImageUsage (im : image_env) (usage : Z) (s : ProxyCtx) : (Z + Z * Z) * ProxyCtx :=
  if im_open im <? 0 then (inl (im_open im), s) else
  let s := add_image 1 s in
  if im_stat im <? 0 then (inl (im_stat im), add_image (-1) s) else
  if im_snap_list im <? 0 then (inl (im_snap_list im), add_image (-1) s) else
  match snaps_usage (im_snaps im) usage s with
  | (inl r, s) => (inl r, add_image (-1) s)
  | (inr usage, s) =>
      let '(r, extents) := im_diff im in
      if r <? 0 then (inl r, add_image (-1) s)
      else (inr (r, u64 (usage + diff_used extents)), add_image (-1) s)
  end.

(** [*usage += info.usage * (info.k + info.m) / info.k]; [int] operands are
    converted to [uint64_t]. *)
Definition pool_share (i : SigPoolInfo) : Z :=
  u64 (usage i * u64 (k i + m i)) / u64 (k i).
Definition total_usage (pools : list SigPoolInfo) : Z :=
  fold_left (fun u i => u64 (u + pool_share i)) pools 0 / MB.

Definition set_usage (u : Z) (i : SigPoolInfo) : SigPoolInfo :=
  {| poolName := poolName i; isEC := isEC i; k := k i; m := m i; usage := u; ecProfileName := ecProfileName i |}.

(** [CalPoolProperty]: the loop over the pools. *)
Fixpoint CalPoolProperty (s : ProxyCtx) (l : list SigPoolInfo) : Z + list SigPoolInfo :=
  match l with
  | [] => inr []
  | i :: l' => match pool_property s i with
               | inl r => inl r
               | inr i' => match CalPoolProperty s l' with inl r => inl r | inr l'' => inr (i' :: l'') end
               end
  end.

(** The loop over the images of a pool; [ret] is the result of the call before. *)
Fixpoint images_usage (l : list image_env) (ret usage : Z) (s : ProxyCtx) : (Z + Z * Z) * ProxyCtx :=
  match l with
  | [] => (inr (ret, usage), s)
  | im :: l' => match CalImageUsage im usage s with
                | (inl r, s) => (inl r, s)
                | (inr (r, u), s) => images_usage l' r u s
                end
  end.

(** Per pool name: the results for its IO context, of [list2], and its images. *)
Context (pool_env : bytes -> call_env * Z * list image_env).

Fixpoint CalPoolUsage (l : list SigPoolInfo) (ret : Z) (s : ProxyCtx) : (Z + Z * list SigPoolInfo) * ProxyCtx :=
  match l with
  | [] => (inr (ret, []), s)
  | i :: l' =>
      let '(e, list2, images) := pool_env (poolName i) in
      let '(r, s) := IoctxInit e [] s in
      if r <? 0 then (inl r, s) else
      if list2 <? 0 then (inl list2, add_ioctx (-1) s) else
      match images_usage images list2 (usage i) s with
      | (inl r, s) => (inl r, add_ioctx (-1) s)
      | (inr (r, u), s) =>
          let '(r, s) := CalPoolUsage l' r (add_ioctx (-1) s) in
          (match r with inl r => inl r | inr (r, l'') => inr (r, set_usage u i :: l'') end, s)
      end
  end.

Definition key_le (p q : Z * SigPoolInfo) : Prop := fst p <= fst q.
#[local] Instance key_le_dec p q : Decision (key_le p q).
Proof. unfold key_le. apply _. Defined.

(** The pools in the order of [std::map<int64_t, ...>]. *)
Definition in_order (pools : gmap Z SigPoolInfo) : list SigPoolInfo :=
  map snd (merge_sort key_le (map_to_list pools)).

(** [lspools] is the monitor's answer; the result is written through a
    pointer that may be null. *)
Definition CephLibrbdDiskUsage (ie : init_env) (alloc : bool) (lspools : Z * bytes) (out : option Z) (s : ProxyCtx)
  : Z * option Z * ProxyCtx :=
  match out with
  | None => (- EINVAL, None, s)
  | Some old =>
      let '(r, s) := RadosInit ie [(bs "rbd_cache_writethrough_until_flush", bs "false")] s in
      if r <? 0 then (r, out, s) else
      let '(r, outs) := MonCommand s lspools in
      if r <? 0 then (r, out, RadosShutdown s) else
      let '(r, poolMap) := ParsePoolMap alloc outs ∅ in
      if r <? 0 then (r, out, RadosShutdown s) else
      match CalPoolProperty s (in_order poolMap) with
      | inl r => (r, out, RadosShutdown s)
      | inr pools => match CalPoolUsage pools 0 s with
                     | (inl r, s) => (r, out, RadosShutdown s)
                     | (inr (r, pools), s) => (r, Some (total_usage pools), RadosShutdown s)
                     end
      end
  end.
End disk_usage.

(** ** Theorems *)

(** A call in progress holds one reference; calls begin and end in any order. *)
Inductive event := Begin (e : init_env) (conf_map : list (bytes * bytes)) | End.

(** [active]: the calls that initialised successfully and have not ended. *)
Definition step (ev : event) (s : ProxyCtx * Z) : option (ProxyCtx * Z) :=
  match ev with
  | Begin e conf => let '(r, c) := RadosInit e conf (fst s) in
                    Some (c, if r <? 0 then snd s else snd s + 1)
  | End => if 0 <? snd s then Some (RadosShutdown (fst s), snd s - 1) else None
  end.

Fixpoint run (tr : list event) (s : ProxyCtx * Z) : option (ProxyCtx * Z) :=
  match tr with
  | [] => Some s
  | ev :: tr' => s' ← step ev s; run tr' s'
  end.

(** Errors are negative, as librados and the configuration reader return them. *)
Definition errors_negative (e : init_env) : Prop :=
  e_init e <= 0 /\ e_paths e <= 0 /\ e_read e <= 0 /\ fst (e_auth e) <= 0.
Definition good (ev : event) : Prop := match ev with Begin e _ => errors_negative e | End => True end.

Definition shared (s : ProxyCtx) (active : Z) : Prop :=
  0 <= active /\ init_flag s = (0 <? active) /\ (0 < active -> ref s = active /\ client_up s = true) /\
  (active = 0 -> client_up s = false).

Definition ctx0 : ProxyCtx := {| init_flag := false; ref := 0; client_up := false; open_ioctx := 0; open_images := 0 |}.

Lemma set_confs_neg f l r x : set_confs f l r = inl x -> x < 0.
Proof.
  revert r. induction l as [|[a b] l IH]; intros r; cbn; [done|].
  destruct (f a b <? 0) eqn:E; bprop; [intros [= <-]; lia|by apply IH].
Qed.

Lemma RadosInit_cases e conf s : errors_negative e ->
  let '(r, s') := RadosInit e conf s in
  open_ioctx s' = open_ioctx s /\ open_images s' = open_images s /\
  (init_flag s = true -> r = 0 /\ s' = set_client true (ref s + 1) (client_up s) s) /\
  (init_flag s = false -> (r = 0 /\ s' = set_client true 1 true s) \/
     (r < 0 /\ init_flag s' = false /\ ref s' = ref s /\ (client_up s = false -> client_up s' = false))).
Proof.
  intros (H1 & H2 & H3 & H4). unfold RadosInit, FastInitRados.
  destruct (init_flag s) eqn:Ef; cbn [negb]; [by repeat split|].
  repeat match goal with
  | |- context [if ?b then _ else _] => destruct b eqn:?; bprop
  | |- context [match set_confs ?f ?l ?r with _ => _ end] => destruct (set_confs f l r) eqn:Hs
  end; cbn -[connect_loop]; (split; [done|]; split; [done|]; split; [done|]; intros _); try (by left);
    right; (split; [|done]); try lia; by eapply set_confs_neg.
Qed.

Lemma step_shared ev s a s' a' : good ev -> shared s a -> step ev (s, a) = Some (s', a') -> shared s' a'.
Proof.
  intros Hg (H0 & Hf & Hr & Hz) Hs. destruct ev as [e conf|]; cbn in Hs.
  - pose proof (RadosInit_cases e conf s Hg) as Hc. destruct (RadosInit e conf s) as [r c].
    injection Hs as <- <-. destruct Hc as (_ & _ & H1 & H2). destruct (0 <? a) eqn:Ea; bprop.
    + destruct (H1 Hf) as [-> ->]. destruct (Hr Ea) as [Hra Hup]. cbn.
      repeat split; cbn; try lia; try done.
    + assert (a = 0) as -> by lia. destruct (H2 Hf) as [[-> ->]|(Hn & G1 & G2 & G3)].
      * cbn. repeat split; cbn; try lia; done.
      * replace (r <? 0) with true by lia. repeat split; try done; try lia. intros _. by apply G3, Hz.
  - destruct (0 <? a) eqn:Ea; [|done]. injection Hs as <- <-. bprop. destruct (Hr Ea) as [Hra Hup].
    unfold RadosShutdown. rewrite Hra. destruct (a - 1 =? 0) eqn:E1; bprop.
    + replace (a - 1) with 0 by lia. repeat split; cbn; try lia; done.
    + rewrite Hf. repeat split; cbn; try lia; try done.
Qed.

(** The shared client lives exactly as long as a call needs it: in every
    interleaving of calls that begin (some failing) and end, the reference count
    is the number of calls in progress, and the client is initialised and not
    shut down exactly while there is one. *)
Theorem client_lifetime (tr : list event) (s : ProxyCtx) (active : Z)
  (Hgood : Forall good tr) (Hr : run tr (ctx0, 0) = Some (s, active)) :
  init_flag s = (0 <? active) /\ client_up s = (0 <? active) /\ (0 < active -> ref s = active).
Proof.
  assert (shared s active) as (H0 & Hf & Hu & Hz).
  { assert (shared ctx0 0) as H0 by (repeat split; cbn; try lia; done). revert H0 Hr.
    generalize ctx0, 0. induction Hgood as [|ev tr Hg _ IH]; intros c a Hs Hr; cbn in Hr.
    - by injection Hr as <- <-.
    - apply bind_Some in Hr as ([c1 a1] & H1 & Hr). eapply IH; [|done]. by eapply step_shared. }
  split; [done|]. destruct (0 <? active) eqn:E; bprop.
  - destruct (Hu E) as [-> ->]. by split.
  - split; [apply Hz; lia|lia].
Qed.

(** What a call leaves behind: as it found it. *)
Definition same (s s' : ProxyCtx) : Prop :=
  init_flag s' = init_flag s /\ (init_flag s = true -> ref s' = ref s /\ client_up s' = client_up s) /\
  (client_up s = false -> client_up s' = false) /\
  open_ioctx s' = open_ioctx s /\ open_images s' = open_images s.

(** After a successful [RadosInit], any balanced use and the shutdown. *)
Lemma shutdown_same e conf s r s1 s2 : errors_negative e -> (init_flag s = true -> 0 < ref s) ->
  RadosInit e conf s = (r, s1) -> ~ r < 0 ->
  init_flag s2 = init_flag s1 -> ref s2 = ref s1 -> client_up s2 = client_up s1 ->
  open_ioctx s2 = open_ioctx s -> open_images s2 = open_images s -> same s (RadosShutdown s2).
Proof.
  intros He Hpos Hi Hr E1 E2 E3 E4 E5. pose proof (RadosInit_cases e conf s He) as Hc. rewrite Hi in Hc.
  destruct Hc as (_ & _ & H1 & H2). unfold RadosShutdown, same. destruct (init_flag s) eqn:Ef.
  - destruct (H1 eq_refl) as [_ ->]. specialize (Hpos eq_refl). cbn in E1, E2, E3.
    rewrite E1, E2, E3. replace (ref s + 1 - 1) with (ref s) by lia.
    replace (ref s =? 0) with false by lia. cbn. by repeat split.
  - destruct (H2 eq_refl) as [[_ ->]|[? _]]; [|done]. cbn in E1, E2. rewrite E2. cbn. by repeat split.
Qed.

Lemma init_fails_same e conf s r s1 : errors_negative e -> RadosInit e conf s = (r, s1) -> r < 0 -> same s s1.
Proof.
  intros He Hi Hr. pose proof (RadosInit_cases e conf s He) as Hc. rewrite Hi in Hc.
  destruct Hc as (H0 & H0' & H1 & H2). unfold same. destruct (init_flag s) eqn:Ef.
  - destruct (H1 eq_refl) as [-> _]. lia.
  - destruct (H2 eq_refl) as [[-> _]|(_ & G1 & G2 & G3)]; [lia|]. by repeat split.
Qed.

Lemma IoctxInit_client e ns s r s' : IoctxInit e ns s = (r, s') ->
  init_flag s' = init_flag s /\ ref s' = ref s /\ client_up s' = client_up s /\ open_images s' = open_images s /\
  open_ioctx s' = (if r <? 0 then open_ioctx s else open_ioctx s + 1).
Proof.
  unfold IoctxInit. intros Hi.
  destruct (negb (init_flag s)); [by injection Hi as <- <-|].
  destruct (e_create e <? 0) eqn:E; [injection Hi as <- <-; by rewrite E|].
  match type of Hi with context [if ?b <? 0 then _ else _] => destruct (b <? 0) eqn:Er in Hi end;
    injection Hi as <- <-; rewrite Er; cbn; repeat split; lia.
Qed.

Lemma add_image_back s : add_image (-1) (add_image 1 s) = s.
Proof. destruct s; unfold add_image; cbn. f_equal. lia. Qed.

(** Every image and snapshot that is opened is closed. *)
Lemma snaps_usage_closes l u s : snd (snaps_usage l u s) = s.
Proof.
  revert u. induction l as [|[[op d] ext] l IH]; intros u; cbn; [done|].
  destruct (op <? 0); [done|]. rewrite add_image_back. by destruct (d <? 0).
Qed.
Lemma CalImageUsage_closes im u s : snd (CalImageUsage im u s) = s.
Proof.
  unfold CalImageUsage. pose proof (snaps_usage_closes (im_snaps im) u (add_image 1 s)) as Hs.
  destruct (snaps_usage _ _ _) as [[?|?] s1]; cbn in Hs; subst s1;
    destruct (im_diff im); repeat case_match; cbn; by rewrite ?add_image_back.
Qed.
Lemma images_usage_closes l ret u s : snd (images_usage l ret u s) = s.
Proof.
  revert ret u. induction l as [|im l IH]; intros ret u; cbn; [done|].
  pose proof (CalImageUsage_closes im u s) as Hs.
  destruct (CalImageUsage im u s) as [[?|[? ?]] s1]; cbn in Hs; by subst s1.
Qed.

(** The results of a loop that was not broken off are not negative. *)
Lemma images_usage_ret l ret u s r u' s' : 0 <= ret -> images_usage l ret u s = (inr (r, u'), s') -> 0 <= r.
Proof.
  revert ret u s. induction l as [|im l IH]; intros ret u s Hr; cbn; [by intros [= <- <-]|].
  destruct (CalImageUsage im u s) as [[?|[r1 u1]] s1] eqn:Ec; [done|]. apply IH. revert Ec. unfold CalImageUsage.
  destruct (_ <? 0); [done|]. destruct (_ <? 0); [done|]. destruct (_ <? 0); [done|].
  destruct (snaps_usage _ _ _) as [[?|?] ?]; [done|].
  destruct (im_diff im) as [d ?]. destruct (d <? 0) eqn:Ed; bprop; [done|]. by intros [= <- <-].
Qed.

Lemma CalPoolUsage_client env l ret s r s' : 0 <= ret -> CalPoolUsage env l ret s = (r, s') ->
  init_flag s' = init_flag s /\ ref s' = ref s /\ client_up s' = client_up s /\ open_images s' = open_images s /\
  open_ioctx s' = open_ioctx s /\ match r with inr (x, _) => 0 <= x | inl _ => True end.
Proof.
  revert ret s r s'. induction l as [|i l IH]; intros ret s r s' Hret Hc; cbn in Hc; [by injection Hc as <- <-|].
  destruct (env (poolName i)) as [[e l2] ims]. destruct (IoctxInit e [] s) as [r1 s1] eqn:Ei.
  apply IoctxInit_client in Ei as (G1 & G2 & G3 & G4 & G5).
  destruct (r1 <? 0); [by injection Hc as <- <-|].
  destruct (l2 <? 0) eqn:El2; bprop; [injection Hc as <- <-; cbn; repeat split; try done; lia|].
  pose proof (images_usage_closes ims l2 (usage i) s1) as E3'.
  destruct (images_usage ims l2 (usage i) s1) as [[?|[r3 u]] s3] eqn:E3; cbn in E3'; subst s3;
    [injection Hc as <- <-; cbn; repeat split; try done; lia|].
  destruct (CalPoolUsage env l r3 (add_ioctx (-1) s1)) as [r2 s2] eqn:E2. injection Hc as <- <-.
  apply IH in E2 as (K1 & K2 & K3 & K4 & K5 & K6); [|by eapply images_usage_ret].
  cbn in *. split; [congruence|]. split; [congruence|]. split; [congruence|]. split; [congruence|]. split; [lia|].
  by destruct r2 as [?|[? ?]].
Qed.

(** ** The calls leave everything as they found it *)
Section calls.
Context (ie : init_env) (e : call_env) (s : ProxyCtx)
  (He : errors_negative ie) (Hpos : init_flag s = true -> 0 < ref s).

Lemma same_refl : same s s.
Proof. by repeat split. Qed.
#[local] Hint Resolve same_refl : core.

Lemma SnapRemove_same pool_id snap_id force ns image :
  same s (snd (CephLibrbdSnapRemove ie e pool_id ns image snap_id force s)).
Proof.
  unfold CephLibrbdSnapRemove. destruct ns as [ns|]; [|done]. destruct image as [image|]; [|done].
  destruct (pool_id =? 0); [done|]. destruct (bytes_eqb image []); [done|]. destruct (snap_id =? 0); [done|].
  destruct (RadosInit ie _ s) as [r s1] eqn:Ei. epose proof (RadosInit_cases ie _ s He) as Hc.
  rewrite Ei in Hc. destruct Hc as (Ho & Hm & _).
  destruct (r <? 0) eqn:Er; bprop; [by eapply init_fails_same|].
  destruct (IoctxInit e ns s1) as [r2 s2] eqn:E2. apply IoctxInit_client in E2 as (G1 & G2 & G3 & G4 & G5).
  destruct (r2 <? 0) eqn:Er2; [eapply shutdown_same; try done; try lia; congruence|].
  unfold IoctxOpenImage. destruct (e_open e <? 0) eqn:Eo; rewrite ?Eo; cbn [snd];
    (eapply shutdown_same; [done|done|exact Ei|lia|..]); cbn; try done; try lia.
Qed.

Lemma GetImageInfo_same image num : same s (snd (CephLibrbdGetImageInfo ie e image num s)).
Proof.
  unfold CephLibrbdGetImageInfo. destruct num as [num|]; [|done]. destruct image as [image|]; [|done].
  destruct (RadosInit ie _ s) as [r s1] eqn:Ei. epose proof (RadosInit_cases ie _ s He) as Hc.
  rewrite Ei in Hc. destruct Hc as (Ho & Hm & _).
  destruct (r <? 0) eqn:Er; bprop; [by eapply init_fails_same|].
  destruct (IoctxInit e [] s1) as [r2 s2] eqn:E2. apply IoctxInit_client in E2 as (G1 & G2 & G3 & G4 & G5).
  destruct (r2 <? 0) eqn:Er2; [eapply shutdown_same; try done; try lia; congruence|].
  unfold ImageState. destruct (e_stat e) as [rs nobj]. unfold IoctxOpenImage.
  destruct (e_open e <? 0) eqn:Eo; rewrite ?Eo; cbn [snd];
    (eapply shutdown_same; [done|done|exact Ei|lia|..]); cbn; try done; try lia.
Qed.

Lemma DiskUsage_same usage get_profile profile_get alloc_profile alloc pool_env lspools :
  let '(r, u, s') := CephLibrbdDiskUsage get_profile profile_get alloc_profile pool_env ie alloc lspools usage s in
  same s s' /\ (r < 0 -> u = usage).
Proof.
  unfold CephLibrbdDiskUsage. destruct usage as [usage|]; [|done].
  destruct (RadosInit ie _ s) as [r s1] eqn:Ei. epose proof (RadosInit_cases ie _ s He) as Hc.
  rewrite Ei in Hc. destruct Hc as (Ho & Hm & _).
  destruct (r <? 0) eqn:Er; bprop; [split; [by eapply init_fails_same|done]|].
  assert (forall s2, init_flag s2 = init_flag s1 -> ref s2 = ref s1 -> client_up s2 = client_up s1 ->
    open_images s2 = open_images s1 -> open_ioctx s2 = open_ioctx s1 -> same s (RadosShutdown s2)) as Hs.
  { intros s2 G1 G2 G3 G4 G5. eapply shutdown_same; try done; try lia; congruence. }
  destruct (MonCommand s1 lspools) as [r0 outs]. destruct (r0 <? 0); [split; [by apply Hs|done]|].
  destruct (ParsePoolMap _ _ _) as [r1 poolMap]. destruct (r1 <? 0); [split; [by apply Hs|done]|].
  destruct (CalPoolProperty _ _ _ _ _) as [r2|pools]; [split; [by apply Hs|done]|].
  destruct (CalPoolUsage pool_env pools 0 s1) as [[r3|[r3 pools']] s2] eqn:E3;
    apply CalPoolUsage_client in E3 as (G1 & G2 & G3 & G4 & G5 & G6); try done; (split; [by apply Hs|]); [done|lia].
Qed.
End calls.

(** What the stages of a call return, written from the results of the libraries
    alone: the first that fails decides. *)
Definition namespace_result (e : call_env) (ns : bytes) : Z :=
  if bytes_eqb ns [] then 0
  else if fst (e_ns_exists e) <? 0 then fst (e_ns_exists e)
  else if snd (e_ns_exists e) then 0 else - ENOENT.
Definition first_error (stages : list Z) : option Z := List.find (fun r => r <? 0) stages.

Lemma IoctxInit_result e ns s : init_flag s = true ->
  fst (IoctxInit e ns s) =
    match first_error [e_create e; namespace_result e ns] with Some x => x | None => namespace_result e ns end.
Proof.
  intros Hi. unfold IoctxInit, namespace_result, first_error. rewrite Hi. cbn [negb List.find].
  destruct (e_create e <? 0) eqn:E1; [done|].
  destruct (bytes_eqb ns []); [done|]. destruct (fst (e_ns_exists e) <? 0) eqn:E2; [by rewrite E2|].
  by destruct (snd (e_ns_exists e)).
Qed.

Lemma RadosInit_up ie conf s r s1 : errors_negative ie -> RadosInit ie conf s = (r, s1) -> ~ r < 0 -> init_flag s1 = true.
Proof.
  intros He Hi Hr. pose proof (RadosInit_cases ie conf s He) as Hc. rewrite Hi in Hc. destruct Hc as (_ & _ & H1 & H2).
  destruct (init_flag s) eqn:Ef; [by destruct (H1 eq_refl) as [_ ->]|].
  destruct (H2 eq_refl) as [[_ ->]|[? _]]; done.
Qed.

Lemma find_two e ns l :
  first_error (e_create e :: namespace_result e ns :: l) =
    match first_error [e_create e; namespace_result e ns] with Some x => Some x | None => first_error l end.
Proof. unfold first_error. cbn. by repeat case_match. Qed.

(** The result of [IoctxInit], in the form the calls use it. *)
Lemma IoctxInit_stage e ns s r s' : init_flag s = true -> IoctxInit e ns s = (r, s') ->
  if r <? 0 then forall l, first_error (e_create e :: namespace_result e ns :: l) = Some r
  else forall l, first_error (e_create e :: namespace_result e ns :: l) = first_error l.
Proof.
  intros Hi He. pose proof (IoctxInit_result e ns s Hi) as Hr. rewrite He in Hr. cbn in Hr.
  destruct (r <? 0) eqn:Er; intros l; rewrite find_two; unfold first_error in *; cbn in *;
    destruct (e_create e <? 0) eqn:E1; subst r; try congruence;
    destruct (namespace_result e ns <? 0) eqn:E2; congruence.
Qed.

(** The result of removing a snapshot. *)
Lemma SnapRemove_result ie e pool_id ns image snap_id force s
  (He : errors_negative ie) (Himg : image <> []) (Hpool : pool_id <> 0) (Hsnap : snap_id <> 0) :
  let c := fst (RadosInit ie [(bs "rbd_cache_writethrough_until_flush", bs "false")] s) in
  fst (CephLibrbdSnapRemove ie e pool_id (Some ns) (Some image) snap_id force s) =
    if c <? 0 then c
    else match first_error [e_create e; namespace_result e ns; e_open e; e_snap_remove_by_id e] with
         | Some r => if r =? - ENOENT then 0 else r
         | None => e_snap_remove_by_id e
         end.
Proof.
  unfold CephLibrbdSnapRemove. replace (pool_id =? 0) with false by lia. replace (snap_id =? 0) with false by lia.
  replace (bytes_eqb image []) with false by (destruct image; done).
  destruct (RadosInit ie _ s) as [r s1] eqn:Ei. cbn [fst].
  destruct (r <? 0) eqn:Er; bprop; [done|]. eapply RadosInit_up in Ei; [|done|lia].
  destruct (IoctxInit e ns s1) as [r2 s2] eqn:E2. eapply IoctxInit_stage in E2; [|done].
  destruct (r2 <? 0); rewrite E2; [done|]. unfold IoctxOpenImage, first_error. cbn [List.find].
  destruct (e_open e <? 0) eqn:Eo; rewrite ?Eo; [done|]. unfold ImageRemoveSnap.
  change (negb (bytes_eqb [] [])) with false. by destruct (e_snap_remove_by_id e <? 0) eqn:E3.
Qed.

(** The result of asking for an image's size. *)
Lemma GetImageInfo_result ie e image old s (He : errors_negative ie) :
  let c := fst (RadosInit ie [] s) in
  fst (CephLibrbdGetImageInfo ie e (Some image) (Some old) s) =
    if c <? 0 then (c, Some old)
    else match first_error [e_create e; e_open e; fst (e_stat e)] with
         | Some r => (r, Some old)
         | None => (fst (e_stat e), Some (s32 (snd (e_stat e))))
         end.
Proof.
  unfold CephLibrbdGetImageInfo. destruct (RadosInit ie _ s) as [r s1] eqn:Ei. cbn [fst].
  destruct (r <? 0) eqn:Er; bprop; [done|]. eapply RadosInit_up in Ei; [|done|lia].
  destruct (IoctxInit e [] s1) as [r2 s2] eqn:E2. eapply IoctxInit_stage in E2; [|done].
  assert (forall l, first_error (e_create e :: l) = first_error (e_create e :: namespace_result e [] :: l)) as Hns by done.
  rewrite Hns. destruct (r2 <? 0); rewrite E2; [done|]. unfold IoctxOpenImage, first_error, ImageState. cbn [List.find].
  destruct (e_open e <? 0) eqn:Eo; rewrite ?Eo; [done|]. destruct (e_stat e) as [rs n]. cbn.
  by destruct (rs <? 0).
Qed.

(** C31: every librbd call gives back what it took, on every path: whatever the
    libraries return, the client's state and reference count, the open IO
    contexts and the open images and snapshots are those from before the call.
    (Assumed: failures of the client's initialisation are negative, and an
    initialised client has a positive reference count.)  Removing a snapshot
    refuses bad arguments with [-EINVAL], reports a failed initialisation as it
    is, and otherwise the first stage that fails (pool, namespace, image,
    snapshot), with [-ENOENT] turned into success and every other error as it
    is.  Asking for an image's size reports the first stage that fails as it is
    and writes the number of objects, cut to 32 bits, on success only; the disk
    usage, too, is written on success only. *)
Theorem librbd_calls_balanced (ie : init_env) (e : call_env) (s : ProxyCtx)
  (He : errors_negative ie) (Hpos : init_flag s = true -> 0 < ref s)
  (pool_id snap_id : Z) (force : bool) (ns image : option bytes) (num usage : option Z)
  (get_profile profile_get : bytes -> Z * bytes) (alloc_profile : bytes -> bool) (alloc : bool)
  (pool_env : bytes -> call_env * Z * list image_env) (lspools : Z * bytes) :
  (let '(r, s') := CephLibrbdSnapRemove ie e pool_id ns image snap_id force s in
   same s s' /\
   match ns, image with
   | Some ns, Some image =>
       if (pool_id =? 0) || bytes_eqb image [] || (snap_id =? 0) then r = - EINVAL else
       let c := fst (RadosInit ie [(bs "rbd_cache_writethrough_until_flush", bs "false")] s) in
       if c <? 0 then r = c else
       match first_error [e_create e; namespace_result e ns; e_open e; e_snap_remove_by_id e] with
       | Some x => r = if x =? - ENOENT then 0 else x
       | None => r = e_snap_remove_by_id e
       end
   | _, _ => r = - EINVAL
   end) /\
  (let '(r, n, s') := CephLibrbdGetImageInfo ie e image num s in
   same s s' /\
   match image, num with
   | Some image, Some old =>
       let c := fst (RadosInit ie [] s) in
       if c <? 0 then r = c /\ n = Some old else
       match first_error [e_create e; e_open e; fst (e_stat e)] with
       | Some x => r = x /\ n = Some old
       | None => r = fst (e_stat e) /\ n = Some (s32 (snd (e_stat e)))
       end
   | _, _ => r = - EINVAL /\ n = num
   end) /\
  (let '(r, u, s') := CephLibrbdDiskUsage get_profile profile_get alloc_profile pool_env ie alloc lspools usage s in
   same s s' /\ (r < 0 -> u = usage)).
Proof.
  split; [|split].
  - pose proof (SnapRemove_same ie e s He Hpos pool_id snap_id force ns image) as Hs.
    destruct ns as [ns|], image as [image|]; try done.
    pose proof (SnapRemove_result ie e pool_id ns image snap_id force s He) as Hr.
    destruct ((pool_id =? 0) || bytes_eqb image [] || (snap_id =? 0)) eqn:Ea.
    + destruct (CephLibrbdSnapRemove _ _ _ _ _ _ _ _) as [r s'] eqn:Ec. split; [done|]. revert Ec.
      unfold CephLibrbdSnapRemove. revert Ea.
      destruct (pool_id =? 0); [by intros _ [= <- <-]|]. destruct (bytes_eqb image []); [by intros _ [= <- <-]|].
      cbn. by intros -> [= <- <-].
    + apply orb_false_elim in Ea as [[Ep Ei]%orb_false_elim Es]. cbn zeta in Hr.
      destruct (CephLibrbdSnapRemove _ _ _ _ _ _ _ _) as [r s']. split; [done|]. cbn [fst] in Hr. cbn zeta.
      rewrite Hr by first [lia | intros ->; done]. by repeat case_match.
  - pose proof (GetImageInfo_same ie e s He Hpos image num) as Hs.
    destruct image as [image|], num as [num|]; try done.
    pose proof (GetImageInfo_result ie e image num s He) as Hr. cbn zeta in Hr.
    destruct (CephLibrbdGetImageInfo _ _ _ _ _) as [[r n] s']. split; [done|]. cbn [fst] in Hr. cbn zeta.
    by repeat case_match; simplify_eq.
  - exact (DiskUsage_same ie s He Hpos usage get_profile profile_get alloc_profile alloc pool_env lspools).
Qed.

(** ** Witnesses *)

Definition env_ok : init_env :=
  {| e_init := 0; e_conf_path := (0, bs "/etc/ceph/ceph.conf"); e_keyring_path := (0, bs "keyring"); e_read := 0; e_auth := (0, bs "none"); e_keyring := 0;
     e_conf_set := fun _ _ => 0; e_connect := fun k => if Nat.eqb k 4 then 0 else -110 |}.
Definition env_down : init_env :=
  {| e_init := 0; e_conf_path := (0, bs "/etc/ceph/ceph.conf"); e_keyring_path := (0, bs "keyring"); e_read := 0; e_auth := (0, bs "cephx"); e_keyring := -2;
     e_conf_set := fun _ _ => 0; e_connect := fun _ => 0 |}.
Definition call_ok : call_env :=
  {| e_create := 0; e_ns_exists := (0, true); e_open := 0; e_snap_remove2 := fun _ _ => 0; e_snap_remove_by_id := - ENOENT; e_stat := (0, 7) |}.

(** The call of the first failed start connects on the fifth try. *)
Lemma client_lifetime_witness :
  run [Begin env_down []; Begin env_ok []; Begin env_down []; End] (ctx0, 0)
    = Some ({| init_flag := true; ref := 1; client_up := true; open_ioctx := 0; open_images := 0 |}, 1) /\
  (0 < 1 -> 1 = 1).
Proof.
  assert (Hr : run [Begin env_down []; Begin env_ok []; Begin env_down []; End] (ctx0, 0)
    = Some ({| init_flag := true; ref := 1; client_up := true; open_ioctx := 0; open_images := 0 |}, 1))
    by (vm_compute; reflexivity).
  split; [exact Hr|].
  refine (proj2 (proj2 (client_lifetime _ _ _ _ Hr))).
  repeat constructor; vm_compute; intros [=].
Defined.

(** An image whose second snapshot cannot be compared: it is opened twice, and
    closed twice. *)
Definition image_bad : image_env :=
  {| im_open := 0; im_stat := 0; im_snap_list := 0;
     im_snaps := [(0, 0, [(4096, true)]); (0, -5, [])]; im_diff := (0, [(8192, true)]) |}.
Definition lspools_one : Z * bytes := (0, bs "3 rbd" ++ [newline]).
Definition up : ProxyCtx := {| init_flag := true; ref := 1; client_up := true; open_ioctx := 0; open_images := 2 |}.

Lemma librbd_calls_balanced_witness :
  fst (CephLibrbdSnapRemove env_ok call_ok 3 (Some []) (Some (bs "img")) 9 true up) = 0 /\
  fst (CephLibrbdGetImageInfo env_ok call_ok (Some (bs "img")) (Some 0) up) = (0, Some 7) /\
  same up (snd (CephLibrbdDiskUsage (fun _ => (- EACCES, [])) (fun _ => (0, [])) (fun _ => true)
     (fun _ => (call_ok, 1, [image_bad])) env_ok true lspools_one (Some 5) up)) /\
  fst (CephLibrbdDiskUsage (fun _ => (- EACCES, [])) (fun _ => (0, [])) (fun _ => true)
     (fun _ => (call_ok, 1, [image_bad])) env_ok true lspools_one (Some 5) up) = (-5, Some 5).
Proof.
  assert (He : errors_negative env_ok) by (repeat split; vm_compute; intros [=]).
  assert (Hp : init_flag up = true -> 0 < ref up) by (intros _; vm_compute; reflexivity).
  pose proof (librbd_calls_balanced env_ok call_ok up He Hp 3 9 true (Some []) (Some (bs "img")) (Some 0) (Some 5)
    (fun _ => (- EACCES, [])) (fun _ => (0, [])) (fun _ => true) true (fun _ => (call_ok, 1, [image_bad])) lspools_one)
    as (H1 & H2 & H3).
  split; [vm_compute; reflexivity|]. split; [vm_compute; reflexivity|].
  split; [|vm_compute; reflexivity].
  destruct (CephLibrbdDiskUsage _ _ _ _ _ _ _ _ _) as [[r u] s'] in H3 |- *. exact (proj1 H3).
Defined.
End RbdWrapper.
